(* ===== verification/_CoqProject ===== *)
-Q . S2P
Prelude.v
RustStr.v
Message.v
MailText.v
Smtp.v
Transport.v
Store.v
Metrics.v
Auth.v
Secrets.v
Pop.v
Imap.v
Submission.v
Net.v
AddrParse.v
Throttle.v
Greylist.v
AuditTrail.v
Firewall.v
Received.v
Dmarc.v
Dns.v
Spf.v
Dkim.v
Tls.v
MtaSts.v
Spool.v
Server.v
Serve.v
Access.v
Listen.v
Worker.v
Retries.v
DmarcReport.v
Outbound.v
Startup.v
EndToEnd.v
Compose.v
Pipeline.v
Client.v
Telemetry.v
Process.v
Queue.v
Authority.v
Custody.v
Faults.v
