(* ===== verification/Prelude.v ===== *)
(** * A verification of the Snail mail server

    Snail is a mail server: an SMTP receiver on the public port, an authenticated
    submission port, POP3, IMAP and web access to the mailboxes, and a relay
    worker that delivers queued mail to other servers.  This development
    translates its Rust sources into Gallina functions and proves what makes
    them correct.  Paths below are relative to the repository.

    ** The program and its model

    A connection's bytes are read by a capped line reader and handed line by line
    to a protocol session (a pure state machine); accepted messages go through
    the MTA, which delivers to local mailboxes through a content filter and
    queues the rest on a spool directory that the relay worker drains.  Inbound
    mail is checked with SPF, DKIM and DMARC; outbound mail finds its exchange by
    MX, MTA-STS and DANE.  Around them stand authentication with a throttle, a
    greylist, a firewall and an audit log.

    Foundations:
    - [Prelude]: results, machine integers, lengths, tactics and list lemmas.
    - [RustStr]: the parts of [str], byte slices and UTF-8 the sources use.
    - [Net], [AddrParse]: addresses and clocks; the address parser of the
      standard library.
    - [MailText]: header lines built by the program and how they parse.

    Mail (crates/mail, crates/filter):
    - [Message] (snailmail.rs, error.rs): mailboxes, envelopes, headers, and
      messages that keep the bytes received.
    - [Smtp] (transport/smtp.rs): commands, replies and the session, with its
      step relation and a specification of the transaction.
    - [Transport] (transport/inbound.rs, outbound.rs): the DATA collector, dot
      stuffing and the script the relay sends.
    - [Store] (storage/store.rs, storage/mda.rs, transport/mta.rs, security,
      crates/filter/src/spam/mod.rs): the [MailStore] interface and its laws, the
      in-memory store, delivery, routing and the filters.
    - [Metrics] (observability): the counters, under interleaving.

    Access and protection (crates/access, identity, security):
    - [Auth] (crates/security/src/credential, encryption/hash.rs,
      crates/identity/src): credentials, accounts, [authenticate], SASL and
      XOAUTH2; password hashing is an interface.
    - [Secrets] (crates/security/src/encryption): the cipher for stored secrets.
    - [Pop], [Imap], [Submission] (crates/access/src): the access sessions, proved
      against the store and authentication interfaces.
    - [Throttle], [Greylist], [AuditTrail], [Firewall] (crates/security/src): the
      login throttle, the greylist, the audit ring and its hash chain, and the
      firewall.

    Network checks (crates/network):
    - [Dns] (directory dns): the [DnsResolver] interface as a record, and the resolver
      over the third-party answers with its DNSSEC filtering.
    - [Spf] (directory spf): record parser, macros, the evaluator with its budgets, and a
      budget-free reference semantics.
    - [Dkim] (dkim, dns/dkim.rs): signature tags, canonicalization, verification.
    - [Dmarc] (dmarc, dns/dmark.rs, dns/txt.rs, and the accumulator of
      services/snail_server/src/dmarc_report.rs).
    - [Tls] (tls/mod.rs, dane/mod.rs): client configurations as certificate
      verifiers, DANE matching.
    - [MtaSts] (directory mta_sts): policies, the HTTP response, the policy cache.

    The server (services/snail_server/src):
    - [Received] (received.rs): trace headers and dates.
    - [Spool] (spool.rs): the queue as a finite map of files; operations are lists
      of file system calls, a crash is a prefix.
    - [Server] (server.rs): the shared state and the relay gate.
    - [Serve], [Access] (serve.rs): the line reader and one iteration of each of the
      four listeners; the accept loop.  [Listen] is the loops around the iterations,
      from the greeting to the end of the connection, with the TLS upgrade, socket
      failures and the other connections.
    - [Worker] (worker.rs, dsn.rs): bounce messages and one pass of the relay
      worker.  [Retries]: the attempts on one queued message until it has left the
      queue.  [Outbound] (outbound.rs): the relay client.
    - [DmarcReport] (dmarc_report.rs): aggregate reports.
    - [Startup] (main.rs, config.rs, the builders of server.rs, the listeners bound by
      serve.rs, crates/utilities): from the environment to a running server.
    - [Client] (crates/client/bind.rs, src/main.rs): the client library and its command.
    - [EndToEnd]: the relay client of one server against the inbound listener of
      another.  [Compose]: the inbound listener with the translated SPF, DKIM and
      DMARC, and the worker with the translated relay client.  [Pipeline]: a submission
      at one server, its queue, worker and relay client, and the listener and mailbox of
      another.
    - [Process] ([run] of serve.rs with the tasks it spawns): the process as executable
      transitions, a run being a list of events: four accept loops, their connections,
      the relay and report workers, Ctrl-C and the stop.  [Queue] says which files each
      spool operation can touch; [Authority] and [Custody] prove on top of it what holds
      in every interleaving.
    - [Faults] (spool.rs, with its callers in server.rs and worker.rs): the spool's
      operations and what calls them when a system call fails.

    Beside it: [Telemetry] (services/telemetry): the exporter setting, the once-only
    initialisation, the event counter, the self-test, and the programs that start it
    (main.rs of services/snail_server, of crates/mail).

    Components meet at interfaces: the sessions use the classes [MailStore] and
    [SessionAuth], credential stores are a [CredentialStore], the cipher an [Aead],
    name service a [DnsResolver]; [Serve] and [Worker] take the sender checks and the
    relay as parameters, which [Compose] instantiates.

    Stateful code is explicit state passing; [Result] is [result] and a panic is
    a value of its own where the code can panic.  A [String] is the list of its
    Unicode scalar values, bytes are numbers below 256, and both are lists of
    [Z].  Fixed-width integers are [Z] with the wrap-around written out
    ([add_u32], [add_u64], [sat_add_u32]); [usize] is 64 bits.  A [SystemTime] is
    a number of nanoseconds from the Unix epoch, passed as an argument.  Maps and
    sets are stdpp's [gmap] and [gset].

    ** What the theorems show

    - The whole process, over every interleaving of its tasks: mail is queued or put in a
      mailbox only by those with the authority to, and taken out only by its owner
      ([Authority]); a queued message stays on disk until the relay client has delivered
      it or the reaper's retention time has passed ([Custody]); no listener exceeds its
      limit or loses a permit, and after Ctrl-C every execution ends within a bounded
      number of steps, never in the middle of a relay attempt ([Process]).  A failing disk
      loses no message that is already queued, but one that cannot be queued is
      acknowledged all the same ([Faults]).
    - Between servers: mail submitted at one server is in the mailboxes of another after
      the worker's attempt, one copy for each hosted recipient with exactly the trace
      fields of the two servers added, or nothing is there and it is kept as bounced, or
      the receiving content filter refused it ([Pipeline]); the relay client and the inbound listener, with any cutting
      of the bytes into reads, agree on whether the message was taken
      ([EndToEnd]); a queued message leaves the disk only when a server took it
      ([Compose]); a client's composed message is collected as composed and cannot be
      made to say more than its arguments ([Client]).
    - Sender authentication: an enforcing server accepts a message from a domain with a
      reject policy only on the authority of an aligned domain ([Compose]); SPF is its
      reference semantics within its budgets and always ends ([Spf]); a DKIM pass is the
      signer's, and covers the body, up to an [l=] limit, and the listed fields, over
      the canonical forms of RFC 6376 ([Dkim]); DMARC passes exactly on an aligned pass,
      and otherwise applies the published policy ([Dmarc]).
    - Transport security: under an enforced MTA-STS policy or with DANE nothing but the
      greeting is sent in clear or to another exchange ([Outbound]); policies applied
      are authentic and current ([MtaSts]); DANE accepts by usable records only ([Tls]).
    - The listeners: every connection whose client closes or whose socket fails ends;
      chunking is invisible, in clear and under TLS, to a client that waits for the answer
      to STARTTLS; the public port
      never relays and only fills hosted mailboxes; mail enters through submission only
      with a password; STARTTLS starts a fresh session; POP3 and IMAP give data
      only to the authenticated owner, from the mailbox as it was at the login or SELECT,
      POP3 deletes exactly what was marked, and guesses
      are throttled ([Serve], [Access], [Listen]).
    - Sessions and framing: the SMTP session refines the transaction a client sees; the
      DATA collector ends exactly at [<CRLF>.<CRLF>] (no smuggling), returns the unstuffed
      lines before it, is bounded and canonical; relayed bodies come back as sent ([Smtp], [Transport]).
    - Delivery and queueing: recipients are partitioned into local and remote, one
      queue entry per remote domain; enqueueing is atomic and bouncing never loses
      mail under crashes at any file system call, including during recovery; the
      scan returns exactly the due entries; each relay attempt removes,
      reschedules or bounces, and bounded attempts settle every entry ([Retries]); bounces
      carry the null sender.
    - Start-up: a started server offers TLS, on the public port only with a configured
      certificate; exactly the configured users can log in; the security switches mean
      what they say when the system has a resolver ([Startup]).
    - Protection: the throttle locks out per address and only then, the greylist is
      sound and lets retries through, the firewall's policy order, the audit
      chain's validity and tamper evidence, the accept loop's budget, stored secrets,
      telemetry initialised at most once.
    - Formats: mailboxes, headers, SPF records, control records, reports and dates.

    ** Bounds and fuel

    Most recursion is structural.  Where it is not, the fuel is a bound on the number of
    iterations and a lemma shows that it is enough: index loops over a text (splitting,
    canonicalization, chunking, unescaping) take its length; printing takes one more
    than the logarithm; SPF takes one more than [MAX_LOOKUPS], since each nested check
    charges a lookup; a connection takes one more than the bytes of its two channels,
    since each iteration reads at least one.

    ** What is not modelled

    Third-party code is a parameter or an interface: Argon2, Blake2b, SHA-256, RSA and
    Ed25519, ChaCha20-Poly1305, base64, gzip, X.509 and WebPKI, DNS transport, HTTPS
    exchanges, the Public Suffix List, the rate limiter, TLS handshakes and the order in
    which [read_dir] lists a directory, OpenTelemetry.  The tasks of the server interleave in
    [Process] at the awaits: what a task does between two of them is one transition.
    On several threads such stretches overlap; they meet in the state behind the server's
    locks and in the spool, where each works on entries of its own.  The MTA-STS cache is
    the relay worker's alone, one attempt at a time, so its lookup and its update, with
    the fetch awaited between them, are one step ([policy_for]).  Timers are events
    that may come at any time.  A connection is not timed out by the server: in
    [Process] a silent client is one without further events, which holds its permit, while
    in [Listen] a client's input ends.  The spool runs without I/O errors except in
    [Faults] and, as a crash at any call, in [Spool].  Not modelled: log output, locks poisoned by a panic
    (except in the credential store), the poll functions that only delegate to tokio and
    rustls, a Ctrl-C handler that cannot be installed, and build scripts. *)
From stdpp Require Export prelude gmap strings list fin_maps sets relations.
From Stdlib Require Export ZArith Lia.

#[global] Open Scope Z_scope.
#[global] Arguments Z.eqb : simpl never.
#[global] Arguments Z.leb : simpl never.
#[global] Arguments Z.ltb : simpl never.
#[global] Arguments Z.add : simpl never.
#[global] Arguments Z.sub : simpl never.
#[global] Arguments Z.mul : simpl never.

(** ** Results

    Rust's [Result<T, E>], with the [?] operator as monadic bind. *)
Inductive result (E A : Type) : Type :=
  | Ok (a : A)
  | Err (e : E).
Arguments Ok {E A} a.
Arguments Err {E A} e.

#[export] Instance result_ret {E} : MRet (result E) := λ A a, Ok a.
#[export] Instance result_bind {E} : MBind (result E) :=
  λ A B f r, match r with Ok a => f a | Err e => Err e end.
#[export] Instance result_fmap {E} : FMap (result E) :=
  λ A B f r, match r with Ok a => Ok (f a) | Err e => Err e end.

(** [Option::ok_or_else]. *)
Definition ok_or {E A} (e : E) (o : option A) : result E A :=
  match o with Some a => Ok a | None => Err e end.

(** [Result::map_err]. *)
Definition map_err {E E' A} (f : E → E') (r : result E A) : result E' A :=
  match r with Ok a => Ok a | Err e => Err (f e) end.

(** [Result::ok]. *)
Definition ok {E A} (r : result E A) : option A :=
  match r with Ok a => Some a | Err _ => None end.

(** [Result::is_ok]. *)
Definition is_ok {E A} (r : result E A) : bool :=
  match r with Ok _ => true | Err _ => false end.

Lemma bind_Ok {E A B} (r : result E A) (f : A → result E B) b : (r ≫= f) = Ok b ↔ ∃ a, r = Ok a ∧ f a = Ok b.
Proof. destruct r; cbn; naive_solver. Qed.
Lemma map_err_Ok {E E' A} (f : E → E') (r : result E A) a : map_err f r = Ok a ↔ r = Ok a.
Proof. destruct r; cbn; naive_solver. Qed.

#[export] Instance result_eq_dec {E A} `{EqDecision E, EqDecision A} :
  EqDecision (result E A).
Proof. solve_decision. Defined.

(** ** Machine integers *)

(** [usize] and the lengths of vectors, strings and slices, kept as [Z]. *)
Definition len {A} (l : list A) : Z := Z.of_nat (length l).

Definition U8_MAX : Z := 2 ^ 8 - 1.
Definition U16_MAX : Z := 2 ^ 16 - 1.
Definition U32_MAX : Z := 2 ^ 32 - 1.
Definition U64_MAX : Z := 2 ^ 64 - 1.
(** The server targets 64-bit hosts: [usize] is 64 bits wide. *)
Definition USIZE_MAX : Z := U64_MAX.

(** [a + b] on [u32] and [u64] in a release build (wrap-around). *)
Definition add_u32 (a b : Z) : Z := (a + b) mod 2 ^ 32.
Definition add_u64 (a b : Z) : Z := (a + b) mod 2 ^ 64.

(** [u32::saturating_add]. *)
Definition sat_add_u32 (a b : Z) : Z := Z.min (a + b) U32_MAX.

Lemma add_u32_small a b : 0 ≤ a + b ≤ U32_MAX → add_u32 a b = a + b.
Proof. unfold add_u32, U32_MAX. intros. apply Z.mod_small. lia. Qed.

Lemma add_u64_small a b : 0 ≤ a + b ≤ U64_MAX → add_u64 a b = a + b.
Proof. unfold add_u64, U64_MAX. intros. apply Z.mod_small. lia. Qed.

(** ** Lengths *)

Lemma len_nil {A} : len (@nil A) = 0.
Proof. done. Qed.
Lemma len_cons {A} (x : A) l : len (x :: l) = 1 + len l.
Proof. unfold len. simpl. lia. Qed.
Lemma len_app {A} (l k : list A) : len (l ++ k) = len l + len k.
Proof. unfold len. rewrite length_app. lia. Qed.
Lemma len_nonneg {A} (l : list A) : 0 ≤ len l.
Proof. unfold len. lia. Qed.
Lemma len_zero_iff {A} (l : list A) : len l = 0 ↔ l = [].
Proof. unfold len. split; [|by intros ->]. destruct l; simpl; [done|lia]. Qed.
Lemma len_fmap {A B} (f : A → B) l : len (f <$> l) = len l.
Proof. unfold len. by rewrite length_fmap. Qed.
Lemma len_reverse {A} (l : list A) : len (reverse l) = len l.
Proof. unfold len. by rewrite length_reverse. Qed.

Create HintDb snail.
Create HintDb len.
#[export] Hint Rewrite @len_nil @len_cons @len_app @len_fmap @len_reverse : len.

(** ** Tactics *)

(** Turn the boolean tests of the code into propositions. *)
Ltac bsimp :=
  repeat match goal with
  | H : _ && _ = true |- _ => apply andb_true_iff in H as [? ?]
  | H : _ || _ = false |- _ => apply orb_false_iff in H as [? ?]
  | H : negb _ = true |- _ => apply negb_true_iff in H
  | H : negb _ = false |- _ => apply negb_false_iff in H
  | H : bool_decide _ = true |- _ => apply bool_decide_eq_true in H
  | H : bool_decide _ = false |- _ => apply bool_decide_eq_false in H
  | H : (_ =? _)%Z = true |- _ => apply Z.eqb_eq in H
  | H : (_ =? _)%Z = false |- _ => apply Z.eqb_neq in H
  | H : (_ <? _)%Z = true |- _ => apply Z.ltb_lt in H
  | H : (_ <? _)%Z = false |- _ => apply Z.ltb_ge in H
  | H : (_ <=? _)%Z = true |- _ => apply Z.leb_le in H
  | H : (_ <=? _)%Z = false |- _ => apply Z.leb_gt in H
  | H : (_ =? _)%bool = true |- _ => apply eqb_true_iff in H
  end.

(** Split on the scrutinee of the first [if] or [match] in the goal. *)
Ltac case_code :=
  match goal with
  | |- context [if ?b then _ else _] => destruct b eqn:?
  | |- context [match ?x with _ => _ end] => destruct x eqn:?
  end.

(** The same in a hypothesis. *)
Ltac case_code_in H :=
  match type of H with
  | context [if ?b then _ else _] => destruct b eqn:?
  | context [match ?x with _ => _ end] => destruct x eqn:?
  end.

Ltac len_lia := autorewrite with len in *; lia.

(** ** Lists *)

Section lists.
Context {A : Type}.
Implicit Types l k : list A.

(** [Iterator::find]. *)
Fixpoint list_find_first (P : A → bool) (l : list A) : option A :=
  match l with
  | [] => None
  | x :: t => if P x then Some x else list_find_first P t
  end.

(** [slice.iter().skip_while(p)]. *)
Fixpoint drop_while (P : A → bool) (l : list A) : list A :=
  match l with
  | [] => []
  | x :: t => if P x then drop_while P t else l
  end.

Lemma drop_while_suffix P l : ∃ k, l = k ++ drop_while P l ∧ Forall (λ x, P x = true) k.
Proof.
  induction l as [|x l (k & Hk & HF)]; simpl; [by exists []|].
  case_code; [|by exists []].
  exists (x :: k). simpl. split; [by f_equal|by constructor].
Qed.

Lemma drop_while_head P l x t : drop_while P l = x :: t → P x = false.
Proof. induction l; simpl; [done|]. case_code; naive_solver. Qed.

Lemma drop_while_id P l : (∀ x t, l = x :: t → P x = false) → drop_while P l = l.
Proof. destruct l as [|x l]; simpl; [done|]. intros H. by rewrite (H x l). Qed.

Lemma drop_while_app_all P l k :
  Forall (λ x, P x = true) l → drop_while P (l ++ k) = drop_while P k.
Proof. induction 1 as [|x l Hx _ IH]; simpl; [done|]. by rewrite Hx. Qed.

(** The trailing counterpart, used by [trim_end]. *)
Definition drop_while_end (P : A → bool) (l : list A) : list A :=
  reverse (drop_while P (reverse l)).

Lemma drop_while_end_prefix P l : ∃ k, l = drop_while_end P l ++ k ∧ Forall (λ x, P x = true) k.
Proof.
  unfold drop_while_end. destruct (drop_while_suffix P (reverse l)) as (k & Hk & HF).
  exists (reverse k). split; [|by apply Forall_reverse].
  rewrite <-reverse_app, <-Hk. by rewrite reverse_involutive.
Qed.

Lemma drop_while_end_id P l :
  (∀ x t, l = t ++ [x] → P x = false) → drop_while_end P l = l.
Proof.
  intros H. unfold drop_while_end. rewrite drop_while_id; [apply reverse_involutive|].
  intros x t Ht. apply (H x (reverse t)).
  apply (f_equal reverse) in Ht. rewrite reverse_involutive in Ht.
  by rewrite Ht, reverse_cons.
Qed.

Lemma drop_while_end_last P l x t : drop_while_end P l = t ++ [x] → P x = false.
Proof.
  unfold drop_while_end. intros H. apply (f_equal reverse) in H.
  rewrite reverse_involutive, reverse_app in H. simpl in H.
  by apply drop_while_head in H.
Qed.

Lemma drop_while_end_app_all P l k :
  Forall (λ x, P x = true) k → drop_while_end P (l ++ k) = drop_while_end P l.
Proof.
  intros. unfold drop_while_end. rewrite reverse_app, drop_while_app_all; [done|].
  by apply Forall_reverse.
Qed.

Lemma elem_of_drop_in x n l : x ∈ drop n l → x ∈ l.
Proof. intros. rewrite <-(take_drop n l), elem_of_app. auto. Qed.

Lemma elem_of_take_in x n l : x ∈ take n l → x ∈ l.
Proof. intros. rewrite <-(take_drop n l), elem_of_app. auto. Qed.

Lemma filter_split_Permutation (P : A → Prop) `{∀ x, Decision (P x)} l :
  filter P l ++ filter (λ x, ¬ P x) l ≡ₚ l.
Proof.
  induction l as [|x l IH]; [done|]. rewrite !filter_cons.
  case_decide; [rewrite decide_False by tauto|rewrite decide_True by done]; simpl.
  - by rewrite IH.
  - by rewrite <-Permutation_middle, IH.
Qed.

Lemma filter_all (P : A → Prop) `{∀ x, Decision (P x)} l : (∀ x, x ∈ l → P x) → filter P l = l.
Proof.
  induction l as [|x l IH]; intros HP; [done|].
  rewrite filter_cons_True by (apply HP; set_solver). f_equal. apply IH. set_solver.
Qed.

End lists.
