(* ===== verification/RustStr.v ===== *)
(** * The parts of Rust's [str], [String] and byte-slice API the server uses

    A [char] is a Unicode scalar value and a [&str] or [String] the list of its
    chars; a byte is a [Z] in [0, 255] and a [Vec<u8>] or [&[u8]] a list of
    bytes.  Both are lists of [Z], so the searching and splitting functions
    below serve the two.  [utf8_encode] and [utf8_decode] go from one to the
    other; [from_utf8_lossy] follows [String::from_utf8_lossy], one replacement
    character per maximal invalid sequence. *)
From S2P Require Import Prelude.

Notation char := Z (only parsing).
Notation str := (list Z) (only parsing).
Notation byte := Z (only parsing).
Notation bytes := (list Z) (only parsing).

(** A string literal of the source. *)
Definition lit (s : string) : str :=
  (λ a, Z.of_N (Ascii.N_of_ascii a)) <$> String.list_ascii_of_string s.
Arguments lit s%_string_scope : simpl never.

Definition HT : Z := 9.
Definition LF : Z := 10.
Definition CR : Z := 13.
Definition SP : Z := 32.
Definition QUOTE : Z := 34.
Definition DOT : Z := 46.
Definition SLASH : Z := 47.
Definition COLON : Z := 58.
Definition LT_ : Z := 60.
Definition GT_ : Z := 62.
Definition AT : Z := 64.
Definition CRLF : list Z := [CR; LF].

Lemma len_CRLF : len CRLF = 2.
Proof. done. Qed.
#[export] Hint Rewrite len_CRLF : len.

(** ** Comparisons *)

Definition str_eqb (a b : list Z) : bool := bool_decide (a = b).
Infix "=s?" := str_eqb (at level 70).

Definition to_ascii_lower (c : char) : char := if (65 <=? c) && (c <=? 90) then c + 32 else c.
Definition to_ascii_upper (c : char) : char := if (97 <=? c) && (c <=? 122) then c - 32 else c.
(** [str::to_ascii_lowercase], [str::to_ascii_uppercase], [str::eq_ignore_ascii_case]. *)
Definition lowercase (s : str) : str := to_ascii_lower <$> s.
Definition uppercase (s : str) : str := to_ascii_upper <$> s.
Definition eq_ignore_case (a b : str) : bool := str_eqb (lowercase a) (lowercase b).

Definition is_ascii_digit (c : char) : bool := (48 <=? c) && (c <=? 57).
Definition is_ascii_alpha (c : char) : bool :=
  ((65 <=? c) && (c <=? 90)) || ((97 <=? c) && (c <=? 122)).

(** ** Prefixes, suffixes and searching *)

Fixpoint strip_prefix (p s : list Z) : option (list Z) :=
  match p, s with
  | [], _ => Some s
  | a :: p', b :: s' => if a =? b then strip_prefix p' s' else None
  | _ :: _, [] => None
  end.

Definition strip_suffix (p s : list Z) : option (list Z) :=
  reverse <$> strip_prefix (reverse p) (reverse s).

Definition starts_with (p s : list Z) : bool :=
  match strip_prefix p s with Some _ => true | None => false end.
Definition ends_with (p s : list Z) : bool :=
  match strip_suffix p s with Some _ => true | None => false end.

(** Index of the first occurrence of [needle]: [windows(n).position(..)] on
    bytes, [str::find(&str)] on text. *)
Fixpoint find_sub (needle hay : list Z) : option nat :=
  if starts_with needle hay then Some 0%nat
  else match hay with
       | [] => None
       | _ :: t => S <$> find_sub needle t
       end.

(** [str::contains(&str)] and [str::contains(char)]. *)
Definition contains (needle hay : list Z) : bool :=
  match find_sub needle hay with Some _ => true | None => false end.
Definition contains_char (c : char) (s : list Z) : bool := bool_decide (c ∈ s).

(** [str::split_once(char)], [str::rsplit_once(char)]. *)
Fixpoint split_once (c : char) (s : list Z) : option (list Z * list Z) :=
  match s with
  | [] => None
  | x :: t =>
      if x =? c then Some ([], t)
      else match split_once c t with
           | Some (a, b) => Some (x :: a, b)
           | None => None
           end
  end.

Definition rsplit_once (c : char) (s : list Z) : option (list Z * list Z) :=
  match split_once c (reverse s) with
  | Some (a, b) => Some (reverse b, reverse a)
  | None => None
  end.

(** [str::split(char)] and [slice::split(pred)]: never empty. *)
Fixpoint split_on (P : Z → bool) (s : list Z) : list (list Z) :=
  match s with
  | [] => [[]]
  | x :: t =>
      if P x then [] :: split_on P t
      else match split_on P t with
           | [] => [[x]]
           | h :: r => (x :: h) :: r
           end
  end.
Definition split_char (c : char) (s : list Z) : list (list Z) := split_on (Z.eqb c) s.

(** [slice::join(sep)]. *)
Fixpoint join (sep : list Z) (ls : list (list Z)) : list Z :=
  match ls with
  | [] => []
  | [l] => l
  | l :: r => l ++ sep ++ join sep r
  end.

(** [str::lines()]: split after every [\n], then drop the [\n] and a [\r] just
    before it; a last line without [\n] is kept as it is. *)
Fixpoint split_inclusive_lf (s : list Z) : list (list Z) :=
  match s with
  | [] => []
  | x :: t =>
      if x =? LF then [x] :: split_inclusive_lf t
      else match split_inclusive_lf t with
           | [] => [[x]]
           | h :: r => (x :: h) :: r
           end
  end.
Definition chomp (l : list Z) : list Z :=
  match strip_suffix [LF] l with
  | None => l
  | Some l' => match strip_suffix [CR] l' with None => l' | Some l'' => l'' end
  end.
Definition lines (s : str) : list str := chomp <$> split_inclusive_lf s.

(** ** Trimming *)

(** [char::is_whitespace]: the Unicode [White_Space] property. *)
Definition is_whitespace (c : char) : bool :=
  ((9 <=? c) && (c <=? 13)) || (c =? 32) || (c =? 133) || (c =? 160) || (c =? 5760) ||
  ((8192 <=? c) && (c <=? 8202)) || (c =? 8232) || (c =? 8233) || (c =? 8239) ||
  (c =? 8287) || (c =? 12288).

Definition trim_start (s : str) : str := drop_while is_whitespace s.
Definition trim_end (s : str) : str := drop_while_end is_whitespace s.
Definition trim (s : str) : str := trim_end (trim_start s).
(** [s.trim_end_matches(['\r', '\n'])]. *)
Definition trim_end_crlf (s : str) : str := drop_while_end (λ c, (c =? CR) || (c =? LF)) s.

(** [str::split_whitespace]. *)
Definition split_whitespace (s : str) : list str :=
  filter (λ w, w ≠ []) (split_on is_whitespace s).

(** [str::replace] of every char of a set by a string. *)
Definition replace_chars (P : Z → bool) (by_ : str) (s : str) : str :=
  s ≫= λ c, if P c then by_ else [c].

(** ** Numbers *)

(** [str::parse] for an unsigned integer type with the given maximum: an
    optional [+], then at least one ASCII digit, no overflow. *)
Definition digits_value (s : str) : option Z :=
  foldl (λ acc c, v ← acc; if is_ascii_digit c then Some (v * 10 + (c - 48)) else None) (Some 0) s.
Definition parse_uint (max : Z) (s : str) : option Z :=
  let body := match s with c :: t => if c =? 43 then t else s | [] => s end in
  match body with
  | [] => None
  | _ => v ← digits_value body; if v <=? max then Some v else None
  end.

(** [Display] of an unsigned integer. *)
Fixpoint show_go (fuel : nat) (n : Z) : str :=
  match fuel with
  | O => []
  | S f => if n <? 10 then [48 + n] else show_go f (n / 10) ++ [48 + n mod 10]
  end.
Definition show (n : Z) : str := show_go (S (Z.to_nat (Z.log2 n))) n.

(** [{n:0w$}]: zero-padded to at least [w] digits. *)
Definition show_pad (w : nat) (n : Z) : str :=
  let d := show n in replicate (w - length d) 48 ++ d.

(** ** UTF-8 *)

(** A Unicode scalar value. *)
Definition is_char (c : Z) : bool :=
  ((0 <=? c) && (c <=? 55295)) || ((57344 <=? c) && (c <=? 1114111)).
Definition is_byte (b : Z) : bool := (0 <=? b) && (b <=? 255).

Definition utf8_char (c : char) : bytes :=
  if c <? 128 then [c]
  else if c <? 2048 then [192 + c / 64; 128 + c mod 64]
  else if c <? 65536 then [224 + c / 4096; 128 + c / 64 mod 64; 128 + c mod 64]
  else [240 + c / 262144; 128 + c / 4096 mod 64; 128 + c / 64 mod 64; 128 + c mod 64].
(** [str::as_bytes], [String::into_bytes]. *)
Definition utf8_encode (s : str) : bytes := s ≫= utf8_char.

Definition is_cont (b : byte) : bool := (128 <=? b) && (b <=? 191).
(** The second byte a 3- or 4-byte sequence accepts after its first byte. *)
Definition second3 (b0 b1 : byte) : bool :=
  if b0 =? 224 then (160 <=? b1) && (b1 <=? 191)
  else if b0 =? 237 then (128 <=? b1) && (b1 <=? 159)
  else is_cont b1.
Definition second4 (b0 b1 : byte) : bool :=
  if b0 =? 240 then (144 <=? b1) && (b1 <=? 191)
  else if b0 =? 244 then (128 <=? b1) && (b1 <=? 143)
  else is_cont b1.

(** Decode the input into chars, [None] standing for one maximal invalid
    sequence, as [core::str::lossy::Utf8Chunks] splits it. *)
Fixpoint utf8_decode (l : bytes) : list (option char) :=
  match l with
  | [] => []
  | b0 :: t0 =>
      if b0 <? 128 then Some b0 :: utf8_decode t0
      else if (194 <=? b0) && (b0 <=? 223) then
        match t0 with
        | b1 :: t1 =>
            if is_cont b1 then Some ((b0 - 192) * 64 + (b1 - 128)) :: utf8_decode t1
            else None :: utf8_decode t0
        | [] => [None]
        end
      else if (224 <=? b0) && (b0 <=? 239) then
        match t0 with
        | b1 :: t1 =>
            if second3 b0 b1 then
              match t1 with
              | b2 :: t2 =>
                  if is_cont b2
                  then Some ((b0 - 224) * 4096 + (b1 - 128) * 64 + (b2 - 128)) :: utf8_decode t2
                  else None :: utf8_decode t1
              | [] => [None]
              end
            else None :: utf8_decode t0
        | [] => [None]
        end
      else if (240 <=? b0) && (b0 <=? 244) then
        match t0 with
        | b1 :: t1 =>
            if second4 b0 b1 then
              match t1 with
              | b2 :: t2 =>
                  if is_cont b2 then
                    match t2 with
                    | b3 :: t3 =>
                        if is_cont b3
                        then Some ((b0 - 240) * 262144 + (b1 - 128) * 4096 +
                                   (b2 - 128) * 64 + (b3 - 128)) :: utf8_decode t3
                        else None :: utf8_decode t2
                    | [] => [None]
                    end
                  else None :: utf8_decode t1
              | [] => [None]
              end
            else None :: utf8_decode t0
        | [] => [None]
        end
      else None :: utf8_decode t0
  end.

Definition REPLACEMENT : char := 65533.
(** [String::from_utf8_lossy]. *)
Definition from_utf8_lossy (l : bytes) : str := default REPLACEMENT <$> utf8_decode l.
(** [str::from_utf8], [String::from_utf8]. *)
Definition from_utf8 (l : bytes) : option str := mapM id (utf8_decode l).
(** [str::len]: the number of UTF-8 bytes. *)
Definition str_len (s : str) : Z := len (utf8_encode s).

(** Split a string at a byte index; [None] when the index is inside a character
    (slicing there panics) or past the end. *)
Fixpoint split_at_byte (n : Z) (s : str) : option (str * str) :=
  if n =? 0 then Some ([], s)
  else match s with
       | [] => None
       | c :: t => let w := len (utf8_char c) in
                   if n <? w then None
                   else '(a, b) ← split_at_byte (n - w) t; Some (c :: a, b)
       end.

(** * Laws *)

Lemma str_eqb_eq a b : (a =s? b) = true ↔ a = b.
Proof. apply bool_decide_eq_true. Qed.
Lemma str_eqb_refl a : (a =s? a) = true.
Proof. by apply str_eqb_eq. Qed.
Lemma str_eqb_neq a b : (a =s? b) = false ↔ a ≠ b.
Proof. apply bool_decide_eq_false. Qed.

(** ** Prefixes, suffixes and searching *)

Lemma strip_prefix_Some p s r : strip_prefix p s = Some r ↔ s = p ++ r.
Proof.
  revert s. induction p as [|a p IH]; intros s; simpl; [naive_solver|].
  destruct s as [|b s]; [naive_solver|].
  destruct (Z.eqb_spec a b) as [->|]; [rewrite IH|]; naive_solver.
Qed.

Lemma strip_prefix_app p r : strip_prefix p (p ++ r) = Some r.
Proof. by apply strip_prefix_Some. Qed.

Lemma strip_suffix_Some p s r : strip_suffix p s = Some r ↔ s = r ++ p.
Proof.
  unfold strip_suffix. rewrite fmap_Some. split.
  - intros (x & Hx & ->). apply strip_prefix_Some in Hx.
    apply (f_equal reverse) in Hx. rewrite reverse_involutive, reverse_app in Hx.
    by rewrite reverse_involutive in Hx.
  - intros ->. exists (reverse r). rewrite reverse_app, strip_prefix_app.
    by rewrite reverse_involutive.
Qed.

Lemma strip_suffix_app p r : strip_suffix p (r ++ p) = Some r.
Proof. by apply strip_suffix_Some. Qed.

Lemma strip_prefix_None p s : strip_prefix p s = None ↔ ∀ r, s ≠ p ++ r.
Proof.
  destruct (strip_prefix p s) as [r|] eqn:E.
  - apply strip_prefix_Some in E as ->. naive_solver.
  - split; [|done]. intros _ r Hr. apply strip_prefix_Some in Hr. congruence.
Qed.

Lemma strip_suffix_None p s : strip_suffix p s = None ↔ ∀ r, s ≠ r ++ p.
Proof.
  destruct (strip_suffix p s) as [r|] eqn:E.
  - apply strip_suffix_Some in E as ->. naive_solver.
  - split; [|done]. intros _ r Hr. apply strip_suffix_Some in Hr. congruence.
Qed.

Lemma starts_with_true p s : starts_with p s = true ↔ ∃ r, s = p ++ r.
Proof.
  unfold starts_with. destruct (strip_prefix p s) as [r|] eqn:E.
  - apply strip_prefix_Some in E. naive_solver.
  - split; [done|]. intros [r Hr]. by apply strip_prefix_None with (r := r) in E.
Qed.

Lemma ends_with_true p s : ends_with p s = true ↔ ∃ r, s = r ++ p.
Proof.
  unfold ends_with. destruct (strip_suffix p s) as [r|] eqn:E.
  - apply strip_suffix_Some in E. naive_solver.
  - split; [done|]. intros [r Hr]. by apply strip_suffix_None with (r := r) in E.
Qed.

Lemma find_sub_Some n h i :
  find_sub n h = Some i → ∃ a b, h = a ++ n ++ b ∧ length a = i.
Proof.
  revert i. induction h as [|x h IH]; intros i; simpl;
    case_code; intros ?; simplify_eq.
  - apply starts_with_true in Heqb as [r ->]. by exists [], r.
  - apply starts_with_true in Heqb as [r ->]. by exists [], r.
  - destruct (find_sub n h) as [j|]; simplify_eq/=.
    destruct (IH j) as (a & b & -> & <-); [done|]. by exists (x :: a), b.
Qed.

Lemma find_sub_None n h a b : find_sub n h = None → h ≠ a ++ n ++ b.
Proof.
  revert a. induction h as [|x h IH]; intros a; simpl; case_code; try done.
  - intros _ Hh. symmetry in Hh. apply app_nil in Hh as [-> Hh].
    apply app_nil in Hh as [-> ->]. done.
  - intros Hf Hh. destruct (find_sub n h) eqn:E; [done|]. destruct a as [|y a]; simplify_eq/=.
    + assert (starts_with n (x :: h) = true) by (apply starts_with_true; eauto). congruence.
    + by apply (IH a).
Qed.

(** The index found is the first one. *)
Lemma find_sub_first n h i a b :
  find_sub n h = Some i → h = a ++ n ++ b → (i ≤ length a)%nat.
Proof.
  revert i a. induction h as [|x h IH]; intros i a; simpl; case_code; intros ?; simplify_eq; [lia|lia|].
  destruct (find_sub n h) as [j|] eqn:Ej; simplify_eq/=.
  destruct a as [|y a]; intros ?; simplify_eq/=.
  - assert (starts_with n (x :: h) = true) by (apply starts_with_true; eauto). congruence.
  - specialize (IH j a). lia || (assert (j ≤ length a)%nat by auto; lia).
Qed.

(** An occurrence found after a prefix in which none starts. *)
Lemma find_sub_skip n a b :
  (∀ i, (i < length a)%nat → starts_with n (drop i (a ++ b)) = false) →
  find_sub n (a ++ b) = Nat.add (length a) <$> find_sub n b.
Proof.
  induction a as [|x a IH]; intros H; [simpl; by destruct (find_sub n b)|].
  change (find_sub n ((x :: a) ++ b)) with
    (if starts_with n ((x :: a) ++ b) then Some 0%nat else S <$> find_sub n (a ++ b)).
  pose proof (H 0%nat ltac:(simpl; lia)) as H0. rewrite drop_0 in H0. rewrite H0, IH.
  - by destruct (find_sub n b).
  - intros i Hi. apply (H (S i)). simpl. lia.
Qed.

Lemma split_once_app c a b : c ∉ a → split_once c (a ++ c :: b) = Some (a, b).
Proof.
  induction a as [|z a IH]; simpl; intros Hc; [by rewrite Z.eqb_refl|].
  apply not_elem_of_cons in Hc as [? ?]. destruct (Z.eqb_spec z c); [done|]. by rewrite IH.
Qed.

Lemma split_once_Some c s a b : split_once c s = Some (a, b) ↔ s = a ++ c :: b ∧ c ∉ a.
Proof.
  split; [|intros [-> ?]; by apply split_once_app].
  revert a. induction s as [|x s IH]; intros a; simpl; [done|].
  destruct (Z.eqb_spec x c) as [->|Hx]; [intros ?; simplify_eq; set_solver|].
  destruct (split_once c s) as [[a' b']|]; intros ?; simplify_eq.
  destruct (IH a') as [-> ?]; [done|]. set_solver.
Qed.

Lemma split_once_None c s : split_once c s = None ↔ c ∉ s.
Proof.
  destruct (split_once c s) as [[a b]|] eqn:E.
  - apply split_once_Some in E as [-> _]. split; [done|]. set_solver.
  - split; [|done]. intros _ Hc.
    apply list_elem_of_split_l in Hc as (a & b & -> & Ha).
    by rewrite split_once_app in E.
Qed.

Lemma rsplit_once_Some c s a b : rsplit_once c s = Some (a, b) ↔ s = a ++ c :: b ∧ c ∉ b.
Proof.
  unfold rsplit_once. destruct (split_once c (reverse s)) as [[x y]|] eqn:E.
  - apply split_once_Some in E as [E Hx].
    apply (f_equal reverse) in E. rewrite reverse_involutive, reverse_app, reverse_cons, <-app_assoc in E.
    split.
    + intros ?; simplify_eq/=. split; [done|]. by rewrite elem_of_reverse.
    + intros [-> Hb]. f_equal. simpl in E.
      assert (split_once c (reverse (a ++ c :: b)) = Some (reverse b, reverse a)) as H1.
      { apply split_once_Some. rewrite reverse_app, reverse_cons, <-app_assoc.
        by rewrite elem_of_reverse. }
      assert (split_once c (reverse (a ++ c :: b)) = Some (x, y)) as H2.
      { apply split_once_Some. rewrite E, reverse_app, reverse_cons, <-app_assoc. simpl.
        by rewrite !reverse_involutive. }
      rewrite H1 in H2. simplify_eq. by rewrite !reverse_involutive.
  - apply split_once_None in E. split; [done|]. intros [-> _].
    destruct E. rewrite elem_of_reverse. set_solver.
Qed.

Lemma rsplit_once_None c s : rsplit_once c s = None ↔ c ∉ s.
Proof.
  unfold rsplit_once. destruct (split_once c (reverse s)) as [[x y]|] eqn:E.
  - apply split_once_Some in E as [E _]. split; [done|]. intros H. destruct H.
    rewrite <-elem_of_reverse, E. set_solver.
  - apply split_once_None in E. by rewrite elem_of_reverse in E.
Qed.

Lemma rsplit_once_app c a b : c ∉ b → rsplit_once c (a ++ c :: b) = Some (a, b).
Proof. intros. by apply rsplit_once_Some. Qed.

(** ** Trimming *)

(** No whitespace at either end. *)
Definition trimmed (s : str) : Prop :=
  (∀ x t, s = x :: t → is_whitespace x = false) ∧
  (∀ x t, s = t ++ [x] → is_whitespace x = false).

Lemma trim_end_trimmed s : trimmed s → trim_end s = s.
Proof. intros [_ H]. by apply drop_while_end_id. Qed.

Lemma trim_id s : trimmed s → trim s = s.
Proof.
  intros Hs. unfold trim, trim_start. rewrite drop_while_id by apply Hs.
  by apply trim_end_trimmed.
Qed.

Lemma trim_trimmed s : trimmed (trim s).
Proof.
  unfold trim, trim_end, trim_start. split.
  - intros x t Hx.
    destruct (drop_while_end_prefix is_whitespace (drop_while is_whitespace s)) as (k & Hk & _).
    rewrite Hx in Hk. simpl in Hk. by apply drop_while_head in Hk.
  - intros x t Hx. by apply drop_while_end_last in Hx.
Qed.

(** The executable test. *)
Definition trimmedb (s : str) : bool := trim s =s? s.
Lemma trimmedb_true s : trimmedb s = true ↔ trimmed s.
Proof.
  unfold trimmedb. rewrite str_eqb_eq. split; [intros <-; apply trim_trimmed|apply trim_id].
Qed.

Lemma trimmed_nil : trimmed [].
Proof. split; intros x [] ?; done. Qed.

Lemma trimmed_app_inv_r a b : trimmed (a ++ b) → b ≠ [] →
  ∀ x t, b = t ++ [x] → is_whitespace x = false.
Proof. intros [_ H] _ x t ->. apply (H x (a ++ t)). by rewrite app_assoc. Qed.

(** ** ASCII case *)

Lemma to_ascii_lower_idemp c : to_ascii_lower (to_ascii_lower c) = to_ascii_lower c.
Proof. unfold to_ascii_lower. repeat case_code; bsimp; lia || (repeat (case_match; bsimp); lia). Qed.

Lemma lowercase_idemp s : lowercase (lowercase s) = lowercase s.
Proof.
  unfold lowercase. rewrite <-list_fmap_compose. apply list_fmap_ext.
  intros. apply to_ascii_lower_idemp.
Qed.

Lemma eq_ignore_case_refl s : eq_ignore_case s s = true.
Proof. apply str_eqb_refl. Qed.

Lemma eq_ignore_case_true a b : eq_ignore_case a b = true ↔ lowercase a = lowercase b.
Proof. apply str_eqb_eq. Qed.

(** ** Numbers *)

Lemma digits_value_app s d :
  digits_value (s ++ [d]) =
  (v ← digits_value s; if is_ascii_digit d then Some (v * 10 + (d - 48)) else None).
Proof. unfold digits_value. by rewrite foldl_app. Qed.

Lemma show_go_value f n :
  0 ≤ n < 2 ^ Z.of_nat f → (0 < f)%nat → digits_value (show_go f n) = Some n ∧ show_go f n ≠ [].
Proof.
  revert n. induction f as [|f IH]; intros n Hn Hf; [lia|]. simpl.
  destruct (Z.ltb_spec n 10) as [Hlt|Hge].
  - unfold digits_value. simpl. unfold is_ascii_digit.
    rewrite (proj2 (Z.leb_le 48 (48 + n))), (proj2 (Z.leb_le (48 + n) 57)) by lia. simpl.
    split; [|done]. f_equal. lia.
  - assert (0 < f)%nat as Hf' by (destruct f; [simpl in Hn; lia|lia]).
    destruct (IH (n / 10)) as [Hv _]; [|done|].
    { split; [apply Z.div_pos; lia|]. apply Z.div_lt_upper_bound; [lia|].
      rewrite Nat2Z.inj_succ, Z.pow_succ_r in Hn by lia. lia. }
    rewrite digits_value_app, Hv. simpl. unfold is_ascii_digit.
    pose proof (Z.mod_pos_bound n 10).
    rewrite (proj2 (Z.leb_le 48 (48 + n mod 10))), (proj2 (Z.leb_le (48 + n mod 10) 57)) by lia.
    simpl. split; [f_equal|]; [pose proof (Z.div_mod n 10); lia|]. by destruct (show_go f (n / 10)).
Qed.

Lemma show_value n : 0 ≤ n → digits_value (show n) = Some n ∧ show n ≠ [].
Proof.
  intros Hn. unfold show. apply show_go_value; [|lia]. split; [done|].
  rewrite Nat2Z.inj_succ, Z2Nat.id by apply Z.log2_nonneg.
  destruct (Z.eq_dec n 0) as [->|]; [done|]. apply Z.log2_spec. lia.
Qed.

Lemma show_go_digits f n : 0 ≤ n → Forall (λ c, is_ascii_digit c = true) (show_go f n).
Proof.
  revert n. induction f as [|f IH]; intros n Hn; simpl; [done|].
  destruct (Z.ltb_spec n 10).
  - constructor; [|done]. unfold is_ascii_digit. lia.
  - apply Forall_app. split; [apply IH, Z.div_pos; lia|]. constructor; [|done].
    unfold is_ascii_digit. pose proof (Z.mod_pos_bound n 10). lia.
Qed.

Lemma show_digits n : 0 ≤ n → Forall (λ c, is_ascii_digit c = true) (show n).
Proof. apply show_go_digits. Qed.

(** Printing an unsigned integer and parsing it back. *)
Lemma parse_uint_show max n : 0 ≤ n ≤ max → parse_uint max (show n) = Some n.
Proof.
  intros Hn. destruct (show_value n) as [Hv Hne]; [lia|].
  pose proof (show_digits n ltac:(lia)) as Hd. unfold parse_uint.
  destruct (show n) as [|c t]; [done|].
  apply Forall_cons in Hd as [Hc _]. unfold is_ascii_digit in Hc. bsimp.
  destruct (Z.eqb_spec c 43); [lia|]. rewrite Hv. simpl.
  rewrite (proj2 (Z.leb_le n max)) by lia. done.
Qed.

Lemma is_ascii_digit_not_ws c : is_ascii_digit c = true → is_whitespace c = false.
Proof. unfold is_ascii_digit, is_whitespace. intros. bsimp. lia. Qed.

(** ** Splitting *)

Lemma split_on_nonempty P s : split_on P s ≠ [].
Proof. destruct s as [|x s]; simpl; [done|]. by repeat case_code. Qed.

Lemma split_on_app P a x b :
  P x = true → split_on P (a ++ x :: b) = split_on P a ++ split_on P b.
Proof.
  intros Hx. induction a as [|y a IH]; simpl; [by rewrite Hx|].
  destruct (P y); [by rewrite IH|]. rewrite IH.
  destruct (split_on P a) eqn:E; [by apply split_on_nonempty in E|done].
Qed.

Lemma split_on_none P a : Forall (λ x, P x = false) a → split_on P a = [a].
Proof. induction 1 as [|x a Hx _ IH]; simpl; [done|]. by rewrite Hx, IH. Qed.

Lemma split_char_app c a b : split_char c (a ++ c :: b) = split_char c a ++ split_char c b.
Proof. apply split_on_app, Z.eqb_refl. Qed.

Lemma split_char_none c a : c ∉ a → split_char c a = [a].
Proof.
  intros Hc. apply split_on_none, Forall_forall. intros x Hx. apply Z.eqb_neq. by intros ->.
Qed.

Lemma split_inclusive_lf_app a b :
  split_inclusive_lf (a ++ LF :: b) = split_inclusive_lf (a ++ [LF]) ++ split_inclusive_lf b.
Proof.
  induction a as [|y a IH]; simpl; [done|]. destruct (Z.eqb_spec y LF); [by rewrite IH|].
  rewrite IH. destruct (split_inclusive_lf (a ++ [LF])) eqn:E; [|done].
  exfalso. destruct a as [|z a]; simpl in E; [done|]. by repeat case_code_in E.
Qed.

Lemma lines_app a b : lines (a ++ LF :: b) = lines (a ++ [LF]) ++ lines b.
Proof. unfold lines. by rewrite split_inclusive_lf_app, fmap_app. Qed.

Lemma split_inclusive_lf_one a : LF ∉ a → split_inclusive_lf (a ++ [LF]) = [a ++ [LF]].
Proof.
  induction a as [|y a IH]; simpl; intros Ha; [done|].
  apply not_elem_of_cons in Ha as [? Ha]. destruct (Z.eqb_spec y LF); [done|]. by rewrite IH.
Qed.

Lemma chomp_crlf a : chomp (a ++ CRLF) = a.
Proof.
  unfold chomp, CRLF. change [CR; LF] with ([CR] ++ [LF]).
  by rewrite app_assoc, strip_suffix_app, strip_suffix_app.
Qed.

Lemma lines_crlf_one a : LF ∉ a → lines (a ++ CRLF) = [a].
Proof.
  intros Ha. unfold lines, CRLF. change [CR; LF] with ([CR] ++ [LF]).
  rewrite app_assoc, split_inclusive_lf_one by (rewrite elem_of_app; set_solver by done).
  simpl. by rewrite <-app_assoc, chomp_crlf.
Qed.

(** ** UTF-8 *)

(** One step of the decoder: the char (or invalid sequence) at the front and the
    rest of the input. *)
Definition utf8_next (b0 : byte) (t0 : bytes) : option char * bytes :=
  if b0 <? 128 then (Some b0, t0)
  else if (194 <=? b0) && (b0 <=? 223) then
    match t0 with
    | b1 :: t1 => if is_cont b1 then (Some ((b0 - 192) * 64 + (b1 - 128)), t1) else (None, t0)
    | [] => (None, [])
    end
  else if (224 <=? b0) && (b0 <=? 239) then
    match t0 with
    | b1 :: t1 =>
        if second3 b0 b1 then
          match t1 with
          | b2 :: t2 =>
              if is_cont b2 then (Some ((b0 - 224) * 4096 + (b1 - 128) * 64 + (b2 - 128)), t2)
              else (None, t1)
          | [] => (None, [])
          end
        else (None, t0)
    | [] => (None, [])
    end
  else if (240 <=? b0) && (b0 <=? 244) then
    match t0 with
    | b1 :: t1 =>
        if second4 b0 b1 then
          match t1 with
          | b2 :: t2 =>
              if is_cont b2 then
                match t2 with
                | b3 :: t3 =>
                    if is_cont b3
                    then (Some ((b0 - 240) * 262144 + (b1 - 128) * 4096 +
                                (b2 - 128) * 64 + (b3 - 128)), t3)
                    else (None, t2)
                | [] => (None, [])
                end
              else (None, t1)
          | [] => (None, [])
          end
        else (None, t0)
    | [] => (None, [])
    end
  else (None, t0).

Lemma utf8_decode_cons b0 t0 :
  utf8_decode (b0 :: t0) = (utf8_next b0 t0).1 :: utf8_decode (utf8_next b0 t0).2.
Proof. unfold utf8_next. simpl. by repeat case_code. Qed.

Lemma utf8_next_suffix b0 t0 : ∃ k, t0 = k ++ (utf8_next b0 t0).2.
Proof.
  unfold utf8_next. repeat case_code; simpl;
    first [by exists []|by exists [z]|by exists [z; z0]|by exists [z; z0; z1]].
Qed.

(** Extending the input by an ASCII byte does not change the step. *)
Lemma utf8_next_ascii b0 t0 x b :
  x < 128 → utf8_next b0 (t0 ++ x :: b) = ((utf8_next b0 t0).1, (utf8_next b0 t0).2 ++ x :: b).
Proof.
  intros Hx. assert (is_cont x = false) as Hc by (unfold is_cont; lia).
  assert (∀ b0, second3 b0 x = false) as H3 by (intros; unfold second3, is_cont; repeat case_code; lia).
  assert (∀ b0, second4 b0 x = false) as H4 by (intros; unfold second4, is_cont; repeat case_code; lia).
  unfold utf8_next.
  destruct t0 as [|b1 [|b2 [|b3 t]]]; cbn [app]; rewrite ?Hc, ?H3, ?H4; by repeat case_code.
Qed.

(** An ASCII byte starts and ends a character wherever it occurs. *)
Lemma utf8_decode_ascii_app a x b :
  x < 128 → utf8_decode (a ++ x :: b) = utf8_decode a ++ Some x :: utf8_decode b.
Proof.
  intros Hx. remember (length a) as n eqn:Hn. revert a Hn.
  induction n as [n IH] using lt_wf_ind; intros a ->.
  destruct a as [|b0 a].
  - simpl. by rewrite (proj2 (Z.ltb_lt x 128)).
  - rewrite <-app_comm_cons, !utf8_decode_cons, utf8_next_ascii by done. simpl. f_equal.
    destruct (utf8_next_suffix b0 a) as [k Hk].
    eapply IH; [|done]. rewrite Hk at 2. simpl. rewrite length_app. lia.
Qed.

Lemma from_utf8_lossy_ascii_app a x b :
  x < 128 → from_utf8_lossy (a ++ x :: b) = from_utf8_lossy a ++ x :: from_utf8_lossy b.
Proof. intros. unfold from_utf8_lossy. by rewrite utf8_decode_ascii_app, fmap_app. Qed.

Lemma from_utf8_lossy_ascii a : Forall (λ x, x < 128) a → from_utf8_lossy a = a.
Proof.
  induction 1 as [|x a Hx _ IH]; [done|].
  change (x :: a) with ([] ++ x :: a) at 1. by rewrite from_utf8_lossy_ascii_app, IH.
Qed.

(** Encoding a string and decoding it gives the string back, whatever follows. *)
Lemma utf8_next_char c rest :
  is_char c = true →
  ∃ b0 t, utf8_char c = b0 :: t ∧ utf8_next b0 (t ++ rest) = (Some c, rest).
Proof.
  unfold is_char, utf8_char. intros Hc.
  pose proof (Z.div_mod c 64) as D1. pose proof (Z.mod_pos_bound c 64) as M1.
  pose proof (Z.div_mod (c / 64) 64) as D2. pose proof (Z.mod_pos_bound (c / 64) 64) as M2.
  pose proof (Z.div_mod (c / 4096) 64) as D3. pose proof (Z.mod_pos_bound (c / 4096) 64) as M3.
  replace (c / 262144) with (c / 4096 / 64) by (rewrite Z.div_div by lia; done).
  replace (c / 4096) with (c / 64 / 64) in * by (rewrite Z.div_div by lia; done).
  set (q1 := c / 64) in *. set (r1 := c mod 64) in *.
  set (q2 := q1 / 64) in *. set (r2 := q1 mod 64) in *.
  set (q3 := q2 / 64) in *. set (r3 := q2 mod 64) in *.
  clearbody q1 r1 q2 r2 q3 r3.
  destruct (Z.ltb_spec c 128); [|destruct (Z.ltb_spec c 2048); [|destruct (Z.ltb_spec c 65536)]];
    eexists _, _; (split; [reflexivity|]); unfold utf8_next, second3, second4, is_cont; cbn [app].
  all: repeat case_code; bsimp; try lia;
    try match goal with H : (if _ then _ else _) = false |- _ => repeat case_code_in H end;
    first [exfalso; lia|f_equal; f_equal; lia].
Qed.

Lemma utf8_decode_encode s rest :
  Forall (λ c, is_char c = true) s →
  utf8_decode (utf8_encode s ++ rest) = (Some <$> s) ++ utf8_decode rest.
Proof.
  induction 1 as [|c s Hc _ IH]; [done|].
  change (utf8_encode (c :: s)) with (utf8_char c ++ utf8_encode s). rewrite <-app_assoc.
  destruct (utf8_next_char c (utf8_encode s ++ rest)) as (b0 & t & -> & Hn); [done|].
  rewrite <-app_comm_cons, utf8_decode_cons, Hn. simpl. by rewrite IH.
Qed.

Lemma from_utf8_lossy_encode s :
  Forall (λ c, is_char c = true) s → from_utf8_lossy (utf8_encode s) = s.
Proof.
  intros Hs. unfold from_utf8_lossy. rewrite <-(app_nil_r (utf8_encode s)), utf8_decode_encode by done.
  simpl. rewrite app_nil_r, <-list_fmap_compose. apply list_fmap_id.
Qed.

Lemma from_utf8_encode s :
  Forall (λ c, is_char c = true) s → from_utf8 (utf8_encode s) = Some s.
Proof.
  intros Hs. unfold from_utf8. rewrite <-(app_nil_r (utf8_encode s)), utf8_decode_encode by done.
  simpl. rewrite app_nil_r. by apply mapM_fmap_Some.
Qed.

Lemma utf8_encode_app a b : utf8_encode (a ++ b) = utf8_encode a ++ utf8_encode b.
Proof. unfold utf8_encode. apply bind_app. Qed.

Lemma utf8_encode_ascii s : Forall (λ c, c < 128) s → utf8_encode s = s.
Proof.
  induction 1 as [|c s Hc _ IH]; [done|].
  change (utf8_encode (c :: s)) with (utf8_char c ++ utf8_encode s). rewrite IH.
  unfold utf8_char. by rewrite (proj2 (Z.ltb_lt c 128)).
Qed.

(** Only ASCII bytes decode to ASCII chars. *)
Lemma utf8_next_small b0 t0 c : (utf8_next b0 t0).1 = Some c → c < 128 → c = b0.
Proof.
  unfold utf8_next, second3, second4, is_cont.
  repeat case_code; simpl; intros; simplify_eq; bsimp; lia.
Qed.

Lemma from_utf8_lossy_small a c : c < 128 → c ∈ from_utf8_lossy a → c ∈ a.
Proof.
  intros Hc. remember (length a) as n eqn:Hn. revert a Hn.
  induction n as [n IH] using lt_wf_ind; intros a ->. destruct a as [|b0 a]; [done|].
  unfold from_utf8_lossy. rewrite utf8_decode_cons, fmap_cons, elem_of_cons. intros [->|Hin].
  - destruct (utf8_next b0 a).1 as [c|] eqn:E; [|done]. simpl in *.
    apply utf8_next_small in E as ->; [|done]. apply list_elem_of_here.
  - apply list_elem_of_further. destruct (utf8_next_suffix b0 a) as [k Hk].
    rewrite Hk. apply elem_of_app. right. eapply IH; [|done|done].
    rewrite Hk at 2. simpl. rewrite length_app. lia.
Qed.

(** ** Lines ended by LF *)

Lemma chomp_lf l : strip_suffix [CR] l = None → chomp (l ++ [LF]) = l.
Proof. intros Hl. unfold chomp. by rewrite strip_suffix_app, Hl. Qed.

Lemma lines_lf (ls : list str) :
  Forall (λ l, LF ∉ l ∧ strip_suffix [CR] l = None) ls → lines (ls ≫= λ l, l ++ [LF]) = ls.
Proof.
  induction 1 as [|l ls [Hl Hc] _ IH]; [done|]. rewrite bind_cons, <-app_assoc. simpl.
  rewrite lines_app, IH. unfold lines. rewrite split_inclusive_lf_one by done. simpl.
  by rewrite chomp_lf.
Qed.

(** A parsed number is in the range of its type. *)
Lemma parse_uint_range max s n : parse_uint max s = Some n → 0 ≤ n ≤ max.
Proof.
  unfold parse_uint. set (body := match s with [] => s | c :: t => if c =? 43 then t else s end).
  destruct body as [|c t] eqn:E; [done|].
  assert (∀ l acc v, 0 ≤ acc →
    foldl (λ acc c, v ← acc; if is_ascii_digit c then Some (v * 10 + (c - 48)) else None) (Some acc) l = Some v → 0 ≤ v) as Hd.
  { induction l as [|d l IH]; intros acc v Ha; simpl; [by intros [= <-]|].
    destruct (is_ascii_digit d) eqn:Ed; [|].
    - apply IH. unfold is_ascii_digit in Ed. bsimp. lia.
    - intros H. exfalso. clear -H. by induction l. }
  unfold digits_value. destruct (foldl _ _ _) as [v|] eqn:Ev; [|done]. apply Hd in Ev; [|lia].
  simpl. case_code; [|done]. intros [= <-]. bsimp. lia.
Qed.
