(* ===== verification/Message.v ===== *)
(** * The message model of [crates/mail/src/snailmail.rs]

    Addresses ([Mailbox]), the SMTP [Envelope], the parsed [Headers], the
    [Message] that keeps its header section and body as raw bytes, and the
    [MessageFilter] contract of the delivery pipeline. *)
From S2P Require Import Prelude RustStr.

(** [error.rs]. *)
Inductive MailError : Type :=
  | InvalidAddress (s : str)
  | Malformed (s : str).
#[export] Instance MailError_eq_dec : EqDecision MailError.
Proof. solve_decision. Defined.

(** ** Mailboxes *)

Record Mailbox := mkMailbox { local : str; domain : str }.
#[export] Instance Mailbox_eq_dec : EqDecision Mailbox.
Proof. solve_decision. Defined.

(** The second half of [Mailbox::parse]: split the addr-spec at its last [@]. *)
Definition split_addr_spec (bad : MailError) (addr_spec : str) : result MailError Mailbox :=
  '(l, d) ← ok_or bad (rsplit_once AT addr_spec);
  if bool_decide (l = []) || bool_decide (d = []) || contains_char AT d then Err bad
  else Ok (mkMailbox l d).

Definition Mailbox_parse (addr : str) : result MailError Mailbox :=
  let trimmed := trim addr in
  let bad := InvalidAddress trimmed in
  addr_spec ← match strip_prefix [AT] trimmed with
              | Some route => ok_or bad (snd <$> split_once COLON route)
              | None => Ok trimmed
              end;
  split_addr_spec bad addr_spec.

(** [Display for Mailbox]. *)
Definition Mailbox_to_string (m : Mailbox) : str := local m ++ [AT] ++ domain m.

(** ** Envelopes *)

Record Envelope := mkEnvelope { env_sender : option Mailbox; env_recipients : list Mailbox }.
#[export] Instance Envelope_eq_dec : EqDecision Envelope.
Proof. solve_decision. Defined.

(** ** Headers *)

Definition Headers : Type := list (str * str).
Definition Headers_push (h : Headers) (name value : str) : Headers := h ++ [(name, value)].
Definition Headers_get (h : Headers) (name : str) : option str :=
  snd <$> list_find_first (λ nv, eq_ignore_case nv.1 name) h.

(** The loop of [parse_headers]: [current] is the header being unfolded. *)
Fixpoint parse_header_lines (ls : list str) (headers : Headers) (current : option (str * str))
    : result MailError Headers :=
  match ls with
  | [] => Ok (match current with Some (n, v) => Headers_push headers n v | None => headers end)
  | line0 :: rest =>
      let line := default line0 (strip_suffix [CR] line0) in
      if bool_decide (line = []) then parse_header_lines rest headers current
      else if starts_with [SP] line || starts_with [HT] line then
        match current with
        | Some (n, v) => parse_header_lines rest headers (Some (n, v ++ [SP] ++ trim line))
        | None => Err (Malformed (lit "continuation line with no preceding header"))
        end
      else
        let headers := match current with Some (n, v) => Headers_push headers n v | None => headers end in
        match split_once COLON line with
        | None => Err (Malformed (lit "header without ':': " ++ line))
        | Some (n, v) => parse_header_lines rest headers (Some (trim n, trim v))
        end
  end.

Definition parse_headers (text : str) : result MailError Headers :=
  parse_header_lines (split_char LF text) [] None.

(** ** Messages *)

Record Message := mkMessage {
  msg_envelope : Envelope;
  msg_headers : Headers;
  msg_body : bytes;
  msg_raw_head : bytes }.

#[export] Instance Message_eq_dec : EqDecision Message.
Proof. solve_decision. Defined.

(** [find_subslice] is [find_sub]. *)
Definition split_header_body (raw : bytes) : bytes * nat :=
  match find_sub (CRLF ++ CRLF) raw with
  | Some pos => (take pos raw, (pos + 4)%nat)
  | None => match find_sub [LF; LF] raw with
            | Some pos => (take pos raw, (pos + 2)%nat)
            | None => (raw, length raw)
            end
  end.

Definition Message_parse (envelope : Envelope) (raw : bytes) : result MailError Message :=
  let '(header_bytes, body_start) := split_header_body raw in
  headers ← parse_headers (from_utf8_lossy header_bytes);
  Ok (mkMessage envelope headers (drop body_start raw) (take body_start raw)).

Definition Message_to_bytes (m : Message) : bytes := msg_raw_head m ++ msg_body m.
Definition raw_headers (m : Message) : bytes := msg_raw_head m.

Definition prepend_header (line : bytes) (m : Message) : Message :=
  mkMessage (msg_envelope m) (msg_headers m) (msg_body m) (line ++ CRLF ++ msg_raw_head m).

Definition is_received_line (line : str) : bool :=
  negb (starts_with [SP] line || starts_with [HT] line) &&
  match split_once COLON line with
  | Some (name, _) => eq_ignore_case (trim name) (lit "Received")
  | None => false
  end.
Definition received_lines (text : str) : Z :=
  len (filter (λ l, is_received_line l = true) (lines text)).
Definition received_header_count (m : Message) : Z :=
  received_lines (from_utf8_lossy (msg_raw_head m)).

Definition subject (m : Message) : option str := Headers_get (msg_headers m) (lit "Subject").
Definition message_id (m : Message) : option str := Headers_get (msg_headers m) (lit "Message-ID").

(** ** Filters *)

Inductive FilterVerdict := Accept | Flag | Reject.
#[export] Instance FilterVerdict_eq_dec : EqDecision FilterVerdict.
Proof. solve_decision. Defined.

(** The [MessageFilter] trait: a filter is a value with a [scan] operation. *)
Class MessageFilter (F : Type) := scan : F → Message → FilterVerdict.

Inductive NullFilter := null_filter.
#[export] Instance NullFilter_scan : MessageFilter NullFilter := λ _ _, Accept.

(** * Addresses *)

(** A string that starts a source route of RFC 5321 4.1.1.3. *)
Definition source_route (r : str) : Prop := ∃ hops, r = [AT] ++ hops ++ [COLON] ∧ COLON ∉ hops.

Lemma split_addr_spec_Ok bad s m :
  split_addr_spec bad s = Ok m ↔
  s = Mailbox_to_string m ∧ local m ≠ [] ∧ domain m ≠ [] ∧ AT ∉ domain m.
Proof.
  unfold split_addr_spec, contains_char. split.
  - destruct (rsplit_once AT s) as [[l d]|] eqn:E; simpl; [|done].
    case_code; intros ?; simplify_eq. apply rsplit_once_Some in E as [-> _]. by bsimp.
  - intros (-> & ? & ? & ?). unfold Mailbox_to_string. simpl.
    rewrite rsplit_once_app by done. simpl. rewrite !bool_decide_eq_false_2 by done.
    simpl. by destruct m.
Qed.

(** [Mailbox::parse] accepts exactly the trimmed strings that are an
    optional source route [@hops:] followed by [local@domain], both parts
    non-empty and the domain without an [@], and it returns those parts. *)
Theorem Mailbox_parse_spec (addr : str) (m : Mailbox) :
  Mailbox_parse addr = Ok m ↔
  local m ≠ [] ∧ domain m ≠ [] ∧ AT ∉ domain m ∧
  ((starts_with [AT] (trim addr) = false ∧ trim addr = Mailbox_to_string m) ∨
   ∃ route, source_route route ∧ trim addr = route ++ Mailbox_to_string m).
Proof.
  unfold Mailbox_parse, starts_with, source_route. split.
  - destruct (strip_prefix [AT] (trim addr)) as [route|] eqn:Er; simpl.
    + apply strip_prefix_Some in Er. destruct (split_once COLON route) as [[hops a]|] eqn:Ec; [|done].
      apply split_once_Some in Ec as [-> Hh]. simpl.
      intros (-> & ? & ? & ?)%split_addr_spec_Ok. split_and!; [done..|]. right.
      exists ([AT] ++ hops ++ [COLON]). split; [eauto|]. rewrite Er. simpl. by rewrite <-app_assoc.
    + intros (? & ? & ? & ?)%split_addr_spec_Ok. split_and!; auto.
  - intros (? & ? & ? & [[Hs Ht]|(route & (hops & -> & Hh) & Ht)]).
    + destruct (strip_prefix [AT] (trim addr)) eqn:Es; [done|].
      by apply split_addr_spec_Ok.
    + rewrite Ht. simpl. rewrite <-app_assoc. simpl. rewrite split_once_app by done. simpl.
      by apply split_addr_spec_Ok.
Qed.

(** Addresses that do not carry a route print back to the text they were parsed
    from, and the printed form parses to the same mailbox. *)
Lemma Mailbox_display_parse (addr : str) (m : Mailbox) :
  starts_with [AT] (trim addr) = false → Mailbox_parse addr = Ok m →
  Mailbox_to_string m = trim addr ∧ trimmed (Mailbox_to_string m).
Proof.
  unfold Mailbox_parse, starts_with. intros Hs.
  destruct (strip_prefix [AT] (trim addr)); [done|]. simpl.
  intros (<- & _)%split_addr_spec_Ok. split; [done|]. apply trim_trimmed.
Qed.

(** The condition under which a mailbox can be printed and parsed again. *)
Definition printable (m : Mailbox) : Prop :=
  local m ≠ [] ∧ domain m ≠ [] ∧ AT ∉ domain m ∧
  starts_with [AT] (Mailbox_to_string m) = false ∧ trimmed (Mailbox_to_string m).

Lemma Mailbox_parse_printable m : printable m → Mailbox_parse (Mailbox_to_string m) = Ok m.
Proof.
  intros (? & ? & ? & Hs & Ht). unfold Mailbox_parse. rewrite (trim_id _ Ht).
  unfold starts_with in Hs. destruct (strip_prefix [AT] _); [done|]. simpl.
  by apply split_addr_spec_Ok.
Qed.

Lemma Mailbox_parse_is_printable addr m :
  starts_with [AT] (trim addr) = false → Mailbox_parse addr = Ok m → printable m.
Proof.
  intros Hs Hp. destruct (Mailbox_display_parse _ _ Hs Hp) as [Hd Ht].
  revert Hp. unfold Mailbox_parse. unfold starts_with in Hs.
  destruct (strip_prefix [AT] (trim addr)) eqn:E; [done|]. simpl.
  intros (? & ? & ? & ?)%split_addr_spec_Ok.
  split_and!; [done..| |done]. rewrite Hd. unfold starts_with. by rewrite E.
Qed.

(** [Mailbox::parse] discards one source route only: of two routes the
    second stays in the local part, and the mailbox then prints as a path that
    starts with [@], which the parser itself refuses. *)
Theorem Mailbox_parse_route_leak :
  Mailbox_parse (lit "@h1:@h2:user@example.org") =
    Ok (mkMailbox (lit "@h2:user") (lit "example.org")) ∧
  Mailbox_parse (lit "@h1:@user@example.org") =
    Ok (mkMailbox (lit "@user") (lit "example.org")) ∧
  Mailbox_parse (Mailbox_to_string (mkMailbox (lit "@user") (lit "example.org"))) =
    Err (InvalidAddress (lit "@user@example.org")).
Proof. by vm_compute. Qed.

(** An address given without a source route survives the trip through the
    envelope: it prints as the (trimmed) text it came from, and the printed form
    parses to the same mailbox. *)
Theorem Mailbox_roundtrip (addr : str) (m : Mailbox) :
  starts_with [AT] (trim addr) = false → Mailbox_parse addr = Ok m →
  Mailbox_to_string m = trim addr ∧ Mailbox_parse (Mailbox_to_string m) = Ok m.
Proof.
  intros Hs Hp. split; [by apply Mailbox_display_parse|].
  eapply Mailbox_parse_printable, Mailbox_parse_is_printable; eauto.
Qed.

Lemma Mailbox_roundtrip_witness :
  starts_with [AT] (trim (lit " user@example.org ")) = false ∧
  Mailbox_parse (lit "user@example.org") = Ok (mkMailbox (lit "user") (lit "example.org")).
Proof.
  split; [by vm_compute|].
  apply (Mailbox_roundtrip (lit " user@example.org ")
           (mkMailbox (lit "user") (lit "example.org"))); by vm_compute.
Defined.

(** * Headers and bodies *)

Lemma split_header_body_bound raw : ((split_header_body raw).2 ≤ length raw)%nat.
Proof.
  unfold split_header_body.
  repeat case_code; simpl; try lia; apply find_sub_Some in Heqo as (a & b & -> & <-)
    || apply find_sub_Some in Heqo0 as (a & b & -> & <-); rewrite !length_app; simpl; lia.
Qed.

Lemma Message_parse_inv env raw m :
  Message_parse env raw = Ok m →
  msg_envelope m = env ∧ msg_raw_head m = take (split_header_body raw).2 raw ∧
  msg_body m = drop (split_header_body raw).2 raw ∧
  parse_headers (from_utf8_lossy (split_header_body raw).1) = Ok (msg_headers m).
Proof.
  unfold Message_parse. destruct (split_header_body raw) as [hb n]. simpl.
  destruct (parse_headers _) eqn:E; simpl; intros; by simplify_eq.
Qed.

(** Byte fidelity: parsing a message and serializing it gives back the bytes
    received, whatever they are (8-bit data, bare line feeds, no blank line). *)
Theorem Message_bytes_roundtrip (env : Envelope) (raw : bytes) (m : Message) :
  Message_parse env raw = Ok m → Message_to_bytes m = raw ∧ msg_envelope m = env.
Proof.
  intros (He & Hh & Hb & _)%Message_parse_inv. unfold Message_to_bytes.
  rewrite Hh, Hb, take_drop. done.
Qed.

Lemma Message_bytes_roundtrip_witness :
  let raw := lit "Subject: hi" ++ CRLF ++ CRLF ++ [255; 0; 10] ++ lit "x" in
  let m := mkMessage (mkEnvelope None []) [(lit "Subject", lit "hi")] ([255; 0; 10] ++ lit "x")
             (lit "Subject: hi" ++ CRLF ++ CRLF) in
  Message_to_bytes m = raw ∧ msg_envelope m = mkEnvelope None [].
Proof.
  intros raw m. apply (Message_bytes_roundtrip (mkEnvelope None []) raw m). by vm_compute.
Defined.

(** A header as it is written on the wire: the value's segments, each on a line
    of its own after the first (RFC 5322 folding). *)
Record wire_header := mkWire { wh_name : str; wh_first : str; wh_rest : list str }.
Definition wire_lines (h : wire_header) : list str :=
  (wh_name h ++ [COLON; SP] ++ wh_first h) :: ((λ s, SP :: s) <$> wh_rest h).
Definition wire_value (h : wire_header) : str :=
  foldl (λ v s, v ++ [SP] ++ s) (wh_first h) (wh_rest h).
Definition wire_entry (h : wire_header) : str * str := (wh_name h, wire_value h).
Definition wire_text (hs : list wire_header) : str :=
  (hs ≫= wire_lines) ≫= λ l, l ++ CRLF.

Definition line_ok (s : str) : Prop := trimmed s ∧ LF ∉ s.
Definition wire_ok (h : wire_header) : Prop :=
  wh_name h ≠ [] ∧ COLON ∉ wh_name h ∧ line_ok (wh_name h) ∧ line_ok (wh_first h) ∧
  Forall line_ok (wh_rest h).

(** The executable test. *)
Definition line_okb (s : str) : bool := trimmedb s && negb (contains_char LF s).
Definition wire_okb (h : wire_header) : bool :=
  negb (bool_decide (wh_name h = [])) && negb (contains_char COLON (wh_name h)) &&
  line_okb (wh_name h) && line_okb (wh_first h) && forallb line_okb (wh_rest h).

Lemma line_okb_sound s : line_okb s = true → line_ok s.
Proof. unfold line_okb, line_ok, contains_char. intros. bsimp. by rewrite <-trimmedb_true. Qed.

Lemma wire_okb_sound h : wire_okb h = true → wire_ok h.
Proof.
  unfold wire_okb, wire_ok, contains_char. intros. bsimp.
  split_and!; auto using line_okb_sound. rewrite Forall_forall. intros s Hs.
  apply line_okb_sound. rewrite forallb_forall in *. apply H0. by apply list_elem_of_In.
Qed.

Lemma trim_sp s : trimmed s → trim (SP :: s) = s.
Proof. intros Hs. unfold trim, trim_start. simpl. by apply trim_id. Qed.

Definition flush (headers : Headers) (current : option (str * str)) : Headers :=
  match current with Some (n, v) => Headers_push headers n v | None => headers end.

(** The lines of a header block, as [text.split('\n')] yields them. *)
Lemma wire_split_lines (ls : list str) :
  Forall (λ l, LF ∉ l) ls →
  split_char LF (ls ≫= λ l, l ++ CRLF) = ((λ l, l ++ [CR]) <$> ls) ++ [[]].
Proof.
  induction 1 as [|l ls Hl _ IH]; [done|]. rewrite bind_cons. unfold CRLF at 1.
  change [CR; LF] with ([CR] ++ [LF]).
  rewrite app_assoc, <-(app_assoc (l ++ [CR])). simpl. rewrite split_char_app, IH.
  by rewrite split_char_none by set_solver by done.
Qed.

Lemma parse_header_lines_cont s rest hs n v :
  trimmed s →
  parse_header_lines (((SP :: s) ++ [CR]) :: rest) hs (Some (n, v)) =
  parse_header_lines rest hs (Some (n, v ++ [SP] ++ s)).
Proof.
  intros Hs. cbn [parse_header_lines]. rewrite strip_suffix_app. simpl default.
  rewrite bool_decide_eq_false_2 by done. simpl starts_with. simpl orb. by rewrite trim_sp.
Qed.

Lemma parse_header_lines_field n v rest hs cur :
  n ≠ [] → COLON ∉ n → trimmed n → trimmed v →
  parse_header_lines (((n ++ [COLON; SP] ++ v) ++ [CR]) :: rest) hs cur =
  parse_header_lines rest (flush hs cur) (Some (n, v)).
Proof.
  intros Hn Hc Ht Hv. cbn [parse_header_lines]. rewrite strip_suffix_app. simpl default.
  destruct n as [|c n]; [done|]. rewrite bool_decide_eq_false_2 by done.
  assert (is_whitespace c = false) as Hw by (destruct Ht as [Ht _]; by eapply Ht).
  assert (∀ w t, is_whitespace w = true → starts_with [w] (c :: t) = false) as Hsw.
  { intros w t Hw'. unfold starts_with. simpl. destruct (Z.eqb_spec w c); [congruence|done]. }
  rewrite <-app_comm_cons, !Hsw by done. simpl orb. cbv iota.
  rewrite app_comm_cons, split_once_app by done. by rewrite trim_id, trim_sp by done.
Qed.

Lemma parse_header_lines_wire_rest ss rest hs n v :
  Forall line_ok ss →
  parse_header_lines (((λ l, l ++ [CR]) <$> ((λ s, SP :: s) <$> ss)) ++ rest) hs (Some (n, v)) =
  parse_header_lines rest hs (Some (n, foldl (λ v s, v ++ [SP] ++ s) v ss)).
Proof.
  intros HF. revert v. induction HF as [|s ss [Hs _] _ IH]; intros v; [done|].
  rewrite !fmap_cons, <-app_comm_cons, parse_header_lines_cont by done. apply IH.
Qed.

Lemma parse_header_lines_wire hs rest acc cur :
  Forall wire_ok hs → hs ≠ [] →
  ∃ acc' cur', flush acc' cur' = flush acc cur ++ (wire_entry <$> hs) ∧
    parse_header_lines (((λ l, l ++ [CR]) <$> (hs ≫= wire_lines)) ++ rest) acc cur =
    parse_header_lines rest acc' cur'.
Proof.
  intros HF. revert acc cur. induction HF as [|h hs (? & ? & [? _] & [? _] & ?) _ IH]; [done|].
  intros acc cur _. rewrite bind_cons, fmap_app, <-app_assoc. unfold wire_lines at 1.
  rewrite (fmap_cons (λ l, l ++ [CR])), <-(app_comm_cons _ _ (_ ++ [CR])).
  rewrite parse_header_lines_field by done.
  rewrite parse_header_lines_wire_rest by done. fold (wire_value h) (wire_entry h).
  destruct (decide (hs = [])) as [->|Hne].
  - simpl. eexists _, _. split; [|done]. done.
  - destruct (IH (flush acc cur) (Some (wire_entry h)) Hne) as (acc' & cur' & Hf & ->).
    exists acc', cur'. split; [|done]. rewrite Hf. simpl. unfold Headers_push.
    by rewrite <-app_assoc.
Qed.

(** The header parser inverts header layout: a block of well-formed headers,
    folded over any number of continuation lines, parses to the headers in
    order, each value unfolded by joining its segments with one space. *)
Theorem parse_headers_wire (hs : list wire_header) :
  Forall wire_ok hs → parse_headers (wire_text hs) = Ok (wire_entry <$> hs).
Proof.
  intros HF. unfold parse_headers, wire_text. rewrite wire_split_lines.
  - destruct (decide (hs = [])) as [->|Hne]; [done|].
    destruct (parse_header_lines_wire hs [[]] [] None HF Hne) as (acc & cur & Hf & ->).
    simpl in Hf. simpl. by rewrite <-Hf.
  - apply Forall_forall. intros l (h & Hl & Hh)%list_elem_of_bind. rewrite Forall_forall in HF.
    destruct (HF h Hh) as (_ & _ & [_ ?] & [_ ?] & Hr). rewrite Forall_forall in Hr.
    unfold wire_lines in Hl. apply elem_of_cons in Hl as [->|(s & -> & Hs)%list_elem_of_fmap].
    + set_solver by done.
    + destruct (Hr s Hs) as [_ ?]. set_solver by done.
Qed.

Lemma parse_headers_wire_witness :
  let hs := [mkWire (lit "Subject") (lit "a long") [lit "folded"; lit "value"];
             mkWire (lit "To") (lit "x@y") []] in
  parse_headers (wire_text hs) = Ok [(lit "Subject", lit "a long folded value"); (lit "To", lit "x@y")].
Proof.
  intros hs. apply (parse_headers_wire hs).
  repeat (apply Forall_cons; split; [apply wire_okb_sound; by vm_compute|]). done.
Defined.

(** * Trace headers *)

(** No occurrence of [n] starts in [a] when [a] ends in LF, contains none, and
    what follows cannot complete one. *)
Lemma starts_with_app_cases n a b :
  starts_with n (a ++ b) = true →
  starts_with n a = true ∨ ∃ k, n = a ++ k ∧ k ≠ [] ∧ starts_with k b = true.
Proof.
  rewrite !starts_with_true. intros [r Hr]. apply app_eq_inv in Hr as [(k & -> & ->)|(k & -> & ->)].
  - left. eauto.
  - destruct (decide (k = [])) as [->|]; [left; exists []; by rewrite !app_nil_r|].
    right. exists k. rewrite starts_with_true. eauto.
Qed.

(** The first byte of a message that begins with a header field. *)
Definition starts_with_eol (raw : bytes) : bool :=
  match raw with c :: _ => (c =? CR) || (c =? LF) | [] => false end.

(** A needle with an LF before its end is not found across [line CRLF] unless
    the text after it completes the needle. *)
Lemma find_sub_after_line p k line raw :
  LF ∉ p → k ≠ [] → starts_with k raw = false → LF ∉ line →
  find_sub (p ++ LF :: k) ((line ++ CRLF) ++ raw) =
  Nat.add (length (line ++ CRLF)) <$> find_sub (p ++ LF :: k) raw.
Proof.
  intros Hp Hk Hraw Hline. apply find_sub_skip. intros i Hi.
  rewrite drop_app_le by lia.
  assert (∃ t, drop i (line ++ CRLF) = t ++ [LF] ∧ LF ∉ t) as (t & -> & Ht).
  { unfold CRLF in *. change [CR; LF] with ([CR] ++ [LF]) in *. rewrite app_assoc in *.
    rewrite length_app in Hi. simpl in Hi. rewrite drop_app_le by lia.
    eexists. split; [done|]. intros Hin%elem_of_drop_in. set_solver by done. }
  apply not_true_iff_false. intros [Hs|(k' & Hn & Hk' & Hs)]%starts_with_app_cases.
  - apply starts_with_true in Hs as [r Hr]. apply (f_equal (split_once LF)) in Hr.
    rewrite <-app_assoc, <-app_comm_cons, !split_once_app in Hr by done.
    injection Hr as _ Hr. symmetry in Hr. apply app_eq_nil in Hr as [??]. done.
  - rewrite <-app_assoc in Hn. apply (f_equal (split_once LF)) in Hn. simpl in Hn.
    rewrite !split_once_app in Hn by done. simplify_eq. congruence.
Qed.

Lemma split_header_body_prepend line raw :
  LF ∉ line → starts_with_eol raw = false →
  split_header_body ((line ++ CRLF) ++ raw) =
  ((line ++ CRLF) ++ (split_header_body raw).1, (length (line ++ CRLF) + (split_header_body raw).2)%nat).
Proof.
  intros Hl He.
  assert (starts_with CRLF raw = false ∧ starts_with [LF] raw = false) as [H1 H2].
  { unfold starts_with_eol, starts_with, CRLF in *. destruct raw as [|c raw]; [done|].
    simpl. bsimp. destruct (Z.eqb_spec CR c), (Z.eqb_spec LF c); congruence || done. }
  assert (find_sub (CRLF ++ CRLF) ((line ++ CRLF) ++ raw) =
          Nat.add (length (line ++ CRLF)) <$> find_sub (CRLF ++ CRLF) raw) as E1
    by (apply (find_sub_after_line [CR] CRLF); set_solver by done).
  assert (find_sub [LF; LF] ((line ++ CRLF) ++ raw) =
          Nat.add (length (line ++ CRLF)) <$> find_sub [LF; LF] raw) as E2
    by (apply (find_sub_after_line [] [LF]); set_solver by done).
  unfold split_header_body. rewrite E1, E2.
  destruct (find_sub (CRLF ++ CRLF) raw) as [pos|]; simpl.
  - rewrite take_app_add. f_equal. lia.
  - destruct (find_sub [LF; LF] raw) as [pos|]; simpl.
    + rewrite take_app_add. f_equal. lia.
    + f_equal. by rewrite !length_app.
Qed.

Lemma parse_header_lines_acc ls x acc cur :
  parse_header_lines ls (x :: acc) cur = cons x <$> parse_header_lines ls acc cur.
Proof.
  revert x acc cur. induction ls as [|l ls IH]; intros x acc cur; simpl.
  - by destruct cur as [[n v]|].
  - destruct cur as [[n v]|]; repeat case_code; rewrite <-?IH; done.
Qed.

Lemma parse_header_lines_some ls x hs :
  parse_header_lines ls [] None = Ok hs → parse_header_lines ls [] (Some x) = Ok (x :: hs).
Proof.
  induction ls as [|l ls IH]; simpl; intros Hok; [destruct x; by simplify_eq|].
  repeat case_code_in Hok; try done; [by apply IH|]. destruct x as [n v].
  change (Headers_push [] n v) with [(n, v)]. by rewrite parse_header_lines_acc, Hok.
Qed.

(** The text of a header field that fills one line. *)
Definition field_line (text : str) (n v : str) : Prop :=
  split_once COLON text = Some (n, v) ∧
  starts_with [SP] text = false ∧ starts_with [HT] text = false.

Lemma parse_headers_prepend line hb hs n v :
  LF ∉ line → field_line (from_utf8_lossy line) n v →
  parse_headers (from_utf8_lossy hb) = Ok hs →
  parse_headers (from_utf8_lossy ((line ++ CRLF) ++ hb)) = Ok ((trim n, trim v) :: hs).
Proof.
  intros Hl (Hsp & Hs & Hh) Hok. unfold parse_headers in *.
  rewrite <-app_assoc. unfold CRLF. simpl.
  rewrite !from_utf8_lossy_ascii_app by done.
  assert (LF ∉ from_utf8_lossy line) as Hl' by (intros ?%from_utf8_lossy_small; done).
  change (from_utf8_lossy (LF :: hb)) with (from_utf8_lossy ([] ++ LF :: hb)).
  rewrite from_utf8_lossy_ascii_app by done. simpl.
  rewrite (cons_middle CR), app_assoc, split_char_app.
  rewrite split_char_none by (set_solver by done). simpl app.
  cbn [parse_header_lines]. rewrite strip_suffix_app. simpl default.
  rewrite bool_decide_eq_false_2 by (by intros E; rewrite E in Hsp).
  rewrite Hs, Hh, Hsp. simpl. by apply parse_header_lines_some.
Qed.

(** Stamping a trace header and parsing again agree: on the wire the stamped
    message is the header line, CRLF and the original bytes, and parsing those
    finds the same body, the same verbatim header section below the new line,
    and the new field ahead of the old ones. *)
Theorem prepend_header_reparse (env : Envelope) (raw line : bytes) (m : Message) (n v : str) :
  Message_parse env raw = Ok m → starts_with_eol raw = false →
  LF ∉ line → field_line (from_utf8_lossy line) n v →
  Message_to_bytes (prepend_header line m) = line ++ CRLF ++ raw ∧
  Message_parse env (Message_to_bytes (prepend_header line m)) =
    Ok (mkMessage env ((trim n, trim v) :: msg_headers m) (msg_body m)
          (msg_raw_head (prepend_header line m))).
Proof.
  intros (He & Hh & Hb & Hp)%Message_parse_inv Heol Hl Hf.
  assert (Message_to_bytes (prepend_header line m) = (line ++ CRLF) ++ raw) as ->.
  { unfold Message_to_bytes, prepend_header. cbn [msg_raw_head msg_body].
    by rewrite Hh, Hb, <-!app_assoc, take_drop. }
  split; [by rewrite <-app_assoc|].
  unfold Message_parse. rewrite split_header_body_prepend by done.
  rewrite (parse_headers_prepend _ _ _ _ _ Hl Hf Hp). simpl.
  rewrite drop_app_add, take_app_add, <-Hb, <-Hh, <-app_assoc. done.
Qed.

Lemma prepend_header_reparse_witness :
  let raw := lit "Subject: hi" ++ CRLF ++ CRLF ++ lit "body" in
  let m := mkMessage (mkEnvelope None []) [(lit "Subject", lit "hi")] (lit "body")
             (lit "Subject: hi" ++ CRLF ++ CRLF) in
  let line := lit "Received: from a by b" in
  Message_to_bytes (prepend_header line m) = line ++ CRLF ++ raw.
Proof.
  intros raw m line.
  apply (prepend_header_reparse (mkEnvelope None []) raw line m (lit "Received") (lit " from a by b"));
    try (by vm_compute); apply (bool_decide_eq_false (LF ∈ line)); by vm_compute.
Defined.

Lemma received_lines_app a b : received_lines (a ++ LF :: b) = received_lines (a ++ [LF]) + received_lines b.
Proof. unfold received_lines. rewrite lines_app, filter_app. by autorewrite with len. Qed.

Lemma prepend_header_hops_core line m :
  LF ∉ line →
  received_header_count (prepend_header line m) =
  (if is_received_line (from_utf8_lossy line) then 1 else 0) + received_header_count m.
Proof.
  intros Hl. unfold received_header_count. simpl. unfold CRLF. simpl.
  assert (LF ∉ from_utf8_lossy line) as Hl' by (intros ?%from_utf8_lossy_small; done).
  rewrite from_utf8_lossy_ascii_app by done.
  change (LF :: msg_raw_head m) with ([] ++ LF :: msg_raw_head m).
  rewrite from_utf8_lossy_ascii_app by done. simpl.
  rewrite (cons_middle CR), app_assoc, received_lines_app. f_equal.
  rewrite <-app_assoc. unfold received_lines.
  change ([CR] ++ [LF]) with CRLF. rewrite (lines_crlf_one _ Hl').
  rewrite filter_cons. by destruct (is_received_line _).
Qed.

(** The hop count seen on the wire grows by exactly one when a one-line
    [Received:] field is stamped, and is unchanged by any other one-line field. *)
Theorem prepend_header_hops (line : bytes) (m : Message) :
  LF ∉ line →
  received_header_count (prepend_header line m) =
  (if is_received_line (from_utf8_lossy line) then 1 else 0) + received_header_count m.
Proof. apply prepend_header_hops_core. Qed.

Lemma prepend_header_hops_witness :
  let m := mkMessage (mkEnvelope None []) [] [] (lit "Received: x" ++ CRLF ++ CRLF) in
  received_header_count (prepend_header (lit "received : y") m) = 2.
Proof.
  intros m. rewrite (prepend_header_hops (lit "received : y") m); [by vm_compute|].
  apply (bool_decide_eq_false (LF ∈ _)). by vm_compute.
Defined.
