(* ===== verification/MailText.v ===== *)
(** * Messages written line by line

    What the header parser of Message.v makes of a message that is written as header
    lines, an empty line and a body, as the aggregate reports and the client bindings
    write theirs. *)
From S2P Require Import Prelude RustStr Message.

(** A message written line by line parses: each line is a header field of its own. *)
Definition header_line (l : bytes) : Prop :=
  CR ∉ l ∧ LF ∉ l ∧ l ≠ [] ∧ ∃ n v, field_line (from_utf8_lossy l) n v.

Lemma find_sub_blank_line l body :
  LF ∉ l → find_sub (CRLF ++ CRLF) (l ++ CRLF ++ CRLF ++ body) = Some (length l).
Proof.
  intros Hl. rewrite find_sub_skip.
  - unfold CRLF. simpl. rewrite Nat.add_0_r. done.
  - intros i Hi. rewrite drop_app_le by lia. apply not_true_iff_false. intros [r Hr]%starts_with_true.
    assert (LF ∉ drop i l) as Hd by (intros Hin%elem_of_drop_in; done).
    assert (∃ x t, drop i l = x :: t) as (x & t & Ed).
    { destruct (drop i l) as [|x t] eqn:E; [|eauto]. apply (f_equal length) in E. rewrite length_drop in E. simpl in E. lia. }
    rewrite Ed in *. unfold CRLF in Hr. simpl in Hr. injection Hr as -> Hr. destruct t as [|y t]; simpl in Hr; injection Hr as Hr1 Hr.
    + done.
    + subst y. set_solver.
Qed.

Lemma parse_headers_one l n v :
  CR ∉ l → LF ∉ l → field_line (from_utf8_lossy l) n v → parse_headers (from_utf8_lossy l) = Ok [(trim n, trim v)].
Proof.
  intros Hc Hl (Hsp & Hs & Hh). unfold parse_headers.
  assert (LF ∉ from_utf8_lossy l ∧ CR ∉ from_utf8_lossy l) as [Hl' Hc'] by (split; intros ?%from_utf8_lossy_small; done).
  rewrite split_char_none by done. cbn [parse_header_lines].
  assert (strip_suffix [CR] (from_utf8_lossy l) = None) as ->.
  { apply strip_suffix_None. intros r Hr. rewrite Hr in Hc'. set_solver. }
  cbn [default]. rewrite bool_decide_eq_false_2 by (by intros E; rewrite E in Hsp). rewrite Hs, Hh, Hsp. done.
Qed.

(** The fields of header lines. *)
Definition fields_of (ls : list bytes) (fs : list (str * str)) : Prop :=
  Forall2 (λ l f, field_line (from_utf8_lossy l) f.1 f.2) ls fs.

Lemma Message_parse_lines env ls body :
  Forall header_line ls → ls ≠ [] →
  ∃ m fs, Message_parse env ((ls ≫= λ l, l ++ CRLF) ++ CRLF ++ body) = Ok m ∧ msg_envelope m = env ∧ msg_body m = body ∧
    msg_raw_head m = (ls ≫= λ l, l ++ CRLF) ++ CRLF ∧ fields_of ls fs ∧
    msg_headers m = (λ f, (trim f.1, trim f.2)) <$> fs.
Proof.
  intros HF Hne.
  assert (∃ hb fs, split_header_body ((ls ≫= λ l, l ++ CRLF) ++ CRLF ++ body) = (hb, length ((ls ≫= λ l, l ++ CRLF) ++ CRLF)) ∧
    fields_of ls fs ∧ parse_headers (from_utf8_lossy hb) = Ok ((λ f, (trim f.1, trim f.2)) <$> fs)) as (hb & fs & E & Hfs & Hp).
  { induction HF as [|l ls (Hc & Hl & Hnl & n & v & Hf) HF IH]; [done|]. cbn [mbind list_bind]. fold (ls ≫= λ l : bytes, l ++ CRLF).
    destruct ls as [|l2 ls].
    - cbn [mbind list_bind]. rewrite app_nil_r, <-!app_assoc. exists l, [(n, v)].
      unfold split_header_body. rewrite find_sub_blank_line by done. split_and!; [|by constructor|by apply parse_headers_one].
      rewrite take_app_length. f_equal. rewrite !length_app. simpl. lia.
    - destruct (IH ltac:(done)) as (hb & fs & E & Hfs & Hp). rewrite <-app_assoc.
      rewrite split_header_body_prepend; [|done|].
      + rewrite E. eexists _, ((n, v) :: fs). split_and!; [|by constructor|by apply (parse_headers_prepend l hb _ n v)]. simpl. f_equal.
        rewrite !length_app. lia.
      + apply Forall_cons in HF as [(Hc2 & Hl2 & Hn2 & _) _]. destruct l2 as [|c l2]; [done|]. simpl.
        apply orb_false_iff. split; apply Z.eqb_neq; intros ->; set_solver. }
  unfold Message_parse. rewrite E, Hp. cbn [mbind result_bind]. eexists _, fs. split; [done|].
  cbn [msg_envelope msg_body msg_raw_head msg_headers]. rewrite !app_assoc, drop_app_length, take_app_length. done.
Qed.

Lemma utf8_char_big x : 128 ≤ x → Forall (λ b, 128 ≤ b) (utf8_char x).
Proof.
  intros Hx. unfold utf8_char. pose proof (Z.div_pos x 64). pose proof (Z.div_pos x 4096). pose proof (Z.div_pos x 262144).
  pose proof (Z.mod_pos_bound x 64). pose proof (Z.mod_pos_bound (x / 64) 64). pose proof (Z.mod_pos_bound (x / 4096) 64).
  repeat case_code; bsimp; try lia; repeat constructor; lia.
Qed.
Lemma utf8_no c s : c < 128 → c ∉ s → c ∉ utf8_encode s.
Proof.
  intros Hc Hs (x & Hin & Hx)%list_elem_of_bind. destruct (Z.lt_ge_cases x 128) as [Hlt|Hge].
  - unfold utf8_char in Hin. rewrite (proj2 (Z.ltb_lt x 128)) in Hin by done. apply list_elem_of_singleton in Hin as ->. done.
  - pose proof (utf8_char_big x Hge) as HF. rewrite Forall_forall in HF. specialize (HF c Hin). lia.
Qed.

(** One line of text. *)
Definition one_line_text (s : str) : Prop := CR ∉ s ∧ LF ∉ s.
Lemma one_line_text_app a b : one_line_text a → one_line_text b → one_line_text (a ++ b).
Proof. unfold one_line_text. set_solver. Qed.
Lemma one_line_show n : 0 ≤ n → one_line_text (show n).
Proof. intros Hn. pose proof (show_digits n Hn) as HF. rewrite Forall_forall in HF. split; intros Hin; by apply HF in Hin. Qed.
Lemma one_line_check s : negb (contains_char CR s) && negb (contains_char LF s) = true → one_line_text s.
Proof. unfold contains_char. intros H. bsimp. done. Qed.
Ltac text_line := repeat first [assumption | apply one_line_text_app | apply one_line_show; lia | apply one_line_check; by vm_compute].

Lemma starts_with_one c s t : s ≠ [] → starts_with [c] (s ++ t) = starts_with [c] s.
Proof. intros Hs. destruct s as [|x s]; [done|]. unfold starts_with. cbn [strip_prefix app]. by destruct (c =? x). Qed.

Lemma header_line_field name rest :
  name ≠ [] → Forall (λ c, c < 128) name → one_line_text name → COLON ∉ name →
  starts_with [SP] name = false → starts_with [HT] name = false → one_line_text rest →
  header_line (utf8_encode (name ++ COLON :: rest)).
Proof.
  intros Hne Hasc [Hc Hl] Hcol Hsp Hht [Hrc Hrl].
  assert (one_line_text (name ++ COLON :: rest)) as [H1 H2] by (unfold one_line_text; set_solver by done).
  split_and!; [by apply utf8_no|by apply utf8_no| |].
  - rewrite utf8_encode_app, utf8_encode_ascii by done. by destruct name.
  - rewrite utf8_encode_app, utf8_encode_ascii by done. change (utf8_encode (COLON :: rest)) with (COLON :: utf8_encode rest).
    exists name, (from_utf8_lossy (utf8_encode rest)).
    rewrite from_utf8_lossy_ascii_app by done. rewrite (from_utf8_lossy_ascii name) by done. split_and!.
    + by apply split_once_app.
    + by rewrite starts_with_one.
    + by rewrite starts_with_one.
Qed.

(** The checks on a field name, as a computation. *)
Definition field_name_ok (name : str) : bool :=
  negb (bool_decide (name = [])) && bool_decide (Forall (λ c, c < 128) name) && negb (contains_char CR name) &&
  negb (contains_char LF name) && negb (contains_char COLON name) && negb (starts_with [SP] name) && negb (starts_with [HT] name).
Lemma header_line_named name rest :
  field_name_ok name = true → one_line_text rest → header_line (utf8_encode (name ++ [COLON] ++ rest)).
Proof.
  unfold field_name_ok, contains_char. intros Hn Hr. bsimp.
  by apply header_line_field.
Qed.
