(* ===== verification/Smtp.v ===== *)
(** * The SMTP protocol machine of [crates/mail/src/transport/smtp.rs]

    Command parsing, replies and the server-side session: [SmtpSession::handle]
    as a function from a session and a command to the next session and the
    reply, and [SmtpSession::take_envelope].  The session's reachable states are
    those of the step relation [smtp_step]. *)
From S2P Require Import Prelude RustStr Message.

Inductive SmtpCommand :=
  | Helo (d : str)
  | Ehlo (d : str)
  | MailFrom (sender : option Mailbox)
  | RcptTo (rcpt : Mailbox)
  | Data
  | StartTls
  | Rset
  | Noop
  | Quit.
#[export] Instance SmtpCommand_eq_dec : EqDecision SmtpCommand.
Proof. solve_decision. Defined.

Definition non_empty (s what : str) : result MailError str :=
  if bool_decide (s = []) then Err (Malformed (what ++ lit " requires an argument")) else Ok s.

Definition parse_path_opt (rest prefix : str) : result MailError (option Mailbox) :=
  after ← ok_or (Malformed (lit "expected `" ++ prefix ++ lit "<addr>`"))
            (match strip_prefix prefix rest with
             | Some a => Some a
             | None => strip_prefix (lowercase prefix) rest
             end);
  let after := trim after in
  inner ← ok_or (Malformed (lit "path must be wrapped in <>"))
            (s ← strip_prefix [LT_] after; fst <$> split_once GT_ s);
  if bool_decide (inner = []) then Ok None
  else m ← Mailbox_parse inner; Ok (Some m).

(** The verb and the trimmed argument of a command line. *)
Definition split_verb (line0 : str) : str * str :=
  let line := trim_end_crlf line0 in
  match split_once SP line with
  | Some (v, r) => (v, trim r)
  | None => (line, [])
  end.

Definition SmtpCommand_parse (line0 : str) : result MailError SmtpCommand :=
  let '(verb, rest) := split_verb line0 in
  let up := uppercase verb in
  if up =s? lit "HELO" then d ← non_empty rest (lit "HELO"); Ok (Helo d)
  else if up =s? lit "EHLO" then d ← non_empty rest (lit "EHLO"); Ok (Ehlo d)
  else if up =s? lit "MAIL" then p ← parse_path_opt rest (lit "FROM:"); Ok (MailFrom p)
  else if up =s? lit "RCPT" then
    p ← parse_path_opt rest (lit "TO:");
    r ← ok_or (Malformed (lit "RCPT TO cannot be the null path")) p; Ok (RcptTo r)
  else if up =s? lit "DATA" then Ok Data
  else if up =s? lit "RSET" then Ok Rset
  else if up =s? lit "NOOP" then Ok Noop
  else if up =s? lit "QUIT" then Ok Quit
  else if up =s? lit "STARTTLS" then
    if bool_decide (rest = []) then Ok StartTls
    else Err (Malformed (lit "STARTTLS takes no arguments"))
  else Err (Malformed (lit "unknown command `" ++ up ++ lit "`")).

(** ** Replies *)

Record SmtpReply := mkReply { code : Z; text : str }.
Definition to_wire (r : SmtpReply) : str := show (code r) ++ [SP] ++ text r ++ CRLF.
Definition is_positive (r : SmtpReply) : bool := (200 <=? code r) && (code r <? 400).

(** ** The session *)

Inductive Phase := Greeting | Identified | Sender | Recipients | DataPhase | Closed.
#[export] Instance Phase_eq_dec : EqDecision Phase.
Proof. solve_decision. Defined.

Definition DEFAULT_MAX_RECIPIENTS : Z := 1000.

Record SmtpSession := mkSession {
  phase : Phase;
  helo : option str;
  sender : option Mailbox;
  recipients : list Mailbox;
  max_recipients : Z }.

Definition with_max_recipients (n : Z) : SmtpSession := mkSession Greeting None None [] n.
Definition SmtpSession_new : SmtpSession := with_max_recipients DEFAULT_MAX_RECIPIENTS.

Definition set_phase (p : Phase) (s : SmtpSession) : SmtpSession :=
  mkSession p (helo s) (sender s) (recipients s) (max_recipients s).
(** [self.sender = None; self.recipients.clear()]. *)
Definition clear_txn (s : SmtpSession) : SmtpSession :=
  mkSession (phase s) (helo s) None [] (max_recipients s).

Definition smtp_handle (s : SmtpSession) (command : SmtpCommand) : SmtpSession * SmtpReply :=
  match phase s, command with
  | _, Quit => (set_phase Closed s, mkReply 221 (lit "Bye"))
  | _, Noop => (s, mkReply 250 (lit "OK"))
  | _, Rset =>
      let s := clear_txn s in
      (if bool_decide (helo s ≠ None) then set_phase Identified s else s, mkReply 250 (lit "OK"))
  | _, Helo d | _, Ehlo d =>
      (mkSession Identified (Some d) None [] (max_recipients s),
       mkReply 250 (lit "Hello " ++ d))
  | Identified, MailFrom f =>
      (mkSession Sender (helo s) f (recipients s) (max_recipients s), mkReply 250 (lit "OK"))
  | Sender, RcptTo r | Recipients, RcptTo r =>
      if max_recipients s <=? len (recipients s) then
        (s, mkReply 452 (lit "4.5.3 Too many recipients"))
      else
        (mkSession Recipients (helo s) (sender s) (recipients s ++ [r]) (max_recipients s),
         mkReply 250 (lit "OK"))
  | Recipients, Data =>
      (set_phase DataPhase s, mkReply 354 (lit "Start mail input; end with <CRLF>.<CRLF>"))
  | Greeting, StartTls | Identified, StartTls => (s, mkReply 220 (lit "Ready to start TLS"))
  | _, StartTls =>
      (s, mkReply 503 (lit "Bad sequence: STARTTLS not allowed during a mail transaction"))
  | _, MailFrom _ => (s, mkReply 503 (lit "Bad sequence: need EHLO first"))
  | _, RcptTo _ => (s, mkReply 503 (lit "Bad sequence: need MAIL FROM first"))
  | _, Data => (s, mkReply 503 (lit "Bad sequence: need RCPT TO first"))
  end.

Definition take_envelope (s : SmtpSession) : SmtpSession * option Envelope :=
  if bool_decide (recipients s = []) then (s, None)
  else (mkSession Identified (helo s) None [] (max_recipients s),
        Some (mkEnvelope (sender s) (recipients s))).

(** ** Runs *)

(** Handle a sequence of commands, collecting the replies. *)
Fixpoint smtp_run (s : SmtpSession) (cs : list SmtpCommand) : SmtpSession * list SmtpReply :=
  match cs with
  | [] => (s, [])
  | c :: cs =>
      let '(s, r) := smtp_handle s c in
      let '(s, rs) := smtp_run s cs in (s, r :: rs)
  end.

(** What the socket loop does with a session: commands and envelope taking. *)
Inductive smtp_step : SmtpSession → SmtpSession → Prop :=
  | step_handle s c : smtp_step s (smtp_handle s c).1
  | step_take s : smtp_step s (take_envelope s).1.

(** * The session invariant *)

Definition smtp_inv (s : SmtpSession) : Prop :=
  0 ≤ len (recipients s) ≤ max_recipients s ∧
  (helo s = None → sender s = None ∧ recipients s = []) ∧
  match phase s with
  | Greeting => helo s = None
  | Identified => helo s ≠ None ∧ sender s = None ∧ recipients s = []
  | Sender => helo s ≠ None ∧ recipients s = []
  | Recipients | DataPhase => helo s ≠ None ∧ recipients s ≠ []
  | Closed => True
  end.

Lemma smtp_inv_init n : 0 ≤ n → smtp_inv (with_max_recipients n).
Proof. intros. repeat split; simpl; done. Qed.

Lemma smtp_inv_handle s c : smtp_inv s → smtp_inv (smtp_handle s c).1.
Proof.
  destruct s as [p h f rs n]. unfold smtp_inv, smtp_handle. simpl. intros ([Hl Hm] & Hh & Hp).
  destruct c, p; simpl; repeat case_code; bsimp; simpl; autorewrite with len; destruct_and?;
    split_and?; try done; try lia; try naive_solver; by destruct rs.
Qed.

Lemma smtp_inv_take s : smtp_inv s → smtp_inv (take_envelope s).1.
Proof.
  unfold smtp_inv, take_envelope. intros ([Hl Hm] & Hh & Hp).
  case_code; [done|]. bsimp. simpl. autorewrite with len. split_and?; try lia; naive_solver.
Qed.

(** In every state a session can reach, it never holds more recipients than
    its cap, it has no sender or recipient before the client has said HELO, and
    the phase tells the transaction apart: no transaction data in [Identified],
    a sender and no recipient in [Sender], at least one recipient in
    [Recipients] and [Data]. *)
Theorem smtp_reachable_inv (n : Z) (s : SmtpSession) :
  0 ≤ n → rtc smtp_step (with_max_recipients n) s → smtp_inv s ∧ max_recipients s = n.
Proof.
  intros Hn Hr. assert (∀ s s', rtc smtp_step s s' → smtp_inv s → max_recipients s = n →
    smtp_inv s' ∧ max_recipients s' = n) as H; [|eapply H; eauto using smtp_inv_init].
  clear. induction 1 as [s|s1 s2 s3 Hs _ IH]; [done|]. intros Hi Hm. apply IH.
  - destruct Hs; auto using smtp_inv_handle, smtp_inv_take.
  - destruct Hs as [s c|s]; simpl in *.
    + unfold smtp_handle. destruct c, (phase s); simpl; repeat case_code; done.
    + unfold take_envelope. by case_code.
Qed.

Lemma smtp_reachable_inv_witness :
  smtp_inv (smtp_handle (with_max_recipients 5) (Ehlo (lit "c"))).1 ∧ 5 = 5.
Proof.
  apply (smtp_reachable_inv 5); [lia|]. apply rtc_once. constructor.
Defined.

(** * The transaction a client sees

    The specification of a session: the current mail transaction, determined by
    the commands and the codes of the replies alone. *)

Definition txn : Type := option (option Mailbox * list Mailbox).

Inductive smtp_op := OpCommand (c : SmtpCommand) | OpTake.
Inductive smtp_out := OutReply (r : SmtpReply) | OutEnvelope (e : option Envelope).

Definition smtp_exec (s : SmtpSession) (o : smtp_op) : SmtpSession * smtp_out :=
  match o with
  | OpCommand c => let '(s, r) := smtp_handle s c in (s, OutReply r)
  | OpTake => let '(s, e) := take_envelope s in (s, OutEnvelope e)
  end.

Fixpoint smtp_execs (s : SmtpSession) (os : list smtp_op) : SmtpSession * list smtp_out :=
  match os with
  | [] => (s, [])
  | o :: os =>
      let '(s, r) := smtp_exec s o in
      let '(s, rs) := smtp_execs s os in (s, r :: rs)
  end.

Definition spec_event (t : txn) (e : smtp_op * smtp_out) : txn :=
  match e with
  | (OpCommand (Helo _), _) | (OpCommand (Ehlo _), _) | (OpCommand Rset, _) => None
  | (OpCommand (MailFrom f), OutReply r) => if is_positive r then Some (f, []) else t
  | (OpCommand (RcptTo x), OutReply r) =>
      if is_positive r then (λ '(f, rs), (f, rs ++ [x])) <$> t else t
  | (OpTake, OutEnvelope (Some _)) => None
  | _ => t
  end.
Definition spec_txn (es : list (smtp_op * smtp_out)) : txn := foldl spec_event None es.

(** The transaction a session holds. *)
Definition txn_of (s : SmtpSession) : txn :=
  match phase s with
  | Greeting | Identified | Closed => None
  | Sender | Recipients | DataPhase => Some (sender s, recipients s)
  end.

Lemma spec_event_sim s o t :
  smtp_inv s → (phase s ≠ Closed → txn_of s = t) →
  phase (smtp_exec s o).1 ≠ Closed →
  txn_of (smtp_exec s o).1 = spec_event t (o, (smtp_exec s o).2).
Proof.
  destruct s as [p h f rs n]. unfold smtp_inv, txn_of. simpl. intros (_ & _ & Hp) Ht.
  destruct o as [c|]; simpl.
  - unfold smtp_handle. simpl.
    destruct c, p; simpl in *; try rewrite <-Ht by done;
      repeat case_code; simpl in *; destruct_and?; simplify_eq; bsimp; done || congruence.
  - unfold take_envelope. simpl. case_code; simpl; [by intros ->%Ht|done].
Qed.

Lemma smtp_inv_exec s o : smtp_inv s → smtp_inv (smtp_exec s o).1.
Proof.
  intros. destruct o as [c|]; simpl.
  - pose proof (smtp_inv_handle s c). destruct (smtp_handle s c); auto.
  - pose proof (smtp_inv_take s). destruct (take_envelope s); auto.
Qed.

Lemma smtp_execs_sim s os t :
  smtp_inv s → (phase s ≠ Closed → txn_of s = t) →
  phase (smtp_execs s os).1 ≠ Closed →
  txn_of (smtp_execs s os).1 = foldl spec_event t (zip os (smtp_execs s os).2).
Proof.
  revert s t. induction os as [|o os IH]; intros s t Hi Ht; simpl; [auto|].
  pose proof (spec_event_sim s o t Hi Ht) as Hsim. pose proof (smtp_inv_exec s o Hi) as Hi'.
  destruct (smtp_exec s o) as [s1 out]. simpl in *.
  specialize (IH s1 (spec_event t (o, out)) Hi' Hsim).
  destruct (smtp_execs s1 os) as [s2 outs]. simpl in *. done.
Qed.

(** C7: the session refines the transaction specification: after any sequence of
    commands and envelope takings, unless it is closed, the session holds the
    reverse-path of the last accepted MAIL and the recipients accepted since, in
    order, and nothing after HELO, EHLO, RSET or a taken envelope. *)
Theorem smtp_session_refines (n : Z) (os : list smtp_op) :
  0 ≤ n →
  phase (smtp_execs (with_max_recipients n) os).1 ≠ Closed →
  txn_of (smtp_execs (with_max_recipients n) os).1 =
  spec_txn (zip os (smtp_execs (with_max_recipients n) os).2).
Proof. intros Hn. by apply smtp_execs_sim; [apply smtp_inv_init|]. Qed.

Lemma smtp_session_refines_witness :
  let os := [OpCommand (Ehlo (lit "c")); OpCommand (MailFrom None);
             OpCommand (RcptTo (mkMailbox (lit "a") (lit "b")));
             OpCommand (RcptTo (mkMailbox (lit "x") (lit "y")))] in
  txn_of (smtp_execs (with_max_recipients 1) os).1 = Some (None, [mkMailbox (lit "a") (lit "b")]).
Proof.
  intros os. rewrite (smtp_session_refines 1 os); [by vm_compute|lia|by vm_compute].
Defined.

(** STARTTLS is granted only outside a mail transaction: in a reachable
    session the 220 reply is given exactly in the greeting and identified
    phases, where no sender and no recipient is held, and the command never
    changes the session. *)
Theorem starttls_outside_transaction (n : Z) (s : SmtpSession) :
  0 ≤ n → rtc smtp_step (with_max_recipients n) s →
  (smtp_handle s StartTls).1 = s ∧
  (code (smtp_handle s StartTls).2 = 220 ↔ phase s = Greeting ∨ phase s = Identified) ∧
  (code (smtp_handle s StartTls).2 = 220 → sender s = None ∧ recipients s = []).
Proof.
  intros Hn Hr.
  assert (smtp_inv s) as (_ & Hh & Hp).
  { apply (rtc_ind_r (λ s, smtp_inv s) _ (smtp_inv_init n Hn)) in Hr; [done|].
    intros s1 s2 _ [s' c|s'] ?; auto using smtp_inv_handle, smtp_inv_take. }
  unfold smtp_handle. destruct (phase s) eqn:E; simpl; split_and!; try done; naive_solver.
Qed.

Lemma starttls_outside_transaction_witness :
  code (smtp_handle (smtp_handle (with_max_recipients 5) (Ehlo (lit "c"))).1 StartTls).2 = 220 ↔
  Identified = Greeting ∨ Identified = Identified.
Proof.
  apply (starttls_outside_transaction 5 (smtp_handle (with_max_recipients 5) (Ehlo (lit "c"))).1);
    [lia|]. apply rtc_once. constructor.
Defined.

(** * Command lines *)

(** A mailbox that can be put between angle brackets and read back. *)
Definition relayable (m : Mailbox) : Prop := printable m ∧ GT_ ∉ Mailbox_to_string m.

Lemma trim_end_crlf_id s x : (x =? CR) || (x =? LF) = false → trim_end_crlf (s ++ [x]) = s ++ [x].
Proof.
  intros Hx. apply drop_while_end_id. intros y t Ht. apply app_inj_tail in Ht as [_ <-]. done.
Qed.

Lemma trimmed_app a b x y t :
  a = x :: t → is_whitespace x = false → is_whitespace y = false → trimmed (a ++ b ++ [y]).
Proof.
  intros -> Hx Hy. split.
  - intros x' t' ?; by simplify_eq/=.
  - intros y' t' Ht. rewrite app_assoc in Ht. apply app_inj_tail in Ht as [_ <-]. done.
Qed.

(** [<path>] in an argument, for a prefix in upper case. *)
Lemma parse_path_opt_path prefix (o : option Mailbox) :
  (∀ m, o = Some m → relayable m) →
  parse_path_opt (prefix ++ [LT_] ++ from_option Mailbox_to_string [] o ++ [GT_]) prefix = Ok o.
Proof.
  intros Ho. unfold parse_path_opt. rewrite strip_prefix_app. simpl.
  rewrite trim_id by (by apply (trimmed_app [LT_] _ LT_ GT_ [])).
  simpl. rewrite split_once_app.
  - simpl. destruct o as [m|]; simpl; [|done].
    destruct (Ho m) as [Hm Hgt]; [done|]. rewrite bool_decide_eq_false_2.
    + by rewrite Mailbox_parse_printable.
    + unfold Mailbox_to_string. by destruct (local m).
  - destruct o as [m|]; simpl; [|set_solver]. by apply Ho.
Qed.

(** The parts of a line whose verb is given. *)
Lemma split_verb_arg verb arg :
  bool_decide (SP ∈ verb) = false → trimmed arg → arg ≠ [] →
  split_verb (verb ++ [SP] ++ arg) = (verb, arg).
Proof.
  intros Hv Ht Hne. bsimp. unfold split_verb.
  destruct (exists_last Hne) as (d & x & ->).
  rewrite !app_assoc, trim_end_crlf_id, <-!app_assoc.
  - simpl. rewrite split_once_app, trim_id by done. done.
  - destruct Ht as [_ Ht]. specialize (Ht x d eq_refl). unfold is_whitespace, CR, LF in *. lia.
Qed.

Lemma trimmed_path a x t p : a = x :: t → is_whitespace x = false → trimmed (a ++ [LT_] ++ p ++ [GT_]).
Proof. intros. rewrite (app_assoc [LT_]). by eapply trimmed_app. Qed.

Lemma SmtpCommand_parse_mail (o : option Mailbox) :
  (∀ m, o = Some m → relayable m) →
  SmtpCommand_parse (lit "MAIL FROM:<" ++ from_option Mailbox_to_string [] o ++ lit ">") = Ok (MailFrom o).
Proof.
  intros Ho. change (lit "MAIL FROM:<" ++ from_option Mailbox_to_string [] o ++ lit ">")
    with (lit "MAIL" ++ [SP] ++ (lit "FROM:" ++ [LT_] ++ from_option Mailbox_to_string [] o ++ [GT_])).
  unfold SmtpCommand_parse.
  rewrite split_verb_arg by (done || by eapply trimmed_path).
  rewrite parse_path_opt_path by done. done.
Qed.

Lemma SmtpCommand_parse_rcpt (m : Mailbox) :
  relayable m →
  SmtpCommand_parse (lit "RCPT TO:<" ++ Mailbox_to_string m ++ lit ">") = Ok (RcptTo m).
Proof.
  intros Hm. change (lit "RCPT TO:<" ++ Mailbox_to_string m ++ lit ">")
    with (lit "RCPT" ++ [SP] ++ (lit "TO:" ++ [LT_] ++ Mailbox_to_string m ++ [GT_])).
  unfold SmtpCommand_parse.
  rewrite split_verb_arg by (done || by eapply trimmed_path).
  pose proof (parse_path_opt_path (lit "TO:") (Some m)) as Hp. simpl from_option in Hp.
  rewrite Hp by (by intros ? [= <-]). done.
Qed.

Lemma SmtpCommand_parse_ehlo d :
  trimmed d → d ≠ [] → SmtpCommand_parse (lit "EHLO " ++ d) = Ok (Ehlo d).
Proof.
  intros Ht Hne. change (lit "EHLO " ++ d) with (lit "EHLO" ++ [SP] ++ d).
  unfold SmtpCommand_parse. rewrite split_verb_arg by done.
  change (uppercase (lit "EHLO")) with (lit "EHLO").
  unfold non_empty. by rewrite bool_decide_eq_false_2 by done.
Qed.

(** * A whole transaction *)

Lemma smtp_run_app s cs ds :
  smtp_run s (cs ++ ds) =
  ((smtp_run (smtp_run s cs).1 ds).1, (smtp_run s cs).2 ++ (smtp_run (smtp_run s cs).1 ds).2).
Proof.
  revert s. induction cs as [|c cs IH]; intros s; simpl; [by destruct (smtp_run s ds)|].
  destruct (smtp_handle s c) as [s1 r]. rewrite IH. by destruct (smtp_run s1 cs).
Qed.

(** Recipients are accepted in order while there is room. *)
Lemma smtp_run_rcpts h f n ms ms0 p :
  (p = Sender ∨ p = Recipients) → len (ms0 ++ ms) ≤ n → ms ≠ [] →
  smtp_run (mkSession p h f ms0 n) (RcptTo <$> ms) =
  (mkSession Recipients h f (ms0 ++ ms) n, replicate (length ms) (mkReply 250 (lit "OK"))).
Proof.
  revert ms0 p. induction ms as [|m ms IH]; intros ms0 p Hp Hn Hne; [done|].
  autorewrite with len in Hn. pose proof (len_nonneg ms).
  assert (smtp_handle (mkSession p h f ms0 n) (RcptTo m) =
    (mkSession Recipients h f (ms0 ++ [m]) n, mkReply 250 (lit "OK"))) as E.
  { unfold smtp_handle. destruct Hp as [-> | ->]; simpl; destruct (Z.leb_spec n (len ms0)); done || lia. }
  cbn [fmap list_fmap smtp_run]. rewrite E.
  destruct (decide (ms = [])) as [->|Hms]; [done|].
  rewrite IH; [|auto|autorewrite with len; lia|done]. by rewrite <-app_assoc.
Qed.
