(* ===== verification/Transport.v ===== *)
(** * DATA collection and relay framing

    [crates/mail/src/transport/inbound.rs] (the [InboundCollector] that reads a
    DATA body line by line) and [crates/mail/src/transport/outbound.rs] (the
    client script of a relay and its dot-stuffed payload). *)
From S2P Require Import Prelude RustStr Message Smtp.

(** ** The inbound collector *)

Definition DEFAULT_MAX_MESSAGE_SIZE : Z := 25 * 1024 * 1024.

Record InboundCollector := mkCollector {
  ic_body : bytes;
  ic_finished : bool;
  ic_prev_crlf : bool;
  ic_max_size : Z;
  ic_size_exceeded : bool }.

Definition with_max_size (n : Z) : InboundCollector := mkCollector [] false true n false.
Definition InboundCollector_new : InboundCollector := with_max_size DEFAULT_MAX_MESSAGE_SIZE.

(** The line without its terminator. *)
Definition line_content (line : bytes) : bytes :=
  match strip_suffix CRLF line with
  | Some c => c
  | None => match strip_suffix [LF] line with
            | Some c => c
            | None => default line (strip_suffix [CR] line)
            end
  end.

Definition push_line (c : InboundCollector) (line : bytes) : InboundCollector * bool :=
  let this_crlf := ends_with CRLF line in
  let content := line_content line in
  if ic_prev_crlf c && this_crlf && (content =s? [DOT]) then
    (mkCollector (ic_body c) true (ic_prev_crlf c) (ic_max_size c) (ic_size_exceeded c), true)
  else
    let unstuffed := default content (strip_prefix [DOT] content) in
    if ic_size_exceeded c || (ic_max_size c <? len (ic_body c) + len unstuffed + 2) then
      (mkCollector (ic_body c) (ic_finished c) (ic_prev_crlf c) (ic_max_size c) true, false)
    else
      (mkCollector (ic_body c ++ unstuffed ++ CRLF) (ic_finished c) this_crlf
         (ic_max_size c) (ic_size_exceeded c), false).

Definition into_message (c : InboundCollector) (envelope : Envelope) : result MailError Message :=
  Message_parse envelope (ic_body c).

(** Feed lines until the end-of-data marker: the collector and the lines after it. *)
Fixpoint collect (c : InboundCollector) (ls : list bytes) : InboundCollector * option (list bytes) :=
  match ls with
  | [] => (c, None)
  | l :: ls =>
      let '(c, fin) := push_line c l in
      if fin then (c, Some ls) else collect c ls
  end.

(** ** Outbound framing *)

Definition slice (body : bytes) (a b : nat) : bytes := take (b - a) (drop a body).

(** The loop of [split_on_crlf] on its index variables; [length body] iterations
    are enough since [i] grows by at least one. *)
Fixpoint split_on_crlf_loop (fuel : nat) (body : bytes) (start i : nat) (segments : list bytes)
    : list bytes :=
  match fuel with
  | O => segments ++ [drop start body]
  | S fuel =>
      if bool_decide (i + 1 < length body)%nat then
        if bool_decide (body !! i = Some CR) && bool_decide (body !! (i + 1)%nat = Some LF) then
          split_on_crlf_loop fuel body (i + 2) (i + 2) (segments ++ [slice body start i])
        else split_on_crlf_loop fuel body start (i + 1) segments
      else segments ++ [drop start body]
  end.
Definition split_on_crlf (body : bytes) : list bytes :=
  split_on_crlf_loop (length body) body 0 0 [].

Definition stuff_line (line : bytes) : bytes :=
  (if bool_decide (head line = Some DOT) then [DOT] else []) ++ line.
Definition EOD_LINE : bytes := [DOT] ++ CRLF.
Definition dot_stuff (body : bytes) : bytes :=
  (split_on_crlf body ≫= λ line, stuff_line line ++ CRLF) ++ EOD_LINE.

Record RelayScript := mkScript { commands : list str; data : bytes }.

Definition relay_script (helo_domain : str) (message : Message) : RelayScript :=
  let from := from_option Mailbox_to_string [] (env_sender (msg_envelope message)) in
  mkScript
    ([lit "EHLO " ++ helo_domain; lit "MAIL FROM:<" ++ from ++ lit ">"] ++
     ((λ rcpt, lit "RCPT TO:<" ++ Mailbox_to_string rcpt ++ lit ">") <$>
        env_recipients (msg_envelope message)) ++
     [lit "DATA"])
    (dot_stuff (Message_to_bytes message)).

(** * The index loop and its reference *)

(** [str::split("\r\n")] by recursion on the text. *)
Definition push_head (x : Z) (ls : list bytes) : list bytes :=
  match ls with [] => [[x]] | h :: r => (x :: h) :: r end.
Fixpoint crlf_split (s : bytes) : list bytes :=
  match s with
  | [] => [[]]
  | x :: t =>
      match t with
      | [] => [[x]]
      | y :: u => if (x =? CR) && (y =? LF) then [] :: crlf_split u else push_head x (crlf_split t)
      end
  end.

Lemma crlf_split_cons2 x y t :
  crlf_split (x :: y :: t) =
  if (x =? CR) && (y =? LF) then [] :: crlf_split t else push_head x (crlf_split (y :: t)).
Proof. done. Qed.

Lemma crlf_split_nonempty s : crlf_split s ≠ [].
Proof.
  destruct s as [|x [|y t]]; simpl; try done. case_code; [done|]. unfold push_head. by case_code.
Qed.

Lemma crlf_split_join s : join CRLF (crlf_split s) = s.
Proof.
  induction s as [s IH] using (induction_ltof1 _ (@length Z)); unfold ltof in IH.
  destruct s as [|x [|y t]]; [done..|]. rewrite crlf_split_cons2. case_code.
  - bsimp. subst. pose proof (crlf_split_nonempty t). pose proof (IH t ltac:(simpl; lia)) as E.
    destruct (crlf_split t); [done|]. simpl. simpl in E. by rewrite E.
  - pose proof (crlf_split_nonempty (y :: t)). pose proof (IH (y :: t) ltac:(simpl; lia)) as E.
    destruct (crlf_split (y :: t)) as [|h [|h' r]]; [done|..]; simpl in *; f_equal; done.
Qed.

Lemma crlf_split_head y t h r : crlf_split (y :: t) = h :: r → h = [] ∨ ∃ h', h = y :: h'.
Proof.
  destruct t as [|z t]; simpl; [naive_solver|].
  case_code; [naive_solver|]. unfold push_head. case_code; naive_solver.
Qed.

Lemma crlf_split_no_crlf s : Forall (λ seg, find_sub CRLF seg = None) (crlf_split s).
Proof.
  induction s as [s IH] using (induction_ltof1 _ (@length Z)); unfold ltof in IH.
  destruct s as [|x [|y t]].
  - by repeat constructor.
  - constructor; [|done]. simpl. unfold starts_with. simpl. by destruct (CR =? x).
  - rewrite crlf_split_cons2. case_code; [constructor; [done|]; apply IH; simpl; lia|].
    pose proof (crlf_split_nonempty (y :: t)). pose proof (crlf_split_head y t) as Hh.
    specialize (IH (y :: t) ltac:(simpl; lia)).
    destruct (crlf_split (y :: t)) as [|h r]; [done|]. apply Forall_cons in IH as [Hf HF].
    simpl. constructor; [|done]. cbn [find_sub]. rewrite Hf.
    replace (starts_with CRLF (x :: h)) with false; [done|]. unfold starts_with. simpl.
    destruct (Z.eqb_spec CR x) as [<-|]; [|done].
    destruct (Hh h r eq_refl) as [->|[h' ->]]; [done|]. destruct (Z.eqb_spec LF y) as [<-|]; done.
Qed.

(** The loop's state after scanning up to [i]: the finished segments, and the
    part of the current one between [start] and [i]. *)
Definition with_prefix (p : bytes) (ls : list bytes) : list bytes :=
  match ls with [] => [p] | h :: r => (p ++ h) :: r end.

Lemma with_prefix_push p x ls : ls ≠ [] → with_prefix p (push_head x ls) = with_prefix (p ++ [x]) ls.
Proof. destruct ls; [done|]. simpl. by rewrite <-app_assoc. Qed.

Lemma slice_grow body a i x : (a ≤ i)%nat → body !! i = Some x → slice body a (i + 1) = slice body a i ++ [x].
Proof.
  intros Ha Hx. unfold slice. replace (i + 1 - a)%nat with (S (i - a)) by lia.
  apply take_S_r. rewrite lookup_drop. by replace (a + (i - a))%nat with i by lia.
Qed.

Lemma split_on_crlf_loop_ok fuel body start i segs :
  (start ≤ i ≤ length body)%nat → (length body ≤ fuel + i)%nat →
  split_on_crlf_loop fuel body start i segs =
  segs ++ with_prefix (slice body start i) (crlf_split (drop i body)).
Proof.
  revert start i segs. induction fuel as [|fuel IH]; intros start i segs Hi Hf.
  - assert (i = length body) as -> by lia. simpl. rewrite drop_all. simpl. unfold slice.
    rewrite app_nil_r, take_ge; [done|]. rewrite length_drop. lia.
  - cbn [split_on_crlf_loop]. destruct (decide (i + 1 < length body)%nat) as [Hlt|Hge].
    + rewrite bool_decide_eq_true_2 by done.
      destruct (lookup_lt_is_Some_2 body i ltac:(lia)) as [x Hx].
      destruct (lookup_lt_is_Some_2 body (i + 1) ltac:(lia)) as [y Hy].
      rewrite (drop_S body x i) by done. rewrite (drop_S body y (S i)) by (by rewrite Nat.add_1_r in Hy).
      rewrite crlf_split_cons2, Hx, Hy.
      replace (bool_decide (Some x = Some CR)) with (x =? CR)
        by (destruct (Z.eqb_spec x CR); case_bool_decide; congruence).
      replace (bool_decide (Some y = Some LF)) with (y =? LF)
        by (destruct (Z.eqb_spec y LF); case_bool_decide; congruence).
      case_code.
      * rewrite IH by lia. replace (i + 2)%nat with (S (S i)) by lia.
        rewrite <-app_assoc. f_equal. simpl. rewrite app_nil_r. f_equal.
        unfold slice. rewrite Nat.sub_diag. simpl. pose proof (crlf_split_nonempty (drop (S (S i)) body)).
        by destruct (crlf_split _).
      * rewrite IH by lia. rewrite with_prefix_push.
        -- rewrite <-(slice_grow body start i x), Nat.add_1_r by (done || lia).
           by rewrite (drop_S body y (S i)) by (by rewrite Nat.add_1_r in Hy).
        -- rewrite <-(drop_S body y (S i)) by (by rewrite Nat.add_1_r in Hy). apply crlf_split_nonempty.
    + rewrite bool_decide_eq_false_2 by done. f_equal.
      assert (drop start body = slice body start i ++ drop i body) as ->.
      { unfold slice. rewrite <-(take_drop (i - start) (drop start body)) at 1.
        rewrite drop_drop. by replace (start + (i - start))%nat with i by lia. }
      destruct (drop i body) as [|x [|y t]] eqn:E; simpl; [by rewrite app_nil_r|done|].
      apply (f_equal length) in E. rewrite length_drop in E. simpl in E. lia.
Qed.

Lemma split_on_crlf_ref body : split_on_crlf body = crlf_split body.
Proof.
  unfold split_on_crlf. rewrite split_on_crlf_loop_ok by lia. simpl. unfold slice. simpl.
  rewrite drop_0. pose proof (crlf_split_nonempty body). by destruct (crlf_split body).
Qed.

(** The index loop of [split_on_crlf] stays in bounds, ends, and computes
    the split of the text at every CRLF; joining the segments with CRLF gives
    the body back. *)
Theorem split_on_crlf_correct (body : bytes) :
  split_on_crlf body = crlf_split body ∧ join CRLF (split_on_crlf body) = body ∧
  Forall (λ seg, find_sub CRLF seg = None) (split_on_crlf body).
Proof.
  rewrite split_on_crlf_ref. auto using crlf_split_join, crlf_split_no_crlf.
Qed.

(** * End of data *)

Lemma line_content_crlf c : line_content (c ++ CRLF) = c.
Proof. unfold line_content. by rewrite strip_suffix_app. Qed.

Lemma ends_with_crlf_content line : ends_with CRLF line = true → line = line_content line ++ CRLF.
Proof. intros [c ->]%ends_with_true. by rewrite line_content_crlf. Qed.

Lemma push_line_fin c line :
  (push_line c line).2 = true ↔ ic_prev_crlf c = true ∧ line = EOD_LINE.
Proof.
  unfold push_line, EOD_LINE. split.
  - case_code; simpl; [|by case_code]. intros _. bsimp. apply str_eqb_eq in H0.
    split; [done|]. rewrite (ends_with_crlf_content line) by done. by rewrite H0.
  - intros [-> ->]. by vm_compute.
Qed.

(** What [push_line] does with a line that does not end the data. *)
Lemma push_line_body c line :
  (push_line c line).2 = false → ic_size_exceeded (push_line c line).1 = false →
  (push_line c line).1 =
  mkCollector (ic_body c ++ default (line_content line) (strip_prefix [DOT] (line_content line)) ++ CRLF)
    (ic_finished c) (ends_with CRLF line) (ic_max_size c) false ∧ ic_size_exceeded c = false.
Proof.
  unfold push_line. case_code; [done|]. case_code; simpl; [done|]. intros _ ->. done.
Qed.

Lemma push_line_exceeded c line :
  ic_size_exceeded c = true → ic_size_exceeded (push_line c line).1 = true.
Proof. unfold push_line. intros Hc. rewrite Hc. by case_code. Qed.

Lemma collect_exceeded c ls :
  ic_size_exceeded (collect c ls).1 = false → ic_size_exceeded c = false.
Proof.
  revert c. induction ls as [|l ls IH]; intros c; simpl; [done|].
  pose proof (push_line_exceeded c l) as Hp. destruct (push_line c l) as [c' []]; simpl in *.
  - intros. destruct (ic_size_exceeded c); [|done]. rewrite Hp in *; done.
  - intros ?%IH. destruct (ic_size_exceeded c); [|done]. rewrite Hp in *; done.
Qed.

(** In a list of lines, the end-of-data marker after a CRLF-terminated line. *)
Definition eod_at (ls : list bytes) (pre : list bytes) (rest : list bytes) : Prop :=
  ls = pre ++ EOD_LINE :: rest ∧ ∃ q l, pre = q ++ [l] ∧ ends_with CRLF l = true.

Lemma eod_at_cons l0 l ls pre rest :
  eod_at (l0 :: l :: ls) pre rest ↔
  (pre = [l0] ∧ l = EOD_LINE ∧ ls = rest ∧ ends_with CRLF l0 = true) ∨
  ∃ pre', pre = l0 :: pre' ∧ eod_at (l :: ls) pre' rest.
Proof.
  unfold eod_at. split.
  - intros (Hls & [|x q] & l1 & -> & He); simplify_eq/=; [by left|]. right.
    eexists. split; [done|]. eauto 10.
  - intros [(-> & -> & -> & ?)|(pre' & -> & -> & q & l1 & -> & ?)].
    + split; [done|]. by exists [], l0.
    + split; [done|]. by exists (l0 :: q), l1.
Qed.

(** The lines before the first marker, and those after it. *)
Fixpoint until_eod (after_crlf : bool) (ls : list bytes) : list bytes * option (list bytes) :=
  match ls with
  | [] => ([], None)
  | l :: ls =>
      if after_crlf && bool_decide (l = EOD_LINE) then ([], Some ls)
      else let '(a, r) := until_eod (ends_with CRLF l) ls in (l :: a, r)
  end.

Lemma until_eod_spec ls l0 :
  match until_eod (ends_with CRLF l0) ls with
  | (a, Some rest) => eod_at (l0 :: ls) (l0 :: a) rest ∧
                      ∀ pre' rest', eod_at (l0 :: ls) pre' rest' → (length (l0 :: a) ≤ length pre')%nat
  | (a, None) => a = ls ∧ ∀ pre rest, ¬ eod_at (l0 :: ls) pre rest
  end.
Proof.
  revert l0. induction ls as [|l ls IH]; intros l0; cbn [until_eod].
  { split; [done|]. intros pre rest (Hl & q & l & -> & _). apply (f_equal length) in Hl. rewrite !length_app in Hl. simpl in Hl. lia. }
  destruct (ends_with CRLF l0 && bool_decide (l = EOD_LINE)) eqn:E.
  - bsimp. subst l. split; [rewrite eod_at_cons; by left|].
    intros pre' rest' (_ & q & l & -> & _). rewrite length_app. simpl. lia.
  - assert (¬ (ends_with CRLF l0 = true ∧ l = EOD_LINE)) as Hn.
    { intros [H1 H2]. rewrite H1, bool_decide_true in E by done. done. }
    specialize (IH l). destruct (until_eod (ends_with CRLF l) ls) as [a [rest|]].
    + destruct IH as (Hpre & Hmin). rewrite eod_at_cons. split; [eauto|].
      intros pre' rest' [?|(pre'' & -> & H)]%eod_at_cons; [naive_solver|]. simpl. apply Hmin in H. simpl in H. lia.
    + destruct IH as [-> IH]. split; [done|]. intros pre rest [?|(pre'' & -> & H)]%eod_at_cons; naive_solver.
Qed.

(** ** The text of a message

    What a line says: no line end, no stuffed dot. *)
Definition strip_last (c : Z) (l : bytes) : bytes := if bool_decide (last l = Some c) then removelast l else l.
Definition line_text (l : bytes) : bytes := strip_last CR (strip_last LF l).
Definition undot (l : bytes) : bytes := match l with c :: t => if c =? DOT then t else l | [] => [] end.
Definition plain_lines (ls : list bytes) : bytes := ls ≫= λ l, undot (line_text l) ++ CRLF.

Lemma strip_last_snoc c l x : strip_last c (l ++ [x]) = if decide (x = c) then l else l ++ [x].
Proof.
  unfold strip_last. rewrite last_snoc. destruct (decide (x = c)) as [->|Hne].
  - by rewrite bool_decide_true, removelast_last.
  - rewrite bool_decide_false by congruence. done.
Qed.
Lemma strip_suffix_one c l : default l (strip_suffix [c] l) = strip_last c l.
Proof.
  destruct l as [|x l _] using rev_ind; [done|]. rewrite strip_last_snoc. destruct (decide (x = c)) as [->|Hne].
  - by rewrite strip_suffix_app.
  - destruct (strip_suffix [c] (l ++ [x])) as [r|] eqn:E; [|done]. apply strip_suffix_Some in E. apply app_inj_tail in E as [_ ?]. done.
Qed.
Lemma line_content_text l : line_content l = line_text l.
Proof.
  unfold line_content, line_text. rewrite <-!strip_suffix_one.
  destruct (strip_suffix CRLF l) as [c|] eqn:E.
  - apply strip_suffix_Some in E as ->. change CRLF with ([CR] ++ [LF]).
    rewrite app_assoc, strip_suffix_app. simpl. by rewrite strip_suffix_app.
  - destruct (strip_suffix [LF] l) as [c|] eqn:El; simpl; [|done]. apply strip_suffix_Some in El as ->.
    destruct (strip_suffix [CR] c) as [c'|] eqn:Ec; [|done]. apply strip_suffix_Some in Ec as ->.
    rewrite <-app_assoc in E. change ([CR] ++ [LF]) with CRLF in E. by rewrite strip_suffix_app in E.
Qed.
Lemma strip_dot l : default l (strip_prefix [DOT] l) = undot l.
Proof. destruct l as [|x l]; [done|]. unfold strip_prefix. simpl. rewrite (Z.eqb_sym DOT x). by destruct (x =? DOT). Qed.

Lemma push_line_until c l :
  push_line c l =
  if ic_prev_crlf c && bool_decide (l = EOD_LINE) then
    (mkCollector (ic_body c) true (ic_prev_crlf c) (ic_max_size c) (ic_size_exceeded c), true)
  else if ic_size_exceeded c || (ic_max_size c <? len (ic_body c) + len (undot (line_text l) ++ CRLF)) then
    (mkCollector (ic_body c) (ic_finished c) (ic_prev_crlf c) (ic_max_size c) true, false)
  else (mkCollector (ic_body c ++ undot (line_text l) ++ CRLF) (ic_finished c) (ends_with CRLF l) (ic_max_size c) (ic_size_exceeded c), false).
Proof.
  unfold push_line. rewrite line_content_text, strip_dot.
  assert (ends_with CRLF l && (line_text l =s? [DOT]) = bool_decide (l = EOD_LINE)) as Hd.
  { apply eq_bool_prop_intro. rewrite bool_decide_spec, andb_True. split.
    - intros [H1%Is_true_true H2%Is_true_true]. apply str_eqb_eq in H2. rewrite <-line_content_text in H2.
      rewrite (ends_with_crlf_content l) by done. by rewrite H2.
    - intros ->. by split. }
  rewrite <-andb_assoc, Hd. replace (len (ic_body c) + len (undot (line_text l)) + 2) with (len (ic_body c) + len (undot (line_text l) ++ CRLF))
    by (autorewrite with len; change (len CRLF) with 2; lia). done.
Qed.

Lemma collect_size_exceeded c ls : ic_size_exceeded c = true → ic_size_exceeded (collect c ls).1 = true.
Proof.
  revert c. induction ls as [|l ls IH]; intros c Hc; simpl; [done|]. pose proof (push_line_exceeded c l Hc) as Hp.
  destruct (push_line c l) as [c' []]; simpl in *; [done|by apply IH].
Qed.

(** The collector keeps the text of the lines before the marker, if the limit allows it,
    and says so if not. *)
Lemma collect_until ls : ∀ c,
  ic_size_exceeded c = false → len (ic_body c) ≤ ic_max_size c →
  let '(a, r) := until_eod (ic_prev_crlf c) ls in
  if len (ic_body c ++ plain_lines a) <=? ic_max_size c
  then ic_body (collect c ls).1 = ic_body c ++ plain_lines a ∧ (collect c ls).2 = r ∧
       ic_size_exceeded (collect c ls).1 = false ∧ ic_max_size (collect c ls).1 = ic_max_size c ∧
       ic_finished (collect c ls).1 = (match r with Some _ => true | None => ic_finished c end)
  else ic_size_exceeded (collect c ls).1 = true.
Proof.
  induction ls as [|l ls IH]; intros c Hex Hle.
  { cbn [until_eod collect]. unfold plain_lines. cbn [mbind list_bind]. rewrite app_nil_r. apply Z.leb_le in Hle as ->. by split_and!. }
  cbn [until_eod collect]. rewrite push_line_until. destruct (ic_prev_crlf c && _).
  { unfold plain_lines. cbn [mbind list_bind]. rewrite app_nil_r. apply Z.leb_le in Hle as ->. by split_and!. }
  rewrite Hex. cbn [orb].
  assert (∀ a, len (ic_body c ++ plain_lines (l :: a)) = len (ic_body c) + len (undot (line_text l) ++ CRLF) + len (plain_lines a)) as Hlen.
  { intros a. unfold plain_lines. rewrite bind_cons. autorewrite with len. lia. }
  destruct (Z.ltb_spec (ic_max_size c) (len (ic_body c) + len (undot (line_text l) ++ CRLF))) as [Hlt|Hge].
  - destruct (until_eod _ ls) as [a r]. rewrite Hlen. pose proof (len_nonneg (plain_lines a)).
    rewrite (proj2 (Z.leb_gt _ _)) by lia. by apply collect_size_exceeded.
  - specialize (IH (mkCollector (ic_body c ++ undot (line_text l) ++ CRLF) (ic_finished c) (ends_with CRLF l) (ic_max_size c) false)).
    cbn [ic_size_exceeded ic_body ic_max_size ic_prev_crlf ic_finished] in IH.
    specialize (IH eq_refl ltac:(autorewrite with len in *; lia)). destruct (until_eod (ends_with CRLF l) ls) as [a r].
    assert (ic_body c ++ plain_lines (l :: a) = (ic_body c ++ undot (line_text l) ++ CRLF) ++ plain_lines a) as ->; [|exact IH].
    unfold plain_lines. rewrite bind_cons, <-!app_assoc. done.
Qed.

(** ** From lines to the byte stream *)

Lemma split_inclusive_lf_concat s : concat (split_inclusive_lf s) = s.
Proof.
  induction s as [|x s IH]; simpl; [done|]. case_code; simpl; [by f_equal|].
  destruct (split_inclusive_lf s); simpl in *; by rewrite <-IH.
Qed.

(** The last line of a text that ends in CRLF ends in CRLF. *)
Lemma split_inclusive_lf_crlf a :
  ∃ pre l, split_inclusive_lf (a ++ CRLF) = pre ++ [l] ∧ ends_with CRLF l = true.
Proof.
  destruct (rsplit_once LF a) as [[b c]|] eqn:E.
  - apply rsplit_once_Some in E as [-> Hc]. rewrite <-app_assoc, <-app_comm_cons, split_inclusive_lf_app.
    eexists _, (c ++ CRLF). rewrite ends_with_true. split; [|eauto]. f_equal.
    unfold CRLF. change [CR; LF] with ([CR] ++ [LF]). rewrite app_assoc.
    by rewrite split_inclusive_lf_one by (set_solver by done).
  - apply rsplit_once_None in E. exists [], (a ++ CRLF). rewrite ends_with_true. split; [|eauto].
    unfold CRLF. change [CR; LF] with ([CR] ++ [LF]). rewrite app_assoc.
    by rewrite split_inclusive_lf_one by (set_solver by done).
Qed.

(** The end-of-data sequence of RFC 5321. *)
Definition EOD : bytes := CRLF ++ EOD_LINE.

Lemma eod_at_stream ls pre rest :
  eod_at ls pre rest → ∃ a, concat pre = a ++ CRLF ∧ concat ls = a ++ EOD ++ concat rest.
Proof.
  intros (-> & q & l & -> & [l' ->]%ends_with_true). exists (concat q ++ l').
  rewrite !concat_app. simpl. unfold EOD. rewrite app_nil_r. by rewrite <-!app_assoc.
Qed.

Lemma stream_eod_at a b :
  eod_at (split_inclusive_lf (a ++ EOD ++ b)) (split_inclusive_lf (a ++ CRLF)) (split_inclusive_lf b).
Proof.
  destruct (split_inclusive_lf_crlf a) as (q & l & Hl & He). rewrite Hl. split; [|eauto].
  unfold EOD, EOD_LINE, CRLF in *.
  change ((([CR; LF] ++ [DOT] ++ [CR; LF]) ++ b)) with ([CR] ++ LF :: [DOT; CR] ++ LF :: b).
  rewrite app_assoc, split_inclusive_lf_app, <-app_assoc.
  change ([CR] ++ [LF]) with [CR; LF]. by rewrite Hl, split_inclusive_lf_app.
Qed.

Lemma eod_at_prefix ls pre rest pre' rest' :
  eod_at ls pre rest → eod_at ls pre' rest' → (length pre ≤ length pre')%nat → ∃ k, pre' = pre ++ k.
Proof.
  intros [-> _] [Hl' _] Hle. apply app_eq_inv in Hl' as [(k & Hk & _)|(k & Hk & _)]; [|eauto].
  subst. rewrite length_app in Hle. destruct k; simpl in *; [|lia]. exists []. by rewrite !app_nil_r.
Qed.

(** The first marker of a stream, by lines and by bytes. *)
Lemma until_eod_stream stream :
  match find_sub EOD (CRLF ++ stream) with
  | Some i => stream = take i stream ++ EOD_LINE ++ drop (i + 3) stream ∧
      until_eod true (split_inclusive_lf stream) = (split_inclusive_lf (take i stream), Some (split_inclusive_lf (drop (i + 3) stream)))
  | None => until_eod true (split_inclusive_lf stream) = (split_inclusive_lf stream, None)
  end.
Proof.
  pose proof (until_eod_spec (split_inclusive_lf stream) CRLF) as Hc.
  change (CRLF :: split_inclusive_lf stream) with (split_inclusive_lf (CRLF ++ stream)) in Hc. change (ends_with CRLF CRLF) with true in Hc.
  destruct (find_sub EOD (CRLF ++ stream)) as [i|] eqn:Ei.
  - pose proof (find_sub_Some _ _ _ Ei) as (a0 & b0 & Hab & Hlen). pose proof (stream_eod_at a0 b0) as Hs. rewrite <-Hab in Hs.
    destruct (until_eod _ _) as [a [r|]]; [|by apply Hc in Hs]. destruct Hc as [Hpre Hmin].
    destruct (eod_at_stream _ _ _ Hpre) as (p & Hp & Hl). rewrite split_inclusive_lf_concat in Hl.
    pose proof (find_sub_first _ _ _ _ _ Ei Hl) as Hle.
    destruct (eod_at_prefix _ _ _ _ _ Hpre Hs (Hmin _ _ Hs)) as [k Hk].
    assert (a0 ++ CRLF = concat (CRLF :: a) ++ concat k) as Ha by (by rewrite <-concat_app, <-Hk, split_inclusive_lf_concat).
    assert (concat k = []) as Hknil.
    { rewrite Hp in Ha. apply (f_equal length) in Ha. rewrite !length_app in Ha. apply length_zero_iff_nil. lia. }
    destruct Hpre as [Hls _], Hs as [Hls' _]. rewrite Hk, Hls, <-app_assoc in Hls'. apply app_inv_head in Hls'.
    destruct k as [|k0 k]; [|injection Hls' as <- _; discriminate Hknil]. injection Hls' as ->. rewrite app_nil_r in Hk.
    rewrite Hknil, app_nil_r in Ha. cbn [concat] in Ha.
    assert (a = split_inclusive_lf (concat a)) as Hsplit.
    { rewrite Ha in Hk. change (split_inclusive_lf (CRLF ++ concat a)) with (CRLF :: split_inclusive_lf (concat a)) in Hk. congruence. }
    assert (length a0 = length (concat a)) as Hla by (apply (f_equal length) in Ha; rewrite !length_app in Ha; lia).
    assert (stream = concat a ++ EOD_LINE ++ b0) as Hst.
    { unfold EOD in Hab. rewrite <-app_assoc, app_assoc, Ha, <-app_assoc in Hab. by apply app_inv_head in Hab. }
    assert (take i stream = concat a) as Ht.
    { rewrite Hst, <-Hlen, Hla. apply take_app_length. }
    assert (drop (i + 3) stream = b0) as Hd.
    { rewrite <-Hlen, Hla, Hst at 1. rewrite app_assoc. replace (length (concat a) + 3)%nat with (length (concat a ++ EOD_LINE)) by (rewrite length_app; done).
      apply drop_app_length. }
    rewrite Ht, Hd, <-Hsplit. by split.
  - destruct (until_eod _ _) as [a [r|]]; [|by destruct Hc as [-> _]]. destruct Hc as [Hpre _].
    destruct (eod_at_stream _ _ _ Hpre) as (p & _ & Hl). rewrite split_inclusive_lf_concat in Hl.
    by eapply find_sub_None in Ei.
Qed.



(** * What the collector keeps *)

(** A body made of CRLF-terminated lines without a bare LF. *)
Definition canonical (body : bytes) : Prop :=
  ∃ segs, body = (segs ≫= λ s, s ++ CRLF) ∧ Forall (λ s, LF ∉ s) segs.

Lemma canonical_snoc body s : canonical body → LF ∉ s → canonical (body ++ s ++ CRLF).
Proof.
  intros (segs & -> & HF) Hs. exists (segs ++ [s]). split.
  - rewrite bind_app. simpl. by rewrite app_nil_r.
  - apply Forall_app. auto.
Qed.

(** A line as the reader delivers it: at most one LF, at its end. *)
Definition one_line (l : bytes) : Prop := LF ∉ l ∨ ∃ c, l = c ++ [LF] ∧ LF ∉ c.

Lemma split_inclusive_lf_one_line s : Forall one_line (split_inclusive_lf s).
Proof.
  induction s as [|x s IH]; simpl; [done|]. case_code; bsimp.
  - constructor; [|done]. right. exists []. subst. set_solver.
  - destruct (split_inclusive_lf s) as [|h r]; [constructor; [left; set_solver|done]|].
    apply Forall_cons in IH as [Hh Hr]. constructor; [|done].
    destruct Hh as [?|(c & -> & ?)]; [left; set_solver|]. right. exists (x :: c). set_solver.
Qed.

Lemma line_content_no_lf l : one_line l → LF ∉ line_content l.
Proof.
  unfold line_content. intros Hl.
  destruct (strip_suffix CRLF l) as [c|] eqn:E1.
  { apply strip_suffix_Some in E1 as ->. destruct Hl as [?|(c' & Hc & ?)]; [set_solver|].
    unfold CRLF in Hc. change [CR; LF] with ([CR] ++ [LF]) in Hc. rewrite app_assoc in Hc.
    apply app_inj_tail in Hc as [<- _]. set_solver. }
  destruct (strip_suffix [LF] l) as [c|] eqn:E2.
  { apply strip_suffix_Some in E2 as ->. destruct Hl as [?|(c' & Hc & ?)]; [set_solver|].
    by apply app_inj_tail in Hc as [<- _]. }
  destruct Hl as [?|(c' & -> & ?)]; [|by rewrite strip_suffix_app in E2].
  destruct (strip_suffix [CR] l) as [c|] eqn:E3; simpl; [|done].
  apply strip_suffix_Some in E3 as ->. set_solver.
Qed.

Definition collector_ok (c : InboundCollector) : Prop :=
  len (ic_body c) ≤ Z.max 0 (ic_max_size c) ∧ canonical (ic_body c).

Lemma push_line_ok c l : one_line l → collector_ok c → collector_ok (push_line c l).1.
Proof.
  intros Hl [Hlen Hcan]. unfold push_line. case_code; [done|]. case_code; [done|]. bsimp.
  split; cbn [fst ic_body ic_max_size].
  - autorewrite with len. lia.
  - apply canonical_snoc; [done|]. pose proof (line_content_no_lf _ Hl) as Hc.
    destruct (strip_prefix [DOT] (line_content l)) as [c'|] eqn:E; [|done].
    apply strip_prefix_Some in E. rewrite E in Hc. set_solver.
Qed.

(** Whatever bytes arrive, the collected body never outgrows the size cap,
    even by its added line ends, and it consists of CRLF-terminated lines
    without a bare LF, so no bare line feed is relayed onward. *)
Theorem collect_bounded_canonical (max : Z) (stream : bytes) :
  len (ic_body (collect (with_max_size max) (split_inclusive_lf stream)).1) ≤ Z.max 0 max ∧
  canonical (ic_body (collect (with_max_size max) (split_inclusive_lf stream)).1).
Proof.
  assert (∀ c ls, Forall one_line ls → collector_ok c → collector_ok (collect c ls).1 ∧
    ic_max_size (collect c ls).1 = ic_max_size c) as H.
  { intros c ls HF. revert c. induction HF as [|l ls Hl _ IH]; intros c Hc; simpl; [done|].
    pose proof (push_line_ok c l Hl Hc) as Hp.
    assert (ic_max_size (push_line c l).1 = ic_max_size c) as Hm
      by (unfold push_line; by repeat case_code).
    destruct (push_line c l) as [c' []]; simpl in *; [done|].
    destruct (IH c' Hp) as [? ->]. done. }
  destruct (H (with_max_size max) (split_inclusive_lf stream) (split_inclusive_lf_one_line _))
    as [[Hb Hc] Hm].
  - split; simpl; [unfold len; simpl; lia|]. by exists [].
  - rewrite Hm in Hb. done.
Qed.

(** * The relay round trip *)

Lemma push_line_stuffed c s :
  ic_size_exceeded c = false → ic_prev_crlf c = true → ic_finished c = false →
  len (ic_body c) + len s + 2 ≤ ic_max_size c →
  push_line c (stuff_line s ++ CRLF) =
  (mkCollector (ic_body c ++ s ++ CRLF) false true (ic_max_size c) false, false).
Proof.
  intros He Hp Hf Hs. unfold push_line. rewrite line_content_crlf.
  assert (ends_with CRLF (stuff_line s ++ CRLF) = true) as -> by (apply ends_with_true; eauto).
  rewrite Hp, He, Hf. simpl.
  assert ((stuff_line s =s? [DOT]) = false) as ->.
  { apply str_eqb_neq. unfold stuff_line. destruct s as [|x s]; simpl; [done|].
    case_bool_decide; simpl; [done|]. naive_solver. }
  assert (default (stuff_line s) (strip_prefix [DOT] (stuff_line s)) = s) as Hu.
  { unfold stuff_line. case_bool_decide as Hd; simpl; [done|].
    destruct s as [|x s]; simpl; [done|]. destruct (Z.eqb_spec DOT x) as [<-|]; done. }
  simpl in Hu. rewrite Hu. destruct (Z.ltb_spec (ic_max_size c) (len (ic_body c) + len s + 2)); [lia|done].
Qed.

Lemma collect_stuffed c segs rest :
  ic_size_exceeded c = false → ic_prev_crlf c = true → ic_finished c = false →
  len (ic_body c) + len (segs ≫= λ s, s ++ CRLF) ≤ ic_max_size c →
  collect c (((λ s, stuff_line s ++ CRLF) <$> segs) ++ EOD_LINE :: rest) =
  (mkCollector (ic_body c ++ (segs ≫= λ s, s ++ CRLF)) true true (ic_max_size c) false, Some rest).
Proof.
  revert c. induction segs as [|s segs IH]; intros c He Hp Hf Hs.
  - simpl. destruct c as [b f p n e]; simpl in *; subst. by rewrite app_nil_r.
  - rewrite bind_cons in *. autorewrite with len in Hs. pose proof (len_nonneg (segs ≫= λ s, s ++ CRLF)).
    cbn [fmap list_fmap app collect]. rewrite push_line_stuffed by (done || lia).
    rewrite IH by (simpl; done || (autorewrite with len; lia)).
    simpl. by rewrite <-!app_assoc.
Qed.

Lemma stuffed_lines segs :
  Forall (λ s, LF ∉ s) segs →
  split_inclusive_lf ((segs ≫= λ s, stuff_line s ++ CRLF) ++ EOD_LINE) =
  ((λ s, stuff_line s ++ CRLF) <$> segs) ++ [EOD_LINE].
Proof.
  induction 1 as [|s segs Hs _ IH]; [done|]. rewrite bind_cons, fmap_cons, <-app_assoc.
  assert (LF ∉ stuff_line s ++ [CR]) as Hl.
  { unfold stuff_line. case_bool_decide; set_solver by done. }
  assert (stuff_line s ++ CRLF = (stuff_line s ++ [CR]) ++ [LF]) as E by (by rewrite <-app_assoc).
  rewrite E, <-(app_assoc (_ ++ [CR])). simpl. rewrite split_inclusive_lf_app, IH.
  by rewrite split_inclusive_lf_one by done.
Qed.

Lemma join_crlf segs : segs ≠ [] → (segs ≫= λ s, s ++ CRLF) = join CRLF segs ++ CRLF.
Proof.
  induction segs as [|s [|s' segs] IH]; intros Hne; [done|simpl; by rewrite app_nil_r|].
  rewrite bind_cons, IH by done. simpl. by rewrite <-!app_assoc.
Qed.

Lemma dot_stuff_collect_core (max : Z) (body : bytes) :
  Forall (λ s, LF ∉ s) (crlf_split body) → len body + 2 ≤ max →
  collect (with_max_size max) (split_inclusive_lf (dot_stuff body)) =
  (mkCollector (body ++ CRLF) true true max false, Some []).
Proof.
  intros HF Hlen. unfold dot_stuff. rewrite split_on_crlf_ref, stuffed_lines by done.
  pose proof (crlf_split_nonempty body) as Hne.
  rewrite collect_stuffed; simpl; try done.
  - by rewrite join_crlf, crlf_split_join.
  - rewrite join_crlf, crlf_split_join by done. autorewrite with len. lia.
Qed.

(** Relay round trip: a body without bare LFs that is dot-stuffed by this
    server's relay and read line by line by its own collector arrives complete
    and in one message, as the body followed by one CRLF. *)
Theorem dot_stuff_collect (max : Z) (body : bytes) :
  Forall (λ s, LF ∉ s) (crlf_split body) → len body + 2 ≤ max →
  collect (with_max_size max) (split_inclusive_lf (dot_stuff body)) =
  (mkCollector (body ++ CRLF) true true max false, Some []).
Proof. apply dot_stuff_collect_core. Qed.

Lemma dot_stuff_collect_witness :
  collect (with_max_size 100) (split_inclusive_lf (dot_stuff (lit ".a" ++ CRLF ++ lit "."))) =
  (mkCollector (lit ".a" ++ CRLF ++ lit "." ++ CRLF) true true 100 false, Some []).
Proof.
  apply (dot_stuff_collect 100 (lit ".a" ++ CRLF ++ lit ".")); [|by vm_compute].
  repeat (apply Forall_cons; split; [apply (bool_decide_eq_false (LF ∈ _)); by vm_compute|]). done.
Defined.


(** The relay script and the SMTP server agree: every command line of the
    script parses, a fresh session with room for the recipients answers each of
    them positively, and after DATA it yields exactly the envelope relayed. *)
Theorem relay_script_accepted (helo_domain : str) (message : Message) (max : Z) :
  trimmed helo_domain → helo_domain ≠ [] →
  (∀ m, env_sender (msg_envelope message) = Some m → relayable m) →
  Forall relayable (env_recipients (msg_envelope message)) →
  env_recipients (msg_envelope message) ≠ [] →
  len (env_recipients (msg_envelope message)) ≤ max →
  ∃ cs s rs,
    Forall2 (λ line c, SmtpCommand_parse line = Ok c) (commands (relay_script helo_domain message)) cs ∧
    smtp_run (with_max_recipients max) cs = (s, rs) ∧
    Forall (λ r, is_positive r = true) rs ∧
    phase s = DataPhase ∧ (take_envelope s).2 = Some (msg_envelope message).
Proof.
  destruct message as [[f ms] hs b rh]. unfold relay_script. simpl. intros Ht Hne Hf Hms Hms0 Hmax.
  exists ([Ehlo helo_domain; MailFrom f] ++ (RcptTo <$> ms) ++ [Data]).
  assert (smtp_run (with_max_recipients max) ([Ehlo helo_domain; MailFrom f] ++ (RcptTo <$> ms) ++ [Data]) =
    (mkSession DataPhase (Some helo_domain) f ms max,
     [mkReply 250 (lit "Hello " ++ helo_domain); mkReply 250 (lit "OK")] ++
     replicate (length ms) (mkReply 250 (lit "OK")) ++
     [mkReply 354 (lit "Start mail input; end with <CRLF>.<CRLF>")])) as ->.
  { rewrite !smtp_run_app. simpl.
    rewrite (smtp_run_rcpts (Some helo_domain) f max ms [] Sender) by auto. done. }
  eexists _, _. split_and!; [| done | | done |].
  - apply Forall2_cons. split; [by apply SmtpCommand_parse_ehlo|].
    apply Forall2_cons. split; [by apply SmtpCommand_parse_mail|].
    apply Forall2_app.
    + apply Forall2_fmap, Forall_Forall2_diag. eapply Forall_impl; [done|].
      apply SmtpCommand_parse_rcpt.
    + apply Forall2_cons. split; [by vm_compute|done].
  - repeat (apply Forall_cons; split; [done|]). apply Forall_app.
    split; [by apply Forall_replicate|]. by apply Forall_singleton.
  - unfold take_envelope. simpl. by rewrite bool_decide_eq_false_2.
Qed.

Lemma relayable_check m :
  negb (bool_decide (local m = [])) && negb (bool_decide (domain m = [])) &&
  negb (contains_char AT (domain m)) && negb (starts_with [AT] (Mailbox_to_string m)) &&
  trimmedb (Mailbox_to_string m) && negb (contains_char GT_ (Mailbox_to_string m)) = true →
  relayable m.
Proof.
  unfold contains_char. intros. bsimp. rewrite trimmedb_true in *.
  unfold relayable, printable. split_and!; done.
Qed.

Lemma relay_script_accepted_witness :
  let a := mkMailbox (lit "a") (lit "example.org") in
  let b := mkMailbox (lit "b") (lit "example.net") in
  let msg := mkMessage (mkEnvelope (Some a) [a; b]) [] [] [] in
  ∃ cs s rs,
    Forall2 (λ line c, SmtpCommand_parse line = Ok c) (commands (relay_script (lit "mx.example.org") msg)) cs ∧
    smtp_run (with_max_recipients 10) cs = (s, rs) ∧
    Forall (λ r, is_positive r = true) rs ∧
    phase s = DataPhase ∧ (take_envelope s).2 = Some (mkEnvelope (Some a) [a; b]).
Proof.
  intros a b msg. apply (relay_script_accepted (lit "mx.example.org") msg 10).
  - apply trimmedb_true. by vm_compute.
  - done.
  - intros m [= <-]. apply relayable_check. by vm_compute.
  - repeat (apply Forall_cons; split; [apply relayable_check; by vm_compute|]). done.
  - done.
  - by vm_compute.
Defined.
