(* ===== verification/Store.v ===== *)
(** * Mail storage, filtering and local delivery

    [crates/mail/src/storage/store.rs] (the [MailStore] trait and
    [MemoryMailStore]), [storage/mda.rs] (the [MailDeliveryAgent]),
    [transport/mta.rs] (the [Mta]'s routing), [security/scanner.rs],
    [security/tls.rs], [security/certs.rs] and [crates/filter/src/spam/mod.rs].

    The trait is the class [MailStore]; what its clients rely on is the class
    [MailStoreLaws].  The delivery agent, the MTA and the access servers are
    proved against the laws; [MemoryMailStore] discharges them.  The store is
    shared behind an [Arc<Mutex<_>>] in the program; every operation locks it for
    its whole duration, so a state is threaded through the operations. *)
From Stdlib Require Import Sorted.
From S2P Require Import Prelude RustStr Message.

(** ** The store interface *)

Record StoredMessage := mkStored { sm_id : Z; sm_message : Message }.
#[export] Instance StoredMessage_eq_dec : EqDecision StoredMessage.
Proof. solve_decision. Defined.

Class MailStore (S : Type) := {
  store_deliver : S → str → Message → S * Z;
  store_list : S → str → list StoredMessage;
  store_count : S → str → Z;
  store_remove : S → str → Z → S * bool }.

Class MailStoreLaws (S : Type) `{MailStore S} := {
  deliver_list s mb m :
    store_list (store_deliver s mb m).1 mb = store_list s mb ++ [mkStored (store_deliver s mb m).2 m];
  deliver_list_ne s mb mb' m :
    mb ≠ mb' → store_list (store_deliver s mb m).1 mb' = store_list s mb';
  remove_list s mb id :
    store_list (store_remove s mb id).1 mb = filter (λ x, sm_id x ≠ id) (store_list s mb);
  remove_list_ne s mb mb' id :
    mb ≠ mb' → store_list (store_remove s mb id).1 mb' = store_list s mb';
  remove_result s mb id :
    (store_remove s mb id).2 = bool_decide (id ∈ sm_id <$> store_list s mb);
  count_list s mb : store_count s mb = len (store_list s mb) }.

(** ** The in-memory store *)

Record MemoryMailStore := mkMem { next_id : Z; mailboxes : gmap str (list StoredMessage) }.
Definition MemoryMailStore_new : MemoryMailStore := mkMem 0 ∅.

Definition mem_list (s : MemoryMailStore) (mailbox : str) : list StoredMessage :=
  default [] (mailboxes s !! mailbox).
Definition mem_deliver (s : MemoryMailStore) (mailbox : str) (message : Message) : MemoryMailStore * Z :=
  let id := add_u64 (next_id s) 1 in
  (mkMem id (<[mailbox := mem_list s mailbox ++ [mkStored id message]]> (mailboxes s)), id).
Definition mem_count (s : MemoryMailStore) (mailbox : str) : Z :=
  match mailboxes s !! mailbox with Some ms => len ms | None => 0 end.
Definition mem_remove (s : MemoryMailStore) (mailbox : str) (id : Z) : MemoryMailStore * bool :=
  match mailboxes s !! mailbox with
  | None => (s, false)
  | Some messages =>
      let before := len messages in
      let messages := filter (λ m, sm_id m ≠ id) messages in
      (mkMem (next_id s) (<[mailbox := messages]> (mailboxes s)), negb (len messages =? before))
  end.

#[export] Instance MemoryMailStore_store : MailStore MemoryMailStore := {
  store_deliver := mem_deliver;
  store_list := mem_list;
  store_count := mem_count;
  store_remove := mem_remove }.

(** ** Filters *)

Record ContentScanner := mkScanner {
  max_body_bytes : option Z;
  flag_subject_substrings : list str }.
Definition ContentScanner_new : ContentScanner := mkScanner (Some (25 * 1024 * 1024)) [].
Definition flagging (c : ContentScanner) (substring : str) : ContentScanner :=
  mkScanner (max_body_bytes c) (flag_subject_substrings c ++ [substring]).

Definition ContentScanner_scan (c : ContentScanner) (message : Message) : FilterVerdict :=
  if match max_body_bytes c with Some max => max <? len (msg_body message) | None => false end
  then Reject
  else match subject message with
       | Some subj =>
           if existsb (λ s, contains (lowercase s) (lowercase subj)) (flag_subject_substrings c)
           then Flag else Accept
       | None => Accept
       end.
#[export] Instance ContentScanner_filter : MessageFilter ContentScanner := ContentScanner_scan.

Record SpamRule := mkRule { phrase : str; weight : Z }.
Record SpamFilter := mkSpam { rules : list SpamRule; flag_threshold : Z; reject_threshold : Z }.
Definition SpamFilter_new : SpamFilter :=
  mkSpam [mkRule (lit "viagra") 5; mkRule (lit "you have won") 5; mkRule (lit "free money") 5;
          mkRule (lit "click here now") 3; mkRule (lit "act now") 2; mkRule (lit "wire transfer") 3]
    5 10.

Definition haystack (message : Message) : str :=
  lowercase (default [] (subject message)) ++ [LF] ++ lowercase (from_utf8_lossy (msg_body message)).
(** [.sum()] on [u32]: wraps in a release build. *)
Definition score (f : SpamFilter) (message : Message) : Z :=
  foldl add_u32 0
    (weight <$> filter (λ r, contains (lowercase (phrase r)) (haystack message) = true) (rules f)).
Definition SpamFilter_scan (f : SpamFilter) (message : Message) : FilterVerdict :=
  let s := score f message in
  if reject_threshold f <=? s then Reject
  else if flag_threshold f <=? s then Flag
  else Accept.
#[export] Instance SpamFilter_filter : MessageFilter SpamFilter := SpamFilter_scan.

(** ** The delivery agent *)

Inductive DeliveryOutcome :=
  | Delivered (recipients : Z) (flagged : bool)
  | Rejected.
#[export] Instance DeliveryOutcome_eq_dec : EqDecision DeliveryOutcome.
Proof. solve_decision. Defined.

Section mda.
Context {S F : Type} `{MailStore S, MessageFilter F}.

(** The loop over the recipients. *)
Definition deliver_all (store : S) (rcpts : list Mailbox) (message : Message) : S :=
  foldl (λ st rcpt, (store_deliver st (Mailbox_to_string rcpt) message).1) store rcpts.

Definition mda_deliver (store : S) (filter : F) (message : Message) : S * DeliveryOutcome :=
  match scan filter message with
  | Reject => (store, Rejected)
  | v =>
      let recipients := env_recipients (msg_envelope message) in
      (deliver_all store recipients message,
       Delivered (len recipients) (match v with Flag => true | _ => false end))
  end.

(** ** The transfer agent *)

Inductive Route := Local | Relay.

Record InboundResult := mkInbound { in_local : option DeliveryOutcome; in_relay : list Mailbox }.

(** [Mta::new]. *)
Definition mta_domains (ds : list str) : gset str := list_to_set (lowercase <$> ds).

Definition route (local_domains : gset str) (mailbox : Mailbox) : Route :=
  if bool_decide (lowercase (domain mailbox) ∈ local_domains) then Local else Relay.

Definition is_local (local_domains : gset str) (mailbox : Mailbox) : bool :=
  match route local_domains mailbox with Local => true | Relay => false end.

Definition with_recipients (m : Message) (rs : list Mailbox) : Message :=
  mkMessage (mkEnvelope (env_sender (msg_envelope m)) rs) (msg_headers m) (msg_body m) (msg_raw_head m).

Definition accept_inbound (local_domains : gset str) (store : S) (filt : F) (message : Message)
    : S * InboundResult :=
  let rcpts := env_recipients (msg_envelope message) in
  let local := filter (λ r, is_local local_domains r = true) rcpts in
  let relay := filter (λ r, is_local local_domains r = false) rcpts in
  if bool_decide (local = []) then (store, mkInbound None relay)
  else
    let '(store, out) := mda_deliver store filt (with_recipients message local) in
    (store, mkInbound (Some out) relay).
End mda.

(** ** TLS policy and certificates *)

Inductive TlsPolicy := TlsDisabled | TlsOptional | TlsRequired.
Definition advertises_starttls (p : TlsPolicy) : bool :=
  match p with TlsOptional | TlsRequired => true | TlsDisabled => false end.
Definition requires_tls_first (p : TlsPolicy) : bool :=
  match p with TlsRequired => true | _ => false end.

Record MailCerts := mkCerts { cert_pem : str; key_pem : str }.
Definition MailCerts_new (cert key : str) : result MailError MailCerts :=
  if negb (contains (lit "-----BEGIN CERTIFICATE-----") cert) then
    Err (Malformed (lit "certificate PEM missing BEGIN CERTIFICATE block"))
  else if negb (contains (lit "-----BEGIN") key) then
    Err (Malformed (lit "private key PEM missing BEGIN block"))
  else Ok (mkCerts cert key).

(** * The in-memory store meets the interface *)

Lemma filter_length_eq {A} (P : A → Prop) `{∀ x, Decision (P x)} (l : list A) :
  length (filter P l) = length l ↔ Forall P l.
Proof.
  induction l as [|x l IH]; [done|]. rewrite filter_cons, Forall_cons.
  pose proof (length_filter P l). destruct (decide (P x)); simpl; [rewrite <-IH; naive_solver lia|].
  split; [lia|naive_solver].
Qed.

#[export] Instance MemoryMailStore_laws : MailStoreLaws MemoryMailStore.
Proof.
  split; intros s mb; intros; simpl; unfold mem_remove, mem_deliver, mem_count, mem_list; simpl.
  - by rewrite lookup_insert_eq.
  - by rewrite lookup_insert_ne.
  - destruct (mailboxes s !! mb) as [ms|] eqn:E; simpl; [by rewrite lookup_insert_eq|by rewrite E].
  - destruct (mailboxes s !! mb) as [ms|] eqn:E; simpl; [by rewrite lookup_insert_ne|done].
  - destruct (mailboxes s !! mb) as [ms|] eqn:E; simpl.
    + unfold len. rewrite <-Z.eqb_neq || idtac.
      pose proof (filter_length_eq (λ m, sm_id m ≠ id) ms) as Hf.
      destruct (Z.eqb_spec (Z.of_nat (length (filter (λ m, sm_id m ≠ id) ms))) (Z.of_nat (length ms))) as [He|He]; simpl;
        symmetry; [apply bool_decide_eq_false|apply bool_decide_eq_true].
      * apply Nat2Z.inj, Hf in He. intros (x & -> & Hx)%list_elem_of_fmap.
        rewrite Forall_forall in He. by apply (He x).
      * destruct (decide (id ∈ sm_id <$> ms)) as [|Hn]; [done|]. destruct He. f_equal. apply Hf.
        apply Forall_forall. intros x Hx <-. apply Hn, list_elem_of_fmap. eauto.
    + done.
  - by destruct (mailboxes s !! mb).
Qed.

(** ** Identifiers *)

Inductive store_op := OpDeliver (mb : str) (m : Message) | OpRemove (mb : str) (id : Z).
Definition mem_exec (s : MemoryMailStore) (o : store_op) : MemoryMailStore :=
  match o with
  | OpDeliver mb m => (mem_deliver s mb m).1
  | OpRemove mb id => (mem_remove s mb id).1
  end.

Definition mem_inv (s : MemoryMailStore) : Prop :=
  (∀ mb x, x ∈ mem_list s mb → 1 ≤ sm_id x ≤ next_id s) ∧
  (∀ mb, StronglySorted Z.lt (sm_id <$> mem_list s mb)) ∧
  (∀ mb mb' x y, x ∈ mem_list s mb → y ∈ mem_list s mb' → sm_id x = sm_id y → mb = mb').

Lemma StronglySorted_filter_fmap {A} (f : A → Z) (P : A → Prop) `{∀ x, Decision (P x)} l :
  StronglySorted Z.lt (f <$> l) → StronglySorted Z.lt (f <$> filter P l).
Proof.
  induction l as [|x l IH]; [done|]. rewrite fmap_cons, filter_cons. intros Hs.
  apply StronglySorted_inv in Hs as [Hs HF]. destruct (decide (P x)); [|auto].
  rewrite fmap_cons. constructor; [auto|]. rewrite Forall_fmap in *.
  by apply Forall_filter || (rewrite Forall_forall in *; intros y [_ Hy]%list_elem_of_filter; auto).
Qed.

Lemma StronglySorted_snoc_lt (l : list Z) x :
  StronglySorted Z.lt l → Forall (λ y, y < x) l → StronglySorted Z.lt (l ++ [x]).
Proof.
  induction 1 as [|y l Hs IH HF]; intros Hx; simpl; [by repeat constructor|].
  apply Forall_cons in Hx as [??]. constructor; [auto|]. apply Forall_app. auto.
Qed.

Lemma mem_list_deliver s mb m mb' :
  mem_list (mem_deliver s mb m).1 mb' =
  if decide (mb = mb') then mem_list s mb ++ [mkStored (mem_deliver s mb m).2 m] else mem_list s mb'.
Proof. case_decide as E; [subst; exact (deliver_list s mb' m)|exact (deliver_list_ne s mb mb' m E)]. Qed.

Lemma mem_list_remove s mb id mb' :
  mem_list (mem_remove s mb id).1 mb' =
  if decide (mb = mb') then filter (λ x, sm_id x ≠ id) (mem_list s mb) else mem_list s mb'.
Proof. case_decide as E; [subst; exact (remove_list s mb' id)|exact (remove_list_ne s mb mb' id E)]. Qed.

Lemma mem_inv_exec s o : 0 ≤ next_id s < U64_MAX → mem_inv s → mem_inv (mem_exec s o).
Proof.
  intros Hn (Hb & Hs & Hu). destruct o as [mb m|mb id]; cbn [mem_exec].
  - assert ((mem_deliver s mb m).2 = next_id s + 1) as Hid by (apply add_u64_small; lia).
    assert (next_id (mem_deliver s mb m).1 = next_id s + 1) as Hid' by done.
    assert (∀ mb' x, x ∈ mem_list (mem_deliver s mb m).1 mb' →
      x ∈ mem_list s mb' ∨ (mb' = mb ∧ sm_id x = next_id s + 1)) as Hin.
    { intros mb' x. rewrite mem_list_deliver. case_decide; [subst|by left].
      rewrite elem_of_app, list_elem_of_singleton. intros [?| ->]; [by left|]. right. by rewrite Hid. }
    split_and!.
    + intros mb' x [Hx|[_ ->]]%Hin; [apply Hb in Hx|]; rewrite Hid'; lia.
    + intros mb'. rewrite mem_list_deliver. case_decide; [subst|done].
      rewrite fmap_app, Hid. apply StronglySorted_snoc_lt; [done|]. apply Forall_fmap, Forall_forall.
      intros x Hx%Hb. simpl. lia.
    + intros mb1 mb2 x y [Hx|[-> Hx]]%Hin [Hy|[-> Hy]]%Hin He; eauto.
      * apply Hb in Hx. lia.
      * apply Hb in Hy. lia.
  - assert (next_id (mem_remove s mb id).1 = next_id s) as Hid
      by (unfold mem_remove; by destruct (mailboxes s !! mb)).
    assert (∀ mb' x, x ∈ mem_list (mem_remove s mb id).1 mb' → x ∈ mem_list s mb') as Hin.
    { intros mb' x. rewrite mem_list_remove. case_decide; [subst|done]. by intros [_ ?]%list_elem_of_filter. }
    split_and!; [rewrite Hid; eauto| |eauto].
    intros mb'. rewrite mem_list_remove. case_decide; [|done]. by apply StronglySorted_filter_fmap.
Qed.

Lemma next_id_exec s o : 0 ≤ next_id s < U64_MAX → next_id s ≤ next_id (mem_exec s o) ≤ next_id s + 1.
Proof.
  intros. destruct o as [mb m|mb id]; simpl.
  - rewrite add_u64_small by lia. lia.
  - unfold mem_remove. destruct (mailboxes s !! mb); simpl; lia.
Qed.

(** Message ids identify messages: after any sequence of fewer than 2^64
    deliveries and removals, every mailbox lists its messages in increasing id
    order, and no id occurs in two mailboxes, so an id returned by [deliver]
    names one message for the life of the store. *)
Theorem mem_ids_unique (ops : list store_op) :
  len ops < U64_MAX → mem_inv (foldl mem_exec MemoryMailStore_new ops).
Proof.
  intros Hlen.
  assert (∀ ops s, 0 ≤ next_id s → next_id s + len ops < U64_MAX → mem_inv s →
    mem_inv (foldl mem_exec s ops)) as H.
  { clear. induction ops as [|o ops IH]; intros s H0 Hl Hi; [done|]. simpl.
    autorewrite with len in Hl. pose proof (len_nonneg ops).
    pose proof (next_id_exec s o ltac:(lia)). apply IH; [lia|lia|apply mem_inv_exec; [lia|done]]. }
  apply H; simpl; [lia|lia|]. split_and!.
  - intros mb x Hx. unfold mem_list in Hx. simpl in Hx. rewrite lookup_empty in Hx. by apply not_elem_of_nil in Hx.
  - intros mb. unfold mem_list. simpl. rewrite lookup_empty. constructor.
  - intros mb mb' x y Hx. unfold mem_list in Hx. simpl in Hx. rewrite lookup_empty in Hx.
    by apply not_elem_of_nil in Hx.
Qed.

Lemma mem_ids_unique_witness :
  let m := mkMessage (mkEnvelope None []) [] [] [] in
  mem_inv (foldl mem_exec MemoryMailStore_new
             [OpDeliver (lit "a") m; OpDeliver (lit "b") m; OpRemove (lit "a") 1; OpDeliver (lit "a") m]).
Proof. intros m. apply mem_ids_unique. by vm_compute. Defined.

(** * Delivery and routing, against the interface *)

Section delivery.
Context {S F : Type} `{MailStoreLaws S, MessageFilter F}.
Implicit Types (st : S) (f : F).

(** The copies a list of recipients puts into a mailbox. *)
Definition copies (rcpts : list Mailbox) (mb : str) : nat :=
  length (filter (λ r, Mailbox_to_string r = mb) rcpts).

(** [st'] is [st] with [n] copies of [m] appended to the mailbox [mb]. *)
Definition appended (st st' : S) (mb : str) (n : nat) (m : Message) : Prop :=
  ∃ new, store_list st' mb = store_list st mb ++ new ∧ sm_message <$> new = replicate n m.

Lemma deliver_all_appended st rcpts m mb : appended st (deliver_all st rcpts m) mb (copies rcpts mb) m.
Proof.
  revert st. induction rcpts as [|r rcpts IH]; intros st; [exists []; by rewrite app_nil_r|].
  unfold copies. rewrite filter_cons. simpl.
  destruct (IH (store_deliver st (Mailbox_to_string r) m).1) as (new & Hl & Hm).
  case_decide as E; [rewrite <-E in *|].
  - eexists (_ :: new). rewrite Hl, deliver_list, <-app_assoc. split; [done|].
    by rewrite fmap_cons, Hm.
  - exists new. by rewrite Hl, deliver_list_ne.
Qed.

Lemma mda_deliver_spec st f m mb :
  appended st (mda_deliver st f m).1 mb
    (match scan f m with Reject => 0%nat | _ => copies (env_recipients (msg_envelope m)) mb end) m.
Proof.
  unfold mda_deliver. destruct (scan f m); simpl; try apply deliver_all_appended.
  exists []. by rewrite app_nil_r.
Qed.

Lemma accept_inbound_spec_core (ds : gset str) st f (m : Message) :
  let rcpts := env_recipients (msg_envelope m) in
  let locals := filter (λ r, lowercase (domain r) ∈ ds) rcpts in
  let lm := with_recipients m locals in
  let '(st', r) := accept_inbound ds st f m in
  in_relay r = filter (λ r, lowercase (domain r) ∉ ds) rcpts ∧
  locals ++ in_relay r ≡ₚ rcpts ∧
  Message_to_bytes lm = Message_to_bytes m ∧
  in_local r = (if decide (locals = []) then None else
                match scan f lm with
                | Reject => Some Rejected
                | Flag => Some (Delivered (len locals) true)
                | Accept => Some (Delivered (len locals) false)
                end) ∧
  ∀ mb, appended st st' mb (match scan f lm with Reject => 0%nat | _ => copies locals mb end) lm.
Proof.
  simpl. unfold accept_inbound.
  assert (∀ rs : list Mailbox, filter (λ r, is_local ds r = true) rs = filter (λ r, lowercase (domain r) ∈ ds) rs) as E1.
  { intros rs. apply list_filter_iff. intros r. unfold is_local, route. case_bool_decide; naive_solver. }
  assert (∀ rs : list Mailbox, filter (λ r, is_local ds r = false) rs = filter (λ r, lowercase (domain r) ∉ ds) rs) as E2.
  { intros rs. apply list_filter_iff. intros r. unfold is_local, route. case_bool_decide; naive_solver. }
  rewrite E1, E2. clear E1 E2.
  set (locals := filter (λ r, lowercase (domain r) ∈ ds) _).
  assert (locals ++ filter (λ r, lowercase (domain r) ∉ ds) (env_recipients (msg_envelope m))
    ≡ₚ env_recipients (msg_envelope m)) as Hp by apply filter_split_Permutation.
  case_bool_decide as Hl.
  - simpl. rewrite decide_True by done. split_and!; [done..|]. intros mb. rewrite Hl. simpl.
    exists []. rewrite app_nil_r. split; [done|]. by destruct (scan _ _).
  - pose proof (mda_deliver_spec st f (with_recipients m locals)) as Hd.
    destruct (mda_deliver st f (with_recipients m locals)) as [st' out] eqn:Eo. simpl in *.
    rewrite decide_False by done. split_and!; [done..| |done].
    unfold mda_deliver in Eo. destruct (scan f _); by simplify_eq/=.
Qed.

(** Accepting an inbound message: the recipients whose domain (compared
    without case) is hosted are delivered and the others returned for relay, in
    order, none lost and none in both; every mailbox keeps its old contents and
    gains exactly one copy per local recipient with that address, of the message
    narrowed to the local recipients with its bytes unchanged, and none at all
    when the filter rejects it. *)
Theorem accept_inbound_spec (ds : gset str) st f (m : Message) :
  let rcpts := env_recipients (msg_envelope m) in
  let locals := filter (λ r, lowercase (domain r) ∈ ds) rcpts in
  let lm := with_recipients m locals in
  let '(st', r) := accept_inbound ds st f m in
  in_relay r = filter (λ r, lowercase (domain r) ∉ ds) rcpts ∧
  locals ++ in_relay r ≡ₚ rcpts ∧
  Message_to_bytes lm = Message_to_bytes m ∧
  in_local r = (if decide (locals = []) then None else
                match scan f lm with
                | Reject => Some Rejected
                | Flag => Some (Delivered (len locals) true)
                | Accept => Some (Delivered (len locals) false)
                end) ∧
  ∀ mb, appended st st' mb (match scan f lm with Reject => 0%nat | _ => copies locals mb end) lm.
Proof. apply accept_inbound_spec_core. Qed.
End delivery.

Lemma accept_inbound_spec_witness :
  let a := mkMailbox (lit "a") (lit "Local.org") in
  let b := mkMailbox (lit "b") (lit "remote.org") in
  let m := mkMessage (mkEnvelope None [a; b]) [] (lit "x") [] in
  let ds := mta_domains [lit "LOCAL.org"] in
  in_relay (accept_inbound ds MemoryMailStore_new null_filter m).2 = [b] ∧
  appended MemoryMailStore_new (accept_inbound ds MemoryMailStore_new null_filter m).1
    (lit "a@Local.org") 1 (with_recipients m [a]).
Proof.
  intros a b m ds.
  pose proof (accept_inbound_spec ds MemoryMailStore_new null_filter m) as H. cbv zeta in H.
  rewrite (surjective_pairing (accept_inbound _ _ _ _)) in H.
  destruct H as (H1 & _ & _ & _ & H2). split; [by rewrite H1|apply (H2 (lit "a@Local.org"))].
Defined.
