(* ===== verification/Metrics.v ===== *)
(** * Mail-flow counters

    crates/mail/src/observability/manager.rs and config.rs: four atomic counters shared
    by every connection, and snapshots of them.  A counter is incremented by one atomic
    step; a snapshot loads the four counters one after the other, and other threads run
    between the loads.  So a run is a sequence of atomic steps, in any interleaving. *)
From S2P Require Import Prelude RustStr.

Record MailObservabilityConfig := mkObsConfig { ob_service : str; emit_events : bool }.
Definition MailObservabilityConfig_default : MailObservabilityConfig := mkObsConfig (lit "snail-mail") true.

Record MetricsSnapshot := mkMetrics { received : Z; delivered : Z; relayed : Z; rejected : Z }.

Inductive Counter := CReceived | CDelivered | CRelayed | CRejected.
#[export] Instance Counter_eq_dec : EqDecision Counter.
Proof. solve_decision. Defined.

(** The counters, and the debug records emitted: event and count. *)
Record MailMetrics := mkMailMetrics { mm_config : MailObservabilityConfig; mm_count : Counter → Z; mm_events : list (Counter * Z) }.
Definition MailMetrics_new (config : MailObservabilityConfig) : MailMetrics := mkMailMetrics config (λ _, 0) [].

Definition set_count (f : Counter → Z) (c : Counter) (n : Z) : Counter → Z := λ d, if decide (c = d) then n else f d.

(** [bump]: [fetch_add] wraps, and so does the addition of a release build; the four
    [record_*] methods are [bump] on their counters. *)
Definition bump (m : MailMetrics) (c : Counter) : MailMetrics * Z :=
  let count := add_u64 (mm_count m c) 1 in
  (mkMailMetrics (mm_config m) (set_count (mm_count m) c count)
     (if emit_events (mm_config m) then mm_events m ++ [(c, count)] else mm_events m), count).
Definition bumps (m : MailMetrics) (cs : list Counter) : MailMetrics := foldl (λ m c, (bump m c).1) m cs.

(** A snapshot, with the increments other threads make before each of its later loads. *)
Definition snapshot (m : MailMetrics) (others1 others2 others3 : list Counter) : MetricsSnapshot * MailMetrics :=
  let m1 := bumps m others1 in
  let m2 := bumps m1 others2 in
  let m3 := bumps m2 others3 in
  (mkMetrics (mm_count m CReceived) (mm_count m1 CDelivered) (mm_count m2 CRelayed) (mm_count m3 CRejected), m3).
Definition snapshot_field (s : MetricsSnapshot) (c : Counter) : Z :=
  match c with CReceived => received s | CDelivered => delivered s | CRelayed => relayed s | CRejected => rejected s end.

(** ** Counting *)

Definition occurrences (c : Counter) (cs : list Counter) : Z := len (filter (c =.) cs).
Lemma occurrences_cons c d cs : occurrences c (d :: cs) = (if decide (c = d) then 1 else 0) + occurrences c cs.
Proof. unfold occurrences. rewrite filter_cons. destruct (decide (c = d)); len_lia. Qed.
Lemma occurrences_app c cs ds : occurrences c (cs ++ ds) = occurrences c cs + occurrences c ds.
Proof. unfold occurrences. rewrite filter_app. len_lia. Qed.
Lemma occurrences_nonneg c cs : 0 ≤ occurrences c cs.
Proof. apply len_nonneg. Qed.

(** Linear arithmetic with the counts in the goal, which are not negative. *)
Ltac counts :=
  repeat match goal with
  | |- context [occurrences ?c ?l] =>
      lazymatch goal with H : 0 ≤ occurrences c l |- _ => fail | _ => pose proof (occurrences_nonneg c l) end
  end; lia.

(** No counter is lost or double counted, in any interleaving. *)
Lemma bumps_count cs : ∀ m c, 0 ≤ mm_count m c ≤ U64_MAX →
  mm_count (bumps m cs) c = (mm_count m c + occurrences c cs) mod 2 ^ 64.
Proof.
  induction cs as [|d cs IH]; intros m c Hc; unfold bumps; cbn [foldl].
  - unfold occurrences. cbn. rewrite Z.add_0_r, Z.mod_small; [done|]. unfold U64_MAX in Hc. lia.
  - fold (bumps (bump m d).1 cs). rewrite occurrences_cons. unfold bump at 1. cbn [fst].
    rewrite IH; cbn [mm_count]; unfold set_count; destruct (decide (d = c)) as [->|Hne].
    + rewrite decide_True by done. unfold add_u64. rewrite Zplus_mod_idemp_l. f_equal. lia.
    + rewrite decide_False by done. f_equal.
    + unfold add_u64, U64_MAX. pose proof (Z.mod_pos_bound (mm_count m c + 1) (2 ^ 64)). lia.
    + done.
Qed.

Lemma bumps_app m cs ds : bumps m (cs ++ ds) = bumps (bumps m cs) ds.
Proof. apply foldl_app. Qed.

(** The counters count.  Starting from zero, after any interleaving of fewer than
    2^64 increments each counter is the number of its increments; each increment is told
    its own position, so no two of one counter are told the same number; and a snapshot
    taken while others increment holds, in each field, a number the counter had between
    the beginning and the end of the snapshot. *)
Theorem metrics_count (config : MailObservabilityConfig) (before others1 others2 others3 : list Counter) (c : Counter) :
  let m := bumps (MailMetrics_new config) before in
  let '(s, m') := snapshot m others1 others2 others3 in
  len (before ++ others1 ++ others2 ++ others3) < 2 ^ 64 - 1 →
  mm_count m c = occurrences c before ∧ (bump m c).2 = occurrences c before + 1 ∧
  mm_count m c ≤ snapshot_field s c ≤ mm_count m' c.
Proof.
  cbn zeta. unfold snapshot. intros Hlen.
  assert (∀ cs d, occurrences d cs ≤ len cs) as Hocc.
  { intros cs d. unfold occurrences, len. pose proof (length_filter (d =.) cs). lia. }
  assert (∀ cs d, len cs < 2 ^ 64 - 1 → mm_count (bumps (MailMetrics_new config) cs) d = occurrences d cs) as Hcount.
  { intros cs d Hl. rewrite bumps_count by (cbn; unfold U64_MAX; lia). cbn. rewrite Z.mod_small; [done|].
    pose proof (Hocc cs d). pose proof (occurrences_nonneg d cs). lia. }
  rewrite !len_app in Hlen. pose proof (len_nonneg before). pose proof (len_nonneg others1).
  pose proof (len_nonneg others2). pose proof (len_nonneg others3).
  rewrite <-!bumps_app. unfold bump. cbn [snd]. rewrite (Hcount before c), (Hcount _ c) by (rewrite ?len_app; lia).
  split_and!.
  - done.
  - unfold add_u64. pose proof (Hocc before c). pose proof (occurrences_nonneg c before). rewrite Z.mod_small; lia.
  - destruct c; cbn [snapshot_field received delivered relayed rejected]; rewrite Hcount by (rewrite ?len_app; lia);
      rewrite ?occurrences_app; counts.
  - destruct c; cbn [snapshot_field received delivered relayed rejected]; rewrite Hcount by (rewrite ?len_app; lia);
      rewrite ?occurrences_app; counts.
Qed.
