(* ===== verification/Auth.v ===== *)
(** * Credentials, accounts and authentication

    [crates/security/src/credential] (the [CredentialStore] trait and its
    in-memory implementation), [crates/security/src/encryption/hash.rs] (the
    verification wrapper), [crates/identity/src] (accounts, the [Authenticator],
    SASL PLAIN and LOGIN, XOAUTH2, per-connection state) and the [SessionAuth]
    trait of [crates/access/src/lib.rs].

    Argon2 and base64 are third-party code: a [PasswordHasher] carries the two
    Argon2 functions the wrapper calls, and the decoders take the base64 decoder
    as an argument. *)
From S2P Require Import Prelude RustStr.

(** ** Errors *)

Inductive SecurityError :=
  | SecHash (s : str) | SecEncrypt (s : str) | SecDecrypt (s : str)
  | SecCredential (s : str) | SecFirewall (s : str).
Definition SecurityError_to_string (e : SecurityError) : str :=
  match e with
  | SecHash s => lit "password hashing error: " ++ s
  | SecEncrypt s => lit "encryption error: " ++ s
  | SecDecrypt s => lit "decryption error: " ++ s
  | SecCredential s => lit "credential error: " ++ s
  | SecFirewall s => lit "firewall error: " ++ s
  end.

Inductive IdentityError :=
  | AuthFailed
  | AccountDisabled (u : str)
  | Sasl (s : str)
  | OAuth (s : str)
  | Backend (s : str).

(** [Display for Utf8Error]: where the first invalid sequence starts and how
    long it is, or that the input ends inside a sequence. *)
Fixpoint utf8_error_go (fuel : nat) (pos : Z) (l : bytes) : str :=
  match fuel, l with
  | S fuel, b0 :: t0 =>
      let '(o, rest) := utf8_next b0 t0 in
      let n := len l - len rest in
      match o with
      | Some _ => utf8_error_go fuel (pos + n) rest
      | None =>
          if bool_decide (rest = []) && (194 <=? b0) && (b0 <=? 244) then
            lit "incomplete utf-8 byte sequence from index " ++ show pos
          else
            lit "invalid utf-8 sequence of " ++ show n ++ lit " bytes from index " ++ show pos
      end
  | _, _ => []
  end.
Definition utf8_error (l : bytes) : str := utf8_error_go (length l) 0 l.

(** ** Password hashing *)

(** The outcome of [argon2]'s [verify_password]. *)
Inductive argon2_error := ErrorPassword | ErrorOther (s : str).

(** The Argon2 functions behind [PasswordHasher]: parsing a PHC string and
    verifying a password against it. *)
Record PasswordHasher := mkHasher {
  PHC : Type;
  phc_new : str → result str PHC;
  verify_phc : bytes → PHC → result argon2_error unit;
  hash_password : str → bytes → result str str }.

(** [PasswordHasher::hash], the salt drawn from the system generator. *)
Definition hasher_hash (h : PasswordHasher) (salt password : str) : result SecurityError str :=
  map_err SecHash (hash_password h salt (utf8_encode password)).

Definition hasher_verify (h : PasswordHasher) (password phc : str) : result SecurityError bool :=
  parsed ← map_err SecHash (phc_new h phc);
  match verify_phc h (utf8_encode password) parsed with
  | Ok _ => Ok true
  | Err ErrorPassword => Ok false
  | Err (ErrorOther e) => Err (SecHash e)
  end.

(** ** Credential stores *)

Record Credential := mkCredential { cr_username : str; password_phc : str; secret : option bytes }.
Definition Credential_new (h : PasswordHasher) (salt username password : str) : result SecurityError Credential :=
  phc ← hasher_hash h salt password; Ok (mkCredential username phc None).
Definition with_secret (c : Credential) (sealed : bytes) : Credential :=
  mkCredential (cr_username c) (password_phc c) (Some sealed).

Class CredentialStore (S : Type) := {
  cs_put : S → Credential → S * result SecurityError unit;
  cs_get : S → str → result SecurityError (option Credential);
  cs_verify : S → str → str → result SecurityError bool }.

(** The map behind its lock; [mc_poisoned] after a panic under the lock. *)
Record MemoryCredentialStore := mkCreds {
  mc_hasher : PasswordHasher;
  mc_creds : gmap str Credential;
  mc_poisoned : bool }.
Definition MemoryCredentialStore_new (h : PasswordHasher) : MemoryCredentialStore := mkCreds h ∅ false.

Definition poisoned {A} : result SecurityError A :=
  Err (SecCredential (lit "credential store lock poisoned")).
Definition mc_put (s : MemoryCredentialStore) (c : Credential) :
    MemoryCredentialStore * result SecurityError unit :=
  if mc_poisoned s then (s, poisoned)
  else (mkCreds (mc_hasher s) (<[cr_username c := c]> (mc_creds s)) false, Ok ()).
Definition mc_get (s : MemoryCredentialStore) (username : str) : result SecurityError (option Credential) :=
  if mc_poisoned s then poisoned else Ok (mc_creds s !! username).
(** The decoy verification of an unknown user has no effect but its cost. *)
Definition mc_verify (s : MemoryCredentialStore) (username password : str) : result SecurityError bool :=
  if mc_poisoned s then poisoned
  else match mc_creds s !! username with
       | Some c => hasher_verify (mc_hasher s) password (password_phc c)
       | None => Ok false
       end.
#[export] Instance MemoryCredentialStore_store : CredentialStore MemoryCredentialStore := {
  cs_put := mc_put; cs_get := mc_get; cs_verify := mc_verify }.

(** [CredentialReceiver::authenticate]. *)
Inductive AuthOutcome := OutAuthenticated | OutRejected.
Definition receiver_authenticate {S} `{CredentialStore S} (s : S) (username password : str) :
    result SecurityError AuthOutcome :=
  b ← cs_verify s username password; Ok (if b : bool then OutAuthenticated else OutRejected).

(** ** Accounts *)

Inductive Role := RoleUser | RoleAdmin.
#[export] Instance Role_eq_dec : EqDecision Role.
Proof. solve_decision. Defined.
#[export] Program Instance Role_countable : Countable Role :=
  inj_countable' (λ r, match r with RoleUser => true | RoleAdmin => false end)
    (λ b, if b then RoleUser else RoleAdmin) _.
Next Obligation. by intros []. Qed.

Record Identity := mkIdentity { id_username : str; id_roles : gset Role }.
Record Account := mkAccount { ac_username : str; ac_roles : gset Role; ac_enabled : bool }.
Definition Account_user (u : str) : Account := mkAccount u {[ RoleUser ]} true.
Definition with_role (a : Account) (r : Role) : Account :=
  mkAccount (ac_username a) ({[ r ]} ∪ ac_roles a) (ac_enabled a).
Definition disabled (a : Account) : Account := mkAccount (ac_username a) (ac_roles a) false.
Definition to_identity (a : Account) : Identity := mkIdentity (ac_username a) (ac_roles a).
Definition check_account (a : Account) : result IdentityError unit :=
  if ac_enabled a then Ok () else Err (AccountDisabled (ac_username a)).

(** ** The authenticator *)

Record Authenticator (S : Type) := mkAuthenticator { au_store : S; au_accounts : gmap str Account }.
Arguments mkAuthenticator {S} _ _.
Arguments au_store {S} _.
Arguments au_accounts {S} _.

Section authenticator.
Context {S : Type} `{CredentialStore S}.

Definition Authenticator_new (store : S) : Authenticator S := mkAuthenticator store ∅.
Definition add_account (a : Authenticator S) (acc : Account) : Authenticator S :=
  mkAuthenticator (au_store a) (<[ac_username acc := acc]> (au_accounts a)).

Definition authenticate (a : Authenticator S) (username password : str) : result IdentityError Identity :=
  verified ← map_err (λ e, Backend (SecurityError_to_string e)) (cs_verify (au_store a) username password);
  let enabled := match au_accounts a !! username with
                 | Some acc => is_ok (check_account acc)
                 | None => false
                 end in
  match au_accounts a !! username with
  | Some acc => if verified && enabled then Ok (to_identity acc) else Err AuthFailed
  | None => Err AuthFailed
  end.
End authenticator.

(** [SessionAuth]: what the protocol sessions need of an authenticator. *)
Class SessionAuth (A : Type) := auth_check : A → str → str → bool.
#[export] Instance Authenticator_session {S} `{CredentialStore S} : SessionAuth (Authenticator S) :=
  λ a u p, is_ok (authenticate a u p).

(** ** SASL and XOAUTH2 *)

Inductive SaslMechanism := Plain | Login.
Definition SaslMechanism_parse (name : str) : option SaslMechanism :=
  let up := uppercase (trim name) in
  if up =s? lit "PLAIN" then Some Plain
  else if up =s? lit "LOGIN" then Some Login
  else None.

Record SaslCredentials := mkSasl { sasl_username : str; sasl_password : str }.

Section decoders.
(** The base64 decoder (standard alphabet), with the text of its errors. *)
Variable base64_decode : str → result str bytes.

Definition field_to_string (b : bytes) (what : str) : result IdentityError str :=
  match from_utf8 b with
  | Some s => Ok s
  | None => Err (Sasl (what ++ lit " not utf-8: " ++ utf8_error b))
  end.

Definition decode_plain (response_b64 : str) : result IdentityError SaslCredentials :=
  raw ← map_err (λ e, Sasl (lit "base64: " ++ e)) (base64_decode (trim response_b64));
  match split_on (Z.eqb 0) raw with
  | [_; p1; p2] =>
      username ← field_to_string p1 (lit "authcid");
      password ← field_to_string p2 (lit "passwd");
      if bool_decide (username = []) then Err (Sasl (lit "empty authcid"))
      else Ok (mkSasl username password)
  | _ => Err (Sasl (lit "PLAIN must be authzid\0authcid\0passwd"))
  end.

Definition decode_login_field (field_b64 : str) : result IdentityError str :=
  raw ← map_err (λ e, Sasl (lit "base64: " ++ e)) (base64_decode (trim field_b64));
  match from_utf8 raw with
  | Some s => Ok s
  | None => Err (Sasl (lit "utf-8: " ++ utf8_error raw))
  end.

Record XOAuth2 := mkXOAuth2 { claimed_username : str; bearer_token : str }.

(** The loop over the fields: the last [user=] and the last token win. *)
Definition xoauth2_field (acc : option str * option str) (field : str) : option str * option str :=
  match strip_prefix (lit "user=") field with
  | Some user => (Some user, acc.2)
  | None => match strip_prefix (lit "auth=Bearer ") field with
            | Some token => (acc.1, Some token)
            | None => acc
            end
  end.
(** [opt.filter(|u| !u.is_empty())]. *)
Definition non_empty_opt (o : option str) : option str :=
  match o with Some [] => None | o => o end.

Definition parse_xoauth2 (response_b64 : str) : result IdentityError XOAuth2 :=
  raw ← map_err (λ e, OAuth (lit "base64: " ++ e)) (base64_decode (trim response_b64));
  text ← ok_or (OAuth (lit "utf-8: " ++ utf8_error raw)) (from_utf8 raw);
  let '(username, token) := foldl xoauth2_field (None, None) (split_char 1 text) in
  u ← ok_or (OAuth (lit "missing or empty user field")) (non_empty_opt username);
  t ← ok_or (OAuth (lit "missing or empty Bearer token")) (non_empty_opt token);
  Ok (mkXOAuth2 u t).

Definition xoauth2_authenticate (x : XOAuth2) (validate : str → option str) : result IdentityError str :=
  match validate (bearer_token x) with
  | Some authenticated =>
      if eq_ignore_case authenticated (claimed_username x) then Ok authenticated else Err AuthFailed
  | None => Err AuthFailed
  end.

Definition authenticate_xoauth2 (response_b64 : str) (validate : str → option str) : result IdentityError str :=
  x ← parse_xoauth2 response_b64; xoauth2_authenticate x validate.
End decoders.

(** [StaticTokenValidator]. *)
Definition StaticTokenValidator : Type := gmap str str.
Definition with_token (v : StaticTokenValidator) (token username : str) : StaticTokenValidator :=
  <[token := username]> v.
Definition static_validate (v : StaticTokenValidator) (token : str) : option str := v !! token.

(** ** Per-connection state *)

Inductive ConnectionState := Unauthenticated | Authenticated_ (i : Identity).
Record ConnectionAuth := mkConn { cn_state : ConnectionState; cn_failed : Z }.
Definition ConnectionAuth_new : ConnectionAuth := mkConn Unauthenticated 0.
Definition conn_identity (c : ConnectionAuth) : option Identity :=
  match cn_state c with Authenticated_ i => Some i | Unauthenticated => None end.
Definition conn_succeed (c : ConnectionAuth) (i : Identity) : ConnectionAuth :=
  mkConn (Authenticated_ i) (cn_failed c).
Definition conn_fail (c : ConnectionAuth) : ConnectionAuth * Z :=
  let n := add_u32 (cn_failed c) 1 in (mkConn (cn_state c) n, n).

(** * Who authenticates *)

(** An authenticator as the composition root builds it. *)
Definition build_store (h : PasswordHasher) (cs : list Credential) : MemoryCredentialStore :=
  foldl (λ s c, (mc_put s c).1) (MemoryCredentialStore_new h) cs.
Definition build_authenticator (h : PasswordHasher) (cs : list Credential) (accs : list Account)
    : Authenticator MemoryCredentialStore :=
  foldl add_account (Authenticator_new (build_store h cs)) accs.

(** The accounts and credentials in force: the last entry for a name. *)
Definition last_for {A} (key : A → str) (u : str) (l : list A) : option A :=
  list_find_first (λ x, key x =s? u) (reverse l).

Lemma foldl_put_creds h cs :
  mc_poisoned (build_store h cs) = false ∧ mc_hasher (build_store h cs) = h ∧
  ∀ u, mc_creds (build_store h cs) !! u = last_for cr_username u cs.
Proof.
  unfold build_store. induction cs as [|c cs (Hp & Hh & Hl)] using rev_ind; [done|].
  rewrite foldl_app. simpl. unfold mc_put at 1 3 5. rewrite Hp. simpl. split_and!; [done..|].
  intros u. unfold last_for. rewrite reverse_app. simpl.
  destruct (str_eqb (cr_username c) u) eqn:E.
  - apply str_eqb_eq in E as <-. by rewrite lookup_insert_eq.
  - apply str_eqb_neq in E. rewrite lookup_insert_ne by done. apply Hl.
Qed.

Lemma foldl_add_account (a : Authenticator MemoryCredentialStore) accs :
  au_store (foldl add_account a accs) = au_store a ∧
  (au_accounts a = ∅ → ∀ u, au_accounts (foldl add_account a accs) !! u = last_for ac_username u accs).
Proof.
  induction accs as [|c accs [Hs Hl]] using rev_ind; [split; [done|]; intros Ha u; simpl; by rewrite Ha|].
  rewrite foldl_app. simpl. split; [done|]. intros Ha u. unfold last_for. rewrite reverse_app. simpl.
  destruct (str_eqb (ac_username c) u) eqn:E.
  - apply str_eqb_eq in E as <-. by rewrite lookup_insert_eq.
  - apply str_eqb_neq in E. rewrite lookup_insert_ne by done. by apply Hl.
Qed.

Lemma last_for_key {A} (key : A → str) u l x : last_for key u l = Some x → key x = u ∧ x ∈ l.
Proof.
  unfold last_for. rewrite <-(elem_of_reverse _ l) || rewrite <-elem_of_reverse. induction (reverse l) as [|y k IH]; simpl; [done|].
  case_code; [intros ?; simplify_eq; apply str_eqb_eq in Heqb; set_solver|]. set_solver.
Qed.

Lemma authenticate_cases {S} `{CredentialStore S} (a : Authenticator S) u p :
  authenticate a u p =
  match cs_verify (au_store a) u p, au_accounts a !! u with
  | Err e, _ => Err (Backend (SecurityError_to_string e))
  | Ok true, Some acc => if ac_enabled acc then Ok (to_identity acc) else Err AuthFailed
  | Ok _, _ => Err AuthFailed
  end.
Proof.
  unfold authenticate, check_account. destruct (cs_verify _ _ _) as [[]|]; simpl; [..|done];
    destruct (au_accounts a !! u) as [[? ? []]|]; done.
Qed.

(** A login succeeds exactly when the user has a stored credential whose
    Argon2 hash verifies the password and an account that is enabled, and then
    the identity is that user's, with the account's roles. *)
Theorem authenticate_sound_complete (h : PasswordHasher) (cs : list Credential) (accs : list Account)
    (u p : str) (i : Identity) :
  authenticate (build_authenticator h cs accs) u p = Ok i ↔
  ∃ c acc, last_for cr_username u cs = Some c ∧ hasher_verify h p (password_phc c) = Ok true ∧
    last_for ac_username u accs = Some acc ∧ ac_enabled acc = true ∧
    i = mkIdentity u (ac_roles acc).
Proof.
  unfold build_authenticator. rewrite authenticate_cases.
  destruct (foldl_add_account (Authenticator_new (build_store h cs)) accs) as [-> Hacc].
  rewrite (Hacc eq_refl). clear Hacc. simpl. unfold mc_verify.
  destruct (foldl_put_creds h cs) as (-> & -> & ->).
  destruct (last_for cr_username u cs) as [c|] eqn:Ec.
  2: { split; [done|]. by intros (? & ? & ? & _). }
  destruct (hasher_verify h p (password_phc c)) as [[]|] eqn:Ev.
  2, 3: split; [done|]; intros (? & ? & ? & ? & _); congruence.
  destruct (last_for ac_username u accs) as [acc|] eqn:Ea.
  2: { split; [done|]. by intros (? & ? & _ & _ & ? & _). }
  destruct (last_for_key _ _ _ _ Ea) as [Hu _]. unfold to_identity. rewrite Hu.
  destruct (ac_enabled acc) eqn:Ee; split.
  - intros [= <-]. eauto 10.
  - intros (? & ? & ? & ? & ? & ? & ->). by simplify_eq.
  - done.
  - intros (? & ? & ? & ? & ? & ? & ->). congruence.
Qed.

(** No account enumeration through the result: for a user the store can
    verify, an unknown name, a missing or disabled account and a wrong password
    all give the same error value. *)
Theorem authenticate_failures_alike (h : PasswordHasher) (cs : list Credential) (accs : list Account)
    (u p : str) :
  (∀ c, last_for cr_username u cs = Some c → is_ok (hasher_verify h p (password_phc c)) = true) →
  (last_for cr_username u cs = None ∨ last_for ac_username u accs = None ∨
   (∃ acc, last_for ac_username u accs = Some acc ∧ ac_enabled acc = false) ∨
   (∃ c, last_for cr_username u cs = Some c ∧ hasher_verify h p (password_phc c) = Ok false)) →
  authenticate (build_authenticator h cs accs) u p = Err AuthFailed ∧
  auth_check (build_authenticator h cs accs) u p = false.
Proof.
  intros Hok Hcase.
  assert (authenticate (build_authenticator h cs accs) u p = Err AuthFailed) as E.
  { unfold build_authenticator. rewrite authenticate_cases.
    destruct (foldl_add_account (Authenticator_new (build_store h cs)) accs) as [-> Hacc].
    rewrite (Hacc eq_refl). clear Hacc. simpl. unfold mc_verify.
    destruct (foldl_put_creds h cs) as (-> & -> & ->).
    destruct (last_for cr_username u cs) as [c|] eqn:Ec; [|done].
    specialize (Hok c eq_refl). destruct (hasher_verify h p (password_phc c)) as [[]|] eqn:Ev; try done.
    destruct (last_for ac_username u accs) as [acc|] eqn:Ea; [|done].
    destruct (ac_enabled acc) eqn:Ee; [|done]. destruct Hcase as [?|[?|[(? & ? & ?)|(? & ? & ?)]]]; congruence. }
  split; [done|]. unfold auth_check, Authenticator_session. by rewrite E.
Qed.

(** A toy hasher: a PHC string verifies the password equal to it. *)
Definition toy_hasher : PasswordHasher :=
  mkHasher str Ok (λ p phc, if p =s? phc then Ok () else Err ErrorPassword) (λ _ p, Ok p).

Lemma authenticate_failures_alike_witness :
  authenticate (build_authenticator toy_hasher [mkCredential (lit "u") (lit "pw") None]
                  [disabled (Account_user (lit "u"))]) (lit "u") (lit "pw") = Err AuthFailed ∧
  auth_check (build_authenticator toy_hasher [mkCredential (lit "u") (lit "pw") None]
                [disabled (Account_user (lit "u"))]) (lit "u") (lit "pw") = false.
Proof.
  apply (authenticate_failures_alike toy_hasher [mkCredential (lit "u") (lit "pw") None]
           [disabled (Account_user (lit "u"))] (lit "u") (lit "pw")).
  - intros c Hc. vm_compute in Hc. simplify_eq. by vm_compute.
  - right. right. left. eexists. split; by vm_compute.
Defined.

(** * Decoding SASL responses *)

Lemma split_zero_three (a b c : bytes) :
  0 ∉ a → 0 ∉ b → 0 ∉ c → split_on (Z.eqb 0) (a ++ [0] ++ b ++ [0] ++ c) = [a; b; c].
Proof.
  intros Ha Hb Hc. change (split_on (Z.eqb 0)) with (split_char 0). simpl.
  by rewrite !split_char_app, !split_char_none.
Qed.

Lemma utf8_char_no_zero c : c ≠ 0 → is_char c = true → 0 ∉ utf8_char c.
Proof.
  unfold is_char, utf8_char. intros Hc Hi.
  pose proof (Z.div_pos c 64). pose proof (Z.div_pos c 4096). pose proof (Z.div_pos c 262144).
  pose proof (Z.mod_pos_bound c 64). pose proof (Z.mod_pos_bound (c / 64) 64).
  pose proof (Z.mod_pos_bound (c / 4096) 64).
  repeat case_code; rewrite ?elem_of_cons, ?elem_of_nil; intros; destruct_or?; try done; lia.
Qed.

Lemma utf8_encode_no_zero s : 0 ∉ s → Forall (λ c, is_char c = true) s → 0 ∉ utf8_encode s.
Proof.
  intros Hs HF (c & Hc & Hin)%list_elem_of_bind. rewrite Forall_forall in HF.
  apply (utf8_char_no_zero c); [by intros ->|auto|done].
Qed.

(** Valid text for a SASL field. *)
Definition sasl_text (s : str) : Prop := Forall (λ c, is_char c = true) s ∧ 0 ∉ s.

(** SASL PLAIN: a response that decodes from base64 to
    [authzid NUL authcid NUL passwd] yields exactly that authcid and password,
    whatever the authzid. *)
Theorem decode_plain_roundtrip (base64_decode : str → result str bytes) (resp authzid authcid passwd : str) :
  sasl_text authzid → sasl_text authcid → sasl_text passwd → authcid ≠ [] →
  base64_decode (trim resp) = Ok (utf8_encode authzid ++ [0] ++ utf8_encode authcid ++ [0] ++ utf8_encode passwd) →
  decode_plain base64_decode resp = Ok (mkSasl authcid passwd).
Proof.
  intros [Ha Ha0] [Hu Hu0] [Hp Hp0] Hne Hb. unfold decode_plain. rewrite Hb. simpl result_bind.
  unfold mbind, result_bind, map_err. rewrite split_zero_three by (by apply utf8_encode_no_zero).
  unfold field_to_string. rewrite !from_utf8_encode by done. by rewrite bool_decide_eq_false_2.
Qed.

Lemma sasl_text_check s : forallb is_char s && negb (contains_char 0 s) = true → sasl_text s.
Proof.
  unfold contains_char. intros. bsimp. split; [|done]. rewrite forallb_forall in *.
  apply Forall_forall. intros x Hx. apply H. by apply list_elem_of_In.
Qed.

Lemma decode_plain_roundtrip_witness :
  decode_plain (λ s, Ok ([0] ++ s ++ [0] ++ s)) (lit "alice") = Ok (mkSasl (lit "alice") (lit "alice")).
Proof.
  apply (decode_plain_roundtrip (λ s, Ok ([0] ++ s ++ [0] ++ s)) (lit "alice") [] (lit "alice") (lit "alice"));
    try (apply sasl_text_check); by vm_compute.
Defined.

(** XOAUTH2 binds the claim to the token: whatever the response, a login
    returns the user name the validator gives for the presented token, and only
    when it equals the claimed name up to ASCII case; the name is not empty. *)
Theorem xoauth2_bound (base64_decode : str → result str bytes) (resp u : str) (validate : str → option str) :
  authenticate_xoauth2 base64_decode resp validate = Ok u →
  ∃ claimed token, parse_xoauth2 base64_decode resp = Ok (mkXOAuth2 claimed token) ∧
    validate token = Some u ∧ lowercase u = lowercase claimed ∧ u ≠ [] ∧ token ≠ [].
Proof.
  unfold authenticate_xoauth2. destruct (parse_xoauth2 base64_decode resp) as [x|] eqn:Ep; [|done].
  simpl. unfold xoauth2_authenticate. destruct (validate (bearer_token x)) as [a|] eqn:Ev; [|done].
  case_code; [|done]. intros [= ->]. apply eq_ignore_case_true in Heqb.
  assert (claimed_username x ≠ [] ∧ bearer_token x ≠ []) as [Hc Ht].
  { unfold parse_xoauth2 in Ep. destruct (map_err _ _); [|done]. simpl in Ep.
    destruct (from_utf8 _) as [text|]; [|done]. simpl in Ep.
    destruct (foldl xoauth2_field _ _) as [ou ot]. destruct ou as [[|]|]; try done.
    destruct ot as [[|]|]; try done. simpl in Ep. by simplify_eq. }
  exists (claimed_username x), (bearer_token x). destruct x as [c t]; simpl in *. split_and!; try done.
  intros ->. by destruct c.
Qed.

Lemma xoauth2_bound_witness :
  ∃ claimed token, parse_xoauth2 Ok (lit "user=Bob" ++ [1] ++ lit "auth=Bearer t") = Ok (mkXOAuth2 claimed token) ∧
    static_validate (with_token ∅ (lit "t") (lit "bob")) token = Some (lit "bob") ∧
    lowercase (lit "bob") = lowercase claimed ∧ lit "bob" ≠ [] ∧ token ≠ [].
Proof.
  apply (xoauth2_bound Ok (lit "user=Bob" ++ [1] ++ lit "auth=Bearer t") (lit "bob")
           (static_validate (with_token ∅ (lit "t") (lit "bob")))).
  by vm_compute.
Defined.
