(* ===== verification/Secrets.v ===== *)
(** * Stored secrets

    crates/security/src/encryption/manager.rs, encrypt.rs, decrypt.rs and algos/mod.rs:
    the authenticated cipher for secrets at rest, and the way a secret takes through the
    credential store of Auth.v.  ChaCha20-Poly1305 is third-party code: an interface
    with the two facts about it that are used. *)
From S2P Require Import Prelude RustStr Auth.

(** ** The cipher, as an interface *)

(** Encryption and decryption under a key and a nonce (no associated data).  Decryption
    undoes encryption, and accepts nothing else: a ciphertext is accepted only if it is
    the encryption of what comes out, since the tag is recomputed and compared. *)
Class Aead := {
  aead_encrypt : bytes → bytes → bytes → result str bytes;
  aead_decrypt : bytes → bytes → bytes → result str bytes;
  aead_correct key nonce p c : aead_encrypt key nonce p = Ok c → aead_decrypt key nonce c = Ok p;
  aead_authentic key nonce p c : aead_decrypt key nonce c = Ok p → aead_encrypt key nonce p = Ok c }.

Inductive AeadAlgo := ChaCha20Poly1305.
Definition nonce_len (a : AeadAlgo) : Z := match a with ChaCha20Poly1305 => 12 end.

Section cipher.
Context `{Aead}.

(** [seal]: the nonce is drawn by the system generator. *)
Definition seal (nonce key plaintext : bytes) : result SecurityError bytes :=
  ciphertext ← map_err SecEncrypt (aead_encrypt key nonce plaintext); Ok (nonce ++ ciphertext).
Definition open (key sealed : bytes) : result SecurityError bytes :=
  let n := nonce_len ChaCha20Poly1305 in
  if len sealed <? n then Err (SecDecrypt (lit "sealed blob shorter than nonce"))
  else map_err SecDecrypt (aead_decrypt key (take (Z.to_nat n) sealed) (drop (Z.to_nat n) sealed)).

Record SecretCipher := mkCipher { sc_key : bytes }.
Definition cipher_encrypt (c : SecretCipher) (nonce plaintext : bytes) : result SecurityError bytes :=
  seal nonce (sc_key c) plaintext.
Definition cipher_decrypt (c : SecretCipher) (sealed : bytes) : result SecurityError bytes := open (sc_key c) sealed.

Lemma secret_open_spec_core (c : SecretCipher) (sealed plaintext : bytes) :
  cipher_decrypt c sealed = Ok plaintext ↔
  ∃ nonce, len nonce = nonce_len ChaCha20Poly1305 ∧ cipher_encrypt c nonce plaintext = Ok sealed.
Proof.
  unfold cipher_decrypt, cipher_encrypt, open, seal, nonce_len. change (Z.to_nat 12) with 12%nat. split.
  - destruct (Z.ltb_spec (len sealed) 12) as [|Hl]; [done|]. rewrite map_err_Ok. intros Hd%aead_authentic.
    exists (take 12 sealed). split; [unfold len in *; rewrite length_take; lia|].
    rewrite bind_Ok. exists (drop 12 sealed). rewrite map_err_Ok. split; [done|]. by rewrite take_drop.
  - intros (nonce & Hn & He). apply bind_Ok in He as (ct & He%map_err_Ok & [= <-]).
    assert (length nonce = 12%nat) as Hn' by (unfold len in Hn; lia).
    destruct (Z.ltb_spec (len (nonce ++ ct)) 12) as [Hl|_].
    { exfalso. autorewrite with len in Hl. pose proof (len_nonneg ct). lia. }
    rewrite map_err_Ok, <-Hn', take_app_length, drop_app_length. by apply aead_correct.
Qed.

(** A stored secret reads back, and only what was sealed reads back: a blob opens
    under a key with a text exactly when it is a nonce followed by the encryption of that
    text under it, that is, a blob that sealing this text with that nonce produces.  In
    particular no blob has two readings, and a blob shorter than a nonce has none. *)
Theorem secret_open_spec (c : SecretCipher) (sealed plaintext : bytes) :
  cipher_decrypt c sealed = Ok plaintext ↔
  ∃ nonce, len nonce = nonce_len ChaCha20Poly1305 ∧ cipher_encrypt c nonce plaintext = Ok sealed.
Proof. apply secret_open_spec_core. Qed.

(** A secret kept with a credential: what is put in the store comes back from it. *)
Lemma stored_secret (s : MemoryCredentialStore) (c : Credential) (k : SecretCipher) (nonce secret_text sealed : bytes) :
  mc_poisoned s = false → len nonce = nonce_len ChaCha20Poly1305 → cipher_encrypt k nonce secret_text = Ok sealed →
  let s' := (mc_put s (with_secret c sealed)).1 in
  ∃ c', mc_get s' (cr_username c) = Ok (Some c') ∧ ∃ blob, secret c' = Some blob ∧ cipher_decrypt k blob = Ok secret_text.
Proof.
  intros Hp Hn He. unfold mc_put, mc_get. rewrite Hp. cbn. rewrite lookup_insert_eq. eexists. split; [done|].
  exists sealed. split; [done|]. apply secret_open_spec_core. by exists nonce.
Qed.
End cipher.

(** A cipher with the two facts: the key is the tag. *)
#[local] Program Instance tag_aead : Aead := {
  aead_encrypt key nonce p := Ok (key ++ p);
  aead_decrypt key nonce c := ok_or (lit "aead::Error") (strip_prefix key c) }.
Next Obligation. intros key nonce p c [= <-]. unfold ok_or. by rewrite (proj2 (strip_prefix_Some key (key ++ p) p) eq_refl). Qed.
Next Obligation. intros key nonce p c. unfold ok_or. destruct (strip_prefix key c) as [p'|] eqn:E; [|intros; discriminate]. intros [= <-]. apply strip_prefix_Some in E as ->. done. Qed.

Lemma secret_open_spec_witness :
  cipher_decrypt (mkCipher (lit "k")) (replicate 12 0 ++ lit "kpw") = Ok (lit "pw") ∧
  ∃ nonce, len nonce = nonce_len ChaCha20Poly1305 ∧ cipher_encrypt (mkCipher (lit "k")) nonce (lit "pw") = Ok (replicate 12 0 ++ lit "kpw").
Proof. split; [by vm_compute|]. apply (secret_open_spec (mkCipher (lit "k"))). by vm_compute. Defined.
