(* ===== verification/Pop.v ===== *)
(** * The POP3 session of [crates/access/src/pop.rs]

    Command parsing and [Pop3Session::handle] as a function of the shared
    authenticator, the shared store and the session.  The session keeps the
    snapshot of the mailbox taken at login and the set of marked messages; the
    store changes only when QUIT removes the marked ones. *)
From S2P Require Import Prelude RustStr Message Smtp Store Auth.

Inductive PopCommand :=
  | PCapa | PStls | PUser (name : str) | PPass (password : str) | PStat
  | PList (n : option Z) | PRetr (n : Z) | PDele (n : Z) | PRset | PNoop | PQuit.

#[export] Instance PopCommand_eq_dec : EqDecision PopCommand.
Proof. solve_decision. Defined.

Definition PopCommand_parse (line : str) : result str PopCommand :=
  let '(verb, arg) := split_verb line in
  let up := uppercase verb in
  let num := ok_or (lit "invalid message number `" ++ arg ++ lit "`") (parse_uint USIZE_MAX arg) in
  if up =s? lit "CAPA" then Ok PCapa
  else if up =s? lit "STLS" then Ok PStls
  else if (up =s? lit "USER") && negb (bool_decide (arg = [])) then Ok (PUser arg)
  else if up =s? lit "PASS" then Ok (PPass arg)
  else if up =s? lit "STAT" then Ok PStat
  else if (up =s? lit "LIST") && bool_decide (arg = []) then Ok (PList None)
  else if up =s? lit "LIST" then n ← num; Ok (PList (Some n))
  else if up =s? lit "RETR" then n ← num; Ok (PRetr n)
  else if up =s? lit "DELE" then n ← num; Ok (PDele n)
  else if up =s? lit "RSET" then Ok PRset
  else if up =s? lit "NOOP" then Ok PNoop
  else if up =s? lit "QUIT" then Ok PQuit
  else Err (lit "unknown command `" ++ up ++ lit "`").

Record PopReply := mkPopReply {
  pr_ok : bool; pr_message : str; pr_lines : list str; pr_body : option bytes }.
Definition pop_ok (m : str) : PopReply := mkPopReply true m [] None.
Definition pop_err (m : str) : PopReply := mkPopReply false m [] None.

Inductive PopState := Authorization | Transaction | PopClosed.
#[export] Instance PopState_eq_dec : EqDecision PopState.
Proof. solve_decision. Defined.

Record Pop3Session := mkPop {
  ps_state : PopState;
  ps_pending_user : option str;
  ps_mailbox : option str;
  ps_messages : list StoredMessage;
  ps_deleted : gset Z;
  ps_tls_available : bool;
  ps_tls_active : bool }.

Definition Pop3Session_new : Pop3Session := mkPop Authorization None None [] ∅ false false.
Definition Pop3Session_with_tls (active : bool) : Pop3Session :=
  mkPop Authorization None None [] ∅ true active.

(** [live]: the unmarked messages with their 1-based numbers. *)
Definition live (s : Pop3Session) : list (Z * StoredMessage) :=
  (λ im, (Z.of_nat im.1 + 1, im.2)) <$>
    filter (λ im, sm_id im.2 ∉ ps_deleted s) (imap (λ i m, (i, m)) (ps_messages s)).

Definition message_at (s : Pop3Session) (number : Z) : option StoredMessage :=
  if number <? 1 then None   (* [checked_sub(1)?] *)
  else match ps_messages s !! Z.to_nat (number - 1) with
       | Some m => if bool_decide (sm_id m ∈ ps_deleted s) then None else Some m
       | None => None
       end.

Definition octets (m : StoredMessage) : Z := len (Message_to_bytes (sm_message m)).
Definition set_state (st : PopState) (s : Pop3Session) : Pop3Session :=
  mkPop st (ps_pending_user s) (ps_mailbox s) (ps_messages s) (ps_deleted s)
    (ps_tls_available s) (ps_tls_active s).
Definition set_pending (u : option str) (s : Pop3Session) : Pop3Session :=
  mkPop (ps_state s) u (ps_mailbox s) (ps_messages s) (ps_deleted s)
    (ps_tls_available s) (ps_tls_active s).
Definition set_deleted (d : gset Z) (s : Pop3Session) : Pop3Session :=
  mkPop (ps_state s) (ps_pending_user s) (ps_mailbox s) (ps_messages s) d
    (ps_tls_available s) (ps_tls_active s).

Section pop.
Context {A S : Type} `{SessionAuth A, MailStore S}.

(** [for id in &self.deleted { self.store.remove(mailbox, *id); }] *)
Definition remove_all (store : S) (mailbox : str) (ids : list Z) : S :=
  foldl (λ st id, (store_remove st mailbox id).1) store ids.

Definition cleartext (s : Pop3Session) : bool := ps_tls_available s && negb (ps_tls_active s).

Definition pop_handle (auth : A) (store : S) (s : Pop3Session) (command : PopCommand)
    : S * Pop3Session * PopReply :=
  match ps_state s, command with
  | st, PQuit =>
      let store :=
        match st, ps_mailbox s with
        | Transaction, Some mailbox => remove_all store mailbox (elements (ps_deleted s))
        | _, _ => store
        end in
      (store, set_state PopClosed s, pop_ok (lit "Bye"))
  | _, PNoop => (store, s, pop_ok [])
  | _, PCapa =>
      (store, s, mkPopReply true (lit "Capability list follows")
         ([lit "USER"] ++ if cleartext s then [lit "STLS"] else []) None)
  | Authorization, PStls =>
      (store, s,
       if ps_tls_active s then pop_err (lit "STLS already active")
       else if ps_tls_available s then pop_ok (lit "Begin TLS negotiation")
       else pop_err (lit "STLS not supported"))
  | Transaction, PStls => (store, s, pop_err (lit "STLS only allowed before authentication"))
  | Authorization, PUser name =>
      if cleartext s then (store, s, pop_err (lit "[AUTH] STLS required before authentication"))
      else (store, set_pending (Some name) s, pop_ok (lit "send PASS"))
  | Authorization, PPass password =>
      if cleartext s then (store, s, pop_err (lit "[AUTH] STLS required before authentication"))
      else match ps_pending_user s with
           | None => (store, s, pop_err (lit "USER required first"))
           | Some user =>
               if auth_check auth user password then
                 let messages := store_list store user in
                 (store,
                  mkPop Transaction None (Some user) messages (ps_deleted s)
                    (ps_tls_available s) (ps_tls_active s),
                  pop_ok (show (len messages) ++ lit " message(s)"))
               else (store, set_pending None s, pop_err (lit "authentication failed"))
           end
  | Transaction, PStat =>
      let '(count, octs) := foldl (λ '(c, o) nm, (c + 1, o + octets nm.2)) (0, 0) (live s) in
      (store, s, pop_ok (show count ++ [SP] ++ show octs))
  | Transaction, PList None =>
      (store, s, mkPopReply true (lit "scan listing follows")
         ((λ nm, show nm.1 ++ [SP] ++ show (octets nm.2)) <$> live s) None)
  | Transaction, PList (Some n) =>
      (store, s,
       match message_at s n with
       | Some m => pop_ok (show n ++ [SP] ++ show (octets m))
       | None => pop_err (lit "no such message")
       end)
  | Transaction, PRetr n =>
      (store, s,
       match message_at s n with
       | Some m => mkPopReply true (show (octets m) ++ lit " octets") []
                     (Some (Message_to_bytes (sm_message m)))
       | None => pop_err (lit "no such message")
       end)
  | Transaction, PDele n =>
      match message_at s n with
      | Some m => (store, set_deleted ({[ sm_id m ]} ∪ ps_deleted s) s,
                   pop_ok (lit "message " ++ show n ++ lit " deleted"))
      | None => (store, s, pop_err (lit "no such message"))
      end
  | Transaction, PRset => (store, set_deleted ∅ s, pop_ok (lit "reset"))
  | Authorization, _ => (store, s, pop_err (lit "authenticate first"))
  | Transaction, PUser _ | Transaction, PPass _ => (store, s, pop_err (lit "already authenticated"))
  | PopClosed, _ => (store, s, pop_err (lit "session closed"))
  end.
End pop.

(** * Sessions over a shared store

    A POP3 session runs beside deliveries and other sessions: between two of its
    commands the store may become anything. *)

Section pop_theorems.
Context {A S : Type} `{SessionAuth A, MailStoreLaws S}.
Implicit Types (auth : A) (store : S) (s : Pop3Session).

Inductive pop_reach (auth : A) (s0 : Pop3Session) : S → Pop3Session → Prop :=
  | pop_init store : pop_reach auth s0 store s0
  | pop_env store store' s : pop_reach auth s0 store s → pop_reach auth s0 store' s
  | pop_cmd store s c :
      pop_reach auth s0 store s →
      pop_reach auth s0 (pop_handle auth store s c).1.1 (pop_handle auth store s c).1.2.

(** The session's data belongs to a user who logged in, over a channel that is
    encrypted when the server offers TLS. *)
Definition pop_inv (auth : A) (s0 s : Pop3Session) : Prop :=
  ps_tls_available s = ps_tls_available s0 ∧ ps_tls_active s = ps_tls_active s0 ∧
  (cleartext s = true → ps_pending_user s = None) ∧
  (∀ id, id ∈ ps_deleted s → id ∈ sm_id <$> ps_messages s) ∧
  match ps_state s with
  | Authorization => ps_mailbox s = None ∧ ps_messages s = [] ∧ ps_deleted s = ∅
  | Transaction =>
      cleartext s = false ∧
      ∃ user password store s1, ps_mailbox s = Some user ∧ auth_check auth user password = true ∧
        pop_reach auth s0 store s1 ∧ ps_messages s = store_list store user
  | PopClosed => True
  end.

Definition pop_fresh (s : Pop3Session) : Prop :=
  ∃ available active, s = mkPop Authorization None None [] ∅ available active.

Lemma message_at_Some s n m :
  message_at s n = Some m ↔
  1 ≤ n ∧ ps_messages s !! Z.to_nat (n - 1) = Some m ∧ sm_id m ∉ ps_deleted s.
Proof.
  unfold message_at. destruct (Z.ltb_spec n 1); [split; [done|lia]|].
  destruct (ps_messages s !! _) as [m'|]; [|naive_solver].
  case_bool_decide; naive_solver.
Qed.

Lemma message_at_elem s n m : message_at s n = Some m → m ∈ ps_messages s.
Proof. intros (_ & Hm & _)%message_at_Some. by eapply list_elem_of_lookup_2. Qed.

Lemma pop_inv_handle auth s0 store s c :
  pop_reach auth s0 store s → pop_inv auth s0 s → pop_inv auth s0 (pop_handle auth store s c).1.2.
Proof.
  intros Hr Hi. pose proof Hi as (Ha & Hb & Hc & Hd & He).
  unfold pop_handle. destruct (ps_state s) eqn:Es, c as [ | | | | |[]| | | | | ]; simpl; try done;
    repeat case_code; try done; unfold pop_inv; simpl; rewrite ?Es; try done.
  - change (cleartext (set_pending (Some name) s)) with (cleartext s).
    destruct He as (? & ? & ?). split_and?; try done. congruence.
  - destruct He as (_ & _ & ->). split_and?; try done. by eexists _, _, store, s.
  - split_and?; try done; [|by destruct He..]. intros id.
    rewrite elem_of_union, elem_of_singleton. intros [->|Hin]; [|auto].
    apply message_at_elem in Heqo. apply list_elem_of_fmap. eauto.
Qed.

Lemma pop_reach_inv auth s0 store s :
  pop_fresh s0 → pop_reach auth s0 store s → pop_inv auth s0 s.
Proof.
  intros (av & ac & ->). induction 1 as [store|store store' s Hr IH|store s c Hr IH].
  - by split_and!.
  - done.
  - by apply pop_inv_handle.
Qed.

(** POP3 confidentiality: the bytes of a RETR reply are those of a message
    that was, at the login of the session, in the mailbox of a user whose
    password the authenticator accepted in that session, not marked deleted, and
    never sent while TLS is offered but not active. *)
Theorem pop_data_after_login (auth : A) (s0 : Pop3Session) (store : S) (s : Pop3Session)
    (c : PopCommand) (b : bytes) :
  pop_fresh s0 → pop_reach auth s0 store s →
  pr_body (pop_handle auth store s c).2 = Some b →
  cleartext s = false ∧
  ∃ user password store1 s1 m,
    ps_mailbox s = Some user ∧ auth_check auth user password = true ∧
    pop_reach auth s0 store1 s1 ∧ m ∈ store_list store1 user ∧
    sm_id m ∉ ps_deleted s ∧ b = Message_to_bytes (sm_message m).
Proof.
  intros Hf Hr Hb. destruct (pop_reach_inv _ _ _ _ Hf Hr) as (_ & _ & _ & _ & He).
  unfold pop_handle in Hb. destruct (ps_state s) eqn:Es, c as [ | | | | |[]| | | | | ]; simpl in Hb;
    try done; repeat (case_code_in Hb; simpl in Hb; try done).
  destruct He as (Hc & user & password & store1 & s' & Hm & Hau & Hr1 & Hl). split; [done|].
  exists user, password, store1, s', s1. simplify_eq. apply message_at_Some in Heqo as (_ & Hx & Hn).
  split_and!; try done. rewrite <-Hl. by eapply list_elem_of_lookup_2.
Qed.

(** With TLS offered and not yet active, a POP3 session cannot log in
    whatever is sent: it never holds a user name or a message, and every USER
    or PASS is refused. *)
Theorem pop_cleartext_refused (auth : A) (store : S) (s : Pop3Session) (c : PopCommand) :
  pop_reach auth (Pop3Session_with_tls false) store s →
  ps_state s ≠ Transaction ∧ ps_pending_user s = None ∧
  ((∃ u, c = PUser u) ∨ (∃ p, c = PPass p) → pr_ok (pop_handle auth store s c).2 = false).
Proof.
  intros Hr.
  destruct (pop_reach_inv auth (Pop3Session_with_tls false) store s) as (Ha & Hb & Hc & _ & He);
    [by eexists _, _|done|].
  assert (cleartext s = true) as Hcl by (unfold cleartext; by rewrite Ha, Hb).
  split_and!.
  - intros Es. rewrite Es in He. destruct He as [He _]. congruence.
  - auto.
  - unfold pop_handle. rewrite Hcl. intros [[u ->]|[p ->]]; by destruct (ps_state s).
Qed.

(** ** Deletion *)

Lemma remove_all_list store mb ids :
  store_list (remove_all store mb ids) mb = filter (λ m, sm_id m ∉ ids) (store_list store mb).
Proof.
  revert store. induction ids as [|id ids IH]; intros store; simpl.
  - symmetry. apply filter_all. intros. set_solver.
  - rewrite IH, remove_list, list_filter_filter. apply list_filter_iff.
    intros m. rewrite not_elem_of_cons. naive_solver.
Qed.

Lemma remove_all_list_ne store mb mb' ids :
  mb ≠ mb' → store_list (remove_all store mb ids) mb' = store_list store mb'.
Proof.
  intros Hne. revert store. induction ids as [|id ids IH]; intros store; simpl; [done|].
  by rewrite IH, remove_list_ne.
Qed.

(** POP3 changes the store only at QUIT of a logged-in session, and then it
    removes exactly the marked messages from the user's own mailbox, in whatever
    order the set is walked: unmarked and newly delivered messages stay, other
    mailboxes are untouched, and no other command has any effect on the store. *)
Theorem pop_deletes_marked (auth : A) (store : S) (s : Pop3Session) (c : PopCommand) :
  let store' := (pop_handle auth store s c).1.1 in
  (c ≠ PQuit → store' = store) ∧
  (c = PQuit → ∀ mb,
    store_list store' mb =
    if decide (ps_state s = Transaction ∧ ps_mailbox s = Some mb)
    then filter (λ m, sm_id m ∉ ps_deleted s) (store_list store mb) else store_list store mb).
Proof.
  simpl. split.
  - intros Hc. unfold pop_handle.
    destruct (ps_state s), c as [ | | | | |[]| | | | | ]; simpl; repeat case_code; done.
  - intros -> mb. unfold pop_handle. destruct (ps_state s) eqn:Es; cbn [fst].
    1, 3: by rewrite decide_False by naive_solver.
    destruct (ps_mailbox s) as [mb0|] eqn:Em; [|by rewrite decide_False by naive_solver].
    destruct (decide (mb0 = mb)) as [->|Hne].
    + rewrite decide_True, remove_all_list by done. apply list_filter_iff.
      intros m. by rewrite elem_of_elements.
    + rewrite decide_False by naive_solver. by apply remove_all_list_ne.
Qed.

(** ** The views of the mailbox *)

Lemma live_elem s n m : (n, m) ∈ live s ↔ message_at s n = Some m.
Proof.
  unfold live. rewrite message_at_Some, list_elem_of_fmap. split.
  - intros ([i m'] & Heq & [Hd (j & Hj)%elem_of_lookup_imap]%list_elem_of_filter). simpl in *.
    destruct Hj as (x & ? & ?). simplify_eq. split; [lia|].
    by replace (Z.to_nat (Z.of_nat j + 1 - 1)) with j by lia.
  - intros (Hn & Hm & Hd). exists (Z.to_nat (n - 1), m). simpl. split; [f_equal; lia|].
    apply list_elem_of_filter. split; [done|]. apply elem_of_lookup_imap. eauto.
Qed.

Lemma stat_fold (l : list (Z * StoredMessage)) c o :
  foldl (λ '(c, o) (nm : Z * StoredMessage), (c + 1, o + octets nm.2)) (c, o) l =
  (c + len l, o + foldr Z.add 0 ((λ nm, octets nm.2) <$> l)).
Proof.
  revert c o. induction l as [|x l IH]; intros c o; cbn [foldl fmap list_fmap foldr].
  - rewrite len_nil. f_equal; lia.
  - rewrite IH, len_cons. f_equal; lia.
Qed.

(** The POP3 views agree: in the transaction state STAT reports the number
    and the total size of the listed messages, LIST without argument lists
    exactly the messages that LIST n and RETR n accept, with the same size, and
    RETR announces the length of the bytes it sends. *)
Theorem pop_views_agree (auth : A) (store : S) (s : Pop3Session) :
  ps_state s = Transaction →
  pr_message (pop_handle auth store s PStat).2 =
    show (len (live s)) ++ [SP] ++ show (foldr Z.add 0 ((λ nm, octets nm.2) <$> live s)) ∧
  pr_lines (pop_handle auth store s (PList None)).2 =
    (λ nm, show nm.1 ++ [SP] ++ show (octets nm.2)) <$> live s ∧
  ∀ n, match message_at s n with
       | Some m => (n, m) ∈ live s ∧
           (pop_handle auth store s (PList (Some n))).2 = pop_ok (show n ++ [SP] ++ show (octets m)) ∧
           ∃ b, pr_body (pop_handle auth store s (PRetr n)).2 = Some b ∧
             pr_message (pop_handle auth store s (PRetr n)).2 = show (len b) ++ lit " octets" ∧
             len b = octets m
       | None => (∀ m, (n, m) ∉ live s) ∧
           pr_ok (pop_handle auth store s (PList (Some n))).2 = false ∧
           pr_ok (pop_handle auth store s (PRetr n)).2 = false
       end.
Proof.
  intros Es. unfold pop_handle. rewrite Es. rewrite stat_fold. split_and!; [done..|].
  intros n. destruct (message_at s n) as [m|] eqn:Em.
  - rewrite live_elem. split_and!; [done..|]. eexists. done.
  - split_and!; [|done..]. intros m. rewrite live_elem. congruence.
Qed.

(** DELE n hides exactly message n until RSET: the numbers of the other
    messages do not move, and RSET brings all of them back. *)
Theorem pop_dele_rset (auth : A) (store : S) (s : Pop3Session) (n : Z) (m : StoredMessage) :
  ps_state s = Transaction → NoDup (sm_id <$> ps_messages s) → message_at s n = Some m →
  let s' := (pop_handle auth store s (PDele n)).1.2 in
  (∀ k, message_at s' k = if decide (k = n) then None else message_at s k) ∧
  let s'' := (pop_handle auth store s' PRset).1.2 in
  ∀ k, message_at s'' k = if 1 <=? k then ps_messages s !! Z.to_nat (k - 1) else None.
Proof.
  intros Es Hnd Hm. unfold pop_handle at 1. rewrite Es, Hm. simpl.
  assert (∀ k x, 1 ≤ k → ps_messages s !! Z.to_nat (k - 1) = Some x → sm_id x = sm_id m → k = n) as Huniq.
  { intros k x Hk Hx Hid. apply message_at_Some in Hm as (Hn & Hmn & _).
    assert (Z.to_nat (k - 1) = Z.to_nat (n - 1)) as E; [|lia].
    eapply NoDup_lookup; [done|by rewrite list_lookup_fmap, Hx|by rewrite list_lookup_fmap, Hmn, Hid]. }
  split.
  - intros k. unfold message_at. simpl. destruct (Z.ltb_spec k 1).
    { apply message_at_Some in Hm. rewrite decide_False by lia. done. }
    destruct (ps_messages s !! Z.to_nat (k - 1)) as [x|] eqn:Ex; [|by case_decide].
    case_decide as Hk; [subst k|].
    + apply message_at_Some in Hm as (_ & Hmn & _). simplify_eq.
      by rewrite bool_decide_eq_true_2 by set_solver.
    + assert (sm_id x ≠ sm_id m) by (intros ?; eauto). f_equal || idtac.
      case_bool_decide; case_bool_decide; try done; set_solver.
  - intros k. unfold pop_handle. simpl. rewrite Es. unfold message_at. simpl.
    destruct (Z.ltb_spec k 1), (Z.leb_spec 1 k); try lia; [done|].
    by destruct (ps_messages s !! Z.to_nat (k - 1)).
Qed.
End pop_theorems.

(** ** Concrete sessions *)

Definition demo_auth : Authenticator MemoryCredentialStore :=
  build_authenticator toy_hasher [mkCredential (lit "u") (lit "pw") None] [Account_user (lit "u")].
Definition demo_store : MemoryMailStore :=
  (mem_deliver MemoryMailStore_new (lit "u") (mkMessage (mkEnvelope None []) [] (lit "hi") [])).1.
Definition demo_session : Pop3Session :=
  (pop_handle demo_auth demo_store
     (pop_handle demo_auth demo_store Pop3Session_new (PUser (lit "u"))).1.2 (PPass (lit "pw"))).1.2.

Lemma pop_data_after_login_witness :
  cleartext demo_session = false ∧
  ∃ user password store1 s1 m,
    ps_mailbox demo_session = Some user ∧ auth_check demo_auth user password = true ∧
    pop_reach demo_auth Pop3Session_new store1 s1 ∧ m ∈ store_list store1 user ∧
    sm_id m ∉ ps_deleted demo_session ∧ lit "hi" = Message_to_bytes (sm_message m).
Proof.
  apply (pop_data_after_login demo_auth Pop3Session_new demo_store demo_session (PRetr 1) (lit "hi")).
  - by exists false, false.
  - unfold demo_session. eapply pop_env, pop_cmd, pop_env, pop_cmd, (pop_init _ _ demo_store).
  - by vm_compute.
Defined.

Lemma pop_cleartext_refused_witness :
  ps_state (Pop3Session_with_tls false) ≠ Transaction ∧
  ps_pending_user (Pop3Session_with_tls false) = None ∧
  ((∃ u, PUser (lit "u") = PUser u) ∨ (∃ p, PUser (lit "u") = PPass p) →
   pr_ok (pop_handle demo_auth demo_store (Pop3Session_with_tls false) (PUser (lit "u"))).2 = false).
Proof. apply (pop_cleartext_refused demo_auth demo_store). constructor. Defined.

Lemma pop_deletes_marked_witness :
  let s := (pop_handle demo_auth demo_store demo_session (PDele 1)).1.2 in
  let store' := (pop_handle demo_auth demo_store s PQuit).1.1 in
  store_list store' (lit "u") =
  if decide (ps_state s = Transaction ∧ ps_mailbox s = Some (lit "u"))
  then filter (λ m, sm_id m ∉ ps_deleted s) (store_list demo_store (lit "u"))
  else store_list demo_store (lit "u").
Proof. intros s store'. by apply (pop_deletes_marked demo_auth demo_store s PQuit). Defined.

Lemma pop_views_agree_witness :
  pr_message (pop_handle demo_auth demo_store demo_session PStat).2 = lit "1 2".
Proof.
  destruct (pop_views_agree demo_auth demo_store demo_session) as [-> _]; by vm_compute.
Defined.

Lemma pop_dele_rset_witness :
  ∀ k, message_at (pop_handle demo_auth demo_store demo_session (PDele 1)).1.2 k =
       if decide (k = 1) then None else message_at demo_session k.
Proof.
  assert (NoDup (sm_id <$> ps_messages demo_session)) as Hnd
    by (change (NoDup [1]); apply NoDup_singleton).
  destruct (pop_dele_rset demo_auth demo_store demo_session 1
    (mkStored 1 (mkMessage (mkEnvelope None []) [] (lit "hi") [])) eq_refl Hnd eq_refl) as [H _].
  exact H.
Defined.
