(* ===== verification/Imap.v ===== *)
(** * The IMAP session of [crates/access/src/imap.rs]

    Tagged command parsing and [ImapSession::handle], a function of the shared
    authenticator, the shared store (which it only reads) and the session. *)
From S2P Require Import Prelude RustStr Message Store Auth.

Inductive FetchItem := Full | Size.
Inductive ImapCommand :=
  | ICapability | IStartTls | ILogin (username password : str) | ISelect (mailbox : str)
  | IList (reference pattern : str) | IFetch (seq : Z) (item : FetchItem) | INoop | ILogout.
Record TaggedCommand := mkTagged { tag : str; command : ImapCommand }.

(** [unquote]: the text between the quotes, if both are there. *)
Definition unquote (s : str) : str :=
  default s (t ← strip_prefix [QUOTE] s; strip_suffix [QUOTE] t).

(** [line.splitn(3, ' ')]: the first three pieces. *)
Definition splitn3 (line : str) : str * option str * option str :=
  match split_once SP line with
  | None => (line, None, None)
  | Some (a, r) => match split_once SP r with
                   | None => (a, Some r, None)
                   | Some (b, c) => (a, Some b, Some c)
                   end
  end.

Definition parse_fetch_item (item : str) : result str FetchItem :=
  let up := uppercase (trim item) in
  if (up =s? lit "RFC822") || (up =s? lit "BODY[]") || (up =s? lit "BODY.PEEK[]") then Ok Full
  else if up =s? lit "RFC822.SIZE" then Ok Size
  else Err (lit "unsupported FETCH item `" ++ up ++ lit "`").

Definition parse_imap_command (verb args : str) : result str ImapCommand :=
  let up := uppercase verb in
  if up =s? lit "CAPABILITY" then Ok ICapability
  else if up =s? lit "STARTTLS" then Ok IStartTls
  else if up =s? lit "NOOP" then Ok INoop
  else if up =s? lit "LOGOUT" then Ok ILogout
  else if up =s? lit "LOGIN" then
    '(u, p) ← ok_or (lit "LOGIN needs <user> <pass>") (split_once SP args);
    Ok (ILogin (unquote u) (unquote (trim p)))
  else if up =s? lit "SELECT" then Ok (ISelect (unquote args))
  else if up =s? lit "LIST" then
    '(r, p) ← ok_or (lit "LIST needs <ref> <pattern>") (split_once SP args);
    Ok (IList (unquote r) (unquote (trim p)))
  else if up =s? lit "FETCH" then
    '(seq, item) ← ok_or (lit "FETCH needs <seq> <item>") (split_once SP args);
    seq ← ok_or (lit "invalid sequence number") (parse_uint USIZE_MAX seq);
    item ← parse_fetch_item item;
    Ok (IFetch seq item)
  else Err (lit "unknown command `" ++ up ++ lit "`").

Definition TaggedCommand_parse (line : str) : result str TaggedCommand :=
  let '(tag, verb, args) := splitn3 (trim_end_crlf line) in
  if bool_decide (tag = []) then Err (lit "missing tag")
  else
    verb ← ok_or (lit "missing command") verb;
    c ← parse_imap_command verb (trim (default [] args));
    Ok (mkTagged tag c).

Record FetchLiteral := mkLiteral { fl_seq : Z; fl_octets : bytes }.
Record ImapResponse := mkImap { untagged : list str; fetch_literal : option FetchLiteral; status : str }.

Inductive ImapState := INotAuthenticated | IAuthenticated | ISelected.
#[export] Instance ImapState_eq_dec : EqDecision ImapState.
Proof. solve_decision. Defined.

Record ImapSession := mkImapSession {
  is_state : ImapState;
  is_user : option str;
  is_selected : list StoredMessage;
  is_tls_available : bool;
  is_tls_active : bool }.
Definition ImapSession_new : ImapSession := mkImapSession INotAuthenticated None [] false false.
Definition ImapSession_with_tls (active : bool) : ImapSession :=
  mkImapSession INotAuthenticated None [] true active.

Definition mailbox_key (s : ImapSession) (name : str) : option str :=
  (λ user, if eq_ignore_case name (lit "INBOX") then user else user ++ [SLASH] ++ name) <$> is_user s.

(** [seq.wrapping_sub(1)] on [usize]. *)
Definition wrapping_sub_usize (a b : Z) : Z := (a - b) mod (USIZE_MAX + 1).
Definition get_selected (s : ImapSession) (seq : Z) : option StoredMessage :=
  let i := wrapping_sub_usize seq 1 in
  if i <? len (is_selected s) then is_selected s !! Z.to_nat i else None.

Definition imap_ok (tag st : str) : ImapResponse := mkImap [] None (tag ++ lit " OK " ++ st).
Definition imap_no (tag st : str) : ImapResponse := mkImap [] None (tag ++ lit " NO " ++ st).

Section imap.
Context {A S : Type} `{SessionAuth A, MailStore S}.

Definition imap_plaintext (s : ImapSession) : bool := is_tls_available s && negb (is_tls_active s).

Definition imap_fetch (s : ImapSession) (tag : str) (seq : Z) (item : FetchItem) : ImapResponse :=
  if bool_decide (is_state s ≠ ISelected) then imap_no tag (lit "no mailbox selected")
  else match get_selected s seq with
       | Some stored =>
           let bytes := Message_to_bytes (sm_message stored) in
           match item with
           | Size => mkImap [show seq ++ lit " FETCH (RFC822.SIZE " ++ show (len bytes) ++ lit ")"] None
                       (tag ++ lit " OK FETCH completed")
           | Full => mkImap [] (Some (mkLiteral seq bytes)) (tag ++ lit " OK FETCH completed")
           end
       | None => imap_no tag (lit "no such message")
       end.

Definition imap_handle (auth : A) (store : S) (s : ImapSession) (t : TaggedCommand)
    : ImapSession * ImapResponse :=
  let tag := tag t in
  match command t with
  | ICapability =>
      let caps := lit "CAPABILITY IMAP4rev1" ++
                  if imap_plaintext s then lit " STARTTLS LOGINDISABLED" else [] in
      (s, mkImap [caps] None (tag ++ lit " OK CAPABILITY completed"))
  | IStartTls =>
      (s, if is_tls_active s then imap_no tag (lit "STARTTLS already active")
          else if is_tls_available s then imap_ok tag (lit "Begin TLS negotiation now")
          else imap_no tag (lit "STARTTLS not supported"))
  | INoop => (s, imap_ok tag (lit "NOOP completed"))
  | ILogout =>
      (mkImapSession INotAuthenticated (is_user s) (is_selected s) (is_tls_available s) (is_tls_active s),
       mkImap [lit "BYE Snail logging out"] None (tag ++ lit " OK LOGOUT completed"))
  | ILogin username password =>
      if imap_plaintext s then
        (s, imap_no tag (lit "[PRIVACYREQUIRED] LOGIN disabled until STARTTLS"))
      else if auth_check auth username password then
        (mkImapSession IAuthenticated (Some username) (is_selected s) (is_tls_available s) (is_tls_active s),
         imap_ok tag (lit "LOGIN completed"))
      else (s, imap_no tag (lit "LOGIN failed"))
  | c =>
      if bool_decide (is_state s = INotAuthenticated) then (s, imap_no tag (lit "must authenticate first"))
      else
        match c with
        | ISelect mailbox =>
            match mailbox_key s mailbox with
            | None => (s, imap_no tag (lit "not authenticated"))
            | Some key =>
                let selected := store_list store key in
                (mkImapSession ISelected (is_user s) selected (is_tls_available s) (is_tls_active s),
                 mkImap [show (len selected) ++ lit " EXISTS"; lit "FLAGS (\Seen \Deleted)"] None
                   (tag ++ lit " OK [READ-WRITE] SELECT completed"))
            end
        | IFetch seq item => (s, imap_fetch s tag seq item)
        | _ => (s, mkImap [lit "LIST (\HasNoChildren) " ++ [QUOTE] ++ lit "/" ++ [QUOTE] ++ [SP] ++
                           [QUOTE] ++ lit "INBOX" ++ [QUOTE]] None
                     (tag ++ lit " OK LIST completed"))
        end
  end.
End imap.

(** * Sessions over a shared store *)

Section imap_theorems.
Context {A S : Type} `{SessionAuth A, MailStore S}.
Implicit Types (auth : A) (store : S) (s : ImapSession).

(** Between two commands the store may become anything. *)
Inductive imap_reach (auth : A) (s0 : ImapSession) : S → ImapSession → Prop :=
  | imap_init store : imap_reach auth s0 store s0
  | imap_env store store' s : imap_reach auth s0 store s → imap_reach auth s0 store' s
  | imap_cmd store s t :
      imap_reach auth s0 store s → imap_reach auth s0 store (imap_handle auth store s t).1.

(** The store keys a user's session can name. *)
Definition user_key (user key : str) : Prop := key = user ∨ ∃ name, key = user ++ [SLASH] ++ name.

Definition imap_inv (auth : A) (s0 s : ImapSession) : Prop :=
  is_tls_available s = is_tls_available s0 ∧ is_tls_active s = is_tls_active s0 ∧
  (∀ user, is_user s = Some user →
     imap_plaintext s = false ∧ ∃ password, auth_check auth user password = true) ∧
  (is_state s ≠ INotAuthenticated → is_user s ≠ None) ∧
  (is_state s = ISelected → ∃ user key store s1, is_user s = Some user ∧ user_key user key ∧
     imap_reach auth s0 store s1 ∧ is_selected s = store_list store key).

Lemma mailbox_key_user s name key :
  mailbox_key s name = Some key → ∃ user, is_user s = Some user ∧ user_key user key.
Proof.
  unfold mailbox_key, user_key. destruct (is_user s) as [u|]; simpl; [|done].
  case_code; intros; simplify_eq; eauto.
Qed.

Lemma imap_inv_handle auth s0 store s t :
  imap_reach auth s0 store s → imap_inv auth s0 s → imap_inv auth s0 (imap_handle auth store s t).1.
Proof.
  intros Hr Hi. pose proof Hi as (Ha & Hb & Hu & Hn & Hs). unfold imap_handle.
  destruct (command t); try (repeat case_code; done).
  - case_code; [done|]. case_code; [|done]. unfold imap_inv; simpl. split_and!; try done.
    intros user [= <-]. unfold imap_plaintext in *. simpl. eauto.
  - case_code; [done|]. case_code; [|done]. bsimp.
    destruct (mailbox_key_user _ _ _ Heqo) as (user & Hus & Hk).
    unfold imap_inv, imap_plaintext in *; simpl. split_and!; try done; [by intros; auto|].
    intros _. eexists _, _, store, s. split_and!; eauto.
Qed.

Lemma imap_reach_inv auth s0 store s :
  is_state s0 = INotAuthenticated → is_user s0 = None →
  imap_reach auth s0 store s → imap_inv auth s0 s.
Proof.
  intros H1 H2. induction 1 as [store|store store' s Hr IH|store s c Hr IH].
  - unfold imap_inv. rewrite H1, H2. by split_and!.
  - done.
  - by apply imap_inv_handle.
Qed.

(** IMAP isolation: the bytes of a FETCH literal are those of a message that
    was, when the mailbox was selected, under a store key of the user currently
    logged in (the user's own address, or a name below it), a user whose password
    the authenticator accepted over a channel that is encrypted when TLS is
    offered; such a key is never the inbox of another user whose name has no
    slash. *)
Theorem imap_fetch_isolated (auth : A) (s0 : ImapSession) (store : S) (s : ImapSession)
    (t : TaggedCommand) (l : FetchLiteral) :
  is_state s0 = INotAuthenticated → is_user s0 = None → imap_reach auth s0 store s →
  fetch_literal (imap_handle auth store s t).2 = Some l →
  imap_plaintext s = false ∧
  ∃ user password key store1 s1 m,
    is_user s = Some user ∧ auth_check auth user password = true ∧
    user_key user key ∧ (∀ user', SLASH ∉ user' → key = user' → user' = user) ∧
    imap_reach auth s0 store1 s1 ∧ m ∈ store_list store1 key ∧
    fl_octets l = Message_to_bytes (sm_message m).
Proof.
  intros H1 H2 Hr Hl. destruct (imap_reach_inv _ _ _ _ H1 H2 Hr) as (_ & _ & Hu & _ & Hs).
  unfold imap_handle, imap_fetch in Hl.
  destruct (command t); simpl in Hl; try done; repeat (case_code_in Hl; simpl in Hl; try done). bsimp.
  rename select (get_selected s _ = Some _) into Hg. unfold get_selected in Hg. case_code_in Hg; [|done].
  assert (is_state s = ISelected) as Hst by (apply dec_stable; done).
  destruct (Hs Hst) as (user & key & store1 & s' & Hus & Hk & Hr1 & Hsel).
  destruct (Hu user Hus) as (Hp & password & Hau). split; [done|].
  eexists user, password, key, store1, s', _. simplify_eq. split_and!; try done.
  - intros user' Hsl ->. destruct Hk as [->|[name ->]]; [done|]. set_solver.
  - rewrite <-Hsel. by eapply list_elem_of_lookup_2.
Qed.

(** With STARTTLS offered and not yet done, an IMAP session stays
    unauthenticated whatever is sent: every LOGIN is answered NO and CAPABILITY
    announces LOGINDISABLED. *)
Theorem imap_login_disabled (auth : A) (store : S) (s : ImapSession) (tg u p : str) :
  imap_reach auth (ImapSession_with_tls false) store s →
  is_state s = INotAuthenticated ∧ is_user s = None ∧
  imap_handle auth store s (mkTagged tg (ILogin u p)) =
    (s, imap_no tg (lit "[PRIVACYREQUIRED] LOGIN disabled until STARTTLS")) ∧
  untagged (imap_handle auth store s (mkTagged tg ICapability)).2 =
    [lit "CAPABILITY IMAP4rev1 STARTTLS LOGINDISABLED"].
Proof.
  intros Hr. destruct (imap_reach_inv auth (ImapSession_with_tls false) store s eq_refl eq_refl Hr) as (Ha & Hb & Hu & Hn & _).
  assert (imap_plaintext s = true) as Hp by (unfold imap_plaintext; by rewrite Ha, Hb).
  assert (is_user s = None) as Hus.
  { destruct (is_user s) as [user|] eqn:E; [|done]. destruct (Hu user eq_refl). congruence. }
  split_and!; [|done|..].
  - destruct (decide (is_state s = INotAuthenticated)) as [|Hne]; [done|]. by apply Hn in Hne.
  - unfold imap_handle. simpl. by rewrite Hp.
  - unfold imap_handle. simpl. by rewrite Hp.
Qed.

(** FETCH sequence numbers are checked in full: in a selected mailbox FETCH n
    returns the n-th message for n from 1 to the mailbox size and nothing
    otherwise, sequence number 0, which wraps around, included. *)
Theorem imap_fetch_range (auth : A) (store : S) (s : ImapSession) (tg : str) (seq : Z) :
  is_state s = ISelected → len (is_selected s) ≤ USIZE_MAX → 0 ≤ seq ≤ USIZE_MAX →
  fetch_literal (imap_handle auth store s (mkTagged tg (IFetch seq Full))).2 =
  if (1 <=? seq) && (seq <=? len (is_selected s))
  then (λ m, mkLiteral seq (Message_to_bytes (sm_message m))) <$> is_selected s !! Z.to_nat (seq - 1)
  else None.
Proof.
  intros Hs Hlen Hseq. unfold imap_handle, imap_fetch. simpl.
  rewrite Hs. simpl. unfold get_selected, wrapping_sub_usize.
  pose proof (len_nonneg (is_selected s)).
  destruct (Z.leb_spec 1 seq).
  - rewrite Z.mod_small by lia.
    destruct (Z.ltb_spec (seq - 1) (len (is_selected s))), (Z.leb_spec seq (len (is_selected s))); try lia; simpl.
    + by destruct (is_selected s !! _).
    + done.
  - assert (seq = 0) as -> by lia. simpl.
    replace ((0 - 1) mod (USIZE_MAX + 1)) with USIZE_MAX by done.
    destruct (Z.ltb_spec USIZE_MAX (len (is_selected s))); [lia|done].
Qed.
End imap_theorems.

(** ** Concrete sessions *)

Definition imap_demo_auth : Authenticator MemoryCredentialStore :=
  build_authenticator toy_hasher [mkCredential (lit "u") (lit "pw") None] [Account_user (lit "u")].
Definition imap_demo_store : MemoryMailStore :=
  (mem_deliver MemoryMailStore_new (lit "u") (mkMessage (mkEnvelope None []) [] (lit "hi") [])).1.
Definition imap_demo_session : ImapSession :=
  (imap_handle imap_demo_auth imap_demo_store
    (imap_handle imap_demo_auth imap_demo_store ImapSession_new
       (mkTagged (lit "a") (ILogin (lit "u") (lit "pw")))).1
    (mkTagged (lit "b") (ISelect (lit "inbox")))).1.

Lemma imap_fetch_isolated_witness :
  imap_plaintext imap_demo_session = false ∧
  ∃ user password key store1 s1 m,
    is_user imap_demo_session = Some user ∧ auth_check imap_demo_auth user password = true ∧
    user_key user key ∧ (∀ user', SLASH ∉ user' → key = user' → user' = user) ∧
    imap_reach imap_demo_auth ImapSession_new store1 s1 ∧ m ∈ store_list store1 key ∧
    lit "hi" = Message_to_bytes (sm_message m).
Proof.
  apply (imap_fetch_isolated imap_demo_auth ImapSession_new imap_demo_store imap_demo_session
           (mkTagged (lit "c") (IFetch 1 Full)) (mkLiteral 1 (lit "hi"))); try done.
  unfold imap_demo_session. apply imap_cmd, imap_cmd, imap_init.
Defined.

Lemma imap_login_disabled_witness :
  is_state (ImapSession_with_tls false) = INotAuthenticated.
Proof.
  apply (imap_login_disabled imap_demo_auth imap_demo_store (ImapSession_with_tls false) [] [] []).
  constructor.
Defined.

Lemma imap_fetch_range_witness :
  fetch_literal (imap_handle imap_demo_auth imap_demo_store imap_demo_session
                   (mkTagged (lit "c") (IFetch 0 Full))).2 = None.
Proof.
  rewrite (imap_fetch_range imap_demo_auth imap_demo_store imap_demo_session (lit "c") 0); by vm_compute.
Defined.
