(* ===== verification/Submission.v ===== *)
(** * Submission, web access, Maildir names and the access manager

    [crates/access/src/msa.rs], [web.rs], [dovecot.rs] and [manager.rs]: the
    SASL-gated SMTP session that binds the envelope sender to the authenticated
    user, the web request handler, the Maildir++ name mapping, and the manager
    that hands out sessions for the enabled protocols. *)
From S2P Require Import Prelude RustStr Message Smtp Store Auth Pop Imap.

Record MsaSession := mkMsa { msa_smtp : SmtpSession; msa_user : option str }.
Definition MsaSession_new : MsaSession := mkMsa SmtpSession_new None.
Definition is_authenticated (s : MsaSession) : bool := bool_decide (msa_user s ≠ None).

Section msa.
Context {A : Type} `{SessionAuth A}.
Variable base64_decode : str → result str bytes.

Definition authenticate_plain (auth : A) (s : MsaSession) (response_b64 : str) : MsaSession * SmtpReply :=
  match decode_plain base64_decode response_b64 with
  | Ok creds =>
      if auth_check auth (sasl_username creds) (sasl_password creds) then
        (mkMsa (msa_smtp s) (Some (sasl_username creds)), mkReply 235 (lit "Authentication successful"))
      else (s, mkReply 535 (lit "Authentication credentials invalid"))
  | Err _ => (s, mkReply 501 (lit "Malformed AUTH response"))
  end.

Definition needs_auth (c : SmtpCommand) : bool :=
  match c with MailFrom _ | RcptTo _ | Data => true | _ => false end.
Definition owns (user : str) (sender : option Mailbox) : bool :=
  match sender with Some m => eq_ignore_case (Mailbox_to_string m) user | None => false end.

Definition msa_handle (s : MsaSession) (command : SmtpCommand) : MsaSession * SmtpReply :=
  if needs_auth command && negb (is_authenticated s) then
    (s, mkReply 530 (lit "Authentication required"))
  else
    match command, msa_user s with
    | MailFrom sender, Some user =>
        if negb (owns user sender) then
          (s, mkReply 553 (lit "5.7.1 Sender address rejected: not owned by user " ++ user))
        else let '(sm, r) := smtp_handle (msa_smtp s) command in (mkMsa sm (msa_user s), r)
    | _, _ => let '(sm, r) := smtp_handle (msa_smtp s) command in (mkMsa sm (msa_user s), r)
    end.

(** Taking the envelope through [smtp_mut]. *)
Definition msa_take (s : MsaSession) : MsaSession * option Envelope :=
  let '(sm, e) := take_envelope (msa_smtp s) in (mkMsa sm (msa_user s), e).

(** Reachable sessions with the users that have authenticated in them. *)
Inductive msa_reach (auth : A) : list str → MsaSession → Prop :=
  | msa_init : msa_reach auth [] MsaSession_new
  | msa_auth us s resp :
      msa_reach auth us s →
      msa_reach auth
        (match decode_plain base64_decode resp with
         | Ok c => if auth_check auth (sasl_username c) (sasl_password c) then sasl_username c :: us else us
         | Err _ => us
         end)
        (authenticate_plain auth s resp).1
  | msa_cmd us s c : msa_reach auth us s → msa_reach auth us (msa_handle s c).1
  | msa_take_env us s : msa_reach auth us s → msa_reach auth us (msa_take s).1.
End msa.

(** ** Web access *)

Inductive WebRequest :=
  | ListMailbox (user password : str)
  | FetchMessage (user password : str) (id : Z).
Inductive WebResponse :=
  | Unauthorized
  | Listing (l : list (Z * str))
  | WebMessage (b : bytes)
  | NotFound.

Section web.
Context {A S : Type} `{SessionAuth A, MailStore S}.
Definition web_handle (auth : A) (store : S) (request : WebRequest) : WebResponse :=
  match request with
  | ListMailbox user password =>
      if negb (auth_check auth user password) then Unauthorized
      else Listing ((λ m, (sm_id m, default (lit "(no subject)") (subject (sm_message m)))) <$>
                    store_list store user)
  | FetchMessage user password id =>
      if negb (auth_check auth user password) then Unauthorized
      else match list_find_first (λ m, sm_id m =? id) (store_list store user) with
           | Some m => WebMessage (Message_to_bytes (sm_message m))
           | None => NotFound
           end
  end.
End web.

(** ** Maildir++ names *)

Definition to_maildir (mailbox : str) : str :=
  if eq_ignore_case mailbox (lit "INBOX") then lit "."
  else lit "." ++ replace_chars (Z.eqb SLASH) (lit ".") mailbox.
Definition from_maildir (folder : str) : str :=
  if (folder =s? lit ".") || bool_decide (folder = []) then lit "INBOX"
  else replace_chars (Z.eqb DOT) (lit "/") (drop_while (Z.eqb DOT) folder).

(** ** The access manager *)

Record AccessConfig := mkAccess { cfg_imap : bool; cfg_pop3 : bool; cfg_submission : bool; cfg_web : bool }.
Definition AccessConfig_default : AccessConfig := mkAccess true true true true.
Definition imap_session (c : AccessConfig) : option ImapSession :=
  if cfg_imap c then Some ImapSession_new else None.
Definition pop3_session (c : AccessConfig) : option Pop3Session :=
  if cfg_pop3 c then Some Pop3Session_new else None.
Definition submission_session (c : AccessConfig) : option MsaSession :=
  if cfg_submission c then Some MsaSession_new else None.

(** * Submission *)

Section msa_theorems.
Context {A : Type} `{SessionAuth A}.
Variable base64_decode : str → result str bytes.

(** [m] is the address of one of the users [us]. *)
Definition sender_of (us : list str) (f : option Mailbox) : Prop :=
  ∃ m u, f = Some m ∧ u ∈ us ∧ lowercase (Mailbox_to_string m) = lowercase u.

Definition msa_inv (auth : A) (us : list str) (s : MsaSession) : Prop :=
  (∀ u, u ∈ us → ∃ p, auth_check auth u p = true) ∧
  (∀ u, msa_user s = Some u → u ∈ us) ∧
  smtp_inv (msa_smtp s) ∧
  (phase (msa_smtp s) = Sender ∨ recipients (msa_smtp s) ≠ [] → sender_of us (sender (msa_smtp s))).

Lemma sender_of_mono us u f : sender_of us f → sender_of (u :: us) f.
Proof. intros (m & v & ? & ? & ?). exists m, v. set_solver. Qed.

(** A command the submission gate lets through keeps the sender authentic. *)
Lemma smtp_handle_sender us (s : SmtpSession) c :
  smtp_inv s →
  (phase s = Sender ∨ recipients s ≠ [] → sender_of us (sender s)) →
  (∀ f, c = MailFrom f → sender_of us f) →
  phase (smtp_handle s c).1 = Sender ∨ recipients (smtp_handle s c).1 ≠ [] →
  sender_of us (sender (smtp_handle s c).1).
Proof.
  intros (_ & _ & Hp) Hs Hc. destruct s as [p h f rs n]. unfold smtp_handle. simpl in *.
  destruct c, p; simpl in *; repeat case_code; simpl in *; eauto; try tauto; bsimp; intuition congruence.
Qed.

Lemma msa_inv_handle auth us s c : msa_inv auth us s → msa_inv auth us (msa_handle s c).1.
Proof.
  intros (Ha & Hu & Hi & Hs). unfold msa_handle, is_authenticated.
  assert ((∀ f, c = MailFrom f → sender_of us f) →
    msa_inv auth us (mkMsa (smtp_handle (msa_smtp s) c).1 (msa_user s))) as Hgo.
  { intros Hc. split_and!; simpl; try done; [by apply smtp_inv_handle|by apply smtp_handle_sender]. }
  case_code; [by split_and!|].
  destruct c; try (destruct (smtp_handle _ _); simpl in *; by apply Hgo).
  destruct (msa_user s) as [user|] eqn:Eu; [|bsimp; done].
  destruct (owns user sender) eqn:Eo; simpl; [|by split_and!; rewrite ?Eu].
  destruct (smtp_handle _ _) as [sm r]; simpl in *. apply Hgo. intros f [= <-].
  unfold owns in Eo. destruct sender as [m|]; [|done]. apply eq_ignore_case_true in Eo.
  exists m, user. eauto.
Qed.

Lemma msa_reach_inv auth us s : msa_reach base64_decode auth us s → msa_inv auth us s.
Proof.
  induction 1 as [|us s resp _ (Ha & Hu & Hi & Hs)|us s c _ IH|us s _ (Ha & Hu & Hi & Hs)].
  - split_and!; simpl; [set_solver|done|by apply (smtp_inv_init DEFAULT_MAX_RECIPIENTS)|].
    by intros [?|?].
  - unfold authenticate_plain. destruct (decode_plain base64_decode resp) as [c|]; [|by split_and!].
    destruct (auth_check auth _ _) eqn:Ec; [|by split_and!].
    split_and!; simpl; try done.
    + intros u [->|?]%elem_of_cons; eauto.
    + intros u [= <-]. set_solver.
    + intros ?. by apply sender_of_mono, Hs.
  - by apply msa_inv_handle.
  - unfold msa_take. pose proof (smtp_inv_take _ Hi) as Hi'. unfold take_envelope in *.
    case_code; simpl in *; [by split_and!|]. split_and!; simpl; try done. naive_solver.
Qed.

Lemma msa_sender_authentic_core (auth : A) (us : list str) (s : MsaSession) (env : Envelope) :
  msa_reach base64_decode auth us s → (msa_take s).2 = Some env →
  ∃ m u p, env_sender env = Some m ∧ env_recipients env ≠ [] ∧
    lowercase (Mailbox_to_string m) = lowercase u ∧ auth_check auth u p = true.
Proof.
  intros (Ha & _ & _ & Hs)%msa_reach_inv. unfold msa_take, take_envelope.
  case_code; simpl; [done|]. bsimp. intros [= <-]. simpl.
  destruct Hs as (m & u & -> & Hu & Hl); [by right|]. destruct (Ha u Hu) as [p Hp]. eauto 10.
Qed.

(** No spoofed submission: every envelope a submission session hands over
    has a sender, never the null one, and that sender is the address (up to
    ASCII case) of a user whose password was accepted earlier in the session. *)
Theorem msa_sender_authentic (auth : A) (us : list str) (s : MsaSession) (env : Envelope) :
  msa_reach base64_decode auth us s → (msa_take s).2 = Some env →
  ∃ m u p, env_sender env = Some m ∧ env_recipients env ≠ [] ∧
    lowercase (Mailbox_to_string m) = lowercase u ∧ auth_check auth u p = true.
Proof. apply msa_sender_authentic_core. Qed.

(** Before authentication a submission session refuses MAIL, RCPT and DATA
    with 530 and holds no transaction. *)
Theorem msa_requires_auth (auth : A) (us : list str) (s : MsaSession) (c : SmtpCommand) :
  msa_reach base64_decode auth us s → msa_user s = None → us = [] → needs_auth c = true →
  msa_handle s c = (s, mkReply 530 (lit "Authentication required")) ∧
  txn_of (msa_smtp s) = None ∧ (msa_take s).2 = None.
Proof.
  intros (Ha & Hu & Hi & Hs)%msa_reach_inv Hn -> Hc.
  assert (∀ f, ¬ sender_of [] f) as Hno by (intros f (m & u & _ & ? & _); set_solver).
  split_and!.
  - unfold msa_handle, is_authenticated. by rewrite Hc, Hn.
  - unfold txn_of. destruct Hi as (_ & _ & Hp). destruct (phase (msa_smtp s)) eqn:E; try done;
      exfalso; eapply Hno, Hs; naive_solver.
  - unfold msa_take, take_envelope. case_code; simpl; [done|]. bsimp. exfalso. eapply Hno, Hs. by right.
Qed.
End msa_theorems.

Definition msa_demo_auth : Authenticator MemoryCredentialStore :=
  build_authenticator toy_hasher [mkCredential (lit "a@b") (lit "pw") None] [Account_user (lit "a@b")].
Definition msa_demo_b64 (_ : str) : result str bytes := Ok ([0] ++ lit "a@b" ++ [0] ++ lit "pw").
Definition msa_demo_session : MsaSession :=
  let s := (authenticate_plain msa_demo_b64 msa_demo_auth MsaSession_new []).1 in
  let s := (msa_handle s (Ehlo (lit "c"))).1 in
  let s := (msa_handle s (MailFrom (Some (mkMailbox (lit "A") (lit "b"))))).1 in
  (msa_handle s (RcptTo (mkMailbox (lit "x") (lit "y")))).1.

Lemma msa_sender_authentic_witness :
  ∃ m u p, Some (mkMailbox (lit "A") (lit "b")) = Some m ∧ [mkMailbox (lit "x") (lit "y")] ≠ [] ∧
    lowercase (Mailbox_to_string m) = lowercase u ∧ auth_check msa_demo_auth u p = true.
Proof.
  eapply (msa_sender_authentic msa_demo_b64 msa_demo_auth _ msa_demo_session
           (mkEnvelope (Some (mkMailbox (lit "A") (lit "b"))) [mkMailbox (lit "x") (lit "y")])).
  - unfold msa_demo_session. apply msa_cmd, msa_cmd, msa_cmd.
    apply (msa_auth msa_demo_b64 msa_demo_auth [] MsaSession_new []). constructor.
  - by vm_compute.
Defined.

Lemma msa_requires_auth_witness :
  msa_handle MsaSession_new Data = (MsaSession_new, mkReply 530 (lit "Authentication required")).
Proof. by apply (msa_requires_auth msa_demo_b64 msa_demo_auth [] MsaSession_new Data (msa_init _ _)). Defined.

(** * Web access *)

Lemma list_find_first_Some {X} (P : X → bool) l x : list_find_first P l = Some x → x ∈ l ∧ P x = true.
Proof. induction l; simpl; [done|]. case_code; [intros ?; simplify_eq; set_solver|set_solver]. Qed.

(** Web access serves the authenticated user's own mailbox only: any answer
    other than [Unauthorized] requires the password, a listing is the user's
    mailbox in order, and a message returned is the one with that id in it. *)
Theorem web_authorized {A S : Type} `{SessionAuth A, MailStore S} (auth : A) (store : S) (u p : str) (id : Z) :
  (auth_check auth u p = false →
     web_handle auth store (ListMailbox u p) = Unauthorized ∧
     web_handle auth store (FetchMessage u p id) = Unauthorized) ∧
  (auth_check auth u p = true →
     (∃ l, web_handle auth store (ListMailbox u p) = Listing l ∧ l.*1 = sm_id <$> store_list store u) ∧
     match web_handle auth store (FetchMessage u p id) with
     | WebMessage b => ∃ m, m ∈ store_list store u ∧ sm_id m = id ∧ b = Message_to_bytes (sm_message m)
     | NotFound => id ∉ sm_id <$> store_list store u
     | _ => False
     end).
Proof.
  unfold web_handle. split; intros ->; simpl; [done|]. split.
  - eexists. split; [done|]. by rewrite <-list_fmap_compose.
  - destruct (list_find_first _ _) as [m|] eqn:E.
    + apply list_find_first_Some in E as [Hm Hid]. bsimp. eauto.
    + intros (m & -> & Hm)%list_elem_of_fmap. induction (store_list store u) as [|x l IH]; [by apply not_elem_of_nil in Hm|].
      simpl in E. case_code_in E; [done|]. bsimp. apply elem_of_cons in Hm as [->|]; auto.
Qed.

Lemma web_authorized_witness :
  web_handle msa_demo_auth MemoryMailStore_new (FetchMessage (lit "a@b") (lit "no") 1) = Unauthorized.
Proof. by apply (web_authorized msa_demo_auth MemoryMailStore_new (lit "a@b") (lit "no") 1). Defined.

(** * Maildir++ names *)

Lemma replace_chars_inverse c d s :
  d ∉ s → replace_chars (Z.eqb d) [c] (replace_chars (Z.eqb c) [d] s) = s.
Proof.
  induction s as [|x s IH]; intros Hd; [done|]. apply not_elem_of_cons in Hd as [Hx Hd].
  unfold replace_chars in *. rewrite bind_cons, bind_app, IH by done.
  destruct (Z.eqb_spec c x) as [->|]; simpl.
  - by rewrite Z.eqb_refl.
  - destruct (Z.eqb_spec d x); [done|]. done.
Qed.

(** The Maildir++ mapping is invertible: a non-empty mailbox path without a
    dot that does not begin with the hierarchy separator maps to a folder name
    and back to itself, [INBOX] in any case to [INBOX]. *)
Theorem maildir_roundtrip (mb : str) :
  DOT ∉ mb → mb ≠ [] → starts_with [SLASH] mb = false →
  from_maildir (to_maildir mb) = if eq_ignore_case mb (lit "INBOX") then lit "INBOX" else mb.
Proof.
  intros Hd Hne Hs. unfold to_maildir. case_code; [done|]. unfold from_maildir.
  destruct mb as [|x mb]; [done|]. unfold starts_with in Hs. simpl in Hs.
  destruct (Z.eqb_spec SLASH x) as [|Hx]; [done|].
  assert (replace_chars (Z.eqb SLASH) (lit ".") (x :: mb) = x :: replace_chars (Z.eqb SLASH) (lit ".") mb) as E.
  { unfold replace_chars. rewrite bind_cons. by destruct (Z.eqb_spec SLASH x). }
  rewrite (proj2 (str_eqb_neq _ _)) by (rewrite E; done).
  rewrite bool_decide_eq_false_2 by done. simpl orb. cbv iota.
  change (lit "." ++ ?s) with (DOT :: s). rewrite E. simpl drop_while.
  destruct (Z.eqb_spec DOT x) as [<-|]; [destruct Hd; apply list_elem_of_here|]. rewrite <-E.
  by apply replace_chars_inverse.
Qed.

Lemma maildir_roundtrip_witness : from_maildir (to_maildir (lit "Work/2024")) = lit "Work/2024".
Proof.
  rewrite (maildir_roundtrip (lit "Work/2024")); try by vm_compute.
  apply (bool_decide_eq_false (DOT ∈ _)). by vm_compute.
Defined.
