(* ===== verification/Net.v ===== *)
(** * Addresses and clocks

    [IpAddr] is a 32-bit or 128-bit number; its octets and segments are the ones
    of [std::net].  A [SystemTime] is a number of nanoseconds from the Unix epoch
    within the range of the platform's 64-bit seconds, a [Duration] a number of
    nanoseconds; [checked_add] fails past the end of the range. *)
From S2P Require Import Prelude RustStr.

Inductive IpAddr := V4 (a : Z) | V6 (a : Z).
#[export] Instance IpAddr_eq_dec : EqDecision IpAddr.
Proof. solve_decision. Defined.
#[export] Program Instance IpAddr_countable : Countable IpAddr :=
  inj_countable' (λ ip, match ip with V4 a => (true, a) | V6 a => (false, a) end)
    (λ p, if p.1 : bool then V4 p.2 else V6 p.2) _.
Next Obligation. by intros []. Qed.

Definition ip_wf (ip : IpAddr) : Prop :=
  match ip with V4 a => 0 ≤ a < 2 ^ 32 | V6 a => 0 ≤ a < 2 ^ 128 end.

(** [Ipv4Addr::octets] and [Ipv4Addr::new]. *)
Definition v4_octet (a : Z) (i : Z) : Z := Z.land (Z.shiftr a (24 - 8 * i)) 255.
Definition v4_new (o0 o1 o2 o3 : Z) : Z :=
  Z.lor (Z.shiftl o0 24) (Z.lor (Z.shiftl o1 16) (Z.lor (Z.shiftl o2 8) o3)).
(** [Ipv6Addr::segments] and [Ipv6Addr::new]. *)
Definition v6_segment (a : Z) (i : Z) : Z := Z.land (Z.shiftr a (112 - 16 * i)) 65535.
Definition v6_new (s0 s1 s2 s3 s4 s5 s6 s7 : Z) : Z :=
  Z.lor (Z.shiftl s0 112) (Z.lor (Z.shiftl s1 96) (Z.lor (Z.shiftl s2 80) (Z.lor (Z.shiftl s3 64)
    (Z.lor (Z.shiftl s4 48) (Z.lor (Z.shiftl s5 32) (Z.lor (Z.shiftl s6 16) s7)))))).

Lemma v4_new_testbit o0 o1 o2 o3 n :
  0 ≤ n → Z.testbit (v4_new o0 o1 o2 o3) n =
  Z.testbit o0 (n - 24) || (Z.testbit o1 (n - 16) || (Z.testbit o2 (n - 8) || Z.testbit o3 n)).
Proof. intros. unfold v4_new. by rewrite !Z.lor_spec, !Z.shiftl_spec by lia. Qed.

Lemma land_ones_testbit a k n : 0 ≤ k → 0 ≤ n → Z.testbit (Z.land a (Z.ones k)) n = Z.testbit a n && (n <? k).
Proof.
  intros. rewrite Z.land_spec. f_equal. destruct (Z.ltb_spec n k).
  - by apply Z.ones_spec_low; lia.
  - by apply Z.ones_spec_high; lia.
Qed.

Lemma octet_testbit a i n :
  0 ≤ i ≤ 3 → Z.testbit (v4_octet a i) n = (0 <=? n) && (n <? 8) && Z.testbit a (n + 24 - 8 * i).
Proof.
  intros Hi. destruct (Z.leb_spec 0 n); [|by rewrite Z.testbit_neg_r].
  unfold v4_octet. change 255 with (Z.ones 8). rewrite land_ones_testbit, Z.shiftr_spec by lia.
  rewrite andb_comm. simpl. by replace (n + (24 - 8 * i)) with (n + 24 - 8 * i) by lia.
Qed.

Lemma segment_testbit a i n :
  0 ≤ i ≤ 7 → Z.testbit (v6_segment a i) n = (0 <=? n) && (n <? 16) && Z.testbit a (n + 112 - 16 * i).
Proof.
  intros Hi. destruct (Z.leb_spec 0 n); [|by rewrite Z.testbit_neg_r].
  unfold v6_segment. change 65535 with (Z.ones 16). rewrite land_ones_testbit, Z.shiftr_spec by lia.
  rewrite andb_comm. simpl. by replace (n + (112 - 16 * i)) with (n + 112 - 16 * i) by lia.
Qed.

(** ** Clocks *)

Definition NANOS : Z := 1000000000.
Definition secs (n : Z) : Z := n * NANOS.
Definition SYSTIME_MAX : Z := 2 ^ 63 * NANOS - 1.
(** [SystemTime::checked_add]. *)
Definition checked_add (t d : Z) : option Z := if t + d <=? SYSTIME_MAX then Some (t + d) else None.
(** [now.duration_since(earlier)]. *)
Definition duration_since (now earlier : Z) : option Z :=
  if earlier <=? now then Some (now - earlier) else None.

Lemma checked_add_Some t d u : checked_add t d = Some u ↔ u = t + d ∧ t + d ≤ SYSTIME_MAX.
Proof. unfold checked_add. destruct (Z.leb_spec (t + d) SYSTIME_MAX); naive_solver lia. Qed.

(** [checked_add(d).is_some_and(|u| u > now)]. *)
Definition deadline_after (t d now : Z) : bool :=
  match checked_add t d with Some u => now <? u | None => false end.

Lemma deadline_after_true t d now : deadline_after t d now = true ↔ now < t + d ≤ SYSTIME_MAX.
Proof.
  unfold deadline_after, checked_add. destruct (Z.leb_spec (t + d) SYSTIME_MAX); [rewrite Z.ltb_lt|]; naive_solver lia.
Qed.

(** ** Display *)

Definition hex_digit (d : Z) : char := if d <? 10 then 48 + d else 87 + d.
(** [{:x}]. *)
Fixpoint show_hex_go (fuel : nat) (n : Z) : str :=
  match fuel with
  | O => []
  | S f => if n <? 16 then [hex_digit n] else show_hex_go f (n / 16) ++ [hex_digit (n mod 16)]
  end.
Definition show_hex (n : Z) : str := show_hex_go (S (Z.to_nat (Z.log2 n))) n.

Definition v4_to_string (a : Z) : str :=
  join [DOT] [show (v4_octet a 0); show (v4_octet a 1); show (v4_octet a 2); show (v4_octet a 3)].

(** The leading run of zero segments, and the longest run (the first of them):
    its start and its length. *)
Fixpoint zeros (ss : list Z) : nat :=
  match ss with s :: t => if s =? 0 then S (zeros t) else O | [] => O end.
Fixpoint longest_zeros (i : nat) (ss : list Z) : nat * nat :=
  match ss with
  | [] => (O, O)
  | _ :: t =>
      let here := zeros ss in
      let '(j, n) := longest_zeros (S i) t in
      if bool_decide (n ≤ here)%nat then (i, here) else (j, n)
  end.
Definition v6_segments (a : Z) : list Z := v6_segment a <$> [0; 1; 2; 3; 4; 5; 6; 7].
Definition v6_to_string (a : Z) : str :=
  if Z.shiftr a 32 =? 65535 then lit "::ffff:" ++ v4_to_string (Z.land a (Z.ones 32))
  else
    let ss := v6_segments a in
    let '(i, n) := longest_zeros 0 ss in
    if bool_decide (1 < n)%nat then
      join [COLON] (show_hex <$> take i ss) ++ lit "::" ++ join [COLON] (show_hex <$> drop (i + n) ss)
    else join [COLON] (show_hex <$> ss).
Definition ip_to_string (ip : IpAddr) : str :=
  match ip with V4 a => v4_to_string a | V6 a => v6_to_string a end.

Example v6_loopback : ip_to_string (V6 1) = lit "::1".
Proof. by vm_compute. Qed.
Example v6_doc : ip_to_string (V6 (v6_new 8193 3512 0 1 0 0 0 1)) = lit "2001:db8:0:1::1".
Proof. by vm_compute. Qed.
Example v6_mapped : ip_to_string (V6 (Z.lor (Z.shiftl 65535 32) 3232235777)) = lit "::ffff:192.168.1.1".
Proof. by vm_compute. Qed.

(** The characters of a printed address. *)
Definition is_addr_char (c : char) : bool :=
  is_ascii_digit c || ((97 <=? c) && (c <=? 102)) || (c =? DOT) || (c =? COLON).

Lemma show_addr n : 0 ≤ n → Forall (λ c, is_addr_char c = true) (show n).
Proof.
  intros Hn. eapply Forall_impl; [by apply show_digits|]. intros c Hc. unfold is_addr_char. by rewrite Hc.
Qed.

Lemma show_hex_addr n : 0 ≤ n → Forall (λ c, is_addr_char c = true) (show_hex n).
Proof.
  unfold show_hex. generalize (S (Z.to_nat (Z.log2 n))). intros f. revert n.
  assert (∀ d, 0 ≤ d < 16 → is_addr_char (hex_digit d) = true) as Hd.
  { intros d Hd. unfold is_addr_char, hex_digit, is_ascii_digit. destruct (Z.ltb_spec d 10); lia. }
  induction f as [|f IH]; intros n Hn; simpl; [done|]. destruct (Z.ltb_spec n 16).
  - constructor; [apply Hd; lia|done].
  - apply Forall_app. split; [apply IH, Z.div_pos; lia|].
    constructor; [|done]. apply Hd, Z.mod_pos_bound. lia.
Qed.

Lemma join_addr sep ls :
  Forall (λ c, is_addr_char c = true) sep → Forall (Forall (λ c, is_addr_char c = true)) ls →
  Forall (λ c, is_addr_char c = true) (join sep ls).
Proof.
  intros Hs. induction 1 as [|l ls Hl HF IH]; simpl; [done|]. destruct ls; [done|].
  rewrite !Forall_app. auto.
Qed.

Lemma v4_octet_nonneg a i : 0 ≤ v4_octet a i.
Proof. unfold v4_octet. apply Z.land_nonneg. right. lia. Qed.
Lemma v6_segment_nonneg a i : 0 ≤ v6_segment a i.
Proof. unfold v6_segment. apply Z.land_nonneg. right. lia. Qed.

Lemma v4_to_string_addr a : Forall (λ c, is_addr_char c = true) (v4_to_string a).
Proof.
  unfold v4_to_string. apply join_addr; [by repeat constructor|].
  repeat (apply Forall_cons; split; [apply show_addr, v4_octet_nonneg|]). done.
Qed.

Lemma ip_to_string_addr ip : Forall (λ c, is_addr_char c = true) (ip_to_string ip).
Proof.
  destruct ip as [a|a]; simpl; [apply v4_to_string_addr|]. unfold v6_to_string.
  assert (Forall (λ s, 0 ≤ s) (v6_segments a)) as Hss.
  { unfold v6_segments. apply Forall_fmap, Forall_forall. intros. apply v6_segment_nonneg. }
  assert (∀ ss, Forall (λ s, 0 ≤ s) ss → Forall (λ c, is_addr_char c = true) (join [COLON] (show_hex <$> ss))) as Hj.
  { intros ss HF. apply join_addr; [by repeat constructor|]. apply Forall_fmap.
    eapply Forall_impl; [done|]. intros s. apply show_hex_addr. }
  case_code.
  - apply Forall_app. split; [by repeat constructor|]. apply v4_to_string_addr.
  - destruct (longest_zeros 0 (v6_segments a)) as [i n]. case_code; [|by apply Hj].
    rewrite !Forall_app. split_and!; [apply Hj, Forall_take, Hss|by repeat constructor|apply Hj, Forall_drop, Hss].
Qed.
