(* ===== verification/AddrParse.v ===== *)
(** * Reading addresses

    The [FromStr] instances of [Ipv4Addr] and [Ipv6Addr] (core::net::parser), which
    the SPF record parser relies on: a parser consumes a prefix of its input and
    returns the rest, and reads nothing when it fails ([read_atomically]).  The
    theorems relate them to the [Display] instances of [Net]. *)
From S2P Require Import Prelude RustStr Net.

(** [char::to_digit]. *)
Definition to_digit (radix : Z) (c : char) : option Z :=
  let d := if is_ascii_digit c then Some (c - 48)
           else if (97 <=? c) && (c <=? 122) then Some (c - 87)
           else if (65 <=? c) && (c <=? 90) then Some (c - 55)
           else None in
  match d with Some d => if d <? radix then Some d else None | None => None end.

(** The digit loop of [read_number]: the value and the number of digits read. *)
Fixpoint read_digits (radix : Z) (acc n : Z) (s : str) : Z * Z * str :=
  match s with
  | [] => (acc, n, [])
  | c :: t =>
      match to_digit radix c with
      | Some d => read_digits radix (acc * radix + d) (n + 1) t
      | None => (acc, n, s)
      end
  end.
(** The loop stops with a failure at one digit too many; reading on first does not
    change that. *)
Definition read_number (radix max_digits : Z) (zero_prefix : bool) (limit : Z) (s : str) : option (Z * str) :=
  let '(v, n, rest) := read_digits radix 0 0 s in
  if max_digits <? n then None
  else if n =? 0 then None
  else if negb zero_prefix && starts_with [48] s && (1 <? n) then None
  else if v <=? limit then Some (v, rest) else None.

Definition read_char (c : char) (s : str) : option str := strip_prefix [c] s.
Definition read_separator {A} (sep : char) (index : nat) (inner : str → option (A * str)) (s : str)
    : option (A * str) :=
  match index with
  | O => inner s
  | S _ => match read_char sep s with Some s => inner s | None => None end
  end.

Definition read_ipv4_addr (s : str) : option (Z * str) :=
  let octet := read_number 10 3 false U8_MAX in
  '(o0, s) ← read_separator DOT 0 octet s;
  '(o1, s) ← read_separator DOT 1 octet s;
  '(o2, s) ← read_separator DOT 2 octet s;
  '(o3, s) ← read_separator DOT 3 octet s;
  Some (v4_new o0 o1 o2 o3, s).

(** The groups read, whether they end in an IPv4 address, and the rest. *)
Fixpoint read_groups (limit i : nat) (s : str) : list Z * bool * str :=
  match limit with
  | O => ([], false, s)
  | S more =>
      match (if bool_decide (0 < more)%nat then read_separator COLON i read_ipv4_addr s else None) with
      | Some (a, s) => ([Z.shiftr a 16; Z.land a 65535], true, s)
      | None =>
          match read_separator COLON i (read_number 16 4 true U16_MAX) s with
          | Some (g, s) => let '(gs, v4, s) := read_groups more (S i) s in (g :: gs, v4, s)
          | None => ([], false, s)
          end
      end
  end.

Definition segments_value (ss : list Z) : Z := foldl (λ a s, Z.lor (Z.shiftl a 16) s) 0 ss.

Definition read_ipv6_addr (s : str) : option (Z * str) :=
  let '(head, head_v4, s) := read_groups 8 0 s in
  if bool_decide (length head = 8%nat) then Some (segments_value head, s)
  else if head_v4 then None
  else
    s ← read_char COLON s;
    s ← read_char COLON s;
    let '(tail, _, s) := read_groups (7 - length head) 0 s in
    Some (segments_value (head ++ replicate (8 - length head - length tail) 0 ++ tail), s).

Definition whole {A} (r : option (A * str)) : option A :=
  match r with Some (a, []) => Some a | _ => None end.
(** [Ipv4Addr::from_str] and [Ipv6Addr::from_str]. *)
Definition parse_v4 (s : str) : option Z :=
  if 15 <? str_len s then None else whole (read_ipv4_addr s).
Definition parse_v6 (s : str) : option Z := whole (read_ipv6_addr s).

Example parse_v4_ok : parse_v4 (lit "192.0.2.3") = Some (v4_new 192 0 2 3).
Proof. by vm_compute. Qed.
Example parse_v4_octal : parse_v4 (lit "192.0.02.3") = None ∧ parse_v4 (lit "1.2.3") = None ∧ parse_v4 (lit "1.2.3.256") = None.
Proof. by vm_compute. Qed.
Example parse_v6_ok : parse_v6 (lit "2001:DB8::1") = Some (v6_new 8193 3512 0 0 0 0 0 1) ∧
  parse_v6 (lit "::") = Some 0 ∧ parse_v6 (lit "::ffff:1.2.3.4") = Some (Z.lor (Z.shiftl 65535 32) (v4_new 1 2 3 4)) ∧
  parse_v6 (lit "1:2:3:4:5:6:7:8") = Some (v6_new 1 2 3 4 5 6 7 8) ∧ parse_v6 (lit "1::2::3") = None ∧
  parse_v6 (lit "1:2:3:4:5:6:7::") = Some (v6_new 1 2 3 4 5 6 7 0) ∧ parse_v6 (lit "12345::") = None.
Proof. by vm_compute. Qed.

(** ** Reading back what is printed *)

Lemma read_digits_app radix ds : ∀ acc n rest,
  Forall (λ c, is_Some (to_digit radix c)) ds →
  read_digits radix acc n (ds ++ rest) =
  read_digits radix (foldl (λ a c, a * radix + default 0 (to_digit radix c)) acc ds) (n + len ds) rest.
Proof.
  induction ds as [|c ds IH]; intros acc n rest HF; simpl.
  - rewrite len_nil. f_equal. lia.
  - apply Forall_cons in HF as [[d Hd] HF]. rewrite Hd. simpl. rewrite IH by done.
    rewrite len_cons. f_equal. lia.
Qed.

(** What may follow a number: nothing, or a character that is no digit. *)
Definition stops (radix : Z) (s : str) : Prop :=
  match s with [] => True | c :: _ => to_digit radix c = None end.
Lemma read_digits_stop radix acc n s : stops radix s → read_digits radix acc n s = (acc, n, s).
Proof. destruct s; simpl; [done|]. by intros ->. Qed.

Lemma read_octet o rest :
  0 ≤ o ≤ 255 → stops 10 rest → read_number 10 3 false U8_MAX (show o ++ rest) = Some (o, rest).
Proof.
  intros Ho Hs. unfold read_number.
  assert (forallb (λ o, let ds := show o in
     forallb (λ c, bool_decide (is_Some (to_digit 10 c))) ds &&
     (foldl (λ a c, a * 10 + default 0 (to_digit 10 c)) 0 ds =? o) && (0 <? len ds) && (len ds <=? 3) &&
     negb (starts_with [48] ds && (1 <? len ds))) (seqZ 0 256) = true) as Hall by by vm_compute.
  rewrite forallb_forall in Hall. specialize (Hall o). rewrite <-list_elem_of_In in Hall.
  specialize (Hall ltac:(apply elem_of_seqZ; lia)). cbn zeta in Hall.
  rewrite !andb_true_iff, negb_true_iff, forallb_forall in Hall.
  destruct Hall as ((((Hd & Hv) & Hpos) & Hlen) & Hz). bsimp.
  rewrite read_digits_app.
  2:{ apply Forall_forall. intros c Hc%list_elem_of_In. specialize (Hd c Hc). by bsimp. }
  rewrite read_digits_stop, Hv, Z.add_0_l by done.
  destruct (Z.ltb_spec 3 (len (show o))); [lia|]. destruct (Z.eqb_spec (len (show o)) 0); [lia|].
  replace (starts_with [48] (show o ++ rest)) with (starts_with [48] (show o)).
  2:{ unfold starts_with. destruct (show o) as [|c ds]; [done|].
      simpl. by destruct (48 =? c). }
  simpl. rewrite Hz. unfold U8_MAX. by destruct (Z.leb_spec o (2 ^ 8 - 1)); [|lia].
Qed.

Lemma v4_octet_range a i : 0 ≤ v4_octet a i ≤ 255.
Proof.
  unfold v4_octet. change 255 with (Z.ones 8). rewrite Z.land_ones by lia.
  pose proof (Z.mod_pos_bound (Z.shiftr a (24 - 8 * i)) (2 ^ 8)). change (Z.ones 8) with 255. lia.
Qed.

Lemma v4_octets a : 0 ≤ a < 2 ^ 32 → v4_new (v4_octet a 0) (v4_octet a 1) (v4_octet a 2) (v4_octet a 3) = a.
Proof.
  intros Ha. apply Z.bits_inj'. intros n Hn. rewrite v4_new_testbit, !octet_testbit by lia.
  replace (n - 24 + 24 - 8 * 0) with n by lia. replace (n - 16 + 24 - 8 * 1) with n by lia.
  replace (n - 8 + 24 - 8 * 2) with n by lia. replace (n + 24 - 8 * 3) with n by lia.
  destruct (Z.testbit a n) eqn:E; [|by rewrite !andb_false_r].
  rewrite !andb_true_r. assert (n < 32).
  { apply Z.nle_gt. intros Hge. rewrite Z.bits_above_log2 in E; [done|lia|].
    destruct (Z.eq_dec a 0) as [->|]; [simpl; lia|]. apply Z.log2_lt_pow2; [lia|].
    eapply Z.lt_le_trans; [apply Ha|]. apply Z.pow_le_mono_r; lia. }
  lia.
Qed.

Lemma read_ipv4_show a rest :
  0 ≤ a < 2 ^ 32 → stops 10 rest → read_ipv4_addr (v4_to_string a ++ rest) = Some (a, rest).
Proof.
  intros Ha Hs. unfold read_ipv4_addr, v4_to_string. cbn [join].
  rewrite <-!app_assoc. cbn [app].
  pose proof (v4_octet_range a) as Hr.
  assert (∀ o i t, 0 ≤ o ≤ 255 → stops 10 t →
    read_separator DOT (S i) (read_number 10 3 false U8_MAX) (DOT :: show o ++ t) = Some (o, t)) as Hstep.
  { intros o i t Ho Ht. cbn [read_separator]. unfold read_char.
    change (DOT :: show o ++ t) with ([DOT] ++ show o ++ t). rewrite strip_prefix_app. by apply read_octet. }
  assert (∀ o t, 0 ≤ o ≤ 255 → stops 10 t →
    read_separator DOT 0 (read_number 10 3 false U8_MAX) (show o ++ t) = Some (o, t)) as Hfirst by exact read_octet.
  rewrite Hfirst by done. cbn [mbind option_bind].
  rewrite Hstep by done. cbn [mbind option_bind]. rewrite Hstep by done. cbn [mbind option_bind].
  rewrite Hstep by done. cbn [mbind option_bind]. by rewrite v4_octets.
Qed.

(** *** Hexadecimal groups *)

Lemma hex_digit_to_digit d : 0 ≤ d < 16 → to_digit 16 (hex_digit d) = Some d.
Proof.
  intros Hd. unfold to_digit, hex_digit, is_ascii_digit. destruct (Z.ltb_spec d 10).
  - rewrite (proj2 (Z.leb_le 48 (48 + d))), (proj2 (Z.leb_le (48 + d) 57)) by lia. simpl.
    replace (48 + d - 48) with d by lia. by rewrite (proj2 (Z.ltb_lt d 16)) by lia.
  - rewrite (proj2 (Z.leb_gt (87 + d) 57)), andb_false_r by lia.
    rewrite (proj2 (Z.leb_le 97 (87 + d))), (proj2 (Z.leb_le (87 + d) 122)) by lia. simpl.
    replace (87 + d - 87) with d by lia. by rewrite (proj2 (Z.ltb_lt d 16)) by lia.
Qed.

Lemma show_hex_go_digits f n :
  0 ≤ n < 2 ^ Z.of_nat f → (0 < f)%nat →
  Forall (λ c, is_Some (to_digit 16 c)) (show_hex_go f n) ∧
  foldl (λ a c, a * 16 + default 0 (to_digit 16 c)) 0 (show_hex_go f n) = n ∧
  0 < len (show_hex_go f n) ∧ (∀ k, 0 < k → n < 16 ^ k → len (show_hex_go f n) ≤ k).
Proof.
  revert n. induction f as [|f IH]; intros n Hn Hf; [lia|]. simpl. destruct (Z.ltb_spec n 16) as [Hlt|Hge].
  - assert (len [hex_digit n] = 1) as -> by done. simpl.
    rewrite Forall_singleton, hex_digit_to_digit by lia. simpl. split_and!; eauto; lia.
  - assert (0 < f)%nat as Hf' by (destruct f; [simpl in Hn; lia|lia]).
    destruct (IH (n / 16)) as (HF & Hv & Hl & Hk); [|done|].
    { split; [apply Z.div_pos; lia|]. apply Z.div_lt_upper_bound; [lia|].
      rewrite Nat2Z.inj_succ, Z.pow_succ_r in Hn by lia. lia. }
    pose proof (Z.mod_pos_bound n 16).
    assert (len (show_hex_go f (n / 16) ++ [hex_digit (n mod 16)]) = len (show_hex_go f (n / 16)) + 1) as -> by len_lia.
    rewrite Forall_app, Forall_singleton, foldl_app, Hv. simpl.
    rewrite hex_digit_to_digit by lia. simpl. split_and!; [done|eauto|pose proof (Z.div_mod n 16); lia|lia|].
    intros k Hk0 Hnk. destruct (Z.eq_dec k 1) as [->|]; [lia|]. specialize (Hk (k - 1)).
    replace k with (Z.succ (k - 1)) in Hnk by lia. rewrite Z.pow_succ_r in Hnk by lia.
    assert (n / 16 < 16 ^ (k - 1)) by (apply Z.div_lt_upper_bound; lia). lia.
Qed.

Lemma show_hex_digits n :
  0 ≤ n ≤ 65535 →
  Forall (λ c, is_Some (to_digit 16 c)) (show_hex n) ∧
  foldl (λ a c, a * 16 + default 0 (to_digit 16 c)) 0 (show_hex n) = n ∧ 0 < len (show_hex n) ≤ 4.
Proof.
  intros Hn. destruct (show_hex_go_digits (S (Z.to_nat (Z.log2 n))) n) as (? & ? & ? & Hk); [|lia|].
  - rewrite Nat2Z.inj_succ, Z2Nat.id by apply Z.log2_nonneg. split; [lia|].
    destruct (Z.eq_dec n 0) as [->|]; [done|]. apply Z.log2_spec. lia.
  - split_and!; [done..|]. apply Hk; [lia|]. change (16 ^ 4) with 65536. lia.
Qed.

Lemma read_group g rest :
  0 ≤ g ≤ 65535 → stops 16 rest → read_number 16 4 true U16_MAX (show_hex g ++ rest) = Some (g, rest).
Proof.
  intros Hg Hs. destruct (show_hex_digits g Hg) as (HF & Hv & Hl).
  unfold read_number. rewrite read_digits_app, read_digits_stop, Hv by done.
  destruct (Z.ltb_spec 4 (0 + len (show_hex g))); [lia|].
  destruct (Z.eqb_spec (0 + len (show_hex g)) 0); [lia|]. simpl. unfold U16_MAX.
  by destruct (Z.leb_spec g (2 ^ 16 - 1)); [|lia].
Qed.

(** A number's digits hold no dot and no colon. *)
Lemma read_number_prefix max_digits zero limit s v rest :
  read_number 10 max_digits zero limit s = Some (v, rest) →
  ∃ ds, s = ds ++ rest ∧ Forall (λ c, c ≠ DOT ∧ c ≠ COLON) ds.
Proof.
  assert (∀ s acc n v m rest, read_digits 10 acc n s = (v, m, rest) →
    ∃ ds, s = ds ++ rest ∧ Forall (λ c, c ≠ DOT ∧ c ≠ COLON) ds) as Hpre.
  { intros s'. induction s' as [|c s' IH]; intros acc n v' m rest'; simpl.
    - intros [= _ _ <-]. by exists [].
    - destruct (to_digit 10 c) eqn:Hc.
      + intros (ds & -> & HF)%IH. exists (c :: ds). split; [done|]. constructor; [|done]. by split; intros ->.
      + intros [= _ _ <-]. by exists []. }
  unfold read_number. destruct (read_digits 10 0 0 s) as [[w n] t] eqn:E. apply Hpre in E.
  repeat case_code; naive_solver.
Qed.

(** An IPv4 address needs a dot after its first digits. *)
Lemma read_ipv4_dot s r :
  read_ipv4_addr s = Some r → ∃ ds t, s = ds ++ DOT :: t ∧ Forall (λ c, c ≠ DOT ∧ c ≠ COLON) ds.
Proof.
  unfold read_ipv4_addr. cbn [read_separator].
  destruct (read_number 10 3 false U8_MAX s) as [[v rest]|] eqn:E; [|done].
  apply read_number_prefix in E as (ds & -> & HF). cbn [mbind option_bind].
  destruct (read_char DOT rest) as [t|] eqn:Ht; [|done]. apply strip_prefix_Some in Ht as ->.
  intros _. by exists ds, t.
Qed.

(** What may follow a group: the end or a colon. *)
Definition after_group (s : str) : Prop := match s with [] => True | c :: _ => c = COLON end.
Lemma after_group_stops s : after_group s → stops 16 s.
Proof. destruct s; simpl; [done|]. by intros ->. Qed.

Lemma read_ipv4_hex g rest : 0 ≤ g ≤ 65535 → after_group rest → read_ipv4_addr (show_hex g ++ rest) = None.
Proof.
  intros Hg Hr. destruct (read_ipv4_addr _) as [r|] eqn:E; [|done]. exfalso.
  apply read_ipv4_dot in E as (ds & t & E & HF).
  destruct (show_hex_digits g Hg) as (Hh & _). revert ds E HF.
  induction Hh as [|c hs Hc _ IH]; intros ds E HF; simpl in E.
  - subst. destruct HF as [|d ds [_ Hd] _]; simpl in Hr; by subst.
  - destruct HF as [|d ds Hd HF]; simplify_eq/=; [|by eapply IH]. by destruct Hc as [? ?].
Qed.

Lemma read_groups_stop limit i rest : rest = [] ∨ (∃ t, rest = COLON :: COLON :: t) → read_groups limit i rest = ([], false, rest).
Proof.
  intros [->|[t ->]]; destruct limit as [|more]; simpl; try done.
  - destruct i; simpl; by case_code.
  - assert (read_ipv4_addr (COLON :: COLON :: t) = None ∧ read_ipv4_addr (COLON :: t) = None ∧
      read_number 16 4 true U16_MAX (COLON :: COLON :: t) = None ∧ read_number 16 4 true U16_MAX (COLON :: t) = None)
      as (H1 & H2 & H3 & H4) by done.
    destruct i; cbn [read_separator read_char strip_prefix]; rewrite ?Z.eqb_refl.
    + rewrite H1, H3. by case_code.
    + unfold read_char. simpl. rewrite H2. by case_code.
Qed.

(** Groups as they are printed, from the [i]-th on. *)
Fixpoint group_text (i : nat) (ss : list Z) : str :=
  match ss with
  | [] => []
  | s :: ss => (match i with O => [] | S _ => [COLON] end) ++ show_hex s ++ group_text (S i) ss
  end.
Lemma join_group_text ss : join [COLON] (show_hex <$> ss) = group_text 0 ss.
Proof.
  destruct ss as [|s ss]; simpl; [done|]. revert s. generalize 0%nat as i.
  induction ss as [|s' ss IH]; intros i s; simpl; [by rewrite app_nil_r|].
  f_equal. rewrite <-(IH (S i)). done.
Qed.

Lemma read_groups_text ss : ∀ limit i rest,
  Forall (λ s, 0 ≤ s ≤ 65535) ss → (length ss ≤ limit)%nat → after_group rest →
  read_groups (limit - length ss) (i + length ss) rest = ([], false, rest) →
  read_groups limit i (group_text i ss ++ rest) = (ss, false, rest).
Proof.
  induction ss as [|s ss IH]; intros limit i rest HF Hl Hr Hstop; simpl.
  { by rewrite Nat.sub_0_r, Nat.add_0_r in Hstop. }
  apply Forall_cons in HF as [Hs HF]. destruct limit as [|more]; simpl in Hl; [lia|].
  assert (after_group (group_text (S i) ss ++ rest)) as Hg by (by destruct ss).
  rewrite <-!app_assoc. simpl.
  assert (∀ {A} (inner : str → option (A * str)), read_separator COLON i inner
    (match i with O => [] | S _ => [COLON] end ++ show_hex s ++ group_text (S i) ss ++ rest) =
    inner (show_hex s ++ group_text (S i) ss ++ rest)) as Hsep.
  { intros A inner. by destruct i. }
  rewrite !Hsep, read_ipv4_hex, read_group by (done || by apply after_group_stops).
  rewrite IH; [by case_code|done|lia|done|].
  simpl in Hstop. by rewrite Nat.add_succ_r in Hstop.
Qed.

(** *** Segments *)

Lemma lor_shiftl_add x s : 0 ≤ s < 65536 → Z.lor (Z.shiftl x 16) s = x * 65536 + s.
Proof.
  intros Hs. pose proof (Z.add_lor_land (Z.shiftl x 16) s) as H.
  assert (Z.land (Z.shiftl x 16) s = 0) as Hz.
  { apply Z.bits_inj'. intros n Hn. rewrite Z.land_spec, Z.bits_0, Z.shiftl_spec by lia.
    destruct (Z.ltb_spec n 16); [by rewrite (Z.testbit_neg_r _ (n - 16)) by lia|].
    rewrite <-(Z.mod_small s (2 ^ 16)), Z.mod_pow2_bits_high by lia. apply andb_false_r. }
  rewrite Z.shiftl_mul_pow2 in * by lia. lia.
Qed.

Lemma v6_segment_mod a i : 0 ≤ i ≤ 7 → v6_segment a i = (a / 2 ^ (112 - 16 * i)) mod 65536.
Proof.
  intros Hi. unfold v6_segment. change 65535 with (Z.ones 16).
  by rewrite Z.land_ones, Z.shiftr_div_pow2 by lia.
Qed.

Lemma v6_segment_range a i : 0 ≤ i ≤ 7 → 0 ≤ v6_segment a i ≤ 65535.
Proof. intros Hi. rewrite v6_segment_mod by done. pose proof (Z.mod_pos_bound (a / 2 ^ (112 - 16 * i)) 65536). lia. Qed.

Lemma v6_segments_range a : Forall (λ s, 0 ≤ s ≤ 65535) (v6_segments a).
Proof. unfold v6_segments. simpl. repeat (constructor; [apply v6_segment_range; lia|]). done. Qed.

Lemma segment_step a i :
  0 ≤ i ≤ 7 → Z.lor (Z.shiftl (a / 2 ^ (128 - 16 * i)) 16) (v6_segment a i) = a / 2 ^ (128 - 16 * (i + 1)).
Proof.
  intros Hi. pose proof (v6_segment_range a i Hi). rewrite lor_shiftl_add, v6_segment_mod by lia.
  replace (128 - 16 * i) with ((128 - 16 * (i + 1)) + 16) by lia.
  replace (112 - 16 * i) with (128 - 16 * (i + 1)) by lia.
  rewrite Z.pow_add_r, <-Z.div_div by (lia || apply Z.pow_pos_nonneg; lia). change (2 ^ 16) with 65536.
  pose proof (Z.div_mod (a / 2 ^ (128 - 16 * (i + 1))) 65536). lia.
Qed.

Lemma segments_value_v6 a : 0 ≤ a < 2 ^ 128 → segments_value (v6_segments a) = a.
Proof.
  intros Ha. unfold segments_value, v6_segments. cbn [fmap list_fmap foldl].
  rewrite <-(Z.div_small a (2 ^ 128)) at 1 by done.
  assert (∀ p q i, 0 ≤ i ≤ 7 → p = 128 - 16 * i → q = 128 - 16 * (i + 1) →
    Z.lor (Z.shiftl (a / 2 ^ p) 16) (v6_segment a i) = a / 2 ^ q) as H by (intros p q i Hi -> ->; by apply segment_step).
  rewrite (H 128 112 0), (H 112 96 1), (H 96 80 2), (H 80 64 3), (H 64 48 4), (H 48 32 5), (H 32 16 6),
    (H 16 0 7) by lia.
  apply Z.div_1_r.
Qed.

Lemma longest_zeros_run ss : ∀ k i n,
  longest_zeros k ss = (i, n) → (0 < n)%nat →
  (k ≤ i)%nat ∧ ss = take (i - k) ss ++ replicate n 0 ++ drop (i - k + n) ss ∧ (i - k + n ≤ length ss)%nat.
Proof.
  assert (∀ ss, ss = replicate (zeros ss) 0 ++ drop (zeros ss) ss ∧ (zeros ss ≤ length ss)%nat) as Hz.
  { intros l. induction l as [|s l [IH Hl]]; simpl; [done|]. destruct (Z.eqb_spec s 0) as [->|]; simpl; [|split; [done|lia]].
    rewrite <-IH. split; [done|lia]. }
  induction ss as [|s ss IH]; intros k i n; simpl; [intros [= <- <-]; lia|].
  destruct (longest_zeros (S k) ss) as [j m] eqn:E. case_code; intros [= <- <-] Hn.
  - rewrite Nat.sub_diag. destruct (Hz (s :: ss)) as [H1 H2]. split_and!; [lia|exact H1|exact H2].
  - destruct (IH _ _ _ E Hn) as (H1 & H2 & H3). replace (j - k)%nat with (S (j - S k)) by lia.
    simpl. rewrite <-H2. split_and!; [lia|done|lia].
Qed.

(** An IPv4 address reads back as it is printed. *)
Lemma parse_v4_show a : 0 ≤ a < 2 ^ 32 → parse_v4 (v4_to_string a) = Some a.
Proof.
  intros Ha. unfold parse_v4. pose proof (read_ipv4_show a [] Ha I) as H. rewrite app_nil_r in H.
  rewrite H. cbn [whole]. destruct (Z.ltb_spec 15 (str_len (v4_to_string a))) as [Hlen|]; [|done]. exfalso.
  assert (∀ i, len (show (v4_octet a i)) ≤ 3) as Ho.
  { intros i. pose proof (v4_octet_range a i) as Hr.
    assert (forallb (λ o, len (show o) <=? 3) (seqZ 0 256) = true) as Hall by by vm_compute.
    rewrite forallb_forall in Hall. apply Z.leb_le, Hall, list_elem_of_In, elem_of_seqZ. lia. }
  revert Hlen. unfold str_len. rewrite utf8_encode_ascii.
  - unfold v4_to_string. cbn [join]. pose proof (Ho 0). pose proof (Ho 1). pose proof (Ho 2). pose proof (Ho 3).
    intros. rewrite !len_app in Hlen. change (len [DOT]) with 1 in Hlen. lia.
  - eapply Forall_impl; [apply v4_to_string_addr|]. intros c. unfold is_addr_char, is_ascii_digit, DOT, COLON. lia.
Qed.

(** An IPv4-mapped address. *)
Lemma read_ipv6_mapped a :
  0 ≤ a < 2 ^ 128 → Z.shiftr a 32 = 65535 →
  whole (read_ipv6_addr (lit "::ffff:" ++ v4_to_string (Z.land a (Z.ones 32)))) = Some a.
Proof.
  intros Ha Hm.
  set (x := Z.land a (Z.ones 32)).
  assert (0 ≤ x < 2 ^ 32 ∧ a = 65535 * 2 ^ 32 + x) as [Hx Hax].
  { unfold x. rewrite Z.land_ones by lia. rewrite Z.shiftr_div_pow2 in Hm by lia.
    pose proof (Z.mod_pos_bound a (2 ^ 32)). pose proof (Z.div_mod a (2 ^ 32)). lia. }
  pose proof (read_ipv4_show x [] Hx I) as H4. rewrite app_nil_r in H4.
  generalize dependent (v4_to_string x). intros t Ht.
  assert (read_groups 7 0 (lit "ffff:" ++ t) = ([65535; Z.shiftr x 16; Z.land x 65535], true, [])) as Hg.
  { change (lit "ffff:" ++ t) with (show_hex 65535 ++ COLON :: t). cbn [read_groups].
    rewrite bool_decide_eq_true_2 by lia. cbn [read_separator].
    rewrite read_ipv4_hex, read_group by done. rewrite bool_decide_eq_true_2 by lia.
    assert (read_char COLON (COLON :: t) = Some t) as -> by done. by rewrite Ht. }
  unfold read_ipv6_addr. change (lit "::ffff:" ++ t) with (COLON :: COLON :: lit "ffff:" ++ t).
  rewrite read_groups_stop by eauto. rewrite bool_decide_eq_false_2 by done.
  assert (∀ u, read_char COLON (COLON :: u) = Some u) as Hc by done.
  rewrite Hc. cbn [mbind option_bind]. rewrite Hc. cbn [mbind option_bind length Nat.sub]. rewrite Hg.
  cbn [whole length Nat.sub]. f_equal.
  assert (∀ p q, segments_value [0; 0; 0; 0; 0; 65535; p; q] = Z.lor (Z.shiftl (Z.lor (Z.shiftl 65535 16) p) 16) q)
    as Hsv by done.
  cbn [app replicate]. rewrite Hsv, Z.shiftr_div_pow2 by lia.
  replace (Z.land x 65535) with (x mod 2 ^ 16) by (by rewrite <-Z.land_ones).
  assert (0 ≤ x / 2 ^ 16 < 65536) by (split; [apply Z.div_pos; lia|apply Z.div_lt_upper_bound; lia]).
  pose proof (Z.mod_pos_bound x (2 ^ 16)). rewrite !lor_shiftl_add by lia. pose proof (Z.div_mod x (2 ^ 16)). lia.
Qed.

(** An IPv6 address reads back as it is printed: in full, with its longest run of
    zeros left out, or as an IPv4-mapped address. *)
Lemma parse_v6_show a : 0 ≤ a < 2 ^ 128 → parse_v6 (v6_to_string a) = Some a.
Proof.
  intros Ha. unfold parse_v6, v6_to_string. destruct (Z.eqb_spec (Z.shiftr a 32) 65535) as [Hm|Hm]; [by apply read_ipv6_mapped|].
  pose proof (v6_segments_range a) as HF. pose proof (segments_value_v6 a Ha) as Hv.
  assert (length (v6_segments a) = 8%nat) as Hl by done. generalize dependent (v6_segments a). intros ss HF Hv Hl.
  destruct (longest_zeros 0 ss) as [i n] eqn:Ez. rewrite !join_group_text. unfold read_ipv6_addr.
  case_code; bsimp.
  - destruct (longest_zeros_run _ _ _ _ Ez) as (_ & Hss & Hin); [lia|]. rewrite Nat.sub_0_r in *.
    change (lit "::") with [COLON; COLON]. cbn [app].
    assert (length (take i ss) = i) as Hi by (rewrite length_take; lia).
    rewrite read_groups_text; [|by apply Forall_take|lia|done|apply read_groups_stop; eauto].
    rewrite Hi, bool_decide_eq_false_2 by lia.
    assert (∀ u, read_char COLON (COLON :: u) = Some u) as Hc by done.
    rewrite Hc. cbn [mbind option_bind]. rewrite Hc. cbn [mbind option_bind].
    assert (length (drop (i + n) ss) = 8 - (i + n))%nat as Hd by (rewrite length_drop; lia).
    pose proof (read_groups_text (drop (i + n) ss) (7 - i) 0 []) as Hr. rewrite app_nil_r in Hr.
    rewrite Hr; [|by apply Forall_drop|lia|done|apply read_groups_stop; by left]. rewrite Hd. simpl. f_equal.
    replace (8 - i - (8 - (i + n)))%nat with n by lia. by rewrite <-Hss.
  - pose proof (read_groups_text ss 8 0 []) as Hr. rewrite app_nil_r in Hr.
    rewrite Hr; [|done|lia|done|apply read_groups_stop; by left]. rewrite bool_decide_eq_true_2 by done. simpl. by f_equal.
Qed.

(** ** The range of what is read *)

Lemma read_number_range radix k zero limit s v rest :
  0 ≤ radix → read_number radix k zero limit s = Some (v, rest) → 0 ≤ v ≤ limit.
Proof.
  intros Hr. unfold read_number.
  assert (∀ s acc n, 0 ≤ acc → 0 ≤ (read_digits radix acc n s).1.1) as Hd.
  { clear -Hr. induction s as [|c s IH]; intros acc n Ha; simpl; [done|].
    destruct (to_digit radix c) as [d|] eqn:E; [|done]. apply IH.
    assert (0 ≤ d); [|nia]. unfold to_digit, is_ascii_digit in E. repeat case_code_in E; simplify_eq; bsimp; lia. }
  specialize (Hd s 0 0 ltac:(lia)). destruct (read_digits radix 0 0 s) as [[w n] t]. simpl in Hd.
  repeat case_code; intros; simplify_eq. bsimp. lia.
Qed.

Lemma lor_bound a b k : 0 ≤ k → 0 ≤ a < 2 ^ k → 0 ≤ b < 2 ^ k → 0 ≤ Z.lor a b < 2 ^ k.
Proof.
  intros Hk Ha Hb. split; [apply Z.lor_nonneg; lia|].
  destruct (Z.eq_dec (Z.lor a b) 0) as [->|]; [apply Z.pow_pos_nonneg; lia|].
  assert (0 < Z.lor a b) by (pose proof (proj2 (Z.lor_nonneg a b)); lia).
  apply Z.log2_lt_pow2; [done|]. rewrite Z.log2_lor by lia.
  assert (∀ x, 0 ≤ x < 2 ^ k → 0 < k → Z.log2 x < k) as Hx.
  { intros x Hx Hk0. destruct (Z.eq_dec x 0) as [->|]; [done|]. apply Z.log2_lt_pow2; lia. }
  assert (0 < k) by (destruct (Z.eq_dec k 0) as [->|]; [|lia]; simpl in *; assert (a = 0 ∧ b = 0) as [Ha0 Hb0] by lia; by rewrite Ha0, Hb0 in *).
  apply Z.max_lub_lt; by apply Hx.
Qed.

Lemma v4_new_range o0 o1 o2 o3 :
  0 ≤ o0 ≤ 255 → 0 ≤ o1 ≤ 255 → 0 ≤ o2 ≤ 255 → 0 ≤ o3 ≤ 255 → 0 ≤ v4_new o0 o1 o2 o3 < 2 ^ 32.
Proof.
  intros. unfold v4_new. rewrite !Z.shiftl_mul_pow2 by lia. repeat apply lor_bound; lia.
Qed.

Lemma read_ipv4_range s a rest : read_ipv4_addr s = Some (a, rest) → 0 ≤ a < 2 ^ 32.
Proof.
  unfold read_ipv4_addr.
  assert (∀ i s o t, read_separator DOT i (read_number 10 3 false U8_MAX) s = Some (o, t) → 0 ≤ o ≤ 255) as Ho.
  { intros i s' o t. destruct i; simpl; [by apply read_number_range|].
    destruct (read_char DOT s'); [by apply read_number_range|done]. }
  destruct (read_separator DOT 0 _ _) as [[o0 s0]|] eqn:E0; [|done]. cbn [mbind option_bind].
  destruct (read_separator DOT 1 _ _) as [[o1 s1]|] eqn:E1; [|done]. cbn [mbind option_bind].
  destruct (read_separator DOT 2 _ _) as [[o2 s2]|] eqn:E2; [|done]. cbn [mbind option_bind].
  destruct (read_separator DOT 3 _ _) as [[o3 s3]|] eqn:E3; [|done]. cbn [mbind option_bind].
  intros [= <- _]. apply Ho in E0, E1, E2, E3. by apply v4_new_range.
Qed.

Lemma parse_v4_range s a : parse_v4 s = Some a → 0 ≤ a < 2 ^ 32.
Proof.
  unfold parse_v4. case_code; [done|]. destruct (read_ipv4_addr s) as [[v [|]]|] eqn:E; [|done..].
  simpl. intros [= ->]. by eapply read_ipv4_range.
Qed.

Lemma read_groups_range limit : ∀ i s,
  Forall (λ g, 0 ≤ g ≤ 65535) (read_groups limit i s).1.1 ∧ (length (read_groups limit i s).1.1 ≤ limit)%nat.
Proof.
  induction limit as [|more IH]; intros i s; cbn [read_groups]; [done|].
  destruct (if bool_decide (0 < more)%nat then _ else None) as [[a t]|] eqn:E4.
  - case_bool_decide; [|done].
    assert (0 ≤ a < 2 ^ 32) as Ha.
    { destruct i; simpl in E4; [by eapply read_ipv4_range|]. destruct (read_char COLON s); [by eapply read_ipv4_range|done]. }
    split; [|simpl; lia]. rewrite Z.shiftr_div_pow2 by lia. change 65535 with (Z.ones 16) at 2.
    rewrite Z.land_ones by lia. repeat constructor; try (apply Z.div_pos; lia).
    + enough (a / 2 ^ 16 < 65536) by lia. apply Z.div_lt_upper_bound; lia.
    + apply Z.mod_pos_bound. lia.
    + pose proof (Z.mod_pos_bound a (2 ^ 16)). lia.
  - destruct (read_separator COLON i (read_number 16 4 true U16_MAX) s) as [[g t]|] eqn:Eg; [|simpl; split; [constructor|lia]].
    specialize (IH (S i) t). destruct (read_groups more (S i) t) as [[gs v4] u]. simpl in *.
    destruct IH as [IHF IHl]. split; [constructor; [|done]|lia].
    destruct i; simpl in Eg; [by eapply read_number_range in Eg|].
    destruct (read_char COLON s); [by eapply read_number_range in Eg|done].
Qed.

Lemma segments_value_range ss :
  Forall (λ g, 0 ≤ g ≤ 65535) ss → 0 ≤ segments_value ss < 2 ^ (16 * len ss).
Proof.
  unfold segments_value. induction ss as [|g ss IH] using rev_ind; intros HF; [done|].
  apply Forall_app in HF as [HF Hg]. rewrite Forall_singleton in Hg. specialize (IH HF).
  rewrite foldl_app, len_app. simpl. rewrite lor_shiftl_add by lia. change (len [g]) with 1.
  pose proof (len_nonneg ss). replace (16 * (len ss + 1)) with (16 * len ss + 16) by lia.
  rewrite Z.pow_add_r by lia. lia.
Qed.

Lemma parse_v6_range s a : parse_v6 s = Some a → 0 ≤ a < 2 ^ 128.
Proof.
  unfold parse_v6, read_ipv6_addr. pose proof (read_groups_range 8 0 s) as H.
  destruct (read_groups 8 0 s) as [[h v4] t]. simpl in H. destruct H as [HF Hl].
  assert (∀ ss, Forall (λ g, 0 ≤ g ≤ 65535) ss → length ss = 8%nat → 0 ≤ segments_value ss < 2 ^ 128) as Hss.
  { intros ss Hs Hn. pose proof (segments_value_range ss Hs) as Hv. unfold len in Hv. by rewrite Hn in Hv. }
  case_bool_decide as H8.
  - destruct t; simpl; [|done]. intros [= <-]. by apply Hss.
  - destruct v4; [done|]. destruct (read_char COLON t) as [t1|]; [|done]. cbn [mbind option_bind].
    destruct (read_char COLON t1) as [t2|]; [|done]. cbn [mbind option_bind].
    pose proof (read_groups_range (7 - length h) 0 t2) as H2.
    destruct (read_groups (7 - length h) 0 t2) as [[u v4'] rest]. simpl in H2. destruct H2 as [HF2 Hl2].
    destruct rest; simpl; [|done]. intros [= <-]. apply Hss.
    + rewrite !Forall_app. split_and!; [done| |done]. apply Forall_replicate. lia.
    + rewrite !length_app, length_replicate. lia.
Qed.
