(* ===== verification/Throttle.v ===== *)
(** * The authentication throttle of [crates/security/src/throttle.rs]

    A per-IP counter of failed logins with a lockout.  The map behind the mutex
    is a [gmap]; the clock is an argument, as in the code's own [_at] functions. *)
From S2P Require Import Prelude Net.

Record ThrottleConfig := mkThrottle { max_failures : Z; lockout : Z }.
Definition ThrottleConfig_default : ThrottleConfig := mkThrottle 5 (secs (15 * 60)).

Record Attempt := mkAttempt { failures : Z; locked_until : option Z; at_last_seen : Z }.

Notation Records := (gmap IpAddr Attempt).

(** [locked_until.is_some_and(|until| until > now)]. *)
Definition is_locked (now : Z) (a : Attempt) : bool :=
  match locked_until a with Some until => now <? until | None => false end.

(** The predicate of [prune]. *)
Definition keep_attempt (lockout now : Z) (a : Attempt) : bool :=
  is_locked now a || deadline_after (at_last_seen a) lockout now.
Definition prune (records : Records) (now lockout : Z) : Records :=
  filter (λ ia, keep_attempt lockout now ia.2 = true) records.

Definition throttle_check_at (records : Records) (ip : IpAddr) (now : Z) : bool :=
  match records !! ip with
  | Some a => match locked_until a with Some until => until <=? now | None => true end
  | None => true
  end.

(** The part of [record_failure_at] after [entry(ip).or_insert(..)]. *)
Definition fail_attempt (config : ThrottleConfig) (now : Z) (a : Attempt) : Attempt :=
  let a := mkAttempt (failures a) (locked_until a) now in
  if is_locked now a then a
  else
    let a := if bool_decide (locked_until a ≠ None) then mkAttempt 0 None now else a in
    let n := add_u32 (failures a) 1 in
    mkAttempt n (if max_failures config <=? n then checked_add now (lockout config)
                 else locked_until a) now.

Definition record_failure_at (config : ThrottleConfig) (records : Records) (ip : IpAddr) (now : Z) : Records :=
  let records := prune records now (lockout config) in
  let a := default (mkAttempt 0 None now) (records !! ip) in
  <[ip := fail_attempt config now a]> records.

Definition record_success (records : Records) (ip : IpAddr) : Records := delete ip records.

(** * One address at a time

    The specification of the throttle for one address: the same rules on that
    address's own events only. *)

Inductive throttle_event := Failure (ip : IpAddr) (now : Z) | Success (ip : IpAddr) (now : Z).
Definition ev_ip (e : throttle_event) : IpAddr := match e with Failure ip _ | Success ip _ => ip end.
Definition ev_time (e : throttle_event) : Z := match e with Failure _ t | Success _ t => t end.

Definition throttle_exec (config : ThrottleConfig) (r : Records) (e : throttle_event) : Records :=
  match e with
  | Failure ip now => record_failure_at config r ip now
  | Success ip _ => record_success r ip
  end.

Definition prune1 (config : ThrottleConfig) (now : Z) (o : option Attempt) : option Attempt :=
  a ← o; if keep_attempt (lockout config) now a then Some a else None.

Definition spec_exec (config : ThrottleConfig) (o : option Attempt) (e : throttle_event) : option Attempt :=
  match e with
  | Failure _ now => Some (fail_attempt config now (default (mkAttempt 0 None now) (prune1 config now o)))
  | Success _ _ => None
  end.
Definition spec_check (o : option Attempt) (now : Z) : bool :=
  match o with Some a => negb (is_locked now a) | None => true end.

(** The implementation may have forgotten a record the specification still has,
    once it no longer matters. *)
Definition agree (config : ThrottleConfig) (now : Z) (impl spec : option Attempt) : Prop :=
  impl = spec ∨ (impl = None ∧ prune1 config now spec = None).

Lemma prune_lookup r now cfg ip : prune r now (lockout cfg) !! ip = prune1 cfg now (r !! ip).
Proof.
  unfold prune, prune1. rewrite map_lookup_filter. destruct (r !! ip) as [a|]; simpl; [|done].
  case_guard as E; simpl in *; destruct (keep_attempt _ _ _); done.
Qed.

Lemma prune1_mono cfg now now' o : now ≤ now' → prune1 cfg now o = None → prune1 cfg now' o = None.
Proof.
  intros Hle. unfold prune1. destruct o as [a|]; simpl; [|done].
  destruct (keep_attempt (lockout cfg) now a) eqn:E; [done|]. intros _.
  replace (keep_attempt (lockout cfg) now' a) with false; [done|]. symmetry.
  unfold keep_attempt, is_locked in *. apply orb_false_iff in E as [E1 E2]. apply orb_false_iff. split.
  - destruct (locked_until a); [|done]. bsimp. lia.
  - apply not_true_iff_false in E2. apply not_true_iff_false. rewrite deadline_after_true in *. lia.
Qed.

Lemma prune1_idemp cfg now o : prune1 cfg now (prune1 cfg now o) = prune1 cfg now o.
Proof.
  unfold prune1. destruct o as [a|]; simpl; [|done].
  destruct (keep_attempt (lockout cfg) now a) eqn:E; simpl; [by rewrite E|done].
Qed.

Lemma agree_check cfg now r ip o : agree cfg now (r !! ip) o → throttle_check_at r ip now = spec_check o now.
Proof.
  unfold throttle_check_at, spec_check, is_locked.
  intros [->|[-> Hp]].
  - destruct o as [a|]; [|done]. destruct (locked_until a); [|done]. lia.
  - unfold prune1, keep_attempt, is_locked in Hp. destruct o as [a|]; [|done]. simpl in Hp.
    destruct (locked_until a) as [u|]; [|done]. destruct (now <? u); [done|done].
Qed.

Lemma agree_exec cfg now r ip o e :
  now ≤ ev_time e → agree cfg now (r !! ip) o →
  agree cfg (ev_time e) (throttle_exec cfg r e !! ip)
    (if decide (ev_ip e = ip) then spec_exec cfg o e else o).
Proof.
  intros Hle Ha.
  assert (prune1 cfg (ev_time e) (r !! ip) = prune1 cfg (ev_time e) o) as Hp.
  { destruct Ha as [->|[-> Hn]]; [done|]. simpl. symmetry. by eapply prune1_mono. }
  destruct e as [ip' t|ip' t]; simpl in *.
  - unfold record_failure_at. case_decide as E; [subst ip'|].
    + rewrite lookup_insert_eq, prune_lookup, Hp. by left.
    + rewrite lookup_insert_ne, prune_lookup, Hp by done.
      destruct (prune1 cfg t o) as [a|] eqn:Ep; [left|by right].
      unfold prune1 in Ep. destruct o as [a'|]; simpl in Ep; [|done]. by case_code_in Ep.
  - unfold record_success. case_decide as E; [subst; rewrite lookup_delete_eq; by left|].
    rewrite lookup_delete_ne by done. destruct Ha as [->|[-> Hn]]; [by left|].
    right. split; [done|]. by eapply prune1_mono.
Qed.

(** Events in clock order, up to [now]. *)
Fixpoint ordered (t0 : Z) (es : list throttle_event) (now : Z) : Prop :=
  match es with
  | [] => t0 ≤ now
  | e :: es => t0 ≤ ev_time e ∧ ordered (ev_time e) es now
  end.

Definition own (ip : IpAddr) (es : list throttle_event) : list throttle_event :=
  filter (λ e, ev_ip e = ip) es.

Lemma agree_run cfg t0 r ip o es now :
  ordered t0 es now → agree cfg t0 (r !! ip) o →
  ∃ t, t ≤ now ∧ agree cfg t (foldl (throttle_exec cfg) r es !! ip) (foldl (spec_exec cfg) o (own ip es)).
Proof.
  revert t0 r o. induction es as [|e es IH]; intros t0 r o Ho Ha; [by exists t0|].
  destruct Ho as [H1 H2]. unfold own. rewrite filter_cons.
  pose proof (agree_exec cfg t0 r ip o e H1 Ha) as Ha'.
  case_decide; simpl; by eapply IH.
Qed.

Lemma agree_later cfg t t' i o : t ≤ t' → agree cfg t i o → agree cfg t' i o.
Proof. intros Ht [?|[? ?]]; [by left|right]. split; [done|]. by eapply prune1_mono. Qed.

Lemma throttle_check_own cfg es t0 now ip :
  ordered t0 es now →
  throttle_check_at (foldl (throttle_exec cfg) ∅ es) ip now =
  spec_check (foldl (spec_exec cfg) None (own ip es)) now.
Proof.
  intros Ho. destruct (agree_run cfg t0 ∅ ip None es now) as (t & Ht & Ha); [done|by left|].
  eapply agree_check, agree_later; eauto.
Qed.

(** Addresses do not interfere: under a clock that does not run backwards,
    whether an address may log in after any interleaving of failures and
    successes from any addresses, pruning included, is decided by that address's
    own events alone. *)
Theorem throttle_per_ip (cfg : ThrottleConfig) (es : list throttle_event) (t0 now : Z) (ip : IpAddr) :
  ordered t0 es now →
  throttle_check_at (foldl (throttle_exec cfg) ∅ es) ip now =
  spec_check (foldl (spec_exec cfg) None (own ip es)) now.
Proof. apply throttle_check_own. Qed.

Lemma throttle_per_ip_witness :
  throttle_check_at (foldl (throttle_exec (mkThrottle 2 10)) ∅
    [Failure (V4 1) 0; Failure (V4 2) 1; Failure (V4 1) 2]) (V4 1) 5 =
  spec_check (foldl (spec_exec (mkThrottle 2 10)) None [Failure (V4 1) 0; Failure (V4 1) 2]) 5.
Proof.
  apply (throttle_per_ip (mkThrottle 2 10) [Failure (V4 1) 0; Failure (V4 2) 1; Failure (V4 1) 2] 0 5 (V4 1)).
  simpl. lia.
Defined.

(** * Lockout *)

(** Failures at the times [ts] after one at [t], each within the lockout window
    of the one before. *)
Fixpoint burst (window t : Z) (ts : list Z) : Prop :=
  match ts with
  | [] => True
  | t' :: ts => t ≤ t' < t + window ∧ burst window t' ts
  end.

Lemma spec_exec_failure cfg ip n t t' :
  0 ≤ n < U32_MAX → t ≤ t' < t + lockout cfg → t' + lockout cfg ≤ SYSTIME_MAX →
  spec_exec cfg (Some (mkAttempt n None t)) (Failure ip t') =
  Some (mkAttempt (n + 1) (if max_failures cfg <=? n + 1 then Some (t' + lockout cfg) else None) t').
Proof.
  intros Hn Ht Hmax. unfold spec_exec, prune1. simpl.
  assert (keep_attempt (lockout cfg) t' (mkAttempt n None t) = true) as ->.
  { unfold keep_attempt. apply orb_true_iff. right. apply deadline_after_true. simpl. lia. }
  simpl. unfold fail_attempt. simpl. rewrite add_u32_small by lia.
  by rewrite (proj2 (checked_add_Some t' (lockout cfg) (t' + lockout cfg))) by lia.
Qed.

(** The last of the times. *)
Definition final (t : Z) (ts : list Z) : Z := foldl (λ _ x, x) t ts.

Lemma burst_le window t ts : burst window t ts → t ≤ final t ts.
Proof.
  revert t. induction ts as [|t' ts IH]; intros t; simpl; [unfold final; simpl; lia|].
  intros [? Hb]. specialize (IH t' Hb). unfold final in *. simpl. lia.
Qed.

Lemma spec_burst cfg ip n t ts :
  0 < n → n + len ts = max_failures cfg → max_failures cfg ≤ U32_MAX →
  burst (lockout cfg) t ts → final t ts + lockout cfg ≤ SYSTIME_MAX → ts ≠ [] →
  foldl (spec_exec cfg) (Some (mkAttempt n None t)) (Failure ip <$> ts) =
  Some (mkAttempt (max_failures cfg) (Some (final t ts + lockout cfg)) (final t ts)).
Proof.
  revert n t. induction ts as [|t' ts IH]; intros n t Hn Hlen Hmax Hb Hf Hne; [done|].
  destruct Hb as [Ht Hb]. pose proof (burst_le _ _ _ Hb) as Hle. unfold final in *.
  cbn [foldl fmap list_fmap] in *.
  autorewrite with len in Hlen. pose proof (len_nonneg ts).
  rewrite spec_exec_failure by lia. destruct (decide (ts = [])) as [->|Hts].
  - simpl in *. autorewrite with len in Hlen.
    rewrite (proj2 (Z.leb_le (max_failures cfg) (n + 1))) by lia. do 2 f_equal. lia.
  - assert (0 < len ts) by (destruct ts; [done|rewrite len_cons; pose proof (len_nonneg ts); lia]).
    rewrite (proj2 (Z.leb_gt (max_failures cfg) (n + 1))) by lia. apply IH; try done; lia.
Qed.

Lemma spec_first cfg ip t :
  1 ≤ max_failures cfg → t + lockout cfg ≤ SYSTIME_MAX →
  spec_exec cfg None (Failure ip t) =
  Some (mkAttempt 1 (if max_failures cfg <=? 1 then Some (t + lockout cfg) else None) t).
Proof.
  intros. unfold spec_exec, fail_attempt. simpl. rewrite add_u32_small by (unfold U32_MAX; lia).
  by rewrite (proj2 (checked_add_Some t (lockout cfg) (t + lockout cfg))) by lia.
Qed.

(** C37: brute force is stopped: once an address has failed [max_failures] times,
    each failure within the lockout window of the one before, it is refused from
    the last failure on until the lockout has elapsed, and allowed again from
    then on, whatever other addresses do meanwhile. *)
Theorem throttle_lockout (cfg : ThrottleConfig) (es : list throttle_event) (t0 now : Z) (ip : IpAddr)
    (t : Z) (ts : list Z) :
  ordered t0 es now → own ip es = Failure ip <$> (t :: ts) →
  1 + len ts = max_failures cfg → max_failures cfg ≤ U32_MAX →
  burst (lockout cfg) t ts → 0 ≤ lockout cfg → final t ts + lockout cfg ≤ SYSTIME_MAX →
  throttle_check_at (foldl (throttle_exec cfg) ∅ es) ip now = (final t ts + lockout cfg <=? now).
Proof.
  intros Ho Hown Hlen Hmax Hb Hlk Hf. rewrite (throttle_check_own cfg es t0 now ip Ho), Hown.
  pose proof (burst_le _ _ _ Hb). pose proof (len_nonneg ts).
  assert (foldl (spec_exec cfg) None (Failure ip <$> (t :: ts)) =
    Some (mkAttempt (max_failures cfg) (Some (final t ts + lockout cfg)) (final t ts))) as ->.
  { cbn [fmap list_fmap foldl]. rewrite spec_first by lia.
    destruct (decide (ts = [])) as [->|Hts].
    - unfold final in *. simpl in *. autorewrite with len in Hlen. rewrite <-Hlen. done.
    - assert (0 < len ts) by (destruct ts; [done|rewrite len_cons; pose proof (len_nonneg ts); lia]).
      rewrite (proj2 (Z.leb_gt (max_failures cfg) 1)) by lia. apply spec_burst; done || lia. }
  unfold spec_check, is_locked. simpl. by rewrite Z.ltb_antisym, negb_involutive.
Qed.

Lemma throttle_lockout_witness :
  throttle_check_at (foldl (throttle_exec (mkThrottle 2 10)) ∅
    [Failure (V4 1) 0; Failure (V4 2) 1; Failure (V4 1) 2]) (V4 1) 5 = (2 + 10 <=? 5).
Proof.
  apply (throttle_lockout (mkThrottle 2 10) [Failure (V4 1) 0; Failure (V4 2) 1; Failure (V4 1) 2]
           0 5 (V4 1) 0 [2]); try (simpl; lia); by vm_compute.
Defined.

(** Fewer events than the limit never lock. *)
Lemma spec_below_limit cfg es :
  len es < max_failures cfg → max_failures cfg ≤ U32_MAX →
  match foldl (spec_exec cfg) None es with
  | Some a => locked_until a = None ∧ 0 ≤ failures a ≤ len es
  | None => True
  end.
Proof.
  induction es as [|e es IH] using rev_ind; [done|]. intros Hlen Hmax.
  autorewrite with len in Hlen. specialize (IH ltac:(lia) Hmax). rewrite foldl_app. simpl.
  destruct e as [ip t|ip t]; simpl; [|done].
  set (o := foldl (spec_exec cfg) None es) in *.
  assert (∃ a, default (mkAttempt 0 None t) (prune1 cfg t o) = a ∧ locked_until a = None ∧
    0 ≤ failures a ≤ len es) as (a & -> & Hl & Hf).
  { pose proof (len_nonneg es). unfold prune1. destruct o as [a|]; simpl.
    - destruct IH as [Hl Hf]. destruct (keep_attempt _ _ _); simpl; [by exists a|].
      exists (mkAttempt 0 None t). by split_and!.
    - exists (mkAttempt 0 None t). by split_and!. }
  unfold fail_attempt, is_locked. simpl. rewrite Hl. simpl.
  rewrite add_u32_small by lia. autorewrite with len.
  rewrite (proj2 (Z.leb_gt (max_failures cfg) (failures a + 1))) by lia. split; [done|lia].
Qed.

(** No lockout without cause: an address with fewer than [max_failures]
    failures since its last success (or ever) may log in, and a success clears
    everything before it. *)
Theorem throttle_no_early_lockout (cfg : ThrottleConfig) (es : list throttle_event) (t0 now : Z)
    (ip : IpAddr) (pre post : list throttle_event) :
  ordered t0 es now → own ip es = pre ++ post →
  (pre = [] ∨ ∃ p t, pre = p ++ [Success ip t]) →
  len post < max_failures cfg → max_failures cfg ≤ U32_MAX →
  throttle_check_at (foldl (throttle_exec cfg) ∅ es) ip now = true.
Proof.
  intros Ho Hown Hpre Hlen Hmax. rewrite (throttle_check_own cfg es t0 now ip Ho), Hown, foldl_app.
  assert (foldl (spec_exec cfg) None pre = None) as ->.
  { destruct Hpre as [->|(p & t & ->)]; [done|]. by rewrite foldl_app. }
  pose proof (spec_below_limit cfg post Hlen Hmax) as Hs. unfold spec_check.
  destruct (foldl _ None post) as [a|]; [|done]. destruct Hs as [Hl _]. unfold is_locked. by rewrite Hl.
Qed.

Lemma throttle_no_early_lockout_witness :
  throttle_check_at (foldl (throttle_exec (mkThrottle 2 10)) ∅
    [Failure (V4 1) 0; Failure (V4 1) 1; Success (V4 1) 20; Failure (V4 1) 21]) (V4 1) 22 = true.
Proof.
  apply (throttle_no_early_lockout (mkThrottle 2 10)
    [Failure (V4 1) 0; Failure (V4 1) 1; Success (V4 1) 20; Failure (V4 1) 21] 0 22 (V4 1)
    [Failure (V4 1) 0; Failure (V4 1) 1; Success (V4 1) 20] [Failure (V4 1) 21]);
    try (simpl; lia); try by vm_compute.
  right. by exists [Failure (V4 1) 0; Failure (V4 1) 1], 20.
Defined.
