(* ===== verification/Greylist.v ===== *)
(** * The greylist of [crates/security/src/greylist.rs]

    Per-triplet deferral with a bounded table, the clock as an argument. *)
From S2P Require Import Prelude RustStr Net.

Record GreylistConfig := mkGreyConfig { delay : Z; pending_ttl : Z; pass_ttl : Z; max_entries : Z }.
Definition GreylistConfig_default : GreylistConfig :=
  mkGreyConfig (secs 60) (secs (6 * 60 * 60)) (secs (30 * 24 * 60 * 60)) 100000.

Inductive GreyDecision := Allow | Defer.
#[export] Instance GreyDecision_eq_dec : EqDecision GreyDecision.
Proof. solve_decision. Defined.

Notation Triplet := (IpAddr * str * str)%type (only parsing).
Record Entry := mkEntry { first_seen : Z; last_seen : Z; passed : bool }.
Notation Entries := (gmap (IpAddr * list Z * list Z) Entry) (only parsing).

(** [mask_ip]: the /24 or /64 network. *)
Definition mask_ip (ip : IpAddr) : IpAddr :=
  match ip with
  | V4 a => V4 (v4_new (v4_octet a 0) (v4_octet a 1) (v4_octet a 2) 0)
  | V6 a => V6 (v6_new (v6_segment a 0) (v6_segment a 1) (v6_segment a 2) (v6_segment a 3) 0 0 0 0)
  end.

Definition keep_entry (config : GreylistConfig) (now : Z) (e : Entry) : bool :=
  deadline_after (last_seen e) (if passed e then pass_ttl config else pending_ttl config) now.
Definition grey_prune (entries : Entries) (now : Z) (config : GreylistConfig) : Entries :=
  filter (λ ke, keep_entry config now ke.2 = true) entries.

(** [now.duration_since(first_seen).is_ok_and(|waited| waited >= delay)]. *)
Definition waited_enough (config : GreylistConfig) (e : Entry) (now : Z) : bool :=
  match duration_since now (first_seen e) with Some waited => delay config <=? waited | None => false end.

Definition grey_key (ip : IpAddr) (sender recipient : str) : Triplet :=
  (mask_ip ip, lowercase sender, lowercase recipient).

Definition grey_check_at (config : GreylistConfig) (entries0 : Entries) (ip : IpAddr)
    (sender recipient : str) (now : Z) : Entries * GreyDecision :=
  let key := grey_key ip sender recipient in
  let entries := grey_prune entries0 now config in
  match entries !! key with
  | Some entry =>
      if passed entry then
        (<[key := mkEntry (first_seen entry) now true]> entries, Allow)
      else if waited_enough config entry now then
        (<[key := mkEntry (first_seen entry) now true]> entries, Allow)
      else (<[key := mkEntry (first_seen entry) now false]> entries, Defer)
  | None =>
      if max_entries config <=? Z.of_nat (size entries) then (entries, Allow)
      else (<[key := mkEntry now now false]> entries, Defer)
  end.

Definition tracked (entries : Entries) : Z := Z.of_nat (size entries).

(** * Networks *)

Lemma v6_new_testbit s0 s1 s2 s3 s4 s5 s6 s7 n :
  0 ≤ n → Z.testbit (v6_new s0 s1 s2 s3 s4 s5 s6 s7) n =
  Z.testbit s0 (n - 112) || (Z.testbit s1 (n - 96) || (Z.testbit s2 (n - 80) ||
  (Z.testbit s3 (n - 64) || (Z.testbit s4 (n - 48) || (Z.testbit s5 (n - 32) ||
  (Z.testbit s6 (n - 16) || Z.testbit s7 n)))))).
Proof. intros. unfold v6_new. by rewrite !Z.lor_spec, !Z.shiftl_spec by lia. Qed.

(** The masked address keeps the network bits and clears the others. *)
Lemma mask_v4_testbit a n : 0 ≤ n →
  Z.testbit (v4_new (v4_octet a 0) (v4_octet a 1) (v4_octet a 2) 0) n =
  (8 <=? n) && (n <? 32) && Z.testbit a n.
Proof.
  intros Hn. rewrite v4_new_testbit, !octet_testbit, Z.testbit_0_l by lia.
  destruct (Z.leb_spec 8 n), (Z.ltb_spec n 32); simpl.
  all: repeat match goal with |- context [?x <=? ?y] => destruct (Z.leb_spec x y); try lia end.
  all: repeat match goal with |- context [?x <? ?y] => destruct (Z.ltb_spec x y); try lia end.
  all: simpl; rewrite ?orb_false_r; try done; f_equal; lia.
Qed.

Lemma mask_v6_testbit a n : 0 ≤ n →
  Z.testbit (v6_new (v6_segment a 0) (v6_segment a 1) (v6_segment a 2) (v6_segment a 3) 0 0 0 0) n =
  (64 <=? n) && (n <? 128) && Z.testbit a n.
Proof.
  intros Hn. rewrite v6_new_testbit, !segment_testbit, !Z.testbit_0_l by lia.
  destruct (Z.leb_spec 64 n), (Z.ltb_spec n 128); simpl.
  all: repeat match goal with |- context [?x <=? ?y] => destruct (Z.leb_spec x y); try lia end.
  all: repeat match goal with |- context [?x <? ?y] => destruct (Z.ltb_spec x y); try lia end.
  all: simpl; rewrite ?orb_false_r; try done; f_equal; lia.
Qed.

Lemma clear_low_testbit a k w n : 0 ≤ k → 0 ≤ a < 2 ^ w → 0 ≤ w → 0 ≤ n →
  Z.testbit (Z.shiftl (Z.shiftr a k) k) n = (k <=? n) && (n <? w) && Z.testbit a n.
Proof.
  intros Hk Ha Hw Hn. destruct (Z.leb_spec k n).
  - rewrite Z.shiftl_spec, Z.shiftr_spec by lia. replace (n - k + k) with n by lia.
    destruct (Z.ltb_spec n w); simpl; [done|].
    destruct (decide (a = 0)) as [->|]; [apply Z.testbit_0_l|].
    apply Z.bits_above_log2; [lia|]. apply Z.log2_lt_pow2; [lia|].
    eapply Z.lt_le_trans; [apply Ha|]. apply Z.pow_le_mono_r; lia.
  - rewrite Z.shiftl_spec_low by lia. done.
Qed.

Lemma mask_v4 a : 0 ≤ a < 2 ^ 32 → mask_ip (V4 a) = V4 (Z.shiftl (Z.shiftr a 8) 8).
Proof.
  intros Ha. unfold mask_ip. f_equal. apply Z.bits_inj'. intros n Hn.
  by rewrite mask_v4_testbit, (clear_low_testbit a 8 32) by lia.
Qed.

Lemma mask_v6 a : 0 ≤ a < 2 ^ 128 → mask_ip (V6 a) = V6 (Z.shiftl (Z.shiftr a 64) 64).
Proof.
  intros Ha. unfold mask_ip. f_equal. apply Z.bits_inj'. intros n Hn.
  by rewrite mask_v6_testbit, (clear_low_testbit a 64 128) by lia.
Qed.

Lemma shiftl_shiftr_inj a b k : 0 ≤ k →
  Z.shiftl (Z.shiftr a k) k = Z.shiftl (Z.shiftr b k) k ↔ a / 2 ^ k = b / 2 ^ k.
Proof.
  intros Hk. rewrite !Z.shiftr_div_pow2, !Z.shiftl_mul_pow2 by done.
  assert (2 ^ k ≠ 0) by (apply Z.pow_nonzero; lia). split; [|by intros ->].
  intros E. by apply Z.mul_reg_r in E.
Qed.

(** Two senders share greylisting state exactly when their addresses are of
    one family and in the same /24 (IPv4) or /64 (IPv6) network, and their
    envelope addresses are equal up to ASCII case. *)
Theorem grey_key_network (ip ip' : IpAddr) (s r s' r' : str) :
  ip_wf ip → ip_wf ip' →
  grey_key ip s r = grey_key ip' s' r' ↔
  match ip, ip' with
  | V4 a, V4 b => a / 2 ^ 8 = b / 2 ^ 8
  | V6 a, V6 b => a / 2 ^ 64 = b / 2 ^ 64
  | _, _ => False
  end ∧ lowercase s = lowercase s' ∧ lowercase r = lowercase r'.
Proof.
  intros H1 H2. unfold grey_key. destruct ip as [a|a], ip' as [b|b]; simpl in H1, H2.
  - rewrite !mask_v4 by done. rewrite <-shiftl_shiftr_inj by lia.
    split; [by intros [= ? ? ?]|by intros (-> & -> & ->)].
  - split; [done|]. by intros [[] _].
  - split; [done|]. by intros [[] _].
  - rewrite !mask_v6 by done. rewrite <-shiftl_shiftr_inj by lia.
    split; [by intros [= ? ? ?]|by intros (-> & -> & ->)].
Qed.

Lemma grey_key_network_witness :
  grey_key (V4 3232235777) (lit "A@b") (lit "c@d") = grey_key (V4 3232235778) (lit "a@B") (lit "C@d") ↔
  3232235777 / 2 ^ 8 = 3232235778 / 2 ^ 8 ∧
  lowercase (lit "A@b") = lowercase (lit "a@B") ∧ lowercase (lit "c@d") = lowercase (lit "C@d").
Proof.
  apply (grey_key_network (V4 3232235777) (V4 3232235778) (lit "A@b") (lit "c@d") (lit "a@B") (lit "C@d"));
    simpl; lia.
Defined.

(** * Runs *)

Record grey_event := mkGrey { ge_ip : IpAddr; ge_sender : str; ge_rcpt : str; ge_time : Z }.
Definition ge_key (e : grey_event) : Triplet := grey_key (ge_ip e) (ge_sender e) (ge_rcpt e).
Definition grey_exec (config : GreylistConfig) (entries : Entries) (e : grey_event) : Entries :=
  (grey_check_at config entries (ge_ip e) (ge_sender e) (ge_rcpt e) (ge_time e)).1.

Lemma grey_prune_size config now entries : (size (grey_prune entries now config) ≤ size entries)%nat.
Proof. apply map_subseteq_size, map_filter_subseteq. Qed.

Lemma size_insert_le {K A} `{Countable K} (m : gmap K A) k x : (size (<[k := x]> m) ≤ S (size m))%nat.
Proof. rewrite map_size_insert. destruct (m !! k); simpl; lia. Qed.

Lemma size_insert_in {K A} `{Countable K} (m : gmap K A) k x y :
  m !! k = Some y → size (<[k := x]> m) = size m.
Proof. intros Hk. rewrite map_size_insert, Hk. done. Qed.

(** The table is bounded: whatever arrives, it never tracks more than
    [max_entries] triplets. *)
Theorem grey_bounded (config : GreylistConfig) (es : list grey_event) :
  tracked (foldl (grey_exec config) ∅ es) ≤ Z.max 0 (max_entries config).
Proof.
  induction es as [|e es IH] using rev_ind; [unfold tracked; simpl; rewrite map_size_empty; lia|].
  rewrite foldl_app. simpl. set (m := foldl _ _ es) in *. unfold grey_exec, grey_check_at, tracked in *.
  pose proof (grey_prune_size config (ge_time e) m).
  set (p := grey_prune m (ge_time e) config) in *. destruct (p !! _) as [x|] eqn:E.
  - repeat case_code; simpl; rewrite (size_insert_in _ _ _ _ E); lia.
  - case_code; simpl; [lia|]. bsimp.
    pose proof (size_insert_le p (grey_key (ge_ip e) (ge_sender e) (ge_rcpt e)) (mkEntry (ge_time e) (ge_time e) false)). lia.
Qed.

(** Checks in clock order, up to [now]. *)
Fixpoint grey_ordered (t0 : Z) (es : list grey_event) (now : Z) : Prop :=
  match es with
  | [] => t0 ≤ now
  | e :: es => t0 ≤ ge_time e ∧ grey_ordered (ge_time e) es now
  end.

(** What an entry of the table testifies to. *)
Definition grey_inv (config : GreylistConfig) (past : list grey_event) (now : Z) (entries : Entries) : Prop :=
  ∀ key e, entries !! key = Some e →
    first_seen e ≤ last_seen e ≤ now ∧
    (∃ ev, ev ∈ past ∧ ge_key ev = key ∧ ge_time ev = first_seen e) ∧
    (passed e = true → delay config ≤ last_seen e - first_seen e).

Lemma grey_inv_later config past past' now now' entries :
  now ≤ now' → past ⊆ past' → grey_inv config past now entries → grey_inv config past' now' entries.
Proof.
  intros Hn Hp Hi key e He. destruct (Hi key e He) as (? & (ev & ? & ? & ?) & ?).
  split_and!; [lia|lia| |done]. exists ev. split_and!; [by apply Hp|done..].
Qed.

Lemma grey_prune_Some config now entries key e :
  grey_prune entries now config !! key = Some e ↔ entries !! key = Some e ∧ keep_entry config now e = true.
Proof. unfold grey_prune. rewrite map_lookup_filter_Some. done. Qed.

Lemma grey_inv_insert config past now entries key e :
  grey_inv config past now entries →
  first_seen e ≤ last_seen e ≤ now →
  (∃ ev, ev ∈ past ∧ ge_key ev = key ∧ ge_time ev = first_seen e) →
  (passed e = true → delay config ≤ last_seen e - first_seen e) →
  grey_inv config past now (<[key := e]> entries).
Proof. intros Hi ? ? ? k e' [[<- <-]|[? He]]%lookup_insert_Some; eauto. Qed.

Lemma waited_enough_true config e now :
  waited_enough config e now = true ↔ first_seen e ≤ now ∧ delay config ≤ now - first_seen e.
Proof.
  unfold waited_enough, duration_since. destruct (Z.leb_spec (first_seen e) now); [rewrite Z.leb_le|]; naive_solver lia.
Qed.

Lemma grey_inv_exec config past now entries ev :
  now ≤ ge_time ev → grey_inv config past now entries →
  grey_inv config (past ++ [ev]) (ge_time ev) (grey_exec config entries ev).
Proof.
  intros Hle Hi. unfold grey_exec, grey_check_at.
  assert (grey_inv config (past ++ [ev]) (ge_time ev) (grey_prune entries (ge_time ev) config)) as Hp.
  { intros key e [He _]%grey_prune_Some. revert key e He. change (grey_inv config (past ++ [ev]) (ge_time ev) entries).
    eapply grey_inv_later; [done| |done]. set_solver. }
  fold (ge_key ev). destruct (grey_prune _ _ _ !! ge_key ev) as [e|] eqn:E.
  - destruct (Hp _ _ E) as (? & ? & Hpass).
    destruct (passed e) eqn:Epass; [|destruct (waited_enough config e (ge_time ev)) eqn:Ew].
    + apply grey_inv_insert; simpl; try done; [lia|]. intros _. specialize (Hpass eq_refl). lia.
    + apply waited_enough_true in Ew. apply grey_inv_insert; simpl; try done; lia.
    + apply grey_inv_insert; simpl; try done; lia.
  - case_code; simpl; [done|]. apply grey_inv_insert; simpl; try done.
    exists ev. set_solver.
Qed.

Lemma grey_inv_run config past t0 entries es now :
  grey_ordered t0 es now → grey_inv config past t0 entries →
  grey_inv config (past ++ es) now (foldl (grey_exec config) entries es).
Proof.
  revert past t0 entries. induction es as [|ev es IH]; intros past t0 entries Ho Hi.
  - rewrite app_nil_r. eapply grey_inv_later; done.
  - destruct Ho as [H1 H2]. simpl. rewrite cons_middle, app_assoc.
    eapply IH; [done|]. by eapply grey_inv_exec.
Qed.

(** Greylisting is sound: under a clock that does not run backwards, a
    delivery is allowed only if the same triplet (network, sender, recipient) was
    first tried at least [delay] earlier, or the table is full and does not hold
    the triplet; in particular a first contact with room in the table is
    deferred. *)
Theorem grey_allow_sound (config : GreylistConfig) (t0 : Z) (es : list grey_event) (ev : grey_event) :
  grey_ordered t0 es (ge_time ev) →
  let entries := foldl (grey_exec config) ∅ es in
  (grey_check_at config entries (ge_ip ev) (ge_sender ev) (ge_rcpt ev) (ge_time ev)).2 = Allow →
  (∃ ev0, ev0 ∈ es ∧ ge_key ev0 = ge_key ev ∧ delay config ≤ ge_time ev - ge_time ev0) ∨
  (max_entries config ≤ tracked entries ∧ grey_prune entries (ge_time ev) config !! ge_key ev = None).
Proof.
  intros Ho entries. unfold grey_check_at. fold (ge_key ev).
  assert (grey_inv config es (ge_time ev) entries) as Hi.
  { apply (grey_inv_run config [] t0 ∅ es (ge_time ev) Ho). intros key e He. by rewrite lookup_empty in He. }
  destruct (grey_prune _ _ _ !! ge_key ev) as [e|] eqn:E.
  - pose proof E as [He _]%grey_prune_Some. destruct (Hi _ _ He) as (Ht & (ev0 & Hin & Hk & Hf) & Hpass).
    intros Hd. left. exists ev0. split_and!; [done..|].
    destruct (passed e) eqn:Epass; [specialize (Hpass eq_refl); lia|].
    destruct (waited_enough config e (ge_time ev)) eqn:Ew; [|done]. apply waited_enough_true in Ew. lia.
  - case_code; simpl; [|done]. bsimp. intros _. right. split; [|done].
    pose proof (grey_prune_size config (ge_time ev) entries). unfold tracked. lia.
Qed.

Lemma grey_allow_sound_witness :
  let cfg := mkGreyConfig 60 1000 1000 10 in
  let ev0 := mkGrey (V4 1) (lit "a@b") (lit "c@d") 0 in
  let ev := mkGrey (V4 2) (lit "A@b") (lit "c@d") 100 in
  (∃ ev0', ev0' ∈ [ev0] ∧ ge_key ev0' = ge_key ev ∧ delay cfg ≤ ge_time ev - ge_time ev0') ∨
  (max_entries cfg ≤ tracked (foldl (grey_exec cfg) ∅ [ev0]) ∧
   grey_prune (foldl (grey_exec cfg) ∅ [ev0]) (ge_time ev) cfg !! ge_key ev = None).
Proof.
  intros cfg ev0 ev. apply (grey_allow_sound cfg 0 [ev0] ev); [simpl; lia|by vm_compute].
Defined.

(** ** Retries *)

(** The triplet is on record since at most [T]. *)
Definition on_record (T now : Z) (key : Triplet) (entries : Entries) : Prop :=
  ∃ e, entries !! key = Some e ∧ first_seen e ≤ T ∧ T ≤ last_seen e ≤ now.

Lemma on_record_kept config T now t key entries :
  on_record T now key entries → now ≤ t → t < T + pending_ttl config →
  pending_ttl config ≤ pass_ttl config → t + pass_ttl config ≤ SYSTIME_MAX →
  on_record T now key (grey_prune entries t config).
Proof.
  intros (e & He & Hf & Hl) Hnow Ht Hp Hm. exists e. split; [|done]. apply grey_prune_Some. split; [done|].
  apply deadline_after_true. destruct (passed e); lia.
Qed.

Lemma on_record_exec config T now key entries ev :
  on_record T now key entries → now ≤ ge_time ev → ge_time ev < T + pending_ttl config →
  pending_ttl config ≤ pass_ttl config → ge_time ev + pass_ttl config ≤ SYSTIME_MAX →
  on_record T (ge_time ev) key (grey_exec config entries ev).
Proof.
  intros Hr Hn Ht Hp Hm. unfold grey_exec, grey_check_at. fold (ge_key ev).
  destruct (on_record_kept config T now (ge_time ev) key entries Hr Hn Ht Hp Hm) as (e & He & Hf & Hl).
  destruct (decide (ge_key ev = key)) as [<-|Hne].
  - rewrite He. repeat case_code; (eexists; simpl; rewrite lookup_insert_eq; split; [done|simpl; lia]).
  - repeat case_code; (exists e; simpl; rewrite ?lookup_insert_ne by done; split; [done|simpl; lia]).
Qed.

Lemma on_record_run config T now key entries es last :
  on_record T now key entries → grey_ordered now es last → last < T + pending_ttl config →
  pending_ttl config ≤ pass_ttl config → last + pass_ttl config ≤ SYSTIME_MAX →
  on_record T last key (foldl (grey_exec config) entries es).
Proof.
  revert now entries. induction es as [|ev es IH]; intros now entries Hr Ho Ht Hp Hm.
  - destruct Hr as (e & ? & ? & ?). simpl in *. exists e. split; [done|lia].
  - destruct Ho as [H1 H2]. simpl.
    assert (ge_time ev ≤ last) as Hle.
    { clear -H2. revert H2. generalize (ge_time ev). induction es as [|x es IHe]; intros z; simpl; [done|].
      intros [? H]. apply IHe in H. lia. }
    eapply IH; [|done..]. eapply on_record_exec; [done|lia..].
Qed.

(** A well-behaved sender gets through: after a deferred attempt, a retry of
    the triplet (from the same network, addresses compared without case) that
    comes at least [delay] and less than [pending_ttl] later is allowed,
    whatever other attempts were made in between. *)
Theorem grey_retry_allowed (config : GreylistConfig) (entries : Entries) (ev0 ev : grey_event)
    (mid : list grey_event) :
  (grey_check_at config entries (ge_ip ev0) (ge_sender ev0) (ge_rcpt ev0) (ge_time ev0)).2 = Defer →
  (∀ e, entries !! ge_key ev0 = Some e → first_seen e ≤ ge_time ev0) →
  ge_key ev = ge_key ev0 → grey_ordered (ge_time ev0) mid (ge_time ev) →
  delay config ≤ ge_time ev - ge_time ev0 → ge_time ev < ge_time ev0 + pending_ttl config →
  pending_ttl config ≤ pass_ttl config → ge_time ev + pass_ttl config ≤ SYSTIME_MAX → 0 ≤ delay config →
  (grey_check_at config (foldl (grey_exec config) (grey_exec config entries ev0) mid)
     (ge_ip ev) (ge_sender ev) (ge_rcpt ev) (ge_time ev)).2 = Allow.
Proof.
  intros Hd Hf Hk Ho Hdel Ht Hp Hm H0.
  assert (on_record (ge_time ev0) (ge_time ev0) (ge_key ev0) (grey_exec config entries ev0)) as Hr.
  { unfold grey_exec, grey_check_at in *. fold (ge_key ev0) in *.
    destruct (grey_prune entries (ge_time ev0) config !! ge_key ev0) as [e|] eqn:E.
    - apply grey_prune_Some in E as [He _]. repeat case_code_in Hd; try done.
      eexists. simpl. rewrite lookup_insert_eq. split; [done|]. simpl. specialize (Hf e He). lia.
    - case_code_in Hd; [done|]. eexists. simpl. rewrite lookup_insert_eq. split; [done|simpl; lia]. }
  pose proof (on_record_run config _ _ _ _ mid (ge_time ev) Hr Ho Ht Hp Hm) as Hr'.
  destruct (on_record_kept config _ _ (ge_time ev) _ _ Hr' ltac:(lia) Ht Hp Hm) as (e & He & Hfe & Hle).
  unfold grey_check_at. fold (ge_key ev). rewrite Hk, He. destruct (passed e); [done|].
  by rewrite (proj2 (waited_enough_true config e (ge_time ev))) by lia.
Qed.

Lemma grey_retry_allowed_witness :
  let cfg := mkGreyConfig 60 1000 1000 10 in
  let ev0 := mkGrey (V4 1) (lit "a@b") (lit "c@d") 0 in
  let ev := mkGrey (V4 2) (lit "A@b") (lit "c@d") 100 in
  (grey_check_at cfg (foldl (grey_exec cfg) (grey_exec cfg ∅ ev0) [mkGrey (V6 1) [] [] 50])
     (ge_ip ev) (ge_sender ev) (ge_rcpt ev) (ge_time ev)).2 = Allow.
Proof.
  intros cfg ev0 ev.
  apply (grey_retry_allowed cfg ∅ ev0 ev [mkGrey (V6 1) [] [] 50]); try (simpl; lia); try by vm_compute.
Defined.
