(* ===== verification/AuditTrail.v ===== *)
(** * Audit events, the recent ring and the hash-chained file

    [crates/security/src/audit]: event encoding, the bounded ring of
    [AuditLog], and [DurableAuditSink], whose file is the text it holds.  Blake2b
    is third-party code, the argument [digest] of the chain functions. *)
From S2P Require Import Prelude RustStr Net.

Inductive AuditEvent :=
  | AuthSuccess (user : str)
  | AuthFailure (user : str) (ip : IpAddr)
  | Blocked (ip : IpAddr) (reason : str)
  | RateLimitedEvent (ip : IpAddr)
  | FirewallPaused
  | FirewallResumed.

Definition audit_sanitize (s : str) : str :=
  replace_chars (λ c, (c =? HT) || (c =? LF) || (c =? CR)) (lit " ") s.

Definition encode (e : AuditEvent) : str :=
  match e with
  | AuthSuccess user => lit "auth_success user=" ++ audit_sanitize user
  | AuthFailure user ip => lit "auth_failure user=" ++ audit_sanitize user ++ lit " ip=" ++ ip_to_string ip
  | Blocked ip reason => lit "blocked ip=" ++ ip_to_string ip ++ lit " reason=" ++ audit_sanitize reason
  | RateLimitedEvent ip => lit "rate_limited ip=" ++ ip_to_string ip
  | FirewallPaused => lit "firewall_paused"
  | FirewallResumed => lit "firewall_resumed"
  end.

(** ** The chain *)

Inductive ChainStatus := Valid (records : Z) | BrokenAt (line : Z).

(** The open file with the chain tip. *)
Record SinkState := mkSink { sk_file : str; sk_prev_hash : str; sk_seq : Z }.

Section sink.
(** Blake2b512. *)
Variable digest : bytes → bytes.

(** [{b:02x}]. *)
Definition hex_byte (b : byte) : str := [hex_digit (b / 16 mod 16); hex_digit (b mod 16)].
Definition chain_hash (prev_hash_hex payload : str) : str :=
  digest (utf8_encode prev_hash_hex ++ [LF] ++ utf8_encode payload) ≫= hex_byte.

(** [s.parse::<u64>()] of the first field of the payload. *)
Definition payload_seq (payload : str) : option Z :=
  f ← head (split_char HT payload); parse_uint U64_MAX f.

Definition tip (text : str) : str * Z :=
  foldl (λ '(prev, seq) line,
           match rsplit_once HT line with
           | Some (payload, hash) =>
               (hash, match payload_seq payload with Some s => add_u64 s 1 | None => seq end)
           | None => (prev, seq)
           end) ([], 0) (lines text).

(** [open]: [None] when the file does not exist. *)
Definition sink_open (existing : option str) : SinkState :=
  match existing with
  | Some text => let '(prev, seq) := tip text in mkSink text prev seq
  | None => mkSink [] [] 0
  end.

(** What [append] writes for the next record. *)
Definition record_payload (seq ts : Z) (event : AuditEvent) : str :=
  show seq ++ [HT] ++ show ts ++ [HT] ++ encode event.

(** The write either completes with its sync, or fails after some characters. *)
Inductive io_outcome := IoDone | IoFailed (written : nat).

Definition sink_append (st : SinkState) (ts : Z) (event : AuditEvent) (io : io_outcome) : SinkState * bool :=
  let payload := record_payload (sk_seq st) ts event in
  let hash := chain_hash (sk_prev_hash st) payload in
  let line := payload ++ [HT] ++ hash ++ [LF] in
  match io with
  | IoDone => (mkSink (sk_file st ++ line) hash (add_u64 (sk_seq st) 1), true)
  | IoFailed n => (mkSink (sk_file st ++ take n line) (sk_prev_hash st) (sk_seq st), false)
  end.

(** The loop of [verify]. *)
Fixpoint verify_lines (i : Z) (prev : str) (ls : list str) : ChainStatus :=
  match ls with
  | [] => Valid i
  | line :: ls =>
      match rsplit_once HT line with
      | None => BrokenAt i
      | Some (payload, hash) =>
          if negb (chain_hash prev payload =s? hash) then BrokenAt i
          else verify_lines (i + 1) hash ls
      end
  end.
Definition sink_verify (file : option str) : ChainStatus :=
  match file with
  | None => Valid 0
  | Some text => verify_lines 0 [] (lines text)
  end.
End sink.

(** ** The log *)

Record AuditLog := mkAuditLog { al_capacity : Z; al_recent : list AuditEvent; al_sink : option SinkState }.
Definition AuditLog_new (capacity : Z) (sink : option SinkState) : AuditLog :=
  mkAuditLog (Z.max capacity 1) [] sink.

(** What is configured; [open] is [DurableAuditSink::open] on the path, [None] if it fails:
    the log then keeps events in memory only. *)
Record AuditConfig := mkAuditConfig { ac_capacity : Z; ac_sink_path : option str }.
Definition AuditConfig_default : AuditConfig := mkAuditConfig 1024 None.
Definition AuditLog_from (open : str → option SinkState) (config : AuditConfig) : AuditLog :=
  AuditLog_new (ac_capacity config) (ac_sink_path config ≫= open).

Definition audit_len (l : AuditLog) : Z := len (al_recent l).
Definition audit_is_empty (l : AuditLog) : bool := bool_decide (al_recent l = []).

(** A bounded ring: drop the oldest entry at capacity, then push. *)
Definition ring_push {X} (capacity : Z) (ring : list X) (x : X) : list X :=
  (if len ring =? capacity then tail ring else ring) ++ [x].

Definition audit_record (digest : bytes → bytes) (l : AuditLog) (ts : Z) (event : AuditEvent)
    (io : io_outcome) : AuditLog :=
  mkAuditLog (al_capacity l) (ring_push (al_capacity l) (al_recent l) event)
    ((λ sk, (sink_append digest sk ts event io).1) <$> al_sink l).

(** * Records are single lines *)

(** Free of the separators of the file format. *)
Definition framed (s : str) : Prop := HT ∉ s ∧ LF ∉ s ∧ CR ∉ s.

Lemma framed_app a b : framed a → framed b → framed (a ++ b).
Proof. unfold framed. set_solver. Qed.

Lemma framed_forall (P : char → Prop) s :
  Forall P s → (∀ c, P c → c ≠ HT ∧ c ≠ LF ∧ c ≠ CR) → framed s.
Proof.
  rewrite Forall_forall. intros HF HP.
  split_and!; intros Hin; apply HF, HP in Hin; naive_solver.
Qed.

Lemma framed_lit s :
  forallb (λ c, negb ((c =? HT) || (c =? LF) || (c =? CR))) s = true → framed s.
Proof.
  intros Hs. apply (framed_forall (λ c, negb ((c =? HT) || (c =? LF) || (c =? CR)) = true)).
  - rewrite forallb_forall in Hs. apply Forall_forall. intros x Hx. apply Hs. by apply list_elem_of_In.
  - intros c Hc. bsimp. done.
Qed.

Lemma framed_sanitize s : framed (audit_sanitize s).
Proof.
  unfold audit_sanitize, replace_chars.
  split_and!; intros (c & Hc & _)%list_elem_of_bind; case_code_in Hc; bsimp;
    apply list_elem_of_singleton in Hc; subst; done.
Qed.

Lemma framed_ip ip : framed (ip_to_string ip).
Proof.
  eapply framed_forall; [apply ip_to_string_addr|]. intros c Hc.
  unfold is_addr_char, is_ascii_digit, HT, LF, CR, DOT, COLON in *. lia.
Qed.

Lemma framed_show n : 0 ≤ n → framed (show n).
Proof.
  intros Hn. eapply framed_forall; [by apply show_digits|]. intros c Hc.
  unfold is_ascii_digit, HT, LF, CR in *. lia.
Qed.

Lemma framed_encode e : framed (encode e).
Proof.
  destruct e; unfold encode; repeat match goal with |- framed (_ ++ _) => apply framed_app end;
    first [apply framed_sanitize|apply framed_ip|apply framed_lit; by vm_compute].
Qed.

(** An encoded audit event is always one framed line: whatever user name,
    reason or address it carries, the encoding has no tab, line feed or carriage
    return, so it cannot forge a field or a record of the chain file. *)
Theorem encode_framed (e : AuditEvent) : framed (encode e).
Proof. apply framed_encode. Qed.

Section chain.
Variable digest : bytes → bytes.

Lemma framed_hash prev payload : framed (chain_hash digest prev payload).
Proof.
  unfold chain_hash. apply (framed_forall (λ c, is_addr_char c = true)).
  - apply Forall_forall. intros c (b & Hc & _)%list_elem_of_bind.
    assert (∀ d, 0 ≤ d < 16 → is_addr_char (hex_digit d) = true) as Hd.
    { intros d Hd. unfold is_addr_char, hex_digit, is_ascii_digit. destruct (Z.ltb_spec d 10); lia. }
    unfold hex_byte in Hc. apply elem_of_cons in Hc as [->|Hc%list_elem_of_singleton]; [|subst];
      apply Hd, Z.mod_pos_bound; lia.
  - intros c Hc. unfold is_addr_char, is_ascii_digit, HT, LF, CR, DOT, COLON in *. lia.
Qed.

(** The lines and the tip of a file that holds the given events. *)
Fixpoint render (i : Z) (prev : str) (evs : list (Z * AuditEvent)) : list str * str :=
  match evs with
  | [] => ([], prev)
  | (ts, ev) :: evs =>
      let payload := record_payload i ts ev in
      let hash := chain_hash digest prev payload in
      let '(ls, p) := render (i + 1) hash evs in ((payload ++ [HT] ++ hash) :: ls, p)
  end.

Definition evs_ok (evs : list (Z * AuditEvent)) : Prop := Forall (λ te, 0 ≤ te.1) evs.

Lemma render_snoc i prev evs ts ev :
  render i prev (evs ++ [(ts, ev)]) =
  let '(ls, p) := render i prev evs in
  let payload := record_payload (i + len evs) ts ev in
  (ls ++ [payload ++ [HT] ++ chain_hash digest p payload], chain_hash digest p payload).
Proof.
  revert i prev. induction evs as [|[t e] evs IH]; intros i prev; simpl.
  - rewrite len_nil. by replace (i + 0) with i by lia.
  - rewrite IH, len_cons. destruct (render (i + 1) _ evs) as [ls p].
    by replace (i + 1 + len evs) with (i + (1 + len evs)) by lia.
Qed.

Lemma payload_no_lf i ts ev : 0 ≤ i → 0 ≤ ts → LF ∉ record_payload i ts ev.
Proof.
  intros Hi Hts. unfold record_payload.
  destruct (framed_show i Hi) as (_ & ? & _), (framed_show ts Hts) as (_ & ? & _),
    (framed_encode ev) as (_ & ? & _).
  rewrite !elem_of_app, !list_elem_of_singleton. intros [?|[?|[?|[?|?]]]]; done.
Qed.

Lemma payload_seq_record i ts ev : 0 ≤ i ≤ U64_MAX → payload_seq (record_payload i ts ev) = Some i.
Proof.
  intros Hi. unfold payload_seq, record_payload. simpl app.
  destruct (framed_show i) as (? & _ & _); [lia|].
  rewrite split_char_app, split_char_none by done. simpl. apply parse_uint_show. lia.
Qed.

(** A line of the file, and its parts. *)
Lemma line_parts payload prev :
  rsplit_once HT (payload ++ [HT] ++ chain_hash digest prev payload) =
  Some (payload, chain_hash digest prev payload).
Proof. apply rsplit_once_app. apply framed_hash. Qed.

Lemma line_framing i ts ev prev :
  0 ≤ i → 0 ≤ ts →
  let l := record_payload i ts ev ++ [HT] ++ chain_hash digest prev (record_payload i ts ev) in
  LF ∉ l ∧ strip_suffix [CR] l = None.
Proof.
  intros Hi Hts l. destruct (framed_hash prev (record_payload i ts ev)) as (_ & Hlf & Hcr).
  pose proof (payload_no_lf i ts ev Hi Hts) as Hp. subst l. split.
  - rewrite !elem_of_app, list_elem_of_singleton. intros [?|[?|?]]; done.
  - apply strip_suffix_None. intros r Hr.
    destruct (chain_hash digest prev (record_payload i ts ev)) as [|c h] eqn:E using rev_ind.
    + change ([HT] ++ []) with [HT] in Hr. apply app_inj_tail in Hr as [_ ?]. done.
    + rewrite !app_assoc in Hr. apply app_inj_tail in Hr as [_ ->]. destruct Hcr. set_solver.
Qed.

Lemma render_framing i prev evs :
  0 ≤ i → evs_ok evs → Forall (λ l, LF ∉ l ∧ strip_suffix [CR] l = None) (render i prev evs).1.
Proof.
  intros Hi HF. revert i prev Hi. induction HF as [|[ts ev] evs Hts _ IH]; intros i prev Hi; simpl; [done|].
  pose proof (IH (i + 1) (chain_hash digest prev (record_payload i ts ev)) ltac:(lia)) as IH'.
  destruct (render (i + 1) _ evs) as [ls p]. simpl in *. constructor; [|done]. by apply line_framing.
Qed.

Lemma render_verify i prev evs :
  verify_lines digest i prev (render i prev evs).1 = Valid (i + len evs).
Proof.
  revert i prev. induction evs as [|[ts ev] evs IH]; intros i prev; cbn [render].
  - rewrite len_nil. cbn [verify_lines fst]. f_equal. lia.
  - pose proof (IH (i + 1) (chain_hash digest prev (record_payload i ts ev))) as IH'.
    destruct (render (i + 1) _ evs) as [ls p]. cbn [fst] in *. cbn [verify_lines].
    rewrite line_parts, str_eqb_refl. simpl. rewrite IH', len_cons. f_equal. lia.
Qed.

Lemma render_tip evs :
  len evs ≤ U64_MAX → evs_ok evs →
  tip ((render 0 [] evs).1 ≫= λ l, l ++ [LF]) = ((render 0 [] evs).2, add_u64 (len evs) 0).
Proof.
  intros Hlen Hok. unfold tip. rewrite lines_lf by (by apply render_framing).
  induction evs as [|[ts ev] evs IH] using rev_ind; [done|].
  autorewrite with len in Hlen. apply Forall_app in Hok as [Hok _]. pose proof (len_nonneg evs).
  rewrite render_snoc. destruct (render 0 [] evs) as [ls p]. cbn [fst snd] in *.
  rewrite foldl_app, IH by (done || lia). cbn [foldl].
  rewrite line_parts, payload_seq_record by lia. f_equal.
  autorewrite with len. unfold add_u64. f_equal. lia.
Qed.

(** The state of a sink whose file holds [evs]. *)
Definition sink_holds (st : SinkState) (evs : list (Z * AuditEvent)) : Prop :=
  sk_file st = ((render 0 [] evs).1 ≫= λ l, l ++ [LF]) ∧
  sk_prev_hash st = (render 0 [] evs).2 ∧ sk_seq st = len evs.

Inductive sink_op := SinkAppend (ts : Z) (ev : AuditEvent) | SinkReopen.
Definition sink_exec (st : SinkState) (o : sink_op) : SinkState :=
  match o with
  | SinkAppend ts ev => (sink_append digest st ts ev IoDone).1
  | SinkReopen => sink_open (Some (sk_file st))
  end.
Definition appended_events (os : list sink_op) : list (Z * AuditEvent) :=
  os ≫= λ o, match o with SinkAppend ts ev => [(ts, ev)] | SinkReopen => [] end.

Lemma sink_holds_exec st evs o :
  sink_holds st evs → evs_ok evs → len evs < U64_MAX →
  sink_holds (sink_exec st o) (evs ++ appended_events [o]).
Proof.
  intros (Hf & Hp & Hs) Hok Hlen. pose proof (len_nonneg evs). destruct o as [ts ev|]; simpl.
  - unfold sink_holds. rewrite render_snoc. destruct (render 0 [] evs) as [ls p]. simpl in *.
    rewrite Hf, Hp, Hs. split_and!.
    + rewrite bind_app. simpl. by rewrite app_nil_r, <-!app_assoc.
    + done.
    + rewrite add_u64_small by lia. len_lia.
  - rewrite app_nil_r, Hf, render_tip by (done || lia).
    split_and!; [done..|]. simpl. rewrite add_u64_small; lia.
Qed.

Lemma appended_events_cons o os : appended_events (o :: os) = appended_events [o] ++ appended_events os.
Proof. unfold appended_events. by rewrite <-bind_app. Qed.

Lemma sink_holds_run os st evs :
  sink_holds st evs → evs_ok (evs ++ appended_events os) → len (evs ++ appended_events os) < U64_MAX →
  sink_holds (foldl sink_exec st os) (evs ++ appended_events os).
Proof.
  revert st evs. induction os as [|o os IH]; intros st evs Hh; [by rewrite app_nil_r|].
  rewrite appended_events_cons, app_assoc. intros Hok Hlen. cbn [foldl].
  apply IH; [|done..]. apply Forall_app in Hok as [Hok _]. apply Forall_app in Hok as [Hok _].
  autorewrite with len in Hlen.
  pose proof (len_nonneg (appended_events os)). pose proof (len_nonneg (appended_events [o])).
  apply sink_holds_exec; [done..|lia].
Qed.

(** The audit chain is continuous: any number of appends, with the process
    restarted and the file reopened anywhere in between, leaves a file that
    verifies with exactly the records appended, and the recovered tip continues
    the chain. *)
Theorem sink_chain_valid (os : list sink_op) :
  evs_ok (appended_events os) → len (appended_events os) < U64_MAX →
  sink_verify digest (Some (sk_file (foldl sink_exec (sink_open None) os))) = Valid (len (appended_events os)) ∧
  sink_open (Some (sk_file (foldl sink_exec (sink_open None) os))) = foldl sink_exec (sink_open None) os.
Proof.
  intros Hok Hlen.
  destruct (sink_holds_run os (sink_open None) []) as (Hf & Hp & Hs); [done|done|done|]. simpl app in *.
  set (st := foldl sink_exec (sink_open None) os) in *. rewrite Hf. split.
  - simpl. rewrite lines_lf by (by apply render_framing). apply render_verify.
  - simpl. rewrite render_tip by (done || lia). destruct st as [f p s]; simpl in *. subst.
    f_equal. rewrite add_u64_small; pose proof (len_nonneg (appended_events os)); lia.
Qed.
End chain.

Lemma sink_chain_valid_witness :
  let os := [SinkAppend 5 FirewallPaused; SinkReopen; SinkAppend 6 (RateLimitedEvent (V4 1))] in
  sink_verify id (Some (sk_file (foldl (sink_exec id) (sink_open None) os))) = Valid 2.
Proof.
  intros os. apply (sink_chain_valid id os); [|by vm_compute].
  repeat (apply Forall_cons; split; [simpl; lia|]). done.
Defined.

(** * Tampering *)

Section tamper.
Variable digest : bytes → bytes.

(** The chain tip after some lines. *)
Definition line_hash (prev line : str) : str :=
  match rsplit_once HT line with Some (_, h) => h | None => prev end.
Definition chain_tip (ls : list str) : str := foldl line_hash [] ls.

(** The byte strings hashed while verifying. *)
Fixpoint hashed (prev : str) (ls : list str) : list bytes :=
  match ls with
  | [] => []
  | line :: ls =>
      (utf8_encode prev ++ [LF] ++ utf8_encode (default [] (fst <$> rsplit_once HT line)))
        :: hashed (line_hash prev line) ls
  end.

Lemma verify_app i prev ls ls' :
  verify_lines digest i prev (ls ++ ls') =
  match verify_lines digest i prev ls with
  | Valid k => verify_lines digest k (foldl line_hash prev ls) ls'
  | BrokenAt k => BrokenAt k
  end.
Proof.
  revert i prev. induction ls as [|l ls IH]; intros i prev; simpl; [done|]. unfold line_hash at 2.
  destruct (rsplit_once HT l) as [[p h]|]; [|done]. by case_code.
Qed.

Lemma hashed_app prev ls ls' : hashed prev (ls ++ ls') = hashed prev ls ++ hashed (foldl line_hash prev ls) ls'.
Proof. revert prev. induction ls as [|l ls IH]; intros prev; simpl; [done|]. by rewrite IH. Qed.

Lemma verify_valid_count i prev ls n : verify_lines digest i prev ls = Valid n → n = i + len ls.
Proof.
  revert i prev. induction ls as [|l ls IH]; intros i prev; simpl; [rewrite len_nil; intros [= <-]; lia|].
  destruct (rsplit_once HT l) as [[p h]|]; [|done]. case_code; [done|].
  intros H%IH. rewrite len_cons. lia.
Qed.

Lemma hex_digit_inj d e : 0 ≤ d < 16 → 0 ≤ e < 16 → hex_digit d = hex_digit e → d = e.
Proof. unfold hex_digit. intros. repeat case_code_in H1; bsimp; lia. Qed.

Lemma hex_inj (a b : bytes) :
  Forall (λ x, 0 ≤ x < 256) a → Forall (λ x, 0 ≤ x < 256) b → a ≫= hex_byte = b ≫= hex_byte → a = b.
Proof.
  intros Ha. revert b. induction Ha as [|x a Hx _ IH]; intros b Hb; destruct Hb as [|y b Hy Hb]; try done.
  rewrite !bind_cons. unfold hex_byte at 1 3. intros E.
  change ([hex_digit (x / 16 mod 16); hex_digit (x mod 16)] ++ (a ≫= hex_byte)) with
    (hex_digit (x / 16 mod 16) :: hex_digit (x mod 16) :: (a ≫= hex_byte)) in E.
  change ([hex_digit (y / 16 mod 16); hex_digit (y mod 16)] ++ (b ≫= hex_byte)) with
    (hex_digit (y / 16 mod 16) :: hex_digit (y mod 16) :: (b ≫= hex_byte)) in E.
  injection E as E1 E2 E3.
  apply hex_digit_inj in E1; [|apply Z.mod_pos_bound; lia..].
  apply hex_digit_inj in E2; [|apply Z.mod_pos_bound; lia..].
  pose proof (Z.div_mod x 16). pose proof (Z.div_mod y 16).
  assert (0 ≤ x / 16 < 16) by (split; [apply Z.div_pos; lia|apply Z.div_lt_upper_bound; lia]).
  assert (0 ≤ y / 16 < 16) by (split; [apply Z.div_pos; lia|apply Z.div_lt_upper_bound; lia]).
  rewrite !(Z.mod_small (_ / 16)) in E1 by lia. f_equal; [lia|by apply IH].
Qed.

Lemma utf8_encode_inj a b :
  Forall (λ c, is_char c = true) a → Forall (λ c, is_char c = true) b →
  utf8_encode a = utf8_encode b → a = b.
Proof.
  intros Ha Hb E. apply (f_equal from_utf8) in E. rewrite !from_utf8_encode in E by done. by simplify_eq.
Qed.

Lemma hash_chars prev payload : Forall (λ c, 0 ≤ c < 128 ∧ c ≠ LF) (chain_hash digest prev payload).
Proof.
  unfold chain_hash. apply Forall_forall. intros c (b & Hc & _)%list_elem_of_bind.
  assert (∀ d, 0 ≤ d < 16 → 0 ≤ hex_digit d < 128 ∧ hex_digit d ≠ LF) as Hd.
  { intros d Hd. unfold hex_digit, LF. destruct (Z.ltb_spec d 10); lia. }
  unfold hex_byte in Hc. apply elem_of_cons in Hc as [->|Hc%list_elem_of_singleton]; [|subst];
    apply Hd, Z.mod_pos_bound; lia.
Qed.

(** The tip of a valid chain is ASCII without LF. *)
Lemma tip_chars ls n :
  verify_lines digest 0 [] ls = Valid n → Forall (λ c, 0 ≤ c < 128 ∧ c ≠ LF) (chain_tip ls).
Proof.
  unfold chain_tip. induction ls as [|l ls _] using rev_ind; [done|].
  rewrite verify_app, foldl_app. destruct (verify_lines digest 0 [] ls) as [k|]; [|done].
  simpl. set (q := foldl line_hash [] ls). unfold line_hash.
  destruct (rsplit_once HT l) as [[p h]|]; [|done].
  case_code; [done|]. intros _. bsimp. apply str_eqb_eq in Heqb as <-. apply hash_chars.
Qed.

(** C26: tampering is evident: two chain files that both verify, with the same
    number of records and the same final hash, are equal line for line, provided
    Blake2b does not collide on the strings hashed for them; so whoever keeps the
    tip detects any change, reordering or deletion in the records below it. *)
Theorem chain_tamper_evident (ls ls' : list str) (n : Z) :
  (∀ x, Forall (λ b, 0 ≤ b < 256) (digest x)) →
  (∀ x y, x ∈ hashed [] ls → y ∈ hashed [] ls' → digest x = digest y → x = y) →
  Forall (Forall (λ c, is_char c = true)) ls → Forall (Forall (λ c, is_char c = true)) ls' →
  verify_lines digest 0 [] ls = Valid n → verify_lines digest 0 [] ls' = Valid n →
  chain_tip ls = chain_tip ls' → ls = ls'.
Proof.
  intros Hbytes. revert ls' n. induction ls as [|l ls IH] using rev_ind; intros ls' n Hcol Hc Hc' Hv Hv' Ht.
  { apply verify_valid_count in Hv, Hv'. rewrite (@len_nil str) in Hv. symmetry. apply len_zero_iff. lia. }
  destruct ls' as [|l' ls' _] using rev_ind.
  { apply verify_valid_count in Hv, Hv'. autorewrite with len in Hv, Hv'.
    pose proof (len_nonneg ls). lia. }
  apply Forall_app in Hc as [Hc Hl], Hc' as [Hc' Hl']. rewrite Forall_singleton in Hl, Hl'.
  rewrite verify_app in Hv, Hv'.
  destruct (verify_lines digest 0 [] ls) as [k|] eqn:E; [|done].
  destruct (verify_lines digest 0 [] ls') as [k'|] eqn:E'; [|done].
  pose proof (tip_chars _ _ E) as Hp. pose proof (tip_chars _ _ E') as Hp'.
  rewrite !hashed_app in Hcol. unfold chain_tip in *. rewrite !foldl_app in Ht.
  set (p := foldl line_hash [] ls) in *. set (p' := foldl line_hash [] ls') in *.
  simpl in Hv, Hv', Ht, Hcol. unfold line_hash in Ht.
  destruct (rsplit_once HT l) as [[pay h]|] eqn:El; [|done].
  destruct (rsplit_once HT l') as [[pay' h']|] eqn:El'; [|done]. simpl in Hcol.
  destruct (str_eqb (chain_hash digest p pay) h) eqn:Eh; [|done]. apply str_eqb_eq in Eh.
  destruct (str_eqb (chain_hash digest p' pay') h') eqn:Eh'; [|done]. apply str_eqb_eq in Eh'.
  simpl in Hv, Hv'. assert (k = k') by (injection Hv; injection Hv'; lia). subst k'.
  apply rsplit_once_Some in El as [-> _], El' as [-> _].
  assert (utf8_encode p ++ LF :: utf8_encode pay = utf8_encode p' ++ LF :: utf8_encode pay') as Ein.
  { apply Hcol; [set_solver|set_solver|].
    apply hex_inj; [done..|]. unfold chain_hash in *. simpl in *. congruence. }
  rewrite !(utf8_encode_ascii p), !(utf8_encode_ascii p') in Ein
    by (eapply Forall_impl; [done|simpl; lia]).
  apply (f_equal (split_once LF)) in Ein.
  rewrite !split_once_app in Ein
    by (intros Hin; eapply Forall_forall in Hin; [|done]; simpl in Hin; lia).
  injection Ein as Epp Epay. apply Forall_app in Hl as [Hpay _], Hl' as [Hpay' _].
  apply utf8_encode_inj in Epay; [|done..].
  rewrite (IH ls' k); [|intros; apply Hcol; set_solver|done..].
  by rewrite Epay, Ht.
Qed.

(** What the chain does not show: cutting whole records off the end leaves a
    file that still verifies, with fewer records. *)
Theorem chain_truncation_undetected (ls : list str) (n : Z) (k : nat) :
  verify_lines digest 0 [] ls = Valid n → (k ≤ length ls)%nat →
  verify_lines digest 0 [] (take k ls) = Valid (Z.of_nat k).
Proof.
  intros Hv Hk. rewrite <-(take_drop k ls), verify_app in Hv.
  destruct (verify_lines digest 0 [] (take k ls)) as [m|] eqn:E; [|done].
  apply verify_valid_count in E. subst. f_equal. unfold len. rewrite length_take. lia.
Qed.
End tamper.

(** A record cut short by a crash poisons the recovered tip when the cut
    falls after a tab: the fragment's last field is taken for the previous hash
    and its sequence number counted, and the next record is written onto the
    fragment's own line, chained to that field instead of to the last complete
    record. *)
Theorem sink_torn_line_poisons (digest : bytes → bytes) (ts : Z) (event : AuditEvent) :
  let torn := lit "0" ++ [HT] ++ lit "5" ++ [HT] ++ lit "firewall_pau" in
  torn `prefix_of` record_payload 0 5 FirewallPaused ∧
  tip torn = (lit "firewall_pau", 1) ∧ tip [] = ([], 0) ∧
  sk_file (sink_append digest (sink_open (Some torn)) ts event IoDone).1 =
    torn ++ record_payload 1 ts event ++ [HT] ++
    chain_hash digest (lit "firewall_pau") (record_payload 1 ts event) ++ [LF].
Proof.
  intros torn. assert (tip torn = (lit "firewall_pau", 1)) as Ht by by vm_compute.
  split_and!; [by exists (lit "sed")|done|done|]. unfold sink_open. by rewrite Ht.
Qed.

(** * The recent ring *)

(** The ring holds the last [capacity] entries pushed. *)
Lemma ring_last {X} (capacity : Z) (xs : list X) :
  1 ≤ capacity → foldl (ring_push capacity) [] xs = drop (length xs - Z.to_nat capacity) xs.
Proof.
  intros Hc. induction xs as [|x xs IH] using rev_ind; [done|].
  rewrite foldl_app, IH, length_app. simpl. unfold ring_push, len. rewrite length_drop.
  destruct (Z.eqb_spec (Z.of_nat (length xs - (length xs - Z.to_nat capacity))) capacity) as [He|He].
  - rewrite (drop_app_le xs [x]) by lia. f_equal.
    replace (length xs + 1 - Z.to_nat capacity)%nat with (S (length xs - Z.to_nat capacity)) by lia.
    by rewrite <-drop_S_tail || (rewrite <-Nat.add_1_r, <-drop_drop; by destruct (drop _ xs)).
  - replace (length xs - Z.to_nat capacity)%nat with 0%nat by lia.
    by replace (length xs + 1 - Z.to_nat capacity)%nat with 0%nat by lia.
Qed.

Lemma chain_tamper_evident_witness :
  let d := fmap (λ b, b mod 256) : bytes → bytes in
  let l := lit "a" ++ [HT] ++ chain_hash d [] (lit "a") in
  verify_lines d 0 [] [l] = Valid 1 ∧ [l] = [l].
Proof.
  intros d l. split; [by vm_compute|]. apply (chain_tamper_evident d [l] [l] 1).
  - intros x. unfold d. apply Forall_fmap, Forall_forall. intros b _. by apply Z.mod_pos_bound.
  - intros x y Hx%list_elem_of_singleton Hy%list_elem_of_singleton _. by rewrite Hx, Hy.
  - apply Forall_singleton, Forall_forall. intros c Hc. apply list_elem_of_In in Hc. revert c Hc.
    apply (forallb_forall is_char). by vm_compute.
  - apply Forall_singleton, Forall_forall. intros c Hc. apply list_elem_of_In in Hc. revert c Hc.
    apply (forallb_forall is_char). by vm_compute.
  - by vm_compute.
  - by vm_compute.
  - done.
Defined.

Lemma chain_truncation_undetected_witness :
  let st := foldl (sink_exec id) (sink_open None) [SinkAppend 5 FirewallPaused; SinkAppend 6 FirewallResumed] in
  verify_lines id 0 [] (take 1 (lines (sk_file st))) = Valid 1.
Proof.
  intros st. apply (chain_truncation_undetected id (lines (sk_file st)) 2 1); [by vm_compute|].
  apply (bool_decide_eq_true (1 ≤ length (lines (sk_file st)))%nat). by vm_compute.
Defined.
