(* ===== verification/Firewall.v ===== *)
(** * The connection firewall of [crates/security/src/firewall]

    Allow and block lists, the bounded connection tracker, the decision trace,
    the pause switch with its audit trail, and [Firewall::check] over them.  The
    keyed rate limiter is third-party code (governor): a state with its
    [check_key] and [retain_recent] functions, arguments of the model. *)
From S2P Require Import Prelude RustStr Net AuditTrail.

Inductive DenyReason := Blocklisted | RateLimited.
(** [Decision], a name the base library keeps for its decidability class. *)
Inductive FwDecision := FwAllow | FwDeny (r : DenyReason).
#[export] Instance DenyReason_eq_dec : EqDecision DenyReason.
Proof. solve_decision. Defined.
#[export] Instance FwDecision_eq_dec : EqDecision FwDecision.
Proof. solve_decision. Defined.

(** ** Address lists and the pause switch *)

(** [insert] also says whether the address is new, [remove] whether it was there. *)
Definition AllowList : Type := gset IpAddr.
Definition allow_new : AllowList := ∅.
Definition allow_insert (l : AllowList) (ip : IpAddr) : AllowList * bool := ({[ ip ]} ∪ l, negb (bool_decide (ip ∈ l))).
Definition allow_remove (l : AllowList) (ip : IpAddr) : AllowList * bool := (l ∖ {[ ip ]}, bool_decide (ip ∈ l)).
Definition allow_contains (l : AllowList) (ip : IpAddr) : bool := bool_decide (ip ∈ l).
Definition allow_len (l : AllowList) : Z := Z.of_nat (size l).
Definition allow_is_empty (l : AllowList) : bool := bool_decide (l = ∅).

Definition BlockList : Type := gset IpAddr.
Definition block_new : BlockList := ∅.
Definition block_insert (l : BlockList) (ip : IpAddr) : BlockList * bool := ({[ ip ]} ∪ l, negb (bool_decide (ip ∈ l))).
Definition block_remove (l : BlockList) (ip : IpAddr) : BlockList * bool := (l ∖ {[ ip ]}, bool_decide (ip ∈ l)).
Definition block_contains (l : BlockList) (ip : IpAddr) : bool := bool_decide (ip ∈ l).
Definition block_len (l : BlockList) : Z := Z.of_nat (size l).
Definition block_is_empty (l : BlockList) : bool := bool_decide (l = ∅).

(** The switch holds whether enforcement is paused; [pause] and [resume] swap it and say
    whether that was a transition. *)
Definition PauseSwitch : Type := bool.
Definition switch_new : PauseSwitch := false.
Definition switch_pause (s : PauseSwitch) : PauseSwitch * bool := (true, negb s).
Definition switch_resume (s : PauseSwitch) : PauseSwitch * bool := (false, s).
Definition is_paused (s : PauseSwitch) : bool := s.

(** ** Connection tracking *)

Definition PRUNE_INTERVAL : Z := 1024.
Record AttemptRecord := mkRecord { attempts : Z; ar_last_seen : Z }.
Record ConnectionTracker := mkTracker {
  tr_records : gmap IpAddr AttemptRecord;
  tr_idle_ttl : Z;
  tr_max_tracked : Z;
  tr_since_prune : Z }.
Definition ConnectionTracker_with_limits (idle_ttl max_tracked : Z) : ConnectionTracker :=
  mkTracker ∅ idle_ttl max_tracked 0.

(** [now.saturating_duration_since(last) < idle_ttl]. *)
Definition fresh_record (idle_ttl now : Z) (r : AttemptRecord) : bool :=
  Z.max 0 (now - ar_last_seen r) <? idle_ttl.
Definition tracker_prune (t : ConnectionTracker) (now : Z) : ConnectionTracker :=
  mkTracker (filter (λ ir, fresh_record (tr_idle_ttl t) now ir.2 = true) (tr_records t))
    (tr_idle_ttl t) (tr_max_tracked t) 0.

Definition set_records (t : ConnectionTracker) (m : gmap IpAddr AttemptRecord) : ConnectionTracker :=
  mkTracker m (tr_idle_ttl t) (tr_max_tracked t) (tr_since_prune t).

Definition tracker_record_at (t : ConnectionTracker) (ip : IpAddr) (now : Z) : ConnectionTracker * Z :=
  let t := mkTracker (tr_records t) (tr_idle_ttl t) (tr_max_tracked t) (sat_add_u32 (tr_since_prune t) 1) in
  let t := if PRUNE_INTERVAL <=? tr_since_prune t then tracker_prune t now else t in
  match tr_records t !! ip with
  | Some rec =>
      let n := add_u64 (attempts rec) 1 in
      (set_records t (<[ip := mkRecord n now]> (tr_records t)), n)
  | None =>
      if tr_max_tracked t <=? Z.of_nat (size (tr_records t)) then (t, 1)
      else (set_records t (<[ip := mkRecord 1 now]> (tr_records t)), 1)
  end.
Definition tracker_attempts (t : ConnectionTracker) (ip : IpAddr) : Z :=
  match tr_records t !! ip with Some r => attempts r | None => 0 end.
Definition tracked_ips (t : ConnectionTracker) : Z := Z.of_nat (size (tr_records t)).

(** ** The trace of recent decisions *)

Record DecisionTrace := mkTrace { dt_capacity : Z; dt_entries : list (IpAddr * FwDecision) }.
Definition DecisionTrace_new (capacity : Z) : DecisionTrace := mkTrace (Z.max capacity 1) [].
Definition trace_record (t : DecisionTrace) (ip : IpAddr) (d : FwDecision) : DecisionTrace :=
  mkTrace (dt_capacity t) (ring_push (dt_capacity t) (dt_entries t) (ip, d)).

(** ** The gate *)

Definition MAINTENANCE_INTERVAL : Z := 1024.

Section firewall.
(** governor's keyed limiter: its state, a check that consumes quota and says
    whether the key is within it, and the eviction of stale keys. *)
Context {L : Type}.
Variable check_key : L → IpAddr → Z → L * bool.
Variable retain_recent : L → Z → L.
Variable digest : bytes → bytes.

Record FirewallConfig := mkFwConfig {
  fc_allow : list IpAddr;
  fc_block : list IpAddr;
  fc_trace_capacity : Z;
  fc_max_tracked_ips : Z;
  fc_idle_ttl : Z }.

Record Firewall := mkFirewall {
  fw_limiter : L;
  fw_allow : AllowList;
  fw_block : BlockList;
  fw_tracker : ConnectionTracker;
  fw_trace : DecisionTrace;
  fw_paused : PauseSwitch;
  fw_checks : Z;
  fw_audit : option AuditLog }.

Definition fw_build (config : FirewallConfig) (limiter : L) : Firewall :=
  mkFirewall limiter
    (foldl (λ l ip, (allow_insert l ip).1) allow_new (fc_allow config))
    (foldl (λ l ip, (block_insert l ip).1) block_new (fc_block config))
    (ConnectionTracker_with_limits (fc_idle_ttl config) (fc_max_tracked_ips config))
    (DecisionTrace_new (fc_trace_capacity config)) switch_new 0 None.
Definition fw_with_audit (f : Firewall) (a : AuditLog) : Firewall :=
  mkFirewall (fw_limiter f) (fw_allow f) (fw_block f) (fw_tracker f) (fw_trace f) (fw_paused f)
    (fw_checks f) (Some a).

(** The decision and the limiter after it. *)
Definition fw_decide (f : Firewall) (limiter : L) (ip : IpAddr) (now : Z) : L * FwDecision :=
  if is_paused (fw_paused f) || allow_contains (fw_allow f) ip then (limiter, FwAllow)
  else if block_contains (fw_block f) ip then (limiter, FwDeny Blocklisted)
  else let '(limiter, ok) := check_key limiter ip now in
       (limiter, if ok : bool then FwAllow else FwDeny RateLimited).

Definition fw_check (f : Firewall) (ip : IpAddr) (now : Z) : Firewall * FwDecision :=
  let limiter := if fw_checks f mod MAINTENANCE_INTERVAL =? 0
                 then retain_recent (fw_limiter f) now else fw_limiter f in
  let tracker := (tracker_record_at (fw_tracker f) ip now).1 in
  let '(limiter, d) := fw_decide f limiter ip now in
  (mkFirewall limiter (fw_allow f) (fw_block f) tracker (trace_record (fw_trace f) ip d)
     (fw_paused f) (add_u64 (fw_checks f) 1) (fw_audit f), d).

Definition fw_allow_ip (f : Firewall) (ip : IpAddr) : Firewall :=
  mkFirewall (fw_limiter f) (allow_insert (fw_allow f) ip).1 (fw_block f) (fw_tracker f) (fw_trace f)
    (fw_paused f) (fw_checks f) (fw_audit f).
Definition fw_block_ip (f : Firewall) (ip : IpAddr) : Firewall :=
  mkFirewall (fw_limiter f) (fw_allow f) (block_insert (fw_block f) ip).1 (fw_tracker f) (fw_trace f)
    (fw_paused f) (fw_checks f) (fw_audit f).

(** [pause] and [resume]: [swap] the switch, record a real transition. *)
Definition fw_set_paused (f : Firewall) (p : bool) (audit : option AuditLog) : Firewall :=
  mkFirewall (fw_limiter f) (fw_allow f) (fw_block f) (fw_tracker f) (fw_trace f) p (fw_checks f) audit.
Definition fw_pause (f : Firewall) (ts : Z) (io : io_outcome) : Firewall :=
  let '(switch, transition) := switch_pause (fw_paused f) in
  fw_set_paused f switch
    (if transition then (λ a, audit_record digest a ts FirewallPaused io) <$> fw_audit f else fw_audit f).
Definition fw_resume (f : Firewall) (ts : Z) (io : io_outcome) : Firewall :=
  let '(switch, transition) := switch_resume (fw_paused f) in
  fw_set_paused f switch
    (if transition then (λ a, audit_record digest a ts FirewallResumed io) <$> fw_audit f else fw_audit f).
Definition fw_maintain (f : Firewall) (now : Z) : Firewall :=
  mkFirewall (retain_recent (fw_limiter f) now) (fw_allow f) (fw_block f) (fw_tracker f) (fw_trace f)
    (fw_paused f) (fw_checks f) (fw_audit f).

(** What can be observed of it. *)
Definition fw_attempts (f : Firewall) (ip : IpAddr) : Z := tracker_attempts (fw_tracker f) ip.
Definition fw_trace_len (f : Firewall) : Z := len (dt_entries (fw_trace f)).
Definition fw_tracked_ips (f : Firewall) : Z := tracked_ips (fw_tracker f).

(** [FirewallManager]: the firewall and the configuration it was built from. *)
Record FirewallManager := mkFwManager { fm_firewall : Firewall; fm_config : FirewallConfig }.
Definition FirewallManager_new (config : FirewallConfig) (limiter : L) : FirewallManager :=
  mkFwManager (fw_build config limiter) config.
Definition fm_reload (m : FirewallManager) (config : FirewallConfig) (limiter : L) : FirewallManager :=
  mkFwManager (fw_build config limiter) config.

(** ** Operations in sequence *)

Inductive fw_op :=
  | FwCheck (ip : IpAddr) (now : Z)
  | FwAllowIp (ip : IpAddr)
  | FwBlockIp (ip : IpAddr)
  | FwPause (ts : Z) (io : io_outcome)
  | FwResume (ts : Z) (io : io_outcome)
  | FwMaintain (now : Z).

Definition fw_exec (f : Firewall) (o : fw_op) : Firewall :=
  match o with
  | FwCheck ip now => (fw_check f ip now).1
  | FwAllowIp ip => fw_allow_ip f ip
  | FwBlockIp ip => fw_block_ip f ip
  | FwPause ts io => fw_pause f ts io
  | FwResume ts io => fw_resume f ts io
  | FwMaintain now => fw_maintain f now
  end.

(** * Bounds *)

Lemma tracker_record_bounded t ip now :
  tracked_ips t ≤ Z.max 0 (tr_max_tracked t) →
  tracked_ips (tracker_record_at t ip now).1 ≤ Z.max 0 (tr_max_tracked t) ∧
  tr_max_tracked (tracker_record_at t ip now).1 = tr_max_tracked t.
Proof.
  intros Hb. unfold tracker_record_at.
  set (t1 := mkTracker (tr_records t) (tr_idle_ttl t) (tr_max_tracked t) (sat_add_u32 (tr_since_prune t) 1)).
  assert (∀ t2, (t2 = t1 ∨ t2 = tracker_prune t1 now) →
    tracked_ips t2 ≤ Z.max 0 (tr_max_tracked t) ∧ tr_max_tracked t2 = tr_max_tracked t) as Hp.
  { intros t2 [->| ->]; [done|]. unfold tracked_ips in *. simpl. split; [|done].
    pose proof (map_subseteq_size _ _ (map_filter_subseteq (λ ir, fresh_record (tr_idle_ttl t) now ir.2 = true) (tr_records t))).
    lia. }
  assert (∃ t2, (if PRUNE_INTERVAL <=? tr_since_prune t1 then tracker_prune t1 now else t1) = t2 ∧
    tracked_ips t2 ≤ Z.max 0 (tr_max_tracked t) ∧ tr_max_tracked t2 = tr_max_tracked t) as (t2 & -> & Hs & Hm).
  { eexists. split; [done|]. apply Hp. case_code; auto. }
  unfold tracked_ips in *. destruct (tr_records t2 !! ip) as [rec|] eqn:E; simpl.
  - rewrite map_size_insert, E. done.
  - case_code; simpl; [done|]. bsimp. rewrite map_size_insert, E. simpl. lia.
Qed.

(** The firewall's memory is bounded under any flood: whatever operations
    run, the tracker never holds more than [max_tracked_ips] addresses, and the
    trace holds exactly the most recent decisions, at most its capacity of them,
    oldest first. *)
Theorem fw_bounded (config : FirewallConfig) (limiter : L) (ops : list fw_op) :
  let f := foldl fw_exec (fw_build config limiter) ops in
  tracked_ips (fw_tracker f) ≤ Z.max 0 (fc_max_tracked_ips config) ∧
  ∃ decisions : list (IpAddr * FwDecision),
    decisions.*1 = (ops ≫= λ o, match o with FwCheck ip _ => [ip] | _ => [] end) ∧
    dt_entries (fw_trace f) =
      drop (length decisions - Z.to_nat (Z.max (fc_trace_capacity config) 1)) decisions.
Proof.
  simpl.
  assert (∃ ds : list (IpAddr * FwDecision),
    let f := foldl fw_exec (fw_build config limiter) ops in
    ds.*1 = (ops ≫= λ o, match o with FwCheck ip _ => [ip] | _ => [] end) ∧
    dt_entries (fw_trace f) = foldl (ring_push (Z.max (fc_trace_capacity config) 1)) [] ds ∧
    dt_capacity (fw_trace f) = Z.max (fc_trace_capacity config) 1 ∧
    tracked_ips (fw_tracker f) ≤ Z.max 0 (fc_max_tracked_ips config) ∧
    tr_max_tracked (fw_tracker f) = fc_max_tracked_ips config) as (ds & H1 & H2 & _ & H4 & _).
  { induction ops as [|o ops (ds & H1 & H2 & H3 & H4 & H5)] using rev_ind; simpl in *.
    - exists []. unfold tracked_ips. simpl. rewrite map_size_empty. split_and!; [done..|lia|done].
    - rewrite foldl_app, bind_app. set (f := foldl fw_exec (fw_build config limiter) ops) in *.
      destruct o as [ip now| | | | |]; simpl; try (exists ds; rewrite app_nil_r; by split_and!).
      unfold fw_check. destruct (fw_decide f _ ip now) as [l d].
      exists (ds ++ [(ip, d)]). rewrite <-H5 in H4.
      destruct (tracker_record_bounded (fw_tracker f) ip now H4) as [Hb Hm]. rewrite H5 in Hb, Hm.
      split_and!; simpl; try done.
      + by rewrite fmap_app, H1.
      + by rewrite H3, H2, foldl_app. }
  split; [done|]. exists ds. split; [done|]. rewrite H2. apply ring_last. lia.
Qed.

(** Policy order: while enforcing, an address on the blocklist and not on the
    allowlist is denied and consumes no quota; an allowlisted address is allowed
    whatever the blocklist and the limiter say; the limiter decides the rest; and
    when paused everything is allowed without consulting it. *)
Theorem fw_check_policy (f : Firewall) (ip : IpAddr) (now : Z) :
  let d := (fw_check f ip now).2 in
  let limiter := if fw_checks f mod MAINTENANCE_INTERVAL =? 0
                 then retain_recent (fw_limiter f) now else fw_limiter f in
  (fw_paused f = true ∨ ip ∈ fw_allow f → d = FwAllow ∧ fw_limiter (fw_check f ip now).1 = limiter) ∧
  (fw_paused f = false → ip ∉ fw_allow f → ip ∈ fw_block f →
     d = FwDeny Blocklisted ∧ fw_limiter (fw_check f ip now).1 = limiter) ∧
  (fw_paused f = false → ip ∉ fw_allow f → ip ∉ fw_block f →
     d = (if (check_key limiter ip now).2 then FwAllow else FwDeny RateLimited) ∧
     fw_limiter (fw_check f ip now).1 = (check_key limiter ip now).1).
Proof.
  simpl. unfold fw_check, fw_decide, is_paused, allow_contains, block_contains. set (limiter := if fw_checks f mod MAINTENANCE_INTERVAL =? 0
                  then retain_recent (fw_limiter f) now else fw_limiter f).
  split_and!.
  - intros [->|Hin]; simpl; [done|]. rewrite (bool_decide_eq_true_2 (ip ∈ fw_allow f)) by done.
    by rewrite orb_true_r.
  - intros -> Ha Hb. rewrite (bool_decide_eq_false_2 (ip ∈ fw_allow f)) by done.
    by rewrite (bool_decide_eq_true_2 (ip ∈ fw_block f)).
  - intros -> Ha Hb. rewrite (bool_decide_eq_false_2 (ip ∈ fw_allow f)) by done.
    rewrite (bool_decide_eq_false_2 (ip ∈ fw_block f)) by done. simpl.
    by destruct (check_key limiter ip now).
Qed.

(** ** The lists *)

Lemma fold_insert_elem ips : ∀ (l : gset IpAddr) ip, ip ∈ foldl (λ l ip, (allow_insert l ip).1) l ips ↔ ip ∈ l ∨ ip ∈ ips.
Proof. induction ips as [|i ips IH]; intros l ip; simpl; [set_solver|]. rewrite IH. simpl. set_solver. Qed.

(** An address is on a list exactly if the configuration put it there or it was added at
    run time: checks, pauses and sweeps never change the lists, and an address added to
    both is allowed. *)
Theorem fw_lists (config : FirewallConfig) (limiter : L) (ops : list fw_op) (ip : IpAddr) :
  let f := foldl fw_exec (fw_build config limiter) ops in
  (ip ∈ fw_allow f ↔ ip ∈ fc_allow config ∨ FwAllowIp ip ∈ ops) ∧
  (ip ∈ fw_block f ↔ ip ∈ fc_block config ∨ FwBlockIp ip ∈ ops).
Proof.
  induction ops as [|o ops IH] using rev_ind; cbv zeta in *.
  { simpl. rewrite (fold_insert_elem (fc_allow config)). change (λ l ip0, (block_insert l ip0).1) with (λ l ip0, (allow_insert l ip0).1).
    rewrite (fold_insert_elem (fc_block config)). set_solver. }
  rewrite foldl_app. set (f := foldl fw_exec (fw_build config limiter) ops) in *. rewrite !elem_of_app, !list_elem_of_singleton.
  destruct o; simpl; try (destruct IH as [-> ->]; naive_solver).
  - unfold fw_check. destruct (fw_decide f _ _ _). simpl. destruct IH as [-> ->]. naive_solver.
  - rewrite elem_of_union, elem_of_singleton. destruct IH as [-> ->]. naive_solver.
  - rewrite elem_of_union, elem_of_singleton. destruct IH as [-> ->]. naive_solver.
Qed.

(** ** The pause trail *)

(** The transitions a sequence of operations makes. *)
Fixpoint transitions (paused : bool) (ops : list fw_op) : list AuditEvent :=
  match ops with
  | [] => []
  | FwPause _ _ :: ops => (if paused then [] else [FirewallPaused]) ++ transitions true ops
  | FwResume _ _ :: ops => (if paused then [FirewallResumed] else []) ++ transitions false ops
  | _ :: ops => transitions paused ops
  end.
(** Pause and resume in turn. *)
Fixpoint alternating (paused : bool) (evs : list AuditEvent) : Prop :=
  match evs with
  | [] => True
  | FirewallPaused :: evs => paused = false ∧ alternating true evs
  | FirewallResumed :: evs => paused = true ∧ alternating false evs
  | _ :: _ => False
  end.

Lemma transitions_alternate paused ops : alternating paused (transitions paused ops).
Proof.
  revert paused. induction ops as [|[] ops IH]; intros paused; simpl; try done; destruct paused; simpl; auto.
Qed.

Lemma fw_audit_run f a ops :
  fw_audit f = Some a →
  ∃ a', fw_audit (foldl fw_exec f ops) = Some a' ∧ al_capacity a' = al_capacity a ∧
    al_recent a' = foldl (ring_push (al_capacity a)) (al_recent a) (transitions (fw_paused f) ops).
Proof.
  revert f a. induction ops as [|o ops IH]; intros f a Ha; [by exists a|]. simpl.
  destruct o as [ip now|ip|ip|ts io|ts io|now].
  - destruct (IH (fw_exec f (FwCheck ip now)) a) as (a' & ? & ? & Hr).
    { simpl. unfold fw_check. by destruct (fw_decide f _ ip now). }
    exists a'. split_and!; [done..|]. rewrite Hr. simpl. unfold fw_check.
    by destruct (fw_decide f _ ip now).
  - apply (IH (fw_allow_ip f ip) a Ha).
  - apply (IH (fw_block_ip f ip) a Ha).
  - destruct (fw_paused f) eqn:Ep; simpl.
    + destruct (IH (fw_pause f ts io) a) as (a' & ? & ? & Hr); [by simpl; rewrite Ep|].
      exists a'. by split_and!.
    + destruct (IH (fw_pause f ts io) (audit_record digest a ts FirewallPaused io)) as (a' & ? & ? & Hr);
        [by simpl; rewrite Ep, Ha|]. exists a'. by split_and!.
  - destruct (fw_paused f) eqn:Ep; simpl.
    + destruct (IH (fw_resume f ts io) (audit_record digest a ts FirewallResumed io)) as (a' & ? & ? & Hr);
        [by simpl; rewrite Ep, Ha|]. exists a'. by split_and!.
    + destruct (IH (fw_resume f ts io) a) as (a' & ? & ? & Hr); [by simpl; rewrite Ep|].
      exists a'. by split_and!.
  - apply (IH (fw_maintain f now) a Ha).
Qed.

(** A pause is never silent and never double counted: with an audit log
    attached, the log holds the most recent of exactly the real transitions of
    the switch, in order, pause and resume alternating, whatever checks and
    redundant calls are interleaved, and even if the durable sink fails. *)
Theorem fw_pause_audited (config : FirewallConfig) (limiter : L) (capacity : Z)
    (sink : option SinkState) (ops : list fw_op) :
  let f := foldl fw_exec (fw_with_audit (fw_build config limiter) (AuditLog_new capacity sink)) ops in
  let evs := transitions false ops in
  alternating false evs ∧
  ∃ a, fw_audit f = Some a ∧ al_recent a = drop (length evs - Z.to_nat (Z.max capacity 1)) evs.
Proof.
  simpl. split; [apply transitions_alternate|].
  destruct (fw_audit_run (fw_with_audit (fw_build config limiter) (AuditLog_new capacity sink))
    (AuditLog_new capacity sink) ops eq_refl) as (a & Ha & _ & Hr).
  exists a. split; [done|]. rewrite Hr. simpl. apply ring_last. lia.
Qed.
End firewall.
