(* ===== verification/Received.v ===== *)
(** * Trace headers and dates

    services/snail_server/src/received.rs: the [Received:], [Received-SPF:] and
    [Authentication-Results:] lines stamped on accepted mail, and the RFC 5322
    date computed without a date library; with the result types of the
    authentication checks (crates/network) that the lines print. *)
From S2P Require Import Prelude RustStr Net Message.

Inductive SpfResult := SpfPass | SpfFail | SpfSoftFail | SpfNeutral | SpfNone | SpfTempError | SpfPermError.
#[export] Instance SpfResult_eq_dec : EqDecision SpfResult.
Proof. solve_decision. Defined.
Definition SpfResult_as_str (r : SpfResult) : str :=
  match r with
  | SpfPass => lit "pass" | SpfFail => lit "fail" | SpfSoftFail => lit "softfail"
  | SpfNeutral => lit "neutral" | SpfNone => lit "none" | SpfTempError => lit "temperror"
  | SpfPermError => lit "permerror"
  end.

Inductive DkimResult := DkimPass | DkimFail | DkimPermError | DkimTempError.
#[export] Instance DkimResult_eq_dec : EqDecision DkimResult.
Proof. solve_decision. Defined.
Definition DkimResult_as_str (r : DkimResult) : str :=
  match r with
  | DkimPass => lit "pass" | DkimFail => lit "fail"
  | DkimPermError => lit "permerror" | DkimTempError => lit "temperror"
  end.
Record DkimOutcome := mkDkim { dk_domain : str; dk_selector : str; dk_result : DkimResult }.

Definition MAX_RECEIVED_HOPS : Z := 100.

Definition sanitize (s : str) : str := replace_chars (λ c, (c =? CR) || (c =? LF)) [] s.

(** ** Dates *)

(** Howard Hinnant's algorithm; [/] on [i64] truncates towards zero. *)
Definition civil_from_days (z0 : Z) : Z * Z * Z :=
  let z := z0 + 719468 in
  let era := Z.quot (if 0 <=? z then z else z - 146096) 146097 in
  let doe := z - era * 146097 in
  let yoe := Z.quot (doe - Z.quot doe 1460 + Z.quot doe 36524 - Z.quot doe 146096) 365 in
  let y := yoe + era * 400 in
  let doy := doe - (365 * yoe + Z.quot yoe 4 - Z.quot yoe 100) in
  let mp := Z.quot (5 * doy + 2) 153 in
  let d := doy - Z.quot (153 * mp + 2) 5 + 1 in
  let m := if mp <? 10 then mp + 3 else mp - 9 in
  (if m <=? 2 then y + 1 else y, m, d).

Definition WD : list str :=
  [lit "Sun"; lit "Mon"; lit "Tue"; lit "Wed"; lit "Thu"; lit "Fri"; lit "Sat"].
Definition MON : list str :=
  [lit "Jan"; lit "Feb"; lit "Mar"; lit "Apr"; lit "May"; lit "Jun";
   lit "Jul"; lit "Aug"; lit "Sep"; lit "Oct"; lit "Nov"; lit "Dec"].

Definition epoch_secs (at_ : Z) : Z := default 0 ((λ d, d `div` NANOS) <$> duration_since at_ 0).
Definition day_of_week (days : Z) : Z := (days `mod` 7 + 4) `mod` 7.

(** Indexing past the end of a table panics. *)
Definition rfc5322_date (at_ : Z) : option str :=
  let secs := epoch_secs at_ in
  let days := secs `div` 86400 in
  let tod := secs `mod` 86400 in
  let '(hour, min, sec) := (Z.quot tod 3600, Z.quot (Z.rem tod 3600) 60, Z.rem tod 60) in
  let '(year, month, day) := civil_from_days days in
  wd ← WD !! Z.to_nat (day_of_week days);
  mon ← MON !! Z.to_nat (month - 1);
  Some (wd ++ lit ", " ++ show_pad 2 day ++ lit " " ++ mon ++ lit " " ++ show year ++ lit " " ++
        show_pad 2 hour ++ lit ":" ++ show_pad 2 min ++ lit ":" ++ show_pad 2 sec ++ lit " +0000").

(** ** Header lines *)

Definition received_line (helo host proto date : str) : str :=
  lit "Received: from " ++ sanitize helo ++ lit " by " ++ sanitize host ++ lit " with " ++ proto ++
  lit "; " ++ date.
Definition received_header (helo host proto : str) (at_ : Z) : option bytes :=
  date ← rfc5322_date at_; Some (utf8_encode (received_line helo host proto date)).

Definition angle (addr : str) : str :=
  if addr =s? [] then lit "<>" else lit "<" ++ sanitize addr ++ lit ">".

Definition received_spf_line (result host client_ip envelope_from helo : str) : str :=
  let from := angle envelope_from in
  lit "Received-SPF: " ++ sanitize result ++ lit " (" ++ sanitize host ++ lit ": client-ip " ++
  sanitize client_ip ++ lit " is " ++ sanitize result ++ lit " for " ++ from ++ lit ") client-ip=" ++
  sanitize client_ip ++ lit "; envelope-from=" ++ from ++ lit "; helo=" ++ sanitize helo ++ lit ";".
Definition received_spf_header (result host client_ip envelope_from helo : str) : bytes :=
  utf8_encode (received_spf_line result host client_ip envelope_from helo).

Definition dkim_clause (o : DkimOutcome) : str :=
  lit "; dkim=" ++ DkimResult_as_str (dk_result o) ++ lit " header.d=" ++ sanitize (dk_domain o).

Definition authentication_results_line (host : str) (spf : option SpfResult) (mail_from : str)
    (dkim : list DkimOutcome) (dmarc_token : option str) (from_domain : str) : str :=
  lit "Authentication-Results: " ++ sanitize host ++ lit "; spf=" ++
  default (lit "none") (SpfResult_as_str <$> spf) ++ lit " smtp.mailfrom=" ++ angle mail_from ++
  (if bool_decide (dkim = []) then lit "; dkim=none" else dkim ≫= dkim_clause) ++
  match dmarc_token with
  | Some token => lit "; dmarc=" ++ token ++ lit " header.from=" ++ sanitize from_domain
  | None => []
  end.
Definition authentication_results_header (host : str) (spf : option SpfResult) (mail_from : str)
    (dkim : list DkimOutcome) (dmarc_token : option str) (from_domain : str) : bytes :=
  utf8_encode (authentication_results_line host spf mail_from dkim dmarc_token from_domain).

(** ** The calendar

    The proleptic Gregorian calendar, stated directly: leap years, days in a
    month, and the number of days before a date. *)
Definition is_leap (y : Z) : bool := (y mod 4 =? 0) && (negb (y mod 100 =? 0) || (y mod 400 =? 0)).
Definition days_in_month (y m : Z) : Z :=
  if m =? 2 then (if is_leap y then 29 else 28)
  else if (m =? 4) || (m =? 6) || (m =? 9) || (m =? 11) then 30 else 31.
Definition leaps_before (y : Z) : Z := (y - 1) `div` 4 - (y - 1) `div` 100 + (y - 1) `div` 400.
Definition days_before_year (y : Z) : Z := 365 * (y - 1970) + leaps_before y - leaps_before 1970.
Definition days_before_month (y m : Z) : Z :=
  foldr Z.add 0 ((λ i, days_in_month y (Z.of_nat i + 1)) <$> seq 0 (Z.to_nat (m - 1))).
Definition days_of_date (y m d : Z) : Z := days_before_year y + days_before_month y m + (d - 1).
Definition valid_date (y m d : Z) : Prop := 1 ≤ m ≤ 12 ∧ 1 ≤ d ≤ days_in_month y m.

(** [lia] with quotients and remainders by constants. *)
Ltac dlia := Z.to_euclidean_division_equations; lia.

(** Days before the [k]-th March-based year of an era. *)
Definition march_days (k : Z) : Z := 365 * k + k `div` 4 - k `div` 100 + k `div` 400.
(** The algorithm's year of the era for the [doe]-th day. *)
Definition year_of_era (doe : Z) : Z := (doe - doe `div` 1460 + doe `div` 36524 - doe `div` 146096) `div` 365.

Lemma year_of_era_mono a b : 0 ≤ a ≤ b → b ≤ 146096 → year_of_era a ≤ year_of_era b.
Proof.
  intros Ha Hb. unfold year_of_era. apply Z.div_le_mono; [lia|].
  assert (a `div` 36524 ≤ b `div` 36524) by (apply Z.div_le_mono; lia).
  assert (b `div` 1460 - a `div` 1460 ≤ b - a) by dlia.
  destruct (decide (b = 146096)) as [->|?].
  - destruct (decide (a = 146096)) as [->|?]; [lia|].
    rewrite (Z.div_small a 146096) by lia. change (146096 `div` 146096) with 1. dlia.
  - rewrite (Z.div_small a 146096), (Z.div_small b 146096) by lia. lia.
Qed.

Lemma march_year doe (n : nat) :
  0 ≤ doe < march_days (Z.of_nat n) →
  ∃ k, 0 ≤ k < Z.of_nat n ∧ march_days k ≤ doe < march_days (k + 1).
Proof.
  induction n as [|n IH]; intros Hd; [change (march_days (Z.of_nat 0)) with 0 in Hd; lia|].
  destruct (Z.lt_ge_cases doe (march_days (Z.of_nat n))) as [Hlt|Hge].
  - destruct IH as (k & Hk & Hs); [lia|]. exists k. lia.
  - exists (Z.of_nat n). split; [lia|]. replace (Z.of_nat n + 1) with (Z.of_nat (S n)) by lia. lia.
Qed.

(** The formula is right at the first and last day of each of the 400 years. *)
Lemma year_of_era_ends :
  forallb (λ i, let k := Z.of_nat i in
    (year_of_era (march_days k) =? k) && (year_of_era (march_days (k + 1) - 1) =? k)) (seq 0 400) = true.
Proof. by vm_compute. Qed.

Lemma year_of_era_spec doe :
  0 ≤ doe < 146097 →
  0 ≤ year_of_era doe < 400 ∧ march_days (year_of_era doe) ≤ doe < march_days (year_of_era doe + 1).
Proof.
  intros Hd. destruct (march_year doe 400) as (k & Hk & Hs); [done|].
  pose proof year_of_era_ends as He. rewrite forallb_forall in He.
  assert (In (Z.to_nat k) (seq 0 400)) as Hin%He by (apply in_seq; lia). cbv zeta in Hin.
  rewrite Z2Nat.id in Hin by lia. apply andb_true_iff in Hin as [H1%Z.eqb_eq H2%Z.eqb_eq].
  assert (march_days (k + 1) ≤ 146097).
  { unfold march_days. dlia. }
  assert (0 ≤ march_days k) by (unfold march_days; dlia).
  pose proof (year_of_era_mono (march_days k) doe ltac:(lia) ltac:(lia)).
  pose proof (year_of_era_mono doe (march_days (k + 1) - 1) ltac:(lia) ltac:(lia)).
  by replace (year_of_era doe) with k by lia.
Qed.

Definition leap (y : Z) : Z := if is_leap y then 1 else 0.

Lemma leap_div y : leap y = y `div` 4 - (y - 1) `div` 4 - (y `div` 100 - (y - 1) `div` 100)
                            + (y `div` 400 - (y - 1) `div` 400).
Proof.
  unfold leap, is_leap.
  destruct (Z.eqb_spec (y mod 4) 0), (Z.eqb_spec (y mod 100) 0), (Z.eqb_spec (y mod 400) 0); simpl; dlia.
Qed.

Lemma days_before_month_eq y m :
  1 ≤ m ≤ 12 →
  days_before_month y m = if m <=? 2 then 31 * (m - 1) else 59 + leap y + (153 * (m - 3) + 2) `div` 5.
Proof.
  intros Hm. assert (m ∈ [1;2;3;4;5;6;7;8;9;10;11;12]) as Hin by (set_unfold; lia).
  unfold leap, days_before_month, days_in_month. repeat (apply elem_of_cons in Hin as [->|Hin]); [..|set_solver].
  all: destruct (is_leap y); reflexivity.
Qed.

(** The month and day of the [doy]-th day of a March-based year. *)
Lemma month_day doy mp :
  0 ≤ doy ≤ 365 → mp = (5 * doy + 2) `div` 153 →
  0 ≤ mp ≤ 11 ∧ 0 ≤ doy - (153 * mp + 2) `div` 5 ∧
  (doy < 306 ↔ mp < 10) ∧
  (mp ∈ [1; 3; 6; 8] → doy - (153 * mp + 2) `div` 5 < 30) ∧
  doy - (153 * mp + 2) `div` 5 < 31 ∧ (mp = 11 → doy - (153 * mp + 2) `div` 5 = doy - 337).
Proof.
  intros Hd Hmp. assert (0 ≤ mp ≤ 11) as Hr by dlia. split; [done|].
  assert (mp ∈ [0;1;2;3;4;5;6;7;8;9;10;11]) as Hin by (set_unfold; lia).
  repeat (apply elem_of_cons in Hin as [->|Hin]); [..|set_solver]; clear Hr.
  all: split_and!; try dlia; set_unfold; dlia.
Qed.

Lemma quot_div a b : 0 ≤ a → 0 < b → Z.quot a b = a `div` b.
Proof. apply Z.quot_div_nonneg. Qed.

(** The algorithm with floor division throughout. *)
Lemma civil_from_days_eq z0 :
  let z := z0 + 719468 in
  let era := z `div` 146097 in
  let doe := z `mod` 146097 in
  let yoe := year_of_era doe in
  let doy := doe - march_days yoe in
  let mp := (5 * doy + 2) `div` 153 in
  civil_from_days z0 =
  ((if mp <? 10 then yoe + 400 * era else yoe + 400 * era + 1),
   (if mp <? 10 then mp + 3 else mp - 9), doy - (153 * mp + 2) `div` 5 + 1).
Proof.
  intros z era doe yoe doy mp. unfold civil_from_days. cbv zeta. fold z.
  assert (Z.quot (if 0 <=? z then z else z - 146096) 146097 = era) as ->.
  { unfold era. destruct (Z.leb_spec 0 z); dlia. }
  assert (z - era * 146097 = doe) as -> by (unfold era, doe; dlia).
  assert (0 ≤ doe < 146097) as Hdoe by (unfold doe; apply Z.mod_pos_bound; lia).
  destruct (year_of_era_spec doe Hdoe) as [Hy Hs]. fold yoe in Hy, Hs.
  assert (Z.quot (doe - Z.quot doe 1460 + Z.quot doe 36524 - Z.quot doe 146096) 365 = yoe) as ->.
  { rewrite (quot_div doe 1460), (quot_div doe 36524), (quot_div doe 146096) by lia.
    rewrite quot_div by dlia. done. }
  rewrite (quot_div yoe 4), (quot_div yoe 100) by lia.
  assert (365 * yoe + yoe `div` 4 - yoe `div` 100 = march_days yoe) as -> by (unfold march_days; dlia).
  fold doy. assert (0 ≤ doy) by (unfold doy; lia).
  rewrite (quot_div (5 * doy + 2)) by lia. fold mp.
  assert (0 ≤ mp) by (unfold mp; dlia). rewrite quot_div by lia.
  assert (doy ≤ 365) by (unfold doy, march_days in *; dlia).
  assert (mp ≤ 11) by (unfold mp; dlia).
  destruct (Z.ltb_spec mp 10).
  - destruct (Z.leb_spec (mp + 3) 2); [lia|]. f_equal. f_equal. lia.
  - destruct (Z.leb_spec (mp - 9) 2); [|lia]. f_equal. f_equal. lia.
Qed.

Lemma days_in_month_cases y m :
  days_in_month y m = if m =? 2 then 28 + leap y else if bool_decide (m ∈ [4; 6; 9; 11]) then 30 else 31.
Proof.
  unfold days_in_month, leap. destruct (m =? 2); [by destruct (is_leap y)|].
  destruct ((m =? 4) || (m =? 6) || (m =? 9) || (m =? 11)) eqn:E.
  - rewrite bool_decide_true; [done|]. set_unfold. lia.
  - rewrite bool_decide_false; [done|]. set_unfold. lia.
Qed.

(** The first of March and of January of a March-based year. *)
Lemma days_before_march yoe era :
  let y := yoe + 400 * era in
  days_before_year y + 59 + leap y = 146097 * era + march_days yoe - 719468 ∧
  days_before_year (y + 1) = 146097 * era + march_days yoe + 306 - 719468.
Proof.
  intros y. rewrite leap_div. unfold days_before_year, leaps_before.
  replace (y + 1 - 1) with y by lia.
  assert (y `div` 4 = yoe `div` 4 + 100 * era) by (unfold y; dlia).
  assert (y `div` 100 = yoe `div` 100 + 4 * era) by (unfold y; dlia).
  assert (y `div` 400 = yoe `div` 400 + era) by (unfold y; dlia).
  change ((1970 - 1) `div` 4) with 492. change ((1970 - 1) `div` 100) with 19.
  change ((1970 - 1) `div` 400) with 4. unfold march_days. lia.
Qed.

Lemma civil_correct z : ∀ y m d, civil_from_days z = (y, m, d) → valid_date y m d ∧ days_of_date y m d = z.
Proof.
  intros y m d E. rewrite civil_from_days_eq in E. cbv zeta in E.
  set (era := (z + 719468) `div` 146097) in *. set (doe := (z + 719468) `mod` 146097) in *.
  assert (0 ≤ doe < 146097) as Hdoe by (unfold doe; apply Z.mod_pos_bound; lia).
  assert (z + 719468 = 146097 * era + doe) as Hz by (unfold era, doe; dlia). clearbody era doe.
  destruct (year_of_era_spec doe Hdoe) as [Hy Hs].
  set (yoe := year_of_era doe) in *. clearbody yoe.
  set (doy := doe - march_days yoe) in *.
  assert (march_days (yoe + 1) - march_days yoe = 365 + leap (yoe + 1 + 400 * era)) as Hlen.
  { rewrite leap_div. unfold march_days. dlia. }
  assert (0 ≤ leap (yoe + 1 + 400 * era) ≤ 1) as Hl by (unfold leap; destruct (is_leap _); lia).
  assert (0 ≤ doy < 365 + leap (yoe + 1 + 400 * era)) as Hdoy by (unfold doy; lia).
  destruct (month_day doy ((5 * doy + 2) `div` 153)) as (Hmp & Hd0 & H306 & H30 & H31 & Hfeb); [lia|done|].
  set (mp := (5 * doy + 2) `div` 153) in *. clearbody mp.
  assert (doe = doy + march_days yoe) as Hdoe' by (unfold doy; lia). clearbody doy.
  injection E as <- <- <-. unfold valid_date, days_of_date. rewrite days_in_month_cases.
  destruct (days_before_march yoe era) as [Hmar Hjan].
  destruct (Z.ltb_spec mp 10) as [Hlt|Hge].
  - split.
    + split; [lia|]. destruct (Z.eqb_spec (mp + 3) 2); [lia|]. split; [lia|].
      case_bool_decide as Hb; [|lia]. enough (mp ∈ [1; 3; 6; 8]) by (specialize (H30 ltac:(done)); lia).
      set_unfold. lia.
    + rewrite days_before_month_eq by lia. destruct (Z.leb_spec (mp + 3) 2); [lia|].
      replace (mp + 3 - 3) with mp by lia. lia.
  - replace (yoe + 400 * era + 1) with (yoe + 1 + 400 * era) by lia. split.
    + split; [lia|]. destruct (Z.eqb_spec (mp - 9) 2).
      * split; [lia|]. rewrite Hfeb by lia. lia.
      * split; [lia|]. rewrite bool_decide_false; [lia|]. set_unfold. lia.
    + rewrite days_before_month_eq by lia. destruct (Z.leb_spec (mp - 9) 2); [|lia].
      replace (yoe + 1 + 400 * era) with (yoe + 400 * era + 1) by lia.
      assert (mp = 10 ∨ mp = 11) as [-> | ->] by lia; dlia.
Qed.

(** The date of a [Received:] header or a bounce is the right one: for every
    day count, [civil_from_days] gives a valid Gregorian date (leap years
    included), and that date is that many days after 1970-01-01. *)
Theorem civil_from_days_correct (z : Z) :
  let '(y, m, d) := civil_from_days z in valid_date y m d ∧ days_of_date y m d = z.
Proof. destruct (civil_from_days z) as [[y m] d] eqn:E. by apply civil_correct. Qed.

Lemma rfc5322_date_total at_ : ∃ s, rfc5322_date at_ = Some s.
Proof.
  unfold rfc5322_date. set (days := epoch_secs at_ `div` 86400).
  destruct (civil_from_days days) as [[y m] d] eqn:E. apply civil_correct in E as [[Hm _] _].
  assert (0 ≤ day_of_week days < 7) as Hw by (unfold day_of_week; apply Z.mod_pos_bound; lia).
  destruct (lookup_lt_is_Some_2 WD (Z.to_nat (day_of_week days))) as [wd Hwd].
  { change (length WD) with 7%nat. lia. }
  destruct (lookup_lt_is_Some_2 MON (Z.to_nat (m - 1))) as [mon Hmon].
  { change (length MON) with 12%nat. lia. }
  rewrite Hwd. simpl. rewrite Hmon. simpl. eauto.
Qed.

(** ** No header injection *)

Definition one_line (s : list Z) : Prop := CR ∉ s ∧ LF ∉ s.

Lemma one_line_app a b : one_line (a ++ b) ↔ one_line a ∧ one_line b.
Proof. unfold one_line. rewrite !not_elem_of_app. tauto. Qed.
Lemma one_line_nil : one_line [].
Proof. split; set_solver. Qed.

Lemma sanitize_one_line s : one_line (sanitize s).
Proof.
  unfold sanitize, replace_chars. induction s as [|c s IH]; [apply one_line_nil|].
  rewrite bind_cons, one_line_app. split; [|done]. unfold one_line.
  destruct ((c =? CR) || (c =? LF)) eqn:E; [set_solver|]. bsimp. set_solver.
Qed.

Lemma utf8_char_ascii x c : x ∈ utf8_char c → x < 128 → x = c.
Proof.
  unfold utf8_char. repeat case_match; bsimp; set_unfold; intros Hx Hlt; Z.to_euclidean_division_equations; lia.
Qed.
Lemma utf8_encode_one_line s : one_line s → one_line (utf8_encode s).
Proof.
  intros [H1 H2]. unfold utf8_encode.
  split; intros (c & Hx & Hc)%list_elem_of_bind; apply utf8_char_ascii in Hx; subst; done.
Qed.

Ltac one_line_lit :=
  match goal with |- one_line (lit ?s) =>
    split; [apply (bool_decide_eq_false (CR ∈ lit s))|apply (bool_decide_eq_false (LF ∈ lit s))]; by vm_compute
  end.
Ltac one_line :=
  repeat match goal with |- one_line (_ ++ _) => apply one_line_app; split end;
  first [ apply sanitize_one_line | one_line_lit | done | idtac ].

Lemma digits_one_line s : Forall (λ c, is_ascii_digit c = true) s → one_line s.
Proof.
  rewrite Forall_forall. intros H. split; intros Hin%H; discriminate Hin.
Qed.
Lemma show_one_line n : 0 ≤ n → one_line (show n).
Proof. intros. by apply digits_one_line, show_digits. Qed.
Lemma show_pad_one_line w n : 0 ≤ n → one_line (show_pad w n).
Proof.
  intros Hn. unfold show_pad. apply one_line_app. split; [|by apply show_one_line].
  split; intros [Hx _]%elem_of_replicate; discriminate Hx.
Qed.

Lemma table_one_line (t : list str) i s :
  forallb (λ s, negb (contains_char CR s) && negb (contains_char LF s)) t = true → t !! i = Some s → one_line s.
Proof.
  intros Ht Hs. rewrite forallb_forall in Ht.
  assert (In s t) as Hin%Ht by (apply list_elem_of_In; by eapply list_elem_of_lookup_2).
  unfold contains_char in Hin. bsimp. by split.
Qed.

Lemma days_of_date_year y m d : valid_date y m d → 0 ≤ days_of_date y m d → 0 ≤ y.
Proof.
  intros [Hm Hd] H. unfold days_of_date in H. rewrite days_before_month_eq in H by done.
  rewrite days_in_month_cases in Hd.
  assert (0 ≤ leap y ≤ 1) by (unfold leap; destruct (is_leap y); lia).
  assert (d ≤ 31) by (destruct (m =? 2); [|case_bool_decide]; lia).
  unfold days_before_year, leaps_before in H.
  destruct (m <=? 2); dlia.
Qed.

Lemma rfc5322_date_one_line at_ s : rfc5322_date at_ = Some s → one_line s.
Proof.
  unfold rfc5322_date. set (sec := epoch_secs at_).
  assert (0 ≤ sec) as Hsec.
  { unfold sec, epoch_secs, duration_since. destruct (Z.leb_spec 0 at_); simpl; [|done].
    apply Z.div_pos; [lia|done]. }
  assert (0 ≤ sec `div` 86400) as Hdays by (apply Z.div_pos; lia).
  assert (0 ≤ sec `mod` 86400) as Htod by (apply Z.mod_pos_bound; lia).
  set (tod := sec `mod` 86400) in *. set (days := sec `div` 86400) in *. clearbody sec tod days.
  destruct (civil_from_days days) as [[y m] d] eqn:E. apply civil_correct in E as [Hv Hz].
  pose proof (days_of_date_year y m d Hv ltac:(lia)).
  destruct (WD !! _) as [wd|] eqn:Ew; cbn [mbind option_bind]; [|done].
  destruct (MON !! _) as [mon|] eqn:Em; cbn [mbind option_bind]; [|done].
  intros <-%(inj Some). destruct Hv as [_ Hd].
  one_line; try (apply show_pad_one_line; dlia); try (by apply show_one_line).
  - eapply table_one_line; [|exact Ew]. by vm_compute.
  - eapply table_one_line; [|exact Em]. by vm_compute.
Qed.

Lemma angle_one_line s : one_line (angle s).
Proof. unfold angle. destruct (_ =s? _); one_line. Qed.
Lemma SpfResult_one_line r : one_line (SpfResult_as_str r).
Proof. destruct r; cbn [SpfResult_as_str DkimResult_as_str]; one_line_lit. Qed.
Lemma DkimResult_one_line r : one_line (DkimResult_as_str r).
Proof. destruct r; cbn [SpfResult_as_str DkimResult_as_str]; one_line_lit. Qed.

(** What each stamped line contributes to the message. *)
Lemma received_header_line helo host proto at_ line :
  one_line proto → received_header helo host proto at_ = Some line → one_line line.
Proof.
  unfold received_header, received_line. intros Hp.
  destruct (rfc5322_date at_) as [date|] eqn:Ed; cbn [mbind option_bind]; [|done]; intros <-%(inj Some).
  apply utf8_encode_one_line. apply rfc5322_date_one_line in Ed. one_line.
Qed.
Lemma received_spf_header_line r host ip from helo : one_line (received_spf_header r host ip from helo).
Proof.
  unfold received_spf_header, received_spf_line. apply utf8_encode_one_line.
  one_line; apply angle_one_line.
Qed.
Lemma authentication_results_header_line host spf from dkim (token : option str) dom :
  from_option one_line True token → one_line (authentication_results_header host spf from dkim token dom).
Proof.
  intros Ht. unfold authentication_results_header, authentication_results_line.
  apply utf8_encode_one_line. one_line.
  - destruct spf as [r|]; simpl; [apply SpfResult_one_line|one_line_lit].
  - apply angle_one_line.
  - case_bool_decide; [one_line_lit|]. clear. induction dkim as [|o dkim IH]; [apply one_line_nil|].
    rewrite bind_cons, one_line_app. split; [|done]. unfold dkim_clause. one_line. apply DkimResult_one_line.
  - destruct token; [simpl in Ht; one_line|apply one_line_nil].
Qed.

Lemma encoded_field_name name rest :
  COLON ∉ name → Forall (λ c, c < 128) name →
  is_received_line (from_utf8_lossy (utf8_encode (name ++ [COLON] ++ rest))) =
  negb (starts_with [SP] (name ++ [COLON]) || starts_with [HT] (name ++ [COLON])) &&
  eq_ignore_case (trim name) (lit "Received").
Proof.
  intros Hc Ha. rewrite !utf8_encode_app, (utf8_encode_ascii name) by done.
  change (utf8_encode [COLON]) with [COLON]. cbn [app]. rewrite from_utf8_lossy_ascii_app by done.
  rewrite from_utf8_lossy_ascii by done. unfold is_received_line. rewrite split_once_app by done.
  f_equal. f_equal. destruct name; [done|]. unfold starts_with. cbn.
  by destruct (SP =? z), (HT =? z).
Qed.

(** Stamping a received message cannot forge headers and counts one hop: whatever
    the client's HELO name, envelope sender, From: domain and DKIM domains
    contain, each stamped line is a single line, and the three lines together
    raise the [Received:] count by exactly one. *)
Theorem inbound_stamp_one_hop (helo host proto : str) (at_ : Z) (spf : option SpfResult)
    (mail_from : str) (dkim : list DkimOutcome) (token : option str) (from_domain ip : str)
    (r : SpfResult) (line : bytes) (m : Message) :
  one_line proto → from_option one_line True token →
  received_header helo host proto at_ = Some line →
  let auth := authentication_results_header host spf mail_from dkim token from_domain in
  let rspf := received_spf_header (SpfResult_as_str r) host ip mail_from helo in
  one_line line ∧ one_line auth ∧ one_line rspf ∧
  received_header_count (prepend_header line (prepend_header rspf (prepend_header auth m))) =
  1 + received_header_count m.
Proof.
  intros Hp Ht Hl auth rspf.
  pose proof (received_header_line _ _ _ _ _ Hp Hl) as H1.
  pose proof (authentication_results_header_line host spf mail_from dkim token from_domain Ht) as H2.
  pose proof (received_spf_header_line (SpfResult_as_str r) host ip mail_from helo) as H3.
  split_and!; [done..|].
  rewrite !prepend_header_hops_core by first [apply H1|apply H2|apply H3].
  assert (is_received_line (from_utf8_lossy line) = true) as ->.
  { revert Hl. unfold received_header, received_line. destruct (rfc5322_date at_); cbn [mbind option_bind]; [|done]; intros <-%(inj Some).
    change (lit "Received: from ") with (lit "Received" ++ [COLON] ++ lit " from ").
    rewrite <-!app_assoc. rewrite encoded_field_name; [by vm_compute| |].
    - apply (bool_decide_eq_false (COLON ∈ lit "Received")). by vm_compute.
    - by repeat constructor. }
  assert (is_received_line (from_utf8_lossy rspf) = false) as ->.
  { unfold rspf, received_spf_header, received_spf_line.
    change (lit "Received-SPF: ") with (lit "Received-SPF" ++ [COLON] ++ lit " ").
    rewrite <-!app_assoc. rewrite encoded_field_name; [by vm_compute| |].
    - apply (bool_decide_eq_false (COLON ∈ lit "Received-SPF")). by vm_compute.
    - by repeat constructor. }
  assert (is_received_line (from_utf8_lossy auth) = false) as ->.
  { unfold auth, authentication_results_header, authentication_results_line.
    change (lit "Authentication-Results: ") with (lit "Authentication-Results" ++ [COLON] ++ lit " ").
    rewrite <-!app_assoc. rewrite encoded_field_name; [by vm_compute| |].
    - apply (bool_decide_eq_false (COLON ∈ lit "Authentication-Results")). by vm_compute.
    - by repeat constructor. }
  lia.
Qed.

Lemma inbound_stamp_one_hop_witness :
  let m := mkMessage (mkEnvelope None []) [] [] CRLF in
  ∃ line,
  let auth := authentication_results_header (lit "mx") (Some SpfPass) [] [] (Some (lit "pass")) (lit "a") in
  let rspf := received_spf_header (SpfResult_as_str SpfPass) (lit "mx") (lit "1.2.3.4") [] (lit "evil" ++ CRLF) in
  one_line line ∧ one_line auth ∧ one_line rspf ∧
  received_header_count (prepend_header line (prepend_header rspf (prepend_header auth m))) =
  1 + received_header_count m.
Proof.
  intros m. eexists.
  apply (inbound_stamp_one_hop (lit "evil" ++ CRLF) (lit "mx") (lit "ESMTP") 0 (Some SpfPass) [] []
    (Some (lit "pass")) (lit "a") (lit "1.2.3.4") SpfPass).
  - one_line_lit.
  - simpl. one_line_lit.
  - vm_compute. reflexivity.
Defined.
