(* ===== verification/Dmarc.v ===== *)
(** * DMARC: policy records, evaluation, and the aggregate-report rows

    crates/network/src/dns/txt.rs (tag lists), dns/dmark.rs (the record),
    dns/lookup.rs ([lookup_dmarc]), dmarc/eval.rs (alignment and disposition),
    and the accumulator of services/snail_server/src/dmarc_report.rs.  DNS and
    the Public Suffix List are parameters; the [pct] sampler's clock is an
    argument. *)
From S2P Require Import Prelude RustStr Net Received.

(** ** Tag lists *)

Definition tag_of (kv : str) : option (str * str) :=
  match split_once 61 kv with
  | Some (k, v) => let k := trim k in if bool_decide (k = []) then None else Some (k, trim v)
  | None => None
  end.
(** Collecting into a map: a later duplicate replaces an earlier one. *)
Definition parse_tag_map (raw : str) : gmap str str :=
  foldl (λ m kv, match tag_of kv with Some (k, v) => <[k := v]> m | None => m end) ∅ (split_char 59 raw).

(** ** The policy record *)

Inductive DmarcPolicy := PolNone | PolQuarantine | PolReject.
#[export] Instance DmarcPolicy_eq_dec : EqDecision DmarcPolicy.
Proof. solve_decision. Defined.
Inductive AlignmentMode := Relaxed | Strict.
#[export] Instance AlignmentMode_eq_dec : EqDecision AlignmentMode.
Proof. solve_decision. Defined.

Definition AlignmentMode_parse (value : option str) : AlignmentMode :=
  if bool_decide (value = Some (lit "s")) then Strict else Relaxed.
Definition parse_policy (value : option str) : option DmarcPolicy :=
  match value with
  | Some v => if v =s? lit "none" then Some PolNone
              else if v =s? lit "quarantine" then Some PolQuarantine
              else if v =s? lit "reject" then Some PolReject
              else None
  | None => None
  end.

Record DmarcRecord := mkDmarc {
  dm_policy : DmarcPolicy;
  dm_subdomain_policy : option DmarcPolicy;
  dm_adkim : AlignmentMode;
  dm_aspf : AlignmentMode;
  dm_pct : Z;
  dm_rua : option str }.
#[export] Instance DmarcRecord_eq_dec : EqDecision DmarcRecord.
Proof. solve_decision. Defined.

Definition parse_pct (value : option str) : Z :=
  match value with
  | Some p => match parse_uint U8_MAX p with
              | Some n => if n <=? 100 then n else 100
              | None => 100
              end
  | None => 100
  end.

(** The error text is not used by its callers. *)
Definition DmarcRecord_parse (raw : str) : option DmarcRecord :=
  let tags := parse_tag_map raw in
  if bool_decide (tags !! lit "v" ≠ Some (lit "DMARC1")) then None else
  policy ← parse_policy (tags !! lit "p");
  let subdomain_policy := s ← tags !! lit "sp"; parse_policy (Some s) in
  Some (mkDmarc policy subdomain_policy
          (AlignmentMode_parse (tags !! lit "adkim")) (AlignmentMode_parse (tags !! lit "aspf"))
          (parse_pct (tags !! lit "pct")) (tags !! lit "rua")).

(** ** Evaluation *)

Inductive DmarcDisposition := DispNone | DispQuarantine | DispReject.
#[export] Instance DmarcDisposition_eq_dec : EqDecision DmarcDisposition.
Proof. solve_decision. Defined.
Definition DmarcDisposition_as_str (d : DmarcDisposition) : str :=
  match d with
  | DispNone => lit "none" | DispQuarantine => lit "quarantine" | DispReject => lit "reject"
  end.

Record DmarcResult := mkDmarcResult {
  dr_record_found : bool;
  dr_pass : bool;
  dr_spf_aligned : bool;
  dr_dkim_aligned : bool;
  dr_disposition : DmarcDisposition;
  dr_policy_domain : str;
  dr_published : option DmarcRecord }.
Definition DmarcResult_as_str (r : DmarcResult) : str :=
  if negb (dr_record_found r) then lit "none" else if dr_pass r then lit "pass" else lit "fail".
Definition DmarcResult_none : DmarcResult := mkDmarcResult false false false false DispNone [] None.

Definition trim_dots (s : str) : str := drop_while_end (Z.eqb DOT) s.

Section evaluation.
(** [DnsResolver::lookup_txt] ([None] is an error) and [psl::domain_str]. *)
Context (lookup_txt : str → option (list str)) (psl_domain : str → option str).

(** [find_map(parse.ok())] over the records found. *)
Fixpoint first_record (txts : list str) : option DmarcRecord :=
  match txts with
  | [] => None
  | t :: txts => match DmarcRecord_parse t with Some r => Some r | None => first_record txts end
  end.
Definition lookup_dmarc (domain : str) : option DmarcRecord :=
  txts ← lookup_txt (lit "_dmarc." ++ domain); first_record txts.

Definition organizational_domain (domain : str) : str :=
  let lower := lowercase (trim_dots (trim domain)) in
  match psl_domain lower with Some d => lowercase d | None => lower end.

Definition aligned (authenticated from : str) (mode : AlignmentMode) : bool :=
  let a := lowercase (trim_dots (trim authenticated)) in
  let f := lowercase (trim_dots (trim from)) in
  if bool_decide (a = []) then false
  else match mode with
       | Strict => a =s? f
       | Relaxed => organizational_domain a =s? organizational_domain f
       end.

(** [nanos] is the sub-second part of the clock. *)
Definition sample_in_pct (nanos pct : Z) : bool := nanos mod 100 <? pct.
Definition full_disposition (p : DmarcPolicy) : DmarcDisposition :=
  match p with PolNone => DispNone | PolQuarantine => DispQuarantine | PolReject => DispReject end.
Definition apply_pct (nanos : Z) (policy : DmarcPolicy) (pct : Z) : DmarcDisposition :=
  let full := full_disposition policy in
  if (100 <=? pct) || sample_in_pct nanos pct then full
  else match full with DispReject => DispQuarantine | DispQuarantine | DispNone => DispNone end.

Definition find_policy (from_domain from_org : str) : option (DmarcRecord * bool) :=
  match lookup_dmarc from_domain with
  | Some r => Some (r, false)
  | None => if bool_decide (from_org ≠ from_domain)
            then (λ r, (r, true)) <$> lookup_dmarc from_org
            else None
  end.
Definition applicable_policy (record : DmarcRecord) (at_org : bool) (from_domain from_org : str) : DmarcPolicy :=
  if at_org && bool_decide (from_domain ≠ from_org)
  then default (dm_policy record) (dm_subdomain_policy record) else dm_policy record.

Definition evaluate_dmarc (nanos : Z) (from0 : str) (spf_result : SpfResult) (spf_domain : str)
    (dkim_pass_domains : list str) : DmarcResult :=
  let from_domain := trim_dots (trim from0) in
  if bool_decide (from_domain = []) then DmarcResult_none else
  let from_org := organizational_domain from_domain in
  match find_policy from_domain from_org with
  | None => DmarcResult_none
  | Some (record, at_org) =>
      let spf_aligned := bool_decide (spf_result = SpfPass) && aligned spf_domain from_domain (dm_aspf record) in
      let dkim_aligned := existsb (λ d, aligned d from_domain (dm_adkim record)) dkim_pass_domains in
      let pass := spf_aligned || dkim_aligned in
      let disposition :=
        if pass then DispNone
        else apply_pct nanos (applicable_policy record at_org from_domain from_org) (dm_pct record) in
      mkDmarcResult true pass spf_aligned dkim_aligned disposition
        (if at_org then from_org else from_domain) (Some record)
  end.

(** ** Evaluation: theorems *)

Lemma apply_pct_reject nanos p pct : apply_pct nanos p pct = DispReject → p = PolReject ∧ 0 < pct ∨ nanos < 0.
Proof.
  unfold apply_pct, sample_in_pct. destruct (_ || _) eqn:E; destruct p; simpl; try done. intros _.
  pose proof (Z.mod_pos_bound nanos 100). apply orb_true_iff in E as [?|?]; bsimp; left; split; lia || done.
Qed.

(** The record and the policy a domain publishes for its mail: its own record, or, when it
    has none, the record of its organizational domain with the policy for subdomains. *)
Definition publishes (f org : str) (rec : DmarcRecord) (policy : DmarcPolicy) : Prop :=
  lookup_dmarc f = Some rec ∧ policy = dm_policy rec ∨
  lookup_dmarc f = None ∧ org ≠ f ∧ lookup_dmarc org = Some rec ∧ policy = default (dm_policy rec) (dm_subdomain_policy rec).
(** A check passed for a domain aligned with the From: domain. *)
Definition authenticates (f : str) (rec : DmarcRecord) (spf : SpfResult) (spf_domain : str) (dkim : list str) : Prop :=
  spf = SpfPass ∧ aligned spf_domain f (dm_aspf rec) = true ∨ ∃ d, d ∈ dkim ∧ aligned d f (dm_adkim rec) = true.

Lemma authenticates_spec f rec spf spf_domain dkim :
  bool_decide (spf = SpfPass) && aligned spf_domain f (dm_aspf rec) || existsb (λ d, aligned d f (dm_adkim rec)) dkim = true ↔
  authenticates f rec spf spf_domain dkim.
Proof.
  unfold authenticates. rewrite orb_true_iff, andb_true_iff, bool_decide_eq_true, existsb_exists.
  by setoid_rewrite list_elem_of_In.
Qed.
Lemma publishes_spec f org rec policy :
  publishes f org rec policy ↔ ∃ at_org, find_policy f org = Some (rec, at_org) ∧ applicable_policy rec at_org f org = policy.
Proof.
  unfold publishes, find_policy, applicable_policy. destruct (lookup_dmarc f) as [r|].
  { split; [intros [[[= <-] ->]|[? _]]; [by exists false|done]|]. intros (at_org & [= <- <-] & <-). by left. }
  case_bool_decide as Ho; [|naive_solver]. rewrite (bool_decide_eq_true_2 (f ≠ org)) by congruence. split.
  - intros [[? _]|(_ & _ & -> & ->)]; [done|]. by exists true.
  - destruct (lookup_dmarc org) as [r|]; [|naive_solver]. intros (at_org & [= <- <-] & <-). right. by rewrite andb_true_l.
Qed.

(** C36: what DMARC decides, on every input.  Without a From: domain, or when neither it
    nor its organizational domain publishes a record, there is no result.  Otherwise the
    message passes exactly when SPF passed for a domain aligned with the From: domain, or
    a DKIM signature of an aligned domain verified, and mail that passes is neither
    quarantined nor refused.  Mail that does not pass meets the published policy, the
    subdomain policy when the record is the organizational domain's: in full when the
    percentage is full, and never anything stricter.  So mail is refused only under a
    published reject policy with a non-zero percentage, and without an aligned pass, and
    quarantined only under a published policy that asks for one of the two. *)
Theorem dmarc_reject_sound (nanos : Z) (from : str) (spf : SpfResult) (spf_domain : str) (dkim : list str) :
  0 ≤ nanos →
  let r := evaluate_dmarc nanos from spf spf_domain dkim in
  let f := trim_dots (trim from) in
  let org := organizational_domain f in
  (f = [] ∨ (∀ rec policy, ¬ publishes f org rec policy) → r = DmarcResult_none) ∧
  (∀ rec policy, f ≠ [] → publishes f org rec policy →
     dr_record_found r = true ∧ dr_published r = Some rec ∧
     (dr_pass r = true ↔ authenticates f rec spf spf_domain dkim) ∧
     (dr_pass r = true → dr_disposition r = DispNone) ∧
     (dr_pass r = false → 100 ≤ dm_pct rec → dr_disposition r = full_disposition policy)) ∧
  (dr_disposition r = DispReject →
     ∃ rec, publishes f org rec PolReject ∧ dr_published r = Some rec ∧ 0 < dm_pct rec ∧
       ¬ authenticates f rec spf spf_domain dkim) ∧
  (dr_disposition r = DispQuarantine →
     ∃ rec policy, publishes f org rec policy ∧ dr_published r = Some rec ∧ policy ≠ PolNone ∧
       ¬ authenticates f rec spf spf_domain dkim).
Proof.
  intros Hn r f org. unfold r, evaluate_dmarc. fold f. fold org.
  case_bool_decide as Hf; [split_and!; [done|by intros ? ? []|done..]|].
  destruct (find_policy f org) as [[rec at_org]|] eqn:Efind.
  2:{ split_and!; [done|intros rec policy _ (? & ? & _)%publishes_spec; congruence|done..]. }
  assert (publishes f org rec (applicable_policy rec at_org f org)) as Hpub by (apply publishes_spec; eauto).
  cbn. pose proof (authenticates_spec f rec spf spf_domain dkim) as Ha. destruct (_ || _) eqn:Ep.
  - split_and!; [by intros [?|Hno]; [|destruct (Hno _ _ Hpub)]| |done..].
    by intros rec' policy _ (? & [= <- <-]%(eq_trans (eq_sym Efind)) & <-)%publishes_spec.
  - split_and!; [by intros [?|Hno]; [|destruct (Hno _ _ Hpub)]| | |].
    + intros rec' policy _ (? & [= <- <-]%(eq_trans (eq_sym Efind)) & <-)%publishes_spec. split_and!; [done..|].
      intros _ Hpct. unfold apply_pct. apply Z.leb_le in Hpct. by rewrite Hpct.
    + intros [[Hp Hpct]|?]%apply_pct_reject; [|lia]. exists rec. rewrite Hp in Hpub. split_and!; [done..|].
      by intros H%Ha.
    + intros Hq. exists rec, (applicable_policy rec at_org f org). split_and!; [done..| |by intros H%Ha].
      intros E. revert Hq. rewrite E. unfold apply_pct. by destruct ((100 <=? _) || _).
Qed.

(** Trailing dots and ASCII case do not matter, and strict alignment is relaxed
    alignment. *)
Lemma aligned_strict_relaxed a f : aligned a f Strict = true → aligned a f Relaxed = true.
Proof.
  unfold aligned. case_bool_decide; [done|]. intros E%str_eqb_eq. rewrite E. apply str_eqb_refl.
Qed.
End evaluation.

Definition demo_txt (name : str) : option (list str) :=
  if name =s? lit "_dmarc.example.com" then Some [lit "junk"; lit "v=DMARC1; p=reject; sp=none; rua=mailto:r@x"]
  else None.
Definition demo_psl (d : str) : option str := Some (lit "example.com").

Lemma dmarc_reject_sound_witness :
  let r spf := evaluate_dmarc demo_txt demo_psl 7 (lit "example.com.") spf (lit "mail.example.com") [] in
  (dr_disposition (r SpfFail) = DispReject ∧
   ∃ rec, publishes demo_txt (lit "example.com") (lit "example.com") rec PolReject) ∧
  ∃ rec, publishes demo_txt (lit "example.com") (lit "example.com") rec PolReject ∧
    dr_pass (r SpfPass) = true ∧ authenticates demo_psl (lit "example.com") rec SpfPass (lit "mail.example.com") [].
Proof.
  intros r. split; [split; [by vm_compute|]|].
  - destruct (dmarc_reject_sound demo_txt demo_psl 7 (lit "example.com.") SpfFail (lit "mail.example.com") [])
      as (_ & _ & H & _); [lia|]. destruct H as (rec & Hp & _); [by vm_compute|]. exists rec. exact Hp.
  - destruct (dmarc_reject_sound demo_txt demo_psl 7 (lit "example.com.") SpfPass (lit "mail.example.com") [])
      as (_ & H & _); [lia|].
    assert (publishes demo_txt (lit "example.com") (lit "example.com")
      (mkDmarc PolReject (Some PolNone) Relaxed Relaxed 100 (Some (lit "mailto:r@x"))) PolReject) as Hp by (left; vm_compute; split; reflexivity).
    eexists. split; [exact Hp|]. destruct (H _ _ ltac:(by vm_compute) Hp) as (_ & _ & Ha & _).
    assert (dr_pass (r SpfPass) = true) as Hr by by vm_compute. split; [exact Hr|]. by apply Ha.
Defined.

(** ** Aggregate rows *)

Record RowKey := mkRow {
  rk_source_ip : IpAddr; rk_header_from : str; rk_disposition : str;
  rk_dkim_eval_pass : bool; rk_spf_eval_pass : bool;
  rk_spf_domain : str; rk_spf_result : str; rk_dkim : list (str * str) }.
#[export] Instance RowKey_eq_dec : EqDecision RowKey.
Proof. solve_decision. Defined.
#[export] Program Instance RowKey_countable : Countable RowKey :=
  inj_countable' (λ k, (rk_source_ip k, rk_header_from k, rk_disposition k, rk_dkim_eval_pass k,
                        rk_spf_eval_pass k, rk_spf_domain k, rk_spf_result k, rk_dkim k))
    (λ '(a, b, c, d, e, f, g, h), mkRow a b c d e f g h) _.
Next Obligation. by intros []. Qed.

Record DomainReport := mkDomainReport { rep_published : DmarcRecord; rep_rua : str; rep_rows : gmap RowKey Z }.
Record PendingReport := mkPending {
  pr_domain : str; pr_published : DmarcRecord; pr_rua : str; pr_rows : list (RowKey * Z) }.
Notation DmarcAggregator := (gmap (list Z) DomainReport).

Definition aggregator_record (st : DmarcAggregator) (result : DmarcResult) (source_ip : IpAddr)
    (header_from spf_domain spf_result : str) (dkim : list (str * str)) : DmarcAggregator :=
  match dr_published result with
  | None => st
  | Some published =>
      match dm_rua published with
      | None => st
      | Some rua =>
          if bool_decide (rua = []) then st
          else if bool_decide (dr_policy_domain result = []) then st
          else
            let key := mkRow source_ip (lowercase header_from) (DmarcDisposition_as_str (dr_disposition result))
                         (dr_dkim_aligned result) (dr_spf_aligned result) (lowercase spf_domain) spf_result dkim in
            let entry := default (mkDomainReport published rua ∅) (st !! dr_policy_domain result) in
            <[dr_policy_domain result :=
                mkDomainReport (rep_published entry) (rep_rua entry)
                  (<[key := add_u64 (default 0 (rep_rows entry !! key)) 1]> (rep_rows entry))]> st
      end
  end.

Definition aggregator_drain (st : DmarcAggregator) : list PendingReport * DmarcAggregator :=
  ((λ '(d, r), mkPending d (rep_published r) (rep_rua r) (map_to_list (rep_rows r))) <$> map_to_list st, ∅).

(** One evaluated message, as [record] receives it. *)
Record dmarc_event := mkDmarcEvent {
  de_result : DmarcResult; de_ip : IpAddr; de_from : str; de_spf_domain : str; de_spf_result : str;
  de_dkim : list (str * str) }.
Definition aggregator_exec (st : DmarcAggregator) (e : dmarc_event) : DmarcAggregator :=
  aggregator_record st (de_result e) (de_ip e) (de_from e) (de_spf_domain e) (de_spf_result e) (de_dkim e).

(** The report and row a message belongs to: none unless its policy domain asks
    for reports. *)
Definition event_row (e : dmarc_event) : option (str * RowKey) :=
  let r := de_result e in
  match dr_published r ≫= dm_rua with
  | Some (_ :: _) =>
      if bool_decide (dr_policy_domain r = []) then None
      else Some (dr_policy_domain r,
                 mkRow (de_ip e) (lowercase (de_from e)) (DmarcDisposition_as_str (dr_disposition r))
                   (dr_dkim_aligned r) (dr_spf_aligned r) (lowercase (de_spf_domain e)) (de_spf_result e) (de_dkim e))
  | _ => None
  end.
Definition row_count (st : DmarcAggregator) (d : str) (k : RowKey) : Z :=
  default 0 (st !! d ≫= λ rep, rep_rows rep !! k).

Lemma aggregator_exec_count st e d k :
  row_count (aggregator_exec st e) d k =
  if bool_decide (event_row e = Some (d, k)) then add_u64 (row_count st d k) 1 else row_count st d k.
Proof.
  unfold aggregator_exec, aggregator_record, event_row.
  destruct (dr_published (de_result e)) as [pub|]; simpl; [|done].
  destruct (dm_rua pub) as [[|c rua]|]; simpl; [done| |done].
  case_bool_decide as Hd; [done|]. set (key := mkRow _ _ _ _ _ _ _ _).
  unfold row_count. destruct (decide (dr_policy_domain (de_result e) = d)) as [<-|Hne].
  - rewrite lookup_insert_eq. simpl. set (rep := default (mkDomainReport _ _ _) _).
    assert (∀ k', default 0 (rep_rows rep !! k') =
      default 0 (st !! dr_policy_domain (de_result e) ≫= λ rep, rep_rows rep !! k')) as Hrep.
    { intros k'. unfold rep. by destruct (st !! _). }
    destruct (decide (key = k)) as [<-|Hk].
    + rewrite lookup_insert_eq, bool_decide_true by done. simpl. by rewrite Hrep.
    + rewrite lookup_insert_ne by done. rewrite bool_decide_false by naive_solver. apply Hrep.
  - rewrite lookup_insert_ne by done. by rewrite bool_decide_false by naive_solver.
Qed.

(** Aggregate reports count every message once: after any sequence of
    evaluations, the count of a report's row is the number of messages with that
    policy domain, source, From: domain, disposition and results; draining hands
    over exactly those counts and leaves the accumulator empty. *)
Theorem aggregator_counts (es : list dmarc_event) (d : str) (k : RowKey) :
  len es ≤ U64_MAX →
  let st := foldl aggregator_exec ∅ es in
  row_count st d k = len (filter (λ e, event_row e = Some (d, k)) es) ∧
  (∀ n, (∃ rep, rep ∈ (aggregator_drain st).1 ∧ pr_domain rep = d ∧ (k, n) ∈ pr_rows rep) ↔
     (st !! d ≫= λ rep, rep_rows rep !! k) = Some n) ∧
  (aggregator_drain st).2 = ∅.
Proof.
  intros Hlen st. split_and!; [|intros n|done].
  - unfold st. clear st. induction es as [|e es IH] using rev_ind; [done|].
    rewrite foldl_app, filter_app. simpl. rewrite aggregator_exec_count. autorewrite with len in *.
    pose proof (len_nonneg es).
    rewrite IH by lia. case_bool_decide as Hb.
    + rewrite filter_cons_True by done. autorewrite with len. rewrite add_u64_small; [lia|].
      assert (len (filter (λ e0 : dmarc_event, event_row e0 = Some (d, k)) es) ≤ len es).
      { unfold len. pose proof (length_filter (λ e0 : dmarc_event, event_row e0 = Some (d, k)) es). lia. }
      pose proof (len_nonneg (filter (λ e0 : dmarc_event, event_row e0 = Some (d, k)) es)). lia.
    + rewrite filter_cons_False by done. autorewrite with len. lia.
  - unfold aggregator_drain. simpl. split.
    + intros (rep & Hin & <- & Hk). apply list_elem_of_fmap in Hin as ([d' r] & -> & Hin). simpl in *.
      apply elem_of_map_to_list in Hin as ->. simpl. by apply elem_of_map_to_list.
    + destruct (st !! d) as [r|] eqn:Er; simpl; [|done]. intros Hk.
      exists (mkPending d (rep_published r) (rep_rua r) (map_to_list (rep_rows r))). split_and!; [|done|].
      * apply list_elem_of_fmap. exists (d, r). split; [done|]. by apply elem_of_map_to_list.
      * by apply elem_of_map_to_list.
Qed.

Definition demo_event : dmarc_event :=
  mkDmarcEvent (evaluate_dmarc demo_txt demo_psl 7 (lit "example.com") SpfFail (lit "evil.org") [])
    (V4 1) (lit "Example.com") (lit "evil.org") (lit "fail") [].

Lemma aggregator_counts_witness :
  row_count (foldl aggregator_exec ∅ [demo_event; demo_event]) (lit "example.com")
    (mkRow (V4 1) (lit "example.com") (lit "reject") false false (lit "evil.org") (lit "fail") []) = 2.
Proof.
  destruct (aggregator_counts [demo_event; demo_event] (lit "example.com")
    (mkRow (V4 1) (lit "example.com") (lit "reject") false false (lit "evil.org") (lit "fail") [])) as [H _].
  - by vm_compute.
  - rewrite H. by vm_compute.
Defined.
