(* ===== verification/Dns.v ===== *)
(** * DNS: typed records, the resolver contract and its implementation

    crates/network/src/dns: the record types (a.rs, mx.rs, reverse.rs, txt.rs,
    tlsa.rs, dkim.rs), the [DnsResolver] contract (lookup.rs) with its default
    methods, and [HickoryResolver] (manager.rs), which maps the answers of the
    hickory library.  Hickory itself is a parameter: a lookup gives the answer
    section, "no records", or a failure. *)
From S2P Require Import Prelude RustStr Net Received Dmarc.

Inductive NetworkError :=
  | ResolveError (name reason : str)
  | RecordError (kind reason : str)
  | TlsError (reason : str)
  | NetIoError (reason : str).

Definition NetworkError_to_string (e : NetworkError) : str :=
  match e with
  | ResolveError name reason => lit "dns lookup failed for `" ++ name ++ lit "`: " ++ reason
  | RecordError kind reason => lit "malformed " ++ kind ++ lit " record: " ++ reason
  | TlsError reason => lit "tls configuration error: " ++ reason
  | NetIoError reason => lit "i/o error: " ++ reason
  end.

Notation AddressRecord := IpAddr (only parsing).
Notation PtrRecord := (list Z) (only parsing).
Notation TxtRecord := (list Z) (only parsing).

Record MxRecord := mkMx { mx_preference : Z; mx_exchange : str }.
#[export] Instance MxRecord_eq_dec : EqDecision MxRecord.
Proof. solve_decision. Defined.
Definition mx_is_null (m : MxRecord) : bool := bool_decide (mx_exchange m = []).

(** ** TLSA records *)

Inductive TlsaUsage := PkixTa | PkixEe | DaneTa | DaneEe | OtherUsage (v : Z).
Inductive TlsaSelector := SelFull | SelSpki | OtherSelector (v : Z).
Inductive TlsaMatching := MatchFull | MatchSha256 | MatchSha512 | OtherMatching (v : Z).
#[export] Instance TlsaUsage_eq_dec : EqDecision TlsaUsage.
Proof. solve_decision. Defined.
#[export] Instance TlsaSelector_eq_dec : EqDecision TlsaSelector.
Proof. solve_decision. Defined.
#[export] Instance TlsaMatching_eq_dec : EqDecision TlsaMatching.
Proof. solve_decision. Defined.
Record TlsaRecord := mkTlsa {
  tlsa_usage : TlsaUsage; tlsa_selector : TlsaSelector; tlsa_matching : TlsaMatching; tlsa_data : bytes }.
#[export] Instance TlsaRecord_eq_dec : EqDecision TlsaRecord.
Proof. solve_decision. Defined.

Definition TlsaUsage_from_u8 (v : Z) : TlsaUsage :=
  if v =? 0 then PkixTa else if v =? 1 then PkixEe else if v =? 2 then DaneTa else if v =? 3 then DaneEe
  else OtherUsage v.
Definition TlsaSelector_from_u8 (v : Z) : TlsaSelector :=
  if v =? 0 then SelFull else if v =? 1 then SelSpki else OtherSelector v.
Definition TlsaMatching_from_u8 (v : Z) : TlsaMatching :=
  if v =? 0 then MatchFull else if v =? 1 then MatchSha256 else if v =? 2 then MatchSha512 else OtherMatching v.

(** ** DKIM key records *)

Record DkimRecord := mkDkimRecord {
  dk_version : option str; dk_key_type : option str; dk_public_key : str }.
#[export] Instance DkimRecord_eq_dec : EqDecision DkimRecord.
Proof. solve_decision. Defined.
Definition DkimRecord_parse (raw : str) : result NetworkError DkimRecord :=
  let tags := parse_tag_map raw in
  public_key ← ok_or (RecordError (lit "DKIM") (lit "missing public key (p=)")) (tags !! lit "p");
  Ok (mkDkimRecord (tags !! lit "v") (tags !! lit "k") public_key).

(** ** The contract

    The four raw lookups and the two DNSSEC-validated ones. *)
Record DnsResolver := mkResolver {
  dns_mx : str → result NetworkError (list MxRecord);
  dns_ip : str → result NetworkError (list AddressRecord);
  dns_txt : str → result NetworkError (list TxtRecord);
  dns_reverse : IpAddr → result NetworkError (list PtrRecord);
  dns_secure_tlsa : Z → str → result NetworkError (option (list TlsaRecord));
  dns_secure_mx : str → result NetworkError (option (list MxRecord)) }.

(** [find_map(|t| parse(t).ok())]. *)
Fixpoint find_ok {E A B} (parse : A → result E B) (l : list A) : option B :=
  match l with
  | [] => None
  | x :: l => match parse x with Ok b => Some b | Err _ => find_ok parse l end
  end.

Definition lookup_dkim (r : DnsResolver) (selector domain : str) : result NetworkError DkimRecord :=
  let name := selector ++ lit "._domainkey." ++ domain in
  txts ← dns_txt r name;
  ok_or (RecordError (lit "DKIM") (lit "no parseable DKIM record at " ++ name)) (find_ok DkimRecord_parse txts).

(** A resolver without DNSSEC, as the contract's default methods give it. *)
Definition plain_resolver (mx : str → result NetworkError (list MxRecord))
    (ip : str → result NetworkError (list AddressRecord)) (txt : str → result NetworkError (list TxtRecord))
    (rev : IpAddr → result NetworkError (list PtrRecord)) : DnsResolver :=
  mkResolver mx ip txt rev (λ _ _, Ok None) (λ _, Ok None).

(** [Iterator::filter_map]. *)
Definition filter_map {A B} (f : A → option B) (l : list A) : list B := omap f l.

(** ** The hickory-backed resolver *)

Module Hickory.

Inductive RecordType := RtMX | RtTXT | RtPTR | RtTLSA | RtOther.
#[export] Instance RecordType_eq_dec : EqDecision RecordType.
Proof. solve_decision. Defined.
(** Names are their presentation form, TLSA fields their octets. *)
Inductive RData :=
  | DataMX (preference : Z) (exchange : str)
  | DataTXT (txt_data : list bytes)
  | DataPTR (name : str)
  | DataTLSA (cert_usage selector matching : Z) (cert_data : bytes)
  | DataOther.
Definition record_type (d : RData) : RecordType :=
  match d with
  | DataMX _ _ => RtMX | DataTXT _ => RtTXT | DataPTR _ => RtPTR | DataTLSA _ _ _ _ => RtTLSA | DataOther => RtOther
  end.
(** A record and whether DNSSEC proved it. *)
Record Record_ := mkRecord { rr_data : RData; rr_secure : bool }.

Inductive Lookup (A : Type) := Found (a : A) | NoRecords | Failed (reason : str).
Arguments Found {A} a.
Arguments NoRecords {A}.
Arguments Failed {A} reason.

Section resolver.
(** The plain and the validating resolver, address lookups, and [Name::from(IpAddr)]. *)
Context (inner_lookup validating_lookup : str → RecordType → Lookup (list Record_))
  (inner_lookup_ip : str → Lookup (list IpAddr)) (reverse_name : IpAddr → str).

Definition answers (name : str) (t : RecordType) : result NetworkError (list Record_) :=
  match inner_lookup name t with
  | Found l => Ok l
  | NoRecords => Ok []
  | Failed reason => Err (ResolveError name reason)
  end.

Definition secure_answers (name : str) (t : RecordType) : option (list Record_) :=
  match validating_lookup name t with
  | Found l =>
      let answers := filter (λ r, record_type (rr_data r) = t) l in
      if bool_decide (answers = []) then None
      else if forallb rr_secure answers then Some answers else None
  | _ => None
  end.

Definition map_tlsa (usage selector matching : Z) (data : bytes) : TlsaRecord :=
  mkTlsa (TlsaUsage_from_u8 usage) (TlsaSelector_from_u8 selector) (TlsaMatching_from_u8 matching) data.
Definition strip_root (name : str) : str := drop_while_end (Z.eqb DOT) name.
Definition map_mx (preference : Z) (exchange : str) : MxRecord := mkMx preference (strip_root exchange).
Definition map_txt (txt_data : list bytes) : TxtRecord := txt_data ≫= from_utf8_lossy.

Definition mx_of (r : Record_) : option MxRecord :=
  match rr_data r with DataMX p e => Some (map_mx p e) | _ => None end.
Definition txt_of (r : Record_) : option TxtRecord :=
  match rr_data r with DataTXT d => Some (map_txt d) | _ => None end.
Definition ptr_of (r : Record_) : option PtrRecord :=
  match rr_data r with DataPTR n => Some (strip_root n) | _ => None end.
Definition tlsa_of (r : Record_) : option TlsaRecord :=
  match rr_data r with DataTLSA u s m d => Some (map_tlsa u s m d) | _ => None end.

Definition lookup_mx (domain : str) : result NetworkError (list MxRecord) :=
  records ← answers domain RtMX; Ok (filter_map mx_of records).
Definition lookup_ip (host : str) : result NetworkError (list AddressRecord) :=
  match inner_lookup_ip host with
  | Found l => Ok l
  | NoRecords => Ok []
  | Failed reason => Err (ResolveError host reason)
  end.
Definition lookup_txt (name : str) : result NetworkError (list TxtRecord) :=
  records ← answers name RtTXT; Ok (filter_map txt_of records).
Definition reverse_lookup (ip : IpAddr) : result NetworkError (list PtrRecord) :=
  records ← answers (reverse_name ip) RtPTR; Ok (filter_map ptr_of records).
Definition then_some {A} (l : list A) : option (list A) := if bool_decide (l = []) then None else Some l.
Definition secure_tlsa (port : Z) (host : str) : result NetworkError (option (list TlsaRecord)) :=
  let name := [95] ++ show port ++ lit "._tcp." ++ strip_root host in
  match secure_answers name RtTLSA with
  | None => Ok None
  | Some answers => Ok (then_some (filter_map tlsa_of answers))
  end.
Definition secure_mx (domain : str) : result NetworkError (option (list MxRecord)) :=
  match secure_answers domain RtMX with
  | None => Ok None
  | Some answers => Ok (then_some (filter_map mx_of answers))
  end.

Definition HickoryResolver : DnsResolver :=
  mkResolver lookup_mx lookup_ip lookup_txt reverse_lookup secure_tlsa secure_mx.

(** The DNSSEC gate: an answer is given only when the validating resolver returned
    it, every record of the type asked for was proved secure, and there is one. *)
Lemma secure_answers_Some name t l :
  secure_answers name t = Some l ↔
  ∃ all, validating_lookup name t = Found all ∧ l = filter (λ r, record_type (rr_data r) = t) all ∧ l ≠ [] ∧
    Forall (λ r, rr_secure r = true) l.
Proof.
  unfold secure_answers. destruct (validating_lookup name t) as [all| |]; [|naive_solver..].
  case_bool_decide as Hn; [naive_solver|].
  destruct (forallb rr_secure _) eqn:Hf.
  - split; [intros [= <-]|naive_solver]. exists all. split_and!; [done..|].
    apply Forall_forall. intros r Hr%list_elem_of_In. rewrite forallb_forall in Hf. by apply Hf.
  - split; [done|]. intros (all' & [= <-] & -> & _ & HF). exfalso. apply not_true_iff_false in Hf. apply Hf.
    apply forallb_forall. intros r Hr%list_elem_of_In. rewrite Forall_forall in HF. by apply HF.
Qed.

Lemma then_some_Some {A} (l k : list A) : then_some l = Some k ↔ k = l ∧ l ≠ [].
Proof. unfold then_some. case_bool_decide; naive_solver. Qed.

(** Mail exchanges and TLSA records used for DANE were all validated by DNSSEC: each
    record returned by [secure_mx] or [secure_tlsa] is the image of an answer proved
    secure, in a record set in which every record was, and the set is not empty; a
    failed or unsigned lookup gives nothing, never an error. *)
Theorem hickory_secure_only (port : Z) (host : str) :
  (∃ r, dns_secure_mx HickoryResolver host = Ok r ∧
    ∀ rs, r = Some rs → rs ≠ [] ∧ ∃ all, validating_lookup host RtMX = Found all ∧
      Forall (λ a, record_type (rr_data a) = RtMX → rr_secure a = true) all ∧
      Forall (λ m, ∃ a, a ∈ all ∧ rr_secure a = true ∧ mx_of a = Some m) rs) ∧
  (∃ r, dns_secure_tlsa HickoryResolver port host = Ok r ∧
    ∀ rs, r = Some rs → rs ≠ [] ∧ ∃ all, validating_lookup ([95] ++ show port ++ lit "._tcp." ++ strip_root host) RtTLSA = Found all ∧
      Forall (λ a, record_type (rr_data a) = RtTLSA → rr_secure a = true) all ∧
      Forall (λ m, ∃ a, a ∈ all ∧ rr_secure a = true ∧ tlsa_of a = Some m) rs).
Proof.
  assert (∀ {A} (f : Record_ → option A) name t rs,
    match secure_answers name t with None => None | Some l => then_some (filter_map f l) end = Some rs →
    rs ≠ [] ∧ ∃ all, validating_lookup name t = Found all ∧
      Forall (λ a, record_type (rr_data a) = t → rr_secure a = true) all ∧
      Forall (λ m, ∃ a, a ∈ all ∧ rr_secure a = true ∧ f a = Some m) rs) as H.
  { intros A f name t rs. destruct (secure_answers name t) as [l|] eqn:E; [|done].
    apply secure_answers_Some in E as (all & Hall & -> & _ & HF). rewrite Forall_forall in HF.
    intros [-> Hn]%then_some_Some. split; [done|]. exists all. rewrite !Forall_forall. split_and!; [done|..].
    - intros a Ha Ht. apply HF. by apply list_elem_of_filter.
    - intros m (a & Ha & Hm)%list_elem_of_omap. exists a. split_and!; [|by apply HF|done].
      by apply list_elem_of_filter in Ha as [_ ?]. }
  unfold HickoryResolver. simpl. unfold secure_mx, secure_tlsa. split.
  - exists (match secure_answers host RtMX with None => None | Some l => then_some (filter_map mx_of l) end).
    split; [by destruct (secure_answers host RtMX)|]. intros rs. apply H.
  - set (name := _ ++ _). exists (match secure_answers name RtTLSA with None => None | Some l => then_some (filter_map tlsa_of l) end).
    split; [by destruct (secure_answers name RtTLSA)|]. intros rs. apply H.
Qed.
End resolver.

End Hickory.
