(* ===== verification/Spf.v ===== *)
(** * SPF: records, macros and evaluation

    crates/network/src/spf: the record parser (record.rs), macro expansion
    (macro_expand.rs) and [check_host] (eval.rs) over the [DnsResolver] contract,
    which is a parameter whose answers are fixed for the duration of one check.
    The evaluator's state is its two budget counters and, for the theorems, the
    list of the queries it has made.  [check_host] calls itself for [include] and
    [redirect]: the model takes fuel, and [spf_evaluate] gives it one more than the
    lookup budget, which the theorems show is never used up. *)
From S2P Require Import Prelude RustStr Net AddrParse Received Dmarc Dns.

Definition SLASH2 : str := [SLASH; SLASH].
Definition spf_err {A} (reason : str) : result NetworkError A := Err (RecordError (lit "SPF") reason).

(** ** Records *)

Inductive Qualifier := QPass | QFail | QSoftFail | QNeutral.
#[export] Instance Qualifier_eq_dec : EqDecision Qualifier.
Proof. solve_decision. Defined.
Definition Qualifier_from_char (c : char) : option Qualifier :=
  if c =? 43 then Some QPass else if c =? 45 then Some QFail
  else if c =? 126 then Some QSoftFail else if c =? 63 then Some QNeutral else None.

Inductive Mechanism :=
  | MechAll
  | MechIp4 (net prefix : Z)
  | MechIp6 (net prefix : Z)
  | MechA (domain : option str) (v4 v6 : Z)
  | MechMx (domain : option str) (v4 v6 : Z)
  | MechInclude (spec : str)
  | MechExists (spec : str)
  | MechPtr (domain : option str).
#[export] Instance Mechanism_eq_dec : EqDecision Mechanism.
Proof. solve_decision. Defined.
Record Directive := mkDirective { qualifier : Qualifier; mechanism : Mechanism }.
#[export] Instance Directive_eq_dec : EqDecision Directive.
Proof. solve_decision. Defined.
Record SpfRecord := mkSpfRecord { directives : list Directive; redirect : option str }.
#[export] Instance SpfRecord_eq_dec : EqDecision SpfRecord.
Proof. solve_decision. Defined.

Definition is_spf_version (term : str) : bool := eq_ignore_case term (lit "v=spf1").

Definition is_alnum (c : char) : bool := is_ascii_digit c || is_ascii_alpha c.
Definition modifier_name_ok (name : str) : bool :=
  match name with
  | [] => false
  | c :: rest => is_ascii_alpha c && forallb (λ c, is_alnum c || (c =? 45) || (c =? 95) || (c =? DOT)) rest
  end.
(** The [=] comes before any [:] exactly when the name holds no [:]. *)
Definition split_modifier (term : str) : option (str * str) :=
  match split_once 61 term with
  | None => None
  | Some (name, rest) =>
      if contains_char COLON name then None
      else if modifier_name_ok name then Some (name, rest) else None
  end.

Definition parse_prefix (p : str) (max : Z) : result NetworkError Z :=
  match parse_uint U8_MAX p with
  | None => spf_err (lit "bad CIDR prefix `" ++ p ++ lit "`")
  | Some n => if max <? n then spf_err (lit "CIDR prefix " ++ show n ++ lit " exceeds " ++ show max) else Ok n
  end.

Definition parse_ip4_cidr (spec : str) : result NetworkError (Z * Z) :=
  '(addr, prefix) ← match split_once SLASH spec with
                    | Some (a, p) => n ← parse_prefix p 32; Ok (a, n)
                    | None => Ok (spec, 32)
                    end;
  match parse_v4 addr with
  | Some net => Ok (net, prefix)
  | None => spf_err (lit "bad ip4 address `" ++ addr ++ lit "`")
  end.
Definition parse_ip6_cidr (spec : str) : result NetworkError (Z * Z) :=
  '(addr, prefix) ← match split_once SLASH spec with
                    | Some (a, p) => n ← parse_prefix p 128; Ok (a, n)
                    | None => Ok (spec, 128)
                    end;
  match parse_v6 addr with
  | Some net => Ok (net, prefix)
  | None => spf_err (lit "bad ip6 address `" ++ addr ++ lit "`")
  end.

Definition parse_dual_cidr (s : str) : result NetworkError (Z * Z) :=
  if bool_decide (s = []) then Ok (32, 128) else
  let '(v4_part, v6_part) := match find_sub SLASH2 s with
                             | Some i => (take i s, Some (drop (i + 2) s))
                             | None => (s, None)
                             end in
  v4 ← match strip_prefix [SLASH] v4_part with
       | None | Some [] => Ok 32
       | Some p => parse_prefix p 32
       end;
  v6 ← match v6_part with Some p => parse_prefix p 128 | None => Ok 128 end;
  Ok (v4, v6).

Definition parse_domain_and_dual_cidr (rest : option str) : result NetworkError (option str * Z * Z) :=
  match rest with
  | None | Some [] => Ok (None, 32, 128)
  | Some rest =>
      let '(domain_part, cidr_part) := match split_once SLASH rest with
                                       | Some (d, c) => (d, SLASH :: c)
                                       | None => (rest, [])
                                       end in
      let domain := if bool_decide (domain_part = []) then None else Some domain_part in
      '(v4, v6) ← parse_dual_cidr cidr_part;
      Ok (domain, v4, v6)
  end.

(** [rest.filter(|r| !r.is_empty())]. *)
Definition nonempty (rest : option str) : option str :=
  match rest with Some [] => None | _ => rest end.

(** The name of a mechanism, and its value or its [/cidr] suffix. *)
Definition split_mechanism (body : str) : str * option str :=
  match split_once COLON body with
  | Some (n, r) => (n, Some r)
  | None => match split_once SLASH body with
            | Some (n, r) => (n, Some (SLASH :: r))
            | None => (body, None)
            end
  end.
Definition mechanism_of (name_lc : str) (rest : option str) : result NetworkError Mechanism :=
  if name_lc =s? lit "all" then Ok MechAll
  else if name_lc =s? lit "ip4" then
    spec ← ok_or (RecordError (lit "SPF") (lit "ip4 requires an address")) rest;
    '(net, prefix) ← parse_ip4_cidr spec; Ok (MechIp4 net prefix)
  else if name_lc =s? lit "ip6" then
    spec ← ok_or (RecordError (lit "SPF") (lit "ip6 requires an address")) rest;
    '(net, prefix) ← parse_ip6_cidr spec; Ok (MechIp6 net prefix)
  else if (name_lc =s? lit "a") || (name_lc =s? lit "mx") then
    '(domain, v4, v6) ← parse_domain_and_dual_cidr rest;
    Ok (if name_lc =s? lit "a" then MechA domain v4 v6 else MechMx domain v4 v6)
  else if name_lc =s? lit "include" then
    spec ← ok_or (RecordError (lit "SPF") (lit "include requires a domain")) (nonempty rest);
    Ok (MechInclude spec)
  else if name_lc =s? lit "exists" then
    spec ← ok_or (RecordError (lit "SPF") (lit "exists requires a domain")) (nonempty rest);
    Ok (MechExists spec)
  else if name_lc =s? lit "ptr" then Ok (MechPtr (nonempty rest))
  else spf_err (lit "unknown mechanism `" ++ name_lc ++ lit "`").
Definition parse_mechanism (body : str) : result NetworkError Mechanism :=
  let '(name, rest) := split_mechanism body in mechanism_of (lowercase name) rest.

Definition parse_directive (term : str) : result NetworkError Directive :=
  match term with
  | [] => spf_err (lit "empty term")
  | first :: t =>
      let '(q, body) := match Qualifier_from_char first with
                        | Some q => (q, t)
                        | None => (QPass, term)
                        end in
      m ← parse_mechanism body; Ok (mkDirective q m)
  end.

Fixpoint parse_terms (terms : list str) (ds : list Directive) (redir : option str) : result NetworkError SpfRecord :=
  match terms with
  | [] => Ok (mkSpfRecord ds redir)
  | term :: terms =>
      match split_modifier term with
      | Some (name, value) =>
          parse_terms terms ds (if lowercase name =s? lit "redirect" then Some value else redir)
      | None => d ← parse_directive term; parse_terms terms (ds ++ [d]) redir
      end
  end.
Definition SpfRecord_parse (raw : str) : result NetworkError SpfRecord :=
  match split_whitespace raw with
  | v :: terms => if is_spf_version v then parse_terms terms [] None
                  else spf_err (lit "missing v=spf1 version term")
  | [] => spf_err (lit "missing v=spf1 version term")
  end.

Example spf_record_1 :
  SpfRecord_parse (lit "V=spf1 a:x.org/24//64 -ip4:192.0.2.0/24 ?mx redirect=_spf.x.org ip6:2001:db8::/32 -all") =
  Ok (mkSpfRecord
        [mkDirective QPass (MechA (Some (lit "x.org")) 24 64);
         mkDirective QFail (MechIp4 (v4_new 192 0 2 0) 24);
         mkDirective QNeutral (MechMx None 32 128);
         mkDirective QPass (MechIp6 (v6_new 8193 3512 0 0 0 0 0 0) 32);
         mkDirective QFail MechAll] (Some (lit "_spf.x.org"))).
Proof. by vm_compute. Qed.
Example spf_record_bad :
  is_ok (SpfRecord_parse (lit "v=spf1 ip4:192.0.2.0/33")) = false ∧ is_ok (SpfRecord_parse (lit "v=spf1 foo")) = false ∧
  is_ok (SpfRecord_parse (lit "v=spf2 all")) = false ∧ is_ok (SpfRecord_parse (lit "v=spf1 include:")) = false.
Proof. by vm_compute. Qed.

(** ** Macros *)

Record MacroContext := mkMacroContext {
  mc_ip : IpAddr; mc_sender_local : str; mc_sender_domain : str; mc_helo : str; mc_domain : str }.

Definition is_delimiter (c : char) : bool :=
  bool_decide (c ∈ ([46; 45; 43; 44; 47; 95; 61] : list Z)).

(** [Ipv6Addr::octets]. *)
Definition v6_octet (a i : Z) : Z := Z.land (Z.shiftr a (120 - 8 * i)) 255.
Definition ip_dotted (ip : IpAddr) : str :=
  match ip with
  | V4 a => v4_to_string a
  | V6 a =>
      join [DOT] (seqZ 0 16 ≫= λ i, let octet := v6_octet a i in
                    [show_hex (Z.shiftr octet 4); show_hex (Z.land octet 15)])
  end.

(** [{:X}] of a half byte. *)
Definition hex_upper (d : Z) : char := if d <? 10 then 48 + d else 55 + d.
Definition url_escape_byte (b : byte) : str :=
  if is_alnum b || (b =? 45) || (b =? DOT) || (b =? 95) || (b =? 126) then [b]
  else [37; hex_upper (b / 16); hex_upper (b mod 16)].
Definition url_escape (s : str) : str := utf8_encode s ≫= url_escape_byte.

Definition macro_value (letter : char) (ctx : MacroContext) : option str :=
  if letter =? 115 then Some (mc_sender_local ctx ++ [AT] ++ mc_sender_domain ctx)
  else if letter =? 108 then Some (mc_sender_local ctx)
  else if letter =? 111 then Some (mc_sender_domain ctx)
  else if letter =? 100 then Some (mc_domain ctx)
  else if letter =? 104 then Some (mc_helo ctx)
  else if letter =? 105 then Some (ip_dotted (mc_ip ctx))
  else if letter =? 118 then Some (match mc_ip ctx with V4 _ => lit "in-addr" | V6 _ => lit "ip6" end)
  else if letter =? 112 then Some (lit "unknown")
  else None.

Fixpoint take_while (P : Z → bool) (s : str) : str :=
  match s with [] => [] | c :: t => if P c then c :: take_while P t else [] end.

Definition keep_right {A} (keep : option Z) (parts : list A) : list A :=
  match keep with
  | Some n => if n <? len parts then drop (length parts - Z.to_nat n) parts else parts
  | None => parts
  end.

Definition expand_one (body : str) (ctx : MacroContext) : result NetworkError str :=
  match body with
  | [] => spf_err (lit "empty macro `%{}`")
  | letter :: rest =>
      let digits := take_while is_ascii_digit rest in
      keep ← match digits with
             | [] => Ok None
             | _ => match parse_uint USIZE_MAX digits with
                    | Some n => Ok (Some n)
                    | None => spf_err (lit "bad macro digit count")
                    end
             end;
      let tail := drop (length digits) rest in
      let reverse_flag := starts_with [114] tail || starts_with [82] tail in
      let tail := if reverse_flag then drop 1 tail else tail in
      if negb (forallb is_delimiter tail) then spf_err (lit "invalid macro transformer delimiters") else
      let delims := match tail with [] => [DOT] | _ => tail end in
      let upper := (65 <=? letter) && (letter <=? 90) in
      match macro_value (to_ascii_lower letter) ctx with
      | None => spf_err (lit "unknown macro letter `" ++ [letter] ++ lit "`")
      | Some value =>
          let parts := split_on (λ c, bool_decide (c ∈ delims)) value in
          let parts := if reverse_flag then reverse parts else parts in
          let joined := join [DOT] (keep_right keep parts) in
          Ok (if upper then url_escape joined else joined)
      end
  end.

(** [body] is the macro being read, between its [%{] and its closing brace. *)
Fixpoint expand_go (ctx : MacroContext) (body : option str) (s : str) : result NetworkError str :=
  match body, s with
  | None, [] => Ok []
  | None, c :: t =>
      if c =? 37 then
        match t with
        | [] => spf_err (lit "invalid macro escape (expected %%, %_, %-, or %{...})")
        | e :: t =>
            if e =? 37 then out ← expand_go ctx None t; Ok (37 :: out)
            else if e =? 95 then out ← expand_go ctx None t; Ok (SP :: out)
            else if e =? 45 then out ← expand_go ctx None t; Ok (lit "%20" ++ out)
            else if e =? 123 then expand_go ctx (Some []) t
            else spf_err (lit "invalid macro escape (expected %%, %_, %-, or %{...})")
        end
      else out ← expand_go ctx None t; Ok (c :: out)
  | Some _, [] => spf_err (lit "unterminated macro `%{`")
  | Some body, c :: t =>
      if c =? 125 then v ← expand_one body ctx; out ← expand_go ctx None t; Ok (v ++ out)
      else expand_go ctx (Some (body ++ [c])) t
  end.
Definition expand (spec : str) (ctx : MacroContext) : result NetworkError str := expand_go ctx None spec.

Definition rfc_ctx : MacroContext :=
  mkMacroContext (V4 (v4_new 192 0 2 3)) (lit "strong-bad") (lit "email.example.com") (lit "mx.example.com")
    (lit "email.example.com").
Example expand_rfc :
  expand (lit "%{d2}") rfc_ctx = Ok (lit "example.com") ∧ expand (lit "%{dr}") rfc_ctx = Ok (lit "com.example.email") ∧
  expand (lit "%{d2r}") rfc_ctx = Ok (lit "example.email") ∧ expand (lit "%{l-}") rfc_ctx = Ok (lit "strong.bad") ∧
  expand (lit "%{ir}.%{v}.x%-") rfc_ctx = Ok (lit "3.2.0.192.in-addr.x%20") ∧
  expand (lit "%{S}") rfc_ctx = Ok (lit "strong-bad%40email.example.com") ∧
  is_ok (expand (lit "%{i") rfc_ctx) = false ∧ is_ok (expand (lit "%q") rfc_ctx) = false.
Proof. by vm_compute. Qed.

(** ** Evaluation *)

Definition MAX_LOOKUPS : Z := 10.
Definition MAX_VOID : Z := 2.
Definition MAX_HOSTS : nat := 10.

Inductive DnsQuery := QueryTxt (name : str) | QueryIp (host : str) | QueryMx (name : str) | QueryPtr (ip : IpAddr).
(** [Evaluator]: its counters, and the queries made so far. *)
Record Evaluator := mkEvaluator { ev_lookups : Z; ev_void : Z; ev_queries : list DnsQuery }.

Inductive MechOutcome := Match | NoMatch | MechError (r : SpfResult).
Definition MechOutcome_from (matched : bool) : MechOutcome := if matched then Match else NoMatch.

Definition qualifier_result (q : Qualifier) : SpfResult :=
  match q with QPass => SpfPass | QFail => SpfFail | QSoftFail => SpfSoftFail | QNeutral => SpfNeutral end.

(** [u32::MAX << n], truncated to the width. *)
Definition cidr_mask (width prefix : Z) : Z := Z.land (Z.shiftl (Z.ones width) (width - prefix)) (Z.ones width).
Definition cidr4 (net prefix ip : Z) : bool :=
  if prefix =? 0 then true else if 32 <? prefix then false
  else Z.land net (cidr_mask 32 prefix) =? Z.land ip (cidr_mask 32 prefix).
Definition cidr6 (net prefix ip : Z) : bool :=
  if prefix =? 0 then true else if 128 <? prefix then false
  else Z.land net (cidr_mask 128 prefix) =? Z.land ip (cidr_mask 128 prefix).
Definition ip_in_net (client net : IpAddr) (v4 v6 : Z) : bool :=
  match client, net with
  | V4 c, V4 n => cidr4 n v4 c
  | V6 c, V6 n => cidr6 n v6 c
  | _, _ => false
  end.

Definition charge_lookup (st : Evaluator) : Evaluator * bool :=
  let st := mkEvaluator (add_u32 (ev_lookups st) 1) (ev_void st) (ev_queries st) in
  (st, ev_lookups st <=? MAX_LOOKUPS).
Definition charge_void (st : Evaluator) : Evaluator * bool :=
  let st := mkEvaluator (ev_lookups st) (add_u32 (ev_void st) 1) (ev_queries st) in
  (st, ev_void st <=? MAX_VOID).
Definition ask (q : DnsQuery) (st : Evaluator) : Evaluator :=
  mkEvaluator (ev_lookups st) (ev_void st) (ev_queries st ++ [q]).
(** [if empty && let Err(r) = self.charge_void()]. *)
Definition charge_void_if (empty : bool) (st : Evaluator) : Evaluator * bool :=
  if empty then charge_void st else (st, true).

(** [unwrap_or_default] on a lookup. *)
Definition or_empty {A} (r : result NetworkError (list A)) : list A :=
  match r with Ok l => l | Err _ => [] end.

Section evaluator.
Context (resolver : DnsResolver) (ip : IpAddr) (sender_local sender_domain helo : str).

Definition ev_expand (spec current : str) : option str :=
  ok (expand spec (mkMacroContext ip sender_local sender_domain helo current)).
Definition resolve_target (domain : option str) (current : str) : option str :=
  match domain with Some spec => ev_expand spec current | None => Some current end.
Definition spf_lookup_ip (host : str) (st : Evaluator) : Evaluator * list IpAddr :=
  (ask (QueryIp host) st, or_empty (dns_ip resolver host)).

Definition a_match (domain : option str) (current : str) (v4 v6 : Z) (st : Evaluator) : Evaluator * MechOutcome :=
  let '(st, within) := charge_lookup st in
  if negb within then (st, MechError SpfPermError) else
  match resolve_target domain current with
  | None => (st, MechError SpfPermError)
  | Some target =>
      let '(st, addrs) := spf_lookup_ip target st in
      let '(st, within) := charge_void_if (bool_decide (addrs = [])) st in
      if negb within then (st, MechError SpfPermError)
      else (st, MechOutcome_from (existsb (λ a, ip_in_net ip a v4 v6) addrs))
  end.

Fixpoint mx_hosts (v4 v6 : Z) (mxs : list MxRecord) (st : Evaluator) : Evaluator * MechOutcome :=
  match mxs with
  | [] => (st, NoMatch)
  | mx :: mxs =>
      let '(st, addrs) := spf_lookup_ip (mx_exchange mx) st in
      if existsb (λ a, ip_in_net ip a v4 v6) addrs then (st, Match) else mx_hosts v4 v6 mxs st
  end.
Definition mx_match (domain : option str) (current : str) (v4 v6 : Z) (st : Evaluator) : Evaluator * MechOutcome :=
  let '(st, within) := charge_lookup st in
  if negb within then (st, MechError SpfPermError) else
  match resolve_target domain current with
  | None => (st, MechError SpfPermError)
  | Some target =>
      let mxs := or_empty (dns_mx resolver target) in
      let '(st, within) := charge_void_if (bool_decide (mxs = [])) (ask (QueryMx target) st) in
      if negb within then (st, MechError SpfPermError)
      else mx_hosts v4 v6 (take MAX_HOSTS mxs) st
  end.

Definition exists_match (spec current : str) (st : Evaluator) : Evaluator * MechOutcome :=
  let '(st, within) := charge_lookup st in
  if negb within then (st, MechError SpfPermError) else
  match ev_expand spec current with
  | None => (st, MechError SpfPermError)
  | Some target =>
      let '(st, addrs) := spf_lookup_ip target st in
      let '(st, within) := charge_void_if (bool_decide (addrs = [])) st in
      if negb within then (st, MechError SpfPermError)
      else (st, MechOutcome_from (negb (bool_decide (addrs = []))))
  end.

Fixpoint ptr_names (target_lc : str) (names : list PtrRecord) (st : Evaluator) : Evaluator * MechOutcome :=
  match names with
  | [] => (st, NoMatch)
  | name :: names =>
      let name_lc := lowercase name in
      let within := (name_lc =s? target_lc) || ends_with (DOT :: target_lc) name_lc in
      if within then
        let '(st, addrs) := spf_lookup_ip name st in
        if bool_decide (ip ∈ addrs) then (st, Match) else ptr_names target_lc names st
      else ptr_names target_lc names st
  end.
Definition ptr_match (domain : option str) (current : str) (st : Evaluator) : Evaluator * MechOutcome :=
  let '(st, within) := charge_lookup st in
  if negb within then (st, MechError SpfPermError) else
  match resolve_target domain current with
  | None => (st, MechError SpfPermError)
  | Some target =>
      let names := or_empty (dns_reverse resolver ip) in
      let '(st, within) := charge_void_if (bool_decide (names = [])) (ask (QueryPtr ip) st) in
      if negb within then (st, MechError SpfPermError)
      else ptr_names (lowercase target) (take MAX_HOSTS names) st
  end.

(** §5.2: what an [include] makes of the included policy's result. *)
Definition include_outcome (r : SpfResult) : MechOutcome :=
  match r with
  | SpfPass => Match
  | SpfFail | SpfSoftFail | SpfNeutral => NoMatch
  | SpfNone => MechError SpfPermError
  | SpfTempError => MechError SpfTempError
  | SpfPermError => MechError SpfPermError
  end.

(** §6.1: a redirect to a domain without a policy is an error. *)
Definition redirect_result (r : SpfResult) : SpfResult :=
  match r with SpfNone => SpfPermError | other => other end.

Definition is_spf_text (t : str) : bool :=
  match split_whitespace t with v :: _ => is_spf_version v | [] => false end.
(** The policy published at a domain: none, unusable, or a record. *)
Inductive Policy := NoPolicy | BadPolicy | HasPolicy (record : SpfRecord).
Definition spf_policy (domain : str) : Policy :=
  match dns_txt resolver domain with
  | Err _ => NoPolicy
  | Ok txts =>
      match filter (λ t, is_spf_text t = true) txts with
      | [] => NoPolicy
      | [raw] => match SpfRecord_parse raw with Ok r => HasPolicy r | Err _ => BadPolicy end
      | _ => BadPolicy
      end
  end.

Section host.
(** The recursive call; [None] is out of fuel. *)
Context (host : Evaluator → str → option (Evaluator * SpfResult)).

Definition include_match (spec current : str) (st : Evaluator) : option (Evaluator * MechOutcome) :=
  let '(st, within) := charge_lookup st in
  if negb within then Some (st, MechError SpfPermError) else
  match ev_expand spec current with
  | None => Some (st, MechError SpfPermError)
  | Some target => '(st, r) ← host st target; Some (st, include_outcome r)
  end.

Definition ev_matches (mech : Mechanism) (current : str) (st : Evaluator) : option (Evaluator * MechOutcome) :=
  match mech with
  | MechAll => Some (st, Match)
  | MechIp4 net prefix =>
      Some (st, match ip with V4 c => MechOutcome_from (cidr4 net prefix c) | V6 _ => NoMatch end)
  | MechIp6 net prefix =>
      Some (st, match ip with V6 c => MechOutcome_from (cidr6 net prefix c) | V4 _ => NoMatch end)
  | MechA domain v4 v6 => Some (a_match domain current v4 v6 st)
  | MechMx domain v4 v6 => Some (mx_match domain current v4 v6 st)
  | MechInclude spec => include_match spec current st
  | MechExists spec => Some (exists_match spec current st)
  | MechPtr domain => Some (ptr_match domain current st)
  end.

Fixpoint run_directives (ds : list Directive) (redir : option str) (domain : str) (st : Evaluator)
    : option (Evaluator * SpfResult) :=
  match ds with
  | d :: ds =>
      '(st, o) ← ev_matches (mechanism d) domain st;
      match o with
      | Match => Some (st, qualifier_result (qualifier d))
      | NoMatch => run_directives ds redir domain st
      | MechError r => Some (st, r)
      end
  | [] =>
      match redir with
      | Some spec =>
          let '(st, within) := charge_lookup st in
          if negb within then Some (st, SpfPermError) else
          match ev_expand spec domain with
          | None => Some (st, SpfPermError)
          | Some target =>
              '(st, r) ← host st target;
              Some (st, redirect_result r)
          end
      | None => Some (st, SpfNeutral)
      end
  end.
End host.

Fixpoint check_host (fuel : nat) (st : Evaluator) (domain : str) : option (Evaluator * SpfResult) :=
  match fuel with
  | O => None
  | S fuel =>
      let st := ask (QueryTxt domain) st in
      match spf_policy domain with
      | NoPolicy => Some (st, SpfNone)
      | BadPolicy => Some (st, SpfPermError)
      | HasPolicy record => run_directives (check_host fuel) (directives record) (redirect record) domain st
      end
  end.
End evaluator.

(** The identity checked: the sender's, or [postmaster] at the HELO name. *)
Definition spf_identity (helo mail_from : str) : str * str :=
  match rsplit_once AT mail_from with
  | Some (l, d) => if bool_decide (l ≠ [] ∧ d ≠ []) then (l, d) else (lit "postmaster", helo)
  | None => (lit "postmaster", helo)
  end.
Definition spf_fuel : nat := S (Z.to_nat MAX_LOOKUPS).
(** The final state and the result of [evaluate]. *)
Definition spf_run (resolver : DnsResolver) (ip : IpAddr) (helo mail_from : str) : option (Evaluator * SpfResult) :=
  let '(local, domain) := spf_identity helo mail_from in
  let st := mkEvaluator 0 0 [] in
  if bool_decide (domain = []) then Some (st, SpfNone)
  else check_host resolver ip local domain helo spf_fuel st domain.

(** ** The budget *)

Definition ev_ok (st : Evaluator) : Prop := 0 ≤ ev_lookups st ≤ MAX_LOOKUPS ∧ 0 ≤ ev_void st ≤ MAX_VOID.
(** One of the two budgets has been exceeded, by one. *)
Definition ev_over (st : Evaluator) : Prop :=
  0 ≤ ev_lookups st ≤ MAX_LOOKUPS + 1 ∧ 0 ≤ ev_void st ≤ MAX_VOID + 1 ∧
  (ev_lookups st = MAX_LOOKUPS + 1 ∨ ev_void st = MAX_VOID + 1).
(** At most [1 + MAX_HOSTS] queries for each term charged to the lookup budget,
    and [c] besides. *)
Definition ev_spent (c : Z) (st st' : Evaluator) : Prop :=
  ev_lookups st ≤ ev_lookups st' ∧
  len (ev_queries st') ≤
    len (ev_queries st) + c + 11 * (Z.min MAX_LOOKUPS (ev_lookups st') - Z.min MAX_LOOKUPS (ev_lookups st)).
(** A step within the budget behaves as [Q] says; beyond it the outcome is [e]. *)
Definition budgeted {R} (e : R) (Q : R → Prop) (c : Z) (st : Evaluator) (p : Evaluator * R) : Prop :=
  (ev_ok p.1 ∧ Q p.2 ∨ ev_over p.1 ∧ p.2 = e) ∧ ev_spent c st p.1.

Lemma ev_spent_trans c c' st st' st'' : ev_spent c st st' → ev_spent c' st' st'' → ev_spent (c + c') st st''.
Proof. unfold ev_spent. lia. Qed.
Lemma ev_spent_refl st : ev_spent 0 st st.
Proof. unfold ev_spent. lia. Qed.

Lemma charge_lookup_spec st :
  ev_ok st →
  (ev_lookups st < MAX_LOOKUPS ∧ ∃ st', charge_lookup st = (st', true) ∧ ev_ok st' ∧
     ev_lookups st' = ev_lookups st + 1 ∧ ev_queries st' = ev_queries st) ∨
  (∃ st', charge_lookup st = (st', false) ∧ ev_over st' ∧ ev_spent 0 st st').
Proof.
  intros [Hl Hv]. unfold charge_lookup, ev_over, ev_spent, ev_ok, MAX_LOOKUPS, MAX_VOID in *.
  destruct st as [l v q]. simpl in *. rewrite add_u32_small by (unfold U32_MAX; lia).
  destruct (Z.leb_spec (l + 1) 10).
  - left. split; [lia|]. eexists. split_and!; [done|simpl; lia..|done].
  - right. eexists. split_and!; [done|simpl; lia..].
Qed.

Lemma charge_void_if_spec b st :
  ev_ok st →
  (∃ st', charge_void_if b st = (st', true) ∧ ev_ok st' ∧ ev_lookups st' = ev_lookups st ∧
     ev_queries st' = ev_queries st) ∨
  (∃ st', charge_void_if b st = (st', false) ∧ ev_over st' ∧ ev_lookups st' = ev_lookups st ∧
     ev_queries st' = ev_queries st).
Proof.
  intros [Hl Hv]. unfold charge_void_if, charge_void, ev_over, ev_ok, MAX_LOOKUPS, MAX_VOID in *.
  destruct b; [|by left; exists st]. destruct st as [l v q]. simpl in *.
  rewrite add_u32_small by (unfold U32_MAX; lia).
  destruct (Z.leb_spec (v + 1) 2); [left|right]; eexists; split_and!; done || simpl; lia.
Qed.

(** ** The reference semantics

    What a policy means without any budget, as a relation: the evaluator follows it
    as long as it stays within the budget. *)
Section reference.
Context (resolver : DnsResolver) (ip : IpAddr) (sender_local sender_domain helo : str).
Notation expand_at := (ev_expand ip sender_local sender_domain helo).
Notation target_of := (resolve_target ip sender_local sender_domain helo).
Notation addrs_of := (λ host, or_empty (dns_ip resolver host)).

Definition within_domain (target name : str) : Prop :=
  lowercase name = lowercase target ∨ ∃ t, lowercase name = t ++ DOT :: lowercase target.

(** Mechanisms that do not evaluate another policy: an outcome, given the target. *)
Definition a_holds (v4 v6 : Z) (target : str) : Prop :=
  ∃ a, a ∈ addrs_of target ∧ ip_in_net ip a v4 v6 = true.
Definition mx_holds (v4 v6 : Z) (target : str) : Prop :=
  ∃ mx, mx ∈ take MAX_HOSTS (or_empty (dns_mx resolver target)) ∧ a_holds v4 v6 (mx_exchange mx).
Definition exists_holds (target : str) : Prop := addrs_of target ≠ [].
Definition ptr_holds (target : str) : Prop :=
  ∃ name, name ∈ take MAX_HOSTS (or_empty (dns_reverse resolver ip)) ∧ within_domain target name ∧ ip ∈ addrs_of name.

Definition outcome_is (target : option str) (P : str → Prop) (o : MechOutcome) : Prop :=
  match target with
  | None => o = MechError SpfPermError
  | Some t => (o = Match ∧ P t) ∨ (o = NoMatch ∧ ¬ P t)
  end.

Inductive host_ref : str → SpfResult → Prop :=
  | host_none d : spf_policy resolver d = NoPolicy → host_ref d SpfNone
  | host_bad d : spf_policy resolver d = BadPolicy → host_ref d SpfPermError
  | host_run d record r :
      spf_policy resolver d = HasPolicy record →
      run_ref (directives record) (redirect record) d r → host_ref d r
with mech_ref : Mechanism → str → MechOutcome → Prop :=
  | mech_all d : mech_ref MechAll d Match
  | mech_ip4 net p d :
      mech_ref (MechIp4 net p) d (match ip with V4 c => MechOutcome_from (cidr4 net p c) | V6 _ => NoMatch end)
  | mech_ip6 net p d :
      mech_ref (MechIp6 net p) d (match ip with V6 c => MechOutcome_from (cidr6 net p c) | V4 _ => NoMatch end)
  | mech_a dom v4 v6 d o : outcome_is (target_of dom d) (a_holds v4 v6) o → mech_ref (MechA dom v4 v6) d o
  | mech_mx dom v4 v6 d o : outcome_is (target_of dom d) (mx_holds v4 v6) o → mech_ref (MechMx dom v4 v6) d o
  | mech_exists spec d o : outcome_is (expand_at spec d) exists_holds o → mech_ref (MechExists spec) d o
  | mech_ptr dom d o : outcome_is (target_of dom d) ptr_holds o → mech_ref (MechPtr dom) d o
  | mech_include_bad spec d : expand_at spec d = None → mech_ref (MechInclude spec) d (MechError SpfPermError)
  | mech_include spec d t r :
      expand_at spec d = Some t → host_ref t r → mech_ref (MechInclude spec) d (include_outcome r)
with run_ref : list Directive → option str → str → SpfResult → Prop :=
  | run_match q m ds redir d : mech_ref m d Match → run_ref (mkDirective q m :: ds) redir d (qualifier_result q)
  | run_next q m ds redir d r :
      mech_ref m d NoMatch → run_ref ds redir d r → run_ref (mkDirective q m :: ds) redir d r
  | run_error q m ds redir d r : mech_ref m d (MechError r) → run_ref (mkDirective q m :: ds) redir d r
  | run_neutral d : run_ref [] None d SpfNeutral
  | run_redirect_bad spec d : expand_at spec d = None → run_ref [] (Some spec) d SpfPermError
  | run_redirect spec d t r :
      expand_at spec d = Some t → host_ref t r →
      run_ref [] (Some spec) d (redirect_result r).

(** A state with the same counters. *)
Definition same_counters (st st' : Evaluator) : Prop :=
  ev_lookups st' = ev_lookups st ∧ ev_void st' = ev_void st.

Lemma mx_hosts_spec v4 v6 mxs : ∀ st,
  let '(st', o) := mx_hosts resolver ip v4 v6 mxs st in
  same_counters st st' ∧ len (ev_queries st') ≤ len (ev_queries st) + len mxs ∧
  (o = Match ∧ (∃ mx, mx ∈ mxs ∧ a_holds v4 v6 (mx_exchange mx)) ∨
   o = NoMatch ∧ ¬ ∃ mx, mx ∈ mxs ∧ a_holds v4 v6 (mx_exchange mx)).
Proof.
  induction mxs as [|mx mxs IH]; intros st; simpl.
  { split_and!; [done|rewrite len_nil; lia|right; split; [done|set_solver]]. }
  destruct (existsb _ _) eqn:E.
  - unfold same_counters, ask. simpl. rewrite len_app, !len_cons, len_nil. pose proof (len_nonneg mxs).
    split_and!; [done..|lia|]. left. split; [done|]. exists mx. split; [set_solver|].
    apply existsb_exists in E as (a & Ha%list_elem_of_In & Hn). by exists a.
  - specialize (IH (ask (QueryIp (mx_exchange mx)) st)). destruct (mx_hosts _ _ _ _ _ _) as [st' o].
    destruct IH as (Hc & Hq & Ho). split_and!; [exact Hc|..].
    + unfold ask in Hq. simpl in Hq. rewrite len_app in Hq. rewrite len_cons. change (len [QueryIp (mx_exchange mx)]) with 1 in Hq. lia.
    + assert (¬ a_holds v4 v6 (mx_exchange mx)) as Hno.
      { intros (a & Ha%list_elem_of_In & Hn). apply not_true_iff_false in E. apply E, existsb_exists. eauto. }
      destruct Ho as [[-> (m & Hm & H)]|[-> H]]; [left; set_solver|right]. split; [done|].
      intros (m & [->|Hm]%elem_of_cons & Hh); [done|]. apply H. eauto.
Qed.

Lemma ptr_names_spec target names : ∀ st,
  let '(st', o) := ptr_names resolver ip (lowercase target) names st in
  same_counters st st' ∧ len (ev_queries st') ≤ len (ev_queries st) + len names ∧
  (o = Match ∧ (∃ n, n ∈ names ∧ within_domain target n ∧ ip ∈ addrs_of n) ∨
   o = NoMatch ∧ ¬ ∃ n, n ∈ names ∧ within_domain target n ∧ ip ∈ addrs_of n).
Proof.
  induction names as [|n names IH]; intros st; simpl.
  { split_and!; [done|rewrite len_nil; lia|right; split; [done|set_solver]]. }
  destruct ((lowercase n =s? lowercase target) || ends_with (DOT :: lowercase target) (lowercase n)) eqn:E.
  - assert (within_domain target n) as Hw.
    { apply orb_true_iff in E as [E%str_eqb_eq|E%ends_with_true]; [by left|by right]. }
    unfold spf_lookup_ip. case_bool_decide as Hin.
    + unfold same_counters, ask. simpl. rewrite len_app, !len_cons, len_nil. pose proof (len_nonneg names).
      split_and!; [done..|lia|]. left. split; [done|]. exists n. set_solver.
    + specialize (IH (ask (QueryIp n) st)). destruct (ptr_names _ _ _ _ _) as [st' o].
      destruct IH as (Hc & Hq & Ho). split_and!; [exact Hc|..].
      * unfold ask in Hq. simpl in Hq. rewrite len_app in Hq. rewrite len_cons. change (len [QueryIp n]) with 1 in Hq. lia.
      * destruct Ho as [[-> (m & Hm & H)]|[-> H]]; [left; set_solver|right]. split; [done|].
        intros (m & [->|Hm]%elem_of_cons & Hh); [by destruct Hh|]. apply H. eauto.
  - assert (¬ within_domain target n) as Hw.
    { apply orb_false_iff in E as [E1%str_eqb_neq E2]. intros [?|Ht]; [done|].
      apply not_true_iff_false in E2. by apply E2, ends_with_true. }
    specialize (IH st). destruct (ptr_names _ _ _ _ _) as [st' o]. destruct IH as (Hc & Hq & Ho).
    rewrite len_cons. split_and!; [exact Hc|lia|].
    destruct Ho as [[-> (m & Hm & H)]|[-> H]]; [left; set_solver|right]. split; [done|].
    intros (m & [->|Hm]%elem_of_cons & Hh); [by destruct Hh|]. apply H. eauto.
Qed.

(** A mechanism that charges the lookup budget, asks one query and maybe the void
    budget, and goes on with at most ten more queries. *)
Lemma term_spec (target : option str) (P : str → Prop) (q : str → DnsQuery) (void : str → bool)
    (go : str → Evaluator → Evaluator * MechOutcome) (st : Evaluator) :
  ev_ok st →
  (∀ t s, target = Some t → let '(s', o) := go t s in
     same_counters s s' ∧ len (ev_queries s') ≤ len (ev_queries s) + 10 ∧ outcome_is (Some t) P o) →
  budgeted (MechError SpfPermError) (outcome_is target P) 0 st
    (let '(st, within) := charge_lookup st in
     if negb within then (st, MechError SpfPermError) else
     match target with
     | None => (st, MechError SpfPermError)
     | Some t =>
         let '(st, within) := charge_void_if (void t) (ask (q t) st) in
         if negb within then (st, MechError SpfPermError) else go t st
     end).
Proof.
  intros Hok Hgo.
  destruct (charge_lookup_spec st Hok) as [(Hlt & st1 & -> & Hok1 & Hl1 & Hq1)|(st1 & -> & Hov & Hsp)]; simpl.
  2:{ split; [by right|done]. }
  assert (∀ s c, ev_lookups s = ev_lookups st1 → len (ev_queries s) ≤ len (ev_queries st1) + c → c ≤ 11 → ev_spent 0 st s) as Hsp.
  { intros s c Hl Hq Hc. unfold ev_spent, MAX_LOOKUPS in *. rewrite Hl, Hl1, Hq1 in *. lia. }
  destruct target as [t|]; simpl.
  2:{ split; [by left|]. apply (Hsp st1 0); [done|lia|lia]. }
  assert (ev_ok (ask (q t) st1)) as Hok2 by done.
  assert (len (ev_queries (ask (q t) st1)) = len (ev_queries st1) + 1) as Hq2 by (simpl; by rewrite len_app).
  destruct (charge_void_if_spec (void t) _ Hok2) as [(s & -> & Hs & Hsl & Hsq)|(s & -> & Hs & Hsl & Hsq)]; simpl.
  - specialize (Hgo t s eq_refl). destruct (go t s) as [s' o]. destruct Hgo as ((Hc1 & Hc2) & Hq & Ho). split; simpl.
    + left. split; [|done]. unfold ev_ok in *. by rewrite Hc1, Hc2.
    + apply (Hsp s' 11); [by rewrite Hc1, Hsl|rewrite Hsq, Hq2 in Hq; lia|lia].
  - split; simpl; [by right|]. apply (Hsp s 1); [by rewrite Hsl|rewrite Hsq, Hq2; lia|lia].
Qed.

Lemma a_match_spec dom d v4 v6 st :
  ev_ok st →
  budgeted (MechError SpfPermError) (outcome_is (target_of dom d) (a_holds v4 v6)) 0 st
    (a_match resolver ip sender_local sender_domain helo dom d v4 v6 st).
Proof.
  intros Hok. apply (term_spec (target_of dom d) (a_holds v4 v6) QueryIp (λ t, bool_decide (addrs_of t = []))
    (λ t st, (st, MechOutcome_from (existsb (λ a, ip_in_net ip a v4 v6) (addrs_of t)))) st Hok).
  intros t s _. split_and!; [done|lia|]. unfold MechOutcome_from, a_holds. simpl.
  destruct (existsb _ _) eqn:E; [left|right]; (split; [done|]).
  - apply existsb_exists in E as (a & Ha%list_elem_of_In & Hn). eauto.
  - intros (a & Ha%list_elem_of_In & Hn). apply not_true_iff_false in E. apply E, existsb_exists. eauto.
Qed.

Lemma exists_match_spec spec d st :
  ev_ok st →
  budgeted (MechError SpfPermError) (outcome_is (expand_at spec d) exists_holds) 0 st
    (exists_match resolver ip sender_local sender_domain helo spec d st).
Proof.
  intros Hok. apply (term_spec (expand_at spec d) exists_holds QueryIp (λ t, bool_decide (addrs_of t = []))
    (λ t st, (st, MechOutcome_from (negb (bool_decide (addrs_of t = []))))) st Hok).
  intros t s _. split_and!; [done|lia|]. unfold MechOutcome_from, exists_holds. simpl.
  case_bool_decide; simpl; naive_solver.
Qed.

Lemma len_take {X} n (l : list X) : len (take n l) ≤ Z.of_nat n.
Proof. unfold len. rewrite length_take. lia. Qed.

Lemma mx_match_spec dom d v4 v6 st :
  ev_ok st →
  budgeted (MechError SpfPermError) (outcome_is (target_of dom d) (mx_holds v4 v6)) 0 st
    (mx_match resolver ip sender_local sender_domain helo dom d v4 v6 st).
Proof.
  intros Hok. apply (term_spec (target_of dom d) (mx_holds v4 v6) QueryMx
    (λ t, bool_decide (or_empty (dns_mx resolver t) = []))
    (λ t st, mx_hosts resolver ip v4 v6 (take MAX_HOSTS (or_empty (dns_mx resolver t))) st) st Hok).
  intros t s _. pose proof (mx_hosts_spec v4 v6 (take MAX_HOSTS (or_empty (dns_mx resolver t))) s) as H.
  destruct (mx_hosts _ _ _ _ _ _) as [s' o]. destruct H as (Hc & Hq & Ho). split_and!; [done| |done].
  pose proof (len_take MAX_HOSTS (or_empty (dns_mx resolver t))). unfold MAX_HOSTS in *. lia.
Qed.

Lemma ptr_match_spec dom d st :
  ev_ok st →
  budgeted (MechError SpfPermError) (outcome_is (target_of dom d) ptr_holds) 0 st
    (ptr_match resolver ip sender_local sender_domain helo dom d st).
Proof.
  intros Hok. apply (term_spec (target_of dom d) ptr_holds (λ _, QueryPtr ip)
    (λ _, bool_decide (or_empty (dns_reverse resolver ip) = []))
    (λ t st, ptr_names resolver ip (lowercase t) (take MAX_HOSTS (or_empty (dns_reverse resolver ip))) st) st Hok).
  intros t s _. pose proof (ptr_names_spec t (take MAX_HOSTS (or_empty (dns_reverse resolver ip))) s) as H.
  destruct (ptr_names _ _ _ _ _) as [s' o]. destruct H as (Hc & Hq & Ho). split_and!; [done| |done].
  pose proof (len_take MAX_HOSTS (or_empty (dns_reverse resolver ip))). unfold MAX_HOSTS in *. lia.
Qed.

(** A charged step that hands over to another policy. *)
Lemma handover {R} (e : R) (f : SpfResult → R) (Q : R → Prop) st st1 p t :
  ev_ok st → ev_lookups st < MAX_LOOKUPS → ev_lookups st1 = ev_lookups st + 1 → ev_queries st1 = ev_queries st →
  budgeted SpfPermError (host_ref t) 1 st1 p → f SpfPermError = e → (∀ r, host_ref t r → Q (f r)) →
  budgeted e Q 0 st (p.1, f p.2).
Proof.
  intros Hok Hlt Hl Hq [H Hsp] Hf HQ. split; simpl.
  - destruct H as [[H1 H2]|[H1 ->]]; [left; auto|by right].
  - unfold ev_spent, MAX_LOOKUPS in *. rewrite Hl, Hq in Hsp. lia.
Qed.

Section step.
Context (host : Evaluator → str → option (Evaluator * SpfResult)) (floor : Z).
Context (Hhost : ∀ st t, ev_ok st → floor < ev_lookups st →
  ∃ p, host st t = Some p ∧ budgeted SpfPermError (host_ref t) 1 st p).

Lemma ev_matches_spec m d st :
  ev_ok st → floor ≤ ev_lookups st →
  ∃ p, ev_matches resolver ip sender_local sender_domain helo host m d st = Some p ∧
    budgeted (MechError SpfPermError) (mech_ref m d) 0 st p.
Proof.
  intros Hok Hfl.
  assert (∀ (p : Evaluator * MechOutcome) (Q Q' : MechOutcome → Prop), (∀ o, Q o → Q' o) →
    budgeted (MechError SpfPermError) Q 0 st p → budgeted (MechError SpfPermError) Q' 0 st p) as Hmono.
  { intros p Q Q' HQ [[[H1 H2]|H] Hsp]; split; auto. }
  destruct m as [|net p|net p|dom v4 v6|dom v4 v6|spec|spec|dom]; simpl.
  - eexists. split; [done|]. split; [left; split; [done|constructor]|apply ev_spent_refl].
  - eexists. split; [done|]. split; [left; split; [done|constructor]|apply ev_spent_refl].
  - eexists. split; [done|]. split; [left; split; [done|constructor]|apply ev_spent_refl].
  - eexists. split; [done|]. eapply Hmono; [|by apply a_match_spec]. by constructor.
  - eexists. split; [done|]. eapply Hmono; [|by apply mx_match_spec]. by constructor.
  - unfold include_match.
    destruct (charge_lookup_spec st Hok) as [(Hlt & st1 & -> & Hok1 & Hl1 & Hq1)|(st1 & -> & Hov & Hsp)]; simpl.
    2:{ eexists. split; [done|]. split; [by right|done]. }
    destruct (expand_at spec d) as [t|] eqn:Et.
    + destruct (Hhost st1 t Hok1) as (p & -> & Hp); [lia|]. destruct p as [st2 r]. cbn [mbind option_bind].
      eexists. split; [done|].
      apply (handover (MechError SpfPermError) include_outcome _ st st1 (st2, r) t); [done..|].
      intros r' Hr'. by eapply mech_include.
    + eexists. split; [done|]. split; [left; split; [done|by constructor]|].
      unfold ev_spent, MAX_LOOKUPS. simpl. rewrite Hl1, Hq1. unfold ev_ok, MAX_LOOKUPS in Hok. lia.
  - eexists. split; [done|]. eapply Hmono; [|by apply exists_match_spec]. by constructor.
  - eexists. split; [done|]. eapply Hmono; [|by apply ptr_match_spec]. by constructor.
Qed.

Lemma run_directives_spec redir d ds : ∀ st,
  ev_ok st → floor ≤ ev_lookups st →
  ∃ p, run_directives resolver ip sender_local sender_domain helo host ds redir d st = Some p ∧
    budgeted SpfPermError (run_ref ds redir d) 0 st p.
Proof.
  induction ds as [|[q m] ds IH]; intros st Hok Hfl; cbn [run_directives mechanism qualifier].
  - destruct redir as [spec|].
    2:{ eexists. split; [done|]. split; [left; split; [done|constructor]|apply ev_spent_refl]. }
    destruct (charge_lookup_spec st Hok) as [(Hlt & st1 & -> & Hok1 & Hl1 & Hq1)|(st1 & -> & Hov & Hsp)]; simpl.
    2:{ eexists. split; [done|]. split; [by right|done]. }
    destruct (expand_at spec d) as [t|] eqn:Et.
    + destruct (Hhost st1 t Hok1) as (p & -> & Hp); [lia|]. destruct p as [st2 r]. cbn [mbind option_bind].
      eexists. split; [done|].
      apply (handover SpfPermError redirect_result _ st st1 (st2, r) t);
        [done..|]. intros r' Hr'. by eapply run_redirect.
    + eexists. split; [done|]. split; [left; split; [done|by constructor]|].
      unfold ev_spent, MAX_LOOKUPS. simpl. rewrite Hl1, Hq1. unfold ev_ok, MAX_LOOKUPS in Hok. lia.
  - destruct (ev_matches_spec m d st Hok Hfl) as ([st1 o] & -> & Hb & Hsp). cbn [mbind option_bind]. simpl in *.
    destruct Hb as [[Hok1 Hm]|[Hov ->]].
    2:{ eexists. split; [done|]. split; [by right|done]. }
    destruct o as [| |r].
    + eexists. split; [done|]. split; [left; split; [done|by apply run_match]|done].
    + destruct (IH st1 Hok1) as ([st2 r] & -> & Hb & Hsp2); [unfold ev_spent in Hsp; lia|].
      eexists. split; [done|]. split; [|by apply (ev_spent_trans 0 0 st st1)].
      destruct Hb as [[? ?]|?]; [left|by right]. split; [done|by apply run_next].
    + eexists. split; [done|]. split; [left; split; [done|by apply run_error]|done].
Qed.
End step.

Lemma check_host_spec fuel : ∀ st d,
  ev_ok st → MAX_LOOKUPS - ev_lookups st < Z.of_nat fuel →
  ∃ p, check_host resolver ip sender_local sender_domain helo fuel st d = Some p ∧
    budgeted SpfPermError (host_ref d) 1 st p.
Proof.
  induction fuel as [|fuel IH]; intros st d Hok Hf; [unfold ev_ok in Hok; lia|]. simpl.
  set (st0 := ask (QueryTxt d) st).
  assert (ev_ok st0) as Hok0 by done.
  assert (ev_spent 1 st st0) as Hsp0.
  { unfold ev_spent, st0, ask. simpl. rewrite len_app. change (len [QueryTxt d]) with 1. lia. }
  destruct (spf_policy resolver d) as [| |record] eqn:Ep.
  - eexists. split; [done|]. split; [left; split; [done|by constructor]|done].
  - eexists. split; [done|]. split; [left; split; [done|by constructor]|done].
  - destruct (run_directives_spec (check_host resolver ip sender_local sender_domain helo fuel) (ev_lookups st))
      with (redir := redirect record) (d := d) (ds := directives record) (st := st0) as (p & -> & Hb & Hsp).
    + intros st' t Hok' Hlt. apply IH; [done|lia].
    + done.
    + simpl. lia.
    + eexists. split; [done|]. split; [|by apply (ev_spent_trans 1 0 st st0)].
      destruct Hb as [[? ?]|?]; [left|by right]. split; [done|by eapply host_run].
Qed.
End reference.

Scheme host_ref_ind' := Minimality for host_ref Sort Prop
  with mech_ref_ind' := Minimality for mech_ref Sort Prop
  with run_ref_ind' := Minimality for run_ref Sort Prop.
Combined Scheme spf_ref_ind from host_ref_ind', mech_ref_ind', run_ref_ind'.

Lemma outcome_is_det target P o o' : outcome_is target P o → outcome_is target P o' → o = o'.
Proof. destruct target; simpl; naive_solver. Qed.

(** The reference semantics gives each policy at most one result. *)
Lemma spf_ref_det resolver ip sl sd helo :
  (∀ d r, host_ref resolver ip sl sd helo d r → ∀ r', host_ref resolver ip sl sd helo d r' → r = r') ∧
  (∀ m d o, mech_ref resolver ip sl sd helo m d o → ∀ o', mech_ref resolver ip sl sd helo m d o' → o = o') ∧
  (∀ ds redir d r, run_ref resolver ip sl sd helo ds redir d r →
     ∀ r', run_ref resolver ip sl sd helo ds redir d r' → r = r').
Proof.
  apply spf_ref_ind.
  - intros d Hp r' H. inversion H; congruence.
  - intros d Hp r' H. inversion H; congruence.
  - intros d record r Hp _ IH r' H. inversion H; try congruence. apply IH. congruence.
  - intros d o' H. by inversion H.
  - intros net p d o' H. by inversion H.
  - intros net p d o' H. by inversion H.
  - intros dom v4 v6 d o Ho o' H. inversion H; subst. by eapply outcome_is_det.
  - intros dom v4 v6 d o Ho o' H. inversion H; subst. by eapply outcome_is_det.
  - intros spec d o Ho o' H. inversion H; subst. by eapply outcome_is_det.
  - intros dom d o Ho o' H. inversion H; subst. by eapply outcome_is_det.
  - intros spec d He o' H. inversion H; congruence.
  - intros spec d t r He _ IH o' H. inversion H as [| | | | | | | |? ? t' r' He' Hr']; subst; [congruence|].
    rewrite He in He'. simplify_eq. f_equal. by apply IH.
  - intros q m ds redir d _ IH r' H.
    inversion H as [|? ? ? ? ? ? Hm|? ? ? ? ? ? Hm| | |]; subst; [done|by apply IH in Hm|by apply IH in Hm].
  - intros q m ds redir d r _ IHm _ IH r' H.
    inversion H as [? ? ? ? ? Hm| |? ? ? ? ? ? Hm| | |]; subst; [by apply IHm in Hm|by apply IH|by apply IHm in Hm].
  - intros q m ds redir d r _ IH r' H.
    inversion H as [? ? ? ? ? Hm|? ? ? ? ? ? Hm|? ? ? ? ? ? Hm| | |]; subst;
      [by apply IH in Hm|by apply IH in Hm|apply IH in Hm; by simplify_eq].
  - intros d r' H. by inversion H.
  - intros spec d He r' H. inversion H; congruence.
  - intros spec d t r He _ IH r' H. inversion H as [| | | | |? ? t' r'' He' Hr']; subst; [congruence|].
    rewrite He in He'. simplify_eq. f_equal. by apply IH.
Qed.

Lemma spf_run_spec resolver ip helo mail_from :
  let '(local, domain) := spf_identity helo mail_from in
  ∃ st r, spf_run resolver ip helo mail_from = Some (st, r) ∧ len (ev_queries st) ≤ 111 ∧
    (domain = [] ∧ r = SpfNone ∨
     ev_ok st ∧ host_ref resolver ip local domain helo domain r ∨ ev_over st ∧ r = SpfPermError).
Proof.
  unfold spf_run. destruct (spf_identity helo mail_from) as [local domain]. case_bool_decide as Hd.
  { eexists _, _. split_and!; [done|simpl; rewrite len_nil; lia|by left]. }
  destruct (check_host_spec resolver ip local domain helo spf_fuel (mkEvaluator 0 0 []) domain)
    as ([st r] & -> & Hb & Hl & Hq).
  - by vm_compute.
  - by vm_compute.
  - eexists _, _. split_and!; [done| |by right]. simpl in *. rewrite len_nil in Hq.
    unfold MAX_LOOKUPS in Hq. lia.
Qed.

(** C19: every SPF check ends: whatever the DNS publishes, including policies that
    include or redirect to each other without end, the evaluator returns a result
    after at most 111 queries (one for the first policy, and for each of the ten
    terms the budget allows one query and at most ten addresses). *)
Theorem spf_terminates_bounded (resolver : DnsResolver) (ip : IpAddr) (helo mail_from : str) :
  ∃ st r, spf_run resolver ip helo mail_from = Some (st, r) ∧
    len (ev_queries st) ≤ 111 ∧ 0 ≤ ev_lookups st ≤ 11 ∧ 0 ≤ ev_void st ≤ 3.
Proof.
  pose proof (spf_run_spec resolver ip helo mail_from) as H.
  destruct (spf_identity helo mail_from) as [local domain] eqn:Ei. destruct H as (st & r & Hr & Hq & H).
  exists st, r. split_and!; [done|done|..]; unfold ev_ok, ev_over, MAX_LOOKUPS, MAX_VOID in H;
  (destruct H as [[-> ->]|H]; [|lia]);
  unfold spf_run in Hr; rewrite Ei in Hr; simpl in Hr; simplify_eq/=; lia.
Qed.

(** The result of [evaluate]. *)
Definition spf_evaluate (resolver : DnsResolver) (ip : IpAddr) (helo mail_from : str) : SpfResult :=
  default SpfPermError (snd <$> spf_run resolver ip helo mail_from).

(** C18: SPF evaluation refines the budget-free reading of the published policies:
    when a check stays within both budgets its result is the one result the
    reference semantics gives the sender's domain, and when it exceeds one the
    result is a permanent error. *)
Theorem spf_refines_reference (resolver : DnsResolver) (ip : IpAddr) (helo mail_from : str) :
  let '(local, domain) := spf_identity helo mail_from in
  let ref := host_ref resolver ip local domain helo domain in
  ∃ st, spf_run resolver ip helo mail_from = Some (st, spf_evaluate resolver ip helo mail_from) ∧
  (domain = [] ∧ spf_evaluate resolver ip helo mail_from = SpfNone ∨
   (ev_lookups st ≤ MAX_LOOKUPS ∧ ev_void st ≤ MAX_VOID ∧
      ∀ r, ref r ↔ r = spf_evaluate resolver ip helo mail_from) ∨
   ((MAX_LOOKUPS < ev_lookups st ∨ MAX_VOID < ev_void st) ∧ spf_evaluate resolver ip helo mail_from = SpfPermError)).
Proof.
  pose proof (spf_run_spec resolver ip helo mail_from) as H.
  destruct (spf_identity helo mail_from) as [local domain]. destruct H as (st & r & Hr & _ & H). intros ref.
  unfold spf_evaluate. rewrite Hr. simpl. exists st. split; [done|].
  destruct H as [H|[[[Hl Hv] H]|[Ho H]]]; [by left|right; left|right; right].
  - split_and!; [lia|lia|]. intros r'. split; [|by intros ->]. intros Hr'.
    by eapply (proj1 (spf_ref_det _ _ _ _ _)).
  - split; [|done]. unfold ev_over in Ho. lia.
Qed.

(** ** Networks *)

Lemma cidr_mask_land w p a :
  0 ≤ p ≤ w → 0 ≤ a < 2 ^ w → Z.land a (cidr_mask w p) = Z.shiftl (Z.shiftr a (w - p)) (w - p).
Proof.
  intros Hp Ha. unfold cidr_mask. apply Z.bits_inj'. intros n Hn.
  rewrite !Z.land_spec, !Z.shiftl_spec by lia.
  destruct (Z.ltb_spec n w).
  - rewrite (Z.ones_spec_low w n), andb_true_r by lia. destruct (Z.leb_spec (w - p) n).
    + rewrite (Z.ones_spec_low w (n - (w - p))), andb_true_r, Z.shiftr_spec by lia. f_equal. lia.
    + rewrite !(Z.testbit_neg_r _ (n - (w - p))), andb_false_r by lia. done.
  - rewrite (Z.ones_spec_high w n), !andb_false_r, Z.shiftr_spec by lia.
    rewrite <-(Z.mod_small a (2 ^ w)), Z.mod_pow2_bits_high by lia. done.
Qed.

Lemma cidr_land w p a b :
  0 ≤ p ≤ w → 0 ≤ a < 2 ^ w → 0 ≤ b < 2 ^ w →
  (Z.land a (cidr_mask w p) =? Z.land b (cidr_mask w p)) = true ↔ a / 2 ^ (w - p) = b / 2 ^ (w - p).
Proof.
  intros Hp Ha Hb. rewrite Z.eqb_eq, !cidr_mask_land, !Z.shiftl_mul_pow2, !Z.shiftr_div_pow2 by lia.
  pose proof (Z.pow_pos_nonneg 2 (w - p)). split; [|by intros ->]. intros E. apply Z.mul_cancel_r in E; [done|lia].
Qed.

(** The address tests of SPF: a client is in a network exactly when it is of the
    same family and agrees with it on the first [prefix] bits, for every prefix from
    0 to the width. *)
Theorem ip_in_net_spec (client net : IpAddr) (v4 v6 : Z) :
  ip_wf client → ip_wf net → 0 ≤ v4 ≤ 32 → 0 ≤ v6 ≤ 128 →
  ip_in_net client net v4 v6 = true ↔
  match client, net with
  | V4 c, V4 n => c / 2 ^ (32 - v4) = n / 2 ^ (32 - v4)
  | V6 c, V6 n => c / 2 ^ (128 - v6) = n / 2 ^ (128 - v6)
  | _, _ => False
  end.
Proof.
  destruct client as [c|c], net as [n|n]; simpl; intros Hc Hn H4 H6; try done.
  - unfold cidr4. destruct (Z.eqb_spec v4 0) as [->|].
    { rewrite Z.sub_0_r, !Z.div_small by done. done. }
    destruct (Z.ltb_spec 32 v4); [lia|]. rewrite cidr_land by lia. naive_solver.
  - unfold cidr6. destruct (Z.eqb_spec v6 0) as [->|].
    { rewrite Z.sub_0_r, !Z.div_small by done. done. }
    destruct (Z.ltb_spec 128 v6); [lia|]. rewrite cidr_land by lia. naive_solver.
Qed.

Lemma ip_in_net_spec_witness :
  ip_in_net (V4 (v4_new 192 0 2 77)) (V4 (v4_new 192 0 2 0)) 24 128 = true ∧
  v4_new 192 0 2 77 / 2 ^ (32 - 24) = v4_new 192 0 2 0 / 2 ^ (32 - 24).
Proof.
  split; [|by vm_compute].
  apply (ip_in_net_spec (V4 (v4_new 192 0 2 77)) (V4 (v4_new 192 0 2 0)) 24 128); by vm_compute.
Defined.

(** ** What the parser accepts *)

Definition mechanism_wf (m : Mechanism) : Prop :=
  match m with
  | MechIp4 net p => 0 ≤ net < 2 ^ 32 ∧ 0 ≤ p ≤ 32
  | MechIp6 net p => 0 ≤ net < 2 ^ 128 ∧ 0 ≤ p ≤ 128
  | MechA d v4 v6 | MechMx d v4 v6 => d ≠ Some [] ∧ 0 ≤ v4 ≤ 32 ∧ 0 ≤ v6 ≤ 128
  | MechInclude d | MechExists d => d ≠ []
  | MechPtr d => d ≠ Some []
  | MechAll => True
  end.

Lemma parse_prefix_range p max n : parse_prefix p max = Ok n → 0 ≤ n ≤ max.
Proof.
  unfold parse_prefix. destruct (parse_uint U8_MAX p) as [m|] eqn:E; [|done]. apply parse_uint_range in E.
  case_code; [done|]. intros [= <-]. bsimp. lia.
Qed.

Lemma parse_dual_cidr_range s v4 v6 : parse_dual_cidr s = Ok (v4, v6) → 0 ≤ v4 ≤ 32 ∧ 0 ≤ v6 ≤ 128.
Proof.
  unfold parse_dual_cidr. case_bool_decide; [intros [= <- <-]; lia|].
  destruct (match find_sub SLASH2 s with Some i => _ | None => _ end) as [p4 p6].
  set (r4 := match strip_prefix [SLASH] p4 with None | Some [] => Ok 32 | Some p => parse_prefix p 32 end).
  assert (∀ n, r4 = Ok n → 0 ≤ n ≤ 32) as H4.
  { intros n. unfold r4. destruct (strip_prefix [SLASH] p4) as [[|]|]; [intros [= <-]; lia|apply parse_prefix_range|intros [= <-]; lia]. }
  destruct r4 as [n4|]; [|done]. specialize (H4 n4 eq_refl). cbn [mbind result_bind].
  destruct p6 as [p|]; cbn [mbind result_bind]; [|intros [= <- <-]; lia].
  destruct (parse_prefix p 128) as [n6|] eqn:E6; [|done]. apply parse_prefix_range in E6.
  cbn [mbind result_bind]. intros [= <- <-]. lia.
Qed.

Lemma parse_mechanism_wf body m : parse_mechanism body = Ok m → mechanism_wf m.
Proof.
  unfold parse_mechanism, mechanism_of. destruct (split_mechanism body) as [name rest].
  generalize (lowercase name). intros nm.
  assert (∀ d, nonempty rest ≠ Some [] ∧ (nonempty rest = Some d → d ≠ [])) as Hne.
  { intros d. unfold nonempty. destruct rest as [[|]|]; naive_solver. }
  destruct (nm =s? lit "all"); [by intros [= <-]|].
  destruct (nm =s? lit "ip4").
  { destruct rest as [spec|]; [|done]. cbn [ok_or mbind result_bind]. unfold parse_ip4_cidr.
    destruct (match split_once SLASH spec with Some (a, p) => _ | None => _ end) as [[addr p]|] eqn:E; [|done].
    cbn [mbind result_bind]. destruct (parse_v4 addr) as [net|] eqn:Ea; [|done]. apply parse_v4_range in Ea.
    cbn [mbind result_bind]. intros [= <-]. split; [done|].
    destruct (split_once SLASH spec) as [[a p']|]; [|simplify_eq; lia].
    destruct (parse_prefix p' 32) as [n|] eqn:Ep; [|done]. apply parse_prefix_range in Ep. by simplify_eq/=. }
  destruct (nm =s? lit "ip6").
  { destruct rest as [spec|]; [|done]. cbn [ok_or mbind result_bind]. unfold parse_ip6_cidr.
    destruct (match split_once SLASH spec with Some (a, p) => _ | None => _ end) as [[addr p]|] eqn:E; [|done].
    cbn [mbind result_bind]. destruct (parse_v6 addr) as [net|] eqn:Ea; [|done]. apply parse_v6_range in Ea.
    cbn [mbind result_bind]. intros [= <-]. split; [done|].
    destruct (split_once SLASH spec) as [[a p']|]; [|simplify_eq; lia].
    destruct (parse_prefix p' 128) as [n|] eqn:Ep; [|done]. apply parse_prefix_range in Ep. by simplify_eq/=. }
  destruct ((nm =s? lit "a") || (nm =s? lit "mx")).
  { assert (∀ d v4 v6, parse_domain_and_dual_cidr rest = Ok (d, v4, v6) →
      d ≠ Some [] ∧ 0 ≤ v4 ≤ 32 ∧ 0 ≤ v6 ≤ 128) as Hd.
    { intros d v4 v6. unfold parse_domain_and_dual_cidr. destruct rest as [[|c r]|]; [intros [= <- <- <-]; split; [done|lia]| |intros [= <- <- <-]; split; [done|lia]].
      destruct (match split_once SLASH (c :: r) with Some (d', c') => _ | None => _ end) as [dp cp].
      destruct (parse_dual_cidr cp) as [[w4 w6]|] eqn:E; [|done]. apply parse_dual_cidr_range in E.
      cbn [mbind result_bind]. intros [= <- <- <-]. split; [by case_bool_decide; naive_solver|done]. }
    destruct (parse_domain_and_dual_cidr rest) as [[[d v4] v6]|]; [|done]. specialize (Hd d v4 v6 eq_refl).
    cbn [mbind result_bind]. intros [= <-]. by case_code. }
  destruct (nm =s? lit "include").
  { destruct (nonempty rest) as [d|]; [|done]. intros [= <-]. by apply (Hne d). }
  destruct (nm =s? lit "exists").
  { destruct (nonempty rest) as [d|]; [|done]. intros [= <-]. by apply (Hne d). }
  destruct (nm =s? lit "ptr"); [|done]. intros [= <-]. by apply (Hne []).
Qed.

Lemma parse_terms_wf terms : ∀ ds redir r,
  Forall (λ d, mechanism_wf (mechanism d)) ds → parse_terms terms ds redir = Ok r →
  Forall (λ d, mechanism_wf (mechanism d)) (directives r).
Proof.
  induction terms as [|t terms IH]; intros ds redir r HF; simpl; [by intros [= <-]|].
  destruct (split_modifier t) as [[n v]|]; [by apply IH|].
  destruct (parse_directive t) as [d|] eqn:Ed; [|done]. cbn [mbind result_bind]. apply IH.
  apply Forall_app. split; [done|]. apply Forall_singleton. unfold parse_directive in Ed. destruct t as [|c t]; [done|].
  destruct (match Qualifier_from_char c with Some q => _ | None => _ end) as [q body].
  destruct (parse_mechanism body) as [m|] eqn:Em; [|done]. simplify_eq/=. by eapply parse_mechanism_wf.
Qed.

(** C32: a record the SPF parser accepts is well formed: every prefix length is at
    most the width of its family, every network fits it, and every mechanism that
    needs a domain has one. *)
Theorem spf_record_wf (raw : str) (r : SpfRecord) :
  SpfRecord_parse raw = Ok r → Forall (λ d, mechanism_wf (mechanism d)) (directives r).
Proof.
  unfold SpfRecord_parse. destruct (split_whitespace raw) as [|v terms]; [done|]. case_code; [|done].
  by apply parse_terms_wf.
Qed.

Lemma spf_record_wf_witness :
  Forall (λ d, mechanism_wf (mechanism d))
    (directives (mkSpfRecord [mkDirective QPass (MechIp4 (v4_new 192 0 2 0) 24); mkDirective QFail MechAll] None)).
Proof. apply (spf_record_wf (lit "v=spf1 ip4:192.0.2.0/24 -all")). by vm_compute. Defined.

(** ** A textual form for every record *)

Definition cidr_text (v4 v6 : Z) : str := [SLASH] ++ show v4 ++ SLASH2 ++ show v6.
Definition domain_text (d : option str) : str := match d with Some d => COLON :: d | None => [] end.
Definition mechanism_text (m : Mechanism) : str :=
  match m with
  | MechAll => lit "all"
  | MechIp4 net p => lit "ip4:" ++ v4_to_string net ++ SLASH :: show p
  | MechIp6 net p => lit "ip6:" ++ v6_to_string net ++ SLASH :: show p
  | MechA d v4 v6 => lit "a" ++ domain_text d ++ cidr_text v4 v6
  | MechMx d v4 v6 => lit "mx" ++ domain_text d ++ cidr_text v4 v6
  | MechInclude d => lit "include:" ++ d
  | MechExists d => lit "exists:" ++ d
  | MechPtr d => lit "ptr" ++ domain_text d
  end.
Definition qualifier_char (q : Qualifier) : char :=
  match q with QPass => 43 | QFail => 45 | QSoftFail => 126 | QNeutral => 63 end.
Definition directive_text (d : Directive) : str := qualifier_char (qualifier d) :: mechanism_text (mechanism d).
Definition record_terms (r : SpfRecord) : list str :=
  (directive_text <$> directives r) ++ match redirect r with Some d => [lit "redirect=" ++ d] | None => [] end.
Definition record_text (r : SpfRecord) : str := join [SP] (lit "v=spf1" :: record_terms r).

(** Domain specifications that survive as one term. *)
Definition word (s : str) : Prop := Forall (λ c, is_whitespace c = false) s.
Definition mechanism_printable (m : Mechanism) : Prop :=
  mechanism_wf m ∧
  match m with
  | MechA (Some d) _ _ | MechMx (Some d) _ _ => word d ∧ SLASH ∉ d
  | MechInclude d | MechExists d | MechPtr (Some d) => word d
  | _ => True
  end.

Lemma digits_not n c : 0 ≤ n → is_ascii_digit c = false → c ∉ show n.
Proof. intros Hn Hc Hin. pose proof (show_digits n Hn) as H. rewrite Forall_forall in H. apply H in Hin. congruence. Qed.

Lemma ip_chars_not ip c : is_addr_char c = false → c ∉ ip_to_string ip.
Proof. intros Hc Hin. pose proof (ip_to_string_addr ip) as H. rewrite Forall_forall in H. apply H in Hin. congruence. Qed.

Lemma parse_prefix_show n max : 0 ≤ n ≤ max → max ≤ 255 → parse_prefix (show n) max = Ok n.
Proof.
  intros Hn Hm. unfold parse_prefix. rewrite parse_uint_show by (unfold U8_MAX; lia).
  by destruct (Z.ltb_spec max n); [lia|].
Qed.

Lemma find_slash2 ds r : SLASH ∉ ds → find_sub SLASH2 (ds ++ SLASH2 ++ r) = Some (length ds).
Proof.
  induction ds as [|c ds IH]; intros Hn; [done|].
  change (find_sub SLASH2 ((c :: ds) ++ SLASH2 ++ r)) with
    (if starts_with SLASH2 ((c :: ds) ++ SLASH2 ++ r) then Some 0%nat else S <$> find_sub SLASH2 (ds ++ SLASH2 ++ r)).
  rewrite IH by set_solver. unfold starts_with. simpl. destruct (Z.eqb_spec SLASH c) as [<-|]; [set_solver|done].
Qed.

Lemma parse_dual_cidr_text v4 v6 :
  0 ≤ v4 ≤ 32 → 0 ≤ v6 ≤ 128 → parse_dual_cidr (cidr_text v4 v6) = Ok (v4, v6).
Proof.
  intros H4 H6. unfold parse_dual_cidr, cidr_text.
  pose proof (digits_not v4 SLASH ltac:(lia) eq_refl) as Hn.
  destruct (show_value v4 ltac:(lia)) as [_ Hne]. pose proof (parse_prefix_show v4 32 H4 ltac:(lia)) as Hp.
  generalize dependent (show v4). intros ds Hn Hne Hp.
  assert (find_sub SLASH2 ([SLASH] ++ ds ++ SLASH2 ++ show v6) = Some (S (length ds))) as ->.
  { change (find_sub SLASH2 ([SLASH] ++ ds ++ SLASH2 ++ show v6)) with
      (if starts_with SLASH2 ([SLASH] ++ ds ++ SLASH2 ++ show v6) then Some 0%nat
       else S <$> find_sub SLASH2 (ds ++ SLASH2 ++ show v6)).
    rewrite find_slash2 by done. destruct ds as [|d ds]; [done|]. unfold starts_with. simpl.
    destruct (Z.eqb_spec SLASH d) as [<-|]; [set_solver|done]. }
  rewrite bool_decide_eq_false_2 by done.
  assert (take (S (length ds)) ([SLASH] ++ ds ++ SLASH2 ++ show v6) = SLASH :: ds) as ->.
  { simpl. f_equal. apply take_app_length. }
  assert (drop (S (length ds) + 2) ([SLASH] ++ ds ++ SLASH2 ++ show v6) = show v6) as ->.
  { change (S (length ds) + 2)%nat with (S (length ds + 2)). cbn [app drop].
    rewrite app_assoc. replace (length ds + 2)%nat with (length (ds ++ SLASH2)) by (rewrite length_app; done).
    apply drop_app_length. }
  change (strip_prefix [SLASH] (SLASH :: ds)) with (Some ds). destruct ds as [|d ds]; [done|].
  rewrite Hp. cbn [mbind result_bind]. by rewrite parse_prefix_show.
Qed.

Lemma cidr_text_clean v4 v6 c :
  0 ≤ v4 → 0 ≤ v6 → is_ascii_digit c = false → c ≠ SLASH → c ∉ cidr_text v4 v6.
Proof.
  intros H4 H6 Hc Hs. unfold cidr_text, SLASH2. pose proof (digits_not v4 c H4 Hc). pose proof (digits_not v6 c H6 Hc).
  set_solver.
Qed.

(** The part after an [a] or [mx] name. *)
Lemma parse_domain_text d v4 v6 :
  0 ≤ v4 ≤ 32 → 0 ≤ v6 ≤ 128 → d ≠ Some [] → match d with Some d => SLASH ∉ d | None => True end →
  parse_domain_and_dual_cidr (Some (default [] d ++ cidr_text v4 v6)) = Ok (d, v4, v6).
Proof.
  intros H4 H6 Hne Hs. pose proof (parse_dual_cidr_text v4 v6 H4 H6) as Hp. unfold cidr_text in *.
  cbn [app] in *. unfold parse_domain_and_dual_cidr.
  rewrite split_once_app by (destruct d; [done|set_solver]). rewrite Hp.
  destruct d as [[|c d]|]; simpl; done.
Qed.

Lemma name_split name d v4 v6 :
  COLON ∉ name → SLASH ∉ name → 0 ≤ v4 → 0 ≤ v6 →
  split_mechanism (name ++ domain_text d ++ cidr_text v4 v6) = (name, Some (default [] d ++ cidr_text v4 v6)).
Proof.
  intros Hc Hs H4 H6. unfold split_mechanism. destruct d as [d|]; cbn [domain_text default from_option].
  - change (name ++ (COLON :: d) ++ cidr_text v4 v6) with (name ++ COLON :: d ++ cidr_text v4 v6).
    by rewrite split_once_app.
  - rewrite (proj2 (split_once_None COLON _)).
    + unfold cidr_text. cbn [app]. by rewrite split_once_app.
    + rewrite !elem_of_app. pose proof (cidr_text_clean v4 v6 COLON H4 H6 eq_refl ltac:(done)). set_solver.
Qed.

(** A character that a literal does not hold. *)
Ltac notin_lit := match goal with |- ?x ∉ ?l => apply (bool_decide_eq_true_1 (x ∉ l)); by vm_compute end.

Lemma split_value name value : COLON ∉ name → split_mechanism (name ++ COLON :: value) = (name, Some value).
Proof. intros Hc. unfold split_mechanism. by rewrite split_once_app. Qed.

Lemma parse_mechanism_text m : mechanism_printable m → parse_mechanism (mechanism_text m) = Ok m.
Proof.
  intros [Hwf Hpr].
  destruct m as [|net p|net p|d v4 v6|d v4 v6|d|d|d]; cbn [mechanism_text mechanism_wf] in *; unfold parse_mechanism.
  - done.
  - change (lit "ip4:" ++ v4_to_string net ++ SLASH :: show p)
      with (lit "ip4" ++ COLON :: v4_to_string net ++ SLASH :: show p). rewrite split_value by notin_lit.
    transitivity ('(net, prefix) ← parse_ip4_cidr (v4_to_string net ++ SLASH :: show p); Ok (MechIp4 net prefix)); [done|].
    unfold parse_ip4_cidr. rewrite split_once_app by exact (ip_chars_not (V4 net) SLASH eq_refl).
    rewrite parse_prefix_show by lia. cbn [mbind result_bind]. by rewrite parse_v4_show by lia.
  - change (lit "ip6:" ++ v6_to_string net ++ SLASH :: show p)
      with (lit "ip6" ++ COLON :: v6_to_string net ++ SLASH :: show p). rewrite split_value by notin_lit.
    transitivity ('(net, prefix) ← parse_ip6_cidr (v6_to_string net ++ SLASH :: show p); Ok (MechIp6 net prefix)); [done|].
    unfold parse_ip6_cidr. rewrite split_once_app by exact (ip_chars_not (V6 net) SLASH eq_refl).
    rewrite parse_prefix_show by lia. cbn [mbind result_bind]. by rewrite parse_v6_show by lia.
  - rewrite name_split by (lia || notin_lit).
    transitivity ('(domain, v4, v6) ← parse_domain_and_dual_cidr (Some (default [] d ++ cidr_text v4 v6));
                  Ok (MechA domain v4 v6) : result NetworkError Mechanism); [done|].
    rewrite parse_domain_text; [done|lia|lia|naive_solver|destruct d; naive_solver].
  - rewrite name_split by (lia || notin_lit).
    transitivity ('(domain, v4, v6) ← parse_domain_and_dual_cidr (Some (default [] d ++ cidr_text v4 v6));
                  Ok (MechMx domain v4 v6) : result NetworkError Mechanism); [done|].
    rewrite parse_domain_text; [done|lia|lia|naive_solver|destruct d; naive_solver].
  - change (lit "include:" ++ d) with (lit "include" ++ COLON :: d). rewrite split_value by notin_lit. by destruct d.
  - change (lit "exists:" ++ d) with (lit "exists" ++ COLON :: d). rewrite split_value by notin_lit. by destruct d.
  - destruct d as [d|]; [|done]. change (lit "ptr" ++ domain_text (Some d)) with (lit "ptr" ++ COLON :: d).
    rewrite split_value by notin_lit. by destruct d.
Qed.

Lemma split_whitespace_join (ts : list str) :
  Forall (λ t, word t ∧ t ≠ []) ts → split_whitespace (join [SP] ts) = ts.
Proof.
  unfold split_whitespace. induction 1 as [|t ts [Ht Hne] HF IH]; [done|]. destruct ts as [|t' ts].
  - cbn [join]. rewrite split_on_none by done. by rewrite filter_cons_True.
  - change (join [SP] (t :: t' :: ts)) with (t ++ SP :: join [SP] (t' :: ts)).
    rewrite split_on_app, (split_on_none _ t), filter_app, IH by done. by rewrite filter_cons_True.
Qed.

Lemma word_show n : 0 ≤ n → word (show n).
Proof. intros Hn. eapply Forall_impl; [by apply show_digits|]. intros c. apply is_ascii_digit_not_ws. Qed.
Lemma word_ip ip : word (ip_to_string ip).
Proof.
  eapply Forall_impl; [apply ip_to_string_addr|]. intros c. unfold is_addr_char, is_whitespace, is_ascii_digit, DOT, COLON. lia.
Qed.

Lemma word_app a b : word (a ++ b) ↔ word a ∧ word b.
Proof. unfold word. by rewrite Forall_app. Qed.
Lemma word_cons c s : word (c :: s) ↔ is_whitespace c = false ∧ word s.
Proof. unfold word. by rewrite Forall_cons. Qed.

Lemma directive_text_word d : mechanism_printable (mechanism d) → word (directive_text d) ∧ directive_text d ≠ [].
Proof.
  destruct d as [q m]. intros [Hwf Hpr]. cbn [mechanism] in *. split; [|done]. unfold directive_text. cbn [qualifier mechanism].
  assert (∀ s, forallb (λ c, negb (is_whitespace c)) (lit s) = true → word (lit s)) as Hlit.
  { intros s Hs. apply Forall_forall. intros c Hc%list_elem_of_In. rewrite forallb_forall in Hs. by apply negb_true_iff, Hs. }
  apply word_cons. split; [by destruct q|].
  assert (∀ v4 v6, 0 ≤ v4 → 0 ≤ v6 → word (cidr_text v4 v6)) as Hcidr.
  { intros v4 v6 H4 H6. unfold cidr_text. rewrite !word_app. pose proof (word_show v4 H4). pose proof (word_show v6 H6).
    split_and!; [by constructor|done|by repeat constructor|done]. }
  destruct m as [|net p|net p|d v4 v6|d v4 v6|d|d|d]; cbn [mechanism_text mechanism_wf] in *; rewrite ?word_app, ?word_cons.
  - by apply Hlit.
  - split_and!; [by apply Hlit|apply (word_ip (V4 net))|done|apply word_show; lia].
  - split_and!; [by apply Hlit|apply (word_ip (V6 net))|done|apply word_show; lia].
  - split_and!; [by apply Hlit| |apply Hcidr; lia]. destruct d as [d|]; [|constructor]. apply word_cons. naive_solver.
  - split_and!; [by apply Hlit| |apply Hcidr; lia]. destruct d as [d|]; [|constructor]. apply word_cons. naive_solver.
  - split; [by apply Hlit|done].
  - split; [by apply Hlit|done].
  - split; [by apply Hlit|]. destruct d as [d|]; [|constructor]. apply word_cons. naive_solver.
Qed.

Lemma parse_directive_text d :
  mechanism_printable (mechanism d) →
  split_modifier (directive_text d) = None ∧ parse_directive (directive_text d) = Ok d.
Proof.
  intros Hpr. destruct d as [q m]. unfold directive_text. cbn [qualifier mechanism] in *. split.
  - unfold split_modifier. destruct (split_once 61 _) as [[name rest]|] eqn:E; [|done].
    apply split_once_Some in E as [E _]. destruct (contains_char COLON name); [done|].
    destruct name as [|c name]; [by destruct q|]. cbn [app] in E. simplify_eq. by destruct q.
  - unfold parse_directive. assert (Qualifier_from_char (qualifier_char q) = Some q) as -> by (by destruct q).
    by rewrite parse_mechanism_text.
Qed.

Lemma parse_terms_text ds redir : ∀ acc,
  Forall (λ d, mechanism_printable (mechanism d)) ds →
  parse_terms ((directive_text <$> ds) ++ match redir with Some d => [lit "redirect=" ++ d] | None => [] end) acc None =
  Ok (mkSpfRecord (acc ++ ds) redir).
Proof.
  induction ds as [|d ds IH]; intros acc HF; cbn [fmap list_fmap app].
  - rewrite app_nil_r. destruct redir as [t|]; [|done]. cbn [parse_terms].
    assert (split_modifier (lit "redirect=" ++ t) = Some (lit "redirect", t)) as ->; [|done].
    unfold split_modifier. change (lit "redirect=" ++ t) with (lit "redirect" ++ 61 :: t).
    by rewrite split_once_app by notin_lit.
  - apply Forall_cons in HF as [Hd HF]. cbn [parse_terms].
    destruct (parse_directive_text d Hd) as [-> ->]. cbn [mbind result_bind].
    by rewrite IH, <-app_assoc.
Qed.

(** C33: the SPF parser is complete: every well-formed record, with any qualifiers,
    mechanisms, networks, prefix lengths and redirect, has a text that parses back
    to it (the domain specifications free of white space, and of slashes in [a] and
    [mx]). *)
Theorem spf_record_roundtrip (r : SpfRecord) :
  Forall (λ d, mechanism_printable (mechanism d)) (directives r) →
  match redirect r with Some d => word d | None => True end →
  SpfRecord_parse (record_text r) = Ok r.
Proof.
  destruct r as [ds redir]. cbn [directives redirect]. intros HF Hr. unfold SpfRecord_parse, record_text, record_terms.
  cbn [directives redirect]. rewrite split_whitespace_join.
  - change (is_spf_version (lit "v=spf1")) with true. by rewrite parse_terms_text.
  - constructor; [split; [|done]; by repeat constructor|]. apply Forall_app. split.
    + apply Forall_fmap. eapply Forall_impl; [done|]. intros d. apply directive_text_word.
    + destruct redir as [t|]; [|constructor]. apply Forall_singleton. split; [|done].
      apply word_app. split; [by repeat constructor|done].
Qed.

Lemma spf_record_roundtrip_witness :
  SpfRecord_parse (record_text (mkSpfRecord
    [mkDirective QFail (MechIp6 (v6_new 8193 3512 0 0 0 0 0 1) 32); mkDirective QPass (MechMx (Some (lit "x.org")) 24 64);
     mkDirective QSoftFail MechAll] (Some (lit "y.org")))) =
  Ok (mkSpfRecord
    [mkDirective QFail (MechIp6 (v6_new 8193 3512 0 0 0 0 0 1) 32); mkDirective QPass (MechMx (Some (lit "x.org")) 24 64);
     mkDirective QSoftFail MechAll] (Some (lit "y.org"))).
Proof.
  apply spf_record_roundtrip; [|by repeat constructor]. repeat constructor; cbn; try done; try notin_lit.
Defined.

(** ** Macro expansion *)

Definition macro_quote (s : str) : str := s ≫= λ c, if c =? 37 then [37; 37] else [c].
(** Macro expansion can produce any text: with [%] doubled, a text expands to
    itself in every context, so the expansion changes macros and nothing else. *)
Theorem expand_quoted (s : str) (ctx : MacroContext) : expand (macro_quote s) ctx = Ok s.
Proof.
  unfold expand, macro_quote. induction s as [|c s IH]; [done|]. cbn [mbind list_bind].
  destruct (Z.eqb_spec c 37) as [->|Hc]; cbn [app expand_go]; rewrite IH.
  - done.
  - by destruct (Z.eqb_spec c 37).
Qed.

(** A policy that includes itself: eleven policy fetches, then a permanent error. *)
Example spf_loop :
  let resolver := plain_resolver (λ _, Ok []) (λ _, Ok []) (λ _, Ok [lit "v=spf1 include:%{d} -all"]) (λ _, Ok []) in
  spf_run resolver (V4 1) (lit "helo") (lit "a@b.org") =
  Some (mkEvaluator 11 0 (replicate 11 (QueryTxt (lit "b.org"))), SpfPermError).
Proof. by vm_compute. Qed.
Example spf_demo :
  let txt d := if d =s? lit "b.org" then Ok [lit "other"; lit "v=spf1 include:_spf.c.org ~all"]
               else if d =s? lit "_spf.c.org" then Ok [lit "v=spf1 mx/24 -all"] else Ok [] in
  let resolver := plain_resolver (λ _, Ok [mkMx 10 (lit "mx.c.org")]) (λ _, Ok [V4 (v4_new 192 0 2 1)]) txt (λ _, Ok []) in
  spf_evaluate resolver (V4 (v4_new 192 0 2 9)) (lit "helo") (lit "a@b.org") = SpfPass ∧
  spf_evaluate resolver (V4 (v4_new 192 0 3 9)) (lit "helo") (lit "a@b.org") = SpfSoftFail ∧
  spf_evaluate resolver (V4 1) (lit "_spf.c.org") [] = SpfFail.
Proof. by vm_compute. Qed.
