(* ===== verification/Dkim.v ===== *)
(** * DKIM verification

    crates/network/src/dkim: canonicalization (canonicalize.rs), the signature
    header (signature.rs) and verification (verify.rs).  Base64, SHA-256 and the
    two signature schemes are parameters; DNS is the [DnsResolver] contract. *)
From S2P Require Import Prelude RustStr Net Received Dmarc Dns.

(** ** Canonicalization *)

Inductive HeaderCanon := HdrSimple | HdrRelaxed.
Inductive BodyCanon := BodySimple | BodyRelaxed.

Definition parse_canon (c : option str) : HeaderCanon * BodyCanon :=
  match c with
  | None => (HdrSimple, BodySimple)
  | Some c =>
      let '(h, b) := match split_once SLASH c with Some hb => hb | None => (c, lit "simple") end in
      (if eq_ignore_case h (lit "relaxed") then HdrRelaxed else HdrSimple,
       if eq_ignore_case b (lit "relaxed") then BodyRelaxed else BodySimple)
  end.

Definition is_wsp (b : byte) : bool := (b =? SP) || (b =? HT).

Definition relax_value_step (st : bytes * bool) (b : byte) : bytes * bool :=
  let '(out, in_wsp) := st in
  if (b =? CR) || (b =? LF) then (out, in_wsp)
  else if is_wsp b then (out, true)
  else (out ++ (if in_wsp && negb (bool_decide (out = [])) then [SP; b] else [b]), false).
Definition relax_value (raw : bytes) : bytes := (foldl relax_value_step ([], false) raw).1.

Definition canonicalize_header (name : str) (raw_value : bytes) (canon : HeaderCanon) (with_crlf : bool) : bytes :=
  let out := match canon with
             | HdrSimple => utf8_encode name ++ [COLON] ++ raw_value
             | HdrRelaxed => utf8_encode (lowercase (trim name)) ++ [COLON] ++ relax_value raw_value
             end in
  if with_crlf then out ++ CRLF else out.

(** The loop over the end of the body, on the reversed bytes. *)
Fixpoint peel_crlfs (r : bytes) : bytes :=
  match r with
  | b :: a :: t => if (b =? LF) && (a =? CR) then peel_crlfs t else r
  | _ => r
  end.
Definition simple_body (body : bytes) : bytes := reverse (peel_crlfs (reverse body)) ++ CRLF.

Definition relax_line_step (st : bytes * bool) (b : byte) : bytes * bool :=
  let '(out, in_wsp) := st in
  if is_wsp b then (out, true) else (out ++ (if in_wsp then [SP; b] else [b]), false).
Definition relax_line (line : bytes) : bytes := (foldl relax_line_step ([], false) line).1.

(** The lines found by searching for the next CRLF; [fuel] bounds the iterations. *)
Fixpoint body_lines (fuel : nat) (body : bytes) : list bytes :=
  match fuel with
  | O => []
  | S fuel =>
      match body with
      | [] => []
      | _ => match find_sub CRLF body with
             | Some p => take p body :: body_lines fuel (drop (p + 2) body)
             | None => [body]
             end
      end
  end.
(** Peel a CRLF that ends an empty line, on the reversed bytes. *)
Fixpoint peel_empty_lines (r : bytes) : bytes :=
  match r with
  | b :: a :: t =>
      if (b =? LF) && (a =? CR) then
        match t with
        | [] => []
        | d :: c :: _ => if (d =? LF) && (c =? CR) then peel_empty_lines t else r
        | _ => r
        end
      else r
  | _ => r
  end.
Definition relaxed_body (body : bytes) : bytes :=
  let out := body_lines (length body) body ≫= λ line, relax_line line ++ CRLF in
  let out := reverse (peel_empty_lines (reverse out)) in
  if out =s? CRLF then [] else out.

Definition canonicalize_body (body : bytes) (canon : BodyCanon) : bytes :=
  match canon with BodySimple => simple_body body | BodyRelaxed => relaxed_body body end.

Example canon_rfc :
  relaxed_body (lit " C " ++ CRLF ++ lit "D " ++ [HT] ++ lit " E" ++ CRLF ++ CRLF ++ CRLF) = lit " C" ++ CRLF ++ lit "D E" ++ CRLF ∧
  simple_body (lit " C " ++ CRLF ++ CRLF ++ CRLF) = lit " C " ++ CRLF ∧ simple_body [] = CRLF ∧
  relaxed_body [] = [] ∧ relaxed_body (CRLF ++ lit " " ++ CRLF) = [] ∧
  canonicalize_header (lit "B ") (lit " Y" ++ [HT] ++ CRLF ++ [HT] ++ lit "Z  ") HdrRelaxed true = lit "b:Y Z" ++ CRLF.
Proof. by vm_compute. Qed.

(** ** Relaxed header values *)

Lemma relax_value_app raw raw' :
  relax_value (raw ++ raw') = (foldl relax_value_step (foldl relax_value_step ([], false) raw) raw').1.
Proof. unfold relax_value. by rewrite foldl_app. Qed.

(** What remains to be written: [w] whether white space was seen, [e] whether
    nothing has been written yet. *)
Fixpoint relax_rest (e w : bool) (s : bytes) : bytes :=
  match s with
  | [] => []
  | b :: t =>
      if (b =? CR) || (b =? LF) then relax_rest e w t
      else if is_wsp b then relax_rest e true t
      else (if w && negb e then [SP; b] else [b]) ++ relax_rest false false t
  end.
Lemma relax_value_rest s : ∀ out w,
  (foldl relax_value_step (out, w) s).1 = out ++ relax_rest (bool_decide (out = [])) w s.
Proof.
  induction s as [|b s IH]; intros out w; cbn [foldl relax_rest relax_value_step fst]; [by rewrite app_nil_r|].
  case_code; [by rewrite IH|]. case_code; [by rewrite IH|].
  rewrite IH, <-app_assoc. f_equal. f_equal.
  by rewrite bool_decide_eq_false_2 by (intros [_ H]%app_nil; by destruct (w && _)).
Qed.

Definition unfolded (s : bytes) : bytes := filter (λ b, b ≠ CR ∧ b ≠ LF) s.
(** The words of a header value: the line breaks dropped, split at white space. *)
Definition value_words (s : bytes) : list bytes := filter (λ w, w ≠ []) (split_on is_wsp (unfolded s)).

Lemma value_words_wsp b s : is_wsp b = true → (b ≠ CR ∧ b ≠ LF) → value_words (b :: s) = value_words s.
Proof.
  intros Hb Hn. unfold value_words, unfolded. rewrite filter_cons_True by done. cbn [split_on]. rewrite Hb.
  by rewrite filter_cons_False by naive_solver.
Qed.

Lemma join_sp (ws : list bytes) : join [SP] ws = match ws with [] => [] | x :: r => x ++ (r ≫= λ x, SP :: x) end.
Proof.
  induction ws as [|x ws IH]; [done|]. destruct ws as [|y ws]; [by cbn; rewrite app_nil_r|].
  change (join [SP] (x :: y :: ws)) with (x ++ SP :: join [SP] (y :: ws)). by rewrite IH.
Qed.
Lemma relax_rest_words s : ∀ w,
  relax_rest true w s = join [SP] (value_words s) ∧
  relax_rest false w s =
    match split_on is_wsp (unfolded s) with
    | h :: r => (if w && negb (bool_decide (h = [])) then SP :: h else h) ++
                (filter (λ w, w ≠ []) r ≫= λ x, SP :: x)
    | [] => []
    end.
Proof.
  induction s as [|b s IH]; intros w; [by destruct w|]. cbn [relax_rest].
  destruct ((b =? CR) || (b =? LF)) eqn:Hb.
  - assert (unfolded (b :: s) = unfolded s) as Hu.
    { unfold unfolded. apply filter_cons_False. apply orb_true_iff in Hb as [Hb|Hb]; bsimp; tauto. }
    unfold value_words. rewrite Hu. apply IH.
  - assert (b ≠ CR ∧ b ≠ LF) as Hn by (bsimp; tauto).
    assert (unfolded (b :: s) = b :: unfolded s) as Hu by by apply filter_cons_True.
    destruct (is_wsp b) eqn:Hw.
    + rewrite value_words_wsp by done. split; [apply IH|].
      rewrite (proj2 (IH true)), Hu. cbn [split_on]. rewrite Hw. rewrite andb_false_r. cbn [app].
      pose proof (split_on_nonempty is_wsp (unfolded s)). destruct (split_on is_wsp (unfolded s)) as [|h r]; [done|].
      simpl. case_bool_decide; simpl.
      * subst. by rewrite filter_cons_False by tauto.
      * by rewrite filter_cons_True.
    + pose proof (proj2 (IH false)) as H. rewrite andb_false_r. rewrite H. clear H IH.
      unfold value_words. rewrite Hu. cbn [split_on]. rewrite Hw.
      pose proof (split_on_nonempty is_wsp (unfolded s)). destruct (split_on is_wsp (unfolded s)) as [|h r]; [done|].
      rewrite filter_cons_True by done. rewrite join_sp. cbn [negb andb app].
      rewrite bool_decide_eq_false_2 by done. split; [done|]. by destruct w.
Qed.

(** Relaxed header canonicalization keeps exactly the words of a header value:
    the line breaks of folding are dropped and every run of spaces and tabs, at
    either end included, is reduced to a single separating space or to nothing.  So
    the form does not depend on how the field was folded or spaced. *)
Theorem relax_value_spec (raw : bytes) : relax_value raw = join [SP] (value_words raw).
Proof. unfold relax_value. rewrite relax_value_rest. apply relax_rest_words. Qed.

(** ** Bodies *)

(** The lines of a body, by recursion on its bytes: CRLF ends a line, and bytes after
    the last CRLF are a line of their own. *)
Fixpoint ref_lines (s : bytes) : list bytes :=
  match s with
  | [] => []
  | a :: t =>
      let rest := match ref_lines t with [] => [[a]] | h :: r => (a :: h) :: r end in
      match t with
      | b :: t' => if (a =? CR) && (b =? LF) then [] :: ref_lines t' else rest
      | [] => rest
      end
  end.

Definition no_crlf (s : bytes) : Prop := find_sub CRLF s = None.

Lemma no_crlf_cons a l : no_crlf (a :: l) ↔ no_crlf l ∧ ¬ (a = CR ∧ ∃ t, l = LF :: t).
Proof.
  unfold no_crlf.
  change (find_sub CRLF (a :: l)) with (if starts_with CRLF (a :: l) then Some 0%nat else S <$> find_sub CRLF l).
  destruct (starts_with CRLF (a :: l)) eqn:E.
  - apply starts_with_true in E as [r E]. split; [done|]. intros [_ Hx]. exfalso. apply Hx. cbn in E. simplify_eq. eauto.
  - assert (¬ (a = CR ∧ ∃ t, l = LF :: t)) as Hn.
    { intros [-> [t ->]]. apply not_true_iff_false in E. apply E, starts_with_true. by exists t. }
    destruct (find_sub CRLF l); naive_solver.
Qed.

Lemma no_crlf_test a b l : no_crlf (a :: b :: l) → (a =? CR) && (b =? LF) = false.
Proof.
  intros [_ Hn]%no_crlf_cons. destruct (Z.eqb_spec a CR) as [->|]; [|done].
  destruct (Z.eqb_spec b LF) as [->|]; [|done]. exfalso. eauto.
Qed.

Lemma ref_lines_app l rest : no_crlf l → ref_lines (l ++ CRLF ++ rest) = l :: ref_lines rest.
Proof.
  change (CRLF ++ rest) with (CR :: LF :: rest). induction l as [|a l IH]; intros Hn; [done|].
  pose proof Hn as [Hl _]%no_crlf_cons. cbn [app ref_lines]. rewrite (IH Hl).
  destruct l as [|b l]; [cbn [app]; by rewrite andb_false_r|]. cbn [app]. by rewrite (no_crlf_test _ _ _ Hn).
Qed.

Lemma ref_lines_last l : no_crlf l → l ≠ [] → ref_lines l = [l].
Proof.
  induction l as [|a l IH]; intros Hn Hne; [done|]. pose proof Hn as [Hl _]%no_crlf_cons.
  cbn [ref_lines]. destruct l as [|b l]; [done|]. rewrite IH by done. by rewrite (no_crlf_test _ _ _ Hn).
Qed.

Lemma find_crlf_split body p :
  find_sub CRLF body = Some p → ∃ pre post, body = pre ++ CRLF ++ post ∧ length pre = p ∧ no_crlf pre.
Proof.
  intros Ep. destruct (find_sub_Some _ _ _ Ep) as (pre & post & Hbody & Hpre). exists pre, post. split_and!; [done..|].
  unfold no_crlf. destruct (find_sub CRLF pre) as [q|] eqn:Eq; [|done]. exfalso.
  destruct (find_sub_Some _ _ _ Eq) as (x & y & Hx & Hq).
  assert (p ≤ length x)%nat as Hle.
  { eapply (find_sub_first CRLF body p x (y ++ CRLF ++ post)); [done|]. rewrite Hbody, Hx, <-!app_assoc. done. }
  rewrite Hx, !length_app in Hpre. simpl in Hpre. lia.
Qed.

(** The search loop finds the same lines, none of which holds a CRLF, and one
    iteration per byte is enough. *)
Lemma body_lines_ref fuel body :
  (length body ≤ fuel)%nat → body_lines fuel body = ref_lines body ∧ Forall no_crlf (ref_lines body).
Proof.
  revert body. induction fuel as [|fuel IH]; intros body Hf; [by destruct body; [|simpl in Hf; lia]|].
  cbn [body_lines]. destruct body as [|a t] eqn:Eb; [done|]. rewrite <-Eb in *.
  destruct (find_sub CRLF body) as [p|] eqn:Ep.
  - destruct (find_crlf_split _ _ Ep) as (pre & post & Hbody & Hpre & Hno).
    rewrite Hbody. rewrite ref_lines_app by done. rewrite <-Hpre, take_app_length.
    replace (drop (length pre + 2) (pre ++ CRLF ++ post)) with post.
    + destruct (IH post) as [-> HF]; [rewrite Hbody, !length_app in Hf; simpl in Hf; lia|]. auto.
    + rewrite app_assoc. replace (length pre + 2)%nat with (length (pre ++ CRLF)) by (rewrite length_app; done).
      by rewrite drop_app_length.
  - rewrite ref_lines_last by (done || by rewrite Eb). auto.
Qed.

(** *** Lines *)

Fixpoint line_rest (w : bool) (s : bytes) : bytes :=
  match s with
  | [] => []
  | b :: t => if is_wsp b then line_rest true t else (if w then [SP; b] else [b]) ++ line_rest false t
  end.
Lemma relax_line_rest s : relax_line s = line_rest false s.
Proof.
  unfold relax_line. enough (∀ out w, (foldl relax_line_step (out, w) s).1 = out ++ line_rest w s) as -> by done.
  induction s as [|b s IH]; intros out w; cbn [foldl line_rest relax_line_step fst]; [by rewrite app_nil_r|].
  case_code; [by rewrite IH|]. by rewrite IH, <-app_assoc.
Qed.

Lemma line_rest_idemp s w : line_rest false (line_rest w s) = line_rest w s.
Proof.
  revert w. induction s as [|b s IH]; intros w; [done|]. cbn [line_rest].
  destruct (is_wsp b) eqn:Hb; [apply IH|]. destruct w; cbn [app line_rest]; rewrite Hb, IH; done.
Qed.

Lemma line_rest_no_crlf s : ∀ w,
  no_crlf s → no_crlf (line_rest w s) ∧ (∀ t, line_rest w s = LF :: t → ∃ t', s = LF :: t').
Proof.
  induction s as [|b s IH]; intros w; [done|]. intros [Hs Hn]%no_crlf_cons. cbn [line_rest].
  destruct (is_wsp b) eqn:Hb.
  - destruct (IH true Hs) as [H1 H2]. split; [done|]. intros t Ht. exfalso. clear -Ht.
    assert (∀ s t, line_rest true s ≠ LF :: t) as H; [|by apply H in Ht].
    clear. induction s as [|b s IH]; intros t; cbn [line_rest]; [done|]. by destruct (is_wsp b).
  - destruct (IH false Hs) as [H1 H2].
    assert (no_crlf (b :: line_rest false s)) as Hc by (apply no_crlf_cons; naive_solver).
    destruct w; cbn [app].
    + split; [|done]. apply no_crlf_cons. split; [done|]. by intros [? _].
    + split; [done|]. intros t [= -> _]. eauto.
Qed.

(** A line as RFC 6376 (section 3.4.4) relaxes it, from its words, the longest runs of
    bytes that are not white space: one space between two words, one before the first
    when the line starts with white space, and none after the last. *)
Definition line_words (line : bytes) : list bytes := filter (λ w, w ≠ []) (split_on is_wsp line).
Definition rfc_line (line : bytes) : bytes :=
  (match line, line_words line with b :: _, _ :: _ => if is_wsp b then [SP] else [] | _, _ => [] end) ++
  join [SP] (line_words line).

Lemma line_rest_words s : ∀ w,
  line_rest w s =
    match split_on is_wsp s with
    | h :: r => (if w && negb (bool_decide (h = [])) then SP :: h else h) ++ (filter (λ w, w ≠ []) r ≫= λ x, SP :: x)
    | [] => []
    end.
Proof.
  induction s as [|b s IH]; intros w; [by destruct w|]. cbn [line_rest split_on].
  pose proof (split_on_nonempty is_wsp s). destruct (is_wsp b) eqn:Hw.
  - rewrite (IH true), andb_false_r. destruct (split_on is_wsp s) as [|h r]; [done|]. simpl. case_bool_decide; simpl.
    + subst. by rewrite filter_cons_False by tauto.
    + by rewrite filter_cons_True.
  - rewrite (IH false). destruct (split_on is_wsp s) as [|h r]; [done|]. cbn [andb].
    rewrite bool_decide_eq_false_2 by done. by destruct w.
Qed.
Lemma relax_line_spec s : relax_line s = rfc_line s.
Proof.
  rewrite relax_line_rest, line_rest_words. unfold rfc_line, line_words.
  destruct s as [|b s]; [done|]. cbn [split_on andb]. pose proof (split_on_nonempty is_wsp s).
  destruct (is_wsp b).
  - rewrite filter_cons_False by tauto. rewrite join_sp. by destruct (filter _ (split_on is_wsp s)).
  - destruct (split_on is_wsp s) as [|h r]; [done|]. by rewrite filter_cons_True, join_sp by done.
Qed.

(** *** Trailing empty lines *)

Lemma peel_empty_lines_spec (ls : list bytes) :
  Forall no_crlf ls →
  reverse (peel_empty_lines (reverse (ls ≫= λ l, l ++ CRLF))) = drop_while_end (λ l, bool_decide (l = [])) ls ≫= λ l, l ++ CRLF.
Proof.
  induction ls as [|l ls IH] using rev_ind; [done|]. intros [HF Hl]%Forall_app.
  rewrite Forall_singleton in Hl. rewrite bind_app. cbn [mbind list_bind]. rewrite app_nil_r.
  rewrite !reverse_app. change (reverse CRLF) with [LF; CR]. cbn [app].
  destruct (decide (l = [])) as [->|Hne].
  - rewrite drop_while_end_app_all by (by constructor). rewrite <-IH by done. cbn [app].
    change (reverse []) with (@nil Z). cbn [app].
    destruct ls as [|l' ls' _] using rev_ind; [done|].
    rewrite bind_app. cbn [mbind list_bind]. rewrite app_nil_r, !reverse_app. done.
  - rewrite drop_while_end_id.
    2:{ intros x t [_ [= <-]]%app_inj_tail. by apply bool_decide_eq_false. }
    rewrite bind_app. cbn [mbind list_bind]. rewrite app_nil_r. rewrite <-(reverse_involutive (_ ++ l ++ CRLF)).
    f_equal. rewrite !reverse_app. change (reverse CRLF) with [LF; CR]. cbn [app].
    set (r := reverse (ls ≫= λ l, l ++ CRLF)).
    assert (∃ d u, reverse l = d :: u ∧ ((d =? LF) && match u with c :: _ => c =? CR | [] => false end = false)) as (d & u & Hr & Hd).
    { destruct l as [|d u _] using rev_ind; [done|]. rewrite reverse_app. exists d, (reverse u). split; [done|].
      destruct u as [|c u _] using rev_ind; [by rewrite andb_false_r|]. rewrite reverse_app. cbn.
      apply andb_false_iff. destruct (Z.eqb_spec d LF) as [->|]; [right|by left].
      apply Z.eqb_neq. intros ->. clear -Hl. rewrite <-app_assoc in Hl. cbn in Hl.
      induction u as [|x u IH]; cbn [app] in Hl; apply no_crlf_cons in Hl as [Hl Hn]; [naive_solver|auto]. }
    rewrite Hr. cbn [app peel_empty_lines]. rewrite !Z.eqb_refl. cbn [andb].
    destruct u as [|c u]; cbn [app].
    + destruct r as [|c r'] eqn:Er; [done|].
      assert (c = LF) as ->.
      { unfold r in Er. destruct ls as [|l' ls' _] using rev_ind; [done|].
        rewrite bind_app in Er. cbn [mbind list_bind] in Er. rewrite app_nil_r, !reverse_app in Er. by inversion Er. }
      change (LF =? CR) with false. by rewrite andb_false_r.
    + by rewrite Hd.
Qed.

Lemma drop_while_end_Forall {A} (P : A → Prop) f (l : list A) : Forall P l → Forall P (drop_while_end f l).
Proof. destruct (drop_while_end_prefix f l) as (k & Hk & _). rewrite Hk at 1. by intros [? _]%Forall_app. Qed.

Lemma drop_while_end_idemp {A} f (l : list A) : drop_while_end f (drop_while_end f l) = drop_while_end f l.
Proof. apply drop_while_end_id. intros x t Ht. by eapply drop_while_end_last. Qed.

Lemma ref_lines_bind ls : Forall no_crlf ls → ref_lines (ls ≫= λ l, l ++ CRLF) = ls.
Proof.
  induction 1 as [|l ls Hl HF IH]; [done|]. cbn [mbind list_bind]. rewrite <-app_assoc, ref_lines_app by done.
  by f_equal.
Qed.

(** The relaxed lines of a body: each line relaxed, and no empty line at the end. *)
Definition relaxed_lines (body : bytes) : list bytes :=
  drop_while_end (λ l, bool_decide (l = [])) (rfc_line <$> ref_lines body).

Lemma rfc_lines_no_crlf ls : Forall no_crlf ls → Forall no_crlf (rfc_line <$> ls).
Proof.
  intros HF. apply Forall_fmap. eapply Forall_impl; [done|]. intros l Hl. simpl.
  rewrite <-relax_line_spec, relax_line_rest. by apply line_rest_no_crlf.
Qed.
Lemma relaxed_lines_no_crlf body : Forall no_crlf (relaxed_lines body).
Proof. apply drop_while_end_Forall, rfc_lines_no_crlf. by destruct (body_lines_ref _ body (reflexivity _)). Qed.

Lemma relaxed_body_lines body : relaxed_body body = relaxed_lines body ≫= λ l, l ++ CRLF.
Proof.
  unfold relaxed_body. destruct (body_lines_ref _ body (reflexivity _)) as [-> HF].
  assert ((ref_lines body ≫= λ line, relax_line line ++ CRLF) = (rfc_line <$> ref_lines body) ≫= λ l, l ++ CRLF) as ->.
  { clear. induction (ref_lines body) as [|l ls IH]; [done|]. cbn [mbind list_bind fmap list_fmap]. by rewrite IH, relax_line_spec. }
  rewrite peel_empty_lines_spec by by apply rfc_lines_no_crlf.
  fold (relaxed_lines body). case_code; [|done]. apply str_eqb_eq in Heqb.
  exfalso. pose proof (relaxed_lines_no_crlf body) as Hno. apply (f_equal ref_lines) in Heqb.
  rewrite ref_lines_bind in Heqb by done. change (ref_lines CRLF) with [@nil Z] in Heqb.
  by apply (drop_while_end_last _ _ [] []) in Heqb.
Qed.

Lemma relaxed_lines_body body : ref_lines (relaxed_body body) = relaxed_lines body.
Proof. rewrite relaxed_body_lines. apply ref_lines_bind, relaxed_lines_no_crlf. Qed.

(** C30: relaxed body canonicalization, computed by two index loops over the bytes, is
    the line-by-line definition of RFC 6376: the lines ended by CRLF; of each line its
    words, one space between two of them and one before the first when the line starts
    with white space; the empty lines at the end dropped; and each line that is left
    written with a CRLF.  Canonicalizing twice changes nothing. *)
Theorem relaxed_body_spec (body : bytes) :
  (∀ line, relax_line line = rfc_line line) ∧
  relaxed_body body = relaxed_lines body ≫= (λ l, l ++ CRLF) ∧
  ref_lines (relaxed_body body) = relaxed_lines body ∧
  relaxed_body (relaxed_body body) = relaxed_body body.
Proof.
  pose proof (relaxed_lines_body body) as Hl. split_and!; [apply relax_line_spec|apply relaxed_body_lines|done|]. rewrite (relaxed_body_lines (relaxed_body body)), (relaxed_body_lines body).
  f_equal. unfold relaxed_lines at 1. rewrite <-relaxed_body_lines, Hl.
  assert (rfc_line <$> relaxed_lines body = relaxed_lines body) as ->; [|by apply drop_while_end_idemp].
  rewrite <-(list_fmap_id (relaxed_lines body)) at 2. apply Forall_fmap_ext.
  unfold relaxed_lines. apply drop_while_end_Forall, Forall_fmap, Forall_true. intros l. simpl.
  rewrite <-!relax_line_spec, !relax_line_rest. apply line_rest_idemp.
Qed.

(** Simple canonicalization: the body with exactly one CRLF at its end. *)
Lemma peel_crlfs_spec r : ∃ k, r = concat (replicate k [LF; CR]) ++ peel_crlfs r ∧ (∀ t, peel_crlfs r ≠ LF :: CR :: t).
Proof.
  induction r as [r IH] using (induction_ltof1 _ (@length Z)). unfold ltof in IH.
  destruct r as [|b [|a t]]; [by exists 0%nat|by exists 0%nat|]. cbn [peel_crlfs].
  destruct ((b =? LF) && (a =? CR)) eqn:E.
  - bsimp. subst. destruct (IH t) as (k & Hk & Hn); [simpl; lia|]. exists (S k). cbn. split; [by rewrite <-Hk|done].
  - exists 0%nat. split; [done|]. intros t' [= -> -> _]. done.
Qed.

Lemma simple_body_core body :
  ∃ pre k, body = pre ++ concat (replicate k CRLF) ∧ simple_body body = pre ++ CRLF ∧ ends_with CRLF pre = false.
Proof.
  unfold simple_body. destruct (peel_crlfs_spec (reverse body)) as (k & Hk & Hn).
  exists (reverse (peel_crlfs (reverse body))), k. split_and!; [|done|].
  - apply (f_equal reverse) in Hk. rewrite reverse_involutive, reverse_app in Hk. rewrite Hk at 1. f_equal.
    assert (∀ k, concat (replicate k CRLF) ++ CRLF = CRLF ++ concat (replicate k CRLF)) as Hc.
    { clear. intros k. induction k as [|k IH]; [done|]. cbn [replicate concat]. by rewrite <-app_assoc, IH. }
    clear -Hc. induction k as [|k IH]; [done|]. cbn [replicate concat]. rewrite reverse_app, IH. exact (Hc k).
  - apply not_true_iff_false. intros [r Hr]%ends_with_true. apply (f_equal reverse) in Hr.
    rewrite reverse_involutive, reverse_app in Hr. change (reverse CRLF) with [LF; CR] in Hr. exact (Hn _ Hr).
Qed.
(** Simple body canonicalization ends every body in exactly one CRLF and changes
    nothing else: the result is the body with some CRLFs removed from, or one added
    to, its end. *)
Theorem simple_body_spec (body : bytes) :
  ∃ pre k, body = pre ++ concat (replicate k CRLF) ∧ simple_body body = pre ++ CRLF ∧ ends_with CRLF pre = false.
Proof. apply simple_body_core. Qed.

(** ** The signature header *)

Inductive Algorithm := RsaSha256 | Ed25519Sha256.
#[export] Instance Algorithm_eq_dec : EqDecision Algorithm.
Proof. solve_decision. Defined.

Definition dkim_err {A} (reason : str) : result NetworkError A := Err (RecordError (lit "DKIM") reason).
Definition Algorithm_parse (a : str) : result NetworkError Algorithm :=
  let a := lowercase a in
  if a =s? lit "rsa-sha256" then Ok RsaSha256
  else if a =s? lit "ed25519-sha256" then Ok Ed25519Sha256
  else dkim_err (lit "unsupported algorithm `" ++ a ++ lit "`").

Record DkimSignature := mkSignature {
  sg_algorithm : Algorithm;
  sg_signature : bytes;
  sg_body_hash : bytes;
  sg_header_canon : HeaderCanon;
  sg_body_canon : BodyCanon;
  sg_domain : str;
  sg_selector : str;
  sg_signed_headers : list str;
  sg_body_length : option Z;
  sg_expiration : option Z;
  sg_b_stripped_value : bytes }.

Definition strip_b_segment (segment : str) : str :=
  match split_once 61 segment with
  | Some (key, _) => if trim key =s? lit "b" then key ++ [61] else segment
  | None => segment
  end.
Definition strip_b_value (value : str) : str := join [59] (strip_b_segment <$> split_char 59 value).

(** One parsed header field. *)
Record HeaderField := mkField { hf_name : str; hf_value : bytes }.

Section verification.
(** Base64 and SHA-256; RSA public keys, their two DER encodings and PKCS#1 v1.5
    verification; Ed25519 keys of 32 bytes that decode to a point, and strict
    verification. *)
Context {RsaPublicKey EdKey : Type}.
Context (base64_decode : bytes → option bytes) (sha256 : bytes → bytes)
  (from_public_key_der from_pkcs1_der : bytes → option RsaPublicKey)
  (rsa_verify : RsaPublicKey → bytes → bytes → bool)
  (ed_key_from_bytes : bytes → option EdKey) (ed_verify_strict : EdKey → bytes → bytes → bool).

(** The library's message is not kept: every caller drops it. *)
Definition decode_b64 (value : str) : result NetworkError bytes :=
  match base64_decode (utf8_encode (filter (λ c, is_whitespace c = false) value)) with
  | Some b => Ok b
  | None => dkim_err (lit "invalid base64")
  end.

Definition required (tags : gmap str str) (key : str) : result NetworkError str :=
  ok_or (RecordError (lit "DKIM") (lit "missing " ++ key ++ lit "=")) (tags !! key).
Definition optional_number (tags : gmap str str) (key : str) (max : Z) (reason : str)
    : result NetworkError (option Z) :=
  match tags !! key with
  | Some l => match parse_uint max l with Some n => Ok (Some n) | None => dkim_err reason end
  | None => Ok None
  end.

Definition DkimSignature_parse (raw_value : bytes) : result NetworkError DkimSignature :=
  let text := from_utf8_lossy raw_value in
  let tags := parse_tag_map text in
  match tags !! lit "v" with
  | Some v => if negb (v =s? lit "1") then dkim_err (lit "unsupported DKIM version `" ++ v ++ lit "`") else Ok tt
  | None => Ok tt
  end ≫= λ _,
  a ← required tags (lit "a");
  algorithm ← Algorithm_parse a;
  b ← required tags (lit "b");
  signature ← decode_b64 b;
  bh ← required tags (lit "bh");
  body_hash ← decode_b64 bh;
  let '(header_canon, body_canon) := parse_canon (tags !! lit "c") in
  domain ← required tags (lit "d");
  selector ← required tags (lit "s");
  h ← required tags (lit "h");
  let signed_headers := filter (λ h, h ≠ []) ((λ h, lowercase (trim h)) <$> split_char COLON h) in
  if bool_decide (signed_headers = []) then dkim_err (lit "h= lists no header fields") else
  body_length ← optional_number tags (lit "l") USIZE_MAX (lit "bad l= length");
  expiration ← optional_number tags (lit "x") U64_MAX (lit "bad x= expiration");
  Ok (mkSignature algorithm signature body_hash header_canon body_canon domain selector signed_headers
        body_length expiration (utf8_encode (strip_b_value text))).

(** ** The message *)

Definition split_message (raw : bytes) : bytes * bytes :=
  match find_sub (CRLF ++ CRLF) raw with
  | Some p => (take p raw, drop (p + 4) raw)
  | None => (raw, [])
  end.

(** The two-index loop: [line] is [bytes[start..i]]. *)
Fixpoint crlf_lines_go (line : bytes) (s : bytes) : list bytes :=
  match s with
  | a :: (b :: t) as rest =>
      if (a =? CR) && (b =? LF) then line :: crlf_lines_go [] t else crlf_lines_go (line ++ [a]) rest
  | _ => [line ++ s]
  end.
Definition split_crlf_lines (s : bytes) : list bytes := crlf_lines_go [] s.

(** Unfolding: [current] is the block being built, once started. *)
Fixpoint field_blocks (current : option bytes) (ls : list bytes) : list bytes :=
  match ls, current with
  | [], None => []
  | [], Some cur => [cur]
  | l :: ls, Some cur =>
      if match l with b :: _ => is_wsp b | [] => false end
      then field_blocks (Some (cur ++ CRLF ++ l)) ls
      else cur :: field_blocks (Some l) ls
  | l :: ls, None => field_blocks (Some l) ls
  end.
Definition field_of (block : bytes) : option HeaderField :=
  match split_once COLON block with
  | Some (n, v) => Some (mkField (trim (from_utf8_lossy n)) v)
  | None => None
  end.
Definition parse_fields (headers : bytes) : list HeaderField :=
  filter_map field_of (field_blocks None (split_crlf_lines headers)).

(** The highest-indexed field of a name that is not the signature and not consumed. *)
Fixpoint pick_field (i : nat) (fields : list HeaderField) (sig_idx : nat) (consumed : gset nat) (name : str)
    : option (nat * HeaderField) :=
  match fields with
  | [] => None
  | f :: fields =>
      match pick_field (S i) fields sig_idx consumed name with
      | Some r => Some r
      | None => if bool_decide (i ≠ sig_idx ∧ i ∉ consumed) && eq_ignore_case (hf_name f) name then Some (i, f) else None
      end
  end.
Definition hash_step (fields : list HeaderField) (sig_idx : nat) (canon : HeaderCanon)
    (st : bytes * gset nat) (name : str) : bytes * gset nat :=
  let '(input, consumed) := st in
  match pick_field 0 fields sig_idx consumed name with
  | Some (i, f) => (input ++ canonicalize_header (hf_name f) (hf_value f) canon true, {[i]} ∪ consumed)
  | None => (input, consumed)
  end.
(** The bytes hashed for a signature; [fields[sig_idx]] is the field it came from. *)
Definition header_hash_input (fields : list HeaderField) (sig_idx : nat) (current : HeaderField) (sig : DkimSignature) : bytes :=
  (foldl (hash_step fields sig_idx (sg_header_canon sig)) ([], ∅) (sg_signed_headers sig)).1 ++
  canonicalize_header (hf_name current) (sg_b_stripped_value sig) (sg_header_canon sig) false.
Definition compute_header_hash (fields : list HeaderField) (sig_idx : nat) (current : HeaderField) (sig : DkimSignature) : bytes :=
  sha256 (header_hash_input fields sig_idx current sig).

(** ** Verification *)

Definition hashed_body (body : bytes) (sig : DkimSignature) : bytes :=
  let canon_body := canonicalize_body body (sg_body_canon sig) in
  match sg_body_length sig with
  | Some l => take (Z.to_nat (Z.min l (len canon_body))) canon_body
  | None => canon_body
  end.
Definition key_matches (key_type : str) (a : Algorithm) : bool :=
  match a with
  | RsaSha256 => eq_ignore_case key_type (lit "rsa")
  | Ed25519Sha256 => eq_ignore_case key_type (lit "ed25519")
  end.

Definition rsa_public_key (der : bytes) : option RsaPublicKey :=
  match from_public_key_der der with Some k => Some k | None => from_pkcs1_der der end.
Definition check_signature (sig : DkimSignature) (key_der header_hash : bytes) : DkimResult :=
  match sg_algorithm sig with
  | RsaSha256 =>
      match rsa_public_key key_der with
      | None => DkimPermError
      | Some public => if rsa_verify public header_hash (sg_signature sig) then DkimPass else DkimFail
      end
  | Ed25519Sha256 =>
      if negb (len key_der =? 32) then DkimPermError
      else match ed_key_from_bytes key_der with
           | None => DkimPermError
           | Some verifying =>
               if negb (len (sg_signature sig) =? 64) then DkimPermError
               else if ed_verify_strict verifying header_hash (sg_signature sig) then DkimPass else DkimFail
           end
  end.

Definition verify_one (resolver : DnsResolver) (now : Z) (fields : list HeaderField) (sig_idx : nat)
    (current : HeaderField) (sig : DkimSignature) (body : bytes) : DkimResult :=
  if match sg_expiration sig with Some exp => exp <? epoch_secs now | None => false end then DkimFail
  else if negb (sha256 (hashed_body body sig) =s? sg_body_hash sig) then DkimFail
  else match lookup_dkim resolver (sg_selector sig) (sg_domain sig) with
       | Err _ => DkimPermError
       | Ok record =>
           if bool_decide (dk_public_key record = []) then DkimFail
           else if match dk_key_type record with Some k => negb (key_matches k (sg_algorithm sig)) | None => false end
           then DkimPermError
           else match base64_decode (utf8_encode (dk_public_key record)) with
                | None => DkimPermError
                | Some key_der => check_signature sig key_der (compute_header_hash fields sig_idx current sig)
                end
       end.

Definition outcome_at (resolver : DnsResolver) (now : Z) (fields : list HeaderField) (body : bytes)
    (idx : nat) (field : HeaderField) : option DkimOutcome :=
  if negb (eq_ignore_case (hf_name field) (lit "DKIM-Signature")) then None
  else Some (match DkimSignature_parse (hf_value field) with
             | Ok sig => mkDkim (sg_domain sig) (sg_selector sig) (verify_one resolver now fields idx field sig body)
             | Err _ => mkDkim [] [] DkimPermError
             end).
Definition dkim_verify (resolver : DnsResolver) (now : Z) (raw_message : bytes) : list DkimOutcome :=
  let '(header_section, body) := split_message raw_message in
  let fields := parse_fields header_section in
  filter_map id (imap (outcome_at resolver now fields body) fields).
(** ** What a passing signature shows *)

(** The signature scheme accepts. *)
Definition signature_ok (sig : DkimSignature) (key_der hash : bytes) : Prop :=
  match sg_algorithm sig with
  | RsaSha256 => ∃ public, rsa_public_key key_der = Some public ∧ rsa_verify public hash (sg_signature sig) = true
  | Ed25519Sha256 =>
      len key_der = 32 ∧ len (sg_signature sig) = 64 ∧
      ∃ key, ed_key_from_bytes key_der = Some key ∧ ed_verify_strict key hash (sg_signature sig) = true
  end.

Lemma check_signature_pass sig key_der hash :
  check_signature sig key_der hash = DkimPass ↔ signature_ok sig key_der hash.
Proof.
  unfold check_signature, signature_ok. destruct (sg_algorithm sig).
  - destruct (rsa_public_key key_der) as [k|]; [|naive_solver].
    destruct (rsa_verify k hash _) eqn:E; [by split; eauto|]. split; [done|]. intros (k' & [= <-] & H). congruence.
  - destruct (Z.eqb_spec (len key_der) 32); [|naive_solver]. simpl.
    destruct (ed_key_from_bytes key_der) as [k|]; [|naive_solver].
    destruct (Z.eqb_spec (len (sg_signature sig)) 64); [|naive_solver]. simpl.
    destruct (ed_verify_strict k hash _) eqn:E; [by split; eauto 6|].
    split; [done|]. intros (_ & _ & k' & [= <-] & H). congruence.
Qed.

(** Everything a signature must satisfy to pass. *)
Definition passes (resolver : DnsResolver) (now : Z) (fields : list HeaderField) (idx : nat) (field : HeaderField)
    (sig : DkimSignature) (body : bytes) : Prop :=
  (∀ exp, sg_expiration sig = Some exp → epoch_secs now ≤ exp) ∧
  sha256 (hashed_body body sig) = sg_body_hash sig ∧
  ∃ record key_der,
    lookup_dkim resolver (sg_selector sig) (sg_domain sig) = Ok record ∧ dk_public_key record ≠ [] ∧
    (∀ k, dk_key_type record = Some k → key_matches k (sg_algorithm sig) = true) ∧
    base64_decode (utf8_encode (dk_public_key record)) = Some key_der ∧
    signature_ok sig key_der (sha256 (header_hash_input fields idx field sig)).

Lemma verify_one_pass resolver now fields idx field sig body :
  verify_one resolver now fields idx field sig body = DkimPass ↔ passes resolver now fields idx field sig body.
Proof.
  unfold verify_one, passes, compute_header_hash.
  destruct (match sg_expiration sig with Some exp => exp <? epoch_secs now | None => false end) eqn:Ex.
  { split; [done|]. intros [H _]. destruct (sg_expiration sig) as [exp|]; [|done]. specialize (H exp eq_refl). bsimp. lia. }
  assert (∀ exp, sg_expiration sig = Some exp → epoch_secs now ≤ exp) as Hexp.
  { intros exp E. rewrite E in Ex. bsimp. lia. }
  destruct (sha256 (hashed_body body sig) =s? sg_body_hash sig) eqn:Eh; simpl.
  2:{ split; [done|]. intros (_ & H & _). apply str_eqb_neq in Eh. done. }
  apply str_eqb_eq in Eh.
  destruct (lookup_dkim resolver _ _) as [record|]; [|naive_solver].
  case_bool_decide as Hk; [naive_solver|].
  destruct (match dk_key_type record with Some k => negb (key_matches k (sg_algorithm sig)) | None => false end) eqn:Et.
  { split; [done|]. intros (_ & _ & r & key & [= <-] & _ & H & _). destruct (dk_key_type record) as [k|]; [|done].
    by rewrite (H k eq_refl) in Et. }
  assert (∀ k, dk_key_type record = Some k → key_matches k (sg_algorithm sig) = true) as Hty.
  { intros k E. rewrite E in Et. by apply negb_false_iff in Et. }
  destruct (base64_decode _) as [key|] eqn:Eb; [|naive_solver]. rewrite check_signature_pass. naive_solver.
Qed.

Lemma take_min_len (n : Z) (s : bytes) : take (Z.to_nat (Z.min n (len s))) s = take (Z.to_nat n) s.
Proof.
  unfold len. destruct (Z.le_gt_cases n (Z.of_nat (length s))); [by rewrite Z.min_l|].
  rewrite Z.min_r, !take_ge by lia. done.
Qed.
Lemma filter_map_elem {X Y} (f : X → option Y) (l : list X) y : y ∈ filter_map f l ↔ ∃ x, x ∈ l ∧ f x = Some y.
Proof. unfold filter_map. apply list_elem_of_omap. Qed.

Lemma elem_of_imap {X Y} (f : nat → X → Y) (l : list X) y :
  y ∈ imap f l ↔ ∃ i x, l !! i = Some x ∧ y = f i x.
Proof.
  rewrite list_elem_of_lookup. split.
  - intros [i Hi]. rewrite list_lookup_imap in Hi. destruct (l !! i) as [x|] eqn:E; naive_solver.
  - intros (i & x & Hi & ->). exists i. by rewrite list_lookup_imap, Hi.
Qed.

Lemma dkim_pass_core (resolver : DnsResolver) (now : Z) (raw : bytes) (o : DkimOutcome) :
  o ∈ dkim_verify resolver now raw → dk_result o = DkimPass →
  let '(headers, body) := split_message raw in
  let fields := parse_fields headers in
  ∃ idx field sig,
    fields !! idx = Some field ∧ lowercase (hf_name field) = lit "dkim-signature" ∧
    DkimSignature_parse (hf_value field) = Ok sig ∧ sg_domain sig = dk_domain o ∧ sg_selector sig = dk_selector o ∧
    passes resolver now fields idx field sig body.
Proof.
  unfold dkim_verify. destruct (split_message raw) as [headers body].
  intros (x & Hx & Ho)%filter_map_elem Hpass. simpl in Ho. subst x.
  apply elem_of_imap in Hx as (idx & field & Hf & Ho). unfold outcome_at in Ho.
  destruct (eq_ignore_case (hf_name field) (lit "DKIM-Signature")) eqn:En; [|done]. simpl in Ho.
  apply eq_ignore_case_true in En. simplify_eq.
  destruct (DkimSignature_parse (hf_value field)) as [sig|] eqn:Es; [|done]. simpl in *.
  apply verify_one_pass in Hpass. exists idx, field, sig. split_and!; done.
Qed.

(** C20: a DKIM result names a domain only on that domain's authority: an outcome
    reported as passing comes from a parsed DKIM-Signature field of the message with
    that domain and selector, not expired, whose body hash is the hash of the
    canonical body, and whose signature the key published in that domain's DNS, of
    the right type and not revoked, accepts over the signed header fields. *)
Theorem dkim_pass_sound (resolver : DnsResolver) (now : Z) (raw : bytes) (o : DkimOutcome) :
  o ∈ dkim_verify resolver now raw → dk_result o = DkimPass →
  let '(headers, body) := split_message raw in
  let fields := parse_fields headers in
  ∃ idx field sig,
    fields !! idx = Some field ∧ lowercase (hf_name field) = lit "dkim-signature" ∧
    DkimSignature_parse (hf_value field) = Ok sig ∧ sg_domain sig = dk_domain o ∧ sg_selector sig = dk_selector o ∧
    passes resolver now fields idx field sig body.
Proof. apply dkim_pass_core. Qed.

(** C21: DKIM protects the body it signs: when two messages with the same signature both
    pass, what it covers of their canonical bodies is equal, unless SHA-256 collides on
    it.  Without an [l=] limit that is the whole body: the two agree line for line up to
    white space and empty lines at the end (relaxed), or up to the CRLFs at the end
    (simple).  With [l=n] it is the first [n] bytes of the canonical body; what follows
    is not protected. *)
Theorem dkim_body_tamper_evident (resolver resolver' : DnsResolver) (now now' : Z)
    (fields fields' : list HeaderField) (idx idx' : nat) (field field' : HeaderField) (sig : DkimSignature)
    (body body' : bytes) :
  verify_one resolver now fields idx field sig body = DkimPass →
  verify_one resolver' now' fields' idx' field' sig body' = DkimPass →
  (sha256 (hashed_body body sig) = sha256 (hashed_body body' sig) → hashed_body body sig = hashed_body body' sig) →
  match sg_body_length sig with
  | Some n => take (Z.to_nat n) (canonicalize_body body (sg_body_canon sig)) =
              take (Z.to_nat n) (canonicalize_body body' (sg_body_canon sig))
  | None =>
      match sg_body_canon sig with
      | BodyRelaxed => relaxed_lines body = relaxed_lines body'
      | BodySimple => ∃ pre k k', body = pre ++ concat (replicate k CRLF) ∧ body' = pre ++ concat (replicate k' CRLF)
      end
  end.
Proof.
  intros (_ & H1 & _)%verify_one_pass (_ & H2 & _)%verify_one_pass Hcol.
  rewrite <-H2 in H1. specialize (Hcol H1). clear H1 H2. unfold hashed_body in Hcol.
  destruct (sg_body_length sig) as [n|]; [by rewrite !take_min_len in Hcol|].
  destruct (sg_body_canon sig); simpl in Hcol.
  - destruct (simple_body_core body) as (pre & k & Hb & Hs & _), (simple_body_core body') as (pre' & k' & Hb' & Hs' & _).
    rewrite Hs, Hs' in Hcol. apply app_inj_2 in Hcol as [-> _]; [|done]. eauto.
  - by rewrite <-(relaxed_lines_body body), <-(relaxed_lines_body body'), Hcol.
Qed.

(** The signature covers nothing else: a field whose name [h=] does not list can be
    replaced freely without changing the result.  No field is required to be listed,
    the [From] field included, which RFC 6376 (section 5.4) demands. *)
Theorem dkim_unsigned_fields_free (resolver : DnsResolver) (now : Z) (a b : list HeaderField) (f f' : HeaderField)
    (idx : nat) (field : HeaderField) (sig : DkimSignature) (body : bytes) :
  (∀ n, n ∈ sg_signed_headers sig → eq_ignore_case (hf_name f) n = false ∧ eq_ignore_case (hf_name f') n = false) →
  verify_one resolver now (a ++ f :: b) idx field sig body = verify_one resolver now (a ++ f' :: b) idx field sig body.
Proof.
  intros Hun. unfold verify_one, compute_header_hash, header_hash_input.
  enough (∀ st, foldl (hash_step (a ++ f :: b) idx (sg_header_canon sig)) st (sg_signed_headers sig) =
    foldl (hash_step (a ++ f' :: b) idx (sg_header_canon sig)) st (sg_signed_headers sig)) as H by by rewrite H.
  induction (sg_signed_headers sig) as [|n ns IH]; intros st; [done|]. cbn [foldl].
  assert (hash_step (a ++ f :: b) idx (sg_header_canon sig) st n = hash_step (a ++ f' :: b) idx (sg_header_canon sig) st n) as ->.
  - destruct st as [input consumed]. cbn [hash_step].
    enough (∀ i, pick_field i (a ++ f :: b) idx consumed n = pick_field i (a ++ f' :: b) idx consumed n) as H by by rewrite H.
    destruct (Hun n) as [H1 H2]; [set_solver|]. clear -H1 H2. induction a as [|g a IHa]; intros i; cbn [app pick_field].
    + rewrite H1, H2, !andb_false_r. by destruct (pick_field _ _ _ _ _).
    + by rewrite IHa.
  - apply IH. intros m Hm. apply Hun. set_solver.
Qed.
End verification.

(** ** Which fields are signed *)

Lemma pick_field_spec fields sig_idx consumed name : ∀ i j f,
  pick_field i fields sig_idx consumed name = Some (j, f) →
  (i ≤ j)%nat ∧ fields !! (j - i)%nat = Some f ∧ j ≠ sig_idx ∧ j ∉ consumed ∧ eq_ignore_case (hf_name f) name = true.
Proof.
  induction fields as [|g fields IH]; intros i j f; cbn [pick_field]; [done|].
  destruct (pick_field (S i) fields sig_idx consumed name) as [[j' f']|] eqn:E.
  - intros [= -> ->]. apply IH in E as (H1 & H2 & H3). split; [lia|].
    replace (j - i)%nat with (S (j - S i)) by lia. done.
  - case_code; [|done]. intros [= <- <-]. bsimp. rewrite Nat.sub_diag. destruct H. done.
Qed.

Lemma pick_field_last fields sig_idx consumed name : ∀ i j f,
  fields !! j = Some f → (i + j)%nat ≠ sig_idx → (i + j)%nat ∉ consumed → eq_ignore_case (hf_name f) name = true →
  (∀ j' f', (j < j')%nat → fields !! j' = Some f' → (i + j')%nat = sig_idx ∨ eq_ignore_case (hf_name f') name = false) →
  pick_field i fields sig_idx consumed name = Some ((i + j)%nat, f).
Proof.
  induction fields as [|g fields IH]; intros i j f Hf Hi Hc Hn Hlast; [done|]. cbn [pick_field]. destruct j as [|j].
  - assert (pick_field (S i) fields sig_idx consumed name = None) as ->.
    { destruct (pick_field (S i) fields sig_idx consumed name) as [[j' f']|] eqn:E; [|done]. exfalso.
      apply pick_field_spec in E as (H1 & H2 & H3 & H4 & H5).
      destruct (Hlast (S (j' - S i)) f') as [H|H]; [lia|done|lia|congruence]. }
    simpl in Hf. simplify_eq. rewrite Nat.add_0_r in *. by rewrite bool_decide_eq_true_2, Hn by done.
  - rewrite (IH (S i) j f); [do 2 f_equal; lia|done|lia|by replace (S i + j)%nat with (i + S j)%nat by lia|done|].
    intros j' f' Hj Hf'. destruct (Hlast (S j') f') as [H|H]; [lia|done|left; lia|by right].
Qed.

(** The fields consumed have names that were asked for. *)
Lemma hash_steps_consumed fields sig_idx canon names : ∀ input consumed,
  ∃ more, (foldl (hash_step fields sig_idx canon) (input, consumed) names).1 = input ++ more ∧
    ∀ j, j ∈ (foldl (hash_step fields sig_idx canon) (input, consumed) names).2 →
      j ∈ consumed ∨ ∃ f n, fields !! j = Some f ∧ n ∈ names ∧ eq_ignore_case (hf_name f) n = true.
Proof.
  induction names as [|n names IH]; intros input consumed; cbn [foldl].
  { exists []. rewrite app_nil_r. auto. }
  cbn [hash_step]. destruct (pick_field 0 fields sig_idx consumed n) as [[j f]|] eqn:E.
  - apply pick_field_spec in E as (_ & Hf & _ & _ & Hn). rewrite Nat.sub_0_r in Hf.
    destruct (IH (input ++ canonicalize_header (hf_name f) (hf_value f) canon true) ({[j]} ∪ consumed)) as (more & -> & Hc).
    eexists. split; [by rewrite <-app_assoc|]. intros k Hk. apply Hc in Hk as [Hk|(g & m & ? & ? & ?)].
    + apply elem_of_union in Hk as [->%elem_of_singleton|Hk]; [right|by left]. exists f, n. set_solver.
    + right. exists g, m. set_solver.
  - destruct (IH input consumed) as (more & -> & Hc). exists more. split; [done|].
    intros k Hk. apply Hc in Hk as [Hk|(g & m & ? & ? & ?)]; [by left|]. right. exists g, m. set_solver.
Qed.

(** The signature covers the fields it lists: for each name in [h=], the last field
    of that name in the message (the signature's own field aside) is part, in its
    canonical form, of the bytes that are hashed. *)
Theorem dkim_covers_signed (fields : list HeaderField) (idx : nat) (field : HeaderField) (sig : DkimSignature)
    (name : str) (j : nat) (f : HeaderField) :
  name ∈ sg_signed_headers sig → fields !! j = Some f → j ≠ idx → eq_ignore_case (hf_name f) name = true →
  (∀ j' f', (j < j')%nat → fields !! j' = Some f' → j' = idx ∨ eq_ignore_case (hf_name f') name = false) →
  ∃ pre post, header_hash_input fields idx field sig =
    pre ++ canonicalize_header (hf_name f) (hf_value f) (sg_header_canon sig) true ++ post.
Proof.
  intros Hin Hf Hj Hn Hlast. unfold header_hash_input.
  (* the first listed name that denotes this field *)
  assert (∃ ns1 n ns2, sg_signed_headers sig = ns1 ++ n :: ns2 ∧ lowercase n = lowercase name ∧
    ∀ m, m ∈ ns1 → lowercase m ≠ lowercase name) as (ns1 & n & ns2 & -> & Hnn & Hfirst).
  { clear -Hin. induction (sg_signed_headers sig) as [|m ms IH]; [set_solver|].
    destruct (decide (lowercase m = lowercase name)) as [E|E]; [exists [], m, ms; set_solver|].
    apply elem_of_cons in Hin as [->|Hin]; [done|]. destruct (IH Hin) as (ns1 & n & ns2 & -> & ? & ?).
    exists (m :: ns1), n, ns2. set_solver. }
  rewrite foldl_app. cbn [foldl].
  destruct (hash_steps_consumed fields idx (sg_header_canon sig) ns1 [] ∅) as (more & Hmore & Hc).
  destruct (foldl _ ([], ∅) ns1) as [input consumed]. simpl in Hmore, Hc.
  apply eq_ignore_case_true in Hn.
  assert (pick_field 0 fields idx consumed n = Some (j, f)) as Hp.
  { apply (pick_field_last fields idx consumed n 0 j f); [done|done| |apply eq_ignore_case_true; congruence|].
    - simpl. intros [?|(g & m & Hg & Hm & Hgm)]%Hc; [set_solver|]. apply eq_ignore_case_true in Hgm.
      rewrite Hf in Hg. simplify_eq. apply (Hfirst m Hm). congruence.
    - intros j' f' Hjj Hf'. destruct (Hlast j' f' Hjj Hf') as [->|H]; [by left|right].
      apply not_true_iff_false in H. apply not_true_iff_false. rewrite eq_ignore_case_true in *. congruence. }
  cbn [hash_step]. rewrite Hp.
  match goal with |- context [foldl ?g (?i, ?c) ns2] =>
    destruct (hash_steps_consumed fields idx (sg_header_canon sig) ns2 i c) as (more2 & -> & _) end.
  exists input, (more2 ++ canonicalize_header (hf_name field) (sg_b_stripped_value sig) (sg_header_canon sig) false).
  by rewrite <-!app_assoc.
Qed.

(** *** A concrete message *)

Definition demo_sha (b : bytes) : bytes := take 2 b.
Definition demo_key (_ : bytes) : option unit := Some tt.
Definition demo_check (_ : unit) (_ _ : bytes) : bool := true.
Definition demo_dns : DnsResolver :=
  plain_resolver (λ _, Ok []) (λ _, Ok []) (λ n, if n =s? lit "k._domainkey.b.org" then Ok [lit "v=DKIM1; k=rsa; p=abc"] else Ok []) (λ _, Ok []).
Definition demo_sig_value : bytes := lit " v=1; a=rsa-sha256; c=relaxed; d=b.org; s=k; h=From:Subject; bh=hi; b=zz".
Definition demo_signed : bytes :=
  lit "From: a@b.org" ++ CRLF ++ lit "DKIM-Signature:" ++ demo_sig_value ++ CRLF ++ lit "Subject: x" ++ CRLF ++ CRLF ++ lit "hi" ++ CRLF.
Definition demo_signature : DkimSignature :=
  mkSignature RsaSha256 (lit "zz") (lit "hi") HdrRelaxed BodySimple (lit "b.org") (lit "k") [lit "from"; lit "subject"] None None
    (lit " v=1; a=rsa-sha256; c=relaxed; d=b.org; s=k; h=From:Subject; bh=hi; b=").
Definition demo_fields : list HeaderField :=
  [mkField (lit "From") (lit " a@b.org"); mkField (lit "DKIM-Signature") demo_sig_value; mkField (lit "Subject") (lit " x")].
Definition demo_verify := dkim_verify (EdKey:=unit) Some demo_sha demo_key demo_key demo_check demo_key demo_check.
Definition demo_verify_one := verify_one (EdKey:=unit) Some demo_sha demo_key demo_key demo_check demo_key demo_check.

Example demo_parse : DkimSignature_parse Some demo_sig_value = Ok demo_signature.
Proof. by vm_compute. Qed.

Lemma dkim_pass_sound_witness :
  let '(headers, body) := split_message demo_signed in
  let fields := parse_fields headers in
  ∃ idx field sig,
    fields !! idx = Some field ∧ lowercase (hf_name field) = lit "dkim-signature" ∧
    DkimSignature_parse Some (hf_value field) = Ok sig ∧ sg_domain sig = lit "b.org" ∧ sg_selector sig = lit "k" ∧
    passes (EdKey:=unit) Some demo_sha demo_key demo_key demo_check demo_key demo_check demo_dns 0 fields idx field sig body.
Proof.
  apply (dkim_pass_sound Some demo_sha demo_key demo_key demo_check demo_key demo_check demo_dns 0 demo_signed
           (mkDkim (lit "b.org") (lit "k") DkimPass)); [|done].
  replace (dkim_verify Some demo_sha demo_key demo_key demo_check demo_key demo_check demo_dns 0 demo_signed)
    with [mkDkim (lit "b.org") (lit "k") DkimPass] by (by vm_compute). constructor.
Defined.

Definition demo_limited : DkimSignature :=
  mkSignature RsaSha256 (lit "zz") (lit "hi") HdrRelaxed BodySimple (lit "b.org") (lit "k") [lit "from"; lit "subject"] (Some 2) None [].
(** Both cases: the whole body, and a body signed with [l=2] to which more was added. *)
Lemma dkim_body_tamper_evident_witness :
  let field := mkField (lit "DKIM-Signature") demo_sig_value in
  (demo_verify_one demo_dns 0 demo_fields 1 field demo_signature (lit "hi") = DkimPass ∧
   ∃ pre k k', lit "hi" = pre ++ concat (replicate k CRLF) ∧ lit "hi" ++ CRLF = pre ++ concat (replicate k' CRLF)) ∧
  demo_verify_one demo_dns 0 demo_fields 1 field demo_limited (lit "hi, more") = DkimPass ∧
  take 2 (simple_body (lit "hi")) = take 2 (simple_body (lit "hi, more")).
Proof.
  cbv zeta. split; (split; [by vm_compute|]).
  - apply (dkim_body_tamper_evident Some demo_sha demo_key demo_key demo_check demo_key demo_check demo_dns demo_dns 0 0
             demo_fields demo_fields 1 1 (mkField (lit "DKIM-Signature") demo_sig_value) (mkField (lit "DKIM-Signature") demo_sig_value)
             demo_signature (lit "hi") (lit "hi" ++ CRLF)); done || by vm_compute.
  - apply (dkim_body_tamper_evident Some demo_sha demo_key demo_key demo_check demo_key demo_check demo_dns demo_dns 0 0
             demo_fields demo_fields 1 1 (mkField (lit "DKIM-Signature") demo_sig_value) (mkField (lit "DKIM-Signature") demo_sig_value)
             demo_limited (lit "hi") (lit "hi, more")); by vm_compute.
Defined.

Lemma dkim_covers_signed_witness :
  ∃ pre post, header_hash_input demo_fields 1 (mkField (lit "DKIM-Signature") demo_sig_value) demo_signature =
    pre ++ canonicalize_header (lit "From") (lit " a@b.org") HdrRelaxed true ++ post.
Proof.
  apply (dkim_covers_signed demo_fields 1 (mkField (lit "DKIM-Signature") demo_sig_value) demo_signature
           (lit "from") 0 (mkField (lit "From") (lit " a@b.org"))); try done; [by constructor|].
  intros j' f' Hj Hf. destruct j' as [|[|[|j']]]; [lia|by left|right|done]. simpl in Hf. injection Hf as <-. by vm_compute.
Defined.

Lemma dkim_unsigned_fields_free_witness :
  let sig := mkSignature RsaSha256 (lit "zz") (lit "hi") HdrRelaxed BodySimple (lit "b.org") (lit "k") [lit "subject"] None None [] in
  let cur := mkField (lit "DKIM-Signature") [] in
  demo_verify_one demo_dns 0 ([] ++ mkField (lit "From") (lit " a@b.org") :: [cur]) 1 cur sig (lit "hi") = DkimPass ∧
  demo_verify_one demo_dns 0 ([] ++ mkField (lit "From") (lit " a@b.org") :: [cur]) 1 cur sig (lit "hi") =
  demo_verify_one demo_dns 0 ([] ++ mkField (lit "From") (lit " ceo@bank.org") :: [cur]) 1 cur sig (lit "hi").
Proof.
  split; [by vm_compute|].
  apply (dkim_unsigned_fields_free Some demo_sha demo_key demo_key demo_check demo_key demo_check demo_dns 0 []).
  intros n Hn. apply list_elem_of_singleton in Hn as ->. by vm_compute.
Defined.

(** The bytes hashed for the signature's own field are not the bytes received when
    these are not UTF-8: they go through a lossy decoding, although the sources say
    the verbatim bytes are kept. *)
Lemma dkim_stripped_value_lossy :
  let raw := lit "v=1; a=rsa-sha256; d=b.org; s=k; h=from; bh=hi; n=" ++ [255] ++ lit "; b=" in
  ∃ sig, DkimSignature_parse Some raw = Ok sig ∧ sg_b_stripped_value sig ≠ raw ∧
    canonicalize_header (lit "DKIM-Signature") (sg_b_stripped_value sig) HdrSimple false ≠
    canonicalize_header (lit "DKIM-Signature") raw HdrSimple false.
Proof. eexists. split_and!; [by vm_compute|by vm_compute|by vm_compute]. Qed.
