(* ===== verification/Tls.v ===== *)
(** * Client TLS configurations and DANE

    crates/network/src/tls/mod.rs (the client configurations and what they accept)
    and crates/network/src/dane/mod.rs (authentication by TLSA records).  X.509,
    WebPKI and the digests are parameters; a certificate is its DER bytes. *)
From S2P Require Import Prelude RustStr Net Received Dmarc Dns.

(** [ClientConfig] as the builders of [TlsConfig] make it: what matters of it is
    which server certificates it accepts. *)
Inductive ClientConfig :=
  | OpportunisticClient
  | PkixClient
  | DaneClient (tlsa : list TlsaRecord).
#[export] Instance ClientConfig_eq_dec : EqDecision ClientConfig.
Proof. solve_decision. Defined.

(** The builders of [TlsConfig]: the trust anchors of webpki-roots, and whether the
    crypto provider supports the default protocol versions, are parameters. *)
Definition pkix_client {Anchor : Type} (roots : list Anchor) : result NetworkError ClientConfig :=
  if bool_decide (len roots = 0) then Err (TlsError (lit "no PKIX trust anchors available from webpki-roots"))
  else Ok PkixClient.
Definition opportunistic_client (versions : result str ()) : result NetworkError ClientConfig :=
  match versions with
  | Ok _ => Ok OpportunisticClient
  | Err e => Err (TlsError (lit "building opportunistic client config: " ++ e))
  end.
Definition dane_client (versions : result str ()) (tlsa : list TlsaRecord) : result NetworkError ClientConfig :=
  match versions with
  | Ok _ => Ok (DaneClient tlsa)
  | Err e => Err (TlsError (lit "building DANE client config: " ++ e))
  end.

(** ** Usable records *)

Definition is_usable (r : TlsaRecord) : bool :=
  match tlsa_usage r with DaneEe | DaneTa => true | _ => false end &&
  match tlsa_selector r with OtherSelector _ => false | _ => true end &&
  match tlsa_matching r with OtherMatching _ => false | _ => true end.
Definition has_usable_tlsa (records : list TlsaRecord) : bool := existsb is_usable records.

Section verifier.
(** The SubjectPublicKeyInfo of a certificate, the digests; trust anchors and
    end-entity certificates of WebPKI, path validation, and the name check. *)
Context {Anchor EndEntity : Type}.
Context (spki_der : bytes → option bytes) (sha256 sha512 : bytes → bytes)
  (anchor_from_trusted_cert : bytes → option Anchor) (end_entity_cert : bytes → option EndEntity)
  (verify_for_usage : EndEntity → Anchor → list bytes → Z → bool)
  (valid_for_subject_name : EndEntity → str → bool).

Definition matches_association (m : TlsaMatching) (content data : bytes) : bool :=
  match m with
  | MatchFull => content =s? data
  | MatchSha256 => sha256 content =s? data
  | MatchSha512 => sha512 content =s? data
  | OtherMatching _ => false
  end.
Definition selected_content (s : TlsaSelector) (cert : bytes) : option bytes :=
  match s with SelFull => Some cert | SelSpki => spki_der cert | OtherSelector _ => None end.
Definition cert_matches (tlsa : TlsaRecord) (cert : bytes) : bool :=
  match selected_content (tlsa_selector tlsa) cert with
  | Some content => matches_association (tlsa_matching tlsa) content (tlsa_data tlsa)
  | None => false
  end.

Definition matches_dane_ta (tlsa : TlsaRecord) (end_entity : bytes) (intermediates : list bytes)
    (server_name : str) (now : Z) : bool :=
  match list_find_first (cert_matches tlsa) (end_entity :: intermediates) with
  | None => false
  | Some ta_cert =>
      match anchor_from_trusted_cert ta_cert with
      | None => false
      | Some anchor =>
          match end_entity_cert end_entity with
          | None => false
          | Some ee => if negb (verify_for_usage ee anchor intermediates now) then false
                       else valid_for_subject_name ee server_name
          end
      end
  end.

Definition tlsa_accepts (end_entity : bytes) (intermediates : list bytes) (server_name : str) (now : Z)
    (tlsa : TlsaRecord) : bool :=
  match tlsa_usage tlsa with
  | DaneEe => cert_matches tlsa end_entity
  | DaneTa => matches_dane_ta tlsa end_entity intermediates server_name now
  | PkixTa | PkixEe | OtherUsage _ => false
  end.
(** [DaneVerifier::verify_server_cert]: the first record that matches decides. *)
Definition dane_verify_server_cert (records : list TlsaRecord) (end_entity : bytes) (intermediates : list bytes)
    (server_name : str) (now : Z) : bool :=
  match list_find_first (tlsa_accepts end_entity intermediates server_name now) records with
  | Some _ => true
  | None => false
  end.

(** What a configuration accepts; PKIX validation is rustls's own. *)
Context (pkix_valid : bytes → list bytes → str → Z → bool).
Definition verify_server_cert (config : ClientConfig) (end_entity : bytes) (intermediates : list bytes)
    (server_name : str) (now : Z) : bool :=
  match config with
  | OpportunisticClient => true
  | PkixClient => pkix_valid end_entity intermediates server_name now
  | DaneClient records => dane_verify_server_cert records end_entity intermediates server_name now
  end.

Lemma list_find_first_is_Some {X} (P : X → bool) l :
  is_Some (list_find_first P l) ↔ ∃ x, x ∈ l ∧ P x = true.
Proof.
  induction l as [|y l IH]; simpl; [split; [by intros []|set_solver]|].
  destruct (P y) eqn:E; [split; [exists y; set_solver|eauto]|]. rewrite IH.
  split; intros (x & Hx & HP); exists x; [set_solver|]. apply elem_of_cons in Hx as [->|?]; [congruence|done].
Qed.

Lemma cert_matches_known tlsa cert :
  cert_matches tlsa cert = true →
  match tlsa_selector tlsa with OtherSelector _ => false | _ => true end = true ∧
  match tlsa_matching tlsa with OtherMatching _ => false | _ => true end = true.
Proof.
  unfold cert_matches, selected_content. destruct (tlsa_selector tlsa); [| |done].
  - unfold matches_association. by destruct (tlsa_matching tlsa).
  - destruct (spki_der cert); [|done]. unfold matches_association. by destruct (tlsa_matching tlsa).
Qed.

Lemma dane_verify_Some records ee ints name now :
  dane_verify_server_cert records ee ints name now = true ↔
  ∃ r, r ∈ records ∧ tlsa_accepts ee ints name now r = true.
Proof.
  rewrite <-(list_find_first_is_Some (tlsa_accepts ee ints name now)). unfold dane_verify_server_cert.
  destruct (list_find_first _ _); naive_solver.
Qed.

(** DANE authenticates a mail exchange only through a usable record: the certificate
    is accepted exactly when some record with usage DANE-EE matches the server's own
    certificate, or some record with usage DANE-TA matches a certificate of the chain
    that then validates the server's certificate for the name asked for; a record with
    a PKIX or unknown usage, selector or matching type never authenticates anyone. *)
Theorem dane_accepts_iff (records : list TlsaRecord) (end_entity : bytes) (intermediates : list bytes)
    (server_name : str) (now : Z) :
  (dane_verify_server_cert records end_entity intermediates server_name now = true ↔
   ∃ r, r ∈ records ∧ is_usable r = true ∧
     (tlsa_usage r = DaneEe ∧ cert_matches r end_entity = true ∨
      tlsa_usage r = DaneTa ∧ ∃ ta anchor ee,
        ta ∈ end_entity :: intermediates ∧ cert_matches r ta = true ∧
        list_find_first (cert_matches r) (end_entity :: intermediates) = Some ta ∧
        anchor_from_trusted_cert ta = Some anchor ∧ end_entity_cert end_entity = Some ee ∧
        verify_for_usage ee anchor intermediates now = true ∧ valid_for_subject_name ee server_name = true)) ∧
  (has_usable_tlsa records = false → dane_verify_server_cert records end_entity intermediates server_name now = false).
Proof.
  assert (∀ r, tlsa_accepts end_entity intermediates server_name now r = true ↔ is_usable r = true ∧
     (tlsa_usage r = DaneEe ∧ cert_matches r end_entity = true ∨
      tlsa_usage r = DaneTa ∧ ∃ ta anchor ee,
        ta ∈ end_entity :: intermediates ∧ cert_matches r ta = true ∧
        list_find_first (cert_matches r) (end_entity :: intermediates) = Some ta ∧
        anchor_from_trusted_cert ta = Some anchor ∧ end_entity_cert end_entity = Some ee ∧
        verify_for_usage ee anchor intermediates now = true ∧ valid_for_subject_name ee server_name = true)) as Hacc.
  { intros r. unfold tlsa_accepts, is_usable.
    destruct (tlsa_usage r) eqn:Eu; try (split; [done|naive_solver]).
    - unfold matches_dane_ta.
      destruct (list_find_first (cert_matches r) (end_entity :: intermediates)) as [ta|] eqn:Ef; [|naive_solver].
      assert (ta ∈ end_entity :: intermediates ∧ cert_matches r ta = true) as [Hin Hm].
      { clear -Ef. induction (end_entity :: intermediates) as [|x l IH]; simpl in Ef; [done|].
        destruct (cert_matches r x) eqn:E; [simplify_eq; set_solver|]. apply IH in Ef as [? ?]. set_solver. }
      destruct (cert_matches_known r ta Hm) as [-> ->].
      destruct (anchor_from_trusted_cert ta) as [anchor|] eqn:Ea; [|naive_solver].
      destruct (end_entity_cert end_entity) as [ee|] eqn:Ee; [|naive_solver].
      destruct (verify_for_usage ee anchor intermediates now) eqn:Ev; simpl; [|split; [done|]].
      + split; [intros Hn; split; [done|]; right; split; [done|]; by exists ta, anchor, ee|].
        intros (_ & [[? _]|(_ & ta' & a' & e' & _ & _ & [= <-] & Ha & [= <-] & _ & Hn)]); done.
      + intros (_ & [[? _]|(_ & ta' & a' & e' & _ & _ & [= <-] & Ha & [= <-] & Hv & Hn)]); [done|congruence].
    - split; [|naive_solver]. intros Hm. destruct (cert_matches_known r _ Hm) as [-> ->]. auto. }
  rewrite dane_verify_Some. split.
  - split; intros (r & Hr & H); exists r; (split; [done|]); by apply Hacc.
  - intros Hno. apply not_true_iff_false. intros (r & Hr & H)%dane_verify_Some. apply Hacc in H as [Hu _].
    apply not_true_iff_false in Hno. apply Hno. unfold has_usable_tlsa. apply existsb_exists. exists r.
    split; [by apply list_elem_of_In|done].
Qed.
End verifier.
