(* ===== verification/MtaSts.v ===== *)
(** * MTA-STS: policies, their discovery, fetching and caching

    crates/network/src/mta_sts: the policy file and the discovery record
    (policy.rs), the HTTPS response parser and the capped reading loop (fetch.rs),
    and [MtaStsResolver] with its cache (mod.rs).  The TLS connection to the policy
    host is a parameter that gives the chunks read; clock readings are arguments. *)
From S2P Require Import Prelude RustStr Net Received Dmarc Dns.

Definition MAX_AGE_CAP : Z := 31557600.

Inductive MtaStsMode := Enforce | Testing | ModeNone.
#[export] Instance MtaStsMode_eq_dec : EqDecision MtaStsMode.
Proof. solve_decision. Defined.
Record MtaStsPolicy := mkSts { sts_mode : MtaStsMode; sts_mx : list str; sts_max_age : Z }.
#[export] Instance MtaStsPolicy_eq_dec : EqDecision MtaStsPolicy.
Proof. solve_decision. Defined.

Definition sts_record_err {A} (reason : str) : result NetworkError A := Err (RecordError (lit "MTA-STS") reason).

(** ** The policy file *)

(** The variables of the parsing loop. *)
Record StsAcc := mkAcc { acc_version : bool; acc_mode : option MtaStsMode; acc_max_age : option Z; acc_mx : list str }.

Definition mode_of (value : str) : result NetworkError MtaStsMode :=
  let v := lowercase value in
  if v =s? lit "enforce" then Ok Enforce
  else if v =s? lit "testing" then Ok Testing
  else if v =s? lit "none" then Ok ModeNone
  else sts_record_err (lit "unknown mode `" ++ v ++ lit "`").

Definition policy_line (acc : StsAcc) (raw : str) : result NetworkError StsAcc :=
  let line := trim raw in
  if bool_decide (line = []) then Ok acc else
  match split_once COLON line with
  | None => sts_record_err (lit "malformed policy line (no `:`)")
  | Some (key, value) =>
      let value := trim value in
      let key := lowercase (trim key) in
      if key =s? lit "version" then
        if negb (eq_ignore_case value (lit "STSv1")) then sts_record_err (lit "unsupported version `" ++ value ++ lit "`")
        else Ok (mkAcc true (acc_mode acc) (acc_max_age acc) (acc_mx acc))
      else if key =s? lit "mode" then
        m ← mode_of value; Ok (mkAcc (acc_version acc) (Some m) (acc_max_age acc) (acc_mx acc))
      else if key =s? lit "max_age" then
        match parse_uint U64_MAX value with
        | None => sts_record_err (lit "invalid max_age `" ++ value ++ lit "`")
        | Some n => Ok (mkAcc (acc_version acc) (acc_mode acc) (Some (Z.min n MAX_AGE_CAP)) (acc_mx acc))
        end
      else if (key =s? lit "mx") && negb (bool_decide (value = [])) then
        Ok (mkAcc (acc_version acc) (acc_mode acc) (acc_max_age acc) (acc_mx acc ++ [lowercase value]))
      else Ok acc
  end.
Fixpoint policy_lines (acc : StsAcc) (ls : list str) : result NetworkError StsAcc :=
  match ls with [] => Ok acc | l :: ls => acc ← policy_line acc l; policy_lines acc ls end.

Definition MtaStsPolicy_parse (body : str) : result NetworkError MtaStsPolicy :=
  acc ← policy_lines (mkAcc false None None []) (lines body);
  if negb (acc_version acc) then sts_record_err (lit "missing `version: STSv1`") else
  mode ← ok_or (RecordError (lit "MTA-STS") (lit "missing `mode`")) (acc_mode acc);
  max_age ← ok_or (RecordError (lit "MTA-STS") (lit "missing `max_age`")) (acc_max_age acc);
  if match mode with Enforce | Testing => true | ModeNone => false end && bool_decide (acc_mx acc = []) then
    sts_record_err (lit "policy in enforce/testing mode lists no `mx`")
  else Ok (mkSts mode (acc_mx acc) max_age).

Definition trim_end_dots (s : str) : str := drop_while_end (Z.eqb DOT) s.
Definition mx_pattern_matches (pattern host : str) : bool :=
  let pattern := trim_end_dots pattern in
  match strip_prefix (lit "*.") pattern with
  | Some suffix =>
      match split_once DOT host with
      | Some (label, rest) => negb (bool_decide (label = [])) && (rest =s? suffix)
      | None => false
      end
  | None => pattern =s? host
  end.
Definition allows_mx (p : MtaStsPolicy) (host : str) : bool :=
  let host := lowercase (trim_end_dots host) in
  if bool_decide (host = []) then false else existsb (λ pat, mx_pattern_matches pat host) (sts_mx p).

(** ** The discovery record *)

Definition is_valid_id (id : str) : bool :=
  negb (bool_decide (id = [])) && (str_len id <=? 32) && forallb (λ c, is_ascii_digit c || is_ascii_alpha c) id.
Definition sts_txt_field (st : bool * option str) (field : str) : bool * option str :=
  let '(version_ok, id) := st in
  let field := trim field in
  if bool_decide (field = []) then st else
  match split_once 61 field with
  | None => st
  | Some (key, value) =>
      let key := trim key in
      if key =s? lit "v" then (eq_ignore_case (trim value) (lit "STSv1"), id)
      else if key =s? lit "id" then (version_ok, Some (trim value))
      else st
  end.
Definition parse_sts_txt (txt : str) : option str :=
  let '(version_ok, id) := foldl sts_txt_field (false, None) (split_char 59 txt) in
  id ← id; if version_ok && is_valid_id id then Some id else None.

(** ** Fetching *)

Definition MAX_BODY : Z := 64 * 1024.
Definition MAX_HEADERS : Z := 16 * 1024.
Definition sts_err {A} (host reason : str) : result NetworkError A :=
  Err (RecordError (lit "MTA-STS") (lit "fetch from " ++ host ++ lit ": " ++ reason)).

(** [str::split("\r\n")]. *)
Fixpoint split_crlf (s : str) : list str :=
  match s with
  | [] => [[]]
  | a :: t =>
      let rest := match split_crlf t with [] => [[a]] | h :: r => (a :: h) :: r end in
      match t with
      | b :: t' => if (a =? CR) && (b =? LF) then [] :: split_crlf t' else rest
      | [] => rest
      end
  end.

Fixpoint http_headers (host : str) (content_length : option Z) (ls : list str) : result NetworkError (option Z) :=
  match ls with
  | [] => Ok content_length
  | line :: ls =>
      match split_once COLON line with
      | None => http_headers host content_length ls
      | Some (key, value) =>
          let key := trim key in
          if eq_ignore_case key (lit "transfer-encoding") then sts_err host (lit "transfer-encoded responses are not accepted")
          else if eq_ignore_case key (lit "content-length") then
            match parse_uint USIZE_MAX (trim value) with
            | Some n => http_headers host (Some n) ls
            | None => sts_err host (lit "invalid Content-Length")
            end
          else http_headers host content_length ls
      end
  end.

Definition parse_http_response (raw : bytes) (host : str) : result NetworkError str :=
  sep ← match find_sub (CRLF ++ CRLF) raw with Some i => Ok i | None => sts_err host (lit "no header/body separator") end;
  head ← match from_utf8 (take sep raw) with Some h => Ok h | None => sts_err host (lit "non-UTF-8 headers") end;
  let body := drop (sep + 4) raw in
  '(status, ls) ← match split_crlf head with status :: ls => Ok (status, ls) | [] => sts_err host (lit "empty response") end;
  let parts := split_whitespace status in
  let proto := default [] (parts !! 0%nat) in
  if negb (eq_ignore_case proto (lit "HTTP/1.1")) && negb (eq_ignore_case proto (lit "HTTP/1.0")) then
    sts_err host (lit "unexpected protocol `" ++ proto ++ lit "`")
  else
  code ← match c ← parts !! 1%nat; parse_uint U16_MAX c with
         | Some c => Ok c
         | None => sts_err host (lit "missing status code")
         end;
  if negb (code =? 200) then sts_err host (lit "status " ++ show code ++ lit " (redirects are not followed)") else
  content_length ← http_headers host None ls;
  n ← match content_length with Some n => Ok n | None => sts_err host (lit "missing Content-Length") end;
  if MAX_BODY <? n then sts_err host (lit "Content-Length exceeds the size cap")
  else if len body <? n then sts_err host (lit "body shorter than Content-Length")
  else match from_utf8 (take (Z.to_nat n) body) with
       | Some s => Ok s
       | None => sts_err host (lit "non-UTF-8 policy body")
       end.

(** The reading loop: chunks until the end of the stream, within the cap.  An empty
    chunk ends the stream. *)
Fixpoint read_response (host : str) (buf : bytes) (chunks : list bytes) : result NetworkError bytes :=
  match chunks with
  | [] => Ok buf
  | c :: chunks =>
      if bool_decide (c = []) then Ok buf else
      let buf := buf ++ c in
      if MAX_HEADERS + MAX_BODY <? len buf then sts_err host (lit "response exceeds the size cap")
      else read_response host buf chunks
  end.

Definition sts_request (host : str) : str :=
  lit "GET /.well-known/mta-sts.txt HTTP/1.1" ++ CRLF ++ lit "Host: " ++ host ++ CRLF ++
  lit "User-Agent: snail-mta-sts" ++ CRLF ++ lit "Accept: text/plain" ++ CRLF ++ lit "Connection: close" ++ CRLF ++ CRLF.

Definition NEGATIVE_TTL : Z := secs 600.
Definition MAX_CACHE : Z := 4096.

Record CacheEntry := mkEntry { ce_id : option str; ce_policy : option MtaStsPolicy; ce_fetched : Z; ce_ttl : Z }.
Notation Cache := (gmap str CacheEntry) (only parsing).
(** [fetched.elapsed() < ttl]; [elapsed] is zero for a clock that has not moved on. *)
Definition is_fresh (now : Z) (e : CacheEntry) : bool := Z.max 0 (now - ce_fetched e) <? ce_ttl e.

Section resolver.
(** The resolver; what a PKIX-authenticated TLS exchange with the policy host at an
    address gives back for a request (a failure, or the chunks read), and whether
    the whole fetch takes too long; the iteration order of the hash map. *)
Context (resolver : DnsResolver) (https_exchange : IpAddr → str → str → result NetworkError (list bytes))
  (timed_out : str → bool) (iter : Cache → list (str * CacheEntry)).

Definition fetch_inner (host : str) : result NetworkError str :=
  addrs ← dns_ip resolver host;
  ip ← ok_or (ResolveError host (lit "no address for MTA-STS policy host")) (head addrs);
  chunks ← https_exchange ip host (sts_request host);
  buf ← read_response host [] chunks;
  parse_http_response buf host.
Definition fetch_policy (domain : str) : result NetworkError str :=
  let host := lit "mta-sts." ++ domain in
  if timed_out host then sts_err host (lit "policy fetch timed out") else fetch_inner host.
Definition fetch_and_parse (domain : str) : result NetworkError MtaStsPolicy :=
  body ← fetch_policy domain; MtaStsPolicy_parse body.

Fixpoint find_txt_id (txts : list TxtRecord) : option str :=
  match txts with
  | [] => None
  | t :: txts => match parse_sts_txt t with Some id => Some id | None => find_txt_id txts end
  end.
Definition discover_id (domain : str) : option str :=
  txts ← ok (dns_txt resolver (lit "_mta-sts." ++ domain)); find_txt_id txts.

Definition cached_policy (now : Z) (cache : Cache) (domain : str) : option MtaStsPolicy :=
  e ← cache !! domain; if is_fresh now e then ce_policy e else None.

(** [min_by_key]: the first of the entries with the smallest key. *)
Fixpoint oldest (l : list (str * CacheEntry)) : option (str * CacheEntry) :=
  match l with
  | [] => None
  | p :: l => match oldest l with
              | Some q => if ce_fetched p.2 <=? ce_fetched q.2 then Some p else Some q
              | None => Some p
              end
  end.
Definition sts_store (cache : Cache) (domain : str) (entry : CacheEntry) : Cache :=
  let cache :=
    if (MAX_CACHE <=? Z.of_nat (size cache)) && negb (bool_decide (is_Some (cache !! domain))) then
      match oldest (iter cache) with Some (k, _) => delete k cache | None => cache end
    else cache in
  <[domain := entry]> cache.

Definition negative_entry (now : Z) : CacheEntry := mkEntry None None now NEGATIVE_TTL.

(** [Some r] when a fresh cache entry still applies. *)
Definition reuse (now : Z) (cache : Cache) (domain : str) (id : option str) : option (option MtaStsPolicy) :=
  match cache !! domain with
  | Some e =>
      if is_fresh now e then
        match id, ce_id e with
        | Some txt_id, Some cached_id => if txt_id =s? cached_id then Some (ce_policy e) else None
        | None, None => if bool_decide (ce_policy e = None) then Some None else None
        | _, _ => None
        end
      else None
  | None => None
  end.

(** [now] is the clock when the cache is looked at, [later] after the fetch.  The lock is not
    held while the fetch is awaited; only the relay worker calls this, one attempt at a
    time, so no other call comes between. *)
Definition policy_for (now later : Z) (cache : Cache) (domain0 : str) : Cache * option MtaStsPolicy :=
  let domain := lowercase (trim_end_dots domain0) in
  let id := discover_id domain in
  match reuse now cache domain id with
  | Some r => (cache, r)
  | None =>
      match id with
      | None => (sts_store cache domain (negative_entry now), None)
      | Some id =>
          match fetch_and_parse domain with
          | Ok parsed =>
              (sts_store cache domain (mkEntry (Some id) (Some parsed) later (secs (Z.max (sts_max_age parsed) 1))), Some parsed)
          | Err _ =>
              match cached_policy later cache domain with
              | Some cached => (cache, Some cached)
              | None => (sts_store cache domain (negative_entry later), None)
              end
          end
      end
  end.
End resolver.

Definition demo_policy_text : str :=
  lit "version: STSv1" ++ CRLF ++ lit "mode: enforce" ++ CRLF ++ lit "mx: *.B.org" ++ CRLF ++ lit "max_age: 99999999" ++ CRLF.
Example sts_policy_1 : MtaStsPolicy_parse demo_policy_text = Ok (mkSts Enforce [lit "*.b.org"] MAX_AGE_CAP).
Proof. by vm_compute. Qed.
Example sts_txt_1 : parse_sts_txt (lit "v=STSv1; id=20260101T00;") = Some (lit "20260101T00") ∧
  parse_sts_txt (lit "v=STSv1; id=") = None ∧ parse_sts_txt (lit "id=1") = None.
Proof. by vm_compute. Qed.

(** ** Which exchanges a policy authorizes *)

(** MTA-STS authorizes a mail exchange exactly when its name, without trailing dots
    and in lower case, equals one of the policy's patterns, or is one non-empty label
    followed by the rest of a pattern that starts with a wildcard: a wildcard stands
    for one label, never for none or for several. *)
Theorem allows_mx_spec (p : MtaStsPolicy) (host : str) :
  let h := lowercase (trim_end_dots host) in
  allows_mx p host = true ↔
  h ≠ [] ∧ ∃ pat, pat ∈ sts_mx p ∧
    ((∃ suffix label, trim_end_dots pat = lit "*." ++ suffix ∧ h = label ++ DOT :: suffix ∧ label ≠ [] ∧ DOT ∉ label) ∨
     ((∀ suffix, trim_end_dots pat ≠ lit "*." ++ suffix) ∧ h = trim_end_dots pat)).
Proof.
  intros h. unfold allows_mx. fold h. case_bool_decide as Hh; [naive_solver|].
  assert (∀ pat, mx_pattern_matches pat h = true ↔
    (∃ suffix label, trim_end_dots pat = lit "*." ++ suffix ∧ h = label ++ DOT :: suffix ∧ label ≠ [] ∧ DOT ∉ label) ∨
    ((∀ suffix, trim_end_dots pat ≠ lit "*." ++ suffix) ∧ h = trim_end_dots pat)) as Hp.
  { intros pat. unfold mx_pattern_matches. destruct (strip_prefix (lit "*.") (trim_end_dots pat)) as [suffix|] eqn:E.
    - apply strip_prefix_Some in E. destruct (split_once DOT h) as [[label rest]|] eqn:Es.
      + apply split_once_Some in Es as [Eh Hl]. rewrite andb_true_iff, negb_true_iff, bool_decide_eq_false, str_eqb_eq. split.
        * intros [Hne ->]. left. by exists suffix, label.
        * intros [(s' & l' & H1 & H2 & H3 & H4)|[H _]]; [|by apply H in E]. rewrite E in H1. apply app_inv_head in H1 as <-.
          assert (split_once DOT h = Some (l', suffix)) as Es' by (by apply split_once_Some).
          assert (split_once DOT h = Some (label, rest)) as Es by (by apply split_once_Some). naive_solver.
      + apply split_once_None in Es. split; [done|].
        intros [(s' & l' & H1 & H2 & _)|[H _]]; [|by apply H in E]. rewrite H2 in Es. set_solver.
    - rewrite strip_prefix_None in E. rewrite str_eqb_eq. split; [right; split; [done|congruence]|].
      intros [(s' & l' & H1 & _)|[_ ->]]; [by apply E in H1|done]. }
  rewrite existsb_exists. setoid_rewrite Hp. setoid_rewrite <-list_elem_of_In. naive_solver.
Qed.

(** ** What is accepted *)

Lemma policy_lines_age ls : ∀ acc acc',
  (∀ n, acc_max_age acc = Some n → 0 ≤ n ≤ MAX_AGE_CAP) → policy_lines acc ls = Ok acc' →
  ∀ n, acc_max_age acc' = Some n → 0 ≤ n ≤ MAX_AGE_CAP.
Proof.
  induction ls as [|l ls IH]; intros acc acc' Ha; simpl; [by intros [= <-]|].
  destruct (policy_line acc l) as [acc1|] eqn:E; [|done]. simpl. apply IH. clear IH.
  unfold policy_line in E. repeat case_code_in E; simplify_eq/=; auto.
  - destruct (mode_of _); simplify_eq/=. auto.
  - intros n [= <-]. match goal with H : parse_uint _ _ = Some _ |- _ => apply parse_uint_range in H end.
    unfold MAX_AGE_CAP. lia.
Qed.

(** An accepted policy is usable: in enforce and testing mode it authorizes some
    exchange pattern, and its lifetime is at most the year the cap allows. *)
Theorem sts_policy_wf (body : str) (p : MtaStsPolicy) :
  MtaStsPolicy_parse body = Ok p → 0 ≤ sts_max_age p ≤ MAX_AGE_CAP ∧ (sts_mode p ≠ ModeNone → sts_mx p ≠ []).
Proof.
  unfold MtaStsPolicy_parse. destruct (policy_lines _ _) as [acc|] eqn:E; [|done]. cbn [mbind result_bind].
  case_code; [done|]. destruct (acc_mode acc) as [m|]; [|done]. cbn [ok_or mbind result_bind].
  destruct (acc_max_age acc) as [n|] eqn:En; [|done]. cbn [ok_or mbind result_bind].
  destruct (_ && bool_decide (acc_mx acc = [])) eqn:Em; [done|]. intros [= <-]. simpl. split.
  - by eapply (policy_lines_age _ _ _ _ E).
  - intros Hm Hmx. rewrite bool_decide_eq_true_2 in Em by done. by destruct m.
  Unshelve. done.
Qed.

Lemma sts_policy_wf_witness :
  0 ≤ sts_max_age (mkSts Enforce [lit "*.b.org"] MAX_AGE_CAP) ≤ MAX_AGE_CAP ∧
  (sts_mode (mkSts Enforce [lit "*.b.org"] MAX_AGE_CAP) ≠ ModeNone → sts_mx (mkSts Enforce [lit "*.b.org"] MAX_AGE_CAP) ≠ []).
Proof. apply (sts_policy_wf demo_policy_text). by vm_compute. Defined.

Lemma http_headers_length host ls : ∀ c n, http_headers host c ls = Ok (Some n) → c = Some n ∨ 0 ≤ n.
Proof.
  induction ls as [|l ls IH]; intros c n; simpl; [intros [= ->]; auto|].
  destruct (split_once COLON l) as [[k v]|]; [|apply IH]. case_code; [done|]. case_code; [|apply IH].
  destruct (parse_uint USIZE_MAX (trim v)) as [m|] eqn:E; [|done]. apply parse_uint_range in E.
  intros [H|H]%IH; [simplify_eq; lia|auto].
Qed.

Lemma read_response_bounded host chunks : ∀ buf out,
  len buf ≤ MAX_HEADERS + MAX_BODY → read_response host buf chunks = Ok out → len out ≤ MAX_HEADERS + MAX_BODY.
Proof.
  induction chunks as [|c chunks IH]; intros buf out Hb; simpl; [by intros [= <-]|].
  case_code; [by intros [= <-]|]. case_code; [done|]. apply IH. bsimp. lia.
Qed.

(** What the policy fetcher hands over comes from a plain success: the response
    buffered is within the cap, its status is 200 (a redirect is a failure), its body
    is UTF-8 and at most 64 KiB. *)
Theorem fetch_inner_bounded (resolver : DnsResolver) (https_exchange : IpAddr → str → str → result NetworkError (list bytes))
    (host body : str) :
  fetch_inner resolver https_exchange host = Ok body →
  ∃ ip chunks buf sep head status, https_exchange ip host (sts_request host) = Ok chunks ∧
    read_response host [] chunks = Ok buf ∧ len buf ≤ MAX_HEADERS + MAX_BODY ∧ find_sub (CRLF ++ CRLF) buf = Some sep ∧ from_utf8 (take sep buf) = Some head ∧
    hd_error (split_crlf head) = Some status ∧ (c ← split_whitespace status !! 1%nat; parse_uint U16_MAX c) = Some 200 ∧
    ∃ n, 0 ≤ n ≤ MAX_BODY ∧ from_utf8 (take (Z.to_nat n) (drop (sep + 4) buf)) = Some body.
Proof.
  unfold fetch_inner. destruct (dns_ip resolver host) as [addrs|]; [|done]. cbn [mbind result_bind].
  destruct (head addrs) as [ip|]; [|done]. cbn [ok_or mbind result_bind].
  destruct (https_exchange ip host (sts_request host)) as [chunks|] eqn:Ec; [|done]. cbn [mbind result_bind].
  destruct (read_response host [] chunks) as [buf|] eqn:Er; [|done]. cbn [mbind result_bind].
  pose proof (read_response_bounded host chunks [] buf ltac:(by vm_compute) Er) as Hb. unfold parse_http_response.
  destruct (find_sub (CRLF ++ CRLF) buf) as [sep|] eqn:Es; [|done]. cbn [mbind result_bind].
  destruct (from_utf8 (take sep buf)) as [head|] eqn:Eh; [|done]. cbn [mbind result_bind].
  destruct (split_crlf head) as [|status ls] eqn:El; [done|]. cbn [mbind result_bind].
  case_code; [done|]. destruct (split_whitespace status !! 1%nat ≫= parse_uint U16_MAX) as [code|] eqn:Ecode; [|done].
  cbn [mbind result_bind]. destruct (Z.eqb_spec code 200) as [->|]; [|done]. cbn [negb].
  destruct (http_headers host None ls) as [[n|]|] eqn:En; [|done..]. cbn [mbind result_bind].
  apply http_headers_length in En as [?|Hn]; [done|].
  destruct (Z.ltb_spec MAX_BODY n); [done|]. case_code; [done|].
  destruct (from_utf8 (take (Z.to_nat n) (drop (sep + 4) buf))) as [t|] eqn:Et; [|done]. intros [= <-].
  exists ip, chunks, buf, sep, head, status. rewrite El. split_and!; try done. by exists n.
Qed.

(** ** The cache over time *)

(** One call of [policy_for] with the world as it is then. *)
Record StsCall := mkCall {
  sc_resolver : DnsResolver;
  sc_exchange : IpAddr → str → str → result NetworkError (list bytes);
  sc_timeout : str → bool;
  sc_now : Z; sc_later : Z;
  sc_domain : str }.
Definition call_domain (c : StsCall) : str := lowercase (trim_end_dots (sc_domain c)).

Section history.
Context (iter : Cache → list (str * CacheEntry)) (iter_perm : ∀ c, iter c ≡ₚ map_to_list c).

Definition run_call (cache : Cache) (c : StsCall) : Cache * option MtaStsPolicy :=
  policy_for (sc_resolver c) (sc_exchange c) (sc_timeout c) iter (sc_now c) (sc_later c) cache (sc_domain c).
Definition call_fetches (c : StsCall) (p : MtaStsPolicy) : Prop :=
  is_Some (discover_id (sc_resolver c) (call_domain c)) ∧
  fetch_and_parse (sc_resolver c) (sc_exchange c) (sc_timeout c) (call_domain c) = Ok p.

Inductive sts_reach : list StsCall → Cache → Prop :=
  | sts_init : sts_reach [] ∅
  | sts_step calls cache c : sts_reach calls cache → sts_reach (calls ++ [c]) (run_call cache c).1.

(** A cached policy was fetched for its domain, by a call whose clock the entry keeps. *)
Definition entry_ok (calls : list StsCall) (d : str) (e : CacheEntry) : Prop :=
  ∀ p, ce_policy e = Some p →
    ce_ttl e = secs (Z.max (sts_max_age p) 1) ∧
    ∃ c, c ∈ calls ∧ call_domain c = d ∧ sc_later c = ce_fetched e ∧ call_fetches c p.

Lemma oldest_elem l k e : oldest l = Some (k, e) → (k, e) ∈ l ∧ Forall (λ q, ce_fetched e ≤ ce_fetched q.2) l.
Proof.
  revert k e. induction l as [|p l IH]; intros k e; simpl; [done|].
  destruct (oldest l) as [[k' e']|] eqn:E.
  - destruct (IH k' e' eq_refl) as [Hin HF]. cbn [snd]. destruct (Z.leb_spec (ce_fetched p.2) (ce_fetched e')) as [Hle|Hlt]; intros Heq; simpl in *.
    + simplify_eq. split; [set_solver|]. constructor; [simpl; lia|]. eapply Forall_impl; [done|]. intros q Hq. simpl in *. lia.
    + simplify_eq. split; [set_solver|]. constructor; [simpl; lia|done].
  - intros [= ->]. destruct l as [|q l]; [|by simpl in E; destruct (oldest l); [case_code_in E|]].
    split; [set_solver|]. constructor; [simpl; lia|constructor].
Qed.

Lemma sts_store_lookup cache d e d' e' :
  sts_store iter cache d e !! d' = Some e' → (d' = d ∧ e' = e) ∨ cache !! d' = Some e'.
Proof.
  unfold sts_store. intros H. apply lookup_insert_Some in H as [[<- <-]|[_ H]]; [by left|right].
  case_code_in H; [|done]. destruct (oldest (iter cache)) as [[k v]|]; [|done]. by apply lookup_delete_Some in H as [_ H].
Qed.

Lemma sts_store_size cache d e : Z.of_nat (size cache) ≤ MAX_CACHE → Z.of_nat (size (sts_store iter cache d e)) ≤ MAX_CACHE.
Proof.
  intros Hs. unfold sts_store. destruct (Z.leb_spec MAX_CACHE (Z.of_nat (size cache))) as [Hge|Hlt]; simpl.
  - destruct (cache !! d) as [e0|] eqn:Ed; simpl.
    + by rewrite map_size_insert_Some by eauto.
    + destruct (oldest (iter cache)) as [[k v]|] eqn:Eo.
      * apply oldest_elem in Eo as [Hin _]. rewrite iter_perm, elem_of_map_to_list in Hin.
        rewrite map_size_insert_None by (by apply lookup_delete_None; right). rewrite map_size_delete_Some by eauto. unfold MAX_CACHE in *. lia.
      * exfalso. destruct (iter cache) as [|p l] eqn:Ei; [|by simpl in Eo; destruct (oldest l); [case_code_in Eo|]].
        pose proof (iter_perm cache) as Hp. rewrite Ei in Hp. apply Permutation_nil_l in Hp. symmetry in Hp. apply map_to_list_empty_iff in Hp as ->.
        rewrite map_size_empty in Hge. by vm_compute in Hge.
  - destruct (cache !! d) as [e0|] eqn:Ed.
    + by rewrite map_size_insert_Some by eauto.
    + rewrite map_size_insert_None by done. lia.
Qed.

(** The result of a call is what it fetched, or a fresh entry of the cache. *)
Lemma run_call_cases cache c :
  let '(cache', r) := run_call cache c in
  (cache' = cache ∧ (r = None ∨ ∃ e T, cache !! call_domain c = Some e ∧ ce_policy e = r ∧
     (T = sc_now c ∨ T = sc_later c) ∧ is_fresh T e = true)) ∨
  (r = None ∧ ∃ t, cache' = sts_store iter cache (call_domain c) (negative_entry t)) ∨
  (∃ id p, r = Some p ∧ call_fetches c p ∧ cache' = sts_store iter cache (call_domain c)
     (mkEntry (Some id) (Some p) (sc_later c) (secs (Z.max (sts_max_age p) 1)))).
Proof.
  unfold run_call, policy_for. fold (call_domain c). set (id := discover_id _ _).
  destruct (reuse (sc_now c) cache (call_domain c) id) as [r|] eqn:Er.
  - left. split; [done|]. unfold reuse in Er. destruct (cache !! call_domain c) as [e|] eqn:Ee; [|done].
    destruct (is_fresh (sc_now c) e) eqn:Ef; [|done].
    destruct id as [i|], (ce_id e) as [j|]; try done; case_code_in Er; simplify_eq; [right|by left].
    exists e, (sc_now c). auto.
  - destruct id as [i|] eqn:Ei.
    + destruct (fetch_and_parse _ _ _ _) as [p|err] eqn:Ep.
      * right; right. exists i, p. split_and!; [done| |done]. split; [|done]. unfold id in Ei. by rewrite Ei.
      * destruct (cached_policy (sc_later c) cache (call_domain c)) as [p|] eqn:Ec; [|right; left; eauto].
        left. split; [done|]. right. unfold cached_policy in Ec.
        destruct (cache !! call_domain c) as [e|] eqn:Ee; [|done]. simpl in Ec.
        destruct (is_fresh (sc_later c) e) eqn:Ef; [|done]. exists e, (sc_later c). auto.
    + right; left. eauto.
Qed.

Lemma sts_reach_ok calls cache :
  sts_reach calls cache → Z.of_nat (size cache) ≤ MAX_CACHE ∧ ∀ d e, cache !! d = Some e → entry_ok calls d e.
Proof.
  induction 1 as [|calls cache c _ [IHs IH]]; [split; [by vm_compute|intros d e; by rewrite lookup_empty]|].
  assert (Hmono : ∀ d e, entry_ok calls d e → entry_ok (calls ++ [c]) d e).
  { intros d e H p Hp. destruct (H p Hp) as (Ht & c0 & Hc & ?). split; [done|]. exists c0. set_solver. }
  pose proof (run_call_cases cache c) as H. destruct (run_call cache c) as [cache' r]. simpl.
  destruct H as [[-> _]|[(_ & t & ->)|(id & p & _ & Hf & ->)]].
  - split; [done|]. eauto.
  - split; [by apply sts_store_size|]. intros d e [[_ ->]|Hd]%sts_store_lookup; [done|eauto].
  - split; [by apply sts_store_size|]. intros d e [[-> ->]|Hd]%sts_store_lookup; [|eauto].
    intros p' [= <-]. split; [done|]. exists c. split_and!; [set_solver|done|done|done].
Qed.

(** C27: every MTA-STS policy applied is authentic and current: whatever calls came
    before, a policy returned for a domain was fetched over PKIX-authenticated HTTPS
    from that domain's policy host after its discovery record was seen, by this call
    or by an earlier one less than the policy's lifetime ago; and the cache never
    holds more than its maximum of entries. *)
Theorem sts_policy_authentic (calls : list StsCall) (cache : Cache) (c : StsCall) :
  sts_reach calls cache →
  Z.of_nat (size (run_call cache c).1) ≤ MAX_CACHE ∧
  ∀ p, (run_call cache c).2 = Some p →
    call_fetches c p ∨
    ∃ c0 T, c0 ∈ calls ∧ call_domain c0 = call_domain c ∧ call_fetches c0 p ∧ (T = sc_now c ∨ T = sc_later c) ∧
      T - sc_later c0 < secs (Z.max (sts_max_age p) 1).
Proof.
  intros Hr. split; [apply (sts_reach_ok (calls ++ [c])); by constructor|].
  destruct (sts_reach_ok calls cache Hr) as [_ Hok]. intros p Hp.
  pose proof (run_call_cases cache c) as H. destruct (run_call cache c) as [cache' r]. simpl in Hp. subst r.
  destruct H as [[_ [?|(e & T & He & Hpol & HT & Hf)]]|[[? _]|(id & p' & [= <-] & Hf & _)]]; [done| |done|by left].
  right. destruct (Hok _ _ He p Hpol) as (Httl & c0 & Hc & Hd & Hl & Hcf). exists c0, T. split_and!; try done.
  unfold is_fresh in Hf. bsimp. rewrite Hl, <-Httl. lia.
Qed.

(** Losing the discovery record drops a policy in force: when the TXT lookup fails or
    finds nothing, a cached policy that has not expired is replaced by an entry without
    one and the domain is treated as having no policy; a failed refresh, on the other
    hand, keeps it. *)
Theorem sts_discovery_loss (cache : Cache) (c : StsCall) (e : CacheEntry) (p : MtaStsPolicy) :
  cache !! call_domain c = Some e → ce_policy e = Some p →
  is_fresh (sc_now c) e = true → is_fresh (sc_later c) e = true →
  (discover_id (sc_resolver c) (call_domain c) = None →
     (run_call cache c).2 = None ∧ (run_call cache c).1 !! call_domain c = Some (negative_entry (sc_now c))) ∧
  (∀ id err, discover_id (sc_resolver c) (call_domain c) = Some id →
     fetch_and_parse (sc_resolver c) (sc_exchange c) (sc_timeout c) (call_domain c) = Err err →
     run_call cache c = (cache, Some p)).
Proof.
  intros He Hp Hn Hl. unfold run_call, policy_for. fold (call_domain c). unfold reuse. rewrite He, Hn. split.
  - intros ->. destruct (ce_id e) as [i|]; [|rewrite bool_decide_eq_false_2 by congruence];
      (split; [done|]); simpl; unfold sts_store; by rewrite lookup_insert_eq.
  - intros id err -> Hf. rewrite Hf. unfold cached_policy. rewrite He. simpl. rewrite Hl, Hp.
    destruct (ce_id e) as [i|]; [|done]. by destruct (id =s? i).
Qed.
End history.


(** A world with one record, one address and a server that answers at once. *)
Definition demo_host : str := lit "b.org".
Definition sts_demo_dns (txt : result NetworkError (list str)) : DnsResolver :=
  plain_resolver (λ _, Err (NetIoError [])) (λ _, Ok [V4 3221225985]) (λ _, txt) (λ _, Err (NetIoError [])).
Definition demo_https (_ : IpAddr) (_ _ : str) : result NetworkError (list bytes) :=
  Ok [lit "HTTP/1.1 200 OK" ++ CRLF ++ lit "Content-Length: 63" ++ CRLF ++ CRLF ++ demo_policy_text; []].
Definition demo_call (txt : result NetworkError (list str)) (now : Z) : StsCall :=
  mkCall (sts_demo_dns txt) demo_https (λ _, false) now (now + 5) demo_host.
Definition demo_found : result NetworkError (list str) := Ok [lit "v=STSv1; id=1;"].
Definition demo_policy : MtaStsPolicy := mkSts Enforce [lit "*.b.org"] MAX_AGE_CAP.
Definition demo_cache : Cache := (run_call map_to_list ∅ (demo_call demo_found 0)).1.

Lemma fetch_inner_bounded_witness :
  ∃ ip chunks buf sep head status, demo_https ip demo_host (sts_request demo_host) = Ok chunks ∧
    read_response demo_host [] chunks = Ok buf ∧ len buf ≤ MAX_HEADERS + MAX_BODY ∧ find_sub (CRLF ++ CRLF) buf = Some sep ∧ from_utf8 (take sep buf) = Some head ∧
    hd_error (split_crlf head) = Some status ∧ (c ← split_whitespace status !! 1%nat; parse_uint U16_MAX c) = Some 200 ∧
    ∃ n, 0 ≤ n ≤ MAX_BODY ∧ from_utf8 (take (Z.to_nat n) (drop (sep + 4) buf)) = Some demo_policy_text.
Proof. apply (fetch_inner_bounded (sts_demo_dns demo_found) demo_https demo_host demo_policy_text). by vm_compute. Defined.

Lemma sts_policy_authentic_witness :
  (run_call map_to_list demo_cache (demo_call demo_found 100)).2 = Some demo_policy ∧
  (call_fetches (demo_call demo_found 100) demo_policy ∨
   ∃ c0 T, c0 ∈ [demo_call demo_found 0] ∧ call_domain c0 = demo_host ∧ call_fetches c0 demo_policy ∧
     (T = 100 ∨ T = 105) ∧ T - sc_later c0 < secs (Z.max MAX_AGE_CAP 1)).
Proof.
  assert ((run_call map_to_list demo_cache (demo_call demo_found 100)).2 = Some demo_policy) as H by (by vm_compute).
  split; [exact H|].
  apply (proj2 (sts_policy_authentic map_to_list (λ _, reflexivity _) [demo_call demo_found 0] demo_cache (demo_call demo_found 100)
    (sts_step map_to_list [] ∅ (demo_call demo_found 0) (sts_init map_to_list)))). exact H.
Defined.

Lemma sts_discovery_loss_witness :
  (run_call map_to_list demo_cache (demo_call (Err (NetIoError [])) 100)).2 = None ∧
  (run_call map_to_list demo_cache (demo_call (Err (NetIoError [])) 100)).1 !! demo_host = Some (negative_entry 100).
Proof.
  apply (sts_discovery_loss map_to_list demo_cache (demo_call (Err (NetIoError [])) 100)
    (mkEntry (Some (lit "1")) (Some demo_policy) 5 (secs MAX_AGE_CAP)) demo_policy); by vm_compute.
Defined.
