(* ===== verification/Spool.v ===== *)
(** * The durable outbound spool

    services/snail_server/src/spool.rs.  The spool directory and its [bounced/]
    subdirectory are a finite map from paths to files; the names are UTF-8.
    Each operation that changes the directory is the list of the system calls it
    issues, in order: running the whole list is the operation, and stopping
    after any prefix of it, or in the middle of a write, is a crash (or an I/O
    failure).  The order in which [read_dir] lists a directory is not specified
    by the operating system, so it is a parameter. *)
From stdpp Require Import sorting.
From S2P Require Import Prelude RustStr Net Message.

(** ** The file system *)

Inductive Dir := Main | Bounced.
#[export] Instance Dir_eq_dec : EqDecision Dir.
Proof. solve_decision. Defined.
#[export] Program Instance Dir_countable : Countable Dir :=
  inj_countable' (λ d, match d with Main => true | Bounced => false end)
    (λ b, if b : bool then Main else Bounced) _.
Next Obligation. by intros []. Qed.

Notation Path := (Dir * list Z)%type.
Record File := mkFile { f_data : bytes; f_mtime : Z }.
#[export] Instance File_eq_dec : EqDecision File.
Proof. solve_decision. Defined.
Notation FS := (gmap Path File).

Inductive IoError := IoNotFound | InvalidData | Panicked.
#[export] Instance IoError_eq_dec : EqDecision IoError.
Proof. solve_decision. Defined.

(** The system calls that change the directory. *)
Inductive FsOp :=
  | FsWrite (p : Path) (b : bytes)
  | FsRename (p q : Path)
  | RenameIfExists (p q : Path)
  | RemoveIfExists (p : Path).

Definition fs_rename (p q : Path) (fs : FS) : result IoError FS :=
  match fs !! p with
  | Some f => Ok (<[q := f]> (delete p fs))
  | None => Err IoNotFound
  end.
Definition fs_remove_file (p : Path) (fs : FS) : result IoError FS :=
  match fs !! p with
  | Some _ => Ok (delete p fs)
  | None => Err IoNotFound
  end.
(** [fs::read] and [fs::read_to_string]. *)
Definition fs_read (p : Path) (fs : FS) : result IoError bytes :=
  ok_or IoNotFound (f_data <$> fs !! p).
Definition fs_read_to_string (p : Path) (fs : FS) : result IoError str :=
  b ← fs_read p fs; ok_or InvalidData (from_utf8 b).

Definition remove_if_exists (p : Path) (fs : FS) : result IoError FS :=
  match fs_remove_file p fs with
  | Ok fs' => Ok fs'
  | Err IoNotFound => Ok fs
  | Err e => Err e
  end.
Definition rename_if_exists (p q : Path) (fs : FS) : result IoError FS :=
  match fs_rename p q fs with
  | Ok fs' => Ok fs'
  | Err IoNotFound => Ok fs
  | Err e => Err e
  end.

Definition exec_op (t : Z) (op : FsOp) (fs : FS) : result IoError FS :=
  match op with
  | FsWrite p b => Ok (<[p := mkFile b t]> fs)
  | FsRename p q => fs_rename p q fs
  | RenameIfExists p q => rename_if_exists p q fs
  | RemoveIfExists p => remove_if_exists p fs
  end.

(** The whole list, stopping at the first error; the calls before it have run. *)
Fixpoint exec (t : Z) (ops : list FsOp) (fs : FS) : result IoError () * FS :=
  match ops with
  | [] => (Ok tt, fs)
  | op :: ops => match exec_op t op fs with
                 | Ok fs' => exec t ops fs'
                 | Err e => (Err e, fs)
                 end
  end.

(** The states a crash can leave: a prefix of the calls has run, and a write
    that was under way has stored a prefix of its bytes. *)
Inductive crash (t : Z) : list FsOp → FS → FS → Prop :=
  | crash_here ops fs : crash t ops fs fs
  | crash_write p b b' ops fs : b' `prefix_of` b →
      crash t (FsWrite p b :: ops) fs (<[p := mkFile b' t]> fs)
  | crash_later op ops fs fs' fs'' :
      exec_op t op fs = Ok fs' → crash t ops fs' fs'' → crash t (op :: ops) fs fs''.

(** [Path::file_stem] and [Path::extension]: the name is split at its last dot,
    unless the dot is its first character. *)
Definition split_ext (name : str) : str * option str :=
  match rsplit_once DOT name with
  | Some ([], _) => (name, None)
  | Some (stem, ext) => (stem, Some ext)
  | None => (name, None)
  end.

(** ** Entries and control records *)

Record SpoolEntry := mkSpoolEntry {
  se_id : str;
  se_sender : option Mailbox;
  se_recipients : list Mailbox;
  se_attempts : Z;
  se_next_attempt_at : Z;
  se_created_at : Z }.
#[export] Instance SpoolEntry_eq_dec : EqDecision SpoolEntry.
Proof. solve_decision. Defined.

Definition entry_envelope (e : SpoolEntry) : Envelope := mkEnvelope (se_sender e) (se_recipients e).

Definition to_secs (t : Z) : Z := default 0 (duration_since t 0) `div` NANOS.
(** [UNIX_EPOCH + Duration]: the addition panics past the end of the range. *)
Definition from_secs (s : Z) : option Z := checked_add 0 (secs s).

Definition ctrl_line (key value : str) : str := key ++ [SP] ++ value ++ [LF].

Definition render_ctrl (env : Envelope) (attempts next created : Z) : str :=
  ctrl_line (lit "created") (show (to_secs created)) ++
  ctrl_line (lit "next") (show (to_secs next)) ++
  ctrl_line (lit "attempts") (show attempts) ++
  ctrl_line (lit "from") (default [] (Mailbox_to_string <$> env_sender env)) ++
  (env_recipients env ≫= λ r, ctrl_line (lit "rcpt") (Mailbox_to_string r)).

(** The variables of [parse_ctrl]'s loop. *)
Record CtrlAcc := mkAcc {
  ca_created : option Z; ca_next : option Z; ca_attempts : option Z;
  ca_sender : option Mailbox; ca_recipients : list Mailbox }.
Definition acc_empty : CtrlAcc := mkAcc None None None None [].

Definition parse_time (val : str) : result IoError Z :=
  s ← ok_or InvalidData (parse_uint U64_MAX val); ok_or Panicked (from_secs s).
Definition parse_mailbox (val : str) : result IoError Mailbox :=
  map_err (λ _, InvalidData) (Mailbox_parse val).

Definition parse_ctrl_line (a : CtrlAcc) (line : str) : result IoError CtrlAcc :=
  let '(key, val) := default (line, []) (split_once SP line) in
  let 'mkAcc created next attempts sender recipients := a in
  if key =s? lit "created" then
    t ← parse_time val; Ok (mkAcc (Some t) next attempts sender recipients)
  else if key =s? lit "next" then
    t ← parse_time val; Ok (mkAcc created (Some t) attempts sender recipients)
  else if key =s? lit "attempts" then
    n ← ok_or InvalidData (parse_uint U32_MAX val);
    Ok (mkAcc created next (Some n) sender recipients)
  else if (key =s? lit "from") && negb (val =s? []) then
    m ← parse_mailbox val; Ok (mkAcc created next attempts (Some m) recipients)
  else if key =s? lit "rcpt" then
    m ← parse_mailbox val; Ok (mkAcc created next attempts sender (recipients ++ [m]))
  else Ok a.

Fixpoint parse_ctrl_lines (a : CtrlAcc) (ls : list str) : result IoError CtrlAcc :=
  match ls with
  | [] => Ok a
  | l :: ls => a' ← parse_ctrl_line a l; parse_ctrl_lines a' ls
  end.

(** A malformed record is [Err InvalidData], the error its callers turn it into. *)
Definition parse_ctrl (id text : str) : result IoError SpoolEntry :=
  a ← parse_ctrl_lines acc_empty (lines text);
  if bool_decide (ca_recipients a = []) then Err InvalidData else
  attempts ← ok_or InvalidData (ca_attempts a);
  next ← ok_or InvalidData (ca_next a);
  created ← ok_or InvalidData (ca_created a);
  Ok (mkSpoolEntry id (ca_sender a) (ca_recipients a) attempts next created).

(** ** Paths *)

Definition EML : str := lit "eml".
Definition CTRL : str := lit "ctrl".
Definition BOUNCING : str := lit "bouncing".
Definition with_ext (id ext : str) : str := id ++ [DOT] ++ ext.

Definition eml_path (id : str) : Path := (Main, with_ext id EML).
Definition ctrl_path (id : str) : Path := (Main, with_ext id CTRL).
Definition bouncing_marker (id : str) : Path := (Main, with_ext id BOUNCING).
Definition bounced_eml (id : str) : Path := (Bounced, with_ext id EML).
Definition bounced_ctrl (id : str) : Path := (Bounced, with_ext id CTRL).

Definition tmp_path (p : Path) : Path := (p.1, p.2 ++ lit ".tmp").
Definition write_atomic (p : Path) (b : bytes) : list FsOp :=
  [FsWrite (tmp_path p) b; FsRename (tmp_path p) p].

(** [new_id]: the clock in nanoseconds and the spool's counter. *)
Definition new_id (now seq : Z) : str :=
  show_pad 20 (default 0 (duration_since now 0)) ++ lit "-" ++ show_pad 6 seq.

(** ** Operations *)

Definition enqueue_ops (id : str) (now : Z) (m : Message) : list FsOp :=
  write_atomic (eml_path id) (Message_to_bytes m) ++
  write_atomic (ctrl_path id) (utf8_encode (render_ctrl (msg_envelope m) 0 now now)).

Record OutboundSpool := mkSpool { sp_fs : FS; sp_counter : Z }.

Definition enqueue (now : Z) (m : Message) (s : OutboundSpool) : result IoError str * OutboundSpool :=
  let id := new_id now (sp_counter s) in
  let counter := add_u64 (sp_counter s) 1 in
  let '(r, fs) := exec now (enqueue_ops id now m) (sp_fs s) in
  (_ ← r; Ok id, mkSpool fs counter).

Definition load_message (id : str) (fs : FS) : result IoError Message :=
  eml ← fs_read (eml_path id) fs;
  ctrl ← fs_read_to_string (ctrl_path id) fs;
  entry ← parse_ctrl id ctrl;
  map_err (λ _, InvalidData) (Message_parse (entry_envelope entry) eml).

Definition defer_ops (id : str) (attempts next : Z) (fs : FS) : result IoError (list FsOp) :=
  text ← fs_read_to_string (ctrl_path id) fs;
  entry ← parse_ctrl id text;
  Ok (write_atomic (ctrl_path id)
        (utf8_encode (render_ctrl (entry_envelope entry) attempts next (se_created_at entry)))).

Definition defer (t : Z) (id : str) (attempts next : Z) (fs : FS) : result IoError () * FS :=
  match defer_ops id attempts next fs with
  | Ok ops => exec t ops fs
  | Err e => (Err e, fs)
  end.

Definition spool_remove_ops (id : str) : list FsOp :=
  [RemoveIfExists (eml_path id); RemoveIfExists (ctrl_path id)].
Definition spool_remove (t : Z) (id : str) (fs : FS) : result IoError () * FS :=
  exec t (spool_remove_ops id) fs.

Definition relocate_to_bounced (id : str) : list FsOp :=
  [RenameIfExists (eml_path id) (bounced_eml id); RenameIfExists (ctrl_path id) (bounced_ctrl id)].

Definition bounce_ops (id : str) : list FsOp :=
  FsWrite (bouncing_marker id) (utf8_encode id) ::
  relocate_to_bounced id ++ [RemoveIfExists (bouncing_marker id)].
Definition bounce (t : Z) (id : str) (fs : FS) : result IoError () * FS := exec t (bounce_ops id) fs.

(** [BASE.saturating_mul(1 << attempts.min(20)).min(CAP)], in seconds. *)
Definition backoff (attempts : Z) : Z :=
  secs (Z.min (Z.min (60 * Z.shiftl 1 (Z.min attempts 20)) U64_MAX) 3600).

(** Lexicographic comparison, the order of [str::cmp] (UTF-8 preserves it). *)
Fixpoint str_leb (a b : str) : bool :=
  match a, b with
  | [], _ => true
  | _ :: _, [] => false
  | x :: a', y :: b' => (x <? y) || ((x =? y) && str_leb a' b')
  end.
Definition id_le (a b : SpoolEntry) : Prop := str_leb (se_id a) (se_id b) = true.
#[export] Instance id_le_dec : RelDecision id_le.
Proof. intros a b. unfold id_le. apply _. Defined.

Section directory.
(** The names [fs::read_dir] yields for a directory. *)
Context (read_dir : FS → Dir → list str).

Definition exists_ (p : Path) (fs : FS) : bool := bool_decide (is_Some (fs !! p)).

(** The body of [due_now]'s loop: [None] is [continue]. *)
Definition due_entry (now : Z) (fs : FS) (name : str) : result IoError (option SpoolEntry) :=
  let '(id, ext) := split_ext name in
  if bool_decide (ext ≠ Some CTRL) then Ok None
  else if exists_ (bouncing_marker id) fs then Ok None
  else if negb (exists_ (eml_path id) fs) then Ok None
  else
    text ← fs_read_to_string (Main, name) fs;
    match parse_ctrl id text with
    | Ok entry => Ok (if se_next_attempt_at entry <=? now then Some entry else None)
    | Err Panicked => Err Panicked
    | Err _ => Ok None
    end.

Fixpoint due_entries (now : Z) (fs : FS) (names : list str) : result IoError (list SpoolEntry) :=
  match names with
  | [] => Ok []
  | name :: names =>
      e ← due_entry now fs name;
      es ← due_entries now fs names;
      Ok (match e with Some e => e :: es | None => es end)
  end.

Definition due_now (now : Z) (fs : FS) : result IoError (list SpoolEntry) :=
  merge_sort id_le <$> due_entries now fs (read_dir fs Main).

Definition recover_name (name : str) : list FsOp :=
  let '(id, ext) := split_ext name in
  if bool_decide (ext ≠ Some BOUNCING) then []
  else relocate_to_bounced id ++ [RemoveIfExists (Main, name)].
Definition recover_ops (fs : FS) : list FsOp := read_dir fs Main ≫= recover_name.
Definition recover_interrupted_bounces (t : Z) (fs : FS) : result IoError () * FS :=
  exec t (recover_ops fs) fs.

(** [open]: the directories exist in the model; recovery runs before serving. *)
Definition spool_open (t : Z) (fs : FS) : result IoError OutboundSpool :=
  let '(r, fs') := recover_interrupted_bounces t fs in _ ← r; Ok (mkSpool fs' 0).

Definition aged_out (retention now : Z) (f : File) : bool :=
  match duration_since now (f_mtime f) with
  | Some age => retention <=? age
  | None => false
  end.
Fixpoint reap_names (retention now : Z) (names : list str) (fs : FS) : FS * Z :=
  match names with
  | [] => (fs, 0)
  | name :: names =>
      match fs !! (Bounced, name) with
      | Some f => if aged_out retention now f
                  then let '(fs', n) := reap_names retention now names (delete (Bounced, name) fs) in
                       (fs', 1 + n)
                  else reap_names retention now names fs
      | None => reap_names retention now names fs
      end
  end.
Definition reap_bounced (retention now : Z) (fs : FS) : FS * Z :=
  reap_names retention now (read_dir fs Bounced) fs.

End directory.

(** ** Control records: render, then parse *)

(** A mailbox whose printed form survives a line of the record. *)
Definition ctrl_safe (m : Mailbox) : Prop :=
  printable m ∧ LF ∉ Mailbox_to_string m ∧
  Forall (λ c, is_char c = true) (Mailbox_to_string m).
Definition ctrl_safe_env (env : Envelope) : Prop :=
  env_recipients env ≠ [] ∧ Forall ctrl_safe (env_recipients env) ∧
  from_option ctrl_safe True (env_sender env).

Definition kv (key value : str) : str := key ++ [SP] ++ value.

Definition ctrl_lines (env : Envelope) (attempts next created : Z) : list str :=
  [kv (lit "created") (show (to_secs created)); kv (lit "next") (show (to_secs next));
   kv (lit "attempts") (show attempts);
   kv (lit "from") (default [] (Mailbox_to_string <$> env_sender env))] ++
  ((λ r, kv (lit "rcpt") (Mailbox_to_string r)) <$> env_recipients env).

Lemma render_ctrl_lines env n next created :
  render_ctrl env n next created = ctrl_lines env n next created ≫= λ l, l ++ [LF].
Proof.
  unfold render_ctrl, ctrl_lines. rewrite bind_app, list_fmap_bind. simpl.
  unfold ctrl_line, kv. rewrite <-!app_assoc. simpl. do 4 (f_equal; rewrite <-?app_assoc; simpl; f_equal; f_equal).
  all: try (apply list_bind_ext; [|done]; intros; simpl; by rewrite <-?app_assoc).
Qed.

Lemma to_secs_range t : t ≤ SYSTIME_MAX → 0 ≤ to_secs t ≤ 2 ^ 63 - 1.
Proof.
  intros Ht. unfold to_secs, duration_since. destruct (Z.leb_spec 0 t); simpl; [|done].
  split; [apply Z.div_pos; [lia|done]|].
  assert ((t - 0) `div` NANOS < 2 ^ 63); [|lia].
  apply Z.div_lt_upper_bound; [done|]. unfold SYSTIME_MAX, NANOS in *. lia.
Qed.

Lemma from_secs_range s : 0 ≤ s ≤ 2 ^ 63 - 1 → from_secs s = Some (secs s).
Proof.
  intros Hs. unfold from_secs. apply checked_add_Some. split; [lia|].
  unfold secs, SYSTIME_MAX, NANOS. lia.
Qed.

Lemma parse_time_show t : t ≤ SYSTIME_MAX → parse_time (show (to_secs t)) = Ok (secs (to_secs t)).
Proof.
  intros Ht%to_secs_range. unfold parse_time. rewrite parse_uint_show by (unfold U64_MAX; lia).
  simpl. by rewrite from_secs_range.
Qed.

Lemma parse_mailbox_safe m : ctrl_safe m → parse_mailbox (Mailbox_to_string m) = Ok m.
Proof. intros [Hm _]. unfold parse_mailbox. by rewrite Mailbox_parse_printable. Qed.

Lemma Mailbox_to_string_ne m : Mailbox_to_string m ≠ [].
Proof. unfold Mailbox_to_string. by destruct (local m). Qed.

Lemma kv_split key v : SP ∉ key → split_once SP (kv key v) = Some (key, v).
Proof. intros. by apply split_once_app. Qed.

(** Non-membership in a concrete list, by computation. *)
Ltac not_in := match goal with |- ¬ ?P => apply (bool_decide_eq_false P); by vm_compute end.

(** The keys of the record are compared by computation. *)
Ltac ctrl_key :=
  unfold parse_ctrl_line; rewrite kv_split by not_in; cbn [default from_option id];
  repeat match goal with |- context [lit ?a =s? lit ?b] =>
    let v := eval vm_compute in (lit a =s? lit b) in change (lit a =s? lit b) with v end;
  cbv beta iota zeta; cbn [andb].

Lemma parse_created a t : t ≤ SYSTIME_MAX →
  parse_ctrl_line a (kv (lit "created") (show (to_secs t))) =
  Ok (mkAcc (Some (secs (to_secs t))) (ca_next a) (ca_attempts a) (ca_sender a) (ca_recipients a)).
Proof. intros Ht. destruct a. ctrl_key. by rewrite parse_time_show. Qed.

Lemma parse_next a t : t ≤ SYSTIME_MAX →
  parse_ctrl_line a (kv (lit "next") (show (to_secs t))) =
  Ok (mkAcc (ca_created a) (Some (secs (to_secs t))) (ca_attempts a) (ca_sender a) (ca_recipients a)).
Proof. intros Ht. destruct a. ctrl_key. by rewrite parse_time_show. Qed.

Lemma parse_attempts a n : 0 ≤ n ≤ U32_MAX →
  parse_ctrl_line a (kv (lit "attempts") (show n)) =
  Ok (mkAcc (ca_created a) (ca_next a) (Some n) (ca_sender a) (ca_recipients a)).
Proof. intros Hn. destruct a. ctrl_key. by rewrite parse_uint_show. Qed.

Lemma parse_from a (s : option Mailbox) : from_option ctrl_safe True s → ca_sender a = None →
  parse_ctrl_line a (kv (lit "from") (default [] (Mailbox_to_string <$> s))) =
  Ok (mkAcc (ca_created a) (ca_next a) (ca_attempts a) s (ca_recipients a)).
Proof.
  intros Hs Ha. destruct a; simpl in *; subst. ctrl_key. destruct s as [m|]; [|done]. simpl in *.
  rewrite (proj2 (str_eqb_neq _ []) (Mailbox_to_string_ne m)). simpl. by rewrite parse_mailbox_safe.
Qed.

Lemma parse_rcpts a rs : Forall ctrl_safe rs →
  parse_ctrl_lines a ((λ r, kv (lit "rcpt") (Mailbox_to_string r)) <$> rs) =
  Ok (mkAcc (ca_created a) (ca_next a) (ca_attempts a) (ca_sender a) (ca_recipients a ++ rs)).
Proof.
  intros Hrs. revert a. induction Hrs as [|r rs Hr _ IH]; intros [? ? ? ? rcpts]; [by rewrite app_nil_r|].
  cbn [fmap list_fmap parse_ctrl_lines].
  assert (∀ a, parse_ctrl_line a (kv (lit "rcpt") (Mailbox_to_string r)) =
    Ok (mkAcc (ca_created a) (ca_next a) (ca_attempts a) (ca_sender a) (ca_recipients a ++ [r]))) as Hl.
  { intros []. ctrl_key. by rewrite parse_mailbox_safe. }
  rewrite Hl. simpl. rewrite IH. simpl. by rewrite <-app_assoc.
Qed.

Lemma digits_no c s : Forall (λ x, is_ascii_digit x = true) s → is_ascii_digit c = false → c ∉ s.
Proof. rewrite Forall_forall. intros Hs Hc Hin%Hs. congruence. Qed.

Lemma kv_line key v : LF ∉ key → LF ∉ v → strip_suffix [CR] (kv key v) = None →
  LF ∉ kv key v ∧ strip_suffix [CR] (kv key v) = None.
Proof. intros. split; [|done]. unfold kv. set_unfold. intros [?|[?|?]]; [done| |done]. done. Qed.

Lemma kv_no_cr key v : (∀ t, v ≠ t ++ [CR]) → strip_suffix [CR] (kv key v) = None.
Proof.
  intros Hv. apply strip_suffix_None. intros r Hr. destruct v as [|x v _] using rev_ind.
  - unfold kv in Hr. rewrite app_nil_r in Hr. apply app_inj_tail in Hr as [_ [=]].
  - unfold kv in Hr. rewrite !app_assoc in Hr. apply app_inj_tail in Hr as [_ ->]. by apply (Hv v).
Qed.

Lemma kv_show key n : 0 ≤ n → LF ∉ key →
  LF ∉ kv key (show n) ∧ strip_suffix [CR] (kv key (show n)) = None.
Proof.
  intros Hn%show_digits Hk. apply kv_line; [done|by eapply digits_no|].
  apply kv_no_cr. intros t Ht. apply (digits_no CR (show n)); [done|done|]. rewrite Ht. set_solver.
Qed.

Lemma kv_mailbox key m : ctrl_safe m → LF ∉ key →
  LF ∉ kv key (Mailbox_to_string m) ∧ strip_suffix [CR] (kv key (Mailbox_to_string m)) = None.
Proof.
  intros ((_ & _ & _ & _ & Ht) & Hlf & _) Hk. apply kv_line; [done..|]. apply kv_no_cr.
  intros t E. rewrite E in Ht. destruct Ht as [_ Ht]. by discriminate (Ht CR t).
Qed.

Lemma ctrl_lines_ok env n next created :
  ctrl_safe_env env → 0 ≤ n → next ≤ SYSTIME_MAX → created ≤ SYSTIME_MAX →
  Forall (λ l, LF ∉ l ∧ strip_suffix [CR] l = None) (ctrl_lines env n next created).
Proof.
  intros (_ & Hr & Hs) Hn Hx%to_secs_range Hc%to_secs_range. unfold ctrl_lines.
  apply Forall_app. split.
  - do 3 (apply Forall_cons; split; [apply kv_show; [lia|not_in]|]).
    apply Forall_singleton.
    destruct (env_sender env) as [m|]; simpl in *.
    + apply kv_mailbox; [done|not_in].
    + split; [not_in|by vm_compute].
  - apply Forall_fmap. eapply Forall_impl; [done|]. intros m Hm.
    apply kv_mailbox; [done|not_in].
Qed.

Lemma parse_render_ctrl id env n next created :
  ctrl_safe_env env → 0 ≤ n ≤ U32_MAX → next ≤ SYSTIME_MAX → created ≤ SYSTIME_MAX →
  parse_ctrl id (render_ctrl env n next created) =
  Ok (mkSpoolEntry id (env_sender env) (env_recipients env) n (secs (to_secs next)) (secs (to_secs created))).
Proof.
  intros Henv Hn Hx Hc. unfold parse_ctrl.
  rewrite render_ctrl_lines, lines_lf by (apply ctrl_lines_ok; [done|lia|done..]).
  destruct Henv as (Hne & Hr & Hs). unfold ctrl_lines. cbn [app parse_ctrl_lines].
  rewrite parse_created by done. cbn [mbind result_bind].
  rewrite parse_next by done. cbn [mbind result_bind].
  rewrite parse_attempts by done. cbn [mbind result_bind].
  rewrite parse_from by done. cbn [mbind result_bind].
  rewrite parse_rcpts by done. simpl.
  by rewrite bool_decide_false.
Qed.

(** A control record read back gives the entry that was written: the envelope
    and the attempt count are kept exactly, the two times to the second.  Holds
    for every envelope whose addresses print on one line. *)
Theorem ctrl_roundtrip (id : str) (env : Envelope) (n next created : Z) :
  ctrl_safe_env env → 0 ≤ n ≤ U32_MAX → next ≤ SYSTIME_MAX → created ≤ SYSTIME_MAX →
  parse_ctrl id (render_ctrl env n next created) =
  Ok (mkSpoolEntry id (env_sender env) (env_recipients env) n (secs (to_secs next)) (secs (to_secs created))).
Proof. apply parse_render_ctrl. Qed.

Definition spool_env : Envelope :=
  mkEnvelope (Some (mkMailbox (lit "alice") (lit "example.org")))
    [mkMailbox (lit "bob") (lit "example.net"); mkMailbox (lit "eve") (lit "example.com")].

(** Decide [ctrl_safe] by computation. *)
Definition ctrl_safeb (m : Mailbox) : bool :=
  bool_decide (local m ≠ []) && bool_decide (domain m ≠ []) && negb (contains_char AT (domain m)) &&
  negb (starts_with [AT] (Mailbox_to_string m)) && trimmedb (Mailbox_to_string m) &&
  negb (contains_char LF (Mailbox_to_string m)) && forallb is_char (Mailbox_to_string m).
Lemma ctrl_safeb_true m : ctrl_safeb m = true → ctrl_safe m.
Proof.
  unfold ctrl_safeb, contains_char. intros H. bsimp.
  split; [|split; [done|]].
  - split_and!; try done. by apply trimmedb_true.
  - apply Forall_forall. intros c Hc. rewrite forallb_forall in *. by apply H0, list_elem_of_In.
Qed.

Lemma spool_env_safe : ctrl_safe_env spool_env.
Proof.
  split_and!; [done| |by apply ctrl_safeb_true; vm_compute].
  repeat constructor; by apply ctrl_safeb_true; vm_compute.
Qed.

Lemma ctrl_roundtrip_witness :
  parse_ctrl (lit "7") (render_ctrl spool_env 3 (secs 1700000060 + 5) (secs 1700000000 + 999999999)) =
  Ok (mkSpoolEntry (lit "7") (env_sender spool_env) (env_recipients spool_env) 3
        (secs (to_secs (secs 1700000060 + 5))) (secs (to_secs (secs 1700000000 + 999999999)))).
Proof.
  apply (ctrl_roundtrip (lit "7") spool_env 3 (secs 1700000060 + 5) (secs 1700000000 + 999999999));
    [apply spool_env_safe|by vm_compute..].
Defined.

(** ** Names *)

Lemma with_ext_split id ext : DOT ∉ ext → id ≠ [] → split_ext (with_ext id ext) = (id, Some ext).
Proof. intros. unfold split_ext, with_ext. simpl. rewrite rsplit_once_app by done. by destruct id. Qed.

Lemma split_ext_Some name id ext :
  split_ext name = (id, Some ext) → name = with_ext id ext ∧ DOT ∉ ext ∧ id ≠ [].
Proof.
  unfold split_ext. destruct (rsplit_once DOT name) as [[[|c s] e]|] eqn:E; try done.
  apply rsplit_once_Some in E as [-> ?]. by intros [= <- <-].
Qed.

Lemma with_ext_inj id1 e1 id2 e2 :
  DOT ∉ e1 → DOT ∉ e2 → with_ext id1 e1 = with_ext id2 e2 → id1 = id2 ∧ e1 = e2.
Proof.
  unfold with_ext. simpl. intros H1 H2 E. apply (f_equal (rsplit_once DOT)) in E.
  rewrite !rsplit_once_app in E by done. by simplify_eq.
Qed.

Lemma EML_dot : DOT ∉ EML. Proof. not_in. Qed.
Lemma CTRL_dot : DOT ∉ CTRL. Proof. not_in. Qed.
Lemma BOUNCING_dot : DOT ∉ BOUNCING. Proof. not_in. Qed.
Definition TMP : str := lit "tmp".
Lemma TMP_dot : DOT ∉ TMP. Proof. not_in. Qed.
Lemma tmp_path_ext d n : tmp_path (d, n) = (d, with_ext n TMP).
Proof. done. Qed.
#[local] Hint Resolve EML_dot CTRL_dot BOUNCING_dot TMP_dot : snail.

(** Two spool paths are told apart by directory, extension or id. *)
Ltac path_ne :=
  unfold eml_path, ctrl_path, bouncing_marker, bounced_eml, bounced_ctrl; rewrite ?tmp_path_ext;
  let H := fresh in intros H; simplify_eq H; clear H; intros;
  repeat match goal with
  | E : with_ext _ _ = with_ext _ _ |- _ =>
      apply with_ext_inj in E as [? ?]; [|by auto with snail..]
  end; subst; first [done | congruence].

(** Look a path up through updates of other paths. *)
Ltac fs_simpl :=
  repeat first
    [ rewrite lookup_insert_eq | rewrite lookup_delete_eq
    | rewrite lookup_insert_ne by path_ne | rewrite lookup_delete_ne by path_ne ].
Ltac fs_simpl_in H :=
  repeat first
    [ rewrite lookup_insert_eq in H | rewrite lookup_delete_eq in H
    | rewrite lookup_insert_ne in H by path_ne | rewrite lookup_delete_ne in H by path_ne ].

(** ** Running and crashing *)

Lemma exec_app t ops1 ops2 fs fs1 :
  exec t ops1 fs = (Ok tt, fs1) → exec t (ops1 ++ ops2) fs = exec t ops2 fs1.
Proof.
  revert fs. induction ops1 as [|op ops1 IH]; simpl; intros fs H; [by simplify_eq|].
  destruct (exec_op t op fs); [by apply IH|done].
Qed.

Lemma crash_app t ops1 ops2 fs fs' :
  crash t (ops1 ++ ops2) fs fs' →
  crash t ops1 fs fs' ∨ ∃ fs1, exec t ops1 fs = (Ok tt, fs1) ∧ crash t ops2 fs1 fs'.
Proof.
  revert fs. induction ops1 as [|op ops1 IH]; simpl; intros fs H; [eauto|].
  inversion H as [| |op' ops' ? fs1 ? Hop Hc]; subst.
  - left. constructor.
  - left. by constructor.
  - rewrite Hop. destruct (IH _ Hc) as [?|?]; [left; by econstructor|by right].
Qed.

Lemma rename_if_exists_lookup p q fs :
  p ≠ q → ∃ fs', rename_if_exists p q fs = Ok fs' ∧
  fs' !! p = None ∧ fs' !! q = (match fs !! p with Some f => Some f | None => fs !! q end) ∧
  (∀ r, r ≠ p → r ≠ q → fs' !! r = fs !! r).
Proof.
  intros Hpq. unfold rename_if_exists, fs_rename. destruct (fs !! p) as [f|] eqn:E.
  - exists (<[q:=f]> (delete p fs)). split_and!; [done| | |].
    + by rewrite lookup_insert_ne, lookup_delete_eq.
    + by rewrite lookup_insert_eq.
    + intros r ? ?. by rewrite lookup_insert_ne, lookup_delete_ne.
  - by exists fs.
Qed.

Lemma remove_if_exists_delete p fs : remove_if_exists p fs = Ok (delete p fs).
Proof.
  unfold remove_if_exists, fs_remove_file. destruct (fs !! p) eqn:E; [done|].
  by rewrite delete_id.
Qed.

Lemma write_atomic_exec t p b fs :
  exec t (write_atomic p b) fs = (Ok tt, <[p := mkFile b t]> (delete (tmp_path p) fs)).
Proof.
  simpl. unfold fs_rename. rewrite lookup_insert_eq. simpl. do 2 f_equal.
  by rewrite delete_insert_eq.
Qed.

(** Before the rename the target still has its old contents. *)
Lemma write_atomic_crash t p b fs fs' :
  crash t (write_atomic p b) fs fs' →
  (∀ q, q ≠ tmp_path p → fs' !! q = fs !! q) ∨ fs' = <[p := mkFile b t]> (delete (tmp_path p) fs).
Proof.
  intros Hc. unfold write_atomic in Hc.
  inversion Hc as [| |op' ops' ? fs1 ? Hop Hc1]; subst; [by left| |].
  - left. intros q Hq. by rewrite lookup_insert_ne.
  - simpl in Hop. simplify_eq.
    inversion Hc1 as [| |op2 ops2 ? fs2 ? Hop2 Hc2]; subst.
    + left. intros q Hq. by rewrite lookup_insert_ne.
    + right. simpl in Hop2. unfold fs_rename in Hop2. rewrite lookup_insert_eq in Hop2. simplify_eq.
      inversion Hc2; subst. by rewrite delete_insert_eq.
Qed.

(** ** Due entries *)

(** What makes an entry due: its control file is committed, parses, and is not
    in the middle of a bounce, and its message file is there. *)
Definition due (now : Z) (fs : FS) (e : SpoolEntry) : Prop :=
  se_id e ≠ [] ∧ fs !! bouncing_marker (se_id e) = None ∧ is_Some (fs !! eml_path (se_id e)) ∧
  (∃ text, fs_read_to_string (ctrl_path (se_id e)) fs = Ok text ∧ parse_ctrl (se_id e) text = Ok e) ∧
  se_next_attempt_at e ≤ now.

Lemma parse_ctrl_id id text e : parse_ctrl id text = Ok e → se_id e = id.
Proof.
  unfold parse_ctrl. destruct (parse_ctrl_lines _ _) as [a|]; simpl; [|done].
  case_bool_decide; [done|].
  destruct (ca_attempts a), (ca_next a), (ca_created a); simpl; intros; by simplify_eq.
Qed.

Lemma due_entry_Some now fs name e :
  due_entry now fs name = Ok (Some e) ↔ name = with_ext (se_id e) CTRL ∧ due now fs e.
Proof.
  unfold due_entry, due, exists_. split.
  - destruct (split_ext name) as [id ext] eqn:Es. repeat case_bool_decide; simpl; try done.
    destruct ext as [ext|]; [|done]. simplify_eq.
    apply split_ext_Some in Es as (-> & _ & Hid).
    destruct (fs_read_to_string _ fs) as [text|] eqn:Er; simpl; [|done].
    destruct (parse_ctrl id text) as [e'|[]] eqn:Ep; try done.
    destruct (Z.leb_spec (se_next_attempt_at e') now); [|done]. intros [= ->].
    pose proof (parse_ctrl_id _ _ _ Ep) as ->. split_and!; try done.
    + by apply eq_None_not_Some.
    + by exists text.
  - intros (-> & Hid & Hm & He & (text & Hr & Hp) & Hn).
    rewrite with_ext_split by auto with snail.
    rewrite bool_decide_false by naive_solver.
    rewrite bool_decide_false by (rewrite Hm; apply is_Some_None).
    rewrite bool_decide_true by done. simpl.
    unfold ctrl_path in Hr. rewrite Hr. simpl. rewrite Hp.
    destruct (Z.leb_spec (se_next_attempt_at e) now); [done|lia].
Qed.

Lemma due_entries_Ok now fs names es :
  due_entries now fs names = Ok es →
  ∀ e, e ∈ es ↔ ∃ name, name ∈ names ∧ due_entry now fs name = Ok (Some e).
Proof.
  revert es. induction names as [|name names IH]; simpl; intros es H e.
  - simplify_eq. set_solver.
  - destruct (due_entry now fs name) as [o|] eqn:Ed; simpl in H; [|done].
    destruct (due_entries now fs names) as [es'|] eqn:Ees; simpl in H; [|done].
    specialize (IH _ eq_refl e). destruct o as [e'|]; simplify_eq; rewrite ?elem_of_cons, IH; split.
    + intros [->|(n & ? & ?)]; [exists name; set_solver|exists n; set_solver].
    + intros (n & [->|?]%elem_of_cons & Hn); [left; congruence|right; eauto].
    + intros (n & ? & ?); exists n; set_solver.
    + intros (n & [->|?]%elem_of_cons & Hn); [congruence|eauto].
Qed.

(** ** Listing the due entries *)

Section listing.
Context (read_dir : FS → Dir → list str).
(** [read_dir] lists the names of the directory, in any order. *)
Hypothesis read_dir_names : ∀ fs d name, name ∈ read_dir fs d ↔ is_Some (fs !! (d, name)).

#[local] Instance id_le_total : Total id_le.
Proof.
  intros a b. unfold id_le. generalize (se_id b) as y. induction (se_id a) as [|x s IH]; intros [|y s']; simpl; auto.
  destruct (Z.ltb_spec x y), (Z.ltb_spec y x), (Z.eqb_spec x y), (Z.eqb_spec y x); simpl; auto; lia.
Qed.

Lemma due_now_elem now fs es :
  due_now read_dir now fs = Ok es → Sorted id_le es ∧ ∀ e, e ∈ es ↔ due now fs e.
Proof.
  unfold due_now. destruct (due_entries now fs _) as [es'|] eqn:E; simpl; intros; simplify_eq.
  split; [apply Sorted_merge_sort, _|]. intros e.
  rewrite merge_sort_Permutation, (due_entries_Ok _ _ _ _ E). setoid_rewrite due_entry_Some. split.
  - by intros (? & _ & _ & ?).
  - intros Hd. exists (with_ext (se_id e) CTRL). split; [|done]. apply read_dir_names.
    destruct Hd as (_ & _ & _ & (text & Hr & _) & _). unfold fs_read_to_string, fs_read in Hr.
    change (Main, with_ext (se_id e) CTRL) with (ctrl_path (se_id e)).
    by destruct (fs !! ctrl_path (se_id e)).
Qed.

(** No control file is undecodable or holds a time past the clock's range. *)
Definition readable (fs : FS) : Prop :=
  ∀ id f, fs !! ctrl_path id = Some f →
  ∃ text, from_utf8 (f_data f) = Some text ∧ parse_ctrl id text ≠ Err Panicked.

Lemma due_entry_total now fs name :
  readable fs → is_Some (fs !! (Main, name)) → ∃ o, due_entry now fs name = Ok o.
Proof.
  intros Hr [f Hf]. unfold due_entry. destruct (split_ext name) as [id ext] eqn:Es.
  case_bool_decide; [eauto|]. destruct (exists_ _ _); [eauto|]. destruct (negb _); [eauto|].
  subst ext.
  apply split_ext_Some in Es as (-> & _ & _). destruct (Hr id f Hf) as (text & Ht & Hp).
  unfold fs_read_to_string, fs_read. rewrite Hf. simpl. rewrite Ht. simpl.
  destruct (parse_ctrl id text) as [|[]]; eauto. done.
Qed.

Lemma due_entries_total now fs names :
  readable fs → (∀ name, name ∈ names → is_Some (fs !! (Main, name))) →
  ∃ es, due_entries now fs names = Ok es.
Proof.
  intros Hr. induction names as [|n names IH]; intros Hn; simpl; [eauto|].
  destruct (due_entry_total now fs n Hr) as [o ->]; [apply Hn; set_solver|]. simpl.
  destruct IH as [es ->]; [intros; apply Hn; set_solver|]. simpl. eauto.
Qed.

(** The worker's view of the queue: in a readable spool [due_now] succeeds
    and returns, in the order of their ids, exactly the committed entries that
    are not being bounced, whose message file is present, and whose retry time
    has come. *)
Theorem due_now_spec (now : Z) (fs : FS) :
  readable fs →
  ∃ es, due_now read_dir now fs = Ok es ∧ Sorted id_le es ∧ ∀ e, e ∈ es ↔ due now fs e.
Proof.
  intros Hr. destruct (due_entries_total now fs (read_dir fs Main) Hr) as [es Hes].
  { intros name. apply read_dir_names. }
  eexists. assert (due_now read_dir now fs = Ok (merge_sort id_le es)) as H by (unfold due_now; by rewrite Hes).
  split; [exact H|by apply due_now_elem].
Qed.

Lemma due_entries_error now fs names name e :
  name ∈ names → due_entry now fs name = Err e → ∃ e', due_entries now fs names = Err e'.
Proof.
  induction 1 as [n ns|n m ns _ IH]; simpl; intros Hn; [rewrite Hn; simpl; eauto|].
  destruct (IH Hn) as [e' ->]. destruct (due_entry now fs m); simpl; eauto.
Qed.

(** One undecodable control file stops the whole queue: if a complete entry's
    [.ctrl] is not UTF-8, [due_now] fails for every entry, at any time, although
    it is documented to skip malformed control files. *)
Theorem due_now_undecodable (now : Z) (fs : FS) (id : str) (f : File) :
  id ≠ [] → fs !! ctrl_path id = Some f → from_utf8 (f_data f) = None →
  is_Some (fs !! eml_path id) → fs !! bouncing_marker id = None →
  ∃ e, due_now read_dir now fs = Err e.
Proof.
  intros Hid Hf Hu He Hm. unfold due_now.
  destruct (due_entries_error now fs (read_dir fs Main) (with_ext id CTRL) InvalidData) as [e ->].
  - apply read_dir_names. unfold ctrl_path in Hf. rewrite Hf. eauto.
  - unfold due_entry. rewrite with_ext_split by auto with snail.
    unfold exists_. rewrite bool_decide_false by naive_solver.
    rewrite bool_decide_false by (rewrite Hm; apply is_Some_None). rewrite bool_decide_true by done.
    simpl. unfold fs_read_to_string, fs_read. unfold ctrl_path in Hf. rewrite Hf. simpl. by rewrite Hu.
  - by exists e.
Qed.

End listing.

(** A [read_dir] for the witnesses. *)
Definition list_dir (fs : FS) (d : Dir) : list str :=
  map_to_list fs ≫= λ kv, if decide (kv.1.1 = d) then [kv.1.2] else [].

Lemma list_dir_names fs d name : name ∈ list_dir fs d ↔ is_Some (fs !! (d, name)).
Proof.
  unfold list_dir. rewrite list_elem_of_bind. split.
  - intros ([[d' n] f] & Hin & Hm). simpl in *. case_decide; [|set_solver].
    apply list_elem_of_singleton in Hin as ->. subst. apply elem_of_map_to_list in Hm. eauto.
  - intros [f Hf]. exists (d, name, f). split; [|by apply elem_of_map_to_list].
    simpl. rewrite decide_True by done. apply list_elem_of_singleton. done.
Qed.

(** Decide [readable] by computation. *)
Definition readableb (fs : FS) : bool :=
  forallb (λ kv, match strip_suffix (DOT :: CTRL) kv.1.2 with
                 | Some id => match from_utf8 (f_data kv.2) with
                              | Some text => bool_decide (parse_ctrl id text ≠ Err Panicked)
                              | None => false
                              end
                 | None => true
                 end) (map_to_list fs).
Lemma readableb_true fs : readableb fs = true → readable fs.
Proof.
  unfold readableb. rewrite forallb_forall. intros H id f Hf.
  specialize (H (ctrl_path id, f)). simpl in H. unfold with_ext in H.
  rewrite strip_suffix_app in H.
  destruct (from_utf8 (f_data f)) as [text|].
  - exists text. split; [done|]. eapply bool_decide_eq_true, H.
    apply list_elem_of_In, elem_of_map_to_list, Hf.
  - discriminate H. apply list_elem_of_In, elem_of_map_to_list, Hf.
Qed.

(** ** Queueing a message *)

Definition same_entry (id : str) (fs fs' : FS) : Prop :=
  fs' !! bouncing_marker id = fs !! bouncing_marker id ∧
  fs' !! eml_path id = fs !! eml_path id ∧ fs' !! ctrl_path id = fs !! ctrl_path id.

Lemma due_same now fs fs' e : same_entry (se_id e) fs fs' → due now fs' e ↔ due now fs e.
Proof. intros (Hm & He & Hc). unfold due, fs_read_to_string, fs_read. by rewrite Hm, He, Hc. Qed.

Lemma due_needs_ctrl now fs e : due now fs e → is_Some (fs !! ctrl_path (se_id e)).
Proof.
  intros (_ & _ & _ & (text & Hr & _) & _). unfold fs_read_to_string, fs_read in Hr.
  by destruct (fs !! ctrl_path (se_id e)).
Qed.

(** The entry of a message queued at [now]. *)
Definition new_entry (id : str) (env : Envelope) (now : Z) : SpoolEntry :=
  mkSpoolEntry id (env_sender env) (env_recipients env) 0 (secs (to_secs now)) (secs (to_secs now)).

Definition committed_fs (t : Z) (id : str) (eml ctrl : bytes) (fs : FS) : FS :=
  <[ctrl_path id := mkFile ctrl t]> (delete (tmp_path (ctrl_path id))
    (<[eml_path id := mkFile eml t]> (delete (tmp_path (eml_path id)) fs))).

Lemma exec_two_writes t id eml ctrl fs :
  exec t (write_atomic (eml_path id) eml ++ write_atomic (ctrl_path id) ctrl) fs =
  (Ok tt, committed_fs t id eml ctrl fs).
Proof.
  erewrite exec_app by apply write_atomic_exec.
  by rewrite write_atomic_exec.
Qed.

(** The states between the two commits: everything but the message file and the
    temporaries is as before. *)
Lemma crash_two_writes t id eml ctrl fs fs' :
  crash t (write_atomic (eml_path id) eml ++ write_atomic (ctrl_path id) ctrl) fs fs' →
  (∀ q, q ≠ tmp_path (eml_path id) → q ≠ tmp_path (ctrl_path id) → q ≠ eml_path id →
     fs' !! q = fs !! q) ∨
  fs' = committed_fs t id eml ctrl fs.
Proof.
  intros [Hc|(fs1 & He & Hc)]%crash_app.
  - apply write_atomic_crash in Hc as [Hc| ->]; left; intros q ? ? ?; [by apply Hc|].
    by rewrite lookup_insert_ne, lookup_delete_ne.
  - rewrite write_atomic_exec in He. simplify_eq.
    apply write_atomic_crash in Hc as [Hc| ->]; [left|by right].
    intros q ? ? ?. by rewrite Hc, lookup_insert_ne, lookup_delete_ne.
Qed.

Lemma same_entry_other t id id' eml ctrl fs : id' ≠ id → same_entry id' fs (committed_fs t id eml ctrl fs).
Proof. intros Hid. unfold same_entry, committed_fs. split_and!; by fs_simpl. Qed.

Lemma committed_lookup t id eml ctrl fs :
  committed_fs t id eml ctrl fs !! eml_path id = Some (mkFile eml t) ∧
  committed_fs t id eml ctrl fs !! ctrl_path id = Some (mkFile ctrl t) ∧
  committed_fs t id eml ctrl fs !! bouncing_marker id = fs !! bouncing_marker id.
Proof. unfold committed_fs. split_and!; by fs_simpl. Qed.

Lemma ctrl_chars env n next created :
  ctrl_safe_env env → 0 ≤ n → next ≤ SYSTIME_MAX → created ≤ SYSTIME_MAX →
  Forall (λ c, is_char c = true) (render_ctrl env n next created).
Proof.
  intros (_ & Hr & Hs) Hn Hx%to_secs_range Hc%to_secs_range.
  assert (∀ key v, forallb is_char key = true → Forall (λ c, is_char c = true) v →
    Forall (λ c, is_char c = true) (ctrl_line key v)) as Hl.
  { intros key v Hk Hv. unfold ctrl_line. rewrite !Forall_app. split_and!; [|by repeat constructor|done|by repeat constructor].
    apply Forall_forall. intros c Hin. rewrite forallb_forall in Hk. by apply Hk, list_elem_of_In. }
  assert (∀ m, 0 ≤ m → Forall (λ c, is_char c = true) (show m)) as Hsh.
  { intros m Hm%show_digits. eapply Forall_impl; [done|]. unfold is_ascii_digit, is_char. simpl. lia. }
  unfold render_ctrl. rewrite !Forall_app. split_and!; try (apply Hl; [by vm_compute|apply Hsh; lia]).
  - apply Hl; [by vm_compute|]. destruct (env_sender env) as [m|]; simpl in *; [apply Hs|constructor].
  - apply Forall_bind. eapply Forall_impl; [done|]. intros m Hm. apply Hl; [by vm_compute|apply Hm].
Qed.

Lemma read_ctrl fs p t env n next created :
  ctrl_safe_env env → 0 ≤ n → next ≤ SYSTIME_MAX → created ≤ SYSTIME_MAX →
  fs !! p = Some (mkFile (utf8_encode (render_ctrl env n next created)) t) →
  fs_read_to_string p fs = Ok (render_ctrl env n next created).
Proof.
  intros ? ? ? ? Hp. unfold fs_read_to_string, fs_read. rewrite Hp.
  cbn [fmap option_fmap option_map f_data ok_or mbind result_bind].
  by rewrite from_utf8_encode by by apply ctrl_chars.
Qed.

Lemma due_determined now fs e id text :
  fs_read_to_string (ctrl_path id) fs = Ok text → se_id e = id → due now fs e → parse_ctrl id text = Ok e.
Proof. intros Hr <- (_ & _ & _ & (text' & Hr' & Hp) & _). congruence. Qed.

(** The queue after a message with envelope [env] is committed. *)
Section committed.
Context (env : Envelope) (m : Message) (id : str) (now : Z) (fs : FS).
Hypothesis Hmenv : msg_envelope m = env.
Hypothesis Henv : ctrl_safe_env env.
Hypothesis Hnow : now ≤ SYSTIME_MAX.

Definition enqueued_fs : FS :=
  committed_fs now id (Message_to_bytes m) (utf8_encode (render_ctrl (msg_envelope m) 0 now now)) fs.

Lemma enqueued_ctrl :
  fs_read_to_string (ctrl_path id) enqueued_fs = Ok (render_ctrl env 0 now now) ∧
  parse_ctrl id (render_ctrl env 0 now now) = Ok (new_entry id env now).
Proof.
  split; [|apply parse_render_ctrl; [done|done|done|done]].
  eapply read_ctrl; [done..|]. unfold enqueued_fs. rewrite Hmenv. apply committed_lookup.
Qed.

Lemma enqueued_load raw : Message_parse env raw = Ok m → load_message id enqueued_fs = Ok m.
Proof.
  intros Hparse. destruct enqueued_ctrl as [Hc Hp]. unfold load_message, fs_read.
  rewrite Hc. destruct (committed_lookup now id (Message_to_bytes m)
    (utf8_encode (render_ctrl (msg_envelope m) 0 now now)) fs) as (He & _).
  fold enqueued_fs in He. rewrite He. cbn [fmap option_fmap option_map ok_or mbind result_bind f_data].
  rewrite Hp. cbn [mbind result_bind].
  assert (Message_to_bytes m = raw) as ->.
  { destruct (Message_parse_inv _ _ _ Hparse) as (_ & Hh & Hb & _).
    unfold Message_to_bytes. by rewrite Hh, Hb, take_drop. }
  replace (entry_envelope _) with env by by destruct env. by rewrite Hparse.
Qed.

Lemma enqueued_due :
  id ≠ [] → fs !! ctrl_path id = None → fs !! bouncing_marker id = None →
  ∀ t e, due t enqueued_fs e ↔ due t fs e ∨ (e = new_entry id env now ∧ secs (to_secs now) ≤ t).
Proof.
  intros Hid Hfresh Hmark t e.
  destruct enqueued_ctrl as [Hc Hp]. destruct (decide (se_id e = id)) as [Heq|Hne].
  - split.
    + intros Hd. right. pose proof (due_determined _ _ _ _ _ Hc Heq Hd) as E.
      rewrite Hp in E. injection E as <-. split; [done|]. by destruct Hd as (_ & _ & _ & _ & ?).
    + intros [Hd%due_needs_ctrl|[-> Ht]]; [rewrite Heq, Hfresh in Hd; by apply is_Some_None in Hd|].
      unfold due, new_entry. simpl. destruct (committed_lookup now id (Message_to_bytes m)
        (utf8_encode (render_ctrl (msg_envelope m) 0 now now)) fs) as (He & _ & Hb).
      fold enqueued_fs in He, Hb. split_and!; [done|by rewrite Hb|by rewrite He| |done].
      eexists. split; [apply Hc|]. apply Hp.
  - rewrite due_same by (by apply same_entry_other). split; [by left|].
    intros [?|[-> _]]; [done|]. by simpl in Hne.
Qed.
End committed.

Section enqueue.
Context (env : Envelope) (raw : bytes) (m : Message) (id : str) (now : Z) (fs : FS).
Hypothesis Hparse : Message_parse env raw = Ok m.
Hypothesis Henv : ctrl_safe_env env.
Hypothesis Hnow : now ≤ SYSTIME_MAX.
Hypothesis Hid : id ≠ [].
Hypothesis Hfresh : fs !! ctrl_path id = None.
Hypothesis Hmark : fs !! bouncing_marker id = None.

Lemma parsed_envelope : msg_envelope m = env.
Proof. by destruct (Message_parse_inv _ _ _ Hparse) as (He & _). Qed.
#[local] Hint Resolve parsed_envelope : core.

(** C12: queueing is atomic.  Stop [enqueue] anywhere (after any of its file system
    calls, or part way through a write): either the queue is exactly as it was,
    or the new message is due as well and [load_message] gives back the whole
    message with its envelope; no half-written entry is ever visible. *)
Theorem enqueue_crash_atomic (fs' : FS) :
  crash now (enqueue_ops id now m) fs fs' →
  (∀ t e, due t fs' e ↔ due t fs e) ∨
  (load_message id fs' = Ok m ∧
   ∀ t e, due t fs' e ↔ due t fs e ∨ (e = new_entry id env now ∧ secs (to_secs now) ≤ t)).
Proof.
  intros [Hsame| ->]%crash_two_writes; [left|right; split; [apply (enqueued_load env m id now fs parsed_envelope Henv Hnow raw Hparse)
    |by apply (enqueued_due env m id now fs parsed_envelope)]].
  intros t e. destruct (decide (se_id e = id)) as [Heq|Hne].
  - split; intros Hd%due_needs_ctrl; rewrite Heq in Hd.
    + rewrite Hsame, Hfresh in Hd by path_ne. by apply is_Some_None in Hd.
    + rewrite Hfresh in Hd. by apply is_Some_None in Hd.
  - apply due_same. split_and!; apply Hsame; path_ne.
Qed.

(** A completed [enqueue] reports success and the message is then both due and
    loadable, byte for byte. *)
Theorem enqueue_commits (counter : Z) :
  0 ≤ now → id = new_id now counter →
  ∃ s', enqueue now m (mkSpool fs counter) = (Ok id, s') ∧
  sp_counter s' = add_u64 counter 1 ∧ load_message id (sp_fs s') = Ok m ∧
  due now (sp_fs s') (new_entry id env now).
Proof.
  intros Hpos Hni. unfold enqueue. cbn [sp_fs sp_counter]. rewrite <-Hni. unfold enqueue_ops.
  rewrite exec_two_writes. eexists. split; [done|]. cbn [sp_fs sp_counter].
  split_and!; [done|apply (enqueued_load env m id now fs parsed_envelope Henv Hnow raw Hparse)|].
  apply (enqueued_due env m id now fs parsed_envelope); [done..|]. right. split; [done|].
  unfold secs, to_secs, duration_since. destruct (Z.leb_spec 0 now); [simpl|lia].
  rewrite Z.sub_0_r. pose proof (Z.mul_div_le now NANOS). unfold NANOS in *. lia.
Qed.
End enqueue.

(** A spool with one queued message. *)
Definition spool_raw : bytes := lit "Subject: hi" ++ CRLF ++ CRLF ++ lit "body" ++ CRLF.
Definition spool_msg : Message :=
  mkMessage spool_env [(lit "Subject", lit "hi")] (lit "body" ++ CRLF) (lit "Subject: hi" ++ CRLF ++ CRLF).
Definition spool_now : Z := secs 1700000000.
Definition spool_id : str := new_id spool_now 0.
Definition spool_one : FS := (exec spool_now (enqueue_ops spool_id spool_now spool_msg) ∅).2.

Lemma enqueue_crash_atomic_witness :
  let fs' := <[tmp_path (eml_path spool_id) := mkFile (lit "Subj") spool_now]> (∅ : FS) in
  (∀ t e, due t fs' e ↔ due t ∅ e) ∨
  (load_message spool_id fs' = Ok spool_msg ∧
   ∀ t e, due t fs' e ↔
     due t ∅ e ∨ (e = new_entry spool_id spool_env spool_now ∧ secs (to_secs spool_now) ≤ t)).
Proof.
  intros fs'. apply (enqueue_crash_atomic spool_env spool_raw spool_msg spool_id spool_now ∅).
  - by vm_compute.
  - apply spool_env_safe.
  - by vm_compute.
  - by vm_compute.
  - done.
  - done.
  - apply crash_write. exists (lit "ect: hi" ++ CRLF ++ CRLF ++ lit "body" ++ CRLF). by vm_compute.
Defined.

Lemma enqueue_commits_witness :
  ∃ s', enqueue spool_now spool_msg (mkSpool ∅ 0) = (Ok spool_id, s') ∧
  sp_counter s' = add_u64 0 1 ∧ load_message spool_id (sp_fs s') = Ok spool_msg ∧
  due spool_now (sp_fs s') (new_entry spool_id spool_env spool_now).
Proof.
  apply (enqueue_commits spool_env spool_raw spool_msg spool_id spool_now ∅);
    [by vm_compute|apply spool_env_safe|by vm_compute|by vm_compute|done|done|by vm_compute|done].
Defined.

Lemma due_now_spec_witness :
  ∃ es, due_now list_dir spool_now spool_one = Ok es ∧ Sorted id_le es ∧
  ∀ e, e ∈ es ↔ due spool_now spool_one e.
Proof.
  apply (due_now_spec list_dir list_dir_names spool_now spool_one).
  apply readableb_true. by vm_compute.
Defined.

Lemma due_now_undecodable_witness :
  ∃ e, due_now list_dir spool_now (<[ctrl_path spool_id := mkFile [255] 0]> spool_one) = Err e.
Proof.
  apply (due_now_undecodable list_dir list_dir_names spool_now
           (<[ctrl_path spool_id := mkFile [255] 0]> spool_one) spool_id (mkFile [255] 0)).
  - by vm_compute.
  - apply lookup_insert_eq.
  - by vm_compute.
  - by apply (bool_decide_eq_true (is_Some _)); vm_compute.
  - by vm_compute.
Defined.

(** ** Bouncing *)

(** A file of the entry is in the main directory or already moved. *)
Definition located (main bounced : Path) (f : File) (fs : FS) : Prop :=
  fs !! main = Some f ∨ (fs !! main = None ∧ fs !! bounced = Some f).

Definition in_main (id : str) (fe fc : File) (fs : FS) : Prop :=
  fs !! eml_path id = Some fe ∧ fs !! ctrl_path id = Some fc.
Definition in_bounced (id : str) (fe fc : File) (fs : FS) : Prop :=
  fs !! bouncing_marker id = None ∧ fs !! eml_path id = None ∧ fs !! ctrl_path id = None ∧
  fs !! bounced_eml id = Some fe ∧ fs !! bounced_ctrl id = Some fc.
(** Part way: the marker is there, and neither file is lost. *)
Definition moving (id : str) (fe fc : File) (fs : FS) : Prop :=
  is_Some (fs !! bouncing_marker id) ∧
  located (eml_path id) (bounced_eml id) fe fs ∧ located (ctrl_path id) (bounced_ctrl id) fc fs.

(** What a call that leaves an entry's five paths alone preserves. *)
Definition same_paths (id : str) (fs fs' : FS) : Prop :=
  same_entry id fs fs' ∧ fs' !! bounced_eml id = fs !! bounced_eml id ∧
  fs' !! bounced_ctrl id = fs !! bounced_ctrl id.

Lemma moving_same id fe fc fs fs' : same_paths id fs fs' → moving id fe fc fs → moving id fe fc fs'.
Proof. intros ((Hm & He & Hc) & Hbe & Hbc). unfold moving, located. by rewrite Hm, He, Hc, Hbe, Hbc. Qed.
Lemma in_main_same id fe fc fs fs' : same_paths id fs fs' → in_main id fe fc fs → in_main id fe fc fs'.
Proof. intros ((Hm & He & Hc) & Hbe & Hbc). unfold in_main. by rewrite He, Hc. Qed.
Lemma in_bounced_same id fe fc fs fs' : same_paths id fs fs' → in_bounced id fe fc fs → in_bounced id fe fc fs'.
Proof. intros ((Hm & He & Hc) & Hbe & Hbc). unfold in_bounced. by rewrite Hm, He, Hc, Hbe, Hbc. Qed.
Lemma same_paths_refl id fs : same_paths id fs fs.
Proof. by split_and!. Qed.
Lemma same_paths_trans id fs1 fs2 fs3 :
  same_paths id fs1 fs2 → same_paths id fs2 fs3 → same_paths id fs1 fs3.
Proof. unfold same_paths, same_entry. intuition congruence. Qed.

(** Moving one file that is located keeps it located, and then in [bounced/]. *)
Lemma relocate_one p q f fs :
  p ≠ q → located p q f fs →
  ∃ fs', rename_if_exists p q fs = Ok fs' ∧ fs' !! p = None ∧ fs' !! q = Some f ∧
  ∀ r, r ≠ p → r ≠ q → fs' !! r = fs !! r.
Proof.
  intros Hpq Hl. destruct (rename_if_exists_lookup p q fs Hpq) as (fs' & ? & ? & Hq & ?).
  exists fs'. split_and!; [done|done| |done]. rewrite Hq.
  by destruct Hl as [-> | [-> ?]].
Qed.

(** The three calls that finish a bounce, and the states a crash among them leaves. *)
Definition finish_ops (id : str) : list FsOp := relocate_to_bounced id ++ [RemoveIfExists (bouncing_marker id)].

Lemma finish_steps t id fe fc fs :
  moving id fe fc fs →
  ∃ fs1 fs2, exec_op t (RenameIfExists (eml_path id) (bounced_eml id)) fs = Ok fs1 ∧
    exec_op t (RenameIfExists (ctrl_path id) (bounced_ctrl id)) fs1 = Ok fs2 ∧
    moving id fe fc fs1 ∧ moving id fe fc fs2 ∧
    in_bounced id fe fc (delete (bouncing_marker id) fs2).
Proof.
  intros (Hm & He & Hc).
  destruct (relocate_one (eml_path id) (bounced_eml id) fe fs) as (fs1 & H1 & E1 & B1 & O1); [path_ne|done|].
  assert (located (ctrl_path id) (bounced_ctrl id) fc fs1) as Hc1.
  { unfold located. rewrite !O1 by path_ne. done. }
  destruct (relocate_one (ctrl_path id) (bounced_ctrl id) fc fs1) as (fs2 & H2 & E2 & B2 & O2); [path_ne|done|].
  exists fs1, fs2. split_and!; [done|done|..].
  - split_and!; [by rewrite O1 by path_ne|by right|done].
  - split_and!; [by rewrite O2, O1 by path_ne| |by right].
    right. by rewrite !O2 by path_ne.
  - unfold in_bounced. fs_simpl. split_and!; [done|by rewrite O2 by path_ne|done|by rewrite O2 by path_ne|done].
Qed.

Lemma finish_exec t id fe fc fs :
  moving id fe fc fs →
  ∃ fs', exec t (finish_ops id) fs = (Ok tt, fs') ∧ in_bounced id fe fc fs'.
Proof.
  intros (fs1 & fs2 & H1 & H2 & _ & _ & Hb)%(finish_steps t). eexists. split; [|done].
  unfold finish_ops, relocate_to_bounced. cbn [app exec]. rewrite H1, H2. cbn [exec_op].
  by rewrite remove_if_exists_delete.
Qed.

Lemma finish_crash t id fe fc fs fs' :
  moving id fe fc fs → crash t (finish_ops id) fs fs' → moving id fe fc fs' ∨ in_bounced id fe fc fs'.
Proof.
  intros Hmv. destruct (finish_steps t _ _ _ _ Hmv) as (fs1 & fs2 & H1 & H2 & M1 & M2 & Hb).
  unfold finish_ops, relocate_to_bounced. intros Hc.
  inversion Hc as [| |? ? ? f1 ? Hop1 Hc1]; subst; [by left|]. rewrite H1 in Hop1. simplify_eq.
  inversion Hc1 as [| |? ? ? f2 ? Hop2 Hc2]; subst; [by left|]. rewrite H2 in Hop2. simplify_eq.
  inversion Hc2 as [| |? ? ? f3 ? Hop3 Hc3]; subst; [by left|].
  cbn [exec_op] in Hop3. rewrite remove_if_exists_delete in Hop3. simplify_eq.
  inversion Hc3; subst. by right.
Qed.

(** Once in [bounced/], an entry stays there when its bounce is finished again. *)
Lemma finish_again t id fe fc fs :
  in_bounced id fe fc fs → exec t (finish_ops id) fs = (Ok tt, fs) ∧
  ∀ fs', crash t (finish_ops id) fs fs' → in_bounced id fe fc fs'.
Proof.
  intros (M & E & C & BE & BC).
  assert (rename_if_exists (eml_path id) (bounced_eml id) fs = Ok fs) as H1.
  { unfold rename_if_exists, fs_rename. by rewrite E. }
  assert (rename_if_exists (ctrl_path id) (bounced_ctrl id) fs = Ok fs) as H2.
  { unfold rename_if_exists, fs_rename. by rewrite C. }
  unfold finish_ops, relocate_to_bounced. split.
  - cbn [app exec exec_op]. by rewrite H1, H2, remove_if_exists_delete, delete_id.
  - intros fs' Hc.
    inversion Hc as [| |? ? ? f1 ? Hop1 Hc1]; subst; [done|]. simpl in Hop1. rewrite H1 in Hop1. simplify_eq.
    inversion Hc1 as [| |? ? ? f2 ? Hop2 Hc2]; subst; [done|]. simpl in Hop2. rewrite H2 in Hop2. simplify_eq.
    inversion Hc2 as [| |? ? ? f3 ? Hop3 Hc3]; subst; [done|].
    cbn [exec_op] in Hop3. rewrite remove_if_exists_delete in Hop3. simplify_eq.
    inversion Hc3; subst. unfold in_bounced. by fs_simpl.
Qed.

(** Finishing another entry's bounce. *)
Lemma finish_other t id id' fs :
  id' ≠ id →
  (∃ fs', exec t (finish_ops id') fs = (Ok tt, fs') ∧ same_paths id fs fs') ∧
  ∀ fs', crash t (finish_ops id') fs fs' → same_paths id fs fs'.
Proof.
  intros Hid.
  destruct (rename_if_exists_lookup (eml_path id') (bounced_eml id') fs) as (fs1 & H1 & _ & _ & O1); [path_ne|].
  destruct (rename_if_exists_lookup (ctrl_path id') (bounced_ctrl id') fs1) as (fs2 & H2 & _ & _ & O2); [path_ne|].
  assert (same_paths id fs fs1) as S1 by (unfold same_paths, same_entry; split_and!; apply O1; path_ne).
  assert (same_paths id fs fs2) as S2.
  { eapply same_paths_trans; [apply S1|]. unfold same_paths, same_entry; split_and!; apply O2; path_ne. }
  assert (same_paths id fs (delete (bouncing_marker id') fs2)) as S3.
  { eapply same_paths_trans; [apply S2|]. unfold same_paths, same_entry; split_and!; by fs_simpl. }
  unfold finish_ops, relocate_to_bounced. split.
  - eexists. split; [|exact S3]. cbn [app exec exec_op]. by rewrite H1, H2, remove_if_exists_delete.
  - intros fs' Hc.
    inversion Hc as [| |? ? ? f1 ? Hop1 Hc1]; subst; [apply same_paths_refl|].
    simpl in Hop1. rewrite H1 in Hop1. simplify_eq.
    inversion Hc1 as [| |? ? ? f2 ? Hop2 Hc2]; subst; [done|]. simpl in Hop2. rewrite H2 in Hop2. simplify_eq.
    inversion Hc2 as [| |? ? ? f3 ? Hop3 Hc3]; subst; [done|].
    cbn [exec_op] in Hop3. rewrite remove_if_exists_delete in Hop3. simplify_eq.
    by inversion Hc3; subst.
Qed.

(** Where an entry can be found after any number of crashes. *)
Definition entry_safe (id : str) (fe fc : File) (fs : FS) : Prop :=
  (in_main id fe fc fs ∧ fs !! bouncing_marker id = None) ∨ moving id fe fc fs ∨ in_bounced id fe fc fs.

Lemma recover_name_cases name :
  (recover_name name = [] ∧ ∀ id, id ≠ [] → name ≠ with_ext id BOUNCING) ∨
  ∃ id, id ≠ [] ∧ name = with_ext id BOUNCING ∧ recover_name name = finish_ops id.
Proof.
  unfold recover_name. destruct (split_ext name) as [id ext] eqn:Es. case_bool_decide as Hb.
  - left. split; [done|]. intros id' Hid ->. rewrite with_ext_split in Es by auto with snail. by simplify_eq.
  - right. subst ext. apply split_ext_Some in Es as (-> & _ & ?). by exists id.
Qed.

(** One name of the recovery loop, seen from one entry. *)
Lemma recover_name_step t id fe fc name fs :
  moving id fe fc fs ∨ in_bounced id fe fc fs →
  (∃ fs', exec t (recover_name name) fs = (Ok tt, fs') ∧
     (moving id fe fc fs' ∨ in_bounced id fe fc fs') ∧
     (name = with_ext id BOUNCING → id ≠ [] → in_bounced id fe fc fs') ∧
     (in_bounced id fe fc fs → in_bounced id fe fc fs')) ∧
  ∀ fs', crash t (recover_name name) fs fs' → moving id fe fc fs' ∨ in_bounced id fe fc fs'.
Proof.
  intros HP. destruct (recover_name_cases name) as [[-> Hn]|(id' & Hid' & -> & ->)].
  { split; [exists fs; split_and!; naive_solver|]. intros fs' Hc. by inversion Hc; subst. }
  destruct (decide (id' = id)) as [->|Hne].
  - destruct HP as [Hm|Hb].
    + destruct (finish_exec t _ _ _ _ Hm) as (fs' & He & Hb). split; [exists fs'; split_and!; auto|].
      intros fs2. by apply finish_crash.
    + destruct (finish_again t _ _ _ _ Hb) as [He Hc]. split; [exists fs; split_and!; auto|].
      intros fs2 Hc2. right. by apply Hc.
  - destruct (finish_other t id id' fs Hne) as [(fs' & He & Hs) Hc]. split.
    + exists fs'. split_and!; [done| | |].
      * destruct HP; [left; by eapply moving_same|right; by eapply in_bounced_same].
      * intros [? _]%with_ext_inj; [done|by auto with snail..].
      * by apply in_bounced_same.
    + intros fs2 Hs2%Hc. destruct HP; [left; by eapply moving_same|right; by eapply in_bounced_same].
Qed.

Lemma recover_names_moving t id fe fc names fs :
  moving id fe fc fs ∨ in_bounced id fe fc fs →
  (∃ fs', exec t (names ≫= recover_name) fs = (Ok tt, fs') ∧
     (moving id fe fc fs' ∨ in_bounced id fe fc fs') ∧
     (with_ext id BOUNCING ∈ names → id ≠ [] → in_bounced id fe fc fs') ∧
     (in_bounced id fe fc fs → in_bounced id fe fc fs')) ∧
  ∀ fs', crash t (names ≫= recover_name) fs fs' → moving id fe fc fs' ∨ in_bounced id fe fc fs'.
Proof.
  revert fs. induction names as [|name names IH]; intros fs HP.
  { split; [exists fs; split_and!; [done|done|set_solver|done]|]. intros fs' Hc. by inversion Hc; subst. }
  rewrite bind_cons. destruct (recover_name_step t id fe fc name fs HP) as [(fs1 & He1 & HP1 & Hn1 & Hb1) Hc1].
  destruct (IH fs1 HP1) as [(fs2 & He2 & HP2 & Hn2 & Hb2) Hc2]. split.
  - exists fs2. split_and!; [by rewrite (exec_app _ _ _ _ _ He1)|done| |auto].
    intros [<-|Hin]%elem_of_cons Hid; auto.
  - intros fs' [Hc|(fs1' & He & Hc)]%crash_app; [by apply Hc1|].
    rewrite He1 in He. simplify_eq. by apply Hc2.
Qed.

Lemma recover_names_other t id names fs :
  id ≠ [] → with_ext id BOUNCING ∉ names →
  (∃ fs', exec t (names ≫= recover_name) fs = (Ok tt, fs') ∧ same_paths id fs fs') ∧
  ∀ fs', crash t (names ≫= recover_name) fs fs' → same_paths id fs fs'.
Proof.
  intros Hid. revert fs. induction names as [|name names IH]; intros fs Hnin.
  { split; [exists fs; split; [done|apply same_paths_refl]|]. intros fs' Hc. inversion Hc; subst. apply same_paths_refl. }
  rewrite bind_cons. apply not_elem_of_cons in Hnin as [Hne Hnin].
  assert ((∃ fs', exec t (recover_name name) fs = (Ok tt, fs') ∧ same_paths id fs fs') ∧
    ∀ fs', crash t (recover_name name) fs fs' → same_paths id fs fs') as [(fs1 & He1 & Hs1) Hc1].
  { destruct (recover_name_cases name) as [[-> Hn]|(id' & Hid' & -> & ->)].
    - split; [exists fs; split; [done|apply same_paths_refl]|]. intros fs' Hc. inversion Hc; subst. apply same_paths_refl.
    - apply finish_other. by intros ->. }
  destruct (IH fs1 Hnin) as [(fs2 & He2 & Hs2) Hc2]. split.
  - exists fs2. split; [by rewrite (exec_app _ _ _ _ _ He1)|by eapply same_paths_trans].
  - intros fs' [Hc|(fs1' & He & Hc)]%crash_app; [by apply Hc1|].
    rewrite He1 in He. simplify_eq. eapply same_paths_trans; [done|]. by apply Hc2.
Qed.

Lemma bounce_crash_entry t id fe fc fs fs' :
  in_main id fe fc fs → crash t (bounce_ops id) fs fs' → entry_safe id fe fc fs'.
Proof.
  intros [He Hc] Hcr. unfold bounce_ops in Hcr.
  assert (∀ b, moving id fe fc (<[bouncing_marker id := mkFile b t]> fs)) as Hmv.
  { intros b. unfold moving, located. fs_simpl. split_and!; [by eauto|by left..]. }
  inversion Hcr as [| |? ? ? f1 ? Hop1 Hc1]; subst.
  - destruct (fs' !! bouncing_marker id) eqn:Em; [right; left|by left].
    unfold moving, located. split_and!; [by eauto|by left..].
  - right; left. apply Hmv.
  - simpl in Hop1. simplify_eq. right. eapply finish_crash; [apply Hmv|done].
Qed.

Section recovery.
Context (read_dir : FS → Dir → list str).
Hypothesis read_dir_names : ∀ fs d name, name ∈ read_dir fs d ↔ is_Some (fs !! (d, name)).

(** The server starts and is stopped again anywhere in its recovery. *)
Definition crashed_restart (fs fs' : FS) : Prop := ∃ t, crash t (recover_ops read_dir fs) fs fs'.

Lemma restart_entry id fe fc fs fs' :
  id ≠ [] → entry_safe id fe fc fs → crashed_restart fs fs' → entry_safe id fe fc fs'.
Proof.
  intros Hid [[Hm Hn]|HP] [t Hc].
  - destruct (recover_names_other t id (read_dir fs Main) fs Hid) as [_ Hs].
    { rewrite read_dir_names. unfold bouncing_marker in Hn. rewrite Hn. apply is_Some_None. }
    apply Hs in Hc. left. split; [by eapply in_main_same|]. by rewrite (proj1 (proj1 Hc)).
  - right. destruct (recover_names_moving t id fe fc (read_dir fs Main) fs HP) as [_ Hs]. by apply Hs.
Qed.

(** C11: a bounce never loses mail.  Stop [bounce] anywhere, then restart the server
    any number of times, each restart stopped anywhere in its recovery: the next
    recovery that runs to its end succeeds, and then the entry is either queued
    as before with no marker left, or both its files are in [bounced/], with
    their contents, and nothing of it is left in the queue. *)
Theorem bounce_crash_safe (t t' : Z) (id : str) (fe fc : File) (fs fs1 fs2 : FS) :
  id ≠ [] → in_main id fe fc fs →
  crash t (bounce_ops id) fs fs1 → rtc crashed_restart fs1 fs2 →
  ∃ fs3, recover_interrupted_bounces read_dir t' fs2 = (Ok tt, fs3) ∧
  ((in_main id fe fc fs3 ∧ fs3 !! bouncing_marker id = None) ∨ in_bounced id fe fc fs3).
Proof.
  intros Hid Hmain Hc Hr. assert (entry_safe id fe fc fs2) as Hsafe.
  { apply (bounce_crash_entry _ _ _ _ _ _ Hmain) in Hc. induction Hr; [done|]. eauto using restart_entry. }
  unfold recover_interrupted_bounces, recover_ops. destruct Hsafe as [[Hm Hn]|HP].
  - destruct (recover_names_other t' id (read_dir fs2 Main) fs2 Hid) as [(fs3 & He & Hs) _].
    { rewrite read_dir_names. unfold bouncing_marker in Hn. rewrite Hn. apply is_Some_None. }
    exists fs3. split; [done|left]. split; [by eapply in_main_same|]. by rewrite (proj1 (proj1 Hs)).
  - destruct (recover_names_moving t' id fe fc (read_dir fs2 Main) fs2 HP)
      as [(fs3 & He & _ & Hn & Hb) _].
    exists fs3. split; [done|right]. destruct HP as [Hm|?]; [|by auto].
    apply Hn; [|done]. apply read_dir_names, Hm.
Qed.

End recovery.

Lemma bounce_completes t id fe fc fs :
  in_main id fe fc fs → ∃ fs', bounce t id fs = (Ok tt, fs') ∧ in_bounced id fe fc fs'.
Proof.
  intros [He Hc]. unfold bounce, bounce_ops. cbn [exec exec_op]. apply finish_exec.
  unfold moving, located. fs_simpl. split_and!; [by eauto|by left..].
Qed.

Definition spool_fe : File := mkFile (Message_to_bytes spool_msg) spool_now.
Definition spool_fc : File :=
  mkFile (utf8_encode (render_ctrl spool_env 0 spool_now spool_now)) spool_now.

(** The crash the marker exists for: the message file has moved, the control file has not. *)
Definition spool_half : FS :=
  <[bounced_eml spool_id := spool_fe]> (delete (eml_path spool_id)
    (<[bouncing_marker spool_id := mkFile (utf8_encode spool_id) 5]> spool_one)).

Lemma bounce_crash_safe_witness :
  ∃ fs3, recover_interrupted_bounces list_dir 6 spool_half = (Ok tt, fs3) ∧
  ((in_main spool_id spool_fe spool_fc fs3 ∧ fs3 !! bouncing_marker spool_id = None) ∨
   in_bounced spool_id spool_fe spool_fc fs3).
Proof.
  apply (bounce_crash_safe list_dir list_dir_names 5 6 spool_id spool_fe spool_fc spool_one spool_half).
  - by vm_compute.
  - split; by vm_compute.
  - eapply crash_later; [done|].
    apply (crash_later 5 _ _ _ spool_half); [|apply crash_here].
    cbn [exec_op]. unfold rename_if_exists, fs_rename.
    replace (_ !! eml_path spool_id) with (Some spool_fe) by by vm_compute. done.
  - done.
Defined.

(** ** Rescheduling and removal *)

Lemma defer_spec_core (t : Z) (id : str) (n next : Z) (fs : FS) (text : str) (e : SpoolEntry) :
  fs_read_to_string (ctrl_path id) fs = Ok text → parse_ctrl id text = Ok e →
  ctrl_safe_env (entry_envelope e) → 0 ≤ n ≤ U32_MAX → next ≤ SYSTIME_MAX → 
  se_created_at e ≤ SYSTIME_MAX → se_created_at e = secs (to_secs (se_created_at e)) →
  ∃ fs' text' ops,
    defer_ops id n next fs = Ok ops ∧
    defer t id n next fs = (Ok tt, fs') ∧
    fs_read_to_string (ctrl_path id) fs' = Ok text' ∧
    parse_ctrl id text' =
      Ok (mkSpoolEntry id (se_sender e) (se_recipients e) n (secs (to_secs next)) (se_created_at e)) ∧
    fs' !! eml_path id = fs !! eml_path id ∧
    ∀ fs'', crash t ops fs fs'' →
      fs'' !! eml_path id = fs !! eml_path id ∧
      (fs_read_to_string (ctrl_path id) fs'' = Ok text ∨ fs_read_to_string (ctrl_path id) fs'' = Ok text').
Proof.
  intros Hr Hp Henv Hn Hx Hc Hs. set (text' := render_ctrl (entry_envelope e) n next (se_created_at e)).
  set (new := <[ctrl_path id := mkFile (utf8_encode text') t]> (delete (tmp_path (ctrl_path id)) fs)).
  assert (fs_read_to_string (ctrl_path id) new = Ok text') as Hnew.
  { eapply read_ctrl; [done|lia|done|done|]. apply lookup_insert_eq. }
  exists new, text'. eexists. unfold defer, defer_ops. rewrite Hr. cbn [mbind result_bind].
  rewrite Hp. cbn [mbind result_bind]. split_and!; [done|by rewrite write_atomic_exec|done| | |].
  - unfold text'. rewrite parse_render_ctrl by done. by rewrite <-Hs.
  - unfold new. by fs_simpl.
  - intros fs'' [Hq| ->]%write_atomic_crash.
    + split; [apply Hq; path_ne|]. left. rewrite <-Hr.
      unfold fs_read_to_string, fs_read. rewrite Hq by path_ne. done.
    + split; [by fs_simpl|by right].
Qed.

(** Rescheduling: [defer] on an entry succeeds, changes its attempt count and
    its next attempt (to the second) and nothing else; the message file is not
    touched, and a crash part way leaves the control record either old or new. *)
Theorem defer_spec (t : Z) (id : str) (n next : Z) (fs : FS) (text : str) (e : SpoolEntry) :
  fs_read_to_string (ctrl_path id) fs = Ok text → parse_ctrl id text = Ok e →
  ctrl_safe_env (entry_envelope e) → 0 ≤ n ≤ U32_MAX → next ≤ SYSTIME_MAX → 
  se_created_at e ≤ SYSTIME_MAX → se_created_at e = secs (to_secs (se_created_at e)) →
  ∃ fs' text' ops,
    defer_ops id n next fs = Ok ops ∧
    defer t id n next fs = (Ok tt, fs') ∧
    fs_read_to_string (ctrl_path id) fs' = Ok text' ∧
    parse_ctrl id text' =
      Ok (mkSpoolEntry id (se_sender e) (se_recipients e) n (secs (to_secs next)) (se_created_at e)) ∧
    fs' !! eml_path id = fs !! eml_path id ∧
    ∀ fs'', crash t ops fs fs'' →
      fs'' !! eml_path id = fs !! eml_path id ∧
      (fs_read_to_string (ctrl_path id) fs'' = Ok text ∨ fs_read_to_string (ctrl_path id) fs'' = Ok text').
Proof. apply defer_spec_core. Qed.

Lemma defer_spec_witness :
  ∃ fs' text' ops,
    defer_ops spool_id 1 (secs 1700000120) spool_one = Ok ops ∧
    defer 9 spool_id 1 (secs 1700000120) spool_one = (Ok tt, fs') ∧
    fs_read_to_string (ctrl_path spool_id) fs' = Ok text' ∧
    parse_ctrl spool_id text' =
      Ok (mkSpoolEntry spool_id (env_sender spool_env) (env_recipients spool_env) 1
            (secs (to_secs (secs 1700000120))) (secs (to_secs spool_now))) ∧
    fs' !! eml_path spool_id = spool_one !! eml_path spool_id ∧
    ∀ fs'', crash 9 ops spool_one fs'' →
      fs'' !! eml_path spool_id = spool_one !! eml_path spool_id ∧
      (fs_read_to_string (ctrl_path spool_id) fs'' = Ok (render_ctrl spool_env 0 spool_now spool_now) ∨
       fs_read_to_string (ctrl_path spool_id) fs'' = Ok text').
Proof.
  apply (defer_spec 9 spool_id 1 (secs 1700000120) spool_one (render_ctrl spool_env 0 spool_now spool_now)
           (new_entry spool_id spool_env spool_now));
    [by vm_compute|by vm_compute|apply spool_env_safe|by vm_compute..].
Defined.

Lemma spool_remove_spec t id fs :
  ∃ fs', spool_remove t id fs = (Ok tt, fs') ∧ fs' !! eml_path id = None ∧ fs' !! ctrl_path id = None ∧
  ∀ id', id' ≠ id → same_paths id' fs fs'.
Proof.
  unfold spool_remove, spool_remove_ops. cbn [exec exec_op]. rewrite !remove_if_exists_delete.
  eexists. split; [done|]. split_and!; [by fs_simpl..|]. intros id' Hid.
  unfold same_paths, same_entry. split_and!; by fs_simpl.
Qed.

Lemma backoff_core (n : Z) :
  0 ≤ n ≤ U32_MAX →
  backoff n = secs (Z.min (60 * 2 ^ n) 3600) ∧ secs 60 ≤ backoff n ≤ secs 3600 ∧
  backoff n ≤ backoff (sat_add_u32 n 1) ∧ (6 ≤ n → backoff n = secs 3600).
Proof.
  intros Hn. assert (∀ k, 0 ≤ k ≤ U32_MAX → backoff k = secs (Z.min (60 * 2 ^ k) 3600)) as Hb.
  { intros k Hk. unfold backoff. rewrite Z.shiftl_1_l. f_equal.
    destruct (Z.le_gt_cases k 20).
    - rewrite (Z.min_l k 20) by done.
      assert (2 ^ k ≤ 2 ^ 20) by (apply Z.pow_le_mono_r; lia).
      rewrite (Z.min_l _ U64_MAX) by (unfold U64_MAX; lia). done.
    - rewrite (Z.min_r k 20) by lia.
      assert (2 ^ 20 ≤ 2 ^ k) by (apply Z.pow_le_mono_r; lia). unfold U64_MAX. lia. }
  assert (0 ≤ sat_add_u32 n 1 ≤ U32_MAX ∧ n ≤ sat_add_u32 n 1) as [Hs Hle]
    by (unfold sat_add_u32; lia).
  assert (1 ≤ 2 ^ n) by (pose proof (Z.pow_pos_nonneg 2 n); lia).
  assert (2 ^ n ≤ 2 ^ sat_add_u32 n 1) by (apply Z.pow_le_mono_r; lia).
  rewrite !Hb by done. unfold secs, NANOS. split_and!; [done|lia|lia|lia|].
  intros H6. assert (2 ^ 6 ≤ 2 ^ n) by (apply Z.pow_le_mono_r; lia). lia.
Qed.

(** The retry delay is 60s doubled per failed attempt and capped at an hour, for
    every [u32] attempt count: it never overflows, never shrinks, and reaches
    the cap at the sixth attempt. *)
Theorem backoff_spec (n : Z) :
  0 ≤ n ≤ U32_MAX →
  backoff n = secs (Z.min (60 * 2 ^ n) 3600) ∧ secs 60 ≤ backoff n ≤ secs 3600 ∧
  backoff n ≤ backoff (sat_add_u32 n 1) ∧ (6 ≤ n → backoff n = secs 3600).
Proof. apply backoff_core. Qed.

Lemma backoff_spec_witness :
  backoff 3 = secs (Z.min (60 * 2 ^ 3) 3600) ∧ secs 60 ≤ backoff 3 ≤ secs 3600 ∧
  backoff 3 ≤ backoff (sat_add_u32 3 1) ∧ (6 ≤ 3 → backoff 3 = secs 3600).
Proof. apply (backoff_spec 3). by vm_compute. Defined.

(** ** Reaping [bounced/] *)

Lemma reap_names_lookup retention now names fs q :
  (reap_names retention now names fs).1 !! q =
  match fs !! q with
  | Some f => if bool_decide (q.1 = Bounced ∧ q.2 ∈ names) && aged_out retention now f then None else Some f
  | None => None
  end.
Proof.
  revert fs. induction names as [|name names IH]; intros fs; simpl.
  { destruct (fs !! q); [|done]. rewrite bool_decide_false by set_solver. done. }
  assert (∀ fs' : FS, (∀ f, fs !! q = Some f → fs' !! q = Some f ∨ (q = (Bounced, name) ∧ aged_out retention now f = true ∧ fs' !! q = None)) →
    (fs !! q = None → fs' !! q = None) →
    (q = (Bounced, name) → ∀ f, fs' !! q = Some f → aged_out retention now f = false) →
    (reap_names retention now names fs').1 !! q =
    match fs !! q with
    | Some f => if bool_decide (q.1 = Bounced ∧ q.2 ∈ name :: names) && aged_out retention now f then None else Some f
    | None => None end) as Hgo.
  { intros fs' H1 H2 H3. rewrite IH. destruct (fs !! q) as [f|]; [|by rewrite H2].
    destruct (H1 f eq_refl) as [E|(-> & Ha & ->)].
    - rewrite E. destruct (decide (q = (Bounced, name))) as [->|Hne].
      + rewrite (H3 eq_refl f E), !andb_false_r. done.
      + erewrite bool_decide_ext; [done|]. destruct q as [d n]; simpl. rewrite elem_of_cons.
        split; [naive_solver|]. intros [-> [->|?]]; [done|done].
    - rewrite Ha, bool_decide_true by (simpl; set_solver). done. }
  destruct (fs !! (Bounced, name)) as [f|] eqn:Ef.
  - destruct (aged_out retention now f) eqn:Ea.
    + destruct (reap_names retention now names (delete (Bounced, name) fs)) eqn:Er. simpl.
      change g with (g, z).1. rewrite <-Er. apply Hgo.
      * intros f' Hf'. destruct (decide (q = (Bounced, name))) as [->|?].
        { right. simplify_eq. rewrite lookup_delete_eq. done. }
        { left. by rewrite lookup_delete_ne. }
      * intros Hf'. apply lookup_delete_None. auto.
      * intros ->. by rewrite lookup_delete_eq.
    + apply Hgo; [naive_solver|done|]. intros -> f'. congruence.
  - apply Hgo; [naive_solver|done|]. intros ->. congruence.
Qed.

(** [reap_bounced] deletes exactly the files of [bounced/] last modified at
    least [retention] ago: queued mail and younger bounces are untouched. *)
Theorem reap_bounced_spec (read_dir : FS → Dir → list str) (retention now : Z) (fs : FS) (q : Path) :
  (∀ name, name ∈ read_dir fs Bounced ↔ is_Some (fs !! (Bounced, name))) →
  (reap_bounced read_dir retention now fs).1 !! q =
  match fs !! q with
  | Some f => if bool_decide (q.1 = Bounced) && aged_out retention now f then None else Some f
  | None => None
  end.
Proof.
  intros Hrd. unfold reap_bounced. rewrite reap_names_lookup. destruct (fs !! q) as [f|] eqn:E; [|done].
  erewrite bool_decide_ext; [done|]. split; [naive_solver|]. intros Hq. split; [done|].
  apply Hrd. destruct q; simpl in *; subst. eauto.
Qed.

Lemma reap_bounced_spec_witness :
  (reap_bounced list_dir 10 100 spool_half).1 !! bounced_eml spool_id =
  match spool_half !! bounced_eml spool_id with
  | Some f => if bool_decide ((bounced_eml spool_id).1 = Bounced) && aged_out 10 100 f then None else Some f
  | None => None
  end.
Proof.
  apply (reap_bounced_spec list_dir 10 100 spool_half (bounced_eml spool_id)).
  intros. apply list_dir_names.
Defined.
