(* ===== verification/Server.v ===== *)
(** * The composed server

    services/snail_server/src/server.rs: the shared state behind the listeners,
    and [Server::accept_inbound], which delivers to local mailboxes and, only for
    an authorized connection of a relay-enabled server, queues the remaining
    recipients on the spool, one entry per domain.  The objects behind [Arc] and
    a lock are fields of one record, so a call returns the new record. *)
From Stdlib Require Import Sorted.
From S2P Require Import Prelude RustStr Net Message Transport Store Throttle Greylist Dmarc Spool.

Inductive RelayAuthorization := Permitted | Forbidden.
#[export] Instance RelayAuthorization_eq_dec : EqDecision RelayAuthorization.
Proof. solve_decision. Defined.

(** [srv_relay] is the spool of the relay context (relay is disabled when it is
    [None]); [srv_resolver] and [srv_tls] say whether one is configured. *)
Record Server := mkServer {
  srv_store : MemoryMailStore;
  srv_domains : gset str;
  srv_tls : bool;
  srv_helo : str;
  srv_relay : option OutboundSpool;
  srv_throttle_config : ThrottleConfig;
  srv_throttle : Records;
  srv_max_size : Z;
  srv_resolver : bool;
  srv_spf_enforce : bool;
  srv_dmarc_enforce : bool;
  srv_aggregator : DmarcAggregator;
  srv_greylist : option (GreylistConfig * gmap (IpAddr * list Z * list Z) Entry) }.

Definition Server_new (local_domains : list str) : Server :=
  mkServer MemoryMailStore_new (mta_domains local_domains) false
    (default (lit "localhost") (head local_domains)) None
    ThrottleConfig_default ∅ DEFAULT_MAX_MESSAGE_SIZE false false false ∅ None.

Definition set_store (s : Server) (st : MemoryMailStore) : Server :=
  mkServer st (srv_domains s) (srv_tls s) (srv_helo s) (srv_relay s) (srv_throttle_config s)
    (srv_throttle s) (srv_max_size s) (srv_resolver s) (srv_spf_enforce s) (srv_dmarc_enforce s)
    (srv_aggregator s) (srv_greylist s).
Definition set_relay (s : Server) (r : option OutboundSpool) : Server :=
  mkServer (srv_store s) (srv_domains s) (srv_tls s) (srv_helo s) r (srv_throttle_config s)
    (srv_throttle s) (srv_max_size s) (srv_resolver s) (srv_spf_enforce s) (srv_dmarc_enforce s)
    (srv_aggregator s) (srv_greylist s).
Definition set_throttle (s : Server) (t : Records) : Server :=
  mkServer (srv_store s) (srv_domains s) (srv_tls s) (srv_helo s) (srv_relay s) (srv_throttle_config s)
    t (srv_max_size s) (srv_resolver s) (srv_spf_enforce s) (srv_dmarc_enforce s)
    (srv_aggregator s) (srv_greylist s).
Definition set_aggregator (s : Server) (a : DmarcAggregator) : Server :=
  mkServer (srv_store s) (srv_domains s) (srv_tls s) (srv_helo s) (srv_relay s) (srv_throttle_config s)
    (srv_throttle s) (srv_max_size s) (srv_resolver s) (srv_spf_enforce s) (srv_dmarc_enforce s)
    a (srv_greylist s).
Definition set_greylist (s : Server) (g : option (GreylistConfig * gmap (IpAddr * list Z * list Z) Entry)) : Server :=
  mkServer (srv_store s) (srv_domains s) (srv_tls s) (srv_helo s) (srv_relay s) (srv_throttle_config s)
    (srv_throttle s) (srv_max_size s) (srv_resolver s) (srv_spf_enforce s) (srv_dmarc_enforce s)
    (srv_aggregator s) g.

Definition server_is_local (s : Server) (mailbox : Mailbox) : bool := is_local (srv_domains s) mailbox.

(** ** Grouping by domain

    A [BTreeMap] from the lowercased domain to its recipients: an association
    list kept in the order of the keys. *)
Definition str_ltb (a b : str) : bool := negb (str_leb b a).

Fixpoint group_push (d : str) (r : Mailbox) (groups : list (str * list Mailbox)) : list (str * list Mailbox) :=
  match groups with
  | [] => [(d, [r])]
  | (d', rs) :: groups' =>
      if d =s? d' then (d', rs ++ [r]) :: groups'
      else if str_ltb d d' then (d, [r]) :: groups
      else (d', rs) :: group_push d r groups'
  end.
Definition by_domain (recipients : list Mailbox) : list (str * list Mailbox) :=
  foldl (λ g r, group_push (lowercase (domain r)) r g) [] recipients.

(** The clock does not advance while the entries of one message are queued; a
    failed [enqueue] is logged and the loop goes on. *)
Definition enqueue_group (now : Z) (source : Message) (spool : OutboundSpool) (g : str * list Mailbox)
    : OutboundSpool :=
  (enqueue now (with_recipients source g.2) spool).2.
Definition enqueue_relay (now : Z) (spool : OutboundSpool) (source : Message) (recipients : list Mailbox)
    : OutboundSpool :=
  foldl (enqueue_group now source) spool (by_domain recipients).

Definition server_accept_inbound (now : Z) (s : Server) (message : Message) (authorization : RelayAuthorization)
    : Server * InboundResult :=
  let permitted := bool_decide (authorization = Permitted) in
  match (if permitted then srv_relay s else None) with
  | None =>
      let '(st, r) := accept_inbound (srv_domains s) (srv_store s) SpamFilter_new message in
      (set_store s st, r)
  | Some spool =>
      let '(st, r) := accept_inbound (srv_domains s) (srv_store s) SpamFilter_new message in
      let s := set_store s st in
      if bool_decide (in_relay r = []) then (s, r)
      else (set_relay s (Some (enqueue_relay now spool message (in_relay r))), r)
  end.

(** ** Grouping: theorems *)

Lemma str_leb_refl s : str_leb s s = true.
Proof. induction s as [|c s IH]; [done|]. simpl. by rewrite Z.eqb_refl, IH, orb_true_r. Qed.
Lemma str_leb_antisym a b : str_leb a b = true → str_leb b a = true → a = b.
Proof.
  revert b. induction a as [|x a IH]; intros [|y b]; simpl; try done.
  destruct (Z.ltb_spec x y), (Z.eqb_spec x y), (Z.ltb_spec y x), (Z.eqb_spec y x); simpl; try done; try lia.
  intros. f_equal; [done|]. by apply IH.
Qed.
Lemma str_leb_total a b : str_leb a b = false → str_leb b a = true.
Proof.
  revert b. induction a as [|x a IH]; intros [|y b]; simpl; try done.
  destruct (Z.ltb_spec x y), (Z.eqb_spec x y), (Z.ltb_spec y x), (Z.eqb_spec y x); simpl; try done; try lia.
  apply IH.
Qed.
Lemma str_leb_trans a b c : str_leb a b = true → str_leb b c = true → str_leb a c = true.
Proof.
  revert b c. induction a as [|x a IH]; intros [|y b] [|z c]; simpl; try done.
  destruct (Z.ltb_spec x y), (Z.eqb_spec x y), (Z.ltb_spec y z), (Z.eqb_spec y z), (Z.ltb_spec x z), (Z.eqb_spec x z);
    simpl; try done; try lia. apply IH.
Qed.

Definition str_lt (a b : str) : Prop := str_ltb a b = true.
Lemma str_lt_trans a b c : str_lt a b → str_lt b c → str_lt a c.
Proof.
  unfold str_lt, str_ltb. intros H1%negb_true_iff H2%negb_true_iff. apply negb_true_iff.
  destruct (str_leb c a) eqn:E; [|done].
  apply str_leb_total in H1. rewrite (str_leb_trans c a b) in H2; [done|done|done].
Qed.

Lemma str_lt_irrefl a : ¬ str_lt a a.
Proof. unfold str_lt, str_ltb. by rewrite str_leb_refl. Qed.
Lemma str_lt_total a b : a ≠ b → str_ltb a b = false → str_lt b a.
Proof.
  unfold str_lt, str_ltb. intros Hne H%negb_false_iff. apply negb_true_iff.
  destruct (str_leb a b) eqn:E; [|done]. by destruct Hne; apply str_leb_antisym.
Qed.

Notation keys g := (fst <$> g).

Lemma group_push_keys d r g k : k ∈ keys (group_push d r g) ↔ k = d ∨ k ∈ keys g.
Proof.
  induction g as [|[d' rs] g IH]; simpl; [set_solver|].
  destruct (d =s? d') eqn:E; [apply str_eqb_eq in E as ->; set_solver|].
  destruct (str_ltb d d'); set_solver.
Qed.

Lemma group_push_sorted d r g :
  StronglySorted str_lt (keys g) → StronglySorted str_lt (keys (group_push d r g)).
Proof.
  induction g as [|[d' rs] g IH]; simpl; intros Hs; [repeat constructor|].
  inversion Hs as [|? ? Hs' Hall]; subst.
  destruct (d =s? d') eqn:E; [by constructor|]. apply str_eqb_neq in E.
  destruct (str_ltb d d') eqn:El; simpl; constructor; try done.
  - constructor; [done|]. eapply Forall_impl; [done|]. intros x Hx. by eapply str_lt_trans.
  - by apply IH.
  - apply Forall_forall. intros k [->|Hk]%group_push_keys; [by apply str_lt_total|].
    by eapply Forall_forall in Hall.
Qed.

Lemma group_push_elem d r g d' rs :
  StronglySorted str_lt (keys g) →
  (d', rs) ∈ group_push d r g ↔
  (d' ≠ d ∧ (d', rs) ∈ g) ∨
  (d' = d ∧ ((∃ rs0, (d, rs0) ∈ g ∧ rs = rs0 ++ [r]) ∨ (d ∉ keys g ∧ rs = [r]))).
Proof.
  induction g as [|[k ks] g IH]; intros Hs.
  { simpl. rewrite elem_of_cons. split; [|set_solver]. intros [[= -> ->]|?]; set_solver. }
  inversion Hs as [|? ? Hs' Hall]; subst. cbn [group_push].
  assert (∀ x xs, (x, xs) ∈ g → str_lt k x) as Hlt.
  { intros x xs Hx. eapply Forall_forall in Hall; [done|]. apply list_elem_of_fmap. by exists (x, xs). }
  assert (∀ xs, (k, xs) ∉ g) as Hk by (intros xs Hx%Hlt; by apply str_lt_irrefl in Hx).
  destruct (d =s? k) eqn:E.
  - apply str_eqb_eq in E as ->. rewrite elem_of_cons. split.
    + intros [[= -> ->]|Hin]; [right; split; [done|]; left; exists ks; set_solver|].
      left. split; [|set_solver]. intros ->. by apply Hk in Hin.
    + intros [[Hne [[= -> ->]|Hin]%elem_of_cons]|[-> [(rs0 & [[= ->]|Hin]%elem_of_cons & ->)|[Hn _]]]].
      * done. * by right. * by left. * by apply Hk in Hin. * destruct Hn. simpl. set_solver.
  - apply str_eqb_neq in E. destruct (str_ltb d k) eqn:El.
    + assert (d ∉ keys ((k, ks) :: g)) as Hd.
      { simpl. intros [->|Hin]%elem_of_cons; [done|]. apply list_elem_of_fmap in Hin as ([x xs] & -> & Hx).
        simpl in *. apply Hlt in Hx. apply (str_lt_irrefl k). by eapply str_lt_trans. }
      rewrite elem_of_cons. split.
      * intros [[= -> ->]|Hin]; [right; split; [done|]; by right|].
        left. split; [|done]. intros ->. apply Hd, list_elem_of_fmap. by exists (d, rs).
      * intros [[_ Hin]|[-> [(rs0 & Hin & ->)|[_ ->]]]]; [by right| |by left].
        destruct Hd. apply list_elem_of_fmap. by exists (d, rs0).
    + rewrite elem_of_cons, (IH Hs'). split.
      * intros [[= -> ->]|[[Hne Hin]|[-> [(rs0 & Hin & ->)|[Hn ->]]]]].
        -- left. split; [done|]. set_solver.
        -- left. set_solver.
        -- right. split; [done|]. left. exists rs0. set_solver.
        -- right. split; [done|]. right. split; [|done]. simpl. set_solver.
      * intros [[Hne [[= -> ->]|Hin]%elem_of_cons]|[-> [(rs0 & [[= ? ?]|Hin]%elem_of_cons & ->)|[Hn ->]]]].
        -- by left. -- right. by left. -- done.
        -- right. right. split; [done|]. left. by exists rs0.
        -- right. right. split; [done|]. right. split; [|done]. simpl in Hn. set_solver.
Qed.

Lemma by_domain_core rcpts :
  StronglySorted str_lt (keys (by_domain rcpts)) ∧
  ∀ d rs, (d, rs) ∈ by_domain rcpts ↔ rs ≠ [] ∧ rs = filter (λ r, lowercase (domain r) = d) rcpts.
Proof.
  unfold by_domain. induction rcpts as [|r rcpts [IHs IH]] using rev_ind.
  { split; [constructor|]. intros d rs. simpl. split; [set_solver|]. intros [? ->]. done. }
  rewrite foldl_app. simpl. set (g := foldl _ _ rcpts) in *. split; [by apply group_push_sorted|].
  intros d rs. rewrite group_push_elem by done. rewrite filter_app.
  assert (∀ d', d' ∉ keys g ↔ filter (λ r, lowercase (domain r) = d') rcpts = []) as Hkeys.
  { intros d'. split.
    - intros Hn. destruct (decide (filter (λ r, lowercase (domain r) = d') rcpts = [])) as [|Hf]; [done|].
      destruct Hn. apply list_elem_of_fmap. exists (d', filter (λ r, lowercase (domain r) = d') rcpts).
      split; [done|]. by apply IH.
    - intros Hf Hin. apply list_elem_of_fmap in Hin as ([d0 rs0] & -> & [Hne ->]%IH). simpl in Hf. by rewrite Hf in Hne. }
  destruct (decide (lowercase (domain r) = d)) as [<-|Hne].
  - rewrite filter_cons_True by done. split.
    + intros [[? _]|[_ [(rs0 & [_ ->]%IH & ->)|[Hn%Hkeys ->]]]]; [done| |by rewrite Hn].
      split; [|done]. by intros [_ [=]]%app_eq_nil.
    + intros [_ ->]. right. split; [done|].
      destruct (decide (filter (λ r0, lowercase (domain r0) = lowercase (domain r)) rcpts = [])) as [Hf|Hf].
      * right. split; [by apply Hkeys|]. by rewrite Hf.
      * left. eexists. split; [by apply IH|done].
  - rewrite filter_cons_False by done. change (filter _ []) with (@nil Mailbox). rewrite app_nil_r, IH.
    split; [intros [[_ ?]|[? _]]; [done|congruence]|]. intros. left. split; [congruence|done].
Qed.

(** One queue entry per destination domain: the groups are in the order of
    their (lowercased) domains without duplicates, no group is empty, and each
    domain's group holds exactly the recipients at that domain, in order, so no
    remote recipient is lost, duplicated or sent to another domain's exchange. *)
Theorem by_domain_partition (rcpts : list Mailbox) :
  StronglySorted str_lt (keys (by_domain rcpts)) ∧
  (∀ d rs, (d, rs) ∈ by_domain rcpts ↔ rs ≠ [] ∧ rs = filter (λ r, lowercase (domain r) = d) rcpts) ∧
  (∀ r, r ∈ rcpts → ∃ rs, (lowercase (domain r), rs) ∈ by_domain rcpts ∧ r ∈ rs).
Proof.
  destruct (by_domain_core rcpts) as [Hs Hg]. split_and!; [done..|]. intros r Hr.
  assert (r ∈ filter (λ r', lowercase (domain r') = lowercase (domain r)) rcpts) as Hin
    by by apply list_elem_of_filter.
  eexists. split; [apply Hg; split; [|done]|done]. intros E. rewrite E in Hin. set_solver.
Qed.

(** ** Queueing: theorems *)

Lemma digits_value_zeros k s : digits_value (replicate k 48 ++ s) = digits_value s.
Proof. induction k as [|k IH]; [done|]. rewrite <-IH. done. Qed.

Lemma show_pad_inj w a b : 0 ≤ a → 0 ≤ b → show_pad w a = show_pad w b → a = b.
Proof.
  intros Ha Hb E. apply (f_equal digits_value) in E. unfold show_pad in E.
  rewrite !digits_value_zeros in E. destruct (show_value a Ha) as [Ea _], (show_value b Hb) as [Eb _].
  congruence.
Qed.

Lemma new_id_inj now a b : 0 ≤ a → 0 ≤ b → new_id now a = new_id now b → a = b.
Proof.
  unfold new_id. intros Ha Hb E. apply app_inv_head in E. apply app_inv_head in E.
  by apply show_pad_inj in E.
Qed.

Lemma new_id_ne now n : new_id now n ≠ [].
Proof. unfold new_id. by destruct (show_pad 20 _). Qed.

(** No file carries an id the spool will still give out at this clock reading. *)
Definition spool_fresh (now : Z) (s : OutboundSpool) : Prop :=
  ∀ seq, sp_counter s ≤ seq →
  sp_fs s !! ctrl_path (new_id now seq) = None ∧ sp_fs s !! bouncing_marker (new_id now seq) = None.

Definition queued_envelope (src : Message) (rs : list Mailbox) : Envelope :=
  mkEnvelope (env_sender (msg_envelope src)) rs.

Lemma enqueue_group_step now src d rs spool :
  0 ≤ sp_counter spool → sp_counter spool + 1 ≤ U64_MAX → now ≤ SYSTIME_MAX →
  spool_fresh now spool → ctrl_safe_env (queued_envelope src rs) →
  let spool' := enqueue_group now src spool (d, rs) in
  sp_counter spool' = sp_counter spool + 1 ∧ spool_fresh now spool' ∧
  ∀ t e, due t (sp_fs spool') e ↔ due t (sp_fs spool) e ∨
    (e = new_entry (new_id now (sp_counter spool)) (queued_envelope src rs) now ∧ secs (to_secs now) ≤ t).
Proof.
  intros Hc Hmax Hnow Hf Henv spool'. unfold spool', enqueue_group, enqueue, enqueue_ops. cbn [snd].
  rewrite exec_two_writes. cbn [snd sp_fs sp_counter].
  rewrite add_u64_small by lia. split; [done|].
  set (id := new_id now (sp_counter spool)).
  destruct (Hf (sp_counter spool) ltac:(lia)) as [Hn1 Hn2]. split.
  - intros seq Hseq. cbn [sp_fs sp_counter] in *.
    assert (new_id now seq ≠ id) as Hne by (intros E%new_id_inj; lia).
    destruct (same_entry_other now id (new_id now seq) (Message_to_bytes (with_recipients src rs))
      (utf8_encode (render_ctrl (msg_envelope (with_recipients src rs)) 0 now now)) (sp_fs spool) Hne)
      as (-> & _ & ->).
    destruct (Hf seq ltac:(lia)). done.
  - apply (enqueued_due (queued_envelope src rs) (with_recipients src rs) id now (sp_fs spool));
      [done|done|done|apply new_id_ne|done|done].
Qed.

Lemma enqueue_groups_due now src gs spool :
  0 ≤ sp_counter spool → sp_counter spool + len gs ≤ U64_MAX → now ≤ SYSTIME_MAX →
  spool_fresh now spool → Forall (λ g, ctrl_safe_env (queued_envelope src g.2)) gs →
  ∀ t e, due t (sp_fs (foldl (enqueue_group now src) spool gs)) e ↔ due t (sp_fs spool) e ∨
    ∃ i d rs, gs !! i = Some (d, rs) ∧ secs (to_secs now) ≤ t ∧
      e = new_entry (new_id now (sp_counter spool + Z.of_nat i)) (queued_envelope src rs) now.
Proof.
  revert spool. induction gs as [|[d rs] gs IH]; intros spool Hc Hmax Hnow Hf Hsafe t e.
  { simpl. split; [by left|]. intros [?|(i & ? & ? & Hi & _)]; [done|]. by rewrite lookup_nil in Hi. }
  autorewrite with len in Hmax. pose proof (len_nonneg gs). apply Forall_cons in Hsafe as [Hs1 Hs2].
  destruct (enqueue_group_step now src d rs spool) as (Hc' & Hf' & Hd'); [done|lia|done..|].
  cbn [foldl]. rewrite (IH (enqueue_group now src spool (d, rs))) by (done || lia).
  rewrite Hd', Hc'. split.
  - intros [[?|[-> Ht]]|(i & d' & rs' & Hi & Ht & ->)]; [by left| |].
    + right. exists 0%nat, d, rs. split_and!; [done..|]. by rewrite Z.add_0_r.
    + right. exists (S i), d', rs'. split_and!; [done..|]. do 2 f_equal. lia.
  - intros [?|([|i] & d' & rs' & Hi & Ht & ->)]; [by left; left| |].
    + simpl in Hi. simplify_eq. left. right. by rewrite Z.add_0_r.
    + right. exists i, d', rs'. split_and!; [done..|]. do 2 f_equal. lia.
Qed.

Lemma server_accept_local now s m a :
  srv_store (server_accept_inbound now s m a).1 =
  (accept_inbound (srv_domains s) (srv_store s) SpamFilter_new m).1 ∧
  (server_accept_inbound now s m a).2 = (accept_inbound (srv_domains s) (srv_store s) SpamFilter_new m).2.
Proof.
  unfold server_accept_inbound. destruct (accept_inbound _ _ _ m) as [st r].
  destruct (if bool_decide (a = Permitted) then srv_relay s else None); [|done].
  by destruct (bool_decide (in_relay r = [])).
Qed.

(** Queueing more groups keeps the message files of those queued before. *)
Lemma enqueue_groups_keep now src gs id : ∀ spool,
  0 ≤ sp_counter spool → sp_counter spool + len gs ≤ U64_MAX → (∀ i, id ≠ new_id now (sp_counter spool + Z.of_nat i)) →
  sp_fs (foldl (enqueue_group now src) spool gs) !! eml_path id = sp_fs spool !! eml_path id.
Proof.
  induction gs as [|g gs IH]; intros spool Hc Hmax Hid; [done|]. autorewrite with len in Hmax. pose proof (len_nonneg gs).
  cbn [foldl].
  assert (sp_counter (enqueue_group now src spool g) = sp_counter spool + 1 ∧
    sp_fs (enqueue_group now src spool g) !! eml_path id = sp_fs spool !! eml_path id) as [Hc' He'].
  { unfold enqueue_group, enqueue, enqueue_ops. rewrite exec_two_writes. cbn [snd sp_fs sp_counter]. split; [by rewrite add_u64_small by lia|].
    destruct (same_entry_other now (new_id now (sp_counter spool)) id (Message_to_bytes (with_recipients src g.2))
      (utf8_encode (render_ctrl (msg_envelope (with_recipients src g.2)) 0 now now)) (sp_fs spool)) as (_ & He & _); [|exact He].
    specialize (Hid 0%nat). by rewrite Z.add_0_r in Hid. }
  rewrite IH, He'; [done|lia|lia|]. intros i. specialize (Hid (S i)). rewrite Hc'. by replace (sp_counter spool + 1 + Z.of_nat i) with (sp_counter spool + Z.of_nat (S i)) by lia.
Qed.
Lemma enqueue_groups_eml now src gs : ∀ spool i g,
  0 ≤ sp_counter spool → sp_counter spool + len gs ≤ U64_MAX → gs !! i = Some g →
  f_data <$> sp_fs (foldl (enqueue_group now src) spool gs) !! eml_path (new_id now (sp_counter spool + Z.of_nat i)) =
  Some (Message_to_bytes src).
Proof.
  induction gs as [|g0 gs IH]; intros spool i g Hc Hmax Hi; [by rewrite lookup_nil in Hi|].
  autorewrite with len in Hmax. pose proof (len_nonneg gs). cbn [foldl].
  assert (sp_counter (enqueue_group now src spool g0) = sp_counter spool + 1) as Hc'.
  { unfold enqueue_group, enqueue, enqueue_ops. rewrite exec_two_writes. cbn [snd sp_counter]. by rewrite add_u64_small by lia. }
  destruct i as [|i].
  - rewrite Z.add_0_r, enqueue_groups_keep by (rewrite ?Hc'; try lia; intros j ?%new_id_inj; lia).
    unfold enqueue_group, enqueue, enqueue_ops. rewrite exec_two_writes. cbn [snd sp_fs].
    by rewrite (proj1 (committed_lookup _ _ _ _ _)).
  - rewrite <-(IH (enqueue_group now src spool g0) i g) by (rewrite ?Hc'; lia || done). rewrite Hc'.
    by replace (sp_counter spool + 1 + Z.of_nat i) with (sp_counter spool + Z.of_nat (S i)) by lia.
Qed.

Lemma keys_nodup g : StronglySorted str_lt g → NoDup g.
Proof.
  induction 1 as [|d g Hs IH Hall]; constructor; [|done]. intros Hin. eapply Forall_forall in Hall; [|done]. by apply str_lt_irrefl in Hall.
Qed.
Lemma by_domain_length rcpts : len (by_domain rcpts) ≤ len rcpts.
Proof.
  assert (∀ d r g, (length (group_push d r g) ≤ S (length g))%nat) as Hp.
  { intros d r g. induction g as [|[d' rs] g IH]; simpl; [lia|]. case_match; [simpl; lia|]. case_match; simpl; lia. }
  unfold by_domain, len. induction rcpts as [|r rcpts IH] using rev_ind; [done|]. rewrite foldl_app, length_app. simpl.
  pose proof (Hp (lowercase (domain r)) r (foldl (λ g r, group_push (lowercase (domain r)) r g) [] rcpts)). lia.
Qed.

(** C13: submitted mail is relayed exactly once per destination domain, and to every one of
    them.  Take the domains, up to case, of all the recipients that are not hosted here.  On
    a relay-enabled server an authorized message adds to the queue one entry for each of
    these domains, addressed to all of that domain's recipients in order, from the original
    sender, due at once and with the message's bytes in its file, and changes nothing else
    of what is due; recipients hosted here are never queued. *)
Theorem server_accept_queues (now : Z) (s : Server) (spool : OutboundSpool) (m : Message) :
  srv_relay s = Some spool →
  let remote := filter (λ r, lowercase (domain r) ∉ srv_domains s) (env_recipients (msg_envelope m)) in
  let at_domain d := filter (λ r, lowercase (domain r) = d) remote in
  0 ≤ sp_counter spool → sp_counter spool + len remote ≤ U64_MAX →
  0 ≤ now ≤ SYSTIME_MAX → spool_fresh now spool →
  (∀ r, r ∈ remote → ctrl_safe_env (queued_envelope m (at_domain (lowercase (domain r))))) →
  ∃ spool' (ds : list str), srv_relay (server_accept_inbound now s m Permitted).1 = Some spool' ∧
  NoDup ds ∧ (∀ d, d ∈ ds ↔ ∃ r, r ∈ remote ∧ d = lowercase (domain r)) ∧
  (∀ t e, now ≤ t → due t (sp_fs spool') e ↔ due t (sp_fs spool) e ∨
    ∃ i d, ds !! i = Some d ∧
      e = new_entry (new_id now (sp_counter spool + Z.of_nat i)) (queued_envelope m (at_domain d)) now) ∧
  ∀ i d, ds !! i = Some d →
    f_data <$> sp_fs spool' !! eml_path (new_id now (sp_counter spool + Z.of_nat i)) = Some (Message_to_bytes m).
Proof.
  intros Hrelay remote at_domain Hc Hmax Hnow Hf Hsafe.
  pose proof (accept_inbound_spec_core (srv_domains s) (srv_store s) SpamFilter_new m) as Hacc. cbv zeta in Hacc.
  unfold server_accept_inbound. rewrite Hrelay, (bool_decide_true (Permitted = Permitted)) by done. cbv zeta.
  destruct (accept_inbound _ _ _ m) as [st r]. destruct Hacc as (Hr & _). fold remote in Hr. clearbody remote.
  destruct (by_domain_core remote) as [Hsort Hg]. pose proof (by_domain_length remote).
  assert (∀ t, now ≤ t → secs (to_secs now) ≤ t) as Hsecs.
  { intros t Ht. unfold secs, to_secs, duration_since. destruct (Z.leb_spec 0 now); [simpl|lia].
    rewrite Z.sub_0_r. pose proof (Z.mul_div_le now NANOS). unfold NANOS in *. lia. }
  assert (Forall (λ g, ctrl_safe_env (queued_envelope m g.2)) (by_domain remote)) as Hall.
  { apply Forall_forall. intros [d rs] [Hne ->]%Hg. destruct (filter _ remote) as [|x l] eqn:E; [done|]. rewrite <-E.
    assert (x ∈ filter (λ r, lowercase (domain r) = d) remote) as [<- Hx]%list_elem_of_filter by (rewrite E; left). by apply Hsafe. }
  assert (∀ i d rs, by_domain remote !! i = Some (d, rs) → rs = at_domain d) as Hrs.
  { intros i d rs Hi. apply (Hg d rs). by eapply list_elem_of_lookup_2. }
  exists (foldl (enqueue_group now m) spool (by_domain remote)), (keys (by_domain remote)). split_and!.
  - cbn [fst snd]. rewrite Hr. case_bool_decide as Hn; [|done]. simpl. by rewrite Hn, Hrelay.
  - by apply keys_nodup.
  - intros d. rewrite list_elem_of_fmap. split.
    + intros ([d' rs] & -> & [Hne ->]%Hg). cbn [fst]. destruct (filter _ remote) as [|x l] eqn:E; [done|].
      assert (x ∈ filter (λ r, lowercase (domain r) = d') remote) as [? ?]%list_elem_of_filter by (rewrite E; left). eauto.
    + intros (x & Hx & ->). exists (lowercase (domain x), at_domain (lowercase (domain x))). split; [done|]. apply Hg. split; [|done].
      intros E. assert (x ∈ at_domain (lowercase (domain x))) as Hin by (by apply list_elem_of_filter). rewrite E in Hin. by apply not_elem_of_nil in Hin.
  - intros t e Ht. rewrite enqueue_groups_due by (done || lia). split.
    + intros [?|(i & d & rs & Hi & _ & ->)]; [by left|]. right. exists i, d. rewrite list_lookup_fmap, Hi, (Hrs i d rs Hi). done.
    + intros [?|(i & d & Hi & ->)]; [by left|]. rewrite list_lookup_fmap in Hi. apply fmap_Some in Hi as ([d' rs] & Hi & ->).
      pose proof (Hrs i d' rs Hi) as ->.
      right. exists i, d', (at_domain d'). split_and!; [done|by apply Hsecs|done].
  - intros i d Hi. rewrite list_lookup_fmap in Hi. apply fmap_Some in Hi as (g & Hi & _). eapply enqueue_groups_eml; [done|lia|exact Hi].
Qed.

Definition demo_server : Server := set_relay (Server_new [lit "local.org"]) (Some (mkSpool ∅ 0)).
Definition demo_msg : Message :=
  with_recipients spool_msg
    [mkMailbox (lit "a") (lit "X.org"); mkMailbox (lit "b") (lit "local.org"); mkMailbox (lit "c") (lit "x.org")].

Lemma server_accept_queues_witness :
  ∃ spool' (ds : list str) (i : nat), srv_relay (server_accept_inbound spool_now demo_server demo_msg Permitted).1 = Some spool' ∧
  ds !! i = Some (lit "x.org") ∧
  due spool_now (sp_fs spool')
    (new_entry (new_id spool_now (0 + Z.of_nat i))
       (queued_envelope demo_msg [mkMailbox (lit "a") (lit "X.org"); mkMailbox (lit "c") (lit "x.org")]) spool_now).
Proof.
  destruct (server_accept_queues spool_now demo_server (mkSpool ∅ 0) demo_msg) as (spool' & ds & Hs & _ & Hds & Hd & _).
  - done.
  - done.
  - by vm_compute.
  - by vm_compute.
  - by intros seq _.
  - assert (Forall (λ r, ctrl_safe_env (queued_envelope demo_msg (filter (λ r', lowercase (domain r') = lowercase (domain r))
      [mkMailbox (lit "a") (lit "X.org"); mkMailbox (lit "c") (lit "x.org")])))
      [mkMailbox (lit "a") (lit "X.org"); mkMailbox (lit "c") (lit "x.org")]) as Hall.
    { repeat (apply Forall_cons; split); [..|by apply Forall_nil].
      all: (split_and!; [done| |by apply ctrl_safeb_true; vm_compute]; repeat constructor; by apply ctrl_safeb_true; vm_compute). }
    rewrite Forall_forall in Hall. intros r Hr. exact (Hall r Hr).
  - assert (lit "x.org" ∈ ds) as [i Hi]%list_elem_of_lookup_1.
    { apply Hds. exists (mkMailbox (lit "a") (lit "X.org")). split; [left|by vm_compute]. }
    exists spool', ds, i. split; [exact Hs|]. split; [exact Hi|]. apply Hd; [done|]. right. exists i, (lit "x.org").
    split; [exact Hi|]. by vm_compute.
Defined.
