(* ===== verification/Serve.v ===== *)
(** * The socket loops

    services/snail_server/src/serve.rs: the capped line reader and the loops of
    the inbound (port 25) and submission listeners, one iteration per line
    received.  The socket is the list of chunks the reader returns; what is
    written to it is the bytes of each step; a TLS handshake is a flag of the
    connection.  The SPF and DKIM checks are parameters (Compose.v gives them the
    components Spf.v and Dkim.v), as are
    DNS, the Public Suffix List and base64.  The clock is an argument of each
    step. *)
From S2P Require Import Prelude RustStr Net Message Smtp Transport Store Auth Submission.
From S2P Require Import Throttle Greylist Received Dmarc Spool Server.

(** ** Reading a line *)

Definition MAX_LINE_LENGTH : Z := 64 * 1024.
Inductive LineRead := ReadLine | Eof | TooLong.
#[export] Instance LineRead_eq_dec : EqDecision LineRead.
Proof. solve_decision. Defined.

(** [iter().position(|b| b == '\n')]. *)
Fixpoint position (c : Z) (l : list Z) : option nat :=
  match l with
  | [] => None
  | x :: l => if x =? c then Some 0%nat else S <$> position c l
  end.

(** Each chunk is what one [fill_buf] returns; an empty one, or no more chunks,
    is the end of the stream.  Returns the outcome, the buffer and the chunks
    left unread. *)
Fixpoint read_line_loop (buf : bytes) (chunks : list bytes) (max : Z) : LineRead * bytes * list bytes :=
  match chunks with
  | [] => (if bool_decide (buf = []) then Eof else ReadLine, buf, [])
  | chunk :: rest =>
      if bool_decide (chunk = []) then (if bool_decide (buf = []) then Eof else ReadLine, buf, chunks)
      else
        let newline := position LF chunk in
        let take_ := match newline with Some p => (p + 1)%nat | None => length chunk end in
        if max <? len buf + Z.of_nat take_ then
          let room := Z.to_nat (max - len buf) in
          (TooLong, buf ++ take room chunk, drop room chunk :: rest)
        else
          let buf := buf ++ take take_ chunk in
          match newline with
          | Some _ => (ReadLine, buf, if bool_decide (drop take_ chunk = []) then rest else drop take_ chunk :: rest)
          | None => read_line_loop buf rest max
          end
  end.
Definition read_line_capped (chunks : list bytes) (max : Z) : LineRead * bytes * list bytes :=
  read_line_loop [] chunks max.

(** ** Small parsers *)

Inductive Slice := NoPrefix | Stripped (rest : str) | SlicePanic.
(** [s[..prefix.len()]] is evaluated whenever [s] is long enough. *)
Definition strip_prefix_ci (s prefix : str) : Slice :=
  if str_len prefix <=? str_len s then
    match split_at_byte (str_len prefix) s with
    | Some (a, b) => if eq_ignore_case a prefix then Stripped b else NoPrefix
    | None => SlicePanic
    end
  else NoPrefix.

(** [str::rfind(char)], as a position in characters. *)
Definition rfind (c : char) (s : str) : option nat := (λ p, length p.1) <$> rsplit_once c s.

Definition from_header_domain (value : str) : option str :=
  let addr := match rfind LT_ value, rfind GT_ value with
              | Some l, Some r => if bool_decide (l < r)%nat then slice value (l + 1) r else trim value
              | _, _ => trim value
              end in
  '(_, d) ← rsplit_once AT addr;
  let domain := trim (drop_while_end (Z.eqb GT_) (trim d)) in
  if bool_decide (domain = []) then None else Some (lowercase domain).

Definition MailError_to_string (e : MailError) : str :=
  match e with
  | InvalidAddress s => lit "invalid mailbox address: " ++ s
  | Malformed s => lit "malformed message: " ++ s
  end.

(** ** Connections *)

Record Conn (S : Type) := mkConn { c_tls : bool; c_session : S; c_collecting : option InboundCollector }.
Arguments mkConn {S}.
Arguments c_tls {S}.
Arguments c_session {S}.
Arguments c_collecting {S}.

(** How an iteration ends: the loop goes on, the connection is closed, or the
    task panics. *)
Inductive Next := Continue | Close | Panic.
#[export] Instance Next_eq_dec : EqDecision Next.
Proof. solve_decision. Defined.
Record Step (S : Type) := mkStep { st_server : Server; st_conn : Conn S; st_wire : bytes; st_next : Next }.
Arguments mkStep {S}.
Arguments st_server {S}.
Arguments st_conn {S}.
Arguments st_wire {S}.
Arguments st_next {S}.

Definition wire (s : str) : bytes := utf8_encode (s ++ CRLF).
(** [format!("{} {}\r\n", reply.code, reply.text)], also [SmtpReply::to_wire]. *)
Definition reply_wire (r : SmtpReply) : bytes := utf8_encode (to_wire r).

Section loops.
Context {A : Type} `{SessionAuth A}.
Context (evaluate_spf : IpAddr → str → str → SpfResult) (verify_dkim : bytes → list DkimOutcome).
Context (lookup_txt : str → option (list str)) (psl_domain : str → option str).
Context (base64_decode : str → result str bytes).
Context (auth : A) (ip : IpAddr).

(** ** Inbound *)

Definition mail_from_of (env : Envelope) : str := default [] (Mailbox_to_string <$> env_sender env).
Definition subsec_nanos (now : Z) : Z := match duration_since now 0 with Some d => d mod NANOS | None => 0 end.

(** The authentication results of a message: SPF, DKIM, the From: domain and DMARC. *)
Record AuthResults := mkResults {
  ar_spf : option SpfResult; ar_dkim : list DkimOutcome; ar_from : str; ar_spf_domain : str;
  ar_dmarc : option DmarcResult }.

Definition check_auth (now : Z) (s : Server) (helo mail_from : str) (spf : option SpfResult) (m : Message)
    : AuthResults :=
  let dkim := if srv_resolver s then verify_dkim (Message_to_bytes m) else [] in
  let from_domain := default [] (Headers_get (msg_headers m) (lit "From") ≫= from_header_domain) in
  let spf_domain := match rsplit_once AT mail_from with Some (_, d) => d | None => helo end in
  let dkim_pass := dk_domain <$> filter (λ o, dk_result o = DkimPass) dkim in
  let dmarc := if srv_resolver s && negb (bool_decide (from_domain = []))
               then Some (evaluate_dmarc lookup_txt psl_domain (subsec_nanos now) from_domain
                            (default SpfNone spf) spf_domain dkim_pass)
               else None in
  mkResults spf dkim from_domain spf_domain dmarc.

Definition fold_report (s : Server) (r : AuthResults) : Server :=
  match ar_dmarc r with
  | Some result =>
      set_aggregator s
        (aggregator_record (srv_aggregator s) result ip (ar_from r) (ar_spf_domain r)
           (SpfResult_as_str (default SpfNone (ar_spf r)))
           ((λ o, (dk_domain o, DkimResult_as_str (dk_result o))) <$> ar_dkim r))
  | None => s
  end.

Definition stamp_inbound (now : Z) (s : Server) (helo proto mail_from : str) (r : AuthResults) (m : Message)
    : option Message :=
  let m := prepend_header (authentication_results_header (srv_helo s) (ar_spf r) mail_from (ar_dkim r)
                             (DmarcResult_as_str <$> ar_dmarc r) (ar_from r)) m in
  let m := match ar_spf r with
           | Some res => prepend_header (received_spf_header (SpfResult_as_str res) (srv_helo s)
                                           (ip_to_string ip) mail_from helo) m
           | None => m
           end in
  line ← received_header helo (srv_helo s) proto now;
  Some (prepend_header line m).

(** The reply to the end of the data, [None] when the date cannot be formatted. *)
Definition inbound_deliver (now : Z) (s : Server) (tls : bool) (helo : str) (env : Envelope)
    (c : InboundCollector) : option (Server * bytes) :=
  let proto := if tls then lit "ESMTPS" else lit "ESMTP" in
  let mail_from := mail_from_of env in
  match into_message c env with
  | Err _ => Some (s, wire (lit "554 message parse error"))
  | Ok m =>
      if MAX_RECEIVED_HOPS <=? received_header_count m then
        Some (s, wire (lit "554 too many Received headers; possible mail loop"))
      else
        let spf := if srv_resolver s then Some (evaluate_spf ip helo mail_from) else None in
        if bool_decide (spf = Some SpfFail) && srv_spf_enforce s then
          Some (s, wire (lit "550 5.7.23 SPF validation failed"))
        else
          let r := check_auth now s helo mail_from spf m in
          let s := fold_report s r in
          if srv_dmarc_enforce s && bool_decide (dr_disposition <$> ar_dmarc r = Some DispReject) then
            Some (s, wire (lit "550 5.7.1 DMARC policy: message rejected"))
          else
            m ← stamp_inbound now s helo proto mail_from r m;
            Some ((server_accept_inbound now s m Forbidden).1, wire (lit "250 OK message accepted"))
  end.

Definition greylisted (now : Z) (s : Server) (session : SmtpSession) (rcpt : Mailbox) : Server * bool :=
  match srv_greylist s with
  | Some (cfg, entries) =>
      let sender := default [] (Mailbox_to_string <$> sender session) in
      let '(entries, d) := grey_check_at cfg entries ip sender (Mailbox_to_string rcpt) now in
      (set_greylist s (Some (cfg, entries)), bool_decide (d = Defer))
  | None => (s, false)
  end.

Definition inbound_other (s : Server) (c : Conn SmtpSession) (command : SmtpCommand) : Step SmtpSession :=
  let '(session, reply) := smtp_handle (c_session c) command in
  let collecting := if code reply =? 354 then Some (with_max_size (srv_max_size s)) else c_collecting c in
  mkStep s (mkConn (c_tls c) session collecting) (reply_wire reply)
    (if bool_decide (command = Quit) then Close else Continue).

(** A command line; [pipelined] says that bytes follow it in the read buffer. *)
Definition inbound_command (now : Z) (s : Server) (c : Conn SmtpSession) (pipelined : bool) (line : str)
    : Step SmtpSession :=
  match SmtpCommand_parse line with
  | Err e => mkStep s c (wire (lit "500 " ++ MailError_to_string e)) Continue
  | Ok StartTls =>
      if srv_tls s && negb (c_tls c) then
        let '(session, reply) := smtp_handle (c_session c) StartTls in
        if negb (code reply =? 220) then
          mkStep s (mkConn (c_tls c) session (c_collecting c)) (reply_wire reply) Continue
        else if pipelined then
          mkStep s (mkConn (c_tls c) session (c_collecting c)) (wire (lit "503 no pipelining before STARTTLS")) Continue
        else
          mkStep s (mkConn true SmtpSession_new (c_collecting c)) (wire (lit "220 Ready to start TLS")) Continue
      else mkStep s c (wire (lit "502 STARTTLS not available")) Continue
  | Ok (Ehlo _ as command) | Ok (Helo _ as command) =>
      let '(session, reply) := smtp_handle (c_session c) command in
      let c' := mkConn (c_tls c) session (c_collecting c) in
      if srv_tls s && negb (c_tls c) then
        mkStep s c' (wire (lit "250-" ++ text reply ++ CRLF ++ lit "250 STARTTLS")) Continue
      else mkStep s c' (reply_wire reply) Continue
  | Ok (RcptTo rcpt as command) =>
      if negb (server_is_local s rcpt) then
        mkStep s c (wire (lit "550 <" ++ Mailbox_to_string rcpt ++ lit "> relay not permitted")) Continue
      else
        let '(s, grey) := greylisted now s (c_session c) rcpt in
        if grey then mkStep s c (wire (lit "451 4.7.1 greylisted; please retry later")) Continue
        else inbound_other s c command
  | Ok command => inbound_other s c command
  end.

Definition inbound_step (now : Z) (s : Server) (c : Conn SmtpSession) (pipelined : bool) (line : bytes)
    : Step SmtpSession :=
  match c_collecting c with
  | Some collector =>
      let '(collector, fin) := push_line collector line in
      if ic_size_exceeded collector then
        mkStep s (mkConn (c_tls c) (c_session c) (Some collector))
          (wire (lit "552 message exceeds the maximum size; closing")) Close
      else if fin then
        let helo := default (lit "unknown") (helo (c_session c)) in
        let '(session, env) := take_envelope (c_session c) in
        let c' := mkConn (c_tls c) session None in
        match env with
        | None => mkStep s c' (wire (lit "554 no valid recipients")) Continue
        | Some env =>
            match inbound_deliver now s (c_tls c) helo env collector with
            | Some (s, reply) => mkStep s c' reply Continue
            | None => mkStep s c' [] Panic
            end
        end
      else mkStep s (mkConn (c_tls c) (c_session c) (Some collector)) [] Continue
  | None => inbound_command now s c pipelined (from_utf8_lossy line)
  end.

(** ** Submission *)

Definition submission_deliver (now : Z) (s : Server) (tls : bool) (helo : str) (env : Envelope)
    (c : InboundCollector) : option (Server * bytes) :=
  let proto := if tls then lit "ESMTPSA" else lit "ESMTPA" in
  match into_message c env with
  | Err _ => Some (s, wire (lit "554 message parse error"))
  | Ok m =>
      if MAX_RECEIVED_HOPS <=? received_header_count m then
        Some (s, wire (lit "554 too many Received headers; possible mail loop"))
      else
        line ← received_header helo (srv_helo s) proto now;
        Some ((server_accept_inbound now s (prepend_header line m) Permitted).1,
              wire (lit "250 OK message accepted"))
  end.

Definition record_auth (now : Z) (s : Server) (code : Z) : Server :=
  if code =? 235 then set_throttle s (record_success (srv_throttle s) ip)
  else if code =? 535 then set_throttle s (record_failure_at (srv_throttle_config s) (srv_throttle s) ip now)
  else s.

Definition submission_auth (now : Z) (s : Server) (c : Conn MsaSession) (rest : str) : Step MsaSession :=
  if srv_tls s && negb (c_tls c) then
    mkStep s c (wire (lit "530 Must issue a STARTTLS command first")) Continue
  else if negb (throttle_check_at (srv_throttle s) ip now) then
    mkStep s c (wire (lit "421 4.7.0 too many failed authentication attempts; try again later")) Close
  else
    let b64 := trim rest in
    let '(msa, reply) := if bool_decide (b64 = [])
                         then (c_session c, mkReply 501 (lit "AUTH PLAIN requires an initial response"))
                         else authenticate_plain base64_decode auth (c_session c) b64 in
    mkStep (record_auth now s (code reply)) (mkConn (c_tls c) msa (c_collecting c)) (reply_wire reply) Continue.

Definition submission_other (s : Server) (c : Conn MsaSession) (command : SmtpCommand) : Step MsaSession :=
  let '(msa, reply) := msa_handle (c_session c) command in
  let collecting := if code reply =? 354 then Some (with_max_size (srv_max_size s)) else c_collecting c in
  mkStep s (mkConn (c_tls c) msa collecting) (reply_wire reply)
    (if bool_decide (command = Quit) then Close else Continue).

Definition submission_command (now : Z) (s : Server) (c : Conn MsaSession) (pipelined : bool) (line : str)
    : Step MsaSession :=
  match strip_prefix_ci (trim_end line) (lit "AUTH PLAIN") with
  | SlicePanic => mkStep s c [] Panic
  | Stripped rest => submission_auth now s c rest
  | NoPrefix =>
      match SmtpCommand_parse line with
      | Err e => mkStep s c (wire (lit "500 " ++ MailError_to_string e)) Continue
      | Ok StartTls =>
          if srv_tls s && negb (c_tls c) then
            let '(msa, reply) := msa_handle (c_session c) StartTls in
            if negb (code reply =? 220) then
              mkStep s (mkConn (c_tls c) msa (c_collecting c)) (reply_wire reply) Continue
            else if pipelined then
              mkStep s (mkConn (c_tls c) msa (c_collecting c)) (wire (lit "503 no pipelining before STARTTLS")) Continue
            else mkStep s (mkConn true MsaSession_new (c_collecting c)) (wire (lit "220 Ready to start TLS")) Continue
          else mkStep s c (wire (lit "502 STARTTLS not available")) Continue
      | Ok (Ehlo _ as command) | Ok (Helo _ as command) =>
          let '(msa, reply) := msa_handle (c_session c) command in
          let c' := mkConn (c_tls c) msa (c_collecting c) in
          if srv_tls s && negb (c_tls c) then
            mkStep s c' (wire (lit "250-" ++ text reply ++ CRLF ++ lit "250 STARTTLS")) Continue
          else if c_tls c then
            mkStep s c' (wire (lit "250-" ++ text reply ++ CRLF ++ lit "250 AUTH PLAIN")) Continue
          else mkStep s c' (reply_wire reply) Continue
      | Ok command => submission_other s c command
      end
  end.

Definition submission_step (now : Z) (s : Server) (c : Conn MsaSession) (pipelined : bool) (line : bytes)
    : Step MsaSession :=
  match c_collecting c with
  | Some collector =>
      let '(collector, fin) := push_line collector line in
      if ic_size_exceeded collector then
        mkStep s (mkConn (c_tls c) (c_session c) (Some collector))
          (wire (lit "552 message exceeds the maximum size; closing")) Close
      else if fin then
        let helo := default (lit "unknown") (helo (msa_smtp (c_session c))) in
        let '(msa, env) := msa_take (c_session c) in
        let c' := mkConn (c_tls c) msa None in
        match env with
        | None => mkStep s c' (wire (lit "554 no valid recipients")) Continue
        | Some env =>
            match submission_deliver now s (c_tls c) helo env collector with
            | Some (s, reply) => mkStep s c' reply Continue
            | None => mkStep s c' [] Panic
            end
        end
      else mkStep s (mkConn (c_tls c) (c_session c) (Some collector)) [] Continue
  | None => submission_command now s c pipelined (from_utf8_lossy line)
  end.

End loops.

(** * The line reader *)

(** The specification, on the whole stream: a line up to and including its LF,
    if it ends within the limit; otherwise too long if the stream goes past the
    limit, and else the rest of the stream. *)
Definition read_line_spec (stream : bytes) (max : Z) : LineRead * bytes :=
  match position LF stream with
  | Some p => if Z.of_nat p + 1 <=? max then (ReadLine, take (p + 1) stream)
              else (TooLong, take (Z.to_nat max) stream)
  | None => if max <? len stream then (TooLong, take (Z.to_nat max) stream)
            else (if bool_decide (stream = []) then Eof else ReadLine, stream)
  end.

Lemma position_app c a b :
  position c (a ++ b) = match position c a with
                        | Some p => Some p
                        | None => (λ p, (length a + p)%nat) <$> position c b
                        end.
Proof.
  induction a as [|x a IH]; simpl; [by destruct (position c b)|].
  destruct (x =? c); [done|]. rewrite IH. destruct (position c a); [done|]. by destruct (position c b).
Qed.
Lemma position_lt c l p : position c l = Some p → (p < length l)%nat.
Proof.
  revert p. induction l as [|x l IH]; simpl; [done|]. intros p. destruct (x =? c); [intros [= <-]; lia|].
  destruct (position c l); simpl; [|done]. intros [= <-]. specialize (IH _ eq_refl). lia.
Qed.

Lemma take_two {X} (n : nat) (a b c : list X) :
  (length a ≤ n)%nat → (n ≤ length a + length b)%nat → take n (a ++ b ++ c) = a ++ take (n - length a) b.
Proof. intros Ha Hb. rewrite take_app, take_ge by lia. f_equal. by rewrite take_app_le by lia. Qed.

(** A line that ends in this chunk, within the limit. *)
Lemma read_line_spec_line buf chunk rest max p :
  position LF buf = None → position LF chunk = Some p → len buf + Z.of_nat (p + 1) ≤ max →
  read_line_spec (buf ++ chunk ++ rest) max = (ReadLine, buf ++ take (p + 1) chunk).
Proof.
  intros Hb Hc Hm. pose proof (position_lt _ _ _ Hc). unfold read_line_spec.
  rewrite !position_app, Hb, Hc. cbn [fmap option_fmap option_map]. unfold len in Hm.
  destruct (Z.leb_spec (Z.of_nat (length buf + p) + 1) max); [|lia].
  rewrite take_two by lia. do 3 f_equal. lia.
Qed.

(** The limit is passed in this chunk. *)
Lemma read_line_spec_long buf chunk rest max n :
  position LF buf = None → len buf ≤ max →
  n = match position LF chunk with Some p => (p + 1)%nat | None => length chunk end →
  max < len buf + Z.of_nat n →
  read_line_spec (buf ++ chunk ++ rest) max = (TooLong, buf ++ take (Z.to_nat (max - len buf)) chunk).
Proof.
  intros Hb Hl Hn Hm.
  assert (n ≤ length chunk)%nat as Hle.
  { destruct (position LF chunk) eqn:E; subst; [apply position_lt in E; lia|done]. }
  assert (take (Z.to_nat max) (buf ++ chunk ++ rest) = buf ++ take (Z.to_nat (max - len buf)) chunk) as Ht.
  { unfold len in *. rewrite take_two by lia. do 2 f_equal. lia. }
  unfold read_line_spec. rewrite Ht, !position_app, Hb.
  destruct (position LF chunk) as [p|]; cbn [fmap option_fmap option_map].
  - match goal with |- context [?a <=? max] => destruct (Z.leb_spec a max) end; [unfold len in *; lia|done].
  - destruct (position LF rest); cbn [fmap option_fmap option_map].
    + match goal with |- context [?a <=? max] => destruct (Z.leb_spec a max) end; [unfold len in *; lia|done].
    + match goal with |- context [max <? ?a] => destruct (Z.ltb_spec max a) end; [done|].
      autorewrite with len in *. pose proof (len_nonneg rest). unfold len in *. lia.
Qed.

Lemma read_line_loop_spec chunks max buf :
  Forall (λ c, c ≠ []) chunks → position LF buf = None → len buf ≤ max →
  let '(r, buf', rest) := read_line_loop buf chunks max in
  (r, buf') = read_line_spec (buf ++ concat chunks) max ∧ buf' ++ concat rest = buf ++ concat chunks ∧
  len buf' ≤ max.
Proof.
  intros Hne. revert buf. induction Hne as [|chunk rest Hc _ IH]; intros buf Hp Hl; cbn [read_line_loop concat].
  { rewrite app_nil_r. unfold read_line_spec. rewrite Hp. destruct (Z.ltb_spec max (len buf)); [lia|].
    done. }
  rewrite bool_decide_false by done. pose proof (len_nonneg buf).
  set (n := match position LF chunk with Some p => (p + 1)%nat | None => length chunk end).
  destruct (Z.ltb_spec max (len buf + Z.of_nat n)) as [Hlong|Hok].
  { rewrite (read_line_spec_long buf chunk _ max n) by done. split_and!; [done| |].
    - cbn [concat]. by rewrite <-app_assoc, (app_assoc (take _ chunk)), take_drop.
    - autorewrite with len. unfold len. rewrite length_take. unfold len in *. lia. }
  assert (len (take n chunk) ≤ Z.of_nat n) by (unfold len; rewrite length_take; lia).
  destruct (position LF chunk) as [p|] eqn:Ep.
  - rewrite (read_line_spec_line buf chunk _ max p) by done. split_and!; [done| |by autorewrite with len; lia].
    case_bool_decide as Hd; cbn [concat].
    + rewrite <-(take_drop n chunk) at 2. by rewrite Hd, app_nil_r, <-app_assoc.
    + by rewrite <-app_assoc, (app_assoc (take _ chunk)), take_drop.
  - unfold n. rewrite firstn_all. specialize (IH (buf ++ chunk)).
    rewrite position_app, Hp, Ep, <-app_assoc in IH. apply IH; [done|].
    autorewrite with len. unfold n, len in *. lia.
Qed.

(** The line reader does not depend on how the network cuts the stream into
    chunks: it returns the first line if it fits the limit and reports a longer
    one, never buffers more than the limit, and leaves exactly the bytes after
    what it returned. *)
Theorem read_line_capped_spec (chunks : list bytes) (max : Z) :
  0 ≤ max → Forall (λ c, c ≠ []) chunks →
  let '(r, buf, rest) := read_line_capped chunks max in
  (r, buf) = read_line_spec (concat chunks) max ∧ buf ++ concat rest = concat chunks ∧ len buf ≤ max.
Proof. intros Hmax Hne. by apply (read_line_loop_spec chunks max []). Qed.

Lemma read_line_capped_spec_witness :
  let '(r, buf, rest) := read_line_capped [lit "QU"; lit "IT" ++ CRLF ++ lit "N"; lit "OOP"] 100 in
  (r, buf) = read_line_spec (concat [lit "QU"; lit "IT" ++ CRLF ++ lit "N"; lit "OOP"]) 100 ∧
  buf ++ concat rest = concat [lit "QU"; lit "IT" ++ CRLF ++ lit "N"; lit "OOP"] ∧ len buf ≤ 100.
Proof.
  apply (read_line_capped_spec [lit "QU"; lit "IT" ++ CRLF ++ lit "N"; lit "OOP"] 100); [lia|].
  by repeat constructor.
Defined.

(** * The inbound listener *)

Lemma smtp_handle_recipients (P : Mailbox → Prop) s c :
  Forall P (recipients s) → (∀ r, c = RcptTo r → P r) → Forall P (recipients (smtp_handle s c).1).
Proof.
  intros Hs Hc. unfold smtp_handle. destruct c, (phase s); simpl; repeat case_code; simpl; try done.
  all: apply Forall_app; split; [done|]; constructor; [by apply Hc|done].
Qed.

Lemma server_accept_frame now s m a :
  srv_domains (server_accept_inbound now s m a).1 = srv_domains s ∧
  srv_tls (server_accept_inbound now s m a).1 = srv_tls s ∧
  (a = Forbidden → srv_relay (server_accept_inbound now s m a).1 = srv_relay s).
Proof.
  unfold server_accept_inbound. destruct (accept_inbound _ _ _ m) as [st r].
  destruct a; simpl; [destruct (srv_relay s); simpl|]; repeat case_bool_decide; by split_and!.
Qed.

(** A mailbox grows only if the message is addressed to it and hosted here. *)
Lemma server_accept_mailboxes now s m a mb :
  mem_list (srv_store (server_accept_inbound now s m a).1) mb ≠ mem_list (srv_store s) mb →
  ∃ r, r ∈ env_recipients (msg_envelope m) ∧ mb = Mailbox_to_string r ∧ server_is_local s r = true.
Proof.
  destruct (server_accept_local now s m a) as [-> _].
  pose proof (accept_inbound_spec_core (srv_domains s) (srv_store s) SpamFilter_new m) as H. cbv zeta in H.
  destruct (accept_inbound _ _ _ m) as [st' r]. destruct H as (_ & _ & _ & _ & Happ).
  intros Hne. destruct (Happ mb) as (new & Hl & Hn). simpl in *.
  change (store_list st' mb) with (mem_list st' mb) in Hl.
  change (store_list (srv_store s) mb) with (mem_list (srv_store s) mb) in Hl.
  assert (new ≠ []) as Hnew by (intros ->; by rewrite app_nil_r in Hl).
  match type of Hn with _ = replicate ?k _ => assert (k ≠ 0%nat) as Hk by (intros E; rewrite E in Hn; by destruct new) end.
  destruct (scan SpamFilter_new _) in Hk; [| |done]; unfold copies in Hk.
  all: match type of Hk with length ?l ≠ _ => destruct l as [|x l'] eqn:El; [done|] end.
  all: assert (x ∈ x :: l') as Hx by set_solver; rewrite <-El in Hx.
  all: apply list_elem_of_filter in Hx as [<- [Hloc Hx]%list_elem_of_filter]; exists x; split_and!; [done|done|].
  all: unfold server_is_local, is_local, route; by rewrite bool_decide_true.
Qed.

Section inbound.
Context (evaluate_spf : IpAddr → str → str → SpfResult) (verify_dkim : bytes → list DkimOutcome).
Context (lookup_txt : str → option (list str)) (psl_domain : str → option str) (ip : IpAddr).
#[local] Notation step := (inbound_step evaluate_spf verify_dkim lookup_txt psl_domain ip).
#[local] Notation deliver := (inbound_deliver evaluate_spf verify_dkim lookup_txt psl_domain ip).

(** The states of one connection: it receives lines at any time, while the other
    connections change the shared state in any way that keeps the hosted domains. *)
Inductive inbound_reach : Server → Conn SmtpSession → Prop :=
  | inbound_start s : inbound_reach s (mkConn false SmtpSession_new None)
  | inbound_line now pipelined line s c :
      inbound_reach s c → st_next (step now s c pipelined line) = Continue →
      inbound_reach (st_server (step now s c pipelined line)) (st_conn (step now s c pipelined line))
  | inbound_others s s' c : inbound_reach s c → srv_domains s' = srv_domains s → inbound_reach s' c.

Definition hosted (s : Server) (rs : list Mailbox) : Prop := Forall (λ r, server_is_local s r = true) rs.

Lemma hosted_domains s s' rs : srv_domains s' = srv_domains s → hosted s rs → hosted s' rs.
Proof. unfold hosted, server_is_local. by intros ->. Qed.

Lemma fold_report_frame s r :
  srv_domains (fold_report ip s r) = srv_domains s ∧ srv_relay (fold_report ip s r) = srv_relay s ∧
  srv_store (fold_report ip s r) = srv_store s ∧ srv_helo (fold_report ip s r) = srv_helo s ∧
  srv_dmarc_enforce (fold_report ip s r) = srv_dmarc_enforce s.
Proof. unfold fold_report. by destruct (ar_dmarc r). Qed.

Lemma greylisted_frame now s se r :
  srv_domains (greylisted ip now s se r).1 = srv_domains s ∧
  srv_relay (greylisted ip now s se r).1 = srv_relay s ∧ srv_store (greylisted ip now s se r).1 = srv_store s.
Proof. unfold greylisted. destruct (srv_greylist s) as [[cfg es]|]; [|done]. by destruct (grey_check_at _ _ _ _ _ _). Qed.

Lemma stamp_inbound_envelope now s helo proto from r m m' :
  stamp_inbound ip now s helo proto from r m = Some m' → msg_envelope m' = msg_envelope m.
Proof.
  unfold stamp_inbound. destruct (received_header _ _ _ _); simpl; [|done].
  intros [= <-]. simpl. by destruct (ar_spf r).
Qed.

Lemma inbound_deliver_frame now s tls helo env c s' reply :
  deliver now s tls helo env c = Some (s', reply) →
  srv_domains s' = srv_domains s ∧ srv_relay s' = srv_relay s ∧
  ∀ mb, mem_list (srv_store s') mb ≠ mem_list (srv_store s) mb →
    ∃ r, r ∈ env_recipients env ∧ mb = Mailbox_to_string r ∧ server_is_local s r = true.
Proof.
  unfold inbound_deliver. destruct (into_message c env) as [m|] eqn:Em; [|by intros [= <- <-]].
  apply Message_parse_inv in Em as (Henv & _).
  destruct (_ <=? _); [by intros [= <- <-]|].
  destruct (bool_decide _ && _); [by intros [= <- <-]|].
  set (r := check_auth _ _ _ _ _ _ _ _ _). destruct (fold_report_frame s r) as (Hd & Hr & Hs & _).
  destruct (_ && _); [intros [= <- <-]; by rewrite Hd, Hr, Hs|].
  destruct (stamp_inbound _ _ _ _ _ _ _ _) as [m'|] eqn:Est; simpl; [|done]. intros [= <- <-].
  apply stamp_inbound_envelope in Est.
  destruct (server_accept_frame now (fold_report ip s r) m' Forbidden) as (Hd' & _ & Hr').
  split_and!; [by rewrite Hd'|by rewrite Hr'|]. intros mb Hmb.
  destruct (server_accept_mailboxes now (fold_report ip s r) m' Forbidden mb) as (x & Hx & -> & Hl); [by rewrite Hs|].
  exists x. split_and!; [by rewrite <-Henv, <-Est|done|]. unfold server_is_local in *. by rewrite Hd in Hl.
Qed.

(** One iteration keeps the hosted domains, leaves the relay queue alone, adds
    mail only for hosted recipients of the session, and keeps its recipients
    hosted. *)
Definition inbound_ok (s : Server) (c : Conn SmtpSession) (st : Step SmtpSession) : Prop :=
  srv_domains (st_server st) = srv_domains s ∧ srv_relay (st_server st) = srv_relay s ∧
  (∀ mb, mem_list (srv_store (st_server st)) mb ≠ mem_list (srv_store s) mb →
     ∃ r, r ∈ recipients (c_session c) ∧ mb = Mailbox_to_string r ∧ server_is_local s r = true) ∧
  hosted s (recipients (c_session (st_conn st))).

(** A step that does not touch the server. *)
Lemma inbound_ok_quiet s c c' w n :
  hosted s (recipients (c_session c')) → inbound_ok s c (mkStep s c' w n).
Proof. intros Hh. by split_and!. Qed.

Lemma inbound_other_ok s0 s c command :
  srv_domains s = srv_domains s0 → srv_relay s = srv_relay s0 → srv_store s = srv_store s0 →
  hosted s0 (recipients (c_session c)) → (∀ r, command = RcptTo r → server_is_local s0 r = true) →
  inbound_ok s0 c (inbound_other s c command).
Proof.
  intros Hd Hr Hs Hh Hc. unfold inbound_other.
  pose proof (smtp_handle_recipients (λ r, server_is_local s0 r = true) (c_session c) command Hh Hc) as Hrec.
  destruct (smtp_handle _ _) as [se reply]. unfold inbound_ok. simpl in *. by rewrite Hs.
Qed.

Lemma inbound_command_ok now s c p line :
  hosted s (recipients (c_session c)) → inbound_ok s c (inbound_command ip now s c p line).
Proof.
  intros Hh. unfold inbound_command. destruct (SmtpCommand_parse line) as [command|e]; [|by apply inbound_ok_quiet].
  assert (∀ cmd, (∀ r, cmd ≠ RcptTo r) → hosted s (recipients (smtp_handle (c_session c) cmd).1)) as Hrec.
  { intros cmd Hcmd. apply smtp_handle_recipients; [done|]. intros r ->. by destruct (Hcmd r). }
  destruct command; try (apply inbound_other_ok; done).
  - specialize (Hrec (Helo d) ltac:(done)). destruct (smtp_handle _ _). by case_match; apply inbound_ok_quiet.
  - specialize (Hrec (Ehlo d) ltac:(done)). destruct (smtp_handle _ _). by case_match; apply inbound_ok_quiet.
  - destruct (server_is_local s rcpt) eqn:El; simpl; [|by apply inbound_ok_quiet].
    destruct (greylisted_frame now s (c_session c) rcpt) as (Hd & Hr & Hs).
    destruct (greylisted _ _ _ _ _) as [s' []]; simpl in *.
    + unfold inbound_ok. simpl. by rewrite Hs.
    + apply inbound_other_ok; [done..|]. by intros r0 [= <-].
  - destruct (_ && _); [|by apply inbound_ok_quiet].
    specialize (Hrec StartTls ltac:(done)). destruct (smtp_handle _ _) as [se reply].
    destruct (negb _); [by apply inbound_ok_quiet|]. destruct p; [by apply inbound_ok_quiet|]. apply inbound_ok_quiet. constructor.
Qed.

Lemma inbound_step_ok now s c p line :
  hosted s (recipients (c_session c)) → inbound_ok s c (step now s c p line).
Proof.
  intros Hh. unfold inbound_step. destruct (c_collecting c) as [col|]; [|by apply inbound_command_ok].
  destruct (push_line col line) as [col' fin]. destruct (ic_size_exceeded col'); [by apply inbound_ok_quiet|].
  destruct fin; [|by apply inbound_ok_quiet].
  assert (hosted s (recipients (take_envelope (c_session c)).1) ∧
    ∀ e, (take_envelope (c_session c)).2 = Some e → env_recipients e = recipients (c_session c)) as [Ht He].
  { unfold take_envelope. case_bool_decide; simpl; [done|]. split; [constructor|]. by intros e [= <-]. }
  destruct (take_envelope (c_session c)) as [se [env|]]; [|by apply inbound_ok_quiet]. simpl in *.
  destruct (deliver _ _ _ _ _ _) as [[s' reply]|] eqn:Ed; [|by apply inbound_ok_quiet].
  apply inbound_deliver_frame in Ed as (Hd & Hr & Hm). rewrite (He env eq_refl) in Hm. by split_and!.
Qed.

Lemma inbound_reach_hosted s c : inbound_reach s c → hosted s (recipients (c_session c)).
Proof.
  induction 1 as [s|now p line s c _ IH _|s s' c _ IH Hd]; [constructor| |by eapply hosted_domains].
  destruct (inbound_step_ok now s c p line IH) as (Hd & _ & _ & Hh). by eapply hosted_domains.
Qed.

(** The public port is not an open relay.  In every state an inbound connection
    can reach, whatever line it then receives and whatever the sender checks
    answer, the relay queue is left as it was, every recipient accepted so far is
    in a hosted domain, and a mailbox gains mail only if it is the address of
    one of those recipients. *)
Theorem inbound_no_open_relay (now : Z) (pipelined : bool) (line : bytes) (s : Server) (c : Conn SmtpSession) :
  inbound_reach s c →
  let st := step now s c pipelined line in
  srv_relay (st_server st) = srv_relay s ∧
  Forall (λ r, server_is_local s r = true) (recipients (c_session c)) ∧
  ∀ mb, mem_list (srv_store (st_server st)) mb ≠ mem_list (srv_store s) mb →
    ∃ r, r ∈ recipients (c_session c) ∧ mb = Mailbox_to_string r ∧ server_is_local s r = true.
Proof.
  intros Hh%inbound_reach_hosted st. by destruct (inbound_step_ok now s c pipelined line Hh) as (_ & ? & ? & _).
Qed.

Lemma tls_same (b : bool) (P : Prop) : (b = true → b = true) ∧ (b = false → b = true → P).
Proof. split; [done|congruence]. Qed.

(** An upgrade to TLS forgets the cleartext session: if an iteration turns a
    cleartext inbound connection into a TLS one, it was a STARTTLS line outside
    a transaction with nothing pipelined behind it, and the session starts
    afresh; an encrypted connection never goes back. *)
Theorem inbound_starttls_fresh (now : Z) (pipelined : bool) (line : bytes) (s : Server) (c : Conn SmtpSession) :
  let st := step now s c pipelined line in
  (c_tls c = true → c_tls (st_conn st) = true) ∧
  (c_tls c = false → c_tls (st_conn st) = true →
     pipelined = false ∧ srv_tls s = true ∧ c_collecting c = None ∧
     SmtpCommand_parse (from_utf8_lossy line) = Ok StartTls ∧
     (phase (c_session c) = Greeting ∨ phase (c_session c) = Identified) ∧
     st_conn st = mkConn true SmtpSession_new None ∧ st_server st = s).
Proof.
  intros st. unfold st, inbound_step. destruct (c_collecting c) as [col|] eqn:Ec.
  { destruct (push_line col line) as [col' fin]. destruct (ic_size_exceeded col'); [apply tls_same|].
    destruct fin; [|apply tls_same]. destruct (take_envelope _) as [se [env|]]; [|apply tls_same].
    destruct (deliver _ _ _ _ _ _) as [[]|]; apply tls_same. }
  assert (∀ s' cmd, c_tls (st_conn (inbound_other s' c cmd)) = c_tls c) as Ho.
  { intros s' cmd. unfold inbound_other. by destruct (smtp_handle _ _). }
  unfold inbound_command. destruct (SmtpCommand_parse _) as [command|e] eqn:Ep; [|apply tls_same].
  destruct command; try (rewrite Ho; apply tls_same).
  - destruct (smtp_handle _ _). destruct (_ && _); apply tls_same.
  - destruct (smtp_handle _ _). destruct (_ && _); apply tls_same.
  - destruct (negb _); [apply tls_same|].
    destruct (greylisted _ _ _ _ _) as [s' []]; [|rewrite Ho]; apply tls_same.
  - destruct (srv_tls s && negb (c_tls c)) eqn:Et; [|apply tls_same]. bsimp.
    assert (code (smtp_handle (c_session c) StartTls).2 = 220 →
      phase (c_session c) = Greeting ∨ phase (c_session c) = Identified) as Hph.
    { unfold smtp_handle. destruct (phase (c_session c)); simpl; by auto. }
    destruct (smtp_handle _ _) as [se reply]. rewrite Ec. simpl in Hph.
    destruct (negb (code reply =? 220)) eqn:Eq; [apply tls_same|]. bsimp.
    destruct pipelined; [apply tls_same|]. split; [done|]. intros _ _. by split_and!; try apply Hph.
Qed.

(** No line can crash the inbound task: whatever is received, the iteration
    continues or closes the connection. *)
Theorem inbound_never_panics (now : Z) (pipelined : bool) (line : bytes) (s : Server) (c : Conn SmtpSession) :
  st_next (step now s c pipelined line) ≠ Panic.
Proof.
  unfold inbound_step. destruct (c_collecting c) as [col|].
  - destruct (push_line col line) as [col' fin]. destruct (ic_size_exceeded col'); [done|].
    destruct fin; [|done]. destruct (take_envelope _) as [se [env|]]; [|done].
    destruct (deliver _ _ _ _ _ _) as [[]|] eqn:Ed; [done|]. exfalso. revert Ed. unfold inbound_deliver.
    destruct (rfc5322_date_total now) as [date Hdate]. unfold stamp_inbound, received_header. rewrite Hdate.
    destruct (into_message col' env); [|done]. repeat case_match; done.
  - assert (∀ s' cmd, st_next (inbound_other s' c cmd) ≠ Panic) as Ho.
    { intros s' cmd. unfold inbound_other. destruct (smtp_handle _ _). simpl. by case_match. }
    unfold inbound_command. destruct (SmtpCommand_parse _) as [[]|]; try done; try apply Ho;
      repeat case_match; try done; apply Ho.
Qed.
End inbound.

(** Feed lines to an inbound connection while it stays open. *)
Fixpoint inbound_feed (spf : IpAddr → str → str → SpfResult) (dkim : bytes → list DkimOutcome)
    (txt : str → option (list str)) (psl : str → option str) (ip : IpAddr) (now : Z)
    (s : Server) (c : Conn SmtpSession) (ls : list bytes) : option (Server * Conn SmtpSession) :=
  match ls with
  | [] => Some (s, c)
  | l :: ls =>
      let st := inbound_step spf dkim txt psl ip now s c false l in
      if bool_decide (st_next st = Continue) then inbound_feed spf dkim txt psl ip now (st_server st) (st_conn st) ls
      else None
  end.
Lemma inbound_feed_reach spf dkim txt psl ip now ls s c s' c' :
  inbound_reach spf dkim txt psl ip s c → inbound_feed spf dkim txt psl ip now s c ls = Some (s', c') →
  inbound_reach spf dkim txt psl ip s' c'.
Proof.
  revert s c. induction ls as [|l ls IH]; simpl; intros s c Hr H; [by simplify_eq|].
  case_bool_decide; [|done]. eapply IH; [|done]. by apply inbound_line.
Qed.

Definition line_of (s : str) : bytes := s ++ CRLF.
Definition demo_lines : list bytes :=
  line_of <$> [lit "EHLO x"; lit "MAIL FROM:<a@b.org>"; lit "RCPT TO:<u@local.org>"; lit "RCPT TO:<v@else.org>";
               lit "DATA"; lit "Subject: hi"; []; lit "body"].
Definition no_spf (_ : IpAddr) (_ _ : str) : SpfResult := SpfNone.
Definition no_dkim (_ : bytes) : list DkimOutcome := [].
Definition demo_inbound : Server * Conn SmtpSession :=
  default (demo_server, mkConn false SmtpSession_new None)
    (inbound_feed no_spf no_dkim demo_txt demo_psl (V4 1) 0 demo_server (mkConn false SmtpSession_new None) demo_lines).

Lemma inbound_no_open_relay_witness :
  recipients (c_session demo_inbound.2) = [mkMailbox (lit "u") (lit "local.org")] ∧
  let st := inbound_step no_spf no_dkim demo_txt demo_psl (V4 1) 0 demo_inbound.1 demo_inbound.2 false (line_of (lit ".")) in
  srv_relay (st_server st) = srv_relay demo_inbound.1 ∧
  Forall (λ r, server_is_local demo_inbound.1 r = true) (recipients (c_session demo_inbound.2)) ∧
  ∀ mb, mem_list (srv_store (st_server st)) mb ≠ mem_list (srv_store demo_inbound.1) mb →
    ∃ r, r ∈ recipients (c_session demo_inbound.2) ∧ mb = Mailbox_to_string r ∧
      server_is_local demo_inbound.1 r = true.
Proof.
  split; [by vm_compute|].
  apply (inbound_no_open_relay no_spf no_dkim demo_txt demo_psl (V4 1) 0 false (line_of (lit "."))
           demo_inbound.1 demo_inbound.2).
  apply (inbound_feed_reach no_spf no_dkim demo_txt demo_psl (V4 1) 0 demo_lines demo_server
           (mkConn false SmtpSession_new None)); [apply inbound_start|]. by vm_compute.
Defined.

Lemma inbound_starttls_fresh_witness :
  let s := mkServer MemoryMailStore_new ∅ true [] None ThrottleConfig_default ∅ 100 false false false ∅ None in
  let c := mkConn false (smtp_handle SmtpSession_new (Ehlo (lit "evil"))).1 None in
  let st := inbound_step no_spf no_dkim demo_txt demo_psl (V4 1) 0 s c false (line_of (lit "STARTTLS")) in
  st_conn st = mkConn true SmtpSession_new None.
Proof.
  intros s c st.
  destruct (inbound_starttls_fresh no_spf no_dkim demo_txt demo_psl (V4 1) 0 false (line_of (lit "STARTTLS")) s c)
    as [_ H]. apply H; by vm_compute.
Defined.

(** * The submission listener *)

Section submission.
Context {A : Type} `{SessionAuth A} (base64_decode : str → result str bytes) (auth : A) (ip : IpAddr).
#[local] Notation step := (submission_step base64_decode auth ip).

(** One connection's states; the others may change everything but whether TLS is
    configured. *)
Inductive submission_reach : Server → Conn MsaSession → Prop :=
  | submission_start s : submission_reach s (mkConn false MsaSession_new None)
  | submission_line now pipelined line s c :
      submission_reach s c → st_next (step now s c pipelined line) = Continue →
      submission_reach (st_server (step now s c pipelined line)) (st_conn (step now s c pipelined line))
  | submission_others s s' c : submission_reach s c → srv_tls s' = srv_tls s → submission_reach s' c.

(** The session is one of the submission agent, and nobody has authenticated in
    it while the connection is in cleartext although TLS is on offer. *)
Definition submission_inv (s : Server) (c : Conn MsaSession) : Prop :=
  ∃ us, msa_reach base64_decode auth us (c_session c) ∧ (srv_tls s = true → c_tls c = false → us = []).

Definition submission_ok (s : Server) (c : Conn MsaSession) (st : Step MsaSession) : Prop :=
  srv_tls (st_server st) = srv_tls s ∧ submission_inv s (st_conn st) ∧
  (c_collecting c = None → srv_store (st_server st) = srv_store s ∧ srv_relay (st_server st) = srv_relay s).

Lemma submission_ok_quiet s c c' w n : submission_inv s c' → submission_ok s c (mkStep s c' w n).
Proof. intros Hi. by split; [|split]. Qed.

Lemma submission_inv_command s c cmd col :
  submission_inv s c → submission_inv s (mkConn (c_tls c) (msa_handle (c_session c) cmd).1 col).
Proof. intros (us & Hr & Ht). exists us. split; [by apply msa_cmd|done]. Qed.

Lemma submission_auth_ok now s c rest :
  submission_inv s c → submission_ok s c (submission_auth base64_decode auth ip now s c rest).
Proof.
  intros Hinv. unfold submission_auth. destruct (srv_tls s && negb (c_tls c)) eqn:Et; [by apply submission_ok_quiet|].
  destruct (negb (throttle_check_at _ _ _)); [by apply submission_ok_quiet|]. destruct Hinv as (us & Hr & Hus).
  assert (∀ k, srv_tls (record_auth ip now s k) = srv_tls s ∧ srv_store (record_auth ip now s k) = srv_store s ∧
    srv_relay (record_auth ip now s k) = srv_relay s) as Hrec.
  { intros k. unfold record_auth. by repeat case_match. }
  case_bool_decide.
  - destruct (Hrec 501) as (? & ? & ?). split_and!; [done| |done]. by exists us.
  - pose proof (msa_auth base64_decode auth us (c_session c) (trim rest) Hr) as Hr'.
    destruct (authenticate_plain _ _ _ _) as [msa reply]. destruct (Hrec (code reply)) as (? & ? & ?).
    split_and!; [done| |done]. eexists. split; [exact Hr'|]. simpl. intros E1 E2. by rewrite E1, E2 in Et.
Qed.

Lemma submission_command_ok now s c p line :
  submission_inv s c → submission_ok s c (submission_command base64_decode auth ip now s c p line).
Proof.
  intros Hinv. unfold submission_command.
  destruct (strip_prefix_ci _ _); [|by apply submission_auth_ok|by apply submission_ok_quiet].
  destruct (SmtpCommand_parse line) as [command|e]; [|by apply submission_ok_quiet].
  assert (∀ cmd col, submission_inv s (mkConn (c_tls c) (msa_handle (c_session c) cmd).1 col)) as Hh
    by (intros; by apply submission_inv_command).
  assert (∀ cmd, submission_ok s c (submission_other s c cmd)) as Ho.
  { intros cmd. unfold submission_other. specialize (Hh cmd). destruct (msa_handle _ _) as [msa reply].
    by apply submission_ok_quiet. }
  destruct command; try apply Ho.
  - specialize (Hh (Helo d) (c_collecting c)). destruct (msa_handle _ _) as [msa reply].
    by repeat case_match; apply submission_ok_quiet.
  - specialize (Hh (Ehlo d) (c_collecting c)). destruct (msa_handle _ _) as [msa reply].
    by repeat case_match; apply submission_ok_quiet.
  - destruct (_ && _); [|by apply submission_ok_quiet].
    specialize (Hh StartTls (c_collecting c)). destruct (msa_handle _ _) as [msa reply].
    destruct (negb _); [by apply submission_ok_quiet|]. destruct p; [by apply submission_ok_quiet|].
    apply submission_ok_quiet. exists []. split; [apply msa_init|done].
Qed.

Lemma submission_deliver_tls now s tls h env c s' r :
  submission_deliver now s tls h env c = Some (s', r) → srv_tls s' = srv_tls s.
Proof.
  unfold submission_deliver. destruct (into_message c env); [|by intros [= <- <-]].
  destruct (_ <=? _); [by intros [= <- <-]|].
  destruct (received_header _ _ _ _); simpl; [|done]. intros [= <- <-]. apply server_accept_frame.
Qed.

Lemma submission_step_ok now s c p line : submission_inv s c → submission_ok s c (step now s c p line).
Proof.
  intros Hinv. unfold submission_step. destruct (c_collecting c) as [col|] eqn:Ec; [|by apply submission_command_ok].
  destruct Hinv as (us & Hr & Hus).
  assert (∀ col', submission_inv s (mkConn (c_tls c) (c_session c) col')) as Hq by (intros; by exists us).
  destruct (push_line col line) as [col' fin]. destruct (ic_size_exceeded col'); [by apply submission_ok_quiet|].
  destruct fin; [|by apply submission_ok_quiet].
  assert (∀ cl, submission_inv s (mkConn (c_tls c) (msa_take (c_session c)).1 cl)) as Ht.
  { intros cl. exists us. split; [by apply msa_take_env|done]. }
  destruct (msa_take (c_session c)) as [msa [env|]]; [|by apply submission_ok_quiet].
  destruct (submission_deliver _ _ _ _ _ _) as [[s' r]|] eqn:Ed; [|by apply submission_ok_quiet].
  apply submission_deliver_tls in Ed. split_and!; [done|by apply Ht|]. congruence.
Qed.

Lemma submission_reach_inv s c : submission_reach s c → submission_inv s c.
Proof.
  induction 1 as [s|now p line s c _ IH _|s s' c _ IH Ht].
  - exists []. split; [apply msa_init|done].
  - destruct (submission_step_ok now s c p line IH) as (Ht & (us & Hr & Hus) & _). exists us. by rewrite Ht.
  - destruct IH as (us & Hr & Hus). exists us. by rewrite Ht.
Qed.

(** A connection whose session has an envelope to give is a logged-in user's own, over TLS
    if the server has TLS. *)
Lemma submission_envelope_authentic (s : Server) (c : Conn MsaSession) (env : Envelope) :
  submission_reach s c → (msa_take (c_session c)).2 = Some env →
  ∃ m u p, sender (msa_smtp (c_session c)) = Some m ∧ lowercase (Mailbox_to_string m) = lowercase u ∧
    auth_check auth u p = true ∧ (srv_tls s = true → c_tls c = true).
Proof.
  intros (us & Hr & Hus)%submission_reach_inv Et.
  destruct (msa_sender_authentic_core base64_decode auth us (c_session c) env Hr Et) as (m & u & p & Hs & _ & Hl & Ha).
  exists m, u, p. split_and!; [|done|done|].
  - revert Et Hs. unfold msa_take, take_envelope. case_bool_decide; simpl; [done|]. by intros [= <-].
  - intros Htls. destruct (c_tls c) eqn:Ec; [done|]. exfalso. specialize (Hus Htls eq_refl). subst us.
    apply msa_reach_inv in Hr as (_ & _ & _ & Hs'). revert Et. unfold msa_take, take_envelope.
    case_bool_decide as Hrec; simpl; [done|]. intros _.
    destruct Hs' as (? & ? & _ & Hin & _); [by right|]. set_solver.
Qed.
Lemma submission_step_authentic (now : Z) (pipelined : bool) (line : bytes) (s : Server) (c : Conn MsaSession) :
  submission_reach s c →
  let st := step now s c pipelined line in
  srv_store (st_server st) ≠ srv_store s ∨ srv_relay (st_server st) ≠ srv_relay s →
  ∃ m u p, sender (msa_smtp (c_session c)) = Some m ∧ lowercase (Mailbox_to_string m) = lowercase u ∧
    auth_check auth u p = true ∧ (srv_tls s = true → c_tls c = true).
Proof.
  intros Hr st Hch. destruct (submission_step_ok now s c pipelined line (submission_reach_inv _ _ Hr)) as (_ & _ & Hquiet).
  destruct (msa_take (c_session c)).2 as [env|] eqn:Et; [by eapply submission_envelope_authentic|].
  exfalso. unfold st in Hch. destruct (c_collecting c) as [col|] eqn:Ec.
  - revert Hch. unfold submission_step. rewrite Ec. destruct (push_line col line) as [col' fin].
      destruct (ic_size_exceeded col'); [simpl; tauto|]. destruct fin; [|simpl; tauto].
      destruct (msa_take (c_session c)) as [msa o]. simpl in Et. subst o. simpl. tauto.
  - destruct (Hquiet eq_refl). tauto.
Qed.

(** No mail enters through the submission port without a password.  If an
    iteration changes a mailbox or the relay queue, the session holds an envelope
    whose sender is the address (up to ASCII case) of a user whose password was
    accepted on this connection, and that happened over TLS whenever the server
    has TLS. *)
Theorem submission_authenticated (now : Z) (pipelined : bool) (line : bytes) (s : Server) (c : Conn MsaSession) :
  submission_reach s c →
  let st := step now s c pipelined line in
  srv_store (st_server st) ≠ srv_store s ∨ srv_relay (st_server st) ≠ srv_relay s →
  ∃ m u p, sender (msa_smtp (c_session c)) = Some m ∧ lowercase (Mailbox_to_string m) = lowercase u ∧
    auth_check auth u p = true ∧ (srv_tls s = true → c_tls c = true).
Proof. apply submission_step_authentic. Qed.

(** A password is never checked in cleartext on a server with TLS, nor for a
    locked-out address: [AUTH PLAIN] is refused without consulting the
    authenticator or the throttle's counters, and a lockout closes the
    connection. *)
Theorem submission_auth_refused (now : Z) (s : Server) (c : Conn MsaSession) (rest : str) :
  (srv_tls s = true → c_tls c = false →
     submission_auth base64_decode auth ip now s c rest =
     mkStep s c (wire (lit "530 Must issue a STARTTLS command first")) Continue) ∧
  (srv_tls s = false ∨ c_tls c = true → throttle_check_at (srv_throttle s) ip now = false →
     submission_auth base64_decode auth ip now s c rest =
     mkStep s c (wire (lit "421 4.7.0 too many failed authentication attempts; try again later")) Close).
Proof.
  unfold submission_auth. split.
  - by intros -> ->.
  - intros Ht ->. destruct (srv_tls s), (c_tls c); simpl; naive_solver.
Qed.
End submission.

(** An unauthenticated client can crash its submission task: in any
    session state, in cleartext or over TLS, the line [AUTH PLAI] followed by a
    two-byte character makes [strip_prefix_ci] slice inside that character, which
    panics. *)
Theorem submission_preauth_panic {A} `{SessionAuth A} (b64 : str → result str bytes) (auth : A) (ip : IpAddr)
    (now : Z) (s : Server) (c : Conn MsaSession) (pipelined : bool) :
  c_collecting c = None →
  st_next (submission_step b64 auth ip now s c pipelined (lit "AUTH PLAI" ++ [195; 169] ++ CRLF)) = Panic.
Proof. intros Hc. unfold submission_step. rewrite Hc. reflexivity. Qed.

Definition demo_submission_lines : list bytes :=
  line_of <$> [lit "EHLO x"; lit "AUTH PLAIN AA=="; lit "MAIL FROM:<a@b>"; lit "RCPT TO:<v@else.org>";
               lit "DATA"; lit "Subject: hi"; []; lit "body"].
Fixpoint submission_feed {A} `{SessionAuth A} (b64 : str → result str bytes) (auth : A) (ip : IpAddr) (now : Z)
    (s : Server) (c : Conn MsaSession) (ls : list bytes) : option (Server * Conn MsaSession) :=
  match ls with
  | [] => Some (s, c)
  | l :: ls =>
      let st := submission_step b64 auth ip now s c false l in
      if bool_decide (st_next st = Continue) then submission_feed b64 auth ip now (st_server st) (st_conn st) ls
      else None
  end.
Lemma submission_feed_reach {A} `{SessionAuth A} b64 (auth : A) ip now ls s c s' c' :
  submission_reach b64 auth ip s c → submission_feed b64 auth ip now s c ls = Some (s', c') →
  submission_reach b64 auth ip s' c'.
Proof.
  revert s c. induction ls as [|l ls IH]; simpl; intros s c Hr Hf; [by simplify_eq|].
  case_bool_decide; [|done]. eapply IH; [|done]. by apply submission_line.
Qed.
Definition demo_submission : Server * Conn MsaSession :=
  default (demo_server, mkConn false MsaSession_new None)
    (submission_feed msa_demo_b64 msa_demo_auth (V4 1) spool_now demo_server (mkConn false MsaSession_new None)
       demo_submission_lines).

Lemma submission_preauth_panic_witness :
  st_next (submission_step msa_demo_b64 msa_demo_auth (V4 1) 0 demo_server (mkConn false MsaSession_new None) false
             (lit "AUTH PLAI" ++ [195; 169] ++ CRLF)) = Panic.
Proof. by apply (submission_preauth_panic msa_demo_b64 msa_demo_auth (V4 1)). Defined.

Lemma submission_authenticated_witness :
  ∃ m u p, sender (msa_smtp (c_session demo_submission.2)) = Some m ∧
    lowercase (Mailbox_to_string m) = lowercase u ∧ auth_check msa_demo_auth u p = true ∧
    (srv_tls demo_submission.1 = true → c_tls demo_submission.2 = true).
Proof.
  apply (submission_authenticated msa_demo_b64 msa_demo_auth (V4 1) spool_now false (line_of (lit "."))
           demo_submission.1 demo_submission.2).
  - apply (submission_feed_reach msa_demo_b64 msa_demo_auth (V4 1) spool_now demo_submission_lines demo_server
             (mkConn false MsaSession_new None)); [apply submission_start|].
    by vm_compute.
  - right. intros E. apply (f_equal (λ o, sp_counter <$> o)) in E. revert E. by vm_compute.
Defined.
