(* ===== verification/Access.v ===== *)
(** * The mailbox listeners: POP3, IMAP, the firewall gate and the accept loop

    services/snail_server/src/serve.rs: one iteration of [serve_pop] and of
    [serve_imap] as a function of the shared server and the connection, over the
    sessions of crates/access; the firewall in front of the inbound port; and the
    accept loop with its budget of concurrent connections, as a step relation.  A
    read error or a failed write ends a connection, which any prefix of a run covers. *)
From S2P Require Import Prelude RustStr Net Message Smtp Transport Store Auth Pop Imap Throttle AuditTrail Firewall Received Dmarc Spool Server Serve.

(** ** Writing replies *)

Definition pop_line_wire (line : str) : bytes :=
  (if starts_with [DOT] line then [DOT] else []) ++ wire line.
Definition write_pop_reply (r : PopReply) : bytes :=
  wire ((if pr_ok r then lit "+OK" else lit "-ERR") ++ [SP] ++ pr_message r) ++
  (if negb (pr_ok r) then []
   else match pr_body r with
        | Some body => dot_stuff body
        | None => if bool_decide (pr_lines r = []) then []
                  else (pr_lines r ≫= pop_line_wire) ++ [DOT] ++ CRLF
        end).

Definition literal_head (l : FetchLiteral) : bytes :=
  wire (lit "* " ++ show (fl_seq l) ++ lit " FETCH (RFC822 {" ++ show (len (fl_octets l)) ++ lit "}").
Definition write_imap_response (r : ImapResponse) : bytes :=
  (untagged r ≫= λ u, wire (lit "* " ++ u)) ++
  match fetch_literal r with
  | Some l => literal_head l ++ fl_octets l ++ lit ")" ++ CRLF
  | None => []
  end ++
  wire (status r).

(** Whether an auth command on this connection verifies credentials. *)
Definition credentials_checked (has_tls tls : bool) : bool := negb has_tls || tls.

Section loops.
Context {A : Type} `{SessionAuth A}.
Context (auth : A) (ip : IpAddr).

Definition count_attempt (now : Z) (s : Server) (success : bool) : Server :=
  if success then set_throttle s (record_success (srv_throttle s) ip)
  else set_throttle s (record_failure_at (srv_throttle_config s) (srv_throttle s) ip now).

(** ** POP3 *)

Definition pop_start (s : Server) : Conn Pop3Session :=
  mkConn false (if srv_tls s then Pop3Session_with_tls false else Pop3Session_new) None.
Definition pop_greeting : bytes := wire (lit "+OK Snail POP3 ready").
Definition pop_too_long : bytes := wire (lit "-ERR line too long; closing").

Definition pop_run (s : Server) (c : Conn Pop3Session) (command : PopCommand) : Server * Conn Pop3Session * PopReply :=
  let '(store, session, reply) := pop_handle auth (srv_store s) (c_session c) command in
  (set_store s store, mkConn (c_tls c) session (c_collecting c), reply).

(** One line; [pipelined]: bytes follow it in the read buffer; [handshake]: the TLS
    handshake after a successful STLS succeeds. *)
Definition pop_step (now : Z) (s : Server) (c : Conn Pop3Session) (pipelined handshake : bool) (buf : bytes)
    : Step Pop3Session :=
  let line := from_utf8_lossy buf in
  let next := if eq_ignore_case (trim_end line) (lit "QUIT") then Close else Continue in
  match PopCommand_parse line with
  | Ok PStls =>
      if pipelined then mkStep s c (wire (lit "-ERR no pipelining before STLS")) Continue else
      let '(s, c', reply) := pop_run s c PStls in
      if pr_ok reply && negb (c_tls c) && srv_tls s then
        if handshake then mkStep s (mkConn true (Pop3Session_with_tls true) None) (write_pop_reply reply) Continue
        else mkStep s c' (write_pop_reply reply) Close
      else mkStep s c' (write_pop_reply reply) Continue
  | Ok command =>
      if match command with PPass _ => credentials_checked (srv_tls s) (c_tls c) | _ => false end then
        if negb (throttle_check_at (srv_throttle s) ip now) then
          mkStep s c (wire (lit "-ERR [AUTH] too many failed attempts; try again later")) Close
        else
          let '(s, c, reply) := pop_run s c command in
          mkStep (count_attempt now s (pr_ok reply)) c (write_pop_reply reply) next
      else
        let '(s, c, reply) := pop_run s c command in
        mkStep s c (write_pop_reply reply) next
  | Err error => mkStep s c (wire (lit "-ERR " ++ error)) next
  end.

(** ** IMAP *)

Definition imap_start (s : Server) : Conn ImapSession :=
  mkConn false (if srv_tls s then ImapSession_with_tls false else ImapSession_new) None.
Definition imap_greeting : bytes := wire (lit "* OK Snail IMAP4rev1 ready").
Definition imap_too_long : bytes := wire (lit "* BAD line too long; closing").

Definition imap_run (s : Server) (c : Conn ImapSession) (t : TaggedCommand) : Conn ImapSession * ImapResponse :=
  let '(session, response) := imap_handle auth (srv_store s) (c_session c) t in
  (mkConn (c_tls c) session (c_collecting c), response).
(** [response.status.split_whitespace().nth(1) == Some("OK")]. *)
Definition status_ok (r : ImapResponse) : bool :=
  match split_whitespace (status r) !! 1%nat with Some w => w =s? lit "OK" | None => false end.

Definition imap_step (now : Z) (s : Server) (c : Conn ImapSession) (pipelined handshake : bool) (buf : bytes)
    : Step ImapSession :=
  match TaggedCommand_parse (from_utf8_lossy buf) with
  | Err error => mkStep s c (wire (lit "* BAD " ++ error)) Continue
  | Ok tagged =>
      match command tagged with
      | IStartTls =>
          if pipelined then
            mkStep s c (wire (tag tagged ++ lit " BAD pipelining not allowed before STARTTLS")) Continue
          else
          let '(c', response) := imap_run s c tagged in
          if negb (c_tls c) && srv_tls s then
            if handshake then mkStep s (mkConn true (ImapSession_with_tls true) None) (write_imap_response response) Continue
            else mkStep s c' (write_imap_response response) Close
          else mkStep s c' (write_imap_response response) Continue
      | ILogin _ _ =>
          if credentials_checked (srv_tls s) (c_tls c) then
            if negb (throttle_check_at (srv_throttle s) ip now) then
              mkStep s c (wire (tag tagged ++ lit " NO [UNAVAILABLE] too many failed attempts; try again later")) Close
            else
              let '(c, response) := imap_run s c tagged in
              mkStep (count_attempt now s (status_ok response)) c (write_imap_response response) Continue
          else
            let '(c, response) := imap_run s c tagged in
            mkStep s c (write_imap_response response) Continue
      | cmd =>
          let '(c, response) := imap_run s c tagged in
          mkStep s c (write_imap_response response) (match cmd with ILogout => Close | _ => Continue end)
      end
  end.
End loops.

(** ** The firewall in front of the inbound port *)

Section gate.
Context {L : Type} (check_key : L → IpAddr → Z → L * bool) (retain_recent : L → Z → L).
(** [inl]: the connection is served; [inr]: what a refused peer is sent. *)
Definition inbound_gate (f : Firewall) (peer : IpAddr) (now : Z) : Firewall * (Conn SmtpSession + bytes) :=
  let '(f, d) := fw_check check_key retain_recent f peer now in
  (f, match d with
      | FwAllow => inl (mkConn false SmtpSession_new None)
      | FwDeny _ => inr (wire (lit "421 Service not available"))
      end).
End gate.

(** ** The accept loop *)

Record ConcurrencyLimits := mkLimits { lim_submission : Z; lim_pop3 : Z; lim_imap : Z; lim_inbound : Z }.
Definition ConcurrencyLimits_default : ConcurrencyLimits := mkLimits 256 256 256 512.

(** The permits left in the semaphore, whether the loop holds one for the next
    connection, and the connections being served. *)
Record AcceptLoop := mkAccept { al_permits : Z; al_holding : bool; al_serving : Z }.
Definition AcceptLoop_new (limit : Z) : AcceptLoop := mkAccept limit false 0.
Inductive accept_step : AcceptLoop → AcceptLoop → Prop :=
  | accept_acquire p n : 0 < p → accept_step (mkAccept p false n) (mkAccept (p - 1) true n)
  | accept_failed p n : accept_step (mkAccept p true n) (mkAccept (p + 1) false n)
  | accept_spawn p n : accept_step (mkAccept p true n) (mkAccept p false (n + 1))
  | accept_finish p h n : 0 < n → accept_step (mkAccept p h n) (mkAccept (p + 1) h (n - 1)).

(** * POP3 connections *)

Section pop_conn.
Context {A : Type} `{SessionAuth A} (auth : A) (ip : IpAddr).

(** One connection among others, which change the shared state in any way that keeps
    the TLS configuration.  The history holds the lines the connection has sent, each
    with the server as it was when the line was read. *)
Inductive pop_conn_reach : list (Server * bytes) → Server → Conn Pop3Session → Prop :=
  | pop_conn_start s : pop_conn_reach [] s (pop_start s)
  | pop_conn_line now pipelined handshake buf h s c :
      pop_conn_reach h s c → st_next (pop_step auth ip now s c pipelined handshake buf) = Continue →
      pop_conn_reach (h ++ [(s, buf)]) (st_server (pop_step auth ip now s c pipelined handshake buf))
        (st_conn (pop_step auth ip now s c pipelined handshake buf))
  | pop_conn_others h s s' c : pop_conn_reach h s c → srv_tls s' = srv_tls s → pop_conn_reach h s' c.

(** The session of the connection is a run of the POP3 session that started on the
    channel the connection is on. *)
Definition pop_conn_inv (s : Server) (c : Conn Pop3Session) : Prop :=
  (srv_tls s = false → c_tls c = false) ∧
  ∃ s0 store, s0 = mkPop Authorization None None [] ∅ (srv_tls s) (c_tls c) ∧ pop_reach (S:=MemoryMailStore) auth s0 store (c_session c).

Lemma pop_run_spec s c cmd :
  pop_run auth s c cmd =
  (set_store s (pop_handle auth (srv_store s) (c_session c) cmd).1.1,
   mkConn (c_tls c) (pop_handle auth (srv_store s) (c_session c) cmd).1.2 (c_collecting c),
   (pop_handle auth (srv_store s) (c_session c) cmd).2).
Proof. unfold pop_run. by destruct (pop_handle auth (srv_store s) (c_session c) cmd) as [[? ?] ?]. Qed.

(** What a line does to the rest of the server: the store moves by the session's
    step, and the throttle by the attempt it counts. *)
Lemma pop_step_cases now s c pipelined handshake buf :
  let st := pop_step auth ip now s c pipelined handshake buf in
  srv_tls (st_server st) = srv_tls s ∧ srv_relay (st_server st) = srv_relay s ∧
  ((srv_store (st_server st) = srv_store s ∧ st_conn st = c) ∨
   (srv_store (st_server st) = srv_store s ∧ srv_tls s = true ∧ st_conn st = mkConn true (Pop3Session_with_tls true) None) ∨
   (∃ cmd, PopCommand_parse (from_utf8_lossy buf) = Ok cmd ∧
      srv_store (st_server st) = (pop_handle auth (srv_store s) (c_session c) cmd).1.1 ∧
      st_conn st = mkConn (c_tls c) (pop_handle auth (srv_store s) (c_session c) cmd).1.2 (c_collecting c))).
Proof.
  unfold pop_step. destruct (PopCommand_parse (from_utf8_lossy buf)) as [cmd|err]; [|simpl; auto].
  assert ((pop_handle auth (srv_store s) (c_session c) PStls).1.1 = srv_store s) as Hstls.
  { unfold pop_handle. by destruct (ps_state (c_session c)). }
  destruct cmd; try rewrite pop_run_spec; simpl; try (split_and!; [done..|]; right; right; eexists; by split_and!).
  - destruct pipelined; [simpl; auto|].
    destruct (pr_ok _ && negb (c_tls c) && srv_tls s) eqn:E.
    + bsimp. destruct handshake; simpl.
      * split_and!; [done..|]. right; left. by rewrite Hstls.
      * split_and!; [done..|]. right; right. eexists. by split_and!.
    + simpl. split_and!; [done..|]. right; right. eexists. by split_and!.
  - destruct (credentials_checked (srv_tls s) (c_tls c)).
    + destruct (throttle_check_at _ _ _); simpl; [|auto]. unfold count_attempt. simpl.
      destruct (pr_ok _); simpl; (split_and!; [done..|]; right; right; eexists; by split_and!).
    + simpl. split_and!; [done..|]. right; right. eexists. by split_and!.
Qed.

Lemma pop_conn_reach_inv h s c : pop_conn_reach h s c → pop_conn_inv s c.
Proof.
  induction 1 as [s|now pipelined handshake buf h s c _ IH _|h s s' c _ IH Ht].
  - unfold pop_conn_inv, pop_start. destruct (srv_tls s); (split; [done|]); eexists _, (srv_store s); (split; [done|constructor]).
  - destruct (pop_step_cases now s c pipelined handshake buf) as (Ht & _ & Hc). unfold pop_conn_inv. rewrite Ht.
    destruct Hc as [[_ ->]|[(_ & Htls & ->)|(cmd & _ & _ & ->)]]; [done| |].
    + split; [congruence|]. eexists _, (srv_store s). split; [done|]. simpl. rewrite Htls. constructor.
    + destruct IH as [Hf (s0 & store & -> & Hr)]. split; [done|]. eexists _, _. split; [done|].
      apply (pop_cmd auth _ (srv_store s)). by eapply pop_env.
  - destruct IH as [Hf IH]. unfold pop_conn_inv. rewrite Ht. done.
Qed.

Lemma pop_conn_session h s c :
  pop_conn_reach h s c →
  cleartext (c_session c) = srv_tls s && negb (c_tls c) ∧
  (ps_state (c_session c) = Transaction → (srv_tls s = true → c_tls c = true) ∧
     ∃ user password, ps_mailbox (c_session c) = Some user ∧ auth_check auth user password = true) ∧
  (cleartext (c_session c) = true → ps_state (c_session c) ≠ Transaction).
Proof.
  intros Hr. destruct (pop_conn_reach_inv _ _ _ Hr) as [_ (s0 & store & -> & Hp)].
  destruct (pop_reach_inv auth _ _ _ (ex_intro _ _ (ex_intro _ _ eq_refl)) Hp) as (Ha & Hb & _ & _ & Hst). simpl in Ha, Hb.
  unfold cleartext in *. rewrite Ha, Hb. split; [done|]. split.
  - intros E. rewrite E in Hst. destruct Hst as (Hc & user & pw & _ & _ & Hm & Hau & _). rewrite Ha, Hb in Hc.
    split; [|by exists user, pw]. intros Ht. rewrite Ht in Hc. by destruct (c_tls c).
  - intros Hc E. rewrite E in Hst. destruct Hst as (Hc' & _). rewrite Ha, Hb in Hc'. congruence.
Qed.

(** A login in the history: USER named the user, and a PASS line, read when the server
    was [s1], gave a password the authenticator accepts. *)
Definition pop_login (h : list (Server * bytes)) (s1 : Server) (user : str) : Prop :=
  ∃ s0 line0 line1 password, (s0, line0) ∈ h ∧ PopCommand_parse (from_utf8_lossy line0) = Ok (PUser user) ∧
    (s1, line1) ∈ h ∧ PopCommand_parse (from_utf8_lossy line1) = Ok (PPass password) ∧ auth_check auth user password = true.
(** Where the data of a session comes from. *)
Definition pop_origin (h : list (Server * bytes)) (ps : Pop3Session) : Prop :=
  (∀ u, ps_pending_user ps = Some u → ∃ s0 line0, (s0, line0) ∈ h ∧ PopCommand_parse (from_utf8_lossy line0) = Ok (PUser u)) ∧
  (ps_state ps = Transaction → ∃ user s1, ps_mailbox ps = Some user ∧ pop_login h s1 user ∧
     ps_messages ps = mem_list (srv_store s1) user).

Lemma pop_origin_more h l ps : pop_origin h ps → pop_origin (h ++ [l]) ps.
Proof.
  intros [Hp Ht]. split.
  - intros u Hu. destruct (Hp u Hu) as (s0 & line0 & Hin & He). exists s0, line0. set_solver.
  - intros E. destruct (Ht E) as (user & s1 & Hm & (s0 & l0 & l1 & pw & H0 & He0 & H1 & He1) & Hms).
    exists user, s1. split; [done|]. split; [|done]. exists s0, l0, l1, pw. set_solver.
Qed.
Lemma pop_origin_handle h s buf ps cmd :
  pop_origin h ps → PopCommand_parse (from_utf8_lossy buf) = Ok cmd →
  pop_origin (h ++ [(s, buf)]) (pop_handle auth (srv_store s) ps cmd).1.2.
Proof.
  intros Ho Hp. pose proof (pop_origin_more h (s, buf) ps Ho) as [Hu Ht]. pose proof Ho as [Hu0 _]. unfold pop_handle.
  destruct (ps_state ps) eqn:Es, cmd as [ | | | | |[]| | | | | ]; cbn [fst snd]; repeat case_code; cbn [fst snd];
    (split; cbn [ps_pending_user ps_state ps_mailbox ps_messages set_state set_pending set_deleted]; rewrite ?Es; try done; try exact Hu; try exact Ht).
  - intros u [= <-]. exists s, buf. set_solver.
  - intros _. destruct (Hu0 _ eq_refl) as (s0 & l0 & Hin & He).
    eexists _, s. split; [done|]. split; [|done]. exists s0, l0, buf, password. set_solver.
  - congruence.
Qed.
Lemma pop_conn_origin h s c : pop_conn_reach h s c → pop_origin h (c_session c).
Proof.
  induction 1 as [s|now pipelined handshake buf h s c _ IH _|h s s' c _ IH Ht]; [| |done].
  - unfold pop_start. destruct (srv_tls s); done.
  - destruct (pop_step_cases now s c pipelined handshake buf) as (_ & _ & [[_ ->]|[(_ & _ & ->)|(cmd & Hp & _ & ->)]]); [|done|].
    + by apply pop_origin_more.
    + by apply pop_origin_handle.
Qed.

(** Only RETR has a body. *)
Lemma pop_body_retr store ps cmd b :
  pr_body (pop_handle (S:=MemoryMailStore) auth store ps cmd).2 = Some b →
  ps_state ps = Transaction ∧ ∃ n m, cmd = PRetr n ∧ message_at ps n = Some m ∧ b = Message_to_bytes (sm_message m).
Proof.
  unfold pop_handle. destruct (ps_state ps), cmd as [ | | | | |[]| | | | | ]; cbn [snd fst]; repeat (case_code; cbn [snd fst pr_body]); try done.
  all: cbn [pr_body]; try done. intros [= <-]. split; [done|]. eauto.
Qed.

Lemma pop_line_safe (h : list (Server * bytes)) (s : Server) (c : Conn Pop3Session) (now : Z) (pipelined handshake : bool) (buf : bytes) :
  pop_conn_reach h s c →
  let st := pop_step auth ip now s c pipelined handshake buf in
  srv_relay (st_server st) = srv_relay s ∧
  (∀ mb, mem_list (srv_store (st_server st)) mb ≠ mem_list (srv_store s) mb →
     PopCommand_parse (from_utf8_lossy buf) = Ok PQuit ∧ ps_mailbox (c_session c) = Some mb ∧
     (srv_tls s = true → c_tls c = true) ∧ (∃ s1, pop_login h s1 mb) ∧
     mem_list (srv_store (st_server st)) mb =
       filter (λ m, sm_id m ∉ ps_deleted (c_session c)) (mem_list (srv_store s) mb)) ∧
  (∀ cmd b, PopCommand_parse (from_utf8_lossy buf) = Ok cmd →
     pr_body (pop_handle auth (srv_store s) (c_session c) cmd).2 = Some b →
     (srv_tls s = true → c_tls c = true) ∧
     ∃ user s1 n m, ps_mailbox (c_session c) = Some user ∧ pop_login h s1 user ∧
       cmd = PRetr n ∧ 1 ≤ n ∧ mem_list (srv_store s1) user !! Z.to_nat (n - 1) = Some m ∧
       sm_id m ∉ ps_deleted (c_session c) ∧ b = Message_to_bytes (sm_message m) ∧
       st_wire st = wire (lit "+OK " ++ show (octets m) ++ lit " octets") ++ dot_stuff b).
Proof.
  intros Hr. pose proof (pop_conn_session _ _ _ Hr) as (_ & Htx & _). destruct (pop_conn_origin _ _ _ Hr) as [_ Hor].
  destruct (pop_step_cases now s c pipelined handshake buf) as (_ & Hrel & Hc). split_and!; [done| |].
  - intros mb Hmb. destruct Hc as [[E _]|[(E & _)|(cmd & Hp & Hst & _)]]; [by rewrite E in Hmb..|].
    pose proof (pop_deletes_marked auth (srv_store s) (c_session c) cmd) as [Hid Hq].
    destruct (decide (cmd = PQuit)) as [->|Hn]; [|by rewrite Hst, Hid in Hmb]. rewrite Hst in *.
    specialize (Hq eq_refl mb). change (store_list ?st mb) with (mem_list st mb) in Hq. rewrite Hq in Hmb |- *.
    case_decide as Hd; [|done]. destruct Hd as [Es Hm]. destruct (Htx Es) as (Ht & _).
    destruct (Hor Es) as (user & s1 & Hu & Hlog & _). rewrite Hm in Hu. injection Hu as <-. split_and!; [done..|by exists s1|done].
  - intros cmd b Hp Hb. pose proof Hb as Hb'. apply pop_body_retr in Hb as (Es & n & m & -> & Hm & ->).
    destruct (Hor Es) as (user & s1 & Hu & Hlog & Hms). split; [by apply Htx|]. exists user, s1, n, m.
    pose proof Hm as (H1 & Hat & Hdel)%message_at_Some. rewrite Hms in Hat. split_and!; [done..|].
    unfold pop_step. rewrite Hp, pop_run_spec. cbn [st_wire]. unfold pop_handle. rewrite Es. cbn [snd]. rewrite Hm. done.
Qed.

(** C23: the POP3 listener, connection by connection: whatever lines a client sends and
    whatever happens on other connections, a line never touches the relay queue, and it
    changes a mailbox only by QUIT, only the mailbox of the user who logged in on this
    connection with USER and an accepted PASS (under TLS when the server offers it), and
    only by removing the messages that user marked.  Message bytes are sent only in reply
    to RETR, only to such a user, and they are the bytes of the message of that number in
    the mailbox of that same user, as the server held it when the PASS line was read. *)
Theorem pop_conn_safe (h : list (Server * bytes)) (s : Server) (c : Conn Pop3Session) (now : Z) (pipelined handshake : bool) (buf : bytes) :
  pop_conn_reach h s c →
  let st := pop_step auth ip now s c pipelined handshake buf in
  srv_relay (st_server st) = srv_relay s ∧
  (∀ mb, mem_list (srv_store (st_server st)) mb ≠ mem_list (srv_store s) mb →
     PopCommand_parse (from_utf8_lossy buf) = Ok PQuit ∧ ps_mailbox (c_session c) = Some mb ∧
     (srv_tls s = true → c_tls c = true) ∧ (∃ s1, pop_login h s1 mb) ∧
     mem_list (srv_store (st_server st)) mb =
       filter (λ m, sm_id m ∉ ps_deleted (c_session c)) (mem_list (srv_store s) mb)) ∧
  (∀ cmd b, PopCommand_parse (from_utf8_lossy buf) = Ok cmd →
     pr_body (pop_handle auth (srv_store s) (c_session c) cmd).2 = Some b →
     (srv_tls s = true → c_tls c = true) ∧
     ∃ user s1 n m, ps_mailbox (c_session c) = Some user ∧ pop_login h s1 user ∧
       cmd = PRetr n ∧ 1 ≤ n ∧ mem_list (srv_store s1) user !! Z.to_nat (n - 1) = Some m ∧
       sm_id m ∉ ps_deleted (c_session c) ∧ b = Message_to_bytes (sm_message m) ∧
       st_wire st = wire (lit "+OK " ++ show (octets m) ++ lit " octets") ++ dot_stuff b).
Proof. apply pop_line_safe. Qed.
End pop_conn.

(** * IMAP connections *)

Section imap_conn.
Context {A : Type} `{SessionAuth A} (auth : A) (ip : IpAddr).

Inductive imap_conn_reach : list (Server * bytes) → Server → Conn ImapSession → Prop :=
  | imap_conn_start s : imap_conn_reach [] s (imap_start s)
  | imap_conn_line now pipelined handshake buf h s c :
      imap_conn_reach h s c → st_next (imap_step auth ip now s c pipelined handshake buf) = Continue →
      imap_conn_reach (h ++ [(s, buf)]) (st_server (imap_step auth ip now s c pipelined handshake buf))
        (st_conn (imap_step auth ip now s c pipelined handshake buf))
  | imap_conn_others h s s' c : imap_conn_reach h s c → srv_tls s' = srv_tls s → imap_conn_reach h s' c.

Definition imap_conn_inv (s : Server) (c : Conn ImapSession) : Prop :=
  ∃ s0 store, s0 = mkImapSession INotAuthenticated None [] (srv_tls s) (c_tls c) ∧
    imap_reach (S:=MemoryMailStore) auth s0 store (c_session c).

Lemma imap_run_spec s c t :
  imap_run auth s c t =
  (mkConn (c_tls c) (imap_handle auth (srv_store s) (c_session c) t).1 (c_collecting c),
   (imap_handle auth (srv_store s) (c_session c) t).2).
Proof. unfold imap_run. by destruct (imap_handle auth (srv_store s) (c_session c) t). Qed.

Lemma imap_step_cases now s c pipelined handshake buf :
  let st := imap_step auth ip now s c pipelined handshake buf in
  srv_tls (st_server st) = srv_tls s ∧ srv_relay (st_server st) = srv_relay s ∧ srv_store (st_server st) = srv_store s ∧
  (st_conn st = c ∨ (srv_tls s = true ∧ st_conn st = mkConn true (ImapSession_with_tls true) None) ∨
   (∃ t, TaggedCommand_parse (from_utf8_lossy buf) = Ok t ∧
      st_conn st = mkConn (c_tls c) (imap_handle auth (srv_store s) (c_session c) t).1 (c_collecting c))).
Proof.
  unfold imap_step. destruct (TaggedCommand_parse (from_utf8_lossy buf)) as [t|err]; [|simpl; auto].
  destruct (command t); try rewrite imap_run_spec; simpl;
    try (split_and!; [done..|]; right; right; exists t; by split_and!).
  - destruct pipelined; [simpl; auto|]. destruct (negb (c_tls c) && srv_tls s) eqn:E.
    + bsimp. destruct handshake; simpl; (split_and!; [done..|]); [by right; left|]. right; right. by exists t.
    + simpl. split_and!; [done..|]. right; right. by exists t.
  - destruct (credentials_checked (srv_tls s) (c_tls c)).
    + destruct (throttle_check_at _ _ _); simpl; [|auto]. unfold count_attempt.
      destruct (status_ok _); simpl; (split_and!; [done..|]; right; right; by exists t).
    + simpl. split_and!; [done..|]. right; right. by exists t.
Qed.

Lemma imap_conn_reach_inv h s c : imap_conn_reach h s c → imap_conn_inv s c.
Proof.
  induction 1 as [s|now pipelined handshake buf h s c _ IH _|h s s' c _ IH Ht].
  - unfold imap_conn_inv, imap_start. destruct (srv_tls s); eexists _, (srv_store s); (split; [done|constructor]).
  - destruct (imap_step_cases now s c pipelined handshake buf) as (Ht & _ & _ & Hc). unfold imap_conn_inv. rewrite Ht.
    destruct Hc as [->|[(Htls & ->)|(t & _ & ->)]]; [done| |].
    + eexists _, (srv_store s). split; [done|]. simpl. rewrite Htls. constructor.
    + destruct IH as (s0 & store & -> & Hr). eexists _, (srv_store s). split; [done|].
      apply (imap_cmd auth _ (srv_store s)). by eapply imap_env.
  - unfold imap_conn_inv. rewrite Ht. done.
Qed.

(** A login in the history, and a mailbox opened in it: a SELECT line, read when the
    server was [s2], named the mailbox whose key is [key] for this user. *)
Definition imap_login (h : list (Server * bytes)) (user : str) : Prop :=
  ∃ s1 line1 tg password, (s1, line1) ∈ h ∧
    TaggedCommand_parse (from_utf8_lossy line1) = Ok (mkTagged tg (ILogin user password)) ∧ auth_check auth user password = true.
Definition imap_opened (h : list (Server * bytes)) (s2 : Server) (user key : str) : Prop :=
  ∃ line2 tg name, (s2, line2) ∈ h ∧ TaggedCommand_parse (from_utf8_lossy line2) = Ok (mkTagged tg (ISelect name)) ∧
    key = if eq_ignore_case name (lit "INBOX") then user else user ++ [SLASH] ++ name.
Definition imap_origin (h : list (Server * bytes)) (ise : ImapSession) : Prop :=
  (∀ u, is_user ise = Some u → imap_login h u) ∧
  (is_state ise = ISelected → ∃ user s2 key, is_user ise = Some user ∧ imap_opened h s2 user key ∧
     is_selected ise = mem_list (srv_store s2) key).

Lemma imap_origin_more h l ise : imap_origin h ise → imap_origin (h ++ [l]) ise.
Proof.
  intros [Hu Hs]. split.
  - intros u Hus. destruct (Hu u Hus) as (s1 & l1 & tg & pw & Hin & He). exists s1, l1, tg, pw. set_solver.
  - intros E. destruct (Hs E) as (user & s2 & key & Hus & (l2 & tg & name & Hin & He) & Hsel).
    exists user, s2, key. split; [done|]. split; [|done]. exists l2, tg, name. set_solver.
Qed.
Lemma imap_origin_handle h s buf ise t :
  imap_origin h ise → TaggedCommand_parse (from_utf8_lossy buf) = Ok t →
  imap_origin (h ++ [(s, buf)]) (imap_handle auth (srv_store s) ise t).1.
Proof.
  intros Ho Hp. pose proof (imap_origin_more h (s, buf) ise Ho) as Ho'. destruct t as [tg cmd]. unfold imap_handle. cbn [command tag].
  destruct cmd; repeat case_code; try exact Ho'; pose proof Ho' as [Hu Hs]; (split; cbn [fst is_user is_state is_selected]; [|try done]);
    try exact Hu.
  - intros u [= <-]. exists s, buf. set_solver.
  - intros _. unfold mailbox_key in *. destruct (is_user ise) as [user|] eqn:Eu; [|done]. simplify_eq.
    eexists user, s, _. split; [done|]. split; [|done]. exists buf, tg, mailbox. set_solver.
Qed.
Lemma imap_conn_origin h s c : imap_conn_reach h s c → imap_origin h (c_session c).
Proof.
  induction 1 as [s|now pipelined handshake buf h s c _ IH _|h s s' c _ IH Ht]; [| |done].
  - unfold imap_start. destruct (srv_tls s); done.
  - destruct (imap_step_cases now s c pipelined handshake buf) as (_ & _ & _ & [->|[(_ & ->)|(t & Hp & ->)]]); [|done|].
    + by apply imap_origin_more.
    + by apply imap_origin_handle.
Qed.

(** C24: the IMAP listener, connection by connection: no line of any client changes a
    mailbox or the relay queue.  A FETCH literal is sent only to a user who logged in on
    this connection with an accepted password, under TLS when the server offers it, and
    its octets are those of the message of that number in a mailbox of that same user,
    the one named by a SELECT line of this connection, as the server held it when that
    line was read; it is no one else's inbox, unless that user's name has a slash. *)
Theorem imap_conn_safe (h : list (Server * bytes)) (s : Server) (c : Conn ImapSession) (now : Z) (pipelined handshake : bool) (buf : bytes) :
  imap_conn_reach h s c →
  let st := imap_step auth ip now s c pipelined handshake buf in
  srv_relay (st_server st) = srv_relay s ∧ srv_store (st_server st) = srv_store s ∧
  (∀ t l, TaggedCommand_parse (from_utf8_lossy buf) = Ok t →
     fetch_literal (imap_handle auth (srv_store s) (c_session c) t).2 = Some l →
     (srv_tls s = true → c_tls c = true) ∧
     ∃ user s2 key seq m, is_user (c_session c) = Some user ∧ imap_login h user ∧ imap_opened h s2 user key ∧
       (∀ user', SLASH ∉ user' → key = user' → user' = user) ∧
       mem_list (srv_store s2) key !! Z.to_nat (wrapping_sub_usize seq 1) = Some m ∧
       l = mkLiteral seq (Message_to_bytes (sm_message m)) ∧
       st_wire st = write_imap_response (mkImap [] (Some l) (tag t ++ lit " OK FETCH completed"))).
Proof.
  intros Hr. destruct (imap_step_cases now s c pipelined handshake buf) as (_ & Hrel & Hst & _).
  split_and!; [done..|]. intros t l Hp Hl. destruct (imap_conn_reach_inv _ _ _ Hr) as (s0 & store & -> & Hir).
  apply imap_reach_inv in Hir as (Ha & Hb & Hu & _ & _); [|done..]. simpl in Ha, Hb.
  destruct (imap_conn_origin _ _ _ Hr) as [Hlog Hor].
  assert (∃ seq m, command t = IFetch seq Full ∧ is_state (c_session c) = ISelected ∧ get_selected (c_session c) seq = Some m ∧
    l = mkLiteral seq (Message_to_bytes (sm_message m))) as (seq & m & Hcmd & Hsel & Hg & ->).
  { unfold imap_handle, imap_fetch in Hl.
    destruct (command t); simpl in Hl; try done; repeat (case_code_in Hl; simpl in Hl; try done). bsimp.
    injection Hl as <-. eexists _, _. split_and!; [done|by apply dec_stable|done|done]. }
  destruct (Hor Hsel) as (user & s2 & key & Hus & Hop & Hms).
  destruct (Hu user Hus) as (Hplain & _). unfold imap_plaintext in Hplain. rewrite Ha, Hb in Hplain.
  split; [intros Ht; rewrite Ht in Hplain; by destruct (c_tls c)|].
  exists user, s2, key, seq, m. split_and!; [done|by apply Hlog|done| | |done|].
  - intros user' Hsl ->. destruct Hop as (_ & _ & name & _ & _ & ->). revert Hsl. case_code; [done|set_solver].
  - unfold get_selected in Hg. case_code_in Hg; [|done]. by rewrite <-Hms.
  - unfold imap_step. rewrite Hp, Hcmd, imap_run_spec. cbn [st_wire]. unfold imap_handle, imap_fetch. rewrite Hcmd, Hsel, Hg. done.
Qed.
End imap_conn.

(** * Throttling across the listeners *)

(** The second word of a status line, when the tag is one word. *)
Lemma status_ok_word t w rest :
  t ≠ [] → Forall (λ x, is_whitespace x = false) t → w ≠ [] → Forall (λ x, is_whitespace x = false) w →
  status_ok (mkImap [] None (t ++ SP :: w ++ SP :: rest)) = (w =s? lit "OK").
Proof.
  intros Ht HFt Hw HFw. unfold status_ok, split_whitespace. cbn [status].
  rewrite split_on_app, split_on_app by done. rewrite (split_on_none _ t), (split_on_none _ w) by done.
  cbn [app]. rewrite !filter_cons, !decide_True by done. done.
Qed.
Lemma TaggedCommand_parse_tag line t : TaggedCommand_parse line = Ok t → tag t ≠ [].
Proof.
  unfold TaggedCommand_parse. destruct (splitn3 _) as [[tg v] a]. case_code; [done|]. bsimp.
  destruct v; [|done]. cbn [ok_or mbind result_bind]. destruct (parse_imap_command _ _); [|done]. by intros [= <-].
Qed.

(** C25: guessing is throttled on both listeners: from an address that is locked out, a
    PASS or LOGIN that would check a password is answered with a fixed refusal and the
    connection is closed, whatever the password and whoever it belongs to, and the
    server does not change; otherwise the attempt is counted, as a success exactly when
    it logs in, and as a failure when the authenticator rejects the password. *)
Theorem access_guesses_throttled {A : Type} `{SessionAuth A} (auth : A) (ip : IpAddr) (now : Z) (s : Server)
    (cp : Conn Pop3Session) (ci : Conn ImapSession) (pipelined handshake : bool) (buf : bytes) :
  (∀ password, PopCommand_parse (from_utf8_lossy buf) = Ok (PPass password) →
     credentials_checked (srv_tls s) (c_tls cp) = true →
     let st := pop_step auth ip now s cp pipelined handshake buf in
     if throttle_check_at (srv_throttle s) ip now then
       srv_throttle (st_server st) =
         (if pr_ok (pop_handle auth (srv_store s) (c_session cp) (PPass password)).2
          then record_success (srv_throttle s) ip
          else record_failure_at (srv_throttle_config s) (srv_throttle s) ip now)
     else st = mkStep s cp (wire (lit "-ERR [AUTH] too many failed attempts; try again later")) Close) ∧
  (∀ t user password, TaggedCommand_parse (from_utf8_lossy buf) = Ok (mkTagged t (ILogin user password)) →
     credentials_checked (srv_tls s) (c_tls ci) = true → imap_plaintext (c_session ci) = false →
     Forall (λ x, is_whitespace x = false) t →
     let st := imap_step auth ip now s ci pipelined handshake buf in
     if throttle_check_at (srv_throttle s) ip now then
       srv_throttle (st_server st) =
         (if auth_check auth user password then record_success (srv_throttle s) ip
          else record_failure_at (srv_throttle_config s) (srv_throttle s) ip now)
     else st = mkStep s ci (wire (t ++ lit " NO [UNAVAILABLE] too many failed attempts; try again later")) Close).
Proof.
  split.
  - intros password Hp Hc. unfold pop_step. rewrite Hp, Hc. destruct (throttle_check_at _ _ _); [|done]. simpl.
    rewrite pop_run_spec. unfold count_attempt. simpl. by destruct (pr_ok _).
  - intros t user password Hp Hc Hpl Ht. unfold imap_step. rewrite Hp, Hc. simpl. destruct (throttle_check_at _ _ _); [|done]. simpl.
    rewrite imap_run_spec. unfold count_attempt, imap_handle. simpl. rewrite Hpl.
    pose proof (TaggedCommand_parse_tag _ _ Hp) as Hne. simpl in Hne.
    destruct (auth_check auth user password); simpl; unfold imap_ok, imap_no; cbn [snd].
    + change (lit " OK " ++ lit "LOGIN completed") with (SP :: lit "OK" ++ SP :: lit "LOGIN completed").
      by rewrite status_ok_word by (done || by repeat constructor).
    + change (lit " NO " ++ lit "LOGIN failed") with (SP :: lit "NO" ++ SP :: lit "LOGIN failed").
      by rewrite status_ok_word by (done || by repeat constructor).
Qed.

(** A tag of two words or more whose second is OK decides the second word of its status
    line. *)
Lemma status_ok_tag ls lt t a ws text :
  split_whitespace t = a :: lit "OK" :: ws → status_ok (mkImap ls lt (t ++ SP :: text)) = true.
Proof.
  unfold status_ok. cbn [status]. intros Ht. unfold split_whitespace in *.
  rewrite split_on_app, filter_app, Ht by done. cbn [app lookup list_lookup]. apply str_eqb_refl.
Qed.

(** C40: a tag defeats the IMAP throttle: the outcome of a LOGIN is read back from the
    second white-space separated word of the status line, which starts with the client's
    tag, and a tag holds no space but may hold a tab.  So with any tag whose second
    white-space separated word is OK, for instance [x<HT>OK], every guess, right or wrong,
    is counted as a success: it clears the address's record, and the address is not locked
    out at any later time. *)
Theorem imap_tag_resets_throttle {A : Type} `{SessionAuth A} (auth : A) (ip : IpAddr) (now : Z) (s : Server)
    (c : Conn ImapSession) (pipelined handshake : bool) (buf : bytes) (t a : str) (ws : list str) (user password : str) :
  TaggedCommand_parse (from_utf8_lossy buf) = Ok (mkTagged t (ILogin user password)) →
  split_whitespace t = a :: lit "OK" :: ws →
  credentials_checked (srv_tls s) (c_tls c) = true → throttle_check_at (srv_throttle s) ip now = true →
  let st := imap_step auth ip now s c pipelined handshake buf in
  srv_throttle (st_server st) = record_success (srv_throttle s) ip ∧ st_next st = Continue ∧
  ∀ later, throttle_check_at (srv_throttle (st_server st)) ip later = true.
Proof.
  intros Hp Htag Hc Ht.
  assert (status_ok (imap_handle auth (srv_store s) (c_session c) (mkTagged t (ILogin user password))).2 = true) as Hok.
  { unfold imap_handle. cbn [command tag]. repeat case_code; by apply (status_ok_tag _ _ _ _ _ _ Htag). }
  unfold imap_step. rewrite Hp, Hc. cbn [command]. rewrite Ht. cbn [negb]. rewrite imap_run_spec. unfold count_attempt.
  rewrite Hok. cbn [st_server st_next]. split_and!; [done..|].
  intros later. unfold throttle_check_at, record_success. cbn [srv_throttle set_throttle]. by rewrite lookup_delete_eq.
Qed.

(** * Literals on the wire *)

(** A client's side of a literal: the line up to its end gives the count of octets. *)
Definition read_literal (w : bytes) : option (bytes * bytes) :=
  '(line, rest) ← split_once LF w;
  '(_, n) ← rsplit_once 123 line;
  '(n, _) ← split_once 125 n;
  k ← parse_uint USIZE_MAX n;
  Some (take (Z.to_nat k) rest, drop (Z.to_nat k) rest).

Lemma show_digits_no c n : is_ascii_digit c = false → 0 ≤ n → c ∉ show n.
Proof.
  intros Hc Hn Hin. pose proof (show_digits n Hn) as HF. rewrite Forall_forall in HF. specialize (HF c Hin). congruence.
Qed.
Lemma ascii_digits n : 0 ≤ n → Forall (λ c, c < 128) (show n).
Proof.
  intros Hn. eapply Forall_impl; [by apply show_digits|]. intros c Hc. unfold is_ascii_digit in Hc. bsimp. lia.
Qed.

Lemma literal_head_bytes l :
  0 ≤ fl_seq l →
  literal_head l = (lit "* " ++ show (fl_seq l) ++ lit " FETCH (RFC822 ") ++ 123 :: show (len (fl_octets l)) ++ 125 :: CRLF.
Proof.
  intros Hs. unfold literal_head, wire. rewrite utf8_encode_ascii.
  - rewrite <-!app_assoc. done.
  - pose proof (ascii_digits _ Hs). pose proof (ascii_digits _ (len_nonneg (fl_octets l))).
    rewrite !Forall_app. split_and!; try done; apply (bool_decide_eq_true (Forall (λ c, c < 128) _)); by vm_compute.
Qed.

(** IMAP literals are exact: a client that reads a FETCH reply by the octet count it
    announces gets back the message's octets, whatever bytes they are, and finds the
    closing parenthesis and the status line right after them. *)
Theorem imap_literal_roundtrip (r : ImapResponse) (l : FetchLiteral) :
  untagged r = [] → fetch_literal r = Some l → 0 ≤ fl_seq l → len (fl_octets l) ≤ USIZE_MAX →
  read_literal (write_imap_response r) = Some (fl_octets l, lit ")" ++ CRLF ++ wire (status r)).
Proof.
  intros Hu Hl Hs Hlen. unfold read_literal, write_imap_response. rewrite Hu, Hl. cbn [mbind list_bind app].
  rewrite literal_head_bytes by done. pose proof (len_nonneg (fl_octets l)) as Hn.
  assert (LF ∉ lit "* " ++ show (fl_seq l) ++ lit " FETCH (RFC822 ") as Hpre.
  { rewrite !elem_of_app. intros [Hx|[Hx|Hx]]; [|by apply (show_digits_no LF _ eq_refl Hs)|].
    all: revert Hx; apply (bool_decide_eq_false (LF ∈ _)); by vm_compute. }
  revert Hpre. generalize (lit "* " ++ show (fl_seq l) ++ lit " FETCH (RFC822 ") as pre. intros pre Hpre.
  set (digits := show (len (fl_octets l))). set (rest := lit ")" ++ CRLF ++ wire (status r)).
  assert (∀ c, is_ascii_digit c = false → c ∉ digits) as Hd by (intros; by apply show_digits_no).
  replace (((pre ++ 123 :: digits ++ 125 :: CRLF) ++ fl_octets l ++ lit ")" ++ CRLF) ++ wire (status r)) with
    ((pre ++ 123 :: digits ++ [125; CR]) ++ LF :: fl_octets l ++ rest)
    by (unfold rest, CRLF; rewrite <-!app_assoc; cbn [app]; rewrite <-!app_assoc; done).
  rewrite split_once_app.
  2: { specialize (Hd LF eq_refl). rewrite elem_of_app, elem_of_cons, elem_of_app. rewrite !elem_of_cons, elem_of_nil.
       intros [?|[?|[?|[?|[?|?]]]]]; done. }
  cbn [option_bind mbind]. rewrite rsplit_once_app.
  2: { specialize (Hd 123 eq_refl). rewrite elem_of_app, !elem_of_cons, elem_of_nil. intros [?|[?|[?|?]]]; done. }
  cbn [option_bind mbind]. rewrite split_once_app by (by apply Hd). cbn [option_bind mbind].
  unfold digits. rewrite parse_uint_show by lia. cbn [option_bind mbind].
  replace (Z.to_nat (len (fl_octets l))) with (length (fl_octets l)) by (unfold len; lia).
  by rewrite take_app_length, drop_app_length.
Qed.

(** * The accept loop *)

(** The budget of a listener holds: whatever the order of accepts, failures and
    connections ending, the permits left, the one held and the connections being served
    add up to the limit, so never more than the limit are served at once, and while
    fewer are the loop can take a step towards accepting another. *)
Theorem accept_loop_bounded (limit : Z) (l : AcceptLoop) :
  0 ≤ limit → rtc accept_step (AcceptLoop_new limit) l →
  al_permits l + Z.b2z (al_holding l) + al_serving l = limit ∧
  0 ≤ al_permits l ∧ 0 ≤ al_serving l ≤ limit ∧
  (al_serving l < limit → ∃ l', accept_step l l' ∧ al_serving l ≤ al_serving l').
Proof.
  intros Hlim Hr.
  assert (al_permits l + Z.b2z (al_holding l) + al_serving l = limit ∧ 0 ≤ al_permits l ∧ 0 ≤ al_serving l) as (Hsum & Hp & Hs).
  { revert Hr. apply (rtc_ind_r (λ l, al_permits l + Z.b2z (al_holding l) + al_serving l = limit ∧ 0 ≤ al_permits l ∧ 0 ≤ al_serving l)).
    - simpl. lia.
    - intros y z _ Hst. destruct Hst as [| | |? []]; simpl; lia. }
  destruct l as [p h n]. simpl in *. split_and!; [done..| |].
  - destruct h; simpl in *; lia.
  - intros Hn. destruct h.
    + eexists. split; [constructor|]. simpl. lia.
    + simpl in *. eexists. split; [constructor; lia|]. simpl. lia.
Qed.

(** ** Runs *)

Fixpoint pop_feed {A} `{SessionAuth A} (auth : A) (ip : IpAddr) (now : Z) (s : Server) (c : Conn Pop3Session)
    (ls : list bytes) : option (Server * Conn Pop3Session) :=
  match ls with
  | [] => Some (s, c)
  | l :: ls =>
      let st := pop_step auth ip now s c false true l in
      if bool_decide (st_next st = Continue) then pop_feed auth ip now (st_server st) (st_conn st) ls else None
  end.
Lemma pop_feed_reach {A} `{SessionAuth A} (auth : A) ip now ls : ∀ h s c s' c',
  pop_conn_reach auth ip h s c → pop_feed auth ip now s c ls = Some (s', c') → ∃ h', pop_conn_reach auth ip h' s' c'.
Proof.
  induction ls as [|l ls IH]; intros h s c s' c' Hr; cbn [pop_feed]; [intros [= <- <-]; by exists h|].
  case_bool_decide as Hn; [|done]. eapply IH. by constructor.
Qed.
Fixpoint imap_feed {A} `{SessionAuth A} (auth : A) (ip : IpAddr) (now : Z) (s : Server) (c : Conn ImapSession)
    (ls : list bytes) : option (Server * Conn ImapSession) :=
  match ls with
  | [] => Some (s, c)
  | l :: ls =>
      let st := imap_step auth ip now s c false true l in
      if bool_decide (st_next st = Continue) then imap_feed auth ip now (st_server st) (st_conn st) ls else None
  end.
Lemma imap_feed_reach {A} `{SessionAuth A} (auth : A) ip now ls : ∀ h s c s' c',
  imap_conn_reach auth ip h s c → imap_feed auth ip now s c ls = Some (s', c') → ∃ h', imap_conn_reach auth ip h' s' c'.
Proof.
  induction ls as [|l ls IH]; intros h s c s' c' Hr; cbn [imap_feed]; [intros [= <- <-]; by exists h|].
  case_bool_decide as Hn; [|done]. eapply IH. by constructor.
Qed.

(** A server that offers TLS, with one message for the user [u]. *)
Definition access_demo_server : Server :=
  let s := set_store (Server_new [lit "b.org"]) demo_store in
  mkServer (srv_store s) (srv_domains s) true (srv_helo s) (srv_relay s) (srv_throttle_config s) (srv_throttle s)
    (srv_max_size s) (srv_resolver s) (srv_spf_enforce s) (srv_dmarc_enforce s) (srv_aggregator s) (srv_greylist s).
Definition access_ip : IpAddr := V4 3221225985.
Definition crlf_line (s : str) : bytes := s ++ CRLF.
Definition pop_demo (ls : list str) : option (Server * Conn Pop3Session) :=
  pop_feed demo_auth access_ip 1000 access_demo_server (pop_start access_demo_server)
    (crlf_line <$> [lit "USER u"; lit "STLS"; lit "USER u"; lit "PASS pw"] ++ ls).
Definition imap_demo : option (Server * Conn ImapSession) :=
  imap_feed demo_auth access_ip 1000 access_demo_server (imap_start access_demo_server)
    (crlf_line <$> [lit "a STARTTLS"; lit "a LOGIN u pw"; lit "a SELECT inbox"]).

Lemma pop_conn_safe_witness :
  match pop_demo [lit "DELE 1"], pop_demo [] with
  | Some (s, c), Some (s1, c1) =>
      let st := pop_step demo_auth access_ip 1000 s c false true (crlf_line (lit "QUIT")) in
      let st1 := pop_step demo_auth access_ip 1000 s1 c1 false true (crlf_line (lit "RETR 1")) in
      (mem_list (srv_store s) (lit "u") ≠ [] ∧ mem_list (srv_store (st_server st)) (lit "u") = [] ∧
       srv_relay (st_server st) = srv_relay s ∧ c_tls c = true) ∧
      ∃ h s0 n m, pop_login demo_auth h s0 (lit "u") ∧ mem_list (srv_store s0) (lit "u") !! n = Some m ∧
        st_wire st1 = wire (lit "+OK " ++ show (octets m) ++ lit " octets") ++ dot_stuff (Message_to_bytes (sm_message m))
  | _, _ => False
  end.
Proof.
  assert (match pop_demo [lit "DELE 1"] with
          | Some (s, c) => negb (bool_decide (mem_list (srv_store s) (lit "u") = [])) &&
              bool_decide (mem_list (srv_store (st_server (pop_step demo_auth access_ip 1000 s c false true (crlf_line (lit "QUIT"))))) (lit "u") = []) &&
              srv_tls s
          | None => false end = true) as Hd by (vm_compute; reflexivity).
  destruct (pop_demo [lit "DELE 1"]) as [[s c]|] eqn:E; [|by vm_compute in E].
  destruct (pop_demo []) as [[s1 c1]|] eqn:E1; [|by vm_compute in E1].
  pose proof (pop_conn_start demo_auth access_ip access_demo_server) as Hs.
  destruct (pop_feed_reach _ _ _ _ _ _ _ _ _ Hs E) as [h Hr], (pop_feed_reach _ _ _ _ _ _ _ _ _ Hs E1) as [h1 Hr1].
  destruct (pop_conn_safe demo_auth access_ip h s c 1000 false true (crlf_line (lit "QUIT")) Hr) as (Hrel & Hq & _).
  destruct (pop_conn_safe demo_auth access_ip h1 s1 c1 1000 false true (crlf_line (lit "RETR 1")) Hr1) as (_ & _ & Hb).
  assert (ps_mailbox (c_session c1) = Some (lit "u")) as Hu by (vm_compute in E1; injection E1 as <- <-; vm_compute; reflexivity).
  split.
  - apply andb_true_iff in Hd as [[Hs1%negb_true_iff%bool_decide_eq_false Hs2%bool_decide_eq_true]%andb_true_iff Ht].
    split; [exact Hs1|]. split; [exact Hs2|]. split; [exact Hrel|]. apply (Hq (lit "u")); [|exact Ht].
    intros Heq. apply Hs1. rewrite <-Heq. exact Hs2.
  - destruct (Hb (PRetr 1) (lit "hi")) as (_ & user & s0 & n & m & Hm & Hlog & _ & _ & Hat & _ & Hbytes & Hw).
    { vm_compute. reflexivity. }
    { vm_compute in E1. injection E1 as <- <-. vm_compute. reflexivity. }
    rewrite Hu in Hm. injection Hm as <-. rewrite Hbytes in Hw. exists h1, s0, (Z.to_nat (n - 1)), m.
    split; [exact Hlog|]. split; [exact Hat|exact Hw].
Defined.

Lemma imap_conn_safe_witness :
  match imap_demo with
  | Some (s, c) =>
      let st := imap_step demo_auth access_ip 1000 s c false true (crlf_line (lit "a FETCH 1 RFC822")) in
      srv_store (st_server st) = srv_store s ∧ c_tls c = true ∧
      ∃ h s2 key n m, imap_login demo_auth h (lit "u") ∧ imap_opened h s2 (lit "u") key ∧
        mem_list (srv_store s2) key !! n = Some m ∧
        st_wire st = write_imap_response (mkImap [] (Some (mkLiteral 1 (Message_to_bytes (sm_message m)))) (lit "a OK FETCH completed"))
  | None => False
  end.
Proof.
  destruct imap_demo as [[s c]|] eqn:E; [|by vm_compute in E].
  destruct (imap_feed_reach _ _ _ _ _ _ _ _ _ (imap_conn_start demo_auth access_ip access_demo_server) E) as [h Hr].
  destruct (imap_conn_safe demo_auth access_ip h s c 1000 false true (crlf_line (lit "a FETCH 1 RFC822")) Hr) as (_ & Hst & Hl).
  assert (is_user (c_session c) = Some (lit "u")) as Hu by (vm_compute in E; injection E as <- <-; vm_compute; reflexivity).
  destruct (Hl (mkTagged (lit "a") (IFetch 1 Full)) (mkLiteral 1 (lit "hi")))
    as (Htls & user & s2 & key & seq & m & Hus & Hlog & Hop & _ & Hat & Hlit & Hw).
  { vm_compute. reflexivity. }
  { vm_compute in E. injection E as <- <-. vm_compute. reflexivity. }
  rewrite Hu in Hus. injection Hus as <-. rewrite Hlit in Hw. injection Hlit as <- _.
  split; [exact Hst|]. split; [apply Htls; vm_compute in E; injection E as <- <-; vm_compute; reflexivity|].
  exists h, s2, key, (Z.to_nat (wrapping_sub_usize 1 1)), m.
  split; [exact Hlog|]. split; [exact Hop|]. split; [exact Hat|exact Hw].
Defined.

Lemma access_guesses_throttled_witness :
  let s := set_throttle (Server_new [lit "b.org"]) {[ access_ip := mkAttempt 5 (Some 2000) 1000 ]} in
  pop_step demo_auth access_ip 1500 s (pop_start s) false true (crlf_line (lit "PASS pw")) =
  mkStep s (pop_start s) (wire (lit "-ERR [AUTH] too many failed attempts; try again later")) Close.
Proof.
  intros s. apply (proj1 (access_guesses_throttled demo_auth access_ip 1500 s (pop_start s) (imap_start s) false true
    (crlf_line (lit "PASS pw"))) (lit "pw")); by vm_compute.
Defined.

Lemma imap_tag_resets_throttle_witness :
  let s := set_throttle (Server_new [lit "b.org"]) {[ access_ip := mkAttempt 4 None 1000 ]} in
  let st := imap_step demo_auth access_ip 1500 s (imap_start s) false true (lit "x" ++ [HT] ++ lit "OK LOGIN u guess" ++ CRLF) in
  auth_check demo_auth (lit "u") (lit "guess") = false ∧ srv_throttle (st_server st) = ∅.
Proof.
  intros s st. split; [by vm_compute|]. unfold st.
  rewrite (proj1 (imap_tag_resets_throttle demo_auth access_ip 1500 s (imap_start s) false true
    (lit "x" ++ [HT] ++ lit "OK LOGIN u guess" ++ CRLF) (lit "x" ++ [HT] ++ lit "OK")
    (lit "x") [] (lit "u") (lit "guess") ltac:(by vm_compute) ltac:(by vm_compute) ltac:(by vm_compute) ltac:(by vm_compute))).
  by vm_compute.
Defined.

Lemma imap_literal_roundtrip_witness :
  let r := mkImap [] (Some (mkLiteral 7 [0; 255; 125; 13; 10])) (lit "a OK FETCH completed") in
  read_literal (write_imap_response r) = Some ([0; 255; 125; 13; 10], lit ")" ++ CRLF ++ wire (lit "a OK FETCH completed")).
Proof. intros r. by apply (imap_literal_roundtrip r (mkLiteral 7 [0; 255; 125; 13; 10])). Defined.

Lemma accept_loop_bounded_witness :
  al_permits (mkAccept 1 false 1) + Z.b2z (al_holding (mkAccept 1 false 1)) + al_serving (mkAccept 1 false 1) = 2 ∧
  0 ≤ al_permits (mkAccept 1 false 1) ∧ 0 ≤ al_serving (mkAccept 1 false 1) ≤ 2 ∧
  (al_serving (mkAccept 1 false 1) < 2 → ∃ l', accept_step (mkAccept 1 false 1) l' ∧ al_serving (mkAccept 1 false 1) ≤ al_serving l').
Proof.
  apply (accept_loop_bounded 2); [done|]. apply rtc_l with (mkAccept 1 true 0); [by apply (accept_acquire 2)|].
  apply rtc_once. apply (accept_spawn 1 0).
Defined.
