(* ===== verification/Listen.v ===== *)
(** * Whole connections

    The connection loops of services/snail_server/src/serve.rs from the greeting to
    the end of the connection: [serve_inbound], [serve_submission], [serve_pop] and
    [serve_imap] each write a greeting and then read a line, run the handler of that
    listener on it and write the reply, until the client hangs up, a line is too
    long, the handler closes, or the socket fails.  The handlers are the steps of
    Serve.v and Access.v; this file is the loop around them, with the buffered
    reader, the TLS upgrade and the interference of the other connections. *)
From S2P Require Import Prelude RustStr Net Message Smtp Transport Store Auth Pop Imap Submission Greylist Received Dmarc Firewall Server Serve Access.

(** ** The socket *)

(** What a client sends on one channel, as the reads return it, and whether the last
    read then fails instead of reporting the end.  The server has no timeout: a client
    that neither sends nor closes stays in the middle of such a run. *)
Record Stream := mkStream { sm_chunks : list bytes; sm_fails : bool }.

(** A connection as the server meets it: the cleartext channel; the channel behind a
    TLS handshake, [None] if that fails; the clock at each iteration; whether the
    writes of each iteration succeed (iteration 0 writes the greeting); and what the
    other connections do to the shared state before each iteration. *)
Record Socket := mkSocket {
  so_plain : Stream; so_tls : option Stream;
  so_clock : nat → Z; so_writes : nat → bool; so_others : nat → Server → Server }.

Inductive ConnEnd := Closed | IoFailed | Panicked.
#[export] Instance ConnEnd_eq_dec : EqDecision ConnEnd.
Proof. solve_decision. Defined.

(** What was handed to the socket: the channel (TLS or not) and the bytes. *)
#[local] Notation Log := (list (bool * bytes)).
Record Served := mkServed { sv_server : Server; sv_log : Log; sv_end : ConnEnd }.

(** [!conn.buffer().is_empty()] after a line was read from these chunks. *)
Fixpoint buffered_after (chunks : list bytes) : bool :=
  match chunks with
  | [] => false
  | chunk :: chunks =>
      match position LF chunk with
      | Some p => negb (bool_decide (drop (p + 1) chunk = []))
      | None => buffered_after chunks
      end
  end.

(** The read that ended the line was the one that found the end of the stream. *)
Definition at_end (r : LineRead) (line : bytes) : bool :=
  match r with Eof => true | ReadLine => negb (ends_with [LF] line) | TooLong => false end.

Section serve.
Context {S : Type} (step : Z → Server → Conn S → bool → bytes → Step S) (greeting too_long : bytes).

Fixpoint serve_loop (fuel : nat) (n : nat) (sk : Socket) (input : Stream) (tls : option Stream)
    (s : Server) (c : Conn S) (log : Log) : option Served :=
  match fuel with
  | O => None
  | Datatypes.S fuel =>
      let s := so_others sk n s in
      let '(r, line, rest) := read_line_capped (sm_chunks input) MAX_LINE_LENGTH in
      let written := so_writes sk n in
      if sm_fails input && at_end r line then Some (mkServed s log IoFailed) else
      match r with
      | Eof => Some (mkServed s log Closed)
      | TooLong => Some (mkServed s (log ++ [(c_tls c, too_long)]) (if written then Closed else IoFailed))
      | ReadLine =>
          let st := step (so_clock sk n) s c (buffered_after (sm_chunks input)) line in
          let log := log ++ [(c_tls c, st_wire st)] in
          if negb written then Some (mkServed (st_server st) log IoFailed) else
          match st_next st with
          | Close => Some (mkServed (st_server st) log Closed)
          | Panic => Some (mkServed (st_server st) log Panicked)
          | Continue =>
              if c_tls (st_conn st) && negb (c_tls c) then
                match tls with
                | Some tls => serve_loop fuel (1 + n) sk tls None (st_server st) (st_conn st) log
                | None => Some (mkServed (st_server st) log IoFailed)
                end
              else serve_loop fuel (1 + n) sk (mkStream rest (sm_fails input)) tls (st_server st) (st_conn st) log
          end
      end
  end.

Definition stream_size (st : Stream) : nat := length (concat (sm_chunks st)).
(** An iteration reads at least one byte of one of the two channels. *)
Definition serve_fuel (sk : Socket) : nat :=
  1 + stream_size (so_plain sk) + from_option stream_size 0%nat (so_tls sk).

Definition serve (sk : Socket) (start : Server → Conn S) (s : Server) : option Served :=
  let log := [(false, greeting)] in
  if so_writes sk 0 then serve_loop (serve_fuel sk) 1 sk (so_plain sk) (so_tls sk) s (start s) log
  else Some (mkServed s log IoFailed).
End serve.

(** ** The four listeners *)

Definition smtp_greeting : bytes := wire (lit "220 Snail ESMTP ready").
Definition smtp_too_long : bytes := wire (lit "500 line too long; closing").

Section listeners.
Context {A : Type} `{SessionAuth A} (auth : A) (base64_decode : str → result str bytes).
Context (evaluate_spf : IpAddr → str → str → SpfResult) (verify_dkim : bytes → list DkimOutcome).
Context (lookup_txt : str → option (list str)) (psl_domain : str → option str) (ip : IpAddr).

Definition serve_inbound (sk : Socket) (s : Server) : option Served :=
  serve (inbound_step evaluate_spf verify_dkim lookup_txt psl_domain ip) smtp_greeting smtp_too_long sk
    (λ _, mkConn false SmtpSession_new None) s.
Definition serve_submission (sk : Socket) (s : Server) : option Served :=
  serve (submission_step base64_decode auth ip) smtp_greeting smtp_too_long sk
    (λ _, mkConn false MsaSession_new None) s.
(** A failed handshake ends these as it ends the others. *)
Definition serve_pop (sk : Socket) (s : Server) : option Served :=
  serve (λ now s c pipelined, pop_step auth ip now s c pipelined true) pop_greeting pop_too_long sk pop_start s.
Definition serve_imap (sk : Socket) (s : Server) : option Served :=
  serve (λ now s c pipelined, imap_step auth ip now s c pipelined true) imap_greeting imap_too_long sk imap_start s.
End listeners.

(** * Every connection ends *)

Lemma read_line_loop_conserves chunks max : ∀ buf r line rest,
  read_line_loop buf chunks max = (r, line, rest) →
  buf ++ concat chunks = line ++ concat rest ∧ (r = ReadLine → line ≠ []).
Proof.
  induction chunks as [|chunk chunks IH]; simpl; intros buf r line rest.
  { intros [= <- <- <-]. split; [done|]. by case_bool_decide. }
  case_bool_decide as Hc.
  { intros [= <- <- <-]. split; [done|]. by case_bool_decide. }
  set (n := match position LF chunk with Some p => (p + 1)%nat | None => length chunk end).
  assert (n ≠ 0%nat) as Hn.
  { unfold n. destruct (position LF chunk); [lia|]. by destruct chunk. }
  destruct (max <? _).
  { intros [= <- <- <-]. split; [|done]. simpl. rewrite <-app_assoc. f_equal. by rewrite app_assoc, take_drop. }
  destruct (position LF chunk) as [p|] eqn:Ep.
  - intros [= <- <- <-]. split.
    + rewrite <-app_assoc. f_equal. case_bool_decide as Hd; simpl.
      * rewrite <-(take_drop n chunk) at 1. by rewrite Hd, app_nil_r.
      * by rewrite app_assoc, take_drop.
    + intros _. destruct buf; [|done]. destruct chunk; [done|]. by destruct n.
  - intros [Heq Hne]%IH. split; [|done]. rewrite <-Heq, <-app_assoc. unfold n. by rewrite take_ge.
Qed.

Lemma read_line_capped_shrinks chunks max r line rest :
  read_line_capped chunks max = (r, line, rest) → r = ReadLine →
  (length (concat rest) < length (concat chunks))%nat.
Proof.
  intros [Heq Hne]%read_line_loop_conserves Hr. specialize (Hne Hr). simpl in Heq.
  apply (f_equal length) in Heq. rewrite length_app in Heq. destruct line; [done|]. simpl in Heq. lia.
Qed.

Section serve_theorems.
Context {S : Type} (step : Z → Server → Conn S → bool → bytes → Step S) (greeting too_long : bytes).

(** Each iteration reads at least one byte of the channel in use, or is the last. *)
Lemma serve_loop_total sk fuel : ∀ n input tls s c log,
  (stream_size input + from_option stream_size 0%nat tls < fuel)%nat →
  ∃ v, serve_loop step too_long fuel n sk input tls s c log = Some v ∧ log `prefix_of` sv_log v.
Proof.
  induction fuel as [|fuel IH]; simpl; intros n input tls s c log Hf; [lia|].
  destruct (read_line_capped _ _) as [[r line] rest] eqn:Er.
  destruct (_ && _); [by eexists|].
  destruct r; [|by eexists|eexists; split; [done|]; simpl; by apply prefix_app_r].
  pose proof (read_line_capped_shrinks _ _ _ _ _ Er eq_refl) as Hs. unfold stream_size in Hf at 1.
  destruct (negb _); [eexists; split; [done|]; simpl; by apply prefix_app_r|].
  set (st := step _ _ _ _ _). set (log' := log ++ _).
  assert (log `prefix_of` log') as Hlog by by apply prefix_app_r.
  destruct (st_next st); try (eexists; by split).
  destruct (_ && _).
  - destruct tls as [tls|]; [|eexists; by split]. simpl in Hf.
    edestruct (IH (1 + n)%nat tls None) as (v & -> & Hp); [simpl; lia|]. exists v. split; [done|by etrans].
  - edestruct (IH (1 + n)%nat (mkStream rest (sm_fails input)) tls) as (v & -> & Hp);
      [unfold stream_size at 1; simpl; lia|]. exists v. split; [done|by etrans].
Qed.

Lemma serve_total sk start s :
  ∃ v, serve step greeting too_long sk start s = Some v ∧ [(false, greeting)] `prefix_of` sv_log v.
Proof.
  unfold serve. destruct (so_writes sk 0); [|eexists; by split].
  apply serve_loop_total. unfold serve_fuel. lia.
Qed.

(** Rely and guarantee: [I] is an invariant of the connection that no step breaks and
    that survives whatever [R] allows the others; then if every step and every
    interference stays within [R], the whole connection does. *)
Context (R : Server → Server → Prop) `{!PreOrder R} (I : Server → Conn S → Prop).
Context (Hstep : ∀ now s c p l, I s c →
  let st := step now s c p l in R s (st_server st) ∧ (st_next st = Continue → I (st_server st) (st_conn st))).
Context (Hstable : ∀ s s' c, I s c → R s s' → I s' c).

Lemma serve_loop_within sk (Hothers : ∀ n s, R s (so_others sk n s)) fuel : ∀ n input tls s c log v,
  I s c → serve_loop step too_long fuel n sk input tls s c log = Some v → R s (sv_server v).
Proof.
  induction fuel as [|fuel IH]; simpl; intros n input tls s c log v Hi; [done|].
  pose proof (Hothers n s) as Ho. pose proof (Hstable _ _ _ Hi Ho) as Hi'.
  set (s1 := so_others sk n s) in *. destruct (read_line_capped _ _) as [[r line] rest].
  destruct (_ && _); [by intros [= <-]|]. destruct r; [|by intros [= <-]|by intros [= <-]].
  pose proof (Hstep (so_clock sk n) s1 c (buffered_after (sm_chunks input)) line Hi') as [Hr Hn].
  set (st := step _ _ _ _ _) in *. assert (R s (st_server st)) as Hs by by etrans.
  destruct (negb _); [by intros [= <-]|]. destruct (st_next st); [|by intros [= <-]..].
  specialize (Hn eq_refl). destruct (_ && _); [destruct tls as [tls|]; [|by intros [= <-]]|];
    intros ?%IH; try done; by etrans.
Qed.
Lemma serve_within sk start s v :
  (∀ n s, R s (so_others sk n s)) → I s (start s) → serve step greeting too_long sk start s = Some v → R s (sv_server v).
Proof.
  unfold serve. intros Ho Hi. destruct (so_writes sk 0); [|by intros [= <-]].
  by apply serve_loop_within.
Qed.
End serve_theorems.

(** * The listeners *)

(** ** Chunks *)

(** The same bytes, cut differently by the reads. *)
Definition same_bytes (a b : Stream) : Prop :=
  Forall (λ c, c ≠ []) (sm_chunks a) ∧ Forall (λ c, c ≠ []) (sm_chunks b) ∧
  concat (sm_chunks a) = concat (sm_chunks b) ∧ sm_fails a = sm_fails b.

Lemma read_line_loop_rest_ne max chunks : Forall (λ c, c ≠ []) chunks → ∀ buf line rest,
  read_line_loop buf chunks max = (ReadLine, line, rest) → Forall (λ c, c ≠ []) rest.
Proof.
  induction 1 as [|chunk chunks Hc Hcs IH]; simpl; intros buf line rest.
  { case_bool_decide; [done|]. by intros [= <- <-]. }
  rewrite bool_decide_false by done. destruct (max <? _); [done|].
  destruct (position LF chunk) as [p|]; [|apply IH].
  intros [= <- <-]. case_bool_decide; [done|by constructor].
Qed.

Lemma read_line_same a b :
  same_bytes a b →
  let '(r, line, rest) := read_line_capped (sm_chunks a) MAX_LINE_LENGTH in
  let '(r', line', rest') := read_line_capped (sm_chunks b) MAX_LINE_LENGTH in
  r = r' ∧ line = line' ∧ (r = ReadLine → same_bytes (mkStream rest (sm_fails a)) (mkStream rest' (sm_fails b))).
Proof.
  intros (Ha & Hb & Hc & Hf). unfold read_line_capped.
  pose proof (read_line_loop_spec (sm_chunks a) MAX_LINE_LENGTH [] Ha eq_refl ltac:(done)) as Hsa.
  pose proof (read_line_loop_spec (sm_chunks b) MAX_LINE_LENGTH [] Hb eq_refl ltac:(done)) as Hsb.
  pose proof (read_line_loop_rest_ne MAX_LINE_LENGTH _ Ha []) as Hra.
  pose proof (read_line_loop_rest_ne MAX_LINE_LENGTH _ Hb []) as Hrb.
  destruct (read_line_loop [] (sm_chunks a) _) as [[r line] rest].
  destruct (read_line_loop [] (sm_chunks b) _) as [[r' line'] rest'].
  destruct Hsa as (Ea & Ca & _), Hsb as (Eb & Cb & _). rewrite Hc in Ea. rewrite <-Eb in Ea. simplify_eq.
  split_and!; [done..|]. intros ->. split_and!; simpl; [by eapply Hra|by eapply Hrb| |done].
  eapply app_inv_head. by rewrite Ca, Cb, Hc.
Qed.

(** A client that does not pipeline across STARTTLS: nothing follows a STARTTLS line on
    the channel it is sent on. *)
Definition waits (s : bytes) : Prop := ∀ pre l post,
  s = pre ++ (l ++ [LF]) ++ post → (pre = [] ∨ ∃ q, pre = q ++ [LF]) → LF ∉ l →
  SmtpCommand_parse (from_utf8_lossy (l ++ [LF])) = Ok StartTls → post = [].

Lemma waits_rest l rest : waits ((l ++ [LF]) ++ rest) → waits rest.
Proof.
  intros Hw pre l' post -> Hp. apply (Hw ((l ++ [LF]) ++ pre) l' post); [by rewrite <-!app_assoc|]. right.
  destruct Hp as [->|[q ->]]; [exists l; by rewrite app_nil_r|]. exists ((l ++ [LF]) ++ q). by rewrite <-!app_assoc.
Qed.
Lemma waits_nil : waits [].
Proof. by intros [|] [|] [|]. Qed.

Lemma position_split c l p : position c l = Some p → take (p + 1) l = take p l ++ [c] ∧ c ∉ take p l.
Proof.
  revert p. induction l as [|x l IH]; simpl; [done|]. intros p. destruct (Z.eqb_spec x c) as [->|Hx].
  - intros [= <-]. split; [done|]. by apply not_elem_of_nil.
  - destruct (position c l) as [q|]; simpl; [|done]. intros [= <-]. destruct (IH q eq_refl) as [Ht H].
    simpl. rewrite Ht. split; [done|]. rewrite elem_of_cons. by intros [?|?].
Qed.

(** What a read line is: a whole line, and bytes are left in the buffer only if bytes are
    left; or the end of the stream. *)
Lemma read_line_ends max chunks : Forall (λ c, c ≠ []) chunks → ∀ buf line rest, LF ∉ buf →
  read_line_loop buf chunks max = (ReadLine, line, rest) →
  (∃ l, line = l ++ [LF] ∧ LF ∉ l ∧ (buffered_after chunks = true → concat rest ≠ [])) ∨
  (rest = [] ∧ buffered_after chunks = false).
Proof.
  induction 1 as [|chunk chunks Hc Hcs IH]; simpl; intros buf line rest Hb.
  { case_bool_decide; [done|]. intros [= <- <-]. by right. }
  rewrite bool_decide_false by done. destruct (max <? _); [done|].
  destruct (position LF chunk) as [p|] eqn:Ep.
  - destruct (position_split _ _ _ Ep) as [-> Hp]. intros [= <- <-]. left. exists (buf ++ take p chunk).
    split; [by rewrite app_assoc|]. split; [set_solver|]. case_bool_decide as Hd; [done|].
    intros _. simpl. by intros [? _]%app_nil.
  - rewrite firstn_all. intros Hr. apply IH in Hr; [done|]. apply not_elem_of_app. split; [done|].
    clear -Ep. induction chunk as [|x chunk IH]; [apply not_elem_of_nil|]. simpl in Ep.
    destruct (Z.eqb_spec x LF); [done|]. destruct (position LF chunk); [done|]. rewrite elem_of_cons.
    intros [?|?]; [congruence|by apply IH].
Qed.

(** Two such streams agree on whether a STARTTLS line is followed by more, and the rest
    waits too. *)
Lemma waits_read a line rest :
  Forall (λ c, c ≠ []) (sm_chunks a) → waits (concat (sm_chunks a)) →
  read_line_capped (sm_chunks a) MAX_LINE_LENGTH = (ReadLine, line, rest) →
  waits (concat rest) ∧
  (SmtpCommand_parse (from_utf8_lossy line) = Ok StartTls → buffered_after (sm_chunks a) = false).
Proof.
  intros Hne Hw Hr. pose proof (proj1 (read_line_loop_conserves _ _ _ _ _ _ Hr)) as Hc. simpl in Hc.
  destruct (read_line_ends _ _ Hne [] line rest (not_elem_of_nil _) Hr) as [(l & -> & Hl & Hb)|[-> Hb]].
  - rewrite Hc in Hw. split; [by eapply waits_rest|]. intros Hs. destruct (buffered_after (sm_chunks a)); [|done].
    destruct (Hb eq_refl). apply (Hw [] l (concat rest)); auto.
  - split; [apply waits_nil|done].
Qed.

Section connections.
Context {A : Type} `{SessionAuth A} (auth : A) (base64_decode : str → result str bytes).
Context (evaluate_spf : IpAddr → str → str → SpfResult) (verify_dkim : bytes → list DkimOutcome).
Context (lookup_txt : str → option (list str)) (psl_domain : str → option str) (ip : IpAddr).
#[local] Notation inbound := (serve_inbound evaluate_spf verify_dkim lookup_txt psl_domain ip).
#[local] Notation step := (inbound_step evaluate_spf verify_dkim lookup_txt psl_domain ip).

(** C28: every connection ends.  Whatever finite bytes the client sends, however they
    are cut, whichever reads, writes or handshakes fail and whatever the other
    connections do meanwhile, each of the four listeners greets the client and
    comes to an end after at most one iteration per byte. *)
Theorem connections_end (sk : Socket) (s : Server) :
  (∃ v, inbound sk s = Some v ∧ [(false, smtp_greeting)] `prefix_of` sv_log v) ∧
  (∃ v, serve_submission auth base64_decode ip sk s = Some v ∧ [(false, smtp_greeting)] `prefix_of` sv_log v) ∧
  (∃ v, serve_pop auth ip sk s = Some v ∧ [(false, pop_greeting)] `prefix_of` sv_log v) ∧
  (∃ v, serve_imap auth ip sk s = Some v ∧ [(false, imap_greeting)] `prefix_of` sv_log v).
Proof. split_and!; apply serve_total. Qed.

(** What connections to the public port may do to the shared state. *)
Definition inbound_may (s s' : Server) : Prop :=
  srv_domains s' = srv_domains s ∧ srv_relay s' = srv_relay s ∧
  ∀ mb, mem_list (srv_store s') mb ≠ mem_list (srv_store s) mb →
    ∃ r, mb = Mailbox_to_string r ∧ server_is_local s r = true.
#[local] Instance inbound_may_preorder : PreOrder inbound_may.
Proof.
  split; [by intros s|]. intros s1 s2 s3 (Hd & Hr & Hm) (Hd' & Hr' & Hm').
  split_and!; [by rewrite Hd'|by rewrite Hr'|]. intros mb Hmb.
  destruct (decide (mem_list (srv_store s2) mb = mem_list (srv_store s1) mb)) as [E|]; [|by apply Hm].
  rewrite <-E in Hmb. destruct (Hm' mb Hmb) as (r & -> & Hl). exists r. split; [done|].
  unfold server_is_local in *. by rewrite Hd in Hl.
Qed.

(** Any number of connections to the public port together relay nothing.  From
    the greeting to the end of a connection, whatever it sends, the hosted domains
    and the relay queue stay as they were and only mailboxes of hosted domains gain
    mail, as long as the connections it is interleaved with do no more than that. *)
Theorem inbound_connections_safe (sk : Socket) (s : Server) (v : Served) :
  (∀ n s, inbound_may s (so_others sk n s)) → inbound sk s = Some v → inbound_may s (sv_server v).
Proof.
  intros Ho. apply (serve_within step _ _ inbound_may (λ s c, hosted s (recipients (c_session c)))); [| |done|constructor].
  - intros now s0 c p l Hh. destruct (inbound_step_ok evaluate_spf verify_dkim lookup_txt psl_domain ip now s0 c p l Hh)
      as (Hd & Hr & Hm & Hh'). split; [|intros _; by eapply hosted_domains].
    split_and!; [done..|]. intros mb (r & _ & -> & Hl)%Hm. by exists r.
  - intros s0 s' c Hh (Hd & _). by eapply hosted_domains.
Qed.

Lemma inbound_step_tls now s c p line : srv_tls (st_server (step now s c p line)) = srv_tls s.
Proof.
  assert (∀ s' cmd, srv_tls (st_server (inbound_other s' c cmd)) = srv_tls s') as Ho.
  { intros s' cmd. unfold inbound_other. by destruct (smtp_handle _ _). }
  unfold inbound_step. destruct (c_collecting c) as [col|].
  - destruct (push_line col line) as [col' fin]. destruct (ic_size_exceeded col'); [done|]. destruct fin; [|done].
    destruct (take_envelope (c_session c)) as [se [env|]]; [|done]. unfold inbound_deliver.
    destruct (into_message col' env) as [m|]; [|done]. destruct (_ <=? _); [done|].
    destruct (bool_decide _ && _); [done|]. set (r := check_auth _ _ _ _ _ _ _ _ _).
    assert (srv_tls (fold_report ip s r) = srv_tls s) as Hf by (unfold fold_report; by destruct (ar_dmarc r)).
    destruct (_ && _); [done|]. destruct (stamp_inbound _ _ _ _ _ _ _ _); simpl; [|done].
    by rewrite (proj1 (proj2 (server_accept_frame _ _ _ _))).
  - unfold inbound_command. destruct (SmtpCommand_parse _) as [cmd|]; [|done].
    assert (∀ r, srv_tls (greylisted ip now s (c_session c) r).1 = srv_tls s) as Hg.
    { intros r. unfold greylisted. destruct (srv_greylist s) as [[]|]; [|done]. by destruct (grey_check_at _ _ _ _ _ _). }
    destruct cmd as [| | |r| | | | |]; try (by rewrite Ho); try (destruct (smtp_handle _ _); by repeat case_match).
    + destruct (negb _); [done|]. specialize (Hg r). destruct (greylisted _ _ _ _ _) as [s' []]; [done|by rewrite Ho].
Qed.

(** Only a STARTTLS command in clear, on a server that has TLS, looks at the buffer. *)
Lemma inbound_step_pipelined now s c p p' line :
  srv_tls s && negb (c_tls c) = false ∨ (SmtpCommand_parse (from_utf8_lossy line) = Ok StartTls → p = p') →
  step now s c p line = step now s c p' line.
Proof.
  intros Hor. unfold inbound_step. destruct (c_collecting c); [done|].
  unfold inbound_command. destruct (SmtpCommand_parse _) as [[]|]; try done.
  destruct Hor as [->| ->]; done.
Qed.

Lemma inbound_step_upgrade now s c p line :
  c_tls (st_conn (step now s c p line)) = c_tls c ∨
  srv_tls s = true ∧ c_tls c = false ∧ c_tls (st_conn (step now s c p line)) = true.
Proof.
  assert (∀ s' cmd, c_tls (st_conn (inbound_other s' c cmd)) = c_tls c) as Ho.
  { intros s' cmd. unfold inbound_other. by destruct (smtp_handle _ _). }
  unfold inbound_step. destruct (c_collecting c) as [col|].
  - left. destruct (push_line col line) as [col' []]; destruct (ic_size_exceeded col'); try done.
    destruct (take_envelope (c_session c)) as [se [env|]]; [|done]. by destruct (inbound_deliver _ _ _ _ _ _ _ _ _ _ _) as [[]|].
  - unfold inbound_command. destruct (SmtpCommand_parse _) as [cmd|]; [|by left].
    destruct cmd; try (by left); try (left; by rewrite Ho); try (left; destruct (smtp_handle _ _); by case_code).
    + destruct (negb (server_is_local _ _)); [by left|]. destruct (greylisted _ _ _ _ _) as [s' []]; left; [done|by rewrite Ho].
    + destruct (srv_tls s && negb (c_tls c)) eqn:E; [|by left]. bsimp.
      destruct (smtp_handle _ _). repeat case_code; try (by left). by right.
Qed.

(** When the buffer cannot matter: under TLS, on a client that waits, or without TLS. *)
Definition settled (others : nat → Server → Server) (s : Server) (c : Conn SmtpSession) (input : Stream) : Prop :=
  c_tls c = true ∨ waits (concat (sm_chunks input)) ∨
  (srv_tls s = false ∧ ∀ n s, srv_tls s = false → srv_tls (others n s) = false).

Lemma inbound_loop_chunks ptls ptls' clock writes others fuel :
  ∀ n p p' a b tls tls' s c log, settled others s c a → same_bytes a b → option_Forall2 same_bytes tls tls' →
  serve_loop step smtp_too_long fuel n (mkSocket p ptls clock writes others) a tls s c log =
  serve_loop step smtp_too_long fuel n (mkSocket p' ptls' clock writes others) b tls' s c log.
Proof.
  induction fuel as [|fuel IH]; simpl; intros n p p' a b tls tls' s c log Hset Hab Htls; [done|].
  pose proof (read_line_same a b Hab) as Hr. pose proof Hab as (Hna & Hnb & Hc & Hf). rewrite Hf in *.
  destruct (read_line_capped (sm_chunks a) _) as [[r line] rest] eqn:Ea.
  destruct (read_line_capped (sm_chunks b) _) as [[r' line'] rest'] eqn:Eb.
  destruct Hr as (<- & <- & Hr). destruct (_ && _); [done|]. destruct r; [|done..]. specialize (Hr eq_refl).
  set (s1 := others n s) in *.
  assert (settled others s1 c a) as Hset1 by (destruct Hset as [?|[?|[Ht Ho]]]; [by left|by right; left|right; right; split; [by apply Ho|done]]).
  clearbody s1. clear Hset.
  rewrite (inbound_step_pipelined (clock n) s1 c (buffered_after (sm_chunks a)) (buffered_after (sm_chunks b))).
  2:{ destruct Hset1 as [->|[Hw|[-> _]]]; [left; by rewrite andb_false_r| |by left]. right. intros Hs.
      rewrite (proj2 (waits_read a line rest Hna Hw Ea) Hs). rewrite Hc in Hw. by rewrite (proj2 (waits_read b line rest' Hnb Hw Eb) Hs). }
  pose proof (inbound_step_tls (clock n) s1 c (buffered_after (sm_chunks b)) line) as Hst.
  pose proof (inbound_step_upgrade (clock n) s1 c (buffered_after (sm_chunks b)) line) as Hup.
  set (st := step _ _ _ _ _) in *. destruct (writes n); [|done]. destruct (st_next st); [|done..].
  destruct Hup as [Hsame|(_ & Hct & Hnew)].
  - rewrite Hsame, andb_negb_r. apply IH; [|done..]. unfold settled. cbn [sm_chunks]. rewrite Hsame, Hst.
    destruct Hset1 as [?|[Hw|?]]; [by left| |by right; right]. right; left. by apply (waits_read a line rest).
  - rewrite Hnew, Hct. cbn [negb andb]. destruct Htls as [ta tb Hab'|]; [|done].
    apply IH; [by left|done|constructor].
Qed.

(** C29: the network's chunking is invisible: two inbound connections that send the same
    bytes, in clear and under TLS, get the same replies and leave the same state, however
    the bytes are cut into reads.  The one thing that may depend on it is whether a
    STARTTLS command finds more bytes in the buffer; so either the client waits for the
    answer to STARTTLS, as RFC 3207 asks, or the server has no TLS. *)
Theorem inbound_chunking (p p' : Stream) (tls tls' : option Stream) (clock : nat → Z) (writes : nat → bool)
    (others : nat → Server → Server) (s : Server) :
  same_bytes p p' → option_Forall2 same_bytes tls tls' →
  waits (concat (sm_chunks p)) ∨
  (srv_tls s = false ∧ ∀ n s, srv_tls s = false → srv_tls (others n s) = false) →
  inbound (mkSocket p tls clock writes others) s = inbound (mkSocket p' tls' clock writes others) s.
Proof.
  intros Hp Htls Hor. unfold serve_inbound, serve. cbn [so_writes so_plain so_tls]. destruct (writes 0%nat); [|done].
  replace (serve_fuel (mkSocket p' tls' clock writes others)) with (serve_fuel (mkSocket p tls clock writes others)).
  - apply inbound_loop_chunks; [by right|done..].
  - destruct Hp as (_ & _ & Hc & _). unfold serve_fuel, stream_size. simpl. rewrite Hc.
    destruct Htls as [a b (_ & _ & Hab & _)|]; simpl; [by rewrite Hab|done].
Qed.
End connections.

(** A client that greets, sends a message to a hosted and to a foreign address, and
    leaves; cut into reads in two ways. *)
Definition quiet_socket (plain : Stream) : Socket :=
  mkSocket plain None (λ _, secs 1700000000) (λ _, true) (λ _ s, s).
Definition demo_stream : bytes := concat (demo_lines ++ [line_of (lit "."); line_of (lit "QUIT")]).
Definition one_read : Stream := mkStream [demo_stream] false.
Definition two_reads : Stream := mkStream [take 3 demo_stream; drop 3 demo_stream] false.
Definition served_inbound (st : Stream) : option Served :=
  serve_inbound no_spf no_dkim demo_txt demo_psl (V4 1) (quiet_socket st) demo_server.

Definition demo_served : Served := default (mkServed demo_server [] Closed) (served_inbound one_read).
Lemma inbound_connections_safe_witness :
  sv_end demo_served = Closed ∧ length (mem_list (srv_store (sv_server demo_served)) (lit "u@local.org")) = 1%nat ∧
  inbound_may demo_server (sv_server demo_served).
Proof.
  split; [by vm_compute|]. split; [by vm_compute|].
  apply (inbound_connections_safe no_spf no_dkim demo_txt demo_psl (V4 1) (quiet_socket one_read)); [|by vm_compute].
  intros n s. simpl. split; [reflexivity|]. split; [reflexivity|]. intros mb Hmb. by destruct Hmb.
Defined.

(** The same message under TLS: a STARTTLS in clear, and the rest behind the handshake, cut in
    two ways. *)
Definition demo_tls_server : Server :=
  mkServer (srv_store demo_server) (srv_domains demo_server) true (srv_helo demo_server) (srv_relay demo_server)
    (srv_throttle_config demo_server) (srv_throttle demo_server) (srv_max_size demo_server) (srv_resolver demo_server)
    (srv_spf_enforce demo_server) (srv_dmarc_enforce demo_server) (srv_aggregator demo_server) (srv_greylist demo_server).
Definition starttls_line : bytes := line_of (lit "STARTTLS").
Definition tls_socket (plain hidden : Stream) : Socket :=
  mkSocket plain (Some hidden) (λ _, secs 1700000000) (λ _, true) (λ _ s, s).
Definition served_tls (plain hidden : Stream) : option Served :=
  serve_inbound no_spf no_dkim demo_txt demo_psl (V4 1) (tls_socket plain hidden) demo_tls_server.

Lemma starttls_waits : waits starttls_line.
Proof.
  intros pre l post H Hp Hl _.
  assert (starttls_line = lit "STARTTLS" ++ [CR] ++ [LF]) as E by (vm_compute; reflexivity).
  assert (LF ∉ lit "STARTTLS" ++ [CR]) as Hno by (apply (bool_decide_eq_false (LF ∈ _)); vm_compute; reflexivity).
  rewrite E, app_assoc in H. revert H Hno. generalize (lit "STARTTLS" ++ [CR]). intros t H Hno.
  destruct post as [|x post _] using rev_ind; [done|]. exfalso. rewrite !app_assoc in H. apply app_inj_tail in H as [H _].
  apply Hno. rewrite H. set_solver.
Qed.

Lemma inbound_chunking_witness :
  served_inbound one_read = served_inbound two_reads ∧
  served_tls (mkStream [starttls_line] false) one_read =
    served_tls (mkStream [take 4 starttls_line; drop 4 starttls_line] false) two_reads ∧
  match served_tls (mkStream [starttls_line] false) one_read with
  | Some v => length (mem_list (srv_store (sv_server v)) (lit "u@local.org")) = 1%nat
  | None => False
  end.
Proof.
  assert (same_bytes one_read two_reads) as Hs.
  { split; [by repeat constructor|]. split; [by repeat constructor|]. split; by vm_compute. }
  split; [|split; [|vm_compute; reflexivity]].
  - apply (inbound_chunking no_spf no_dkim demo_txt demo_psl (V4 1) one_read two_reads); [exact Hs|constructor|right; done].
  - apply (inbound_chunking no_spf no_dkim demo_txt demo_psl (V4 1)).
    + split; [by repeat constructor|]. split; [by repeat constructor|]. split; by vm_compute.
    + constructor. exact Hs.
    + left. cbn [sm_chunks concat]. rewrite app_nil_r. exact starttls_waits.
Defined.
