(* ===== verification/Worker.v ===== *)
(** * The relay worker and its bounce messages

    services/snail_server/src/worker.rs and dsn.rs.  One pass of the worker over
    the due entries: what a relay attempt answers is a parameter, which Compose.v
    gives the client of Outbound.v; the clock does not advance within a pass.  [None] is a panic. *)
From S2P Require Import Prelude RustStr Net Message Transport Store Received Dmarc Spool Server.

(** ** Delivery status notifications *)

Definition sanitize_line (s : str) : str := replace_chars (λ c, (c =? CR) || (c =? LF)) [SP] s.
Definition boundary_nonce (at_ : Z) : Z := default 0 (duration_since at_ 0).
(** [push]: a line and its CRLF. *)
Definition push_text (line : str) : bytes := utf8_encode line ++ CRLF.
Definition push_all (ls : list str) : bytes := ls ≫= push_text.

Definition quoted (s : str) : str := [QUOTE] ++ s ++ [QUOTE].

Definition dsn_headers (host : str) (sender : Mailbox) (date boundary : str) : list str :=
  [lit "From: Mail Delivery System <MAILER-DAEMON@" ++ host ++ lit ">";
   lit "To: <" ++ Mailbox_to_string sender ++ lit ">";
   lit "Subject: Undelivered Mail Returned to Sender";
   lit "Date: " ++ date;
   lit "Auto-Submitted: auto-replied";
   lit "MIME-Version: 1.0";
   lit "Content-Type: multipart/report; report-type=delivery-status; boundary=" ++ quoted boundary;
   []].
Definition dsn_explanation (host : str) (rcpts : list Mailbox) (reason boundary : str) : list str :=
  [lit "--" ++ boundary; lit "Content-Type: text/plain; charset=us-ascii"; [];
   lit "This is the mail system at host " ++ host ++ lit "."; [];
   lit "Your message could not be delivered to one or more recipients.";
   lit "The error reported was:"; []; lit "    " ++ reason; []] ++
  ((λ r, lit "    <" ++ Mailbox_to_string r ++ lit ">: delivery failed") <$> rcpts) ++ [[]].
Definition dsn_status (host : str) (rcpts : list Mailbox) (reason date boundary : str) : list str :=
  [lit "--" ++ boundary; lit "Content-Type: message/delivery-status"; [];
   lit "Reporting-MTA: dns; " ++ host; lit "Arrival-Date: " ++ date] ++
  (rcpts ≫= λ r, [[]; lit "Final-Recipient: rfc822; " ++ Mailbox_to_string r; lit "Action: failed";
                  lit "Status: 5.0.0"; lit "Diagnostic-Code: smtp; " ++ reason]) ++ [[]].

Definition dsn_raw (host0 : str) (sender : Mailbox) (rcpts : list Mailbox) (reason0 : str)
    (original_headers : bytes) (date : str) (nonce : Z) : bytes :=
  let host := sanitize_line host0 in
  let reason := sanitize_line reason0 in
  let boundary := lit "=_snail_dsn_" ++ show nonce in
  push_all (dsn_headers host sender date boundary) ++
  push_all (dsn_explanation host rcpts reason boundary) ++
  push_all (dsn_status host rcpts reason date boundary) ++
  push_all [lit "--" ++ boundary; lit "Content-Type: text/rfc822-headers"; []] ++
  original_headers ++ (if ends_with CRLF original_headers then [] else CRLF) ++
  push_text (lit "--" ++ boundary ++ lit "--").

Definition dsn_fallback : bytes :=
  lit "Subject: Undelivered Mail Returned to Sender" ++ CRLF ++ CRLF ++ lit "Delivery failed." ++ CRLF.

Definition build_failure_dsn (host : str) (original_sender : Mailbox) (failed_recipients : list Mailbox)
    (reason : str) (original_headers : bytes) (at_ : Z) : option Message :=
  date ← rfc5322_date at_;
  let raw := dsn_raw host original_sender failed_recipients reason original_headers date (boundary_nonce at_) in
  let envelope := mkEnvelope None [original_sender] in
  match Message_parse envelope raw with
  | Ok m => Some m
  | Err _ => ok (Message_parse envelope dsn_fallback)
  end.

(** ** The worker *)

Definition MAX_ATTEMPTS : Z := 5.
Definition BOUNCE_RETENTION : Z := secs (5 * 24 * 60 * 60).

Inductive RelayReport :=
  | RelayDelivered
  | RelayDeferred (code : Z) (text : str)
  | RelayFailed (reason : str).

Definition with_spool (s : Server) (f : FS → result IoError () * FS) : Server :=
  match srv_relay s with
  | Some sp => set_relay s (Some (mkSpool (f (sp_fs sp)).2 (sp_counter sp)))
  | None => s
  end.

Definition bounce_and_notify (now : Z) (s : Server) (entry : SpoolEntry) (original : Message) (reason : str)
    : option Server :=
  s ← match se_sender entry with
      | Some sender =>
          dsn ← build_failure_dsn (srv_helo s) sender (se_recipients entry) reason (raw_headers original) now;
          Some (server_accept_inbound now s dsn Permitted).1
      | None => Some s
      end;
  Some (with_spool s (bounce now (se_id entry))).

Section worker.
Context (relay : Message → RelayReport) (read_dir : FS → Dir → list str).

Definition relay_outcome (now : Z) (s : Server) (entry : SpoolEntry) (message : Message) : option Server :=
  match relay message with
  | RelayDelivered => Some (with_spool s (spool_remove now (se_id entry)))
  | RelayDeferred code text =>
      let attempts := add_u32 (se_attempts entry) 1 in
      if MAX_ATTEMPTS <=? attempts then
        bounce_and_notify now s entry message
          (lit "retry limit reached after " ++ show attempts ++ lit " attempts: " ++ show code ++ lit " " ++ text)
      else
        next ← checked_add now (backoff attempts);
        Some (with_spool s (defer now (se_id entry) attempts next))
  | RelayFailed reason => bounce_and_notify now s entry message reason
  end.

Definition relay_entry (now : Z) (s : Server) (entry : SpoolEntry) : option Server :=
  match srv_relay s with
  | None => Some s
  | Some sp =>
      match load_message (se_id entry) (sp_fs sp) with
      | Err Panicked => None
      | Err _ => Some (with_spool s (bounce now (se_id entry)))
      | Ok message => relay_outcome now s entry message
      end
  end.

Fixpoint relay_entries (now : Z) (s : Server) (due : list SpoolEntry) : option Server :=
  match due with
  | [] => Some s
  | e :: due => s ← relay_entry now s e; relay_entries now s due
  end.

Definition relay_due (now : Z) (s : Server) : option Server :=
  match srv_relay s with
  | None => Some s
  | Some sp =>
      match due_now read_dir now (sp_fs sp) with
      | Err Panicked => None
      | Err _ => Some s
      | Ok due =>
          s ← relay_entries now s due;
          Some (match srv_relay s with
                | Some sp => set_relay s (Some (mkSpool (reap_bounced read_dir BOUNCE_RETENTION now (sp_fs sp)).1
                                                  (sp_counter sp)))
                | None => s
                end)
      end
  end.

End worker.

(** * Theorems *)

Lemma dsn_core (host : str) (sender : Mailbox) (rcpts : list Mailbox) (reason : str)
    (headers : bytes) (at_ : Z) :
  ∃ m, build_failure_dsn host sender rcpts reason headers at_ = Some m ∧
    msg_envelope m = mkEnvelope None [sender].
Proof.
  unfold build_failure_dsn. destruct (rfc5322_date_total at_) as [date ->]. cbn [mbind option_bind].
  destruct (Message_parse _ (dsn_raw _ _ _ _ _ _ _)) as [m|] eqn:E.
  - exists m. split; [done|]. by apply Message_parse_inv in E as (? & _).
  - destruct (Message_parse (mkEnvelope None [sender]) dsn_fallback) as [m|] eqn:Ef; [|by vm_compute in Ef].
    exists m. split; [done|]. by apply Message_parse_inv in Ef as (? & _).
Qed.

(** A bounce is sent so that it is never bounced itself: whatever failed, a notification is
    always produced (building it cannot panic), its envelope has the null
    sender, and its only recipient is the sender of the failed message. *)
Theorem dsn_null_sender (host : str) (sender : Mailbox) (rcpts : list Mailbox) (reason : str)
    (headers : bytes) (at_ : Z) :
  ∃ m, build_failure_dsn host sender rcpts reason headers at_ = Some m ∧
    msg_envelope m = mkEnvelope None [sender].
Proof. apply dsn_core. Qed.

Lemma enqueue_group_other now src g spool id :
  (∀ seq, id ≠ new_id now seq) → same_entry id (sp_fs spool) (sp_fs (enqueue_group now src spool g)).
Proof.
  intros Hid. unfold enqueue_group, enqueue, enqueue_ops. rewrite exec_two_writes. cbn [snd sp_fs].
  by apply same_entry_other.
Qed.

Lemma enqueue_relay_other now spool src rs id :
  (∀ seq, id ≠ new_id now seq) → same_entry id (sp_fs spool) (sp_fs (enqueue_relay now spool src rs)).
Proof.
  intros Hid. unfold enqueue_relay. generalize (by_domain rs) as gs. intros gs. revert spool.
  induction gs as [|g gs IH]; intros spool; simpl; [by split_and!|].
  destruct (enqueue_group_other now src g spool id Hid) as (H1 & H2 & H3).
  destruct (IH (enqueue_group now src spool g)) as (H4 & H5 & H6). unfold same_entry. by rewrite H4, H5, H6.
Qed.

Lemma server_accept_other now s sp m a id :
  srv_relay s = Some sp → (∀ seq, id ≠ new_id now seq) →
  ∃ sp', srv_relay (server_accept_inbound now s m a).1 = Some sp' ∧ same_entry id (sp_fs sp) (sp_fs sp').
Proof.
  intros Hs Hid. unfold server_accept_inbound. rewrite Hs. destruct (accept_inbound _ _ _ m) as [st r].
  assert (same_entry id (sp_fs sp) (sp_fs sp)) as Hrefl by done.
  destruct a; simpl; [case_bool_decide; simpl|]; rewrite ?Hs; eauto using enqueue_relay_other.
Qed.

(** A failed entry ends in [bounced/] with its contents; without a sender nothing
    is sent to anybody. *)
Lemma bounce_and_notify_spec now s sp e m reason fe fc :
  srv_relay s = Some sp → (∀ seq, se_id e ≠ new_id now seq) → in_main (se_id e) fe fc (sp_fs sp) →
  ∃ s' sp', bounce_and_notify now s e m reason = Some s' ∧ srv_relay s' = Some sp' ∧
    in_bounced (se_id e) fe fc (sp_fs sp') ∧
    (se_sender e = None → srv_store s' = srv_store s ∧ sp_counter sp' = sp_counter sp ∧
       (bounce now (se_id e) (sp_fs sp)).2 = sp_fs sp').
Proof.
  intros Hs Hid [He Hc]. unfold bounce_and_notify. destruct (se_sender e) as [sender|].
  - destruct (dsn_core (srv_helo s) sender (se_recipients e) reason (raw_headers m) now) as (dsn & -> & _).
    cbn [mbind option_bind]. destruct (server_accept_other now s sp dsn Permitted (se_id e) Hs Hid)
      as (sp1 & H1 & (_ & He1 & Hc1)).
    destruct (bounce_completes now (se_id e) fe fc (sp_fs sp1)) as (fs' & Hb & Hin); [split; congruence|].
    eexists _, (mkSpool fs' (sp_counter sp1)). split; [done|]. unfold with_spool. rewrite H1, Hb. simpl. by split_and!.
  - cbn [mbind option_bind]. destruct (bounce_completes now (se_id e) fe fc (sp_fs sp)) as (fs' & Hb & Hin); [done|].
    eexists _, (mkSpool fs' (sp_counter sp)). split; [done|]. unfold with_spool. rewrite Hs, Hb. simpl. by split_and!.
Qed.

Section worker_theorems.
Context (relay : Message → RelayReport).

(** What is left of an entry after an attempt. *)
Definition attempt_result (s s' : Server) (sp sp' : OutboundSpool) (now : Z) (e : SpoolEntry) (fe fc : File)
    (r : RelayReport) : Prop :=
  let id := se_id e in
  let n := add_u32 (se_attempts e) 1 in
  let bounced := in_bounced id fe fc (sp_fs sp') ∧
                 (se_sender e = None → srv_store s' = srv_store s ∧
                    sp_fs sp' = (bounce now id (sp_fs sp)).2) in
  match r with
  | RelayDelivered =>
      sp_fs sp' !! eml_path id = None ∧ sp_fs sp' !! ctrl_path id = None ∧ srv_store s' = srv_store s
  | RelayDeferred _ _ =>
      if decide (n < MAX_ATTEMPTS) then
        srv_store s' = srv_store s ∧ sp_fs sp' !! eml_path id = Some fe ∧
        ∃ text, fs_read_to_string (ctrl_path id) (sp_fs sp') = Ok text ∧
          parse_ctrl id text =
            Ok (mkSpoolEntry id (se_sender e) (se_recipients e) n
                  (secs (to_secs (now + secs (Z.min (60 * 2 ^ n) 3600)))) (se_created_at e))
      else bounced
  | RelayFailed _ => bounced
  end.

Lemma relay_entry_core (now : Z) (s : Server) (sp : OutboundSpool) (e : SpoolEntry) (m : Message)
    (text : str) (fe fc : File) :
  srv_relay s = Some sp → in_main (se_id e) fe fc (sp_fs sp) →
  fs_read_to_string (ctrl_path (se_id e)) (sp_fs sp) = Ok text → parse_ctrl (se_id e) text = Ok e →
  load_message (se_id e) (sp_fs sp) = Ok m → ctrl_safe_env (entry_envelope e) →
  se_created_at e ≤ SYSTIME_MAX → se_created_at e = secs (to_secs (se_created_at e)) →
  0 ≤ now → now + secs 3600 ≤ SYSTIME_MAX → (∀ seq, se_id e ≠ new_id now seq) →
  ∃ s' sp', relay_entry relay now s e = Some s' ∧ srv_relay s' = Some sp' ∧
    attempt_result s s' sp sp' now e fe fc (relay m).
Proof.
  intros Hs Hmain Hread Hparse Hload Hsafe Hcr Hcr2 H0 Hnow Hid.
  unfold relay_entry. rewrite Hs, Hload. unfold relay_outcome, attempt_result. cbv zeta.
  assert (∀ reason, ∃ s' sp', bounce_and_notify now s e m reason = Some s' ∧ srv_relay s' = Some sp' ∧
    in_bounced (se_id e) fe fc (sp_fs sp') ∧
    (se_sender e = None → srv_store s' = srv_store s ∧ sp_fs sp' = (bounce now (se_id e) (sp_fs sp)).2)) as Hb.
  { intros reason. destruct (bounce_and_notify_spec now s sp e m reason fe fc Hs Hid Hmain)
      as (s' & sp' & ? & ? & ? & Hn). exists s', sp'. split_and!; [done..|]. intros E. by destruct (Hn E) as (? & _ & ->). }
  destruct (relay m) as [|code txt|reason]; [| |by apply Hb].
  - destruct (spool_remove_spec now (se_id e) (sp_fs sp)) as (fs' & Hr & He & Hc & _).
    eexists _, (mkSpool fs' (sp_counter sp)). split; [done|]. unfold with_spool. rewrite Hs, Hr. simpl. by split_and!.
  - set (n := add_u32 (se_attempts e) 1).
    assert (0 ≤ n ≤ U32_MAX) as Hn.
    { unfold n, add_u32, U32_MAX. pose proof (Z.mod_pos_bound (se_attempts e + 1) (2 ^ 32)). lia. }
    destruct (decide (n < MAX_ATTEMPTS)), (Z.leb_spec MAX_ATTEMPTS n) as [Hge|Hlt]; [lia| |by apply Hb|lia].
    + destruct (backoff_core n Hn) as (Hbo & Hbo2 & _). rewrite Hbo in *.
      set (next := now + secs (Z.min (60 * 2 ^ n) 3600)).
      assert (checked_add now (secs (Z.min (60 * 2 ^ n) 3600)) = Some next) as ->
        by (apply checked_add_Some; unfold next; lia).
      destruct (defer_spec_core now (se_id e) n next (sp_fs sp) text e) as (fs' & text' & ops & _ & Hd & Ht & Hp & Hem & _);
        [done|done|done|done|unfold next; lia|done|done|].
      eexists _, (mkSpool fs' (sp_counter sp)). split; [done|]. unfold with_spool. rewrite Hs, Hd. simpl.
      split_and!; [done|done|by rewrite Hem; apply Hmain|]. by exists text'.
Qed.

(** Every attempt on a queued message ends one way only: delivered, its files are
    gone; refused for now, its attempt count is one higher and its next attempt
    60s doubled per attempt (at most an hour) away, the message untouched, until
    the fifth failure; refused for good or out of attempts, both files are in
    [bounced/].  For a message with the null sender that move is all that
    happens: no mailbox changes and no notification is queued. *)
Theorem relay_entry_spec (now : Z) (s : Server) (sp : OutboundSpool) (e : SpoolEntry) (m : Message)
    (text : str) (fe fc : File) :
  srv_relay s = Some sp → in_main (se_id e) fe fc (sp_fs sp) →
  fs_read_to_string (ctrl_path (se_id e)) (sp_fs sp) = Ok text → parse_ctrl (se_id e) text = Ok e →
  load_message (se_id e) (sp_fs sp) = Ok m → ctrl_safe_env (entry_envelope e) →
  se_created_at e ≤ SYSTIME_MAX → se_created_at e = secs (to_secs (se_created_at e)) →
  0 ≤ now → now + secs 3600 ≤ SYSTIME_MAX → (∀ seq, se_id e ≠ new_id now seq) →
  ∃ s' sp', relay_entry relay now s e = Some s' ∧ srv_relay s' = Some sp' ∧
    attempt_result s s' sp sp' now e fe fc (relay m).
Proof. apply relay_entry_core. Qed.
End worker_theorems.

Definition busy (_ : Message) : RelayReport := RelayDeferred 451 (lit "try later").
Definition later : Z := secs 1700000030.

Lemma spool_id_old seq : spool_id ≠ new_id later seq.
Proof.
  unfold spool_id, new_id. intros E. apply (f_equal (take 20)) in E.
  rewrite !take_app_le in E by (vm_compute; lia). by vm_compute in E.
Qed.

Lemma relay_entry_spec_witness :
  let s := set_relay demo_server (Some (mkSpool spool_one 1)) in
  ∃ s' sp', relay_entry busy later s (new_entry spool_id spool_env spool_now) = Some s' ∧ srv_relay s' = Some sp' ∧
    attempt_result s s' (mkSpool spool_one 1) sp' later (new_entry spool_id spool_env spool_now) spool_fe spool_fc
      (busy spool_msg).
Proof.
  intros s. apply (relay_entry_spec busy later s (mkSpool spool_one 1) (new_entry spool_id spool_env spool_now)
    spool_msg (render_ctrl spool_env 0 spool_now spool_now) spool_fe spool_fc).
  - done.
  - split; by vm_compute.
  - by vm_compute.
  - by vm_compute.
  - by vm_compute.
  - apply spool_env_safe.
  - by vm_compute.
  - by vm_compute.
  - by vm_compute.
  - by vm_compute.
  - apply spool_id_old.
Defined.
