(* ===== verification/Retries.v ===== *)
(** * The life of a queued message

    services/snail_server/src/worker.rs over time: the attempts the worker makes on one
    entry of the queue, one after the other, each with whatever the relay client then
    answers, until the entry has left the queue. *)
From S2P Require Import Prelude RustStr Net Message Transport Store Received Dmarc Spool Server Worker.

(** One attempt: what the relay client answers for a message, and the clock. *)
Notation Attempt := ((Message → RelayReport) * Z)%type (only parsing).

(** The attempts on entry [id]: each reads the entry from the queue as the scan does;
    nothing is attempted once it is gone. *)
Fixpoint attempts (l : list Attempt) (s : Server) (id : str) : option Server :=
  match l with
  | [] => Some s
  | (relay, now) :: l =>
      match srv_relay s with
      | None => Some s
      | Some sp =>
          match fs_read_to_string (ctrl_path id) (sp_fs sp) ≫= parse_ctrl id with
          | Ok e => s ← relay_entry relay now s e; attempts l s id
          | Err _ => Some s
          end
      end
  end.

(** An entry in the queue, as [relay_entry_core] needs it. *)
Record queued (s : Server) (sp : OutboundSpool) (e : SpoolEntry) (m : Message) (fe : File) : Prop := {
  qd_relay : srv_relay s = Some sp;
  qd_eml : sp_fs sp !! eml_path (se_id e) = Some fe;
  qd_ctrl : (fs_read_to_string (ctrl_path (se_id e)) (sp_fs sp) ≫= parse_ctrl (se_id e)) = Ok e;
  qd_load : load_message (se_id e) (sp_fs sp) = Ok m;
  qd_safe : ctrl_safe_env (entry_envelope e);
  qd_created : se_created_at e ≤ SYSTIME_MAX ∧ se_created_at e = secs (to_secs (se_created_at e)) }.

Definition clock_ok (id : str) (now : Z) : Prop := 0 ≤ now ∧ now + secs 3600 ≤ SYSTIME_MAX ∧ ∀ seq, id ≠ new_id now seq.

Lemma fs_read_to_string_file p fs text : fs_read_to_string p fs = Ok text → ∃ f, fs !! p = Some f.
Proof. unfold fs_read_to_string, fs_read. destruct (fs !! p) as [f|]; [by exists f|done]. Qed.

(** How an entry is settled: handed over, or kept with its bounce. *)
Definition settled (l : list Attempt) (m : Message) (id : str) (fe : File) (sp : OutboundSpool) : Prop :=
  (sp_fs sp !! eml_path id = None ∧ sp_fs sp !! ctrl_path id = None ∧ ∃ a, a ∈ l ∧ a.1 m = RelayDelivered) ∨
  (∃ fc, in_bounced id fe fc (sp_fs sp)).

Lemma settled_cons a l m id fe sp : settled l m id fe sp → settled (a :: l) m id fe sp.
Proof. intros [(H1 & H2 & b & Hb & H3)|H]; [left|by right]. split_and!; [done..|]. exists b. set_solver. Qed.

(** Once the control file is gone the rest of the attempts do nothing. *)
Lemma attempts_gone l s sp id : srv_relay s = Some sp → sp_fs sp !! ctrl_path id = None → attempts l s id = Some s.
Proof.
  intros Hs Hc. destruct l as [|[relay now] l]; [done|]. cbn [attempts]. rewrite Hs.
  unfold fs_read_to_string, fs_read. by rewrite Hc.
Qed.

(** One attempt: the entry is settled, or is queued as before with one more attempt. *)
Lemma attempt_step relay now s sp e m fe :
  queued s sp e m fe → clock_ok (se_id e) now →
  ∃ s' sp', relay_entry relay now s e = Some s' ∧ srv_relay s' = Some sp' ∧
    ((settled [(relay, now)] m (se_id e) fe sp' ∧ sp_fs sp' !! ctrl_path (se_id e) = None) ∨
     (add_u32 (se_attempts e) 1 < MAX_ATTEMPTS ∧ ∃ e', se_id e' = se_id e ∧ se_attempts e' = add_u32 (se_attempts e) 1 ∧ queued s' sp' e' m fe)).
Proof.
  intros [Hs He Hctrl Hload Hsafe [Hcr Hcr2]] (H0 & Hnow & Hid).
  apply bind_Ok in Hctrl as (text & Hread & Hparse). destruct (fs_read_to_string_file _ _ _ Hread) as [fc Hfc].
  destruct (relay_entry_core relay now s sp e m text fe fc) as (s' & sp' & Hr & Hs' & H); [done..|].
  exists s', sp'. split_and!; [done..|]. unfold attempt_result in H. destruct (relay m) as [|code txt|reason] eqn:Er.
  - left. destruct H as (H1 & H2 & _). split; [left|done]. split_and!; [done..|]. eexists. split; [by apply list_elem_of_singleton|done].
  - destruct (decide _) as [Hlt|_].
    + right. split; [done|]. destruct H as (_ & He' & text' & Hread' & Hp').
      exists (mkSpoolEntry (se_id e) (se_sender e) (se_recipients e) (add_u32 (se_attempts e) 1)
                (secs (to_secs (now + secs (Z.min (60 * 2 ^ add_u32 (se_attempts e) 1) 3600)))) (se_created_at e)).
      split; [done|]. split; [done|]. split; cbn [se_id se_created_at]; [exact Hs'|exact He'| | |exact Hsafe|done].
      * rewrite Hread'. exact Hp'.
      * unfold load_message in *. rewrite Hread in Hload. rewrite Hread'. cbn [mbind result_bind] in *.
        rewrite Hparse in Hload. rewrite Hp'. cbn [mbind result_bind] in *.
        revert Hload. unfold fs_read. rewrite He, He'. done.
    + left. destruct H as [H _]. split; [right; by exists fc|apply H].
  - left. destruct H as [H _]. split; [right; by exists fc|apply H].
Qed.

Lemma attempts_settle l : ∀ s sp e m fe,
  queued s sp e m fe → Forall (λ a, clock_ok (se_id e) a.2) l → 0 ≤ se_attempts e < MAX_ATTEMPTS →
  MAX_ATTEMPTS - se_attempts e ≤ len l →
  ∃ s' sp', attempts l s (se_id e) = Some s' ∧ srv_relay s' = Some sp' ∧ settled l m (se_id e) fe sp'.
Proof.
  induction l as [|[relay now] l IH]; intros s sp e m fe Hq Hclk Ha Hlen; [autorewrite with len in Hlen; lia|].
  apply Forall_cons in Hclk as [Hnow Hclk]. cbn [snd] in Hnow.
  destruct (attempt_step relay now s sp e m fe Hq Hnow) as (s1 & sp1 & Hr & Hs1 & Hcase).
  cbn [attempts]. rewrite (qd_relay _ _ _ _ _ Hq), (qd_ctrl _ _ _ _ _ Hq), Hr. cbn [mbind option_bind].
  destruct Hcase as [[Hset Hgone]|(Hlt & e1 & Hid & Hatt & Hq1)].
  - exists s1, sp1. split; [by eapply attempts_gone|]. split; [done|].
    destruct Hset as [(H1 & H2 & b & ->%list_elem_of_singleton & H3)|H]; [left|by right]. split_and!; [done..|].
    eexists. split; [by left|done].
  - assert (add_u32 (se_attempts e) 1 = se_attempts e + 1) as Hadd by (apply add_u32_small; unfold MAX_ATTEMPTS, U32_MAX in *; lia).
    rewrite Hadd in *. rewrite <-Hid in *. destruct (IH s1 sp1 e1 m fe Hq1 Hclk) as (s' & sp' & Hl & Hs' & Hset); [lia|autorewrite with len in Hlen; lia|].
    exists s', sp'. split_and!; [done..|]. by apply settled_cons.
Qed.

(** C14: every queued message is settled after a bounded number of attempts.  Whatever the
    relay client answers each time, after as many attempts as the limit leaves the entry
    has left the queue: either some attempt delivered it, or its message is kept in
    [bounced/] with the bytes it was queued with; and no attempt follows. *)
Theorem queue_settles (l : list Attempt) (s : Server) (sp : OutboundSpool) (e : SpoolEntry) (m : Message) (fe : File) :
  queued s sp e m fe → Forall (λ a, clock_ok (se_id e) a.2) l → 0 ≤ se_attempts e < MAX_ATTEMPTS →
  MAX_ATTEMPTS - se_attempts e ≤ len l →
  ∃ s' sp', attempts l s (se_id e) = Some s' ∧ srv_relay s' = Some sp' ∧ settled l m (se_id e) fe sp' ∧
    ∀ more, attempts more s' (se_id e) = Some s'.
Proof.
  intros Hq Hclk Ha Hlen. destruct (attempts_settle l s sp e m fe Hq Hclk Ha Hlen) as (s' & sp' & Hl & Hs' & Hset).
  exists s', sp'. split_and!; [done..|]. intros more. eapply attempts_gone; [done|].
  destruct Hset as [(_ & H & _)|(fc & H)]; [done|apply H].
Qed.

(** A relay that never answers. *)
Lemma queue_settles_witness :
  let s := set_relay demo_server (Some (mkSpool spool_one 1)) in
  let l := replicate 8 (λ _ : Message, RelayDeferred 0 (lit "no answer"), later) in
  ∃ s' sp', attempts l s spool_id = Some s' ∧ srv_relay s' = Some sp' ∧ settled l spool_msg spool_id spool_fe sp'.
Proof.
  intros s l. destruct (queue_settles l s (mkSpool spool_one 1) (new_entry spool_id spool_env spool_now) spool_msg spool_fe)
    as (s' & sp' & H1 & H2 & H3 & _).
  - split; [done|by vm_compute..|apply spool_env_safe|split; by vm_compute].
  - apply Forall_replicate. split_and!; [by vm_compute..|apply spool_id_old].
  - split; by vm_compute.
  - by vm_compute.
  - exists s', sp'. exact (conj H1 (conj H2 H3)).
Defined.
