(* ===== verification/DmarcReport.v ===== *)
(** * DMARC aggregate reports

    services/snail_server/src/dmarc_report.rs: the XML of a report, its mail and the
    flush of the aggregator through the relay.  gzip (flate2) and the base64 encoder
    are parameters. *)
From S2P Require Import Prelude RustStr Net Message MailText Transport Store Received Dmarc Spool Server Serve Worker.

(** ** Text *)

(** [replace('&', ..)] and so on, in the order of the calls. *)
Definition esc (s : str) : str :=
  replace_chars (Z.eqb 39) (lit "&apos;")
    (replace_chars (Z.eqb 34) (lit "&quot;")
      (replace_chars (Z.eqb 62) (lit "&gt;")
        (replace_chars (Z.eqb 60) (lit "&lt;") (replace_chars (Z.eqb 38) (lit "&amp;") s)))).

Definition align (m : AlignmentMode) : str := match m with Relaxed => lit "r" | Strict => lit "s" end.
Definition policy (p : DmarcPolicy) : str :=
  match p with PolNone => lit "none" | PolQuarantine => lit "quarantine" | PolReject => lit "reject" end.
Definition pass_fail (pass : bool) : str := if pass then lit "pass" else lit "fail".

(** Wrap at 76 columns; [fuel] bounds the number of chunks. *)
Fixpoint chunks (fuel : nat) (n : nat) (s : bytes) : list bytes :=
  match fuel, s with
  | S fuel, _ :: _ => take n s :: chunks fuel n (drop n s)
  | _, _ => []
  end.
Definition wrap_base64 (b64 : bytes) : bytes := chunks (length b64) 76 b64 ≫= λ c, c ++ CRLF.

Definition rua_entry (entry : str) : option Mailbox :=
  let entry := trim entry in
  addr ← match strip_prefix (lit "mailto:") entry with
         | Some a => Some a
         | None => strip_prefix (lit "MAILTO:") entry
         end;
  let addr := trim (default addr (head (split_char 33 addr))) in
  ok (Mailbox_parse addr).
Fixpoint find_rua (entries : list str) : option Mailbox :=
  match entries with
  | [] => None
  | e :: es => match rua_entry e with Some m => Some m | None => find_rua es end
  end.
Definition parse_rua (rua : str) : option Mailbox := find_rua (split_char 44 rua).

(** ** The XML *)

Definition xml_line (s : str) : str := s ++ CRLF.
(** An element with text. *)
Definition elem (name : str) (text : str) : str := [60] ++ name ++ [62] ++ text ++ [60; 47] ++ name ++ [62].

Definition xml_declaration : str :=
  lit "<?xml version=" ++ quoted (lit "1.0") ++ lit " encoding=" ++ quoted (lit "UTF-8") ++ lit "?>".
Definition xml_metadata (host : str) (begin_ end_ : Z) (report_id : str) : list str :=
  [lit "  <report_metadata>";
   lit "    " ++ elem (lit "org_name") (esc host);
   lit "    " ++ elem (lit "email") (lit "dmarc-noreply@" ++ esc host);
   lit "    " ++ elem (lit "report_id") (esc report_id);
   lit "    " ++ elem (lit "date_range") (elem (lit "begin") (show begin_) ++ elem (lit "end") (show end_));
   lit "  </report_metadata>"].
Definition xml_policy (domain : str) (p : DmarcRecord) : list str :=
  [lit "  <policy_published>";
   lit "    " ++ elem (lit "domain") (esc domain);
   lit "    " ++ elem (lit "adkim") (align (dm_adkim p));
   lit "    " ++ elem (lit "aspf") (align (dm_aspf p));
   lit "    " ++ elem (lit "p") (policy (dm_policy p))] ++
  (match dm_subdomain_policy p with Some sp => [lit "    " ++ elem (lit "sp") (policy sp)] | None => [] end) ++
  [lit "    " ++ elem (lit "pct") (show (dm_pct p)); lit "  </policy_published>"].
Definition xml_dkim (d : str * str) : str :=
  lit "      " ++ elem (lit "dkim") (elem (lit "domain") (esc d.1) ++ elem (lit "result") (esc d.2)).
Definition xml_row (rc : RowKey * Z) : list str :=
  let '(row, count) := rc in
  [lit "  <record>"; lit "    <row>";
   lit "      " ++ elem (lit "source_ip") (ip_to_string (rk_source_ip row));
   lit "      " ++ elem (lit "count") (show count);
   lit "      <policy_evaluated>";
   lit "        " ++ elem (lit "disposition") (esc (rk_disposition row));
   lit "        " ++ elem (lit "dkim") (pass_fail (rk_dkim_eval_pass row));
   lit "        " ++ elem (lit "spf") (pass_fail (rk_spf_eval_pass row));
   lit "      </policy_evaluated>"; lit "    </row>";
   lit "    " ++ elem (lit "identifiers") (elem (lit "header_from") (esc (rk_header_from row)));
   lit "    <auth_results>"] ++
  (xml_dkim <$> rk_dkim row) ++
  [lit "      " ++ elem (lit "spf") (elem (lit "domain") (esc (rk_spf_domain row)) ++ elem (lit "result") (esc (rk_spf_result row)));
   lit "    </auth_results>"; lit "  </record>"].

Definition report_lines (host : str) (r : PendingReport) (begin_ end_ : Z) (report_id : str) : list str :=
  [xml_declaration; lit "<feedback>"] ++ xml_metadata host begin_ end_ report_id ++
  xml_policy (pr_domain r) (pr_published r) ++ (pr_rows r ≫= xml_row) ++ [lit "</feedback>"].
Definition report_xml (host : str) (r : PendingReport) (begin_ end_ : Z) (report_id : str) : str :=
  report_lines host r begin_ end_ report_id ≫= xml_line.

(** ** The mail *)

Definition report_filename (host : str) (r : PendingReport) (begin_ end_ : Z) : str :=
  host ++ lit "!" ++ pr_domain r ++ lit "!" ++ show begin_ ++ lit "!" ++ show end_ ++ lit ".xml.gz".
Definition report_headers (host : str) (rua : Mailbox) (r : PendingReport) (filename report_id : str) : list str :=
  [lit "From: dmarc-noreply@" ++ host;
   lit "To: <" ++ Mailbox_to_string rua ++ lit ">";
   lit "Subject: Report Domain: " ++ pr_domain r ++ lit " Submitter: " ++ host ++ lit " Report-ID: " ++ report_id;
   lit "MIME-Version: 1.0";
   lit "Content-Type: application/gzip; name=" ++ quoted filename;
   lit "Content-Transfer-Encoding: base64";
   lit "Content-Disposition: attachment; filename=" ++ quoted filename].

Definition REPORT_WINDOW : Z := secs (24 * 60 * 60).

Section report.
Context (gzip base64_encode : bytes → bytes).

Definition report_raw (host : str) (rua : Mailbox) (r : PendingReport) (begin_ end_ : Z) (report_id : str) : bytes :=
  push_all (report_headers host rua r (report_filename host r begin_ end_) report_id ++ [[]]) ++
  wrap_base64 (base64_encode (gzip (utf8_encode (report_xml host r begin_ end_ report_id)))) ++ CRLF.

Definition build_report (host : str) (r : PendingReport) (begin_ end_ : Z) (report_id : str) : option Message :=
  rua ← parse_rua (pr_rua r);
  from ← ok (Mailbox_parse (lit "dmarc-noreply@" ++ host));
  ok (Message_parse (mkEnvelope (Some from) [rua]) (report_raw host rua r begin_ end_ report_id)).

(** [unix_now]. *)
Definition unix_now (now : Z) : Z := match duration_since now 0 with Some d => d / NANOS | None => 0 end.

Definition flush_one (now begin_ end_ : Z) (s : Server) (r : PendingReport) : Server :=
  match build_report (srv_helo s) r begin_ end_ (show end_ ++ lit "." ++ pr_domain r) with
  | Some message => (server_accept_inbound now s message Permitted).1
  | None => s
  end.
Definition flush_reports (now : Z) (s : Server) : Server :=
  let '(reports, agg) := aggregator_drain (srv_aggregator s) in
  let s := set_aggregator s agg in
  if bool_decide (reports = []) then s
  else
    let end_ := unix_now now in
    let begin_ := Z.max 0 (end_ - REPORT_WINDOW / NANOS) in
    foldl (flush_one now begin_ end_) s reports.
End report.

Example parse_rua_1 : parse_rua (lit "https://x, mailto:d@e.org!10m ,mailto:z@z") = Some (mkMailbox (lit "d") (lit "e.org")).
Proof. by vm_compute. Qed.
Example esc_1 : esc (lit "a<b>&'c") = lit "a&lt;b&gt;&amp;&apos;c".
Proof. by vm_compute. Qed.

(** * Escaping *)

Definition esc_char (c : char) : str :=
  if c =? 38 then lit "&amp;" else if c =? 60 then lit "&lt;" else if c =? 62 then lit "&gt;"
  else if c =? 34 then lit "&quot;" else if c =? 39 then lit "&apos;" else [c].

Lemma replace_chars_app P by_ a b : replace_chars P by_ (a ++ b) = replace_chars P by_ a ++ replace_chars P by_ b.
Proof. apply bind_app. Qed.
Lemma esc_one c : esc [c] = esc_char c.
Proof.
  unfold esc_char. repeat (case_code; bsimp; subst; [by vm_compute|]).
  unfold esc, replace_chars. cbn [mbind list_bind app].
  repeat match goal with |- context [?a =? c] => destruct (Z.eqb_spec a c); [congruence|]; cbn [mbind list_bind app] end. done.
Qed.
(** The five passes make one. *)
Lemma esc_chars s : esc s = s ≫= esc_char.
Proof.
  induction s as [|c s IH]; [done|]. change (c :: s) with ([c] ++ s). unfold esc. rewrite !replace_chars_app. fold (esc s) (esc [c]).
  rewrite esc_one, IH. cbn [mbind list_bind app]. done.
Qed.

(** An XML reader's view of text: entities back to characters. *)
Fixpoint unescape (fuel : nat) (s : str) : str :=
  match fuel, s with
  | S fuel, c :: t =>
      if c =? 38 then
        match strip_prefix (lit "amp;") t, strip_prefix (lit "lt;") t, strip_prefix (lit "gt;") t,
              strip_prefix (lit "quot;") t, strip_prefix (lit "apos;") t with
        | Some r, _, _, _, _ => 38 :: unescape fuel r
        | _, Some r, _, _, _ => 60 :: unescape fuel r
        | _, _, Some r, _, _ => 62 :: unescape fuel r
        | _, _, _, Some r, _ => 34 :: unescape fuel r
        | _, _, _, _, Some r => 39 :: unescape fuel r
        | _, _, _, _, _ => c :: unescape fuel t
        end
      else c :: unescape fuel t
  | _, _ => s
  end.

Lemma unescape_char fuel c rest : unescape (S fuel) (esc_char c ++ rest) = c :: unescape fuel rest.
Proof.
  unfold esc_char. repeat (case_code; bsimp; subst; [done|]). cbn [app unescape]. by rewrite (proj2 (Z.eqb_neq c 38)).
Qed.
Lemma unescape_esc s : ∀ fuel, (length s ≤ fuel)%nat → unescape fuel (esc s) = s.
Proof.
  rewrite esc_chars. induction s as [|c s IH]; intros fuel Hf; [by destruct fuel|].
  destruct fuel as [|fuel]; cbn [length] in Hf; [lia|]. cbn [mbind list_bind]. rewrite unescape_char, IH by lia. done.
Qed.

(** Markup: the angle brackets of a text. *)
Definition markup (s : str) : str := filter (λ c, c = 60 ∨ c = 62) s.
Lemma markup_app a b : markup (a ++ b) = markup a ++ markup b.
Proof. apply filter_app. Qed.
Lemma markup_none s : Forall (λ c, c ≠ 60 ∧ c ≠ 62) s → markup s = [].
Proof. induction 1 as [|c s Hc _ IH]; [done|]. unfold markup. rewrite filter_cons, decide_False by tauto. exact IH. Qed.
Lemma markup_esc s : markup (esc s) = [].
Proof.
  rewrite esc_chars. induction s as [|c s IH]; [done|]. cbn [mbind list_bind]. rewrite markup_app. fold (s ≫= esc_char).
  rewrite IH, app_nil_r. unfold esc_char. repeat (case_code; bsimp; subst; [by vm_compute|]). apply markup_none. by repeat constructor.
Qed.
Lemma show_go_small f : ∀ n, Forall (λ c, c < 58) (show_go f n).
Proof.
  induction f as [|f IH]; intros n; simpl; [constructor|]. destruct (Z.ltb_spec n 10).
  - repeat constructor. lia.
  - apply Forall_app. split; [apply IH|]. repeat constructor. pose proof (Z.mod_pos_bound n 10). lia.
Qed.
Lemma markup_show n : markup (show n) = [].
Proof. apply markup_none. eapply Forall_impl; [apply show_go_small|]. simpl. lia. Qed.
Lemma markup_ip ip : markup (ip_to_string ip) = [].
Proof.
  apply markup_none. eapply Forall_impl; [apply ip_to_string_addr|]. intros c Hc. split; intros ->; by vm_compute in Hc.
Qed.
#[local] Hint Rewrite markup_app markup_esc markup_show markup_ip @app_nil_r : markup.

(** ** Markup of a report *)

Definition blank_row (rc : RowKey * Z) : RowKey * Z :=
  (mkRow (V4 0) [] [] true true [] [] ((λ _, ([], [])) <$> rk_dkim rc.1), 0).
Definition blank_policy (p : DmarcRecord) : DmarcRecord :=
  mkDmarc PolNone ((λ _, PolNone) <$> dm_subdomain_policy p) Relaxed Relaxed 0 None.
(** A report of the same shape: as many rows with as many signatures, no content. *)
Definition blank_report (r : PendingReport) : PendingReport :=
  mkPending [] (blank_policy (pr_published r)) [] (blank_row <$> pr_rows r).

Definition same_markup (a b : str) : Prop := markup a = markup b.
Lemma same_markup_app a a' b b' : same_markup a a' → same_markup b b' → same_markup (a ++ b) (a' ++ b').
Proof. unfold same_markup. rewrite !markup_app. by intros -> ->. Qed.
Lemma same_markup_elem name a b : same_markup a b → same_markup (elem name a) (elem name b).
Proof. intros H. unfold elem. by repeat apply same_markup_app. Qed.
Lemma same_markup_esc a b : same_markup (esc a) (esc b).
Proof. unfold same_markup. by rewrite !markup_esc. Qed.
Lemma same_markup_show a b : same_markup (show a) (show b).
Proof. unfold same_markup. by rewrite !markup_show. Qed.
Lemma same_markup_ip a b : same_markup (ip_to_string a) (ip_to_string b).
Proof. unfold same_markup. by rewrite !markup_ip. Qed.
Lemma same_markup_policy a b : same_markup (policy a) (policy b).
Proof. by destruct a, b. Qed.
Lemma same_markup_align a b : same_markup (align a) (align b).
Proof. by destruct a, b. Qed.
Lemma same_markup_pass a b : same_markup (pass_fail a) (pass_fail b).
Proof. by destruct a, b. Qed.
#[local] Hint Resolve same_markup_esc same_markup_show same_markup_ip same_markup_policy same_markup_align same_markup_pass : markup.
Ltac same_markup :=
  repeat (apply same_markup_elem || apply same_markup_app || (progress eauto with markup) || reflexivity).

Lemma same_markup_lines ls ls' : Forall2 same_markup ls ls' → same_markup (ls ≫= xml_line) (ls' ≫= xml_line).
Proof.
  induction 1 as [|a b ls ls' H _ IH]; [done|]. cbn [mbind list_bind]. apply same_markup_app; [|done]. by apply same_markup_app.
Qed.

Lemma same_markup_refl_lines ls : Forall2 same_markup ls ls.
Proof. by apply Forall_Forall2_diag, Forall_true. Qed.

Lemma xml_row_markup rc : Forall2 same_markup (xml_row rc) (xml_row (blank_row rc)).
Proof.
  destruct rc as [row count]. unfold xml_row, blank_row. cbn [fst]. apply Forall2_app; [|apply Forall2_app].
  - repeat (apply Forall2_cons; split; [same_markup|]). done.
  - cbn [rk_dkim]. induction (rk_dkim row) as [|d ds IH]; [done|]. cbn [fmap list_fmap]. apply Forall2_cons. split; [|exact IH].
    unfold xml_dkim. same_markup.
  - repeat (apply Forall2_cons; split; [same_markup|]). done.
Qed.

(** A report carries no injected markup: whatever the domains, selectors, results and
    addresses in it, taken from DNS and from the messages received, its XML text has
    exactly the tags of an empty report of the same shape; and escaped text reads back
    as it was. *)
Theorem report_xml_no_injection (host : str) (r : PendingReport) (begin_ end_ : Z) (report_id text : str) :
  markup (report_xml host r begin_ end_ report_id) = markup (report_xml [] (blank_report r) 0 0 []) ∧
  unescape (length text) (esc text) = text.
Proof.
  split; [|by apply unescape_esc]. apply same_markup_lines. unfold report_lines.
  apply Forall2_app; [apply same_markup_refl_lines|]. apply Forall2_app.
  { unfold xml_metadata. repeat (apply Forall2_cons; split; [same_markup|]). done. }
  apply Forall2_app.
  { unfold xml_policy, blank_report, blank_policy. cbn [pr_domain pr_published dm_policy dm_subdomain_policy dm_adkim dm_aspf dm_pct].
    apply Forall2_app; [repeat (apply Forall2_cons; split; [same_markup|]); done|]. apply Forall2_app.
    - destruct (dm_subdomain_policy (pr_published r)); [|done]. apply Forall2_cons. split; [same_markup|done].
    - repeat (apply Forall2_cons; split; [same_markup|]). done. }
  apply Forall2_app; [|apply same_markup_refl_lines]. unfold blank_report. cbn [pr_rows].
  induction (pr_rows r) as [|rc rows IH]; [done|]. cbn [fmap list_fmap mbind list_bind].
  apply Forall2_app; [apply xml_row_markup|exact IH].
Qed.

(** * The attachment *)

Lemma chunks_spec n fuel : ∀ s, (0 < n)%nat → (length s ≤ fuel)%nat →
  concat (chunks fuel n s) = s ∧ Forall (λ c, (1 ≤ length c ≤ n)%nat) (chunks fuel n s).
Proof.
  induction fuel as [|fuel IH]; intros s Hn Hf; [destruct s; [done|simpl in Hf; lia]|].
  destruct s as [|c s]; [done|]. cbn [chunks concat].
  destruct (IH (drop n (c :: s)) Hn) as [Hc HF]; [rewrite length_drop; simpl in *; lia|].
  rewrite Hc, take_drop. split; [done|]. constructor; [|done]. rewrite length_take. simpl. lia.
Qed.

(** Text without its line ends. *)
Definition unwrap (s : bytes) : bytes := filter (λ c, c ≠ CR ∧ c ≠ LF) s.
Lemma unwrap_chunks cs : unwrap (cs ≫= λ c, c ++ CRLF) = unwrap (concat cs).
Proof.
  induction cs as [|c cs IH]; [done|]. cbn [mbind list_bind concat]. unfold unwrap in *. rewrite !filter_app. f_equal; [|exact IH].
  change (filter _ CRLF) with (@nil Z). by rewrite app_nil_r.
Qed.
Lemma unwrap_id s : Forall (λ c, c ≠ CR ∧ c ≠ LF) s → unwrap s = s.
Proof. intros HF. apply filter_all. by apply Forall_forall. Qed.

Lemma wrap_base64_spec b64 :
  Forall (λ c, c ≠ CR ∧ c ≠ LF) b64 →
  unwrap (wrap_base64 b64) = b64 ∧ Forall (λ c, (length c ≤ 76)%nat) (chunks (length b64) 76 b64).
Proof.
  intros HF. destruct (chunks_spec 76 (length b64) b64) as [Hc HFc]; [lia..|]. split.
  - unfold wrap_base64. by rewrite unwrap_chunks, Hc, unwrap_id.
  - eapply Forall_impl; [exact HFc|]. simpl. lia.
Qed.

(** * The mail of a report *)

Section report_mail.
Context (gzip base64_encode : bytes → bytes).
(** The base64 alphabet has no line ends. *)
Context (base64_one_line : ∀ b, Forall (λ c, c ≠ CR ∧ c ≠ LF) (base64_encode b)).

Lemma push_all_lines ls : push_all ls = (utf8_encode <$> ls) ≫= λ l, l ++ CRLF.
Proof. induction ls as [|l ls IH]; [done|]. cbn [fmap list_fmap mbind list_bind]. rewrite <-IH. done. Qed.

Lemma report_headers_lines host rua r begin_ end_ report_id :
  0 ≤ begin_ → 0 ≤ end_ → one_line_text host → one_line_text (pr_domain r) → one_line_text (Mailbox_to_string rua) →
  one_line_text report_id →
  Forall header_line (utf8_encode <$> report_headers host rua r (report_filename host r begin_ end_) report_id).
Proof.
  intros Hb He Hh Hd Hr Hid.
  assert (one_line_text (report_filename host r begin_ end_)) as Hf by (unfold report_filename; text_line).
  unfold report_headers. generalize dependent (report_filename host r begin_ end_). intros filename Hf.
  cbn [fmap list_fmap]. repeat (apply Forall_cons; split); [..|done].
  - apply (header_line_named (lit "From") (lit " dmarc-noreply@" ++ host)); [by vm_compute|text_line].
  - apply (header_line_named (lit "To") (lit " <" ++ Mailbox_to_string rua ++ lit ">")); [by vm_compute|text_line].
  - apply (header_line_named (lit "Subject") (lit " Report Domain: " ++ pr_domain r ++ lit " Submitter: " ++ host ++ lit " Report-ID: " ++ report_id)); [by vm_compute|text_line].
  - apply (header_line_named (lit "MIME-Version") (lit " 1.0")); [by vm_compute|text_line].
  - apply (header_line_named (lit "Content-Type") (lit " application/gzip; name=" ++ quoted filename)); [by vm_compute|unfold quoted; text_line].
  - apply (header_line_named (lit "Content-Transfer-Encoding") (lit " base64")); [by vm_compute|text_line].
  - apply (header_line_named (lit "Content-Disposition") (lit " attachment; filename=" ++ quoted filename)); [by vm_compute|unfold quoted; text_line].
Qed.

(** A report that has somewhere to go is mailed: when the published address parses
    and the names in it are single lines, a message is built, from the report sender to
    that address, whose body is the gzipped XML in base64 lines of at most 76
    characters, which a reader gets back by dropping the line ends. *)
Theorem build_report_mail (host : str) (r : PendingReport) (begin_ end_ : Z) (report_id : str) (rua from : Mailbox) :
  parse_rua (pr_rua r) = Some rua → Mailbox_parse (lit "dmarc-noreply@" ++ host) = Ok from →
  0 ≤ begin_ → 0 ≤ end_ → one_line_text host → one_line_text (pr_domain r) → one_line_text (Mailbox_to_string rua) →
  one_line_text report_id →
  ∃ m ls, build_report gzip base64_encode host r begin_ end_ report_id = Some m ∧
    msg_envelope m = mkEnvelope (Some from) [rua] ∧
    msg_body m = (ls ≫= λ l, l ++ CRLF) ++ CRLF ∧ Forall (λ l, (length l ≤ 76)%nat) ls ∧
    unwrap (msg_body m) = base64_encode (gzip (utf8_encode (report_xml host r begin_ end_ report_id))).
Proof.
  intros Hrua Hfrom Hb He Hh Hd Hr Hid. unfold build_report. rewrite Hrua, Hfrom. cbn [mbind option_bind ok].
  set (b64 := base64_encode _). destruct (wrap_base64_spec b64 (base64_one_line _)) as [Hu HF].
  destruct (Message_parse_lines (mkEnvelope (Some from) [rua])
    (utf8_encode <$> report_headers host rua r (report_filename host r begin_ end_) report_id) (wrap_base64 b64 ++ CRLF)) as (m & fs & Hm & Henv & Hbody & _).
  { by apply report_headers_lines. }
  { done. }
  assert (report_raw gzip base64_encode host rua r begin_ end_ report_id =
    ((utf8_encode <$> report_headers host rua r (report_filename host r begin_ end_) report_id) ≫= λ l, l ++ CRLF) ++
      CRLF ++ wrap_base64 b64 ++ CRLF) as ->.
  { unfold report_raw. rewrite push_all_lines, fmap_app, bind_app, <-app_assoc. done. }
  rewrite Hm. exists m, (chunks (length b64) 76 b64). split_and!; try done.
  rewrite Hbody. unfold unwrap in *. rewrite filter_app, Hu. change (filter _ CRLF) with (@nil Z). apply app_nil_r.
Qed.
End report_mail.


Section flush.
Context (gzip base64_encode : bytes → bytes).

Lemma build_report_inv host r begin_ end_ id m :
  build_report gzip base64_encode host r begin_ end_ id = Some m →
  ∃ rua, parse_rua (pr_rua r) = Some rua ∧ env_recipients (msg_envelope m) = [rua].
Proof.
  unfold build_report. destruct (parse_rua (pr_rua r)) as [rua|]; [|done]. cbn [mbind option_bind].
  destruct (Mailbox_parse _) as [from|]; [|done]. cbn [ok mbind option_bind].
  destruct (Message_parse _ _) as [m'|] eqn:E; [|done]. intros [= <-]. apply Message_parse_inv in E as (He & _).
  exists rua. by rewrite He.
Qed.

Lemma flush_one_frame now b e s r :
  let s' := flush_one gzip base64_encode now b e s r in
  srv_aggregator s' = srv_aggregator s ∧ srv_domains s' = srv_domains s ∧ srv_helo s' = srv_helo s ∧
  ∀ mb, mem_list (srv_store s') mb ≠ mem_list (srv_store s) mb →
    ∃ rua, parse_rua (pr_rua r) = Some rua ∧ mb = Mailbox_to_string rua ∧ server_is_local s rua = true.
Proof.
  unfold flush_one. destruct (build_report _ _ _ _ _ _ _) as [m|] eqn:Em; [|by split_and!].
  apply build_report_inv in Em as (rua & Hrua & Hrc).
  assert (srv_aggregator (server_accept_inbound now s m Permitted).1 = srv_aggregator s ∧
    srv_helo (server_accept_inbound now s m Permitted).1 = srv_helo s) as [Ha Hh].
  { unfold server_accept_inbound. destruct (accept_inbound _ _ _ m) as [st r']. simpl.
    destruct (srv_relay s); simpl; [case_bool_decide|]; done. }
  destruct (server_accept_frame now s m Permitted) as (Hd & _ & _). split_and!; [done..|].
  intros mb Hmb. destruct (server_accept_mailboxes now s m Permitted mb Hmb) as (x & Hx & -> & Hl).
  rewrite Hrc in Hx. apply list_elem_of_singleton in Hx as ->. by exists rua.
Qed.

Lemma flush_all_frame now b e reports : ∀ s,
  let s' := foldl (flush_one gzip base64_encode now b e) s reports in
  srv_aggregator s' = srv_aggregator s ∧
  ∀ mb, mem_list (srv_store s') mb ≠ mem_list (srv_store s) mb →
    ∃ r rua, r ∈ reports ∧ parse_rua (pr_rua r) = Some rua ∧ mb = Mailbox_to_string rua ∧ server_is_local s rua = true.
Proof.
  induction reports as [|r reports IH]; intros s; [done|]. cbn [foldl].
  destruct (flush_one_frame now b e s r) as (Ha & Hd & _ & Hm).
  destruct (IH (flush_one gzip base64_encode now b e s r)) as [Ha' Hm']. split; [by rewrite Ha'|].
  intros mb Hmb. destruct (decide (mem_list (srv_store (flush_one gzip base64_encode now b e s r)) mb = mem_list (srv_store s) mb)) as [E|Hne].
  - rewrite <-E in Hmb. destruct (Hm' mb Hmb) as (r' & rua & Hr & Hrua & -> & Hl). exists r', rua.
    unfold server_is_local in *. rewrite Hd in Hl. split_and!; [set_solver|done..].
  - destruct (Hm mb Hne) as (rua & Hrua & -> & Hl). exists r, rua. split_and!; [set_solver|done..].
Qed.

Lemma flush_reports_aggregator now s : srv_aggregator (flush_reports gzip base64_encode now s) = ∅.
Proof.
  unfold flush_reports, aggregator_drain. case_bool_decide; [done|]. by rewrite (proj1 (flush_all_frame _ _ _ _ _)).
Qed.
Lemma set_aggregator_id s : set_aggregator s (srv_aggregator s) = s.
Proof. by destruct s. Qed.

(** A flush reports once and touches nothing else: it empties the aggregator, so that
    flushing again sends nothing, and a local mailbox changes only if a reporting
    domain's published address is that mailbox. *)
Theorem flush_reports_once (now : Z) (s : Server) :
  let s' := flush_reports gzip base64_encode now s in
  srv_aggregator s' = ∅ ∧ (∀ now', flush_reports gzip base64_encode now' s' = s') ∧
  ∀ mb, mem_list (srv_store s') mb ≠ mem_list (srv_store s) mb →
    ∃ r rua, r ∈ (aggregator_drain (srv_aggregator s)).1 ∧ parse_rua (pr_rua r) = Some rua ∧
      mb = Mailbox_to_string rua ∧ server_is_local s rua = true.
Proof.
  intros s'. pose proof (flush_reports_aggregator now s) as Hagg. fold s' in Hagg. split_and!; [done| |].
  - intros now'. unfold flush_reports. rewrite Hagg. unfold aggregator_drain. rewrite map_to_list_empty. cbn [fmap list_fmap].
    rewrite bool_decide_eq_true_2 by done. rewrite <-Hagg. apply set_aggregator_id.
  - intros mb. unfold s', flush_reports. destruct (aggregator_drain (srv_aggregator s)) as [reports agg].
    case_bool_decide; [done|]. apply (flush_all_frame now _ _ reports (set_aggregator s agg)).
Qed.
End flush.

(** ** A report *)

Definition demo_report : PendingReport :=
  mkPending (lit "example.com") (mkDmarc PolReject (Some PolNone) Relaxed Strict 100 (Some (lit "mailto:d@example.com")))
    (lit "mailto:d@example.com!10m")
    [(mkRow (V4 3221225985) (lit "example.com") (lit "none") true false (lit "<a>&b") (lit "pass") [(lit "example.com", lit "pass")], 3)].

Lemma build_report_mail_witness :
  ∃ m ls, build_report id (λ _, lit "SGVsbG8=") (lit "mx.b.org") demo_report 0 86400 (lit "86400.example.com") = Some m ∧
    msg_envelope m = mkEnvelope (Some (mkMailbox (lit "dmarc-noreply") (lit "mx.b.org"))) [mkMailbox (lit "d") (lit "example.com")] ∧
    msg_body m = (ls ≫= λ l, l ++ CRLF) ++ CRLF ∧ Forall (λ l, (length l ≤ 76)%nat) ls ∧
    unwrap (msg_body m) = lit "SGVsbG8=".
Proof.
  apply (build_report_mail id (λ _, lit "SGVsbG8=")); try (by vm_compute); try (apply one_line_check; by vm_compute).
  intros _. apply (bool_decide_eq_true (Forall (λ c, c ≠ CR ∧ c ≠ LF) _)). by vm_compute.
Defined.
