(* ===== verification/Outbound.v ===== *)
(** * The outbound relay client

    services/snail_server/src/outbound.rs: one SMTP dialog with one downstream server
    ([relay_to]) and the choice of servers, addresses and TLS postures for a message
    ([relay]).  A dialog runs in a small state and error monad over the connection:
    what the peer sends in clear and under TLS is in the state, and every write is
    logged with the channel it went to.  The peer itself, the name lookups and the
    MTA-STS policies are parameters, so the theorems hold of every peer. *)
From stdpp Require Import sorting.
From S2P Require Import Prelude RustStr Net AddrParse Message Transport Store Received Dmarc Dns Tls MtaSts Spool Server Worker.

Inductive TlsPolicy :=
  | TlsNone
  | TlsOpportunistic (config : ClientConfig)
  | TlsStrict (config : ClientConfig).
#[export] Instance TlsPolicy_eq_dec : EqDecision TlsPolicy.
Proof. solve_decision. Defined.
Definition policy_config (p : TlsPolicy) : option ClientConfig :=
  match p with TlsNone => None | TlsOpportunistic c | TlsStrict c => Some c end.
Definition is_mandatory (p : TlsPolicy) : bool := match p with TlsStrict _ => true | _ => false end.

(** ** The connection *)

(** The bytes of one direction of a stream, cut after each line feed, and how they
    end: at the end of the stream or with an error. *)
Record Incoming := mkIncoming { in_lines : list bytes; in_end : option str }.
Definition incoming (data : bytes) (end_ : option str) : Incoming := mkIncoming (split_inclusive_lf data) end_.

(** A downstream server as one attempt meets it: whether it accepts the connection;
    what it sends in clear; whether it had sent more than its answer to STARTTLS when
    that answer was read; the TLS handshake under a configuration for a name, and
    what it sends after it; and which writes and flushes fail. *)
Record Peer := mkPeer {
  peer_connect : result str ();
  peer_plain : Incoming;
  peer_pipelined : bool;
  peer_handshake : ClientConfig → str → result NetworkError Incoming;
  peer_write : list (bool * bytes) → option str;
  peer_flush : list (bool * bytes) → option str }.

Record Link := mkLink { lk_tls : bool; lk_in : Incoming; lk_log : list (bool * bytes) }.

Definition Dialog (A : Type) : Type := Link → result str A * Link.
#[export] Instance Dialog_ret : MRet Dialog := λ A a l, (Ok a, l).
#[export] Instance Dialog_bind : MBind Dialog := λ A B f m l,
  match m l with (Ok a, l') => f a l' | (Err e, l') => (Err e, l') end.

Definition ok_range (lo hi code : Z) : bool := (lo <=? code) && (code <? hi).

Definition classify (code : Z) (context : str) : RelayReport :=
  if (code =? 0) || ok_range 400 500 code then RelayDeferred code context
  else RelayFailed (show code ++ [SP] ++ context).

Definition advertises_starttls (capabilities : list str) : bool :=
  existsb (λ line, match split_whitespace line with
                   | token :: _ => eq_ignore_case token (lit "STARTTLS")
                   | [] => false
                   end) capabilities.

(** [str::get(..3)] parsed as a [u16]. *)
Definition reply_code (trimmed : str) : option Z := '(c, _) ← split_at_byte 3 trimmed; parse_uint U16_MAX c.

(** One [read_line]: an error of the stream shows when the line is not complete. *)
Definition reply_line (raw : bytes) (end_ : option str) : result str str :=
  match end_ with
  | Some e => if ends_with [LF] raw then ok_or (lit "stream did not contain valid UTF-8") (from_utf8 raw) else Err e
  | None => ok_or (lit "stream did not contain valid UTF-8") (from_utf8 raw)
  end.

Section dialog.
(** [{:?}] of a string; the peer. *)
Context (debug_str : str → str) (peer : Peer).

Fixpoint read_reply_loop (texts : list str) (ls : list bytes) (end_ : option str)
    : result str (Z * list str) * list bytes :=
  match ls with
  | [] => (Err (default (lit "connection closed mid-reply") end_), [])
  | raw :: ls =>
      match reply_line raw end_ with
      | Err e => (Err e, ls)
      | Ok line =>
          let trimmed := trim_end_crlf line in
          match reply_code trimmed with
          | None => (Err (lit "malformed SMTP reply line: " ++ debug_str trimmed), ls)
          | Some code =>
              let more := bool_decide (utf8_encode trimmed !! 3%nat = Some 45) in
              let texts := texts ++ [from_option snd [] (split_at_byte 4 trimmed)] in
              if more then read_reply_loop texts ls end_ else (Ok (code, texts), ls)
          end
      end
  end.
Definition read_reply : Dialog (Z * list str) := λ l,
  let '(r, ls) := read_reply_loop [] (in_lines (lk_in l)) (in_end (lk_in l)) in
  (r, mkLink (lk_tls l) (mkIncoming ls (in_end (lk_in l))) (lk_log l)).

(** What a failing write had sent counts as written. *)
Definition write_all (b : bytes) : Dialog () := λ l,
  let log := lk_log l ++ [(lk_tls l, b)] in
  (match peer_write peer log with Some e => Err e | None => Ok () end, mkLink (lk_tls l) (lk_in l) log).
Definition flush_stream : Dialog () := λ l, (match peer_flush peer (lk_log l) with Some e => Err e | None => Ok () end, l).
(** [let _ = ...]. *)
Definition best_effort (m : Dialog ()) : Dialog () := λ l, (Ok (), (m l).2).
(** The stream after a handshake. *)
Definition into_tls (rest : Incoming) : Dialog () := λ l, (Ok (), mkLink true rest (lk_log l)).

Definition command (line : str) : Dialog (Z * list str) :=
  write_all (utf8_encode line);;
  write_all CRLF;;
  flush_stream;;
  read_reply.

(** [Some r] ends the attempt with [r]. *)
Definition start_tls (config : ClientConfig) (server_name ehlo : str) : Dialog (option RelayReport) :=
  '(code, text) ← command (lit "STARTTLS");
  if negb (ok_range 200 300 code) then
    mret (Some (RelayDeferred code (lit "STARTTLS refused: " ++ join [SP] text)))
  else if peer_pipelined peer then mret (Some (RelayDeferred 0 (lit "server pipelined data after STARTTLS")))
  else match peer_handshake peer config server_name with
       | Err error =>
           mret (Some (RelayDeferred 0 (lit "STARTTLS handshake with " ++ server_name ++ lit ": " ++
             NetworkError_to_string error)))
       | Ok upgraded =>
           into_tls upgraded;;
           '(code, text) ← command ehlo;
           if negb (ok_range 200 300 code) then
             mret (Some (classify code (lit "after TLS `" ++ ehlo ++ lit "`: " ++ join [SP] text)))
           else mret None
       end.

Definition reply_ok (cmd : str) (code : Z) : bool :=
  if cmd =s? lit "DATA" then code =? 354 else ok_range 200 300 code.
Fixpoint send_commands (cmds : list str) : Dialog (option RelayReport) :=
  match cmds with
  | [] => mret None
  | cmd :: cmds =>
      '(code, text) ← command cmd;
      if negb (reply_ok cmd code) then
        mret (Some (classify code (lit "after `" ++ cmd ++ lit "`: " ++ join [SP] text)))
      else send_commands cmds
  end.

Definition transmit (payload : bytes) : Dialog RelayReport :=
  write_all payload;;
  flush_stream;;
  '(code, text) ← read_reply;
  best_effort (write_all (lit "QUIT" ++ CRLF));;
  best_effort flush_stream;;
  mret (if ok_range 200 300 code then RelayDelivered else classify code (join [SP] text)).

Definition transaction (cmds : list str) (payload : bytes) : Dialog RelayReport :=
  early ← send_commands cmds;
  match early with Some r => mret r | None => transmit payload end.

(** [commands[0]] is the EHLO: a script is never empty. *)
Definition dialog (server_name : str) (script : RelayScript) (policy : TlsPolicy) : Dialog RelayReport :=
  let ehlo := hd [] (commands script) in
  let mail := transaction (tl (commands script)) (data script) in
  '(code, text) ← read_reply;
  if negb (ok_range 200 400 code) then mret (classify code (lit "greeting: " ++ join [SP] text)) else
  '(code, capabilities) ← command ehlo;
  if negb (ok_range 200 300 code) then
    mret (classify code (lit "after `" ++ ehlo ++ lit "`: " ++ join [SP] capabilities)) else
  if is_mandatory policy && negb (advertises_starttls capabilities) then
    mret (RelayDeferred 0 (lit "MTA-STS enforce: " ++ server_name ++ lit " does not advertise STARTTLS")) else
  match policy_config policy with
  | Some config =>
      if advertises_starttls capabilities then
        early ← start_tls config server_name ehlo;
        match early with Some r => mret r | None => mail end
      else mail
  | None => mail
  end.

Definition relay_to (addr server_name helo : str) (message : Message) (policy : TlsPolicy)
    : result str RelayReport * list (bool * bytes) :=
  match peer_connect peer with
  | Err error => (Ok (RelayDeferred 0 (lit "connect " ++ addr ++ lit ": " ++ error)), [])
  | Ok _ =>
      let '(r, l) := dialog server_name (relay_script helo message) policy (mkLink false (peer_plain peer) []) in
      (r, lk_log l)
  end.
End dialog.

(** ** Choosing exchanges and addresses *)

Definition exchange_tls_policy (sts : option MtaStsPolicy) (pkix : option ClientConfig) (mx_host : str)
    (opportunistic : option ClientConfig) : option TlsPolicy :=
  let fallback := Some (from_option TlsOpportunistic TlsNone opportunistic) in
  match sts with
  | Some policy =>
      if bool_decide (sts_mode policy = Enforce) then
        if negb (allows_mx policy mx_host) then None else TlsStrict <$> pkix
      else fallback
  | None => fallback
  end.

(** [sort_by_key(|mx| mx.preference)], a stable sort. *)
Fixpoint insert_mx (m : MxRecord) (l : list MxRecord) : list MxRecord :=
  match l with
  | [] => [m]
  | x :: l' => if mx_preference m <=? mx_preference x then m :: l else x :: insert_mx m l'
  end.
Definition sort_by_preference (l : list MxRecord) : list MxRecord := foldr insert_mx [] l.

(** [SocketAddr::to_string]. *)
Definition socket_addr_to_string (ip : IpAddr) (port : Z) : str :=
  match ip with
  | V4 _ => ip_to_string ip
  | V6 _ => [91] ++ ip_to_string ip ++ [93]
  end ++ [COLON] ++ show port.

Definition parse_ip (s : str) : option IpAddr :=
  match parse_v4 s with Some a => Some (V4 a) | None => V6 <$> parse_v6 s end.

(** [MtaStsResolver] with the world its calls meet: the clock before and after a
    fetch, and what [policy_for] takes. *)
Record MtaStsResolver := mkStsResolver {
  ms_cache : gmap (list Z) CacheEntry;
  ms_resolver : DnsResolver;
  ms_exchange : IpAddr → str → str → result NetworkError (list bytes);
  ms_timed_out : str → bool;
  ms_iter : gmap (list Z) CacheEntry → list (list Z * CacheEntry);
  ms_now : Z; ms_later : Z }.
Definition pkix_config (_ : MtaStsResolver) : ClientConfig := PkixClient.
Definition ms_policy_for (r : MtaStsResolver) (domain : str) : MtaStsResolver * option MtaStsPolicy :=
  let '(cache, p) := policy_for (ms_resolver r) (ms_exchange r) (ms_timed_out r) (ms_iter r) (ms_now r) (ms_later r)
                       (ms_cache r) domain in
  (mkStsResolver cache (ms_resolver r) (ms_exchange r) (ms_timed_out r) (ms_iter r) (ms_now r) (ms_later r), p).

(** One call of [relay_to], as it went. *)
Record RelayAttempt := mkAttempt {
  at_exchange : str; at_addr : str; at_policy : TlsPolicy;
  at_result : result str RelayReport; at_log : list (bool * bytes) }.

(** The rest of a loop: leave [relay] with a report, or go on with the last one. *)
Inductive Progress := Return (r : RelayReport) | Go (last : RelayReport).

Section relay.
(** [{:?}]; the resolver; the peer the n-th attempt meets at an address; what the
    crypto provider says of the default protocol versions. *)
Context (debug_str : str → str) (resolver : DnsResolver) (net : nat → str → Peer) (versions : result str ()).
Context (helo : str) (port : Z) (message : Message) (tls : option ClientConfig).

Definition dane_tls_policy (host : str) : option ClientConfig :=
  records ← mjoin (ok (dns_secure_tlsa resolver port host));
  if negb (has_usable_tlsa records) then None else ok (dane_client versions records).

Definition resolve_exchange (exchange : str) : result str (list IpAddr) :=
  match parse_ip exchange with
  | Some ip => Ok [ip]
  | None =>
      match dns_ip resolver exchange with
      | Ok [] => Err (lit "no A/AAAA address for MX " ++ exchange)
      | Ok records => Ok records
      | Err error => Err (lit "address lookup for MX " ++ exchange ++ lit ": " ++ NetworkError_to_string error)
      end
  end.

Definition posture (dane_active : bool) (sts_policy : option MtaStsPolicy) (pkix : option ClientConfig)
    (exchange : str) : option TlsPolicy :=
  if dane_active then
    match dane_tls_policy exchange with
    | Some config => Some (TlsStrict config)
    | None => Some (from_option TlsOpportunistic TlsNone tls)
    end
  else exchange_tls_policy sts_policy pkix exchange tls.

Definition progress_of (addr : str) (r : result str RelayReport) : Progress :=
  match r with
  | Ok RelayDelivered => Return RelayDelivered
  | Ok (RelayFailed reason) => Return (RelayFailed reason)
  | Ok deferred => Go deferred
  | Err error => Go (RelayDeferred 0 (addr ++ lit ": " ++ error))
  end.

Fixpoint try_addresses (exchange : str) (policy : TlsPolicy) (addresses : list IpAddr) (tried : list RelayAttempt)
    (last : RelayReport) : list RelayAttempt * Progress :=
  match addresses with
  | [] => (tried, Go last)
  | ip :: addresses =>
      let addr := socket_addr_to_string ip port in
      let '(r, log) := relay_to debug_str (net (length tried) addr) addr exchange helo message policy in
      let tried := tried ++ [mkAttempt exchange addr policy r log] in
      match progress_of addr r with
      | Return r => (tried, Return r)
      | Go last => try_addresses exchange policy addresses tried last
      end
  end.

Fixpoint try_exchanges (choose : str → option TlsPolicy) (exchanges : list MxRecord) (tried : list RelayAttempt)
    (attempted : bool) (last : RelayReport) : list RelayAttempt * bool * Progress :=
  match exchanges with
  | [] => (tried, attempted, Go last)
  | mx :: exchanges =>
      if mx_is_null mx then try_exchanges choose exchanges tried attempted last else
      match choose (mx_exchange mx) with
      | None => try_exchanges choose exchanges tried attempted last
      | Some policy =>
          match resolve_exchange (mx_exchange mx) with
          | Err text => try_exchanges choose exchanges tried true (RelayDeferred 0 text)
          | Ok addresses =>
              match try_addresses (mx_exchange mx) policy addresses tried last with
              | (tried, Return r) => (tried, true, Return r)
              | (tried, Go last) => try_exchanges choose exchanges tried true last
              end
          end
      end
  end.

(** The exchanges of a domain in the order they are tried; [Err] is a failed lookup. *)
Definition exchanges_for (secure_mx : option (list MxRecord)) (domain : str) : result RelayReport (list MxRecord) :=
  match secure_mx with
  | Some mxs => Ok (sort_by_preference mxs)
  | None =>
      match dns_mx resolver domain with
      | Ok [] => Ok [mkMx 0 domain]
      | Ok mxs => Ok (sort_by_preference mxs)
      | Err error =>
          Err (RelayDeferred 0 (lit "MX lookup for " ++ domain ++ lit ": " ++ NetworkError_to_string error))
      end
  end.

Definition is_enforce (p : option MtaStsPolicy) : bool :=
  match p with Some p => bool_decide (sts_mode p = Enforce) | None => false end.

Definition relay (mta_sts : option MtaStsResolver) (dane : bool)
    : option MtaStsResolver * list RelayAttempt * RelayReport :=
  match env_recipients (msg_envelope message) with
  | [] => (mta_sts, [], RelayFailed (lit "message has no recipients"))
  | first :: _ =>
      let domain := domain first in
      let secure_mx := if dane then default None (ok (dns_secure_mx resolver domain)) else None in
      let dane_active := bool_decide (is_Some secure_mx) in
      match exchanges_for secure_mx domain with
      | Err report => (mta_sts, [], report)
      | Ok exchanges =>
          if forallb mx_is_null exchanges then
            (mta_sts, [], RelayFailed (domain ++ lit " does not accept mail (null MX, RFC 7505)"))
          else
          let '(mta_sts, sts_policy) :=
            if dane_active then (mta_sts, None)
            else match mta_sts with
                 | Some sts => let '(sts, p) := ms_policy_for sts domain in (Some sts, p)
                 | None => (None, None)
                 end in
          let pkix := pkix_config <$> mta_sts in
          let '(tried, attempted, progress) :=
            try_exchanges (posture dane_active sts_policy pkix) exchanges [] false
              (RelayDeferred 0 (lit "no usable MX for " ++ domain)) in
          match progress with
          | Return report => (mta_sts, tried, report)
          | Go last =>
              if is_enforce sts_policy && negb attempted then
                (mta_sts, tried, RelayDeferred 0 (lit "no MX for " ++ domain ++ lit " matches its MTA-STS policy"))
              else (mta_sts, tried, last)
          end
      end
  end.
End relay.

(** * One dialog: what goes over the wire *)

(** The replies a peer gives, one check for each: [accepts cs i i'] when the replies
    read from [i] have codes that pass [cs] in order, leaving [i']. *)
Inductive accepts (debug_str : str → str) : list (Z → bool) → Incoming → Incoming → Prop :=
  | accepts_nil i : accepts debug_str [] i i
  | accepts_cons c cs i code text ls i' :
      read_reply_loop debug_str [] (in_lines i) (in_end i) = (Ok (code, text), ls) → c code = true →
      accepts debug_str cs (mkIncoming ls (in_end i)) i' → accepts debug_str (c :: cs) i i'.

Definition on_channel (tls : bool) (ws : list bytes) : list (bool * bytes) := pair tls <$> ws.
Definition line_writes (cmd : str) : list bytes := [utf8_encode cmd; CRLF].
Definition mail_writes (script : RelayScript) : list bytes :=
  (tl (commands script) ≫= line_writes) ++ [data script; lit "QUIT" ++ CRLF].
Definition mail_checks (script : RelayScript) : list (Z → bool) :=
  (reply_ok <$> tl (commands script)) ++ [ok_range 200 300].
Definition ehlo_writes (script : RelayScript) : list bytes := line_writes (hd [] (commands script)).
(** The wire of a whole dialog, with and without the upgrade. *)
Definition transcript (upgrade : bool) (script : RelayScript) : list (bool * bytes) :=
  on_channel false (ehlo_writes script) ++
  (if upgrade then
     on_channel false (line_writes (lit "STARTTLS")) ++ on_channel true (ehlo_writes script ++ mail_writes script)
   else on_channel false (mail_writes script)).

(** The capabilities in the second reply of the peer. *)
Definition capabilities_of (debug_str : str → str) (peer : Peer) : option (list str) :=
  match read_reply_loop debug_str [] (in_lines (peer_plain peer)) (in_end (peer_plain peer)) with
  | (Ok _, ls) =>
      match read_reply_loop debug_str [] ls (in_end (peer_plain peer)) with
      | (Ok (_, caps), _) => Some caps
      | _ => None
      end
  | _ => None
  end.
Definition upgrades (debug_str : str → str) (peer : Peer) (policy : TlsPolicy) : bool :=
  match policy_config policy, capabilities_of debug_str peer with
  | Some _, Some caps => advertises_starttls caps
  | _, _ => false
  end.

#[local] Arguments on_channel : simpl never.
#[local] Arguments lit : simpl never.
Lemma on_channel_app tls a b : on_channel tls (a ++ b) = on_channel tls a ++ on_channel tls b.
Proof. apply fmap_app. Qed.
Lemma on_channel_prefix tls a b : a `prefix_of` b → on_channel tls a `prefix_of` on_channel tls b.
Proof. intros [k ->]. rewrite on_channel_app. by apply prefix_app_r. Qed.
Lemma elem_of_on_channel tls ws p : p ∈ on_channel tls ws ↔ p.1 = tls ∧ p.2 ∈ ws.
Proof. unfold on_channel. rewrite list_elem_of_fmap. destruct p; naive_solver. Qed.
Lemma accepts_app debug_str cs1 cs2 i i1 i2 :
  accepts debug_str cs1 i i1 → accepts debug_str cs2 i1 i2 → accepts debug_str (cs1 ++ cs2) i i2.
Proof. induction 1; simpl; [done|]. intros. econstructor; eauto. Qed.

Section wire.
Context (debug_str : str → str) (peer : Peer).

(** A step of a dialog stays on its channel, writes a beginning of [ws], and when it
    ends with a result that is [full] has written all of it and has read replies that
    pass [cs]. *)
Definition does {A} (full : A → bool) (m : Dialog A) (ws : list bytes) (cs : list (Z → bool)) : Prop :=
  ∀ l, ∃ k, lk_log (m l).2 = lk_log l ++ on_channel (lk_tls l) k ∧ k `prefix_of` ws ∧
    lk_tls (m l).2 = lk_tls l ∧
    ∀ a, (m l).1 = Ok a → full a = true → k = ws ∧ accepts debug_str cs (lk_in l) (lk_in (m l).2).
Definition always {A} (_ : A) : bool := true.

Lemma does_mret {A} (full : A → bool) a : does full (mret a) [] [].
Proof. intros l. exists []. rewrite app_nil_r. split_and!; try done. intros; split; [done|constructor]. Qed.

(** A step that ends early writes nothing more. *)
Lemma does_early {A} (full : A → bool) a ws cs : full a = false → does full (mret a) ws cs.
Proof.
  intros Hf l. exists []. rewrite app_nil_r. split_and!; try done; [apply prefix_nil|]. intros a' [= <-]. congruence.
Qed.

Lemma does_weaken {A} (full full' : A → bool) m ws cs :
  does full m ws cs → (∀ a, full' a = true → full a = true) → does full' m ws cs.
Proof. intros H Hi l. destruct (H l) as (k & ? & ? & ? & Hk). exists k. split_and!; eauto. Qed.

Lemma does_bind {A B} (full1 : A → bool) (full2 : B → bool) (m : Dialog A) (f : A → Dialog B) ws1 ws2 cs1 cs2 :
  does full1 m ws1 cs1 →
  (∀ a, full1 a = true → does full2 (f a) ws2 cs2) →
  (∀ l a, (m l).1 = Ok a → full1 a = false → ∃ b, f a = mret b ∧ full2 b = false) →
  does full2 (m ≫= f) (ws1 ++ ws2) (cs1 ++ cs2).
Proof.
  intros Hm Hf He l. destruct (Hm l) as (k1 & Hl1 & Hp1 & Ht1 & Hk1).
  specialize (He l). unfold mbind, Dialog_bind. destruct (m l) as [[a|e] l1]; simpl in *.
  - destruct (full1 a) eqn:Hfa.
    + destruct (Hk1 a eq_refl Hfa) as [-> Ha1]. destruct (Hf a Hfa l1) as (k2 & Hl2 & Hp2 & Ht2 & Hk2).
      exists (ws1 ++ k2). rewrite Hl2, Hl1, Ht1, on_channel_app, <-app_assoc. split_and!; try done.
      * by apply prefix_app.
      * by rewrite Ht2.
      * intros b Hb Hfb. destruct (Hk2 b Hb Hfb) as [-> Ha2]. split; [done|]. by eapply accepts_app.
    + destruct (He a eq_refl Hfa) as (b & -> & Hfb). exists k1. split_and!; try done; [by apply prefix_app_r|].
      intros b' [= <-]. congruence.
  - exists k1. split_and!; try done. by apply prefix_app_r.
Qed.

Lemma does_seq {A B} (full2 : B → bool) (m : Dialog A) (f : A → Dialog B) ws1 ws2 cs1 cs2 :
  does always m ws1 cs1 → (∀ a, does full2 (f a) ws2 cs2) → does full2 (m ≫= f) (ws1 ++ ws2) (cs1 ++ cs2).
Proof. intros Hm Hf. by apply (does_bind always); [|intros a _|]. Qed.

Lemma does_write b : does always (write_all peer b) [b] [].
Proof. intros l. exists [b]. split_and!; try done. intros; split; [done|constructor]. Qed.
Lemma does_flush : does always (flush_stream peer) [] [].
Proof. intros l. exists []. simpl. rewrite app_nil_r. split_and!; try done. intros; split; [done|constructor]. Qed.
Lemma does_best_effort m ws :
  does always m ws [] → (∀ l, lk_in (m l).2 = lk_in l ∧ lk_log (m l).2 = lk_log l ++ on_channel (lk_tls l) ws) →
  does always (best_effort m) ws [].
Proof.
  intros Hm Hl l. destruct (Hm l) as (k & _ & _ & Ht & _). destruct (Hl l) as [Hi Hlog]. exists ws.
  split_and!; try done. intros _ _ _. split; [done|]. simpl. rewrite Hi. constructor.
Qed.
Lemma does_read (c : Z → bool) : does (λ r, c r.1) (read_reply debug_str) [] [c].
Proof.
  intros l. unfold read_reply.
  destruct (read_reply_loop debug_str [] (in_lines (lk_in l)) (in_end (lk_in l))) as [r ls] eqn:E. simpl.
  exists []. rewrite app_nil_r. split_and!; try done. intros [code text] -> Hc. split; [done|].
  econstructor; [exact E|done|constructor].
Qed.
Lemma does_command (c : Z → bool) line : does (λ r, c r.1) (command debug_str peer line) (line_writes line) [c].
Proof.
  apply (does_seq _ _ _ [utf8_encode line] [CRLF] [] [c]); [apply does_write|intros []].
  apply (does_seq _ _ _ [CRLF] [] [] [c]); [apply does_write|intros []].
  apply (does_seq _ _ _ [] [] [] [c]); [apply does_flush|intros []]. apply does_read.
Qed.

Definition goes_on (early : option RelayReport) : bool := bool_decide (early = None).
Definition delivered (r : RelayReport) : bool := match r with RelayDelivered => true | _ => false end.
Lemma classify_delivered code t : delivered (classify code t) = false.
Proof. unfold classify. by case_code. Qed.

(** The rule for a command whose reply decides whether to go on. *)
Lemma does_checked {B} (full2 : B → bool) (c : Z → bool) line (f : Z * list str → Dialog B) ws cs :
  (∀ a, c a.1 = true → does full2 (f a) ws cs) → (∀ a, c a.1 = false → ∃ b, f a = mret b ∧ full2 b = false) →
  does full2 (command debug_str peer line ≫= f) (line_writes line ++ ws) (c :: cs).
Proof.
  intros Hf He. apply (does_bind (λ a, c a.1) full2 _ _ (line_writes line) ws [c] cs); [apply does_command|done|].
  intros _ a _. apply He.
Qed.

Lemma does_send_commands cmds :
  does goes_on (send_commands debug_str peer cmds) (cmds ≫= line_writes) (reply_ok <$> cmds).
Proof.
  induction cmds as [|cmd cmds IH]; [apply does_mret|]. cbn [send_commands mbind list_bind fmap list_fmap].
  apply does_checked; intros [code text]; simpl; intros ->; [exact IH|]. by eexists.
Qed.

Lemma does_transmit payload : does delivered (transmit debug_str peer payload) [payload; lit "QUIT" ++ CRLF] [ok_range 200 300].
Proof.
  apply (does_seq _ _ _ [payload] [lit "QUIT" ++ CRLF] [] _); [apply does_write|intros []].
  apply (does_seq _ _ _ [] [lit "QUIT" ++ CRLF] [] _); [apply does_flush|intros []].
  generalize (lit "QUIT" ++ CRLF) as quit. intros quit l.
  pose proof (does_read (ok_range 200 300) l) as (k & Hl & Hp & Ht & Hk).
  apply prefix_nil_inv in Hp as ->. unfold mbind, Dialog_bind.
  destruct (read_reply debug_str l) as [[[code text]|e] l1]; simpl in *; rewrite app_nil_r in Hl.
  - exists [quit]. rewrite Hl, Ht. do 3 (split; [done|]). intros a [= <-] Hd. split; [done|].
    apply (Hk (code, text)); [done|]. simpl. destruct (ok_range 200 300 code); [done|]. by rewrite classify_delivered in Hd.
  - exists []. rewrite Hl. split_and!; try done; [by rewrite app_nil_r|apply prefix_nil].
Qed.

Lemma send_commands_early cmds : ∀ l r, (send_commands debug_str peer cmds l).1 = Ok (Some r) → delivered r = false.
Proof.
  induction cmds as [|cmd cmds IH]; intros l r; [done|]. cbn [send_commands]. unfold mbind, Dialog_bind.
  destruct (command debug_str peer cmd l) as [[[code text]|e] l1]; [|done]. destruct (reply_ok cmd code); [apply IH|].
  intros [= <-]. apply classify_delivered.
Qed.

Lemma does_transaction script :
  does delivered (transaction debug_str peer (tl (commands script)) (data script)) (mail_writes script) (mail_checks script).
Proof.
  apply (does_bind goes_on); [apply does_send_commands| |].
  - intros a Ha. unfold goes_on in Ha. bsimp. subst. apply does_transmit.
  - intros l [r|] Hr Ha; [|done]. exists r. split; [done|]. by eapply send_commands_early.
Qed.

(** A command that gets an answer was written whole, and the answer is the next reply. *)
Lemma command_answer line l code text l' :
  command debug_str peer line l = (Ok (code, text), l') →
  lk_log l' = lk_log l ++ on_channel (lk_tls l) (line_writes line) ∧ lk_tls l' = lk_tls l ∧
  read_reply_loop debug_str [] (in_lines (lk_in l)) (in_end (lk_in l)) = (Ok (code, text), in_lines (lk_in l')) ∧
  in_end (lk_in l') = in_end (lk_in l).
Proof.
  intros E. destruct (does_command (λ _, true) line l) as (k & Hl & _ & Ht & Hk). rewrite E in *. simpl in *.
  destruct (Hk (code, text)) as [-> _]; [done|done|]. split_and!; [done|done| |].
  all: revert E; unfold command, mbind, Dialog_bind; simpl; destruct (peer_write _ _); [done|]; simpl;
    destruct (peer_write _ _); [done|]; simpl; destruct (peer_flush _ _); [done|]; unfold read_reply; simpl;
    destruct (read_reply_loop _ _ _ _) as [r ls]; by intros [= -> <-].
Qed.
Lemma command_no_answer line l e l' :
  command debug_str peer line l = (Err e, l') →
  ∃ k, lk_log l' = lk_log l ++ on_channel (lk_tls l) k ∧ k `prefix_of` line_writes line ∧ lk_tls l' = lk_tls l.
Proof.
  intros E. destruct (does_command (λ _, true) line l) as (k & Hl & Hp & Ht & _). rewrite E in *. eauto.
Qed.
Lemma accepts_one (c : Z → bool) i code text i' :
  read_reply_loop debug_str [] (in_lines i) (in_end i) = (Ok (code, text), in_lines i') → in_end i' = in_end i →
  c code = true → accepts debug_str [c] i i'.
Proof. intros E He Hc. destruct i'; simpl in *. subst. econstructor; [exact E|done|constructor]. Qed.

Lemma start_tls_spec config server_name ehlo l :
  lk_tls l = false →
  let '(r, l') := start_tls debug_str peer config server_name ehlo l in
  (∀ rep, r = Ok (Some rep) → delivered rep = false) ∧
  ((r ≠ Ok None ∧ ∃ k, lk_log l' = lk_log l ++ on_channel false k ∧ k `prefix_of` line_writes (lit "STARTTLS")) ∨
   (∃ rest k, peer_handshake peer config server_name = Ok rest ∧ lk_tls l' = true ∧
      lk_log l' = lk_log l ++ on_channel false (line_writes (lit "STARTTLS")) ++ on_channel true k ∧
      k `prefix_of` line_writes ehlo ∧
      (r = Ok None → k = line_writes ehlo ∧ (∃ i, accepts debug_str [ok_range 200 300] (lk_in l) i) ∧
         accepts debug_str [ok_range 200 300] rest (lk_in l')))).
Proof.
  intros Ht. unfold start_tls, mbind, Dialog_bind.
  destruct (command debug_str peer (lit "STARTTLS") l) as [[[code text]|e] l1] eqn:E1.
  2: { apply command_no_answer in E1 as (k & Hl & Hp & _). rewrite Ht in Hl. split; [done|]. left. eauto. }
  apply command_answer in E1 as (Hl1 & Ht1 & Hr1 & Hi1). rewrite Ht in Hl1.
  destruct (ok_range 200 300 code) eqn:Ec; [|split; [by intros rep [= <-]|left; split; [done|eauto]]].
  cbn [negb]. destruct (peer_pipelined peer); [split; [by intros rep [= <-]|left; split; [done|eauto]]|].
  destruct (peer_handshake peer config server_name) as [rest|err]; [|split; [by intros rep [= <-]|left; split; [done|eauto]]].
  unfold into_tls. destruct (command debug_str peer ehlo _) as [[[code2 text2]|e] l2] eqn:E2.
  - apply command_answer in E2 as (Hl2 & Ht2 & Hr2 & Hi2). simpl in *. rewrite Hl1 in Hl2.
    destruct (ok_range 200 300 code2) eqn:Ec2; simpl.
    + split; [done|]. right. exists rest, (line_writes ehlo). rewrite Hl2, <-app_assoc. split_and!; try done. intros _.
      split_and!; [done|exists (lk_in l1); by eapply accepts_one|by eapply accepts_one].
    + split; [intros rep [= <-]; apply classify_delivered|]. right. exists rest, (line_writes ehlo).
      rewrite Hl2, <-app_assoc. by split_and!.
  - apply command_no_answer in E2 as (k & Hl2 & Hp & Ht2). simpl in *. rewrite Hl1 in Hl2. split; [done|].
    right. exists rest, k. rewrite Hl2, <-app_assoc. by split_and!.
Qed.
End wire.

(** What the peer answered in a dialog that delivered: the greeting, the EHLO, the
    STARTTLS and the EHLO under TLS where there was an upgrade, and every command of
    the mail transaction and its data. *)
Definition answered (debug_str : str → str) (peer : Peer) (policy : TlsPolicy) (server_name : str) (script : RelayScript) : Prop :=
  let hello := [ok_range 200 400; ok_range 200 300] in
  if upgrades debug_str peer policy then
    ∃ config rest i i', policy_config policy = Some config ∧ peer_handshake peer config server_name = Ok rest ∧
      accepts debug_str (hello ++ [ok_range 200 300]) (peer_plain peer) i ∧
      accepts debug_str (ok_range 200 300 :: mail_checks script) rest i'
  else ∃ i, accepts debug_str (hello ++ mail_checks script) (peer_plain peer) i.

Definition dialog_ok (debug_str : str → str) (peer : Peer) (policy : TlsPolicy) (server_name : str) (script : RelayScript)
    (r : result str RelayReport) (log : list (bool * bytes)) : Prop :=
  let up := upgrades debug_str peer policy in
  log `prefix_of` transcript up script ∧
  (r = Ok RelayDelivered → log = transcript up script ∧ answered debug_str peer policy server_name script) ∧
  (is_mandatory policy = true → up = false → log `prefix_of` on_channel false (ehlo_writes script)) ∧
  (∀ b, (true, b) ∈ log → ∃ config rest,
     policy_config policy = Some config ∧ peer_handshake peer config server_name = Ok rest).

Lemma classify_not_delivered code t : classify code t ≠ RelayDelivered.
Proof. unfold classify. by case_code. Qed.

Section wire_dialog.
Context (debug_str : str → str) (peer : Peer) (policy : TlsPolicy) (server_name : str) (script : RelayScript).

Lemma dialog_ok_early r k :
  k `prefix_of` ehlo_writes script → r ≠ Ok RelayDelivered →
  dialog_ok debug_str peer policy server_name script r (on_channel false k).
Proof.
  intros Hp Hr. apply (on_channel_prefix false) in Hp. split_and!; [by apply prefix_app_r|done|done|].
  intros b [? _]%elem_of_on_channel. done.
Qed.

Lemma dialog_ok_plain l r l' :
  upgrades debug_str peer policy = false → is_mandatory policy = false → lk_tls l = false →
  lk_log l = on_channel false (ehlo_writes script) →
  accepts debug_str [ok_range 200 400; ok_range 200 300] (peer_plain peer) (lk_in l) →
  transaction debug_str peer (tl (commands script)) (data script) l = (r, l') →
  dialog_ok debug_str peer policy server_name script r (lk_log l').
Proof.
  intros Hup Hm Ht Hl Ha E. destruct (does_transaction debug_str peer script l) as (k & Hk & Hp & _ & Hd).
  rewrite E, Ht, Hl in Hk. rewrite E in Hd. cbn [fst snd] in *. unfold dialog_ok, answered, transcript. rewrite Hup, Hk. split_and!.
  - apply prefix_app. by apply on_channel_prefix.
  - intros ->. destruct (Hd RelayDelivered) as [-> Hacc]; [done..|]. split; [done|]. eexists. by eapply accepts_app.
  - congruence.
  - intros b [H|H]%elem_of_app; by apply elem_of_on_channel in H as [? _].
Qed.

Lemma dialog_ok_tls config l r l' :
  upgrades debug_str peer policy = true → policy_config policy = Some config → lk_tls l = false →
  lk_log l = on_channel false (ehlo_writes script) →
  accepts debug_str [ok_range 200 400; ok_range 200 300] (peer_plain peer) (lk_in l) →
  (early ← start_tls debug_str peer config server_name (hd [] (commands script));
   match early with Some r => mret r | None => transaction debug_str peer (tl (commands script)) (data script) end) l = (r, l') →
  dialog_ok debug_str peer policy server_name script r (lk_log l').
Proof.
  intros Hup Hc Ht Hl Ha E. pose proof (start_tls_spec debug_str peer config server_name (hd [] (commands script)) l Ht) as Hs.
  unfold mbind, Dialog_bind in E. destruct (start_tls _ _ _ _ _ l) as [early l1]. destruct Hs as [Hrep Hs].
  unfold dialog_ok, transcript. rewrite Hup. destruct Hs as [(Hne & k & Hk & Hp)|(rest & k & Hh & Ht1 & Hk & Hp & Hfull)].
  - assert (lk_log l' = lk_log l1 ∧ r ≠ Ok RelayDelivered) as [-> Hr].
    { destruct early as [[rep|]|e]; [|done|]; injection E as <- <-; split; try done. intros [= ->]. by specialize (Hrep _ eq_refl). }
    rewrite Hk, Hl. split_and!; [|done|done|].
    + apply prefix_app. apply prefix_app_r. by apply on_channel_prefix.
    + intros b [H|H]%elem_of_app; by apply elem_of_on_channel in H as [? _].
  - assert (∀ b, (true, b) ∈ lk_log l' → ∃ config0 rest0,
      policy_config policy = Some config0 ∧ peer_handshake peer config0 server_name = Ok rest0) as Hd by eauto.
    destruct early as [[rep|]|e].
    + injection E as <- <-. rewrite Hk, Hl in *. split_and!; [|by intros [= ->]; specialize (Hrep _ eq_refl)|done|done].
      do 2 apply prefix_app. apply on_channel_prefix. by apply prefix_app_r.
    + destruct (Hfull eq_refl) as (-> & [i Hi] & Hrest).
      destruct (does_transaction debug_str peer script l1) as (k2 & Hk2 & Hp2 & _ & Hd2).
      rewrite E, Ht1, Hk, Hl in Hk2. rewrite E in Hd2. cbn [fst snd] in *. rewrite <-!app_assoc, <-on_channel_app in Hk2. rewrite Hk2 in *.
      split_and!; [|intros ->|done|done].
      * do 2 apply prefix_app. apply on_channel_prefix. by apply prefix_app.
      * destruct (Hd2 RelayDelivered) as [-> Hacc]; [done..|]. split; [done|]. unfold answered. rewrite Hup.
        exists config, rest, i, (lk_in l'). split_and!; [done|done|by eapply accepts_app|].
        by apply (accepts_app _ [ok_range 200 300]) with (i1 := lk_in l1).
    + injection E as <- <-. rewrite Hk, Hl in *. split_and!; [|done|done|done].
      do 2 apply prefix_app. apply on_channel_prefix. by apply prefix_app_r.
Qed.

Lemma dialog_wire r l :
  dialog debug_str peer server_name script policy (mkLink false (peer_plain peer) []) = (r, l) →
  dialog_ok debug_str peer policy server_name script r (lk_log l).
Proof.
  unfold dialog. unfold mbind at 1, Dialog_bind at 1. unfold read_reply. simpl.
  destruct (read_reply_loop debug_str [] _ _) as [[[code text]|e] ls] eqn:E0.
  2: { intros [= <- <-]. apply (dialog_ok_early _ []); [apply prefix_nil|done]. }
  destruct (ok_range 200 400 code) eqn:Ec0; simpl.
  2: { intros [= <- <-]. apply (dialog_ok_early _ []); [apply prefix_nil|]. intros [= H].
       by eapply classify_not_delivered. }
  unfold mbind at 1, Dialog_bind at 1.
  destruct (command debug_str peer (hd [] (commands script)) _) as [[[code1 caps]|e] l1] eqn:E1.
  2: { apply command_no_answer in E1 as (k & Hk & Hp & _). intros [= <- <-]. simpl in Hk. rewrite Hk. by apply dialog_ok_early. }
  apply command_answer in E1 as (Hl1 & Ht1 & Hr1 & Hi1). simpl in *.
  destruct (ok_range 200 300 code1) eqn:Ec1; simpl.
  2: { intros [= <- <-]. rewrite Hl1. apply dialog_ok_early; [done|]. intros [= H].
       by eapply classify_not_delivered. }
  assert (accepts debug_str [ok_range 200 400; ok_range 200 300] (peer_plain peer) (lk_in l1)) as Ha.
  { eapply accepts_cons; [exact E0|done|]. by eapply accepts_one. }
  assert (capabilities_of debug_str peer = Some caps) as Hcap by (unfold capabilities_of; by rewrite E0, Hr1).
  destruct (is_mandatory policy) eqn:Em; simpl.
  - destruct (policy_config policy) as [config|] eqn:Epc; [|by destruct policy].
    destruct (advertises_starttls caps) eqn:Eadv; simpl.
    + apply (dialog_ok_tls config); try done. unfold upgrades. by rewrite Epc, Hcap.
    + intros [= <- <-]. rewrite Hl1. by apply dialog_ok_early.
  - destruct (policy_config policy) as [config|] eqn:Epc; [destruct (advertises_starttls caps) eqn:Eadv|].
    + apply (dialog_ok_tls config); try done. unfold upgrades. by rewrite Epc, Hcap.
    + apply dialog_ok_plain; try done. unfold upgrades. by rewrite Epc, Hcap.
    + apply dialog_ok_plain; try done. unfold upgrades. by rewrite Epc.
Qed.
End wire_dialog.

Lemma relay_to_dialog_ok debug_str peer addr server_name helo message policy r log :
  relay_to debug_str peer addr server_name helo message policy = (r, log) →
  dialog_ok debug_str peer policy server_name (relay_script helo message) r log.
Proof.
  unfold relay_to. destruct (peer_connect peer) as [[]|e].
  - destruct (dialog _ _ _ _ _ _) as [r' l] eqn:E. intros [= <- <-]. by apply dialog_wire.
  - intros [= <- <-]. apply (dialog_ok_early _ _ _ _ _ _ []); [apply prefix_nil|done].
Qed.

(** C31: the wire of a relay attempt, whatever the peer does: what the client writes is a
    beginning of the scripted transcript (EHLO, then, exactly when the policy has a TLS
    configuration and the peer's EHLO reply advertises STARTTLS, STARTTLS in clear and
    everything else under TLS); a report of delivery means the whole transcript was
    written and every step of it was answered with the code it needs; with a mandatory
    policy and no STARTTLS on offer nothing follows the EHLO; and nothing is written
    under TLS unless the handshake under the policy's configuration succeeded. *)
Theorem relay_wire (debug_str : str → str) (peer : Peer) (addr server_name helo : str) (message : Message) (policy : TlsPolicy) :
  let '(r, log) := relay_to debug_str peer addr server_name helo message policy in
  dialog_ok debug_str peer policy server_name (relay_script helo message) r log.
Proof. destruct (relay_to _ _ _ _ _ _ _) as [r log] eqn:E. by eapply relay_to_dialog_ok. Qed.

(** Under a mandatory policy the clear channel carries the EHLO and the STARTTLS. *)
Definition greeting_bytes (script : RelayScript) : list bytes := ehlo_writes script ++ line_writes (lit "STARTTLS").
Lemma strict_clear debug_str peer policy server_name script r log b :
  dialog_ok debug_str peer policy server_name script r log → is_mandatory policy = true →
  (false, b) ∈ log → b ∈ greeting_bytes script.
Proof.
  intros (Hp & _ & Hm & _) Hmand Hin. unfold greeting_bytes. destruct (upgrades debug_str peer policy).
  - destruct Hp as [k Hp]. assert ((false, b) ∈ transcript true script) as H by (rewrite Hp; set_solver).
    unfold transcript in H. rewrite !elem_of_app, !elem_of_on_channel in H. simpl in H. set_solver.
  - destruct (Hm Hmand eq_refl) as [k Hk]. assert ((false, b) ∈ on_channel false (ehlo_writes script)) as H by (rewrite Hk; set_solver).
    rewrite elem_of_on_channel in H. set_solver.
Qed.

(** ** The sender with a peer that answers *)

Definition report_of (code : Z) (text : list str) : RelayReport :=
  if ok_range 200 300 code then RelayDelivered else classify code (join [SP] text).

Section sender.
Context (debug_str : str → str) (peer : Peer).
Context (Hwrite : ∀ log, peer_write peer log = None) (Hflush : ∀ log, peer_flush peer log = None).
#[local] Notation next i := (read_reply_loop debug_str [] (in_lines i) (in_end i)).

Lemma command_reads line l code text ls :
  next (lk_in l) = (Ok (code, text), ls) →
  command debug_str peer line l =
  (Ok (code, text), mkLink (lk_tls l) (mkIncoming ls (in_end (lk_in l))) (lk_log l ++ on_channel (lk_tls l) (line_writes line))).
Proof.
  intros Hr. unfold command, write_all, flush_stream, read_reply, mbind, Dialog_bind.
  rewrite !Hwrite. cbn [lk_log lk_tls lk_in]. rewrite Hflush. cbn [lk_log lk_tls lk_in]. by rewrite Hr, <-app_assoc.
Qed.

Lemma send_commands_accepted cmds : ∀ l i,
  accepts debug_str (reply_ok <$> cmds) (lk_in l) i →
  send_commands debug_str peer cmds l =
  (Ok None, mkLink (lk_tls l) i (lk_log l ++ on_channel (lk_tls l) (cmds ≫= line_writes))).
Proof.
  induction cmds as [|cmd cmds IH]; intros l i Ha.
  { inversion Ha; subst. destruct l as [t [ls e] lg]. cbn. by rewrite app_nil_r. }
  cbn [fmap list_fmap] in Ha. inversion Ha as [|? ? ? code text ls ? Hr Hc Ha']; subst.
  cbn [send_commands]. unfold mbind at 1, Dialog_bind at 1. rewrite (command_reads cmd l code text ls Hr), Hc. cbn [negb].
  rewrite (IH (mkLink _ _ _) i Ha'), bind_cons. cbn [lk_tls lk_log]. by rewrite on_channel_app, app_assoc.
Qed.

Lemma transaction_reports cmds payload l i code text ls :
  accepts debug_str (reply_ok <$> cmds) (lk_in l) i → next i = (Ok (code, text), ls) →
  ∃ i', transaction debug_str peer cmds payload l =
    (Ok (report_of code text), mkLink (lk_tls l) i'
       (lk_log l ++ on_channel (lk_tls l) ((cmds ≫= line_writes) ++ [payload; lit "QUIT" ++ CRLF]))).
Proof.
  intros Ha Hr. unfold transaction. unfold mbind at 1, Dialog_bind at 1. rewrite (send_commands_accepted cmds l i Ha).
  unfold transmit, write_all, flush_stream, read_reply, best_effort, mbind, Dialog_bind.
  rewrite Hwrite. cbn [lk_log lk_tls lk_in]. rewrite Hflush. cbn [lk_log lk_tls lk_in]. rewrite Hr.
  eexists. cbn [mret Dialog_ret snd lk_log lk_tls lk_in]. by rewrite on_channel_app, <-!app_assoc.
Qed.

Context (server_name : str) (script : RelayScript).

(** Greeted and answered in clear, without an upgrade. *)
Lemma dialog_reports_plain policy i i' code text ls :
  accepts debug_str [ok_range 200 400; ok_range 200 300] (peer_plain peer) i →
  accepts debug_str (reply_ok <$> tl (commands script)) i i' → next i' = (Ok (code, text), ls) →
  upgrades debug_str peer policy = false → is_mandatory policy = false →
  ∃ l, dialog debug_str peer server_name script policy (mkLink false (peer_plain peer) []) = (Ok (report_of code text), l) ∧
    lk_log l = transcript false script.
Proof.
  intros Hh Ha Hr Hu Hm. inversion Hh as [|? ? ? c0 t0 ls0 ? H0 Hc0 Hh']; subst.
  inversion Hh' as [|? ? ? c1 t1 ls1 ? H1 Hc1 Hh'']; subst. inversion Hh''; subst.
  unfold dialog. unfold mbind at 1, Dialog_bind at 1. unfold read_reply at 1. cbn [lk_in lk_tls lk_log]. rewrite H0, Hc0. cbn [negb].
  unfold mbind at 1, Dialog_bind at 1.
  rewrite (command_reads (hd [] (commands script)) (mkLink false (mkIncoming ls0 (in_end (peer_plain peer))) []) c1 t1 ls1 H1).
  rewrite Hc1, Hm. cbn [negb andb lk_in lk_tls lk_log in_end].
  assert (match policy_config policy with Some _ => advertises_starttls t1 | None => false end = false) as Hadv.
  { revert Hu. unfold upgrades, capabilities_of. rewrite H0. cbn [in_lines in_end] in H1. rewrite H1.
    by destruct (policy_config policy). }
  set (lg := [] ++ on_channel _ _).
  destruct (transaction_reports (tl (commands script)) (data script) (mkLink false (mkIncoming ls1 (in_end (peer_plain peer))) lg)
    i' code text ls Ha Hr) as [i'' Ht].
  exists (mkLink false i'' (lg ++ on_channel false (mail_writes script))). split; [|done].
  destruct (policy_config policy); [rewrite Hadv|]; apply Ht.
Qed.

(** Greeted in clear, upgraded and answered under TLS. *)
Lemma dialog_reports_tls policy config i rest i' code text ls :
  peer_pipelined peer = false → policy_config policy = Some config →
  accepts debug_str [ok_range 200 400; ok_range 200 300; ok_range 200 300] (peer_plain peer) i →
  upgrades debug_str peer policy = true → peer_handshake peer config server_name = Ok rest →
  accepts debug_str (ok_range 200 300 :: (reply_ok <$> tl (commands script))) rest i' → next i' = (Ok (code, text), ls) →
  ∃ l, dialog debug_str peer server_name script policy (mkLink false (peer_plain peer) []) = (Ok (report_of code text), l) ∧
    lk_log l = transcript true script.
Proof.
  intros Hpipe Hp Hh Hu Hhs Ha Hr. inversion Hh as [|? ? ? c0 t0 ls0 ? H0 Hc0 Hh']; subst.
  inversion Hh' as [|? ? ? c1 t1 ls1 ? H1 Hc1 Hh'']; subst. inversion Hh'' as [|? ? ? c2 t2 ls2 ? H2 Hc2 _]; subst.
  inversion Ha as [|? ? ? c3 t3 ls3 ? H3 Hc3 Ha']; subst.
  assert (advertises_starttls t1 = true) as Hadv.
  { revert Hu. unfold upgrades, capabilities_of. rewrite Hp, H0. cbn [in_lines in_end] in H1. by rewrite H1. }
  unfold dialog. unfold mbind at 1, Dialog_bind at 1. unfold read_reply at 1. cbn [lk_in lk_tls lk_log]. rewrite H0, Hc0. cbn [negb].
  unfold mbind at 1, Dialog_bind at 1.
  rewrite (command_reads (hd [] (commands script)) (mkLink false (mkIncoming ls0 (in_end (peer_plain peer))) []) c1 t1 ls1 H1).
  rewrite Hc1, Hadv. cbn [negb]. rewrite andb_false_r, Hp. unfold start_tls, mbind, Dialog_bind. cbn [lk_in lk_tls lk_log in_end].
  set (lg := [] ++ on_channel _ _).
  rewrite (command_reads (lit "STARTTLS") (mkLink false (mkIncoming ls1 (in_end (peer_plain peer))) lg) c2 t2 ls2 H2).
  rewrite Hc2, Hpipe, Hhs. cbn [negb]. unfold into_tls. cbn [lk_in lk_tls lk_log in_end].
  set (lg2 := lg ++ _).
  rewrite (command_reads (hd [] (commands script)) (mkLink true rest lg2) c3 t3 ls3 H3), Hc3. cbn [negb lk_in lk_tls lk_log in_end].
  set (lg3 := lg2 ++ _).
  destruct (transaction_reports (tl (commands script)) (data script) (mkLink true (mkIncoming ls3 (in_end rest)) lg3)
    i' code text ls Ha' Hr) as [i'' Ht].
  exists (mkLink true i'' (lg3 ++ on_channel true (mail_writes script))). split; [apply Ht|].
  cbn [lk_log]. unfold lg3, lg2, lg, transcript. by rewrite on_channel_app, <-!app_assoc.
Qed.
End sender.

Lemma accepts_app_inv debug_str cs1 cs2 i i2 :
  accepts debug_str (cs1 ++ cs2) i i2 → ∃ i1, accepts debug_str cs1 i i1 ∧ accepts debug_str cs2 i1 i2.
Proof.
  revert i. induction cs1 as [|c cs1 IH]; intros i H; [by exists i; split; [constructor|]|].
  inversion H as [|? ? ? code text ls ? Hr Hc Ha]; subst. destruct (IH _ Ha) as (i1 & ? & ?). exists i1. split; [by econstructor|done].
Qed.

(** The server takes the message: the connection is made and nothing disturbs it, it
    upgrades if the policy insists, and it answers every step as it must, the end of the
    data included. *)
Definition takes (debug_str : str → str) (peer : Peer) (policy : TlsPolicy) (server_name : str) (script : RelayScript) : Prop :=
  peer_connect peer = Ok () ∧ (∀ log, peer_write peer log = None) ∧ (∀ log, peer_flush peer log = None) ∧
  peer_pipelined peer = false ∧ (is_mandatory policy = true → upgrades debug_str peer policy = true) ∧
  answered debug_str peer policy server_name script.

Lemma relay_to_takes debug_str peer addr server_name helo message policy :
  takes debug_str peer policy server_name (relay_script helo message) →
  (relay_to debug_str peer addr server_name helo message policy).1 = Ok RelayDelivered.
Proof.
  intros (Hc & Hw & Hf & Hp & Hm & Ha). unfold relay_to. rewrite Hc. unfold answered in Ha.
  destruct (upgrades debug_str peer policy) eqn:Hu.
  - destruct Ha as (config & rest & i & i' & Hpc & Hh & H1 & H2). unfold mail_checks in H2. rewrite app_comm_cons in H2.
    apply accepts_app_inv in H2 as (j & H2 & H3). inversion H3 as [|? ? ? code text ls ? Hr Hok]; subst.
    destruct (dialog_reports_tls debug_str peer Hw Hf server_name (relay_script helo message) policy config i rest j code text ls) as (l & -> & _);
      [done..|]. unfold report_of. by rewrite Hok.
  - destruct Ha as (i & H1). unfold mail_checks in H1. rewrite app_assoc in H1. apply accepts_app_inv in H1 as (j & H2 & H3).
    apply accepts_app_inv in H2 as (k & H1 & H2). inversion H3 as [|? ? ? code text ls ? Hr Hok]; subst.
    destruct (dialog_reports_plain debug_str peer Hw Hf server_name (relay_script helo message) policy k j code text ls) as (l & -> & _);
      [done..|destruct (is_mandatory policy); [by specialize (Hm eq_refl)|done]|]. unfold report_of. by rewrite Hok.
Qed.

(** * Which servers are tried *)

(** Reports that do not end [relay]. *)
Definition soft (r : result str RelayReport) : bool :=
  match r with Ok RelayDelivered | Ok (RelayFailed _) => false | _ => true end.
Definition is_deferred (r : RelayReport) : bool := match r with RelayDeferred _ _ => true | _ => false end.

Section tried.
Context (debug_str : str → str) (resolver : DnsResolver) (net : nat → str → Peer) (helo : str) (port : Z) (message : Message).

(** An attempt at an exchange under a policy. *)
Definition attempt_ok (exchange : str) (policy : TlsPolicy) (a : RelayAttempt) : Prop :=
  at_exchange a = exchange ∧ at_policy a = policy ∧
  ∃ n, dialog_ok debug_str (net n (at_addr a)) policy exchange (relay_script helo message) (at_result a) (at_log a).

(** The attempts, exchange by exchange in the order of the exchanges: none at a null
    exchange or at one the choice of policies leaves out. *)
Inductive in_order (choose : str → option TlsPolicy) : list MxRecord → list RelayAttempt → Prop :=
  | in_order_nil ms : in_order choose ms []
  | in_order_skip m ms as_ : in_order choose ms as_ → in_order choose (m :: ms) as_
  | in_order_try m ms policy as1 as2 :
      mx_is_null m = false → choose (mx_exchange m) = Some policy →
      Forall (attempt_ok (mx_exchange m) policy) as1 → in_order choose ms as2 → in_order choose (m :: ms) (as1 ++ as2).

(** How a sequence of attempts leads to what happens next. *)
Definition leads_to (as_ : list RelayAttempt) (p : Progress) : Prop :=
  match p with
  | Go last => Forall (λ a, soft (at_result a) = true) as_ ∧ is_deferred last = true
  | Return r => is_deferred r = false ∧
      ∃ pre a, as_ = pre ++ [a] ∧ at_result a = Ok r ∧ Forall (λ a, soft (at_result a) = true) pre
  end.

Lemma try_addresses_spec exchange policy addrs : ∀ tried last tried' p,
  try_addresses debug_str net helo port message exchange policy addrs tried last = (tried', p) → is_deferred last = true →
  ∃ new, tried' = tried ++ new ∧ Forall (attempt_ok exchange policy) new ∧ leads_to new p.
Proof.
  induction addrs as [|ip addrs IH]; intros tried last tried' p; simpl.
  { intros [= <- <-] Hd. exists []. rewrite app_nil_r. by split_and!. }
  destruct (relay_to _ _ _ _ _ _ _) as [r log] eqn:E. apply relay_to_dialog_ok in E. intros H Hd.
  set (a := mkAttempt exchange (socket_addr_to_string ip port) policy r log) in *.
  assert (attempt_ok exchange policy a) as Ha by (split_and!; [done..|by eexists]).
  destruct (progress_of (socket_addr_to_string ip port) r) as [r'|last'] eqn:Ep.
  - injection H as <- <-. exists [a]. split_and!; [done|by constructor|].
    unfold progress_of in Ep. destruct r as [[| |]|]; simplify_eq; (split; [done|by exists [], a]).
  - assert (soft r = true ∧ is_deferred last' = true) as [Hs Hd'] by (unfold progress_of in Ep; destruct r as [[| |]|]; by simplify_eq).
    destruct (IH _ _ _ _ H Hd') as (new & -> & HF & Hl). exists (a :: new). rewrite <-app_assoc. split_and!; [done|by constructor|].
    destruct p as [r'|l'']; simpl in *.
    + destruct Hl as (Hr & pre & z & -> & Hz & Hpre). split; [done|]. exists (a :: pre), z. split_and!; [done..|by constructor].
    + destruct Hl as [Hl Hl']. split; [by constructor|done].
Qed.

Lemma leads_to_app as1 last as2 p : leads_to as1 (Go last) → leads_to as2 p → leads_to (as1 ++ as2) p.
Proof.
  intros [Hs _] H. destruct p as [r|l]; simpl in *.
  - destruct H as (Hr & pre & a & -> & Ha & Hp). split; [done|]. exists (as1 ++ pre), a. rewrite app_assoc. split_and!; [done..|].
    by apply Forall_app.
  - destruct H. split; [by apply Forall_app|done].
Qed.

Lemma try_exchanges_spec choose mxs : ∀ tried attempted last tried' attempted' p,
  try_exchanges debug_str resolver net helo port message choose mxs tried attempted last = (tried', attempted', p) →
  is_deferred last = true →
  ∃ new, tried' = tried ++ new ∧ in_order choose mxs new ∧ leads_to new p.
Proof.
  induction mxs as [|m mxs IH]; intros tried attempted last tried' attempted' p; simpl.
  { intros [= <- <- <-] Hd. exists []. rewrite app_nil_r. split_and!; [done|constructor|by split]. }
  assert (∀ att' last', try_exchanges debug_str resolver net helo port message choose mxs tried att' last' = (tried', attempted', p) →
    is_deferred last' = true → ∃ new, tried' = tried ++ new ∧ in_order choose (m :: mxs) new ∧ leads_to new p) as Hskip.
  { intros att' last' H Hd. destruct (IH _ _ _ _ _ _ H Hd) as (new & ? & ? & ?). exists new. split_and!; [done|by apply in_order_skip|done]. }
  destruct (mx_is_null m) eqn:En; [apply Hskip|]. destruct (choose (mx_exchange m)) as [policy|] eqn:Ec; [|apply Hskip].
  destruct (resolve_exchange resolver (mx_exchange m)) as [addrs|text]; [|intros H _; by eapply Hskip].
  destruct (try_addresses _ _ _ _ _ _ _ _ _ _) as [tried1 p1] eqn:Et. intros H Hd.
  destruct (try_addresses_spec _ _ _ _ _ _ _ Et Hd) as (new1 & -> & HF & Hl1). destruct p1 as [r|last1].
  - injection H as <- <- <-. exists new1. split_and!; [done| |done]. rewrite <-(app_nil_r new1).
    by eapply in_order_try; [..|apply in_order_nil].
  - destruct Hl1 as [Hs1 Hd1]. destruct (IH _ _ _ _ _ _ H Hd1) as (new & -> & Ho & Hl). exists (new1 ++ new).
    rewrite app_assoc. split_and!; [done|by eapply in_order_try|by eapply leads_to_app].
Qed.

Lemma in_order_elem choose mxs as_ a :
  in_order choose mxs as_ → a ∈ as_ →
  ∃ m policy, m ∈ mxs ∧ mx_is_null m = false ∧ choose (mx_exchange m) = Some policy ∧ attempt_ok (mx_exchange m) policy a.
Proof.
  induction 1 as [|m ms as_ H IH|m ms policy as1 as2 Hn Hc HF H IH]; [set_solver| |].
  - intros (m' & policy & ? & ?)%IH. exists m', policy. set_solver.
  - intros [Ha|Ha]%elem_of_app.
    + exists m, policy. rewrite Forall_forall in HF. split_and!; [set_solver|done..|by apply HF].
    + destruct (IH Ha) as (m' & policy' & ? & ?). exists m', policy'. set_solver.
Qed.
End tried.

(** ** The order of the exchanges *)

Definition by_preference (a b : MxRecord) : Prop := mx_preference a ≤ mx_preference b.

Lemma insert_mx_perm m l : insert_mx m l ≡ₚ m :: l.
Proof.
  induction l as [|x l IH]; simpl; [done|]. case_code; [done|]. rewrite IH. apply Permutation_swap.
Qed.
Lemma insert_mx_sorted m l : StronglySorted by_preference l → StronglySorted by_preference (insert_mx m l).
Proof.
  induction 1 as [|x l Hs IH HF]; simpl; [by repeat constructor|]. destruct (Z.leb_spec (mx_preference m) (mx_preference x)) as [Hle|Hlt].
  - constructor; [by constructor|]. constructor; [done|]. eapply Forall_impl; [exact HF|]. unfold by_preference. simpl. lia.
  - constructor; [done|]. rewrite insert_mx_perm. constructor; [unfold by_preference; lia|done].
Qed.
Lemma insert_mx_stable k m l :
  filter (λ x, mx_preference x = k) (insert_mx m l) = filter (λ x, mx_preference x = k) (m :: l).
Proof.
  induction l as [|x l IH]; [done|]. cbn [insert_mx]. destruct (Z.leb_spec (mx_preference m) (mx_preference x)) as [Hle|Hlt]; [done|].
  rewrite filter_cons, IH, !filter_cons. repeat case_decide; try done. lia.
Qed.

Lemma sort_by_preference_core (l : list MxRecord) :
  sort_by_preference l ≡ₚ l ∧ StronglySorted by_preference (sort_by_preference l).
Proof.
  induction l as [|m l (Hp & Hs)]; [split; [done|constructor]|]. simpl. split; [by rewrite insert_mx_perm, Hp|by apply insert_mx_sorted].
Qed.

(** The exchanges are tried in the order of their preference values, lowest first,
    none dropped or added, and exchanges of equal preference in the order the lookup
    gave them. *)
Theorem sort_by_preference_spec (l : list MxRecord) :
  sort_by_preference l ≡ₚ l ∧ StronglySorted by_preference (sort_by_preference l) ∧
  ∀ k, filter (λ x, mx_preference x = k) (sort_by_preference l) = filter (λ x, mx_preference x = k) l.
Proof.
  destruct (sort_by_preference_core l) as [Hp Hs]. split_and!; [done..|]. intros k. clear Hp Hs.
  induction l as [|m l IH]; [done|]. simpl. by rewrite insert_mx_stable, !filter_cons, IH.
Qed.

(** ** The whole of [relay] *)

Section relay_run.
Context (debug_str : str → str) (resolver : DnsResolver) (net : nat → str → Peer) (versions : result str ()).
Context (helo : str) (port : Z) (message : Message) (tls : option ClientConfig).
Notation run_relay := (relay debug_str resolver net versions helo port message tls).

Definition secure_mx_of (dane : bool) (domain : str) : option (list MxRecord) :=
  if dane then default None (ok (dns_secure_mx resolver domain)) else None.
Definition sts_in_force (dane_active : bool) (mta_sts : option MtaStsResolver) (domain : str) : option MtaStsPolicy :=
  if dane_active then None else sts ← mta_sts; (ms_policy_for sts domain).2.

Lemma exchanges_for_Err secure domain rep : exchanges_for resolver secure domain = Err rep → is_deferred rep = true.
Proof. unfold exchanges_for. destruct secure; [done|]. by destruct (dns_mx resolver domain) as [[|]|]; intros [= <-]. Qed.

(** The [i]-th attempt is a conversation with the [i]-th peer met. *)
Definition logged (tried : list RelayAttempt) : Prop :=
  ∀ i a, tried !! i = Some a →
    (at_result a, at_log a) =
    relay_to debug_str (net i (at_addr a)) (at_addr a) (at_exchange a) helo message (at_policy a).

Lemma try_addresses_logged exchange policy addrs : ∀ tried last tried' p,
  try_addresses debug_str net helo port message exchange policy addrs tried last = (tried', p) → logged tried → logged tried'.
Proof.
  induction addrs as [|ip addrs IH]; intros tried last tried' p; simpl; [by intros [= <- <-]|].
  destruct (relay_to _ _ _ _ _ _ _) as [r log] eqn:E. intros H Hl.
  assert (logged (tried ++ [mkAttempt exchange (socket_addr_to_string ip port) policy r log])) as Hl'.
  { intros i a [Hi|[Hge Hi]]%lookup_app_Some; [by apply Hl|]. apply list_lookup_singleton_Some in Hi as [Hi <-].
    replace i with (length tried) by lia. cbn [at_result at_log at_addr at_exchange at_policy]. by rewrite E. }
  destruct (progress_of _ r); [by injection H as <- <-|by eapply IH].
Qed.
Lemma try_exchanges_logged choose mxs : ∀ tried attempted last tried' attempted' p,
  try_exchanges debug_str resolver net helo port message choose mxs tried attempted last = (tried', attempted', p) →
  logged tried → logged tried'.
Proof.
  induction mxs as [|m mxs IH]; intros tried attempted last tried' attempted' p; simpl; [by intros [= <- <- <-]|].
  destruct (mx_is_null m); [by apply IH|]. destruct (choose (mx_exchange m)) as [policy|]; [|by apply IH].
  destruct (resolve_exchange resolver (mx_exchange m)) as [addrs|text]; [|by apply IH].
  destruct (try_addresses _ _ _ _ _ _ _ _ _ _) as [tried1 [r|last1]] eqn:Et; intros H Hl.
  - injection H as <- <- <-. by eapply try_addresses_logged.
  - eapply IH; [exact H|]. by eapply try_addresses_logged.
Qed.
Lemma relay_logged mta_sts dane sts' tried report : run_relay mta_sts dane = (sts', tried, report) → logged tried.
Proof.
  unfold relay. destruct (env_recipients (msg_envelope message)) as [|first rest]; [by intros [= <- <- <-]|].
  destruct (exchanges_for _ _ _) as [exchanges|rep]; [|by intros [= <- <- <-]].
  destruct (forallb mx_is_null exchanges); [by intros [= <- <- <-]|]. case_match; simpl.
  all: repeat (case_match; simpl); intros; simplify_eq; eapply try_exchanges_logged; done.
Qed.

(** The run: nothing tried, or the exchanges of the domain in order, and what they lead to. *)
Lemma relay_run mta_sts dane sts' tried report :
  run_relay mta_sts dane = (sts', tried, report) →
  (tried = [] ∧ report ≠ RelayDelivered) ∨
  ∃ first rest exchanges p,
    let secure := secure_mx_of dane (domain first) in
    let active := bool_decide (is_Some secure) in
    env_recipients (msg_envelope message) = first :: rest ∧
    exchanges_for resolver secure (domain first) = Ok exchanges ∧
    in_order debug_str net helo message
      (posture resolver versions port tls active (sts_in_force active mta_sts (domain first)) (pkix_config <$> mta_sts))
      exchanges tried ∧
    leads_to tried p ∧ match p with Return r => report = r | Go _ => is_deferred report = true end.
Proof.
  unfold relay. destruct (env_recipients (msg_envelope message)) as [|first rest]; [intros [= <- <- <-]; by left|].
  fold (secure_mx_of dane (domain first)). set (secure := secure_mx_of dane (domain first)).
  set (active := bool_decide (is_Some secure)).
  destruct (exchanges_for resolver secure (domain first)) as [exchanges|rep] eqn:Ex.
  2: { intros [= <- <- <-]. left. split; [done|]. intros ->. by apply exchanges_for_Err in Ex. }
  destruct (forallb mx_is_null exchanges); [intros [= <- <- <-]; by left|].
  set (sel := if active then _ else _).
  assert (sel.2 = sts_in_force active mta_sts (domain first) ∧ pkix_config <$> sel.1 = pkix_config <$> mta_sts) as [Hp Hx].
  { unfold sel, sts_in_force. destruct active; [done|]. destruct mta_sts as [sts|]; [|done]. simpl.
    by destruct (ms_policy_for sts (domain first)). }
  destruct sel as [sts1 policy]. simpl in Hp, Hx. rewrite Hx, Hp.
  destruct (try_exchanges _ _ _ _ _ _ _ _ _ _ _) as [[tried1 attempted] p] eqn:Et.
  destruct (try_exchanges_spec _ _ _ _ _ _ _ _ _ _ _ _ _ _ Et eq_refl) as (new & -> & Ho & Hl). intros H. right.
  exists first, rest, exchanges, p.
  destruct p as [r|last]; [injection H as <- <- <-; by split_and!|].
  case_code_in H; injection H as <- <- <-; split_and!; try done. by destruct Hl.
Qed.

Lemma relay_delivers_core (mta_sts : option MtaStsResolver) (dane : bool) :
  let '(_, tried, report) := run_relay mta_sts dane in
  (report = RelayDelivered →
     ∃ pre a n, tried = pre ++ [a] ∧ Forall (λ a, soft (at_result a) = true) pre ∧ at_result a = Ok RelayDelivered ∧
       let peer := net n (at_addr a) in
       at_log a = transcript (upgrades debug_str peer (at_policy a)) (relay_script helo message) ∧
       answered debug_str peer (at_policy a) (at_exchange a) (relay_script helo message)) ∧
  (report ≠ RelayDelivered → ∀ a, a ∈ tried → at_result a ≠ Ok RelayDelivered).
Proof.
  destruct (run_relay mta_sts dane) as [[sts' tried] report] eqn:E.
  apply relay_run in E as [[-> Hr]|(first & rest & exchanges & p & _ & _ & Ho & Hl & Hp)]; [split; [done|set_solver]|].
  destruct p as [r|last]; simpl in Hl.
  - destruct Hl as (Hd & pre & a & -> & Ha & Hpre). subst r. split.
    + intros ->. destruct (in_order_elem _ _ _ _ _ _ _ a Ho) as (m & policy & _ & _ & _ & Hex & Hpol & n & Hw); [set_solver|].
      exists pre, a, n. split_and!; try done; rewrite Hpol, ?Hex; by apply Hw.
    + intros Hr b [Hb|Hb]%elem_of_app.
      * rewrite Forall_forall in Hpre. specialize (Hpre b Hb). by destruct (at_result b) as [[| |]|].
      * apply list_elem_of_singleton in Hb as ->. congruence.
  - destruct Hl as [Hs _]. split; [by intros ->|]. intros _ b Hb. rewrite Forall_forall in Hs. specialize (Hs b Hb).
    by destruct (at_result b) as [[| |]|].
Qed.

(** C15: a message is reported as delivered exactly when a server took it, and then by one
    server.  The [i]-th attempt talks to the [i]-th peer the network offers.  If the report
    is delivery, every attempt but the last ended in a temporary failure, and the last
    server was sent the whole script and answered every step of it as it must, the end of
    the data included.  Conversely, if one of the servers tried takes the message, over a
    connection that nothing disturbs, then it is the last one tried and the report is
    delivery. *)
Theorem relay_delivers_once (mta_sts : option MtaStsResolver) (dane : bool) :
  let '(_, tried, report) := run_relay mta_sts dane in
  (report = RelayDelivered →
     ∃ pre a, tried = pre ++ [a] ∧ Forall (λ a, soft (at_result a) = true) pre ∧ at_result a = Ok RelayDelivered ∧
       let peer := net (length pre) (at_addr a) in
       at_log a = transcript (upgrades debug_str peer (at_policy a)) (relay_script helo message) ∧
       answered debug_str peer (at_policy a) (at_exchange a) (relay_script helo message)) ∧
  (∀ i a, tried !! i = Some a →
     takes debug_str (net i (at_addr a)) (at_policy a) (at_exchange a) (relay_script helo message) →
     report = RelayDelivered ∧ S i = length tried).
Proof.
  destruct (run_relay mta_sts dane) as [[sts' tried] report] eqn:E. pose proof (relay_logged _ _ _ _ _ E) as Hlog.
  apply relay_run in E as [[-> Hr]|(first & rest & exchanges & p & _ & _ & Ho & Hl & Hp)]; [split; [done|by intros i a Hi; rewrite lookup_nil in Hi]|].
  assert (∀ i a, tried !! i = Some a →
    takes debug_str (net i (at_addr a)) (at_policy a) (at_exchange a) (relay_script helo message) → at_result a = Ok RelayDelivered) as Htake.
  { intros i a Hi Ht. apply (relay_to_takes _ _ (at_addr a)) in Ht. rewrite <-(Hlog i a Hi) in Ht. exact Ht. }
  destruct p as [r|last]; simpl in Hl.
  - destruct Hl as (Hd & pre & a & -> & Ha & Hpre). subst r. split.
    + intros ->. exists pre, a. split_and!; [done..|]. specialize (Hlog (length pre) a (list_lookup_middle _ _ _ _ eq_refl)).
      symmetry in Hlog. apply relay_to_dialog_ok in Hlog as (_ & Hw & _). cbv zeta. by apply Hw.
    + intros i b Hi Ht. specialize (Htake i b Hi Ht). apply lookup_app_Some in Hi as [Hi|[Hge Hi]].
      * rewrite Forall_lookup in Hpre. specialize (Hpre i b Hi). by rewrite Htake in Hpre.
      * apply list_lookup_singleton_Some in Hi as [Hi <-]. rewrite length_app. simpl. split; [congruence|lia].
  - destruct Hl as [Hs _]. split; [by intros ->|]. intros i b Hi Ht. rewrite Forall_lookup in Hs. specialize (Hs i b Hi).
    by rewrite (Htake i b Hi Ht) in Hs.
Qed.

(** An attempt under a strict policy: only greetings in clear, and TLS only after the
    handshake under its configuration. *)
Definition confidential (config : ClientConfig) (a : RelayAttempt) : Prop :=
  at_policy a = TlsStrict config ∧
  (∀ b, (false, b) ∈ at_log a → b ∈ greeting_bytes (relay_script helo message)) ∧
  (∀ b, (true, b) ∈ at_log a → ∃ n rest, peer_handshake (net n (at_addr a)) config (at_exchange a) = Ok rest).
Lemma attempt_confidential exchange config a :
  attempt_ok debug_str net helo message exchange (TlsStrict config) a → confidential config a.
Proof.
  intros (Hex & Hpol & n & Hw). split_and!; [done| |].
  - intros b Hb. by eapply strict_clear.
  - intros b Hb. destruct Hw as (_ & _ & _ & Ht). destruct (Ht b Hb) as (c & rest & [= <-] & Hh). exists n, rest. by rewrite Hex.
Qed.

(** C16: MTA-STS in force: when DANE does not apply to the domain and its policy is in mode
    enforce, every server tried is an exchange the policy authorizes, met under PKIX-
    verified TLS: in clear it is sent nothing but EHLO and STARTTLS, and under TLS
    nothing unless the handshake for the exchange's name verified. *)
Theorem relay_enforce (sts : MtaStsResolver) (dane : bool) (first : Mailbox) (rest : list Mailbox) (p : MtaStsPolicy) :
  env_recipients (msg_envelope message) = first :: rest →
  secure_mx_of dane (domain first) = None →
  (ms_policy_for sts (domain first)).2 = Some p → sts_mode p = Enforce →
  let '(_, tried, _) := run_relay (Some sts) dane in
  ∀ a, a ∈ tried → allows_mx p (at_exchange a) = true ∧ confidential PkixClient a.
Proof.
  intros Hrc Hsec Hp Hmode. destruct (run_relay (Some sts) dane) as [[sts' tried] report] eqn:E.
  apply relay_run in E as [[-> _]|(first' & rest' & exchanges & pr & Hrc' & Hx & Ho & _)]; [set_solver|].
  rewrite Hrc in Hrc'. injection Hrc' as <- <-. rewrite Hsec in Ho. intros a Ha.
  destruct (in_order_elem _ _ _ _ _ _ _ a Ho Ha) as (m & policy & _ & _ & Hc & Hok). unfold posture, sts_in_force in Hc.
  simpl in Hc. rewrite Hp in Hc. simpl in Hc. rewrite bool_decide_eq_true_2 in Hc by done.
  pose proof (proj1 Hok) as ->. destruct (allows_mx p (mx_exchange m)); [|done]. injection Hc as <-. split; [done|]. by eapply attempt_confidential.
Qed.

(** C17: DANE takes precedence: when the MX records are DNSSEC-secure, only they are tried,
    the MTA-STS policy is not consulted, and an exchange with a usable secure TLSA record
    is met only under TLS authenticated by those records, with nothing but EHLO and
    STARTTLS in clear. *)
Theorem relay_dane (mta_sts : option MtaStsResolver) (first : Mailbox) (rest : list Mailbox) (mxs : list MxRecord) :
  env_recipients (msg_envelope message) = first :: rest →
  dns_secure_mx resolver (domain first) = Ok (Some mxs) → versions = Ok () →
  let '(sts', tried, _) := run_relay mta_sts true in
  sts' = mta_sts ∧
  ∀ a, a ∈ tried → at_exchange a ∈ (mx_exchange <$> mxs) ∧
    ∀ records, dns_secure_tlsa resolver port (at_exchange a) = Ok (Some records) → has_usable_tlsa records = true →
      confidential (DaneClient records) a.
Proof.
  intros Hrc Hsec Hprov. destruct (run_relay mta_sts true) as [[sts' tried] report] eqn:E. split.
  { unfold relay in E. rewrite Hrc, Hsec in E. simpl in E. case_code_in E; [by injection E as <- <- <-|].
    destruct (try_exchanges _ _ _ _ _ _ _ _ _ _ _) as [[? ?] [r|l]]; by injection E as <- <- <-. }
  apply relay_run in E as [[-> _]|(first' & rest' & exchanges & pr & Hrc' & Hx & Ho & _)]; [set_solver|].
  rewrite Hrc in Hrc'. injection Hrc' as <- <-. unfold secure_mx_of in Hx, Ho. rewrite Hsec in Hx, Ho. simpl in Hx, Ho.
  injection Hx as <-. intros a Ha.
  destruct (in_order_elem _ _ _ _ _ _ _ a Ho Ha) as (m & policy & Hm & _ & Hc & Hok). pose proof (proj1 Hok) as ->. split.
  { apply list_elem_of_fmap. exists m. split; [done|]. by rewrite <-(proj1 (sort_by_preference_core mxs)). }
  intros records Ht Hu. unfold posture, dane_tls_policy in Hc. simpl in Hc. rewrite Ht in Hc. simpl in Hc. rewrite Hu, Hprov in Hc.
  injection Hc as <-. by eapply attempt_confidential.
Qed.
End relay_run.

(** A TLSA lookup that fails is treated as no TLSA record: the exchange is met under
    opportunistic TLS. *)
Lemma dane_failure_downgrades resolver versions port tls sts pkix exchange e :
  dns_secure_tlsa resolver port exchange = Err e →
  posture resolver versions port tls true sts pkix exchange = Some (from_option TlsOpportunistic TlsNone tls).
Proof. intros H. unfold posture, dane_tls_policy. by rewrite H. Qed.

(** ** A run *)

Definition demo_replies (ls : list str) : Incoming := incoming (concat ((λ l, l ++ CRLF) <$> ls)) None.
Definition demo_mail_replies : list str := [lit "250 ok"; lit "250 ok"; lit "354 go"; lit "250 queued"].
(** A server with STARTTLS and one without. *)
Definition demo_tls_peer : Peer :=
  mkPeer (Ok ()) (demo_replies [lit "220 mx"; lit "250-mx"; lit "250 starttls"; lit "220 go ahead"]) false
    (λ _ _, Ok (demo_replies (lit "250 mx" :: demo_mail_replies))) (λ _, None) (λ _, None).
Definition demo_plain_peer : Peer :=
  mkPeer (Ok ()) (demo_replies ([lit "220 mx"; lit "250 mx"] ++ demo_mail_replies)) false
    (λ _ _, Err (NetIoError [])) (λ _, None) (λ _, None).
Definition demo_message : Message :=
  mkMessage (mkEnvelope (Some (mkMailbox (lit "a") (lit "a.org"))) [mkMailbox (lit "b") demo_host]) [] (lit "hi" ++ CRLF) [].
Definition demo_tlsa : TlsaRecord := mkTlsa DaneEe SelSpki MatchSha256 [1; 2; 3].
Definition demo_mxs : list MxRecord := [mkMx 20 (lit "mx2.b.org"); mkMx 10 (lit "mx1.b.org"); mkMx 10 (lit "mx.evil.org")].
Definition demo_resolver : DnsResolver :=
  mkResolver (λ _, Ok demo_mxs) (λ _, Ok [V4 3221225985]) (λ _, demo_found) (λ _, Err (NetIoError []))
    (λ _ _, Ok (Some [demo_tlsa])) (λ _, Ok (Some demo_mxs)).
Definition demo_sts : MtaStsResolver :=
  mkStsResolver ∅ (sts_demo_dns demo_found) demo_https (λ _, false) map_to_list 0 5.
Definition demo_net (n : nat) (_ : str) : Peer := match n with O => demo_plain_peer | _ => demo_tls_peer end.
Definition demo_relay (mta_sts : option MtaStsResolver) (dane : bool) :=
  relay id demo_resolver demo_net (Ok ()) (lit "a.org") 25 demo_message (Some OpportunisticClient) mta_sts dane.

Example relay_demo_enforce :
  let '(_, tried, report) := demo_relay (Some demo_sts) false in
  report = RelayDelivered ∧ (at_exchange <$> tried) = [lit "mx1.b.org"; lit "mx2.b.org"] ∧
  (at_addr <$> tried) = [lit "192.0.2.1:25"; lit "192.0.2.1:25"].
Proof. by vm_compute. Qed.
Example relay_demo_opportunistic :
  let '(_, tried, report) := demo_relay None false in
  report = RelayDelivered ∧ (at_exchange <$> tried) = [lit "mx1.b.org"].
Proof. by vm_compute. Qed.

Lemma demo_plain_takes :
  takes id demo_plain_peer (TlsOpportunistic OpportunisticClient) (lit "mx1.b.org") (relay_script (lit "a.org") demo_message).
Proof.
  split_and!; [done..|]. unfold answered.
  assert (upgrades id demo_plain_peer (TlsOpportunistic OpportunisticClient) = false) as -> by (vm_compute; reflexivity).
  eexists. repeat (eapply accepts_cons; [vm_compute; reflexivity|vm_compute; reflexivity|]). apply accepts_nil.
Qed.
Lemma relay_delivers_once_witness :
  let '(_, tried, report) := demo_relay None false in
  ∃ a, tried !! 0%nat = Some a ∧
    takes id (demo_net 0 (at_addr a)) (at_policy a) (at_exchange a) (relay_script (lit "a.org") demo_message) ∧
    report = RelayDelivered ∧ (length tried = 1)%nat.
Proof.
  pose proof (relay_delivers_once id demo_resolver demo_net (Ok ()) (lit "a.org") 25 demo_message (Some OpportunisticClient) None false) as H.
  unfold demo_relay.
  assert (match (relay id demo_resolver demo_net (Ok ()) (lit "a.org") 25 demo_message (Some OpportunisticClient) None false).1.2 !! 0%nat with
          | Some a => at_policy a = TlsOpportunistic OpportunisticClient ∧ at_exchange a = lit "mx1.b.org"
          | None => False end) as Ha by (vm_compute; split; reflexivity).
  destruct (relay _ _ _ _ _ _ _ _ _ _) as [[sts tried] report]. cbn [fst snd] in Ha. destruct H as [_ H].
  destruct (tried !! 0%nat) as [a|] eqn:Ea; [|destruct Ha]. destruct Ha as [Hp Hx]. exists a. rewrite Hp, Hx.
  split; [reflexivity|]. split; [exact demo_plain_takes|]. destruct (H 0%nat a Ea) as [Hr Hl]; [|split; [exact Hr|by rewrite <-Hl]].
  rewrite Hp, Hx. exact demo_plain_takes.
Defined.

Lemma relay_enforce_witness :
  let '(_, tried, _) := demo_relay (Some demo_sts) false in
  ∀ a, a ∈ tried → allows_mx demo_policy (at_exchange a) = true ∧ confidential demo_net (lit "a.org") demo_message PkixClient a.
Proof.
  apply (relay_enforce id demo_resolver demo_net (Ok ()) (lit "a.org") 25 demo_message (Some OpportunisticClient) demo_sts false
    (mkMailbox (lit "b") demo_host) [] demo_policy); by vm_compute.
Defined.

Lemma relay_dane_witness :
  let '(sts', tried, _) := demo_relay (Some demo_sts) true in
  sts' = Some demo_sts ∧
  ∀ a, a ∈ tried → at_exchange a ∈ (mx_exchange <$> demo_mxs) ∧
    ∀ records, dns_secure_tlsa demo_resolver 25 (at_exchange a) = Ok (Some records) → has_usable_tlsa records = true →
      confidential demo_net (lit "a.org") demo_message (DaneClient records) a.
Proof.
  apply (relay_dane id demo_resolver demo_net (Ok ()) (lit "a.org") 25 demo_message (Some OpportunisticClient) (Some demo_sts)
    (mkMailbox (lit "b") demo_host) [] demo_mxs); by vm_compute.
Defined.
