(* ===== verification/Startup.v ===== *)
(** * Configuration and start-up

    crates/utilities/src/config.rs and error.rs, services/snail_server/src/config.rs,
    the builder methods of services/snail_server/src/server.rs, the TLS server
    configuration of crates/network/src/tls/mod.rs and the entry point
    services/snail_server/src/main.rs, up to the binding of the listeners in [run]
    (serve.rs).  The process environment, the files read, the certificate generator, the
    system resolver, the PEM and X.509 libraries and the sockets are parameters; what is
    translated is what the entry point decides from them. *)
From S2P Require Import Prelude RustStr Net Message Transport Store Auth Throttle Greylist Received Dmarc Dns Tls Spool Server Serve Access.

(** ** Errors *)

Inductive UtilError := UtilConfig (s : str) | UtilIo (s : str) | UtilEnv (name reason : str).
Definition UtilError_to_string (e : UtilError) : str :=
  match e with
  | UtilConfig s => lit "invalid configuration: " ++ s
  | UtilIo s => lit "i/o error: " ++ s
  | UtilEnv name reason => lit "environment variable `" ++ name ++ lit "` is invalid: " ++ reason
  end.

(** [anyhow::Error]: any of the errors below, or a message. *)
Inductive AnyError :=
  | AnyUtil (e : UtilError) | AnyNetwork (e : NetworkError) | AnyMail (e : MailError) | AnySecurity (e : SecurityError)
  | AnyIo (e : IoError) | AnyMsg (s : str).

(** ** Configuration *)

Record Config := mkConfig { data_dir : str; log_level : str }.
Definition Config_default : Config := mkConfig (lit "/var/lib/snail") (lit "info").

Definition blank (name value : str) : result UtilError () :=
  if bool_decide (trim value = []) then Err (UtilEnv name (lit "must not be empty")) else Ok ().
Definition Config_from_source (get : str → option str) : result UtilError Config :=
  let cfg := Config_default in
  cfg ← match get (lit "SNAIL_DATA_DIR") with
        | Some dir => _ ← blank (lit "SNAIL_DATA_DIR") dir; Ok (mkConfig dir (log_level cfg))
        | None => Ok cfg
        end;
  match get (lit "SNAIL_LOG") with
  | Some level => _ ← blank (lit "SNAIL_LOG") level; Ok (mkConfig (data_dir cfg) level)
  | None => Ok cfg
  end.

Record ServerConfig := mkServerConfig { sc_base : Config; sc_local_domains : list str }.
Definition ServerConfig_new (local_domains : list str) : ServerConfig := mkServerConfig Config_default local_domains.

(** [PathBuf::join] with a relative name. *)
Definition path_join (dir name : str) : str :=
  dir ++ (if bool_decide (dir = []) || ends_with [SLASH] dir then [] else [SLASH]) ++ name.

(** ** The environment's switches and addresses *)

Definition env_or (var : str → option str) (key default_ : str) : str := default default_ (var key).
Definition env_flag (var : str → option str) (key : str) : bool :=
  match var key with
  | Some v => let v := lowercase (trim v) in (v =s? lit "1") || (v =s? lit "true") || (v =s? lit "yes") || (v =s? lit "on")
  | None => false
  end.

(** [addr.rsplit(':').next()]: the text after the last colon, or all of it. *)
Definition is_production_mx_port (addr : str) : bool :=
  bool_decide (parse_uint U16_MAX (match rsplit_once COLON addr with Some (_, p) => p | None => addr end) = Some 25).

Inductive CertPlan := CertConfigured | EphemeralForDev | RefuseProductionPort.
Definition cert_plan (cert_configured : bool) (inbound_addr : str) : CertPlan :=
  if cert_configured then CertConfigured
  else if is_production_mx_port inbound_addr then RefuseProductionPort else EphemeralForDev.

(** One entry of [SNAIL_USERS]. *)
Definition user_entry (entry : str) : result AnyError (str * str) :=
  match split_once COLON entry with
  | Some (user, pass) => Ok (trim user, trim pass)
  | None => Err (AnyMsg (lit "SNAIL_USERS entry `" ++ entry ++ lit "` must be user:pass"))
  end.
Definition user_entries (users : str) : list str := filter (λ e, trim e ≠ []) (split_char 44 users).

(** ** The server under construction *)

Definition DEFAULT_RELAY_PORT : Z := 25.
Record RelayContext := mkRelayContext { rc_helo : str; rc_port : Z; rc_tls : option ClientConfig }.

Record Listeners := mkListeners {
  ls_submission : str; ls_pop3 : str; ls_imap : str; ls_inbound : str; ls_limits : ConcurrencyLimits }.

Section startup.
Context {Cert Key ServerTls Anchor : Type}.
(** The PEM reader and the builder of a TLS server configuration. *)
Context (pem_certs : bytes → result str (list Cert)) (pem_private_key : bytes → result str (option Key))
  (with_single_cert : list Cert → Key → result str ServerTls).
(** The trust anchors, the protocol versions of the crypto provider, and Argon2. *)
Context (roots : list Anchor) (versions : result str ()) (hasher : PasswordHasher).

(** The shared state of Server.v with what it leaves out: the authenticator, the TLS
    configuration, the relay's settings ([srv_relay] is its queue), the trust anchors of
    MTA-STS and the DANE switch. *)
Record App := mkApp {
  app_server : Server;
  app_auth : Authenticator MemoryCredentialStore;
  app_tls : option ServerTls;
  app_relay : option RelayContext;
  app_mta_sts : option ClientConfig;
  app_dane : bool }.

Definition App_new (config : ServerConfig) : App :=
  mkApp (Server_new (sc_local_domains config)) (Authenticator_new (MemoryCredentialStore_new hasher)) None None None false.

Definition server_from_pem (cert_pem key_pem : str) : result NetworkError ServerTls :=
  certs ← map_err (λ e, TlsError (lit "reading certificates: " ++ e)) (pem_certs (utf8_encode cert_pem));
  key ← map_err (λ e, TlsError (lit "reading private key: " ++ e)) (pem_private_key (utf8_encode key_pem));
  key ← ok_or (TlsError (lit "no private key found in PEM")) key;
  map_err (λ e, TlsError (lit "building server config: " ++ e)) (with_single_cert certs key).

Definition with_server (a : App) (s : Server) : App :=
  mkApp s (app_auth a) (app_tls a) (app_relay a) (app_mta_sts a) (app_dane a).

Definition with_auth_throttle (a : App) (config : ThrottleConfig) : App :=
  let s := app_server a in
  with_server a (mkServer (srv_store s) (srv_domains s) (srv_tls s) (srv_helo s) (srv_relay s) config ∅ (srv_max_size s)
    (srv_resolver s) (srv_spf_enforce s) (srv_dmarc_enforce s) (srv_aggregator s) (srv_greylist s)).
Definition with_max_message_size (a : App) (max_size : Z) : App :=
  let s := app_server a in
  with_server a (mkServer (srv_store s) (srv_domains s) (srv_tls s) (srv_helo s) (srv_relay s) (srv_throttle_config s) (srv_throttle s)
    max_size (srv_resolver s) (srv_spf_enforce s) (srv_dmarc_enforce s) (srv_aggregator s) (srv_greylist s)).
Definition with_resolver (a : App) : App :=
  let s := app_server a in
  with_server a (mkServer (srv_store s) (srv_domains s) (srv_tls s) (srv_helo s) (srv_relay s) (srv_throttle_config s) (srv_throttle s)
    (srv_max_size s) true (srv_spf_enforce s) (srv_dmarc_enforce s) (srv_aggregator s) (srv_greylist s)).
Definition with_spf_enforcement (a : App) (enforce : bool) : App :=
  let s := app_server a in
  with_server a (mkServer (srv_store s) (srv_domains s) (srv_tls s) (srv_helo s) (srv_relay s) (srv_throttle_config s) (srv_throttle s)
    (srv_max_size s) (srv_resolver s) enforce (srv_dmarc_enforce s) (srv_aggregator s) (srv_greylist s)).
Definition with_dmarc_enforcement (a : App) (enforce : bool) : App :=
  let s := app_server a in
  with_server a (mkServer (srv_store s) (srv_domains s) (srv_tls s) (srv_helo s) (srv_relay s) (srv_throttle_config s) (srv_throttle s)
    (srv_max_size s) (srv_resolver s) (srv_spf_enforce s) enforce (srv_aggregator s) (srv_greylist s)).
Definition with_greylist (a : App) (config : GreylistConfig) : App :=
  with_server a (set_greylist (app_server a) (Some (config, ∅))).

Definition with_relay (a : App) (spool : OutboundSpool) : App :=
  let a := with_resolver a in
  let tls := ok (opportunistic_client versions) in
  mkApp (set_relay (app_server a) (Some spool)) (app_auth a) (app_tls a)
    (Some (mkRelayContext (srv_helo (app_server a)) DEFAULT_RELAY_PORT tls)) (app_mta_sts a) (app_dane a).
Definition with_relay_port (a : App) (port : Z) : App :=
  mkApp (app_server a) (app_auth a) (app_tls a) ((λ r, mkRelayContext (rc_helo r) port (rc_tls r)) <$> app_relay a)
    (app_mta_sts a) (app_dane a).
Definition with_mta_sts (a : App) : result NetworkError App :=
  pkix ← pkix_client roots; Ok (mkApp (app_server a) (app_auth a) (app_tls a) (app_relay a) (Some pkix) (app_dane a)).
Definition with_dane (a : App) (enabled : bool) : App :=
  mkApp (app_server a) (app_auth a) (app_tls a) (app_relay a) (app_mta_sts a) enabled.
Definition with_tls (a : App) (certs : MailCerts) : result AnyError App :=
  tls ← map_err AnyNetwork (server_from_pem (cert_pem certs) (key_pem certs));
  let s := app_server a in
  Ok (mkApp (mkServer (srv_store s) (srv_domains s) true (srv_helo s) (srv_relay s) (srv_throttle_config s) (srv_throttle s)
        (srv_max_size s) (srv_resolver s) (srv_spf_enforce s) (srv_dmarc_enforce s) (srv_aggregator s) (srv_greylist s))
        (app_auth a) (Some tls) (app_relay a) (app_mta_sts a) (app_dane a)).

Definition register_user (a : App) (salt username password : str) : result AnyError App :=
  let store := au_store (app_auth a) in
  credential ← map_err AnySecurity (Credential_new (mc_hasher store) salt username password);
  let '(store, r) := cs_put store credential in
  _ ← map_err AnySecurity r;
  let auth := add_account (mkAuthenticator store (au_accounts (app_auth a))) (Account_user username) in
  Ok (mkApp (app_server a) auth (app_tls a) (app_relay a) (app_mta_sts a) (app_dane a)).
(** The loop over [SNAIL_USERS]; registration number [n] draws salt [n]. *)
Fixpoint register_users (salt : nat → str) (n : nat) (entries : list str) (a : App) : result AnyError App :=
  match entries with
  | [] => Ok a
  | entry :: entries =>
      '(user, pass) ← user_entry entry;
      a ← register_user a (salt n) user pass;
      register_users salt (1 + n) entries a
  end.

(** ** The entry point *)

(** What the process finds: its environment, the text of a file, the certificate and key
    generated for a name, the contents of a spool directory and the order in
    which directories are listed, whether the system resolver
    can be built, whether an address can be bound, the clock and the salts. *)
Record World := mkWorld {
  w_var : str → option str;
  w_read : str → result IoError str;
  w_self_signed : str → result str (str * str);
  w_spool : str → result IoError FS;
  w_read_dir : FS → Dir → list str;
  w_resolver : result NetworkError ();
  w_bind : str → result IoError ();
  w_now : Z;
  w_salt : nat → str }.
Context (w : World).

Definition load_certs (domain inbound_addr : str) : result AnyError MailCerts :=
  let cert := w_var w (lit "SNAIL_TLS_CERT") in
  let key := w_var w (lit "SNAIL_TLS_KEY") in
  match cert_plan (bool_decide (is_Some cert) && bool_decide (is_Some key)) inbound_addr with
  | CertConfigured =>
      match cert, key with
      | Some cert, Some key =>
          cert ← map_err AnyIo (w_read w cert); key ← map_err AnyIo (w_read w key); map_err AnyMail (MailCerts_new cert key)
      | _, _ => Err (AnyMsg (lit "cert path present"))
      end
  | RefuseProductionPort =>
      Err (AnyMsg (lit "refusing to bind the production MX port (" ++ inbound_addr ++ lit ") without a TLS certificate: set SNAIL_TLS_CERT and SNAIL_TLS_KEY to a real key pair. An ephemeral self-signed certificate (regenerated every restart, unverifiable by peers) is not acceptable on :25 " ++ [8212] ++ lit " inbound TLS would be encryption without authentication."))
  | EphemeralForDev =>
      '(cert, key) ← map_err AnyMsg (w_self_signed w domain); map_err AnyMail (MailCerts_new cert key)
  end.

Definition hosted_domain : str := env_or (w_var w) (lit "SNAIL_DOMAIN") (lit "localhost").
Definition listeners : Listeners :=
  mkListeners (env_or (w_var w) (lit "SNAIL_SUBMISSION_ADDR") (lit "127.0.0.1:587"))
    (env_or (w_var w) (lit "SNAIL_POP3_ADDR") (lit "127.0.0.1:110"))
    (env_or (w_var w) (lit "SNAIL_IMAP_ADDR") (lit "127.0.0.1:143"))
    (env_or (w_var w) (lit "SNAIL_INBOUND_ADDR") (lit "127.0.0.1:2525")) ConcurrencyLimits_default.

(** The relay and what depends on it, when the system has a resolver. *)
Definition enable_relay (a : App) (spool : OutboundSpool) : result AnyError App :=
  match w_resolver w with
  | Ok _ =>
      let a := with_relay a spool in
      a ← (if env_flag (w_var w) (lit "SNAIL_MTA_STS") then map_err AnyNetwork (with_mta_sts a) else Ok a);
      Ok (if env_flag (w_var w) (lit "SNAIL_DANE") then with_dane a true else a)
  | Err _ => Ok a
  end.

(** [main], up to [run]. *)
Definition compose : result AnyError App :=
  base ← map_err AnyUtil (Config_from_source (w_var w));
  let spool_dir := default (path_join (data_dir base) (lit "spool")) (w_var w (lit "SNAIL_SPOOL_DIR")) in
  let config := mkServerConfig base [hosted_domain] in
  certs ← load_certs hosted_domain (ls_inbound listeners);
  files ← map_err AnyIo (w_spool w spool_dir);
  spool ← map_err AnyIo (spool_open (w_read_dir w) (w_now w) files);
  a ← with_tls (App_new config) certs;
  a ← enable_relay a spool;
  let a := with_dmarc_enforcement (with_spf_enforcement a (env_flag (w_var w) (lit "SNAIL_SPF_ENFORCE")))
             (env_flag (w_var w) (lit "SNAIL_DMARC_ENFORCE")) in
  let a := if env_flag (w_var w) (lit "SNAIL_GREYLIST") then with_greylist a GreylistConfig_default else a in
  match w_var w (lit "SNAIL_USERS") with
  | Some users => register_users (w_salt w) 0 (user_entries users) a
  | None => Ok a
  end.

(** [run] up to the accept loops: the four addresses are bound in order; the relay worker
    and the report worker run if the server relays. *)
Definition bind_all (ls : Listeners) : result IoError () :=
  _ ← w_bind w (ls_submission ls); _ ← w_bind w (ls_pop3 ls); _ ← w_bind w (ls_imap ls); w_bind w (ls_inbound ls).
Definition workers_run (a : App) : bool := bool_decide (is_Some (app_relay a)).
Definition main : result AnyError App := a ← compose; _ ← map_err AnyIo (bind_all listeners); Ok a.
End startup.
Arguments App _ : clear implicits.

(** * Switches *)

(** The values that switch a flag on. *)
Definition flag_on (var : str → option str) (key : str) : Prop :=
  ∃ v, var key = Some v ∧ lowercase (trim v) ∈ [lit "1"; lit "true"; lit "yes"; lit "on"].
Lemma env_flag_spec var key : env_flag var key = true ↔ flag_on var key.
Proof.
  unfold env_flag, flag_on. destruct (var key) as [v|]; [|by split; [|intros (? & ? & _)]].
  rewrite !orb_true_iff, !str_eqb_eq. split.
  - intros H. exists v. split; [done|]. rewrite !elem_of_cons. tauto.
  - intros (v' & [= <-] & H). rewrite !elem_of_cons in H. destruct H as [?|[?|[?|[?|H]]]]; [tauto..|by apply not_elem_of_nil in H].
Qed.

Lemma production_port host port : COLON ∉ port → is_production_mx_port (host ++ COLON :: port) = bool_decide (parse_uint U16_MAX port = Some 25).
Proof. intros Hc. unfold is_production_mx_port. by rewrite rsplit_once_app. Qed.

(** * What a started server is *)

Section started.
Context {Cert Key ServerTls Anchor : Type}.
Context (pem_certs : bytes → result str (list Cert)) (pem_private_key : bytes → result str (option Key))
  (with_single_cert : list Cert → Key → result str ServerTls).
Context (roots : list Anchor) (versions : result str ()) (hasher : PasswordHasher) (w : World).
#[local] Notation composed := (compose pem_certs pem_private_key with_single_cert roots versions hasher w).
#[local] Notation started := (main pem_certs pem_private_key with_single_cert roots versions hasher w).
#[local] Notation server_tls := (server_from_pem pem_certs pem_private_key with_single_cert).
Implicit Types a : App ServerTls.

(** Registration changes the authenticator and nothing else. *)
Definition same_but_auth a a' : Prop :=
  app_server a' = app_server a ∧ app_tls a' = app_tls a ∧ app_relay a' = app_relay a ∧
  app_mta_sts a' = app_mta_sts a ∧ app_dane a' = app_dane a.
Lemma same_but_auth_trans a1 a2 a3 : same_but_auth a1 a2 → same_but_auth a2 a3 → same_but_auth a1 a3.
Proof. unfold same_but_auth. intuition congruence. Qed.

Definition auth_put (auth : Authenticator MemoryCredentialStore) (u phc : str) : Authenticator MemoryCredentialStore :=
  mkAuthenticator (mkCreds hasher (<[u := mkCredential u phc None]> (mc_creds (au_store auth))) false)
    (<[u := Account_user u]> (au_accounts auth)).
(** The store's lock is not poisoned and its hasher is the configured one. *)
Definition auth_ready (auth : Authenticator MemoryCredentialStore) : Prop :=
  mc_poisoned (au_store auth) = false ∧ mc_hasher (au_store auth) = hasher.

Lemma register_user_spec a salt u p a' :
  auth_ready (app_auth a) → register_user a salt u p = Ok a' →
  same_but_auth a a' ∧ ∃ phc, hash_password hasher salt (utf8_encode p) = Ok phc ∧ app_auth a' = auth_put (app_auth a) u phc.
Proof.
  intros [Hp Hh]. unfold register_user. rewrite Hh. rewrite bind_Ok. intros (c & Hc & H). apply map_err_Ok in Hc.
  unfold Credential_new, hasher_hash in Hc. apply bind_Ok in Hc as (phc & Hphc%map_err_Ok & [= <-]).
  cbn [cs_put MemoryCredentialStore_store] in H. unfold mc_put in H. rewrite Hp, Hh in H. cbn in H. injection H as <-.
  split; [done|]. exists phc. split; [done|]. reflexivity.
Qed.

Lemma last_for_cons {A} (key : A → str) u x l :
  last_for key u (x :: l) = match last_for key u l with Some y => Some y | None => if key x =s? u then Some x else None end.
Proof.
  unfold last_for. rewrite reverse_cons. generalize (reverse l). intros k. induction k as [|y k IH]; simpl; [done|].
  destruct (key y =s? u); [done|]. exact IH.
Qed.

(** The logins of a list of entries. *)
Definition logins (entries : list str) : list (str * str) := omap (λ e, ok (user_entry e)) entries.
Definition logs_in (auth : Authenticator MemoryCredentialStore) (u p : str) : Prop := is_ok (authenticate auth u p) = true.

(** Argon2: a hash it makes is one it reads, and verifies the hashed bytes alone. *)
Definition hasher_lawful : Prop := ∀ salt pw phc, hash_password hasher salt pw = Ok phc →
  ∃ parsed, phc_new hasher phc = Ok parsed ∧
    ∀ pw', verify_phc hasher pw' parsed = if decide (pw' = pw) then Ok () else Err ErrorPassword.

Lemma accepts_put auth u phc v p :
  auth_ready auth → (logs_in (auth_put auth u phc) v p ↔ if u =s? v then hasher_verify hasher p phc = Ok true else logs_in auth v p).
Proof.
  intros [Hp Hh]. unfold logs_in. rewrite !authenticate_cases. unfold auth_put. cbn [au_store au_accounts cs_verify MemoryCredentialStore_store].
  unfold mc_verify. cbn [mc_poisoned mc_creds mc_hasher]. rewrite Hp, Hh. destruct (str_eqb u v) eqn:E.
  - apply str_eqb_eq in E as <-. rewrite !lookup_insert_eq. cbn. destruct (hasher_verify hasher p phc) as [[]|]; cbn; by split.
  - apply str_eqb_neq in E. by rewrite !lookup_insert_ne.
Qed.

Lemma verify_lawful salt p phc p' :
  hasher_lawful → hash_password hasher salt (utf8_encode p) = Ok phc →
  hasher_verify hasher p' phc = Ok true ↔ utf8_encode p' = utf8_encode p.
Proof.
  intros Hl Hh. destruct (Hl _ _ _ Hh) as (parsed & Hn & Hv). unfold hasher_verify. rewrite Hn. cbn. rewrite Hv.
  by destruct (decide _).
Qed.

Lemma register_users_spec entries : ∀ n a a',
  hasher_lawful → auth_ready (app_auth a) → register_users (w_salt w) n entries a = Ok a' →
  same_but_auth a a' ∧ length (logins entries) = length entries ∧
  ∀ u p, logs_in (app_auth a') u p ↔ match last_for fst u (logins entries) with
                                     | Some login => utf8_encode p = utf8_encode login.2
                                     | None => logs_in (app_auth a) u p
                                     end.
Proof.
  induction entries as [|e entries IH]; intros n a a' Hl Hr; [by intros [= <-]|]. cbn [register_users].
  rewrite bind_Ok. intros ([u0 p0] & Hu & H). apply bind_Ok in H as (a1 & H1 & H).
  destruct (register_user_spec _ _ _ _ _ Hr H1) as (Hs & phc & Hphc & Ha1).
  destruct (IH _ _ _ Hl ltac:(rewrite Ha1; done) H) as (Hs' & Hlen & Hacc).
  unfold logins in *. cbn [omap list_omap]. rewrite Hu. cbn [ok]. split; [by eapply same_but_auth_trans|]. split; [simpl; by f_equal|].
  intros u p. rewrite Hacc, last_for_cons. cbn [fst snd]. destruct (last_for fst u _); [done|]. rewrite Ha1, (accepts_put _ _ _ _ _ Hr).
  destruct (str_eqb u0 u); [|done]. by eapply verify_lawful.
Qed.

Lemma load_certs_Ok domain addr certs :
  load_certs w domain addr = Ok certs →
  (∃ cert key, w_var w (lit "SNAIL_TLS_CERT") = Some cert ∧ w_var w (lit "SNAIL_TLS_KEY") = Some key ∧
     w_read w cert = Ok (cert_pem certs) ∧ w_read w key = Ok (key_pem certs)) ∨
  ((w_var w (lit "SNAIL_TLS_CERT") = None ∨ w_var w (lit "SNAIL_TLS_KEY") = None) ∧
     w_self_signed w domain = Ok (cert_pem certs, key_pem certs) ∧
     ∀ host port, addr = host ++ COLON :: port → COLON ∉ port → parse_uint U16_MAX port ≠ Some 25).
Proof.
  assert (∀ c k, MailCerts_new c k = Ok certs → c = cert_pem certs ∧ k = key_pem certs) as Hnew.
  { intros c k. unfold MailCerts_new. repeat case_code; [done..|]. by intros [= <-]. }
  unfold load_certs, cert_plan. intros H.
  destruct (w_var w (lit "SNAIL_TLS_CERT")) as [cert|], (w_var w (lit "SNAIL_TLS_KEY")) as [key|]; cbn [is_Some] in H.
  { left. exists cert, key. apply bind_Ok in H as (c & Hc%map_err_Ok & H). apply bind_Ok in H as (k & Hk%map_err_Ok & H).
    apply map_err_Ok, Hnew in H as [-> ->]. done. }
  all: right; split; [auto|]; rewrite ?andb_false_r in H; cbn [andb bool_decide decide] in H;
    destruct (is_production_mx_port addr) eqn:Hport; [done|];
    apply bind_Ok in H as ([c k] & Hc%map_err_Ok & H); apply map_err_Ok, Hnew in H as [-> ->]; split; [done|];
    intros host port -> Hcol; rewrite production_port in Hport by done; by apply bool_decide_eq_false in Hport.
Qed.

(** Whoever is registered, the rest of the server stays as it is. *)
Lemma register_users_frame entries : ∀ n a a',
  auth_ready (app_auth a) → register_users (w_salt w) n entries a = Ok a' → same_but_auth a a'.
Proof.
  induction entries as [|e entries IH]; intros n a a' Hr; [by intros [= <-]|]. cbn [register_users].
  rewrite bind_Ok. intros ([u0 p0] & Hu & H). apply bind_Ok in H as (a1 & H1 & H).
  destruct (register_user_spec _ _ _ _ _ Hr H1) as (Hs & phc & _ & Ha1).
  eapply same_but_auth_trans; [exact Hs|]. eapply IH; [|exact H]. by rewrite Ha1.
Qed.

Lemma enable_relay_spec a spool a' :
  enable_relay roots versions w a spool = Ok a' →
  app_auth a' = app_auth a ∧ app_tls a' = app_tls a ∧
  match w_resolver w with
  | Ok _ => app_server a' = set_relay (app_server (with_resolver a)) (Some spool) ∧
            app_relay a' = Some (mkRelayContext (srv_helo (app_server a)) DEFAULT_RELAY_PORT (ok (opportunistic_client versions))) ∧
            app_mta_sts a' = (if env_flag (w_var w) (lit "SNAIL_MTA_STS") then Some PkixClient else app_mta_sts a) ∧
            app_dane a' = env_flag (w_var w) (lit "SNAIL_DANE") || app_dane a
  | Err _ => a' = a
  end.
Proof.
  unfold enable_relay. destruct (w_resolver w) as [[]|]; [|by intros [= ->]]. rewrite bind_Ok. intros (a1 & Ha1 & [= <-]).
  destruct (env_flag (w_var w) (lit "SNAIL_MTA_STS")).
  - apply map_err_Ok in Ha1. unfold with_mta_sts in Ha1. apply bind_Ok in Ha1 as (pkix & Hpkix & [= <-]).
    unfold pkix_client in Hpkix. case_bool_decide; [done|]. injection Hpkix as <-. by destruct (env_flag _ (lit "SNAIL_DANE")).
  - injection Ha1 as <-. by destruct (env_flag _ (lit "SNAIL_DANE")).
Qed.

(** The steps of start-up. *)
Lemma compose_steps a' :
  composed = Ok a' →
  ∃ certs tls a files spool, load_certs w (hosted_domain w) (ls_inbound (listeners w)) = Ok certs ∧
    server_tls (cert_pem certs) (key_pem certs) = Ok tls ∧
    spool_open (w_read_dir w) (w_now w) files = Ok spool ∧
    app_auth a = Authenticator_new (MemoryCredentialStore_new hasher) ∧
    register_users (w_salt w) 0 (user_entries (default [] (w_var w (lit "SNAIL_USERS")))) a = Ok a' ∧
    app_tls a = Some tls ∧ srv_tls (app_server a) = true ∧
    srv_store (app_server a) = MemoryMailStore_new ∧ srv_domains (app_server a) = mta_domains [hosted_domain w] ∧
    srv_spf_enforce (app_server a) = env_flag (w_var w) (lit "SNAIL_SPF_ENFORCE") ∧
    srv_dmarc_enforce (app_server a) = env_flag (w_var w) (lit "SNAIL_DMARC_ENFORCE") ∧
    bool_decide (is_Some (srv_greylist (app_server a))) = env_flag (w_var w) (lit "SNAIL_GREYLIST") ∧
    match w_resolver w with
    | Ok _ => srv_resolver (app_server a) = true ∧ srv_relay (app_server a) = Some spool ∧
              app_relay a = Some (mkRelayContext (hosted_domain w) DEFAULT_RELAY_PORT (ok (opportunistic_client versions))) ∧
              app_mta_sts a = (if env_flag (w_var w) (lit "SNAIL_MTA_STS") then Some PkixClient else None) ∧
              app_dane a = env_flag (w_var w) (lit "SNAIL_DANE")
    | Err _ => srv_resolver (app_server a) = false ∧ srv_relay (app_server a) = None ∧ app_relay a = None ∧
               app_mta_sts a = None ∧ app_dane a = false
    end.
Proof.
  unfold compose. rewrite bind_Ok. intros (base & _ & H). apply bind_Ok in H as (certs & Hcerts & H).
  apply bind_Ok in H as (files & _ & H). apply bind_Ok in H as (spool & Hspool%map_err_Ok & H).
  apply bind_Ok in H as (a0 & Ha0 & H). unfold with_tls in Ha0. apply bind_Ok in Ha0 as (tls & Htls%map_err_Ok & [= <-]).
  apply bind_Ok in H as (a1 & Ha1 & H). set (a2 := if env_flag _ (lit "SNAIL_GREYLIST") then _ else _) in H.
  exists certs, tls, a2, files, spool. do 3 (split; [done|]).
  assert (register_users (w_salt w) 0 (user_entries (default [] (w_var w (lit "SNAIL_USERS")))) a2 = Ok a') as Hreg.
  { destruct (w_var w (lit "SNAIL_USERS")); [done|]. by simpl. }
  assert (app_auth a2 = app_auth a1 ∧ app_tls a2 = app_tls a1 ∧ app_relay a2 = app_relay a1 ∧ app_mta_sts a2 = app_mta_sts a1 ∧
    app_dane a2 = app_dane a1) as (-> & -> & -> & -> & ->) by (unfold a2; by destruct (env_flag _ (lit "SNAIL_GREYLIST"))).
  assert (∀ {X} (f : Server → X), (∀ s g, f (set_greylist s g) = f s) → f (app_server a2) =
    f (app_server (with_dmarc_enforcement (with_spf_enforcement a1 (env_flag (w_var w) (lit "SNAIL_SPF_ENFORCE"))) (env_flag (w_var w) (lit "SNAIL_DMARC_ENFORCE")))))
    as Hf by (intros X f Hf; unfold a2; destruct (env_flag _ (lit "SNAIL_GREYLIST")); [apply Hf|done]).
  apply enable_relay_spec in Ha1 as (Hauth & Htls' & Hrel). rewrite Hauth, Htls', (Hf _ srv_tls), (Hf _ srv_store), (Hf _ srv_domains), (Hf _ srv_spf_enforce),
    (Hf _ srv_dmarc_enforce), (Hf _ srv_resolver), (Hf _ srv_relay) by done.
  assert (bool_decide (is_Some (srv_greylist (app_server a2))) = env_flag (w_var w) (lit "SNAIL_GREYLIST")) as ->.
  { unfold a2. destruct (env_flag (w_var w) (lit "SNAIL_GREYLIST")); [done|]. cbn. destruct (w_resolver w) as [[]|].
    - destruct Hrel as [Hs _]. rewrite Hs. by vm_compute.
    - subst a1. by vm_compute. }
  destruct (w_resolver w); [destruct Hrel as (Hs & -> & -> & ->)|subst a1; by repeat split].
  cbn. rewrite Hs. repeat split; try done. by rewrite orb_false_r.
Qed.

(** C38: a server that starts offers TLS, and never with a throw-away certificate on the
    public mail port: a started server has TLS on all its listeners, with a
    configuration built either from the configured certificate and key files, both of
    which were set and read, or from a generated pair, and then the port it listens on
    for inbound mail is not 25. *)
Theorem startup_production_tls a' :
  started = Ok a' →
  srv_tls (app_server a') = true ∧
  ∃ certs tls, app_tls a' = Some tls ∧ server_tls (cert_pem certs) (key_pem certs) = Ok tls ∧
    ((∃ cert key, w_var w (lit "SNAIL_TLS_CERT") = Some cert ∧ w_var w (lit "SNAIL_TLS_KEY") = Some key ∧
        w_read w cert = Ok (cert_pem certs) ∧ w_read w key = Ok (key_pem certs)) ∨
     ((w_var w (lit "SNAIL_TLS_CERT") = None ∨ w_var w (lit "SNAIL_TLS_KEY") = None) ∧
        w_self_signed w (hosted_domain w) = Ok (cert_pem certs, key_pem certs) ∧
        ∀ host port, ls_inbound (listeners w) = host ++ COLON :: port → COLON ∉ port → parse_uint U16_MAX port ≠ Some 25)).
Proof.
  unfold main. rewrite bind_Ok. intros (a1 & H & H'). apply bind_Ok in H' as (_ & _ & [= ->]).
  apply compose_steps in H as (certs & tls & a & files & spool & Hcerts & Htls & _ & Hauth & Hreg & Ht & Hs & _).
  apply register_users_frame in Hreg as (Hsrv & Ht' & _); [|by rewrite Hauth]. rewrite Hsrv. split; [done|].
  exists certs, tls. rewrite Ht'. do 2 (split; [done|]). by apply load_certs_Ok.
Qed.

(** C39: who can log in: after start-up the user and password pairs that authenticate, on
    every protocol, are exactly those of [SNAIL_USERS], the last entry for a name
    deciding; without that variable nobody can log in. *)
Theorem startup_users a' (u p : str) :
  hasher_lawful → started = Ok a' →
  (auth_check (app_auth a') u p = true ↔
   ∃ pass, last_for fst u (logins (user_entries (default [] (w_var w (lit "SNAIL_USERS"))))) = Some (u, pass) ∧
     utf8_encode p = utf8_encode pass).
Proof.
  intros Hl. unfold main. rewrite bind_Ok. intros (a1 & H & H'). apply bind_Ok in H' as (_ & _ & [= ->]).
  apply compose_steps in H as (certs & tls & a & files & spool & _ & _ & _ & Hauth & Hreg & _).
  destruct (register_users_spec _ _ _ _ Hl ltac:(by rewrite Hauth) Hreg) as (_ & _ & Hacc).
  unfold auth_check, logs_in in *. specialize (Hacc u p). etransitivity; [exact Hacc|].
  destruct (last_for fst u _) as [[u' pass]|] eqn:E.
  - apply last_for_key in E as [<- _]. cbn. naive_solver.
  - rewrite Hauth. split; [|by intros (? & ? & _)]. done.
Qed.

(** The security switches mean what they say on a server that relays: if the system
    has a resolver, then the server checks SPF, DKIM and DMARC, rejects on them, enforces
    MTA-STS over PKIX and uses DANE exactly as the switches ask, and the queue it relays
    is the recovered spool; a switch is never dropped silently.  Without a resolver
    the server starts without the relay. *)
Theorem startup_switches a' :
  started = Ok a' →
  (srv_spf_enforce (app_server a') = true ↔ flag_on (w_var w) (lit "SNAIL_SPF_ENFORCE")) ∧
  (srv_dmarc_enforce (app_server a') = true ↔ flag_on (w_var w) (lit "SNAIL_DMARC_ENFORCE")) ∧
  (is_Some (srv_greylist (app_server a')) ↔ flag_on (w_var w) (lit "SNAIL_GREYLIST")) ∧
  srv_domains (app_server a') = {[ lowercase (hosted_domain w) ]} ∧
  match w_resolver w with
  | Ok _ => srv_resolver (app_server a') = true ∧ workers_run a' = true ∧
            (∃ files spool, spool_open (w_read_dir w) (w_now w) files = Ok spool ∧ srv_relay (app_server a') = Some spool) ∧
            (app_mta_sts a' = Some PkixClient ↔ flag_on (w_var w) (lit "SNAIL_MTA_STS")) ∧
            (app_dane a' = true ↔ flag_on (w_var w) (lit "SNAIL_DANE"))
  | Err _ => srv_resolver (app_server a') = false ∧ srv_relay (app_server a') = None ∧ workers_run a' = false
  end.
Proof.
  unfold main. rewrite bind_Ok. intros (a1 & H & H'). apply bind_Ok in H' as (_ & _ & [= ->]).
  apply compose_steps in H as (certs & tls & a & files & spool & _ & _ & Hsp & Hauth & Hreg & _ & _ & _ & Hd & He & Hm & Hg & Hr).
  apply register_users_frame in Hreg as (-> & _ & Hrel & Hsts & Hdane); [|by rewrite Hauth].
  rewrite He, Hm, Hd, <-!env_flag_spec, <-Hg, bool_decide_eq_true. do 3 (split; [done|]).
  split; [unfold mta_domains; cbn; set_solver|]. unfold workers_run. rewrite Hrel, Hsts, Hdane.
  destruct (w_resolver w) as [[]|].
  - destruct Hr as (-> & -> & -> & -> & ->). rewrite <-!env_flag_spec. split_and!; [done|by apply bool_decide_eq_true|eauto| |done].
    by destruct (env_flag (w_var w) (lit "SNAIL_MTA_STS")).
  - destruct Hr as (-> & -> & -> & _). split_and!; [done..|]. apply bool_decide_eq_false. by intros [? [=]].
Qed.
End started.

(** ** Witnesses *)

(** An ideal hash: the password itself. *)
Definition plain_hasher : PasswordHasher :=
  mkHasher bytes (λ phc, Ok phc) (λ pw parsed, if decide (pw = parsed) then Ok () else Err ErrorPassword) (λ _ pw, Ok pw).
Lemma plain_hasher_lawful : hasher_lawful plain_hasher.
Proof. intros salt pw phc [= <-]. by exists pw. Qed.

Definition demo_pem : str := lit "-----BEGIN CERTIFICATE-----".
Definition demo_env (key : str) : option str :=
  if key =s? lit "SNAIL_INBOUND_ADDR" then Some (lit "0.0.0.0:25")
  else if key =s? lit "SNAIL_TLS_CERT" then Some (lit "cert.pem")
  else if key =s? lit "SNAIL_TLS_KEY" then Some (lit "key.pem")
  else if key =s? lit "SNAIL_MTA_STS" then Some (lit " On ")
  else if key =s? lit "SNAIL_USERS" then Some (lit "ann:one,bob:two, ann : three")
  else None.
Definition demo_world : World :=
  mkWorld demo_env (λ _, Ok demo_pem) (λ _, Err (lit "no")) (λ _, Ok ∅) (λ _ _, []) (Ok ()) (λ _, Ok ()) 0 (λ _, []).
#[local] Notation demo_started :=
  (main (λ _, Ok [()]) (λ _, Ok (Some ())) (λ _ _, Ok ()) [()] (Ok ()) plain_hasher demo_world).
Definition demo_app : App () :=
  default (App_new plain_hasher (ServerConfig_new [])) (ok demo_started).
Lemma demo_runs : demo_started = Ok demo_app.
Proof. by vm_compute. Qed.

Lemma startup_production_tls_witness :
  demo_started = Ok demo_app ∧ srv_tls (app_server demo_app) = true.
Proof.
  split; [exact demo_runs|].
  exact (proj1 (startup_production_tls (λ _, Ok [()]) (λ _, Ok (Some ())) (λ _ _, Ok ()) [()] (Ok ()) plain_hasher demo_world demo_app demo_runs)).
Defined.

Lemma startup_users_witness :
  demo_started = Ok demo_app ∧ auth_check (app_auth demo_app) (lit "ann") (lit "three") = true.
Proof.
  split; [exact demo_runs|].
  apply (startup_users (λ _, Ok [()]) (λ _, Ok (Some ())) (λ _ _, Ok ()) [()] (Ok ()) plain_hasher demo_world demo_app (lit "ann") (lit "three")
    plain_hasher_lawful demo_runs).
  exists (lit "three"). split; by vm_compute.
Defined.

Lemma startup_switches_witness :
  demo_started = Ok demo_app ∧ app_mta_sts demo_app = Some PkixClient.
Proof.
  split; [exact demo_runs|].
  pose proof (startup_switches (λ _, Ok [()]) (λ _, Ok (Some ())) (λ _ _, Ok ()) [()] (Ok ()) plain_hasher demo_world demo_app demo_runs)
    as (_ & _ & _ & _ & _ & _ & _ & H & _).
  apply H. exists (lit " On "). split; [done|]. rewrite !elem_of_cons. do 3 right. left. by vm_compute.
Defined.

(** ** Enforcement without a resolver *)

(** A server without a resolver refuses no mail for its sender, whatever its enforcement
    switches say: the switches of a server whose system resolver could not be built
    have no effect, and it starts all the same. *)
Theorem enforcement_needs_resolver (evaluate_spf : IpAddr → str → str → SpfResult)
    (verify_dkim : bytes → list DkimOutcome) (lookup_txt : str → option (list str)) (psl_domain : str → option str)
    (ip : IpAddr) (now : Z) (s s' : Server) (tls : bool) (helo : str) (env : Envelope) (c : InboundCollector) (reply : bytes) :
  srv_resolver s = false →
  inbound_deliver evaluate_spf verify_dkim lookup_txt psl_domain ip now s tls helo env c = Some (s', reply) →
  reply ∈ [wire (lit "554 message parse error"); wire (lit "554 too many Received headers; possible mail loop");
           wire (lit "250 OK message accepted")].
Proof.
  intros Hr. unfold inbound_deliver. rewrite !elem_of_cons. destruct (into_message c env) as [m|].
  2: { intros [= _ <-]. by left. }
  destruct (MAX_RECEIVED_HOPS <=? received_header_count m). { intros [= _ <-]. right. by left. }
  rewrite Hr, bool_decide_eq_false_2 by done. cbn [andb].
  assert (ar_dmarc (check_auth verify_dkim lookup_txt psl_domain now s helo (mail_from_of env) None m) = None) as Hd
    by (unfold check_auth; by rewrite Hr).
  rewrite Hd, (bool_decide_eq_false_2 (dr_disposition <$> None = Some DispReject)), andb_false_r by done.
  destruct (stamp_inbound _ _ _ _ _ _ _) as [m'|]; [|done]. intros [= _ <-]. do 2 right. by left.
Qed.
