(* ===== verification/EndToEnd.v ===== *)
(** * Two servers in conversation

    The outbound relay client (Outbound.v) talking to the inbound listener of another
    server (Listen.v): the client's writes are the bytes the listener reads and the
    listener's replies are what the client reads.  The two halves are the translated
    code; what is proved here is about their composition, from the client's greeting to
    the mailbox of the receiver and back to the client's report. *)
From S2P Require Import Prelude RustStr Net Message Smtp Transport Store Auth Submission Throttle Greylist Received Dmarc Dns Tls Server Serve Access Listen Worker Outbound.

(** ** The listener on a sequence of lines *)

(** A line on the wire: it ends in its only line feed and fits the reader's buffer. *)
Definition wire_line (l : bytes) : Prop := (∃ a, l = a ++ [LF] ∧ LF ∉ a) ∧ len l ≤ MAX_LINE_LENGTH.

Lemma position_lf a b : LF ∉ a → position LF (a ++ LF :: b) = Some (length a).
Proof.
  induction a as [|x a IH]; intros Ha; simpl; [done|].
  destruct (Z.eqb_spec x LF) as [->|]; [set_solver|]. rewrite IH by set_solver. done.
Qed.

Lemma buffered_after_rest chunks a rest :
  LF ∉ a → Forall (λ c, c ≠ []) chunks → concat chunks = a ++ LF :: rest → rest = [] → buffered_after chunks = false.
Proof.
  intros Ha Hne Hc ->. revert a Ha Hc. induction Hne as [|c chunks Hc0 Hne IH]; simpl; intros a Ha Hc; [done|].
  destruct (position LF c) as [p|] eqn:Ep.
  - assert (∃ b d, c = b ++ LF :: d ∧ length b = p ∧ LF ∉ b) as (b & d & -> & <- & Hb).
    { clear -Ep. revert p Ep. induction c as [|x c IH]; simpl; [done|]. intros p.
      destruct (Z.eqb_spec x LF) as [->|Hx].
      - intros [= <-]. exists [], c. split_and!; [done..|set_solver].
      - intros (q & Hq & ->)%fmap_Some. destruct (IH q) as (b & d & -> & <- & Hb); [done|].
        exists (x :: b), d. split_and!; [done..|]. set_solver. }
    rewrite <-app_assoc in Hc. apply app_eq_inv in Hc. rewrite drop_app_ge by lia.
    replace (length b + 1 - length b)%nat with 1%nat by lia. simpl.
    destruct Hc as [(k & -> & Hk)|(k & -> & Hk)].
    + destruct k as [|y k]; simpl in Hk; [simplify_eq; by destruct d|]. simplify_eq. set_solver.
    + destruct k as [|y k]; simpl in Hk; [simplify_eq; by destruct d|]. simplify_eq. set_solver.
  - assert (LF ∉ c) as Hlf.
    { clear -Ep. induction c as [|x c IH]; simpl in *; [set_solver|].
      destruct (Z.eqb_spec x LF); [done|]. destruct (position LF c); [done|]. set_solver. }
    apply app_eq_inv in Hc as [(k & -> & Hk)|(k & -> & Hk)].
    + destruct k as [|y k]; simpl in Hk; [|simplify_eq; set_solver].
      apply (IH []); [set_solver|by rewrite <-Hk].
    + apply (IH k); [set_solver|done].
Qed.

Section lines.
Context {S : Type} (step : Z → Server → Conn S → bool → bytes → Step S) (greeting too_long : bytes) (sk : Socket).
Context (Hquiet : ∀ n s, so_others sk n s = s) (Hwrites : ∀ n, so_writes sk n = true).

(** One iteration, whatever the chunks. *)
Lemma serve_line fuel n chunks tls s c log line rest :
  wire_line line → Forall (λ c, c ≠ []) chunks → concat chunks = line ++ rest →
  ∃ rest' p, Forall (λ c, c ≠ []) rest' ∧ concat rest' = rest ∧ (rest = [] → p = false) ∧
    serve_loop step too_long (Datatypes.S fuel) n sk (mkStream chunks false) tls s c log =
    (let st := step (so_clock sk n) s c p line in
     let log := log ++ [(c_tls c, st_wire st)] in
     match st_next st with
     | Close => Some (mkServed (st_server st) log Closed)
     | Panic => Some (mkServed (st_server st) log Panicked)
     | Continue =>
         if c_tls (st_conn st) && negb (c_tls c) then
           match tls with
           | Some tls => serve_loop step too_long fuel (1 + n) sk tls None (st_server st) (st_conn st) log
           | None => Some (mkServed (st_server st) log IoFailed)
           end
         else serve_loop step too_long fuel (1 + n) sk (mkStream rest' false) tls (st_server st) (st_conn st) log
     end).
Proof.
  intros [(a & -> & Ha) Hlen] Hne Hc. cbn [serve_loop sm_chunks sm_fails andb].
  pose proof (read_line_loop_spec chunks MAX_LINE_LENGTH [] Hne eq_refl ltac:(done)) as Hs.
  pose proof (read_line_loop_rest_ne MAX_LINE_LENGTH _ Hne []) as Hr.
  unfold read_line_capped. destruct (read_line_loop [] chunks _) as [[r line] rest'] eqn:Er.
  destruct Hs as (Es & Cs & _). simpl in Es, Cs. rewrite Hc in Es, Cs. rewrite <-app_assoc in Es. simpl in Es.
  unfold read_line_spec in Es. rewrite position_lf in Es by done.
  autorewrite with len in Hlen. unfold len in Hlen. simpl in Hlen.
  destruct (Z.leb_spec (Z.of_nat (length a) + 1) MAX_LINE_LENGTH); [|lia].
  replace (take (length a + 1) (a ++ LF :: rest)) with (a ++ [LF]) in Es.
  2: { rewrite take_app_ge by lia. replace (length a + 1 - length a)%nat with 1%nat by lia. done. }
  injection Es as -> ->. apply app_inv_head in Cs. exists rest', (buffered_after chunks).
  split_and!; [by eapply Hr|done| |].
  - intros E. apply (buffered_after_rest chunks a rest); [done|done|by rewrite Hc, <-app_assoc|done].
  - rewrite Hquiet, Hwrites. done.
Qed.

(** The lines [ls], read at iterations [n, n+1, ...], are answered with [ws] and take the
    connection from one state to another, whether or not more input is buffered. *)
Inductive converse : nat → Server → Conn S → list bytes → list bytes → Server → Conn S → Prop :=
  | converse_nil n s c : converse n s c [] [] s c
  | converse_cons n s c l ls w ws s1 c1 s2 c2 :
      wire_line l → (∀ p, step (so_clock sk n) s c p l = mkStep s1 c1 w Continue) → c_tls c1 = c_tls c →
      converse (1 + n) s1 c1 ls ws s2 c2 → converse n s c (l :: ls) (w :: ws) s2 c2.

Lemma converse_app n s c ls ws s1 c1 ls' ws' s2 c2 :
  converse n s c ls ws s1 c1 → converse (length ls + n) s1 c1 ls' ws' s2 c2 →
  converse n s c (ls ++ ls') (ws ++ ws') s2 c2.
Proof.
  induction 1 as [|n s c l ls w ws s1 c1 s3 c3 Hl Hs Ht _ IH]; [done|]. intros H.
  eapply converse_cons; [done..|]. apply IH. by rewrite Nat.add_succ_r.
Qed.
Lemma converse_tls n s c ls ws s' c' : converse n s c ls ws s' c' → c_tls c' = c_tls c ∧ length ws = length ls.
Proof. induction 1 as [|n s c l ls w ws s1 c1 s2 c2 _ _ Ht _ [IH ?]]; simpl; [done|]. split; [by rewrite IH|lia]. Qed.

Lemma serve_converse n s c ls ws s' c' : converse n s c ls ws s' c' → ∀ fuel chunks tls log rest,
  Forall (λ c, c ≠ []) chunks → concat chunks = concat ls ++ rest →
  ∃ rest', Forall (λ c, c ≠ []) rest' ∧ concat rest' = rest ∧
    serve_loop step too_long (length ls + fuel) n sk (mkStream chunks false) tls s c log =
    serve_loop step too_long fuel (length ls + n) sk (mkStream rest' false) tls s' c' (log ++ on_channel (c_tls c) ws).
Proof.
  induction 1 as [n s c|n s c l ls w ws s1 c1 s2 c2 Hl Hs Ht _ IH]; intros fuel chunks tls log rest Hne Hc.
  { exists chunks. unfold on_channel. rewrite app_nil_r. done. }
  cbn [concat] in Hc. rewrite <-app_assoc in Hc.
  destruct (serve_line (length ls + fuel) n chunks tls s c log l _ Hl Hne Hc) as (r1 & p & Hr1 & Hc1 & _ & E).
  cbn [length Nat.add]. rewrite E, Hs. cbn [st_next st_server st_conn st_wire]. rewrite Ht.
  replace (c_tls c && negb (c_tls c)) with false by by destruct (c_tls c).
  destruct (IH fuel r1 tls (log ++ [(c_tls c, w)]) rest Hr1 Hc1) as (r2 & Hr2 & Hc2 & E2).
  exists r2. split_and!; [done..|]. rewrite E2, Ht, Nat.add_succ_r, <-app_assoc. done.
Qed.
End lines.

(** ** The script on the wire *)

Definition cmd_line (cmd : str) : bytes := utf8_encode cmd ++ CRLF.

(** Text that can be sent as one command line. *)
Definition sendable (s : str) : Prop :=
  Forall (λ c, is_char c = true) s ∧ one_line s ∧ len (utf8_encode s) + 2 ≤ MAX_LINE_LENGTH.

Lemma sendable_check s :
  forallb is_char s && negb (contains_char CR s) && negb (contains_char LF s) &&
  (len (utf8_encode s) + 2 <=? MAX_LINE_LENGTH) = true → sendable s.
Proof.
  rewrite !andb_true_iff. intros [[[Hc Hcr] Hlf] Hl%Z.leb_le].
  unfold contains_char in *. bsimp. split; [|by split].
  apply Forall_forall. intros c Hin%list_elem_of_In. by apply (proj1 (forallb_forall _ _) Hc).
Qed.

Lemma cmd_line_encode cmd : cmd_line cmd = utf8_encode (cmd ++ CRLF).
Proof. unfold cmd_line. by rewrite utf8_encode_app. Qed.

Lemma cmd_line_wire cmd : sendable cmd → wire_line (cmd_line cmd).
Proof.
  intros (_ & Ho & Hl). unfold cmd_line. split; [|autorewrite with len; done].
  exists (utf8_encode cmd ++ [CR]). rewrite <-app_assoc. split; [done|].
  apply utf8_encode_one_line in Ho as [_ Ho]. rewrite elem_of_app. set_solver by done.
Qed.

Lemma cmd_line_text cmd : sendable cmd → from_utf8_lossy (cmd_line cmd) = cmd ++ CRLF.
Proof.
  intros (Hc & _). rewrite cmd_line_encode, from_utf8_lossy_encode; [done|].
  apply Forall_app. split; [done|by repeat constructor].
Qed.

Lemma parse_crlf cmd : SmtpCommand_parse (cmd ++ CRLF) = SmtpCommand_parse cmd.
Proof.
  unfold SmtpCommand_parse, split_verb.
  replace (trim_end_crlf (cmd ++ CRLF)) with (trim_end_crlf cmd); [done|].
  unfold trim_end_crlf, drop_while_end. by rewrite reverse_app.
Qed.

(** ** The receiver on the script *)

Section receiver.
Context (evaluate_spf : IpAddr → str → str → SpfResult) (verify_dkim : bytes → list DkimOutcome).
Context (lookup_txt : str → option (list str)) (psl_domain : str → option str) (ip : IpAddr).
#[local] Notation step := (inbound_step evaluate_spf verify_dkim lookup_txt psl_domain ip).
#[local] Notation deliver := (inbound_deliver evaluate_spf verify_dkim lookup_txt psl_domain ip).
Context (sk : Socket) (s : Server) (b : bool).

Lemma step_command now se p cmd :
  sendable cmd →
  step now s (mkConn b se None) p (cmd_line cmd) = inbound_command ip now s (mkConn b se None) p (cmd ++ CRLF).
Proof. intros Hs. unfold inbound_step. simpl. by rewrite cmd_line_text. Qed.

(** The reply to EHLO on a channel. *)
Definition ehlo_reply (helo : str) : bytes :=
  if srv_tls s && negb b then wire (lit "250-" ++ (lit "Hello " ++ helo) ++ CRLF ++ lit "250 STARTTLS")
  else reply_wire (mkReply 250 (lit "Hello " ++ helo)).
Definition greeted (helo : str) : SmtpSession := mkSession Identified (Some helo) None [] DEFAULT_MAX_RECIPIENTS.

Lemma converse_ehlo n helo :
  trimmed helo → helo ≠ [] → sendable (lit "EHLO " ++ helo) →
  converse step sk n s (mkConn b SmtpSession_new None) [cmd_line (lit "EHLO " ++ helo)] [ehlo_reply helo]
    s (mkConn b (greeted helo) None).
Proof.
  intros Ht Hne Hs. eapply converse_cons; [by apply cmd_line_wire| | |apply converse_nil]; [|done].
  intros p. rewrite step_command by done. unfold inbound_command.
  rewrite parse_crlf, SmtpCommand_parse_ehlo by done. unfold ehlo_reply. simpl. by destruct (srv_tls s && negb b).
Qed.

Lemma converse_other n se cmd command se' reply :
  sendable cmd → SmtpCommand_parse cmd = Ok command →
  (∀ d, command ≠ Helo d) → (∀ d, command ≠ Ehlo d) → (∀ r, command ≠ RcptTo r) → command ≠ StartTls → command ≠ Quit →
  smtp_handle se command = (se', reply) →
  converse step sk n s (mkConn b se None) [cmd_line cmd] [reply_wire reply]
    s (mkConn b se' (if code reply =? 354 then Some (with_max_size (srv_max_size s)) else None)).
Proof.
  intros Hs Hp H1 H2 H3 H4 H5 Hh. eapply converse_cons; [by apply cmd_line_wire| | |apply converse_nil]; [|done].
  intros p. rewrite step_command by done. unfold inbound_command. rewrite parse_crlf, Hp.
  assert (inbound_other s (mkConn b se None) command = mkStep s
    (mkConn b se' (if code reply =? 354 then Some (with_max_size (srv_max_size s)) else None)) (reply_wire reply) Continue) as E.
  { unfold inbound_other. simpl. rewrite Hh, bool_decide_false by done. done. }
  destruct command; try done; naive_solver.
Qed.

Definition rcpt_cmd (r : Mailbox) : str := lit "RCPT TO:<" ++ Mailbox_to_string r ++ lit ">".
Definition ok_reply : bytes := reply_wire (mkReply 250 (lit "OK")).
Lemma converse_rcpts helo from : srv_greylist s = None → ∀ rs n rs0 ph,
  ph = Sender ∨ ph = Recipients → rs ≠ [] → len (rs0 ++ rs) ≤ DEFAULT_MAX_RECIPIENTS →
  Forall (λ r, server_is_local s r = true ∧ relayable r ∧ sendable (rcpt_cmd r)) rs →
  converse step sk n s (mkConn b (mkSession ph (Some helo) from rs0 DEFAULT_MAX_RECIPIENTS) None)
    (cmd_line <$> (rcpt_cmd <$> rs)) (replicate (length rs) ok_reply)
    s (mkConn b (mkSession Recipients (Some helo) from (rs0 ++ rs) DEFAULT_MAX_RECIPIENTS) None).
Proof.
  intros Hg. induction rs as [|r rs IH]; intros n rs0 ph Hph Hne Hlen HF; [done|].
  apply Forall_cons in HF as [(Hl & Hr & Hs) HF]. cbn [fmap list_fmap length replicate].
  eapply converse_cons with (c1 := mkConn b (mkSession Recipients (Some helo) from (rs0 ++ [r]) DEFAULT_MAX_RECIPIENTS) None).
  - by apply cmd_line_wire.
  - intros p. rewrite step_command by done. unfold inbound_command.
    rewrite parse_crlf. unfold rcpt_cmd. rewrite SmtpCommand_parse_rcpt by done. rewrite Hl. cbn [negb].
    unfold greylisted. rewrite Hg. unfold inbound_other. cbn [c_session].
    assert (smtp_handle (mkSession ph (Some helo) from rs0 DEFAULT_MAX_RECIPIENTS) (RcptTo r) =
      (mkSession Recipients (Some helo) from (rs0 ++ [r]) DEFAULT_MAX_RECIPIENTS, mkReply 250 (lit "OK"))) as ->; [|done].
    autorewrite with len in Hlen. pose proof (len_nonneg rs). unfold smtp_handle.
    destruct Hph as [->| ->]; cbn [phase max_recipients recipients]; by rewrite (proj2 (Z.leb_gt _ _)) by lia.
  - done.
  - destruct rs as [|r' rs]; [constructor|].
    replace (rs0 ++ r :: r' :: rs) with ((rs0 ++ [r]) ++ r' :: rs) by by rewrite <-app_assoc.
    apply IH; [by right|done| |done]. by rewrite <-app_assoc.
Qed.

(** ** The data *)

Lemma converse_segments se max segs : ∀ n body,
  Forall (λ x, LF ∉ x ∧ len x + 3 ≤ MAX_LINE_LENGTH) segs → len body + len (segs ≫= λ x, x ++ CRLF) ≤ max →
  converse step sk n s (mkConn b se (Some (mkCollector body false true max false)))
    ((λ x, stuff_line x ++ CRLF) <$> segs) (replicate (length segs) [])
    s (mkConn b se (Some (mkCollector (body ++ (segs ≫= λ x, x ++ CRLF)) false true max false))).
Proof.
  induction segs as [|x segs IH]; intros n body HF Hlen; [simpl; rewrite app_nil_r; constructor|].
  apply Forall_cons in HF as [[Hlf Hx] HF]. rewrite bind_cons in *. autorewrite with len in Hlen.
  pose proof (len_nonneg (segs ≫= λ x, x ++ CRLF)). cbn [fmap list_fmap length replicate].
  eapply converse_cons with (c1 := mkConn b se (Some (mkCollector (body ++ x ++ CRLF) false true max false))).
  - split.
    + exists (stuff_line x ++ [CR]). rewrite <-app_assoc. split; [done|].
      unfold stuff_line. case_bool_decide; set_solver by done.
    + unfold stuff_line. autorewrite with len. case_bool_decide; simpl; unfold len at 1; simpl; lia.
  - intros p. unfold inbound_step. cbn [c_collecting].
    rewrite push_line_stuffed by (done || (simpl; lia)). done.
  - done.
  - rewrite app_assoc, app_assoc, <-(app_assoc body). apply IH; [done|]. autorewrite with len. lia.
Qed.

(** ** A whole transaction *)

Definition mail_cmd (m : Message) : str :=
  lit "MAIL FROM:<" ++ from_option Mailbox_to_string [] (env_sender (msg_envelope m)) ++ lit ">".

(** The message can be handed to this receiver: the command lines it takes fit the wire,
    every recipient is hosted there and none of them is greylisted, the body has no bare
    line feed and no line beyond the reader's limit, and it fits the size limit. *)
Record deliverable (helo : str) (m : Message) : Prop := {
  dl_helo : trimmed helo ∧ helo ≠ [] ∧ sendable (lit "EHLO " ++ helo);
  dl_sender : (∀ f, env_sender (msg_envelope m) = Some f → relayable f) ∧ sendable (mail_cmd m);
  dl_rcpts : Forall (λ r, server_is_local s r = true ∧ relayable r ∧ sendable (rcpt_cmd r)) (env_recipients (msg_envelope m));
  dl_some : env_recipients (msg_envelope m) ≠ [];
  dl_few : len (env_recipients (msg_envelope m)) ≤ DEFAULT_MAX_RECIPIENTS;
  dl_grey : srv_greylist s = None;
  dl_lines : Forall (λ x, LF ∉ x ∧ len x + 3 ≤ MAX_LINE_LENGTH) (crlf_split (Message_to_bytes m));
  dl_size : len (Message_to_bytes m) + 2 ≤ srv_max_size s }.

Definition data_reply : bytes := reply_wire (mkReply 354 (lit "Start mail input; end with <CRLF>.<CRLF>")).
Definition mail_lines (m : Message) : list bytes :=
  [cmd_line (mail_cmd m)] ++ (cmd_line <$> (rcpt_cmd <$> env_recipients (msg_envelope m))) ++ [cmd_line (lit "DATA")] ++
  ((λ x, stuff_line x ++ CRLF) <$> crlf_split (Message_to_bytes m)) ++ [EOD_LINE].
Definition mail_replies (m : Message) (final : bytes) : list bytes :=
  [ok_reply] ++ replicate (length (env_recipients (msg_envelope m))) ok_reply ++ [data_reply] ++
  replicate (length (crlf_split (Message_to_bytes m))) [] ++ [final].
(** What the receiver has collected. *)
Definition collected (m : Message) : InboundCollector :=
  mkCollector (Message_to_bytes m ++ CRLF) true true (srv_max_size s) false.

Lemma deliver_total now tls helo env col : ∃ s' reply, deliver now s tls helo env col = Some (s', reply).
Proof.
  unfold inbound_deliver. destruct (into_message col env); [|by eexists _, _].
  destruct (rfc5322_date_total now) as [date Hdate]. unfold stamp_inbound, received_header. rewrite Hdate.
  repeat case_match; by eexists _, _.
Qed.

Lemma converse_mail n helo m :
  deliverable helo m →
  ∃ t s' final,
    deliver t s b helo (msg_envelope m) (collected m) = Some (s', final) ∧
    converse step sk n s (mkConn b (greeted helo) None) (mail_lines m) (mail_replies m final)
      s' (mkConn b (greeted helo) None).
Proof.
  intros [_ [Hfrom Hmail] Hrc Hne Hfew Hg Hlines Hsize].
  set (k := (length (crlf_split (Message_to_bytes m)) + (1 + (length (cmd_line <$> (rcpt_cmd <$> env_recipients (msg_envelope m))) + (1 + n))))%nat).
  destruct (deliver_total (so_clock sk k) b helo (msg_envelope m) (collected m)) as (s' & final & Hd).
  exists (so_clock sk k), s', final. split; [done|].
  destruct m as [[from rs] hs bd rh]. unfold mail_lines, mail_replies, k in *. clear k. set (m := mkMessage _ _ _ _) in *.
  cbn [msg_envelope env_sender env_recipients] in *.
  eapply converse_app; [|eapply converse_app; [|eapply converse_app; [|eapply converse_app]]].
  - apply (converse_other n (greeted helo) (mail_cmd m) (MailFrom from)
      (mkSession Sender (Some helo) from [] DEFAULT_MAX_RECIPIENTS) (mkReply 250 (lit "OK"))); try done.
    by apply SmtpCommand_parse_mail.
  - by apply converse_rcpts; auto.
  - apply (converse_other _ (mkSession Recipients (Some helo) from ([] ++ rs) DEFAULT_MAX_RECIPIENTS) (lit "DATA") Data
      (mkSession DataPhase (Some helo) from rs DEFAULT_MAX_RECIPIENTS) (mkReply 354 (lit "Start mail input; end with <CRLF>.<CRLF>"))); try done.
    apply sendable_check. by vm_compute.
  - apply converse_segments; [done|]. rewrite join_crlf, crlf_split_join by apply crlf_split_nonempty.
    autorewrite with len. lia.
  - simpl. rewrite join_crlf, crlf_split_join by apply crlf_split_nonempty.
    eapply converse_cons with (s1 := s') (c1 := mkConn b (greeted helo) None); [| |done|apply converse_nil].
    + split; [|by vm_compute]. exists [DOT; CR]. split; [done|]. apply (bool_decide_eq_false (LF ∈ [DOT; CR])). by vm_compute.
    + intros p. rewrite length_fmap. unfold inbound_step. cbn [c_collecting c_session c_tls].
      assert (push_line (mkCollector (Message_to_bytes m ++ CRLF) false true (srv_max_size s) false) EOD_LINE = (collected m, true)) as -> by done.
      cbn [collected ic_size_exceeded]. unfold take_envelope. cbn [recipients]. rewrite bool_decide_false by done.
      match type of Hd with ?d = _ =>
        change (match d with
                | Some (s', reply) => mkStep s' (mkConn b (greeted helo) None) reply Continue
                | None => mkStep s (mkConn b (greeted helo) None) [] Panic
                end = mkStep s' (mkConn b (greeted helo) None) final Continue)
      end. by rewrite Hd.
Qed.
End receiver.

(** ** Replies as the client reads them *)

Lemma split_at_byte_ascii a t : Forall (λ c, c < 128) a → split_at_byte (len a) (a ++ t) = Some (a, t).
Proof.
  induction 1 as [|c a Hc _ IH]; [by destruct t|]. pose proof (len_nonneg a). autorewrite with len.
  cbn [split_at_byte app]. rewrite (proj2 (Z.eqb_neq (1 + len a) 0)) by lia.
  assert (len (utf8_char c) = 1) as ->. { unfold utf8_char. by rewrite (proj2 (Z.ltb_lt c 128)). }
  rewrite (proj2 (Z.ltb_ge (1 + len a) 1)) by lia. replace (1 + len a - 1) with (len a) by lia. by rewrite IH.
Qed.

Lemma trim_end_crlf_line x : one_line x → trim_end_crlf (x ++ CRLF) = x.
Proof.
  intros [Hcr Hlf]. replace (trim_end_crlf (x ++ CRLF)) with (trim_end_crlf x).
  - destruct x as [|y x _] using rev_ind; [done|]. apply trim_end_crlf_id.
    apply orb_false_iff. split; apply Z.eqb_neq; set_solver.
  - unfold trim_end_crlf, drop_while_end. by rewrite reverse_app.
Qed.

Lemma Forall_check (f : Z → bool) s : forallb f s = true → Forall (λ c, f c = true) s.
Proof. rewrite forallb_forall. intros H. apply Forall_forall. intros c Hin%list_elem_of_In. by apply H. Qed.
Ltac literal :=
  match goal with
  | |- Forall _ (lit _) => apply Forall_check; by vm_compute
  | |- one_line (lit _) => one_line_lit
  | |- _ => done
  end.

Section replies.
Context (debug_str : str → str).
#[local] Notation read texts w := (read_reply_loop debug_str texts (split_inclusive_lf w) None).

(** One line of a reply: three digits, a separator and text. *)
Lemma read_reply_line texts d sep t rest c :
  len d = 3 → Forall (λ c, is_ascii_digit c = true) d → parse_uint U16_MAX d = Some c →
  sep = SP ∨ sep = 45 → Forall (λ c, is_char c = true) t → one_line t →
  read texts (utf8_encode (d ++ [sep] ++ t ++ CRLF) ++ rest) =
  if sep =? 45 then read (texts ++ [t]) rest else (Ok (c, texts ++ [t]), split_inclusive_lf rest).
Proof.
  intros Hd3 Hd Hc Hsep Ht Ho. set (x := d ++ [sep] ++ t).
  assert (Forall (λ c, c < 128) (d ++ [sep])) as Hasc.
  { apply Forall_app. split; [|destruct Hsep as [->| ->]; by repeat constructor].
    eapply Forall_impl; [exact Hd|]. unfold is_ascii_digit. simpl. lia. }
  assert (one_line x) as Hx.
  { unfold x. apply one_line_app. split; [by apply digits_one_line|]. apply one_line_app.
    split; [|done]. destruct Hsep as [->| ->]; split; set_solver by done. }
  assert (Forall (λ c, is_char c = true) (x ++ CRLF)) as Hchars.
  { unfold x. rewrite <-!app_assoc. repeat apply Forall_app_2; [| |done|by repeat constructor].
    - eapply Forall_impl; [exact Hd|]. unfold is_ascii_digit, is_char. simpl. lia.
    - destruct Hsep as [->| ->]; by repeat constructor. }
  replace (d ++ [sep] ++ t ++ CRLF) with (x ++ CRLF) by (unfold x; by rewrite <-!app_assoc).
  assert (split_inclusive_lf (utf8_encode (x ++ CRLF) ++ rest) = utf8_encode (x ++ CRLF) :: split_inclusive_lf rest) as ->.
  { rewrite utf8_encode_app. change (utf8_encode CRLF) with ([CR] ++ [LF]). rewrite app_assoc, <-app_assoc. cbn [app].
    rewrite split_inclusive_lf_app, split_inclusive_lf_one; [done|].
    apply utf8_encode_one_line in Hx as [_ Hx]. rewrite elem_of_app. set_solver by done. }
  cbn [read_reply_loop]. unfold reply_line. rewrite from_utf8_encode by done. cbn [ok_or].
  rewrite trim_end_crlf_line by done. unfold reply_code. unfold x. rewrite <-Hd3.
  rewrite split_at_byte_ascii by (by apply Forall_app in Hasc as [? _]). cbn [mbind option_bind]. rewrite Hc.
  replace 4 with (len (d ++ [sep])) by (autorewrite with len; lia).
  rewrite app_assoc, split_at_byte_ascii by done. cbn [from_option snd].
  rewrite utf8_encode_app, (utf8_encode_ascii (d ++ [sep])) by done.
  assert (length d = 3%nat) as Hl by (unfold len in Hd3; lia).
  rewrite <-app_assoc, lookup_app_r, Hl by lia. simpl.
  destruct Hsep as [->| ->]; done.
Qed.

(** The replies of a transaction. *)
Lemma accepts_line (check : Z → bool) cs d t rest c i :
  len d = 3 → Forall (λ c, is_ascii_digit c = true) d → parse_uint U16_MAX d = Some c →
  Forall (λ c, is_char c = true) t → one_line t → check c = true →
  accepts debug_str cs (incoming rest None) i →
  accepts debug_str (check :: cs) (incoming (utf8_encode (d ++ [SP] ++ t ++ CRLF) ++ rest) None) i.
Proof.
  intros. eapply accepts_cons; [|done|done]. unfold incoming at 1. cbn [in_lines in_end].
  by rewrite (read_reply_line _ d SP t rest c) by auto.
Qed.

Lemma accepts_ok_reply (check : Z → bool) cs rest i :
  check 250 = true → accepts debug_str cs (incoming rest None) i →
  accepts debug_str (check :: cs) (incoming (ok_reply ++ rest) None) i.
Proof.
  intros. apply (accepts_line check cs (lit "250") (lit "OK") rest 250); literal.
Qed.

Lemma accepts_mail helo m final rest :
  accepts debug_str (reply_ok <$> tl (commands (relay_script helo m)))
    (incoming (concat (mail_replies m final) ++ rest) None) (incoming (final ++ rest) None).
Proof.
  unfold mail_replies, relay_script. cbn [commands tl app concat]. rewrite fmap_cons, <-app_assoc. apply accepts_ok_reply; [done|].
  assert (∀ n, concat (replicate n ([] : bytes) ++ [final]) = final) as Hnil.
  { induction n; simpl; [by rewrite app_nil_r|done]. }
  rewrite concat_app, fmap_app, <-app_assoc. cbn [concat]. rewrite Hnil.
  induction (env_recipients (msg_envelope m)) as [|r rs IH]; cbn [length replicate concat fmap list_fmap app].
  - rewrite <-app_assoc.
    apply (accepts_line _ [] (lit "354") (lit "Start mail input; end with <CRLF>.<CRLF>") _ 354); [literal..|]. constructor.
  - rewrite <-app_assoc. by apply accepts_ok_reply.
Qed.
End replies.

(** ** The receiver's verdict *)

Definition accepted : bytes := wire (lit "250 OK message accepted").

Lemma prepend_header_bytes line m : Message_to_bytes (prepend_header line m) = line ++ CRLF ++ Message_to_bytes m.
Proof. unfold Message_to_bytes, prepend_header. cbn [msg_raw_head msg_body]. by rewrite <-!app_assoc. Qed.

Section verdict.
Context (evaluate_spf : IpAddr → str → str → SpfResult) (verify_dkim : bytes → list DkimOutcome).
Context (lookup_txt : str → option (list str)) (psl_domain : str → option str) (ip : IpAddr).
#[local] Notation deliver := (inbound_deliver evaluate_spf verify_dkim lookup_txt psl_domain ip).

(** The trace a server puts above a message it takes from the network at [now], written
    out: the Received line, the Received-SPF line if SPF was checked, and the results of
    the checks of that very message. *)
Definition trace_block (now : Z) (s : Server) (tls : bool) (helo : str) (m0 : Message) : option bytes :=
  let mail_from := mail_from_of (msg_envelope m0) in
  let spf := if srv_resolver s then Some (evaluate_spf ip helo mail_from) else None in
  let r := check_auth verify_dkim lookup_txt psl_domain now s helo mail_from spf m0 in
  line ← received_header helo (srv_helo s) (if tls then lit "ESMTPS" else lit "ESMTP") now;
  Some (line ++ CRLF ++
        match spf with
        | Some res => received_spf_header (SpfResult_as_str res) (srv_helo s) (ip_to_string ip) mail_from helo ++ CRLF
        | None => []
        end ++
        authentication_results_header (srv_helo s) spf mail_from (ar_dkim r) (DmarcResult_as_str <$> ar_dmarc r) (ar_from r) ++ CRLF).

(** The receiver has taken [m].  It read the bytes sent, which the framing ends with one
    line break, as [m0].  If the spam filter rejects [m0] no mailbox changes.  Otherwise
    every mailbox has what it had and, for each recipient with that address, one copy of
    [m0]: its bytes, below the trace. *)
Definition taken (s s' : Server) (tls : bool) (helo : str) (m : Message) : Prop :=
  ∃ now m0 trace,
    Message_parse (msg_envelope m) (Message_to_bytes m ++ CRLF) = Ok m0 ∧ trace_block now s tls helo m0 = Some trace ∧
    match scan SpamFilter_new m0 with
    | Reject => ∀ mb, mem_list (srv_store s') mb = mem_list (srv_store s) mb
    | _ => ∀ mb, ∃ new, mem_list (srv_store s') mb = mem_list (srv_store s) mb ++ new ∧
             length new = copies (env_recipients (msg_envelope m)) mb ∧
             Forall (λ sm, msg_envelope (sm_message sm) = msg_envelope m ∧ msg_headers (sm_message sm) = msg_headers m0 ∧
                           Message_to_bytes (sm_message sm) = trace ++ Message_to_bytes m ++ CRLF) new
    end.

(** Mail is taken, or refused for good with nothing stored. *)
Definition verdict (s s' : Server) (tls : bool) (helo : str) (m : Message) (final : bytes) : Prop :=
  (final = accepted ∧ taken s s' tls helo m) ∨
  (srv_store s' = srv_store s ∧ ∃ c t, final = wire (show c ++ [SP] ++ lit t) ∧ (c = 550 ∨ c = 554) ∧
     forallb is_char (lit t) && negb (contains_char CR (lit t)) && negb (contains_char LF (lit t)) = true).

Lemma stamp_inbound_trace now s (tls : bool) helo m0 m1 :
  let spf := if srv_resolver s then Some (evaluate_spf ip helo (mail_from_of (msg_envelope m0))) else None in
  let r := check_auth verify_dkim lookup_txt psl_domain now s helo (mail_from_of (msg_envelope m0)) spf m0 in
  stamp_inbound ip now s helo (if tls then lit "ESMTPS" else lit "ESMTP") (mail_from_of (msg_envelope m0)) r m0 = Some m1 →
  ∃ trace, trace_block now s tls helo m0 = Some trace ∧
    m1 = mkMessage (msg_envelope m0) (msg_headers m0) (msg_body m0) (trace ++ msg_raw_head m0).
Proof.
  cbv zeta. unfold stamp_inbound, trace_block. destruct (received_header _ _ _ _) as [line|]; cbn [mbind option_bind]; [|done].
  intros [= <-]. eexists. split; [done|]. unfold check_auth. cbn [ar_spf ar_dkim ar_dmarc ar_from].
  destruct (srv_resolver s); unfold prepend_header; cbn [msg_envelope msg_headers msg_body msg_raw_head];
    f_equal; by rewrite <-?app_assoc, ?app_nil_l.
Qed.

(** The filter looks at the fields and the body, which stamping leaves alone. *)
Lemma scan_fields m m' : msg_headers m' = msg_headers m → msg_body m' = msg_body m → scan SpamFilter_new m' = scan SpamFilter_new m.
Proof. intros Hh Hb. unfold scan, SpamFilter_filter, SpamFilter_scan, score, haystack, subject. by rewrite Hh, Hb. Qed.

Lemma filter_hosted s rs :
  Forall (λ r, server_is_local s r = true) rs → filter (λ r, lowercase (domain r) ∈ srv_domains s) rs = rs.
Proof.
  induction 1 as [|r rs Hr _ IH]; [done|]. rewrite filter_cons, decide_True, IH; [done|].
  revert Hr. unfold server_is_local, is_local, route. by case_bool_decide.
Qed.

Ltac refused c t := split; [done|]; exists c, t%string; split; [by vm_compute|split; [lia|by vm_compute]].
Lemma deliver_verdict now s tls helo m s' final :
  Forall (λ r, server_is_local s r = true) (env_recipients (msg_envelope m)) →
  deliver now s tls helo (msg_envelope m) (collected s m) = Some (s', final) → verdict s s' tls helo m final.
Proof.
  intros Hloc. unfold inbound_deliver, verdict.
  destruct (into_message (collected s m) (msg_envelope m)) as [m0|] eqn:Em.
  2: { intros [= <- <-]. right. refused 554 "message parse error". }
  unfold into_message in Em. pose proof Em as Em'. apply Message_parse_inv in Em as (Henv & Hh & Hb & _). cbn [collected ic_body] in Hh, Hb, Em'.
  assert (Message_to_bytes m0 = Message_to_bytes m ++ CRLF) as Hbytes.
  { unfold Message_to_bytes at 1. by rewrite Hh, Hb, take_drop. }
  pose proof Em' as Hraw.
  destruct (_ <=? _).
  { intros [= <- <-]. right. refused 554 "too many Received headers; possible mail loop". }
  destruct (bool_decide _ && _).
  { intros [= <- <-]. right. refused 550 "5.7.23 SPF validation failed". }
  set (r := check_auth _ _ _ _ _ _ _ _ _). destruct (fold_report_frame ip s r) as (Hd & _ & Hs & Hhelo & _).
  destruct (_ && _).
  { intros [= <- <-]. right. refused 550 "5.7.1 DMARC policy: message rejected". }
  destruct (stamp_inbound _ _ _ _ _ _ _ _) as [m1|] eqn:Est; simpl; [|done]. intros [= <- <-]. left. split; [done|].
  assert (stamp_inbound ip now s helo (if tls then lit "ESMTPS" else lit "ESMTP") (mail_from_of (msg_envelope m0)) r m0 = Some m1) as Est'.
  { rewrite Henv, <-Est. unfold stamp_inbound. by rewrite Hhelo. }
  unfold r in Est'. rewrite <-Henv in Est'. apply stamp_inbound_trace in Est' as (trace & Htr & ->).
  exists now, m0, trace. split_and!; [by rewrite <-Hraw|done|].
  destruct (server_accept_local now (fold_report ip s r) (mkMessage (msg_envelope m0) (msg_headers m0) (msg_body m0) (trace ++ msg_raw_head m0)) Forbidden)
    as [-> _]. rewrite Hd, Hs.
  pose proof (accept_inbound_spec_core (srv_domains s) (srv_store s) SpamFilter_new
    (mkMessage (msg_envelope m0) (msg_headers m0) (msg_body m0) (trace ++ msg_raw_head m0))) as H. cbv zeta in H.
  destruct (accept_inbound _ _ _ _) as [st' out]. destruct H as (_ & _ & Hbl & _ & Happ). cbn [msg_envelope] in *. rewrite Henv in *.
  rewrite filter_hosted in * by done. rewrite (scan_fields m0) in Happ by done. cbn [fst].
  assert (∀ mb n, appended (srv_store s) st' mb n
    (with_recipients (mkMessage (msg_envelope m) (msg_headers m0) (msg_body m0) (trace ++ msg_raw_head m0)) (env_recipients (msg_envelope m))) →
    ∃ new, mem_list st' mb = mem_list (srv_store s) mb ++ new ∧ length new = n ∧
      Forall (λ sm, msg_envelope (sm_message sm) = msg_envelope m ∧ msg_headers (sm_message sm) = msg_headers m0 ∧
        Message_to_bytes (sm_message sm) = trace ++ Message_to_bytes m ++ CRLF) new) as Hnew.
  { intros mb n (new & Hl & Hn). exists new. split; [exact Hl|]. split; [by rewrite <-(length_fmap sm_message), Hn, length_replicate|].
    apply Forall_forall. intros sm Hsm. assert (sm_message sm ∈ sm_message <$> new) as Hin by (by apply list_elem_of_fmap_2).
    rewrite Hn in Hin. apply elem_of_replicate in Hin as [-> _]. unfold with_recipients, Message_to_bytes. cbn [msg_envelope msg_headers msg_body msg_raw_head env_sender].
    split_and!; [by destruct (msg_envelope m)|done|]. rewrite <-app_assoc. f_equal. exact Hbytes. }
  destruct (scan SpamFilter_new m0).
  1,2: intros mb; apply Hnew, Happ.
  intros mb. destruct (Hnew mb 0%nat (Happ mb)) as (new & -> & Hl & _). apply length_zero_iff_nil in Hl as ->. apply app_nil_r.
Qed.
End verdict.

(** ** Both ends *)

(** The bytes of one channel. *)
Definition channel (tls : bool) (log : list (bool * bytes)) : bytes := concat (snd <$> filter (λ p, p.1 = tls) log).

Lemma channel_app tls a b : channel tls (a ++ b) = channel tls a ++ channel tls b.
Proof. unfold channel. by rewrite filter_app, fmap_app, concat_app. Qed.
Lemma channel_same tls ws : channel tls (on_channel tls ws) = concat ws.
Proof.
  unfold channel, on_channel. induction ws as [|w ws IH]; [done|].
  rewrite fmap_cons, filter_cons, decide_True by done. rewrite fmap_cons. cbn [concat snd]. by rewrite IH.
Qed.
Lemma channel_other tls tls' ws : tls ≠ tls' → channel tls (on_channel tls' ws) = [].
Proof.
  intros Hne. unfold channel, on_channel. induction ws as [|w ws IH]; [done|].
  rewrite fmap_cons, filter_cons, decide_False by (simpl; congruence). exact IH.
Qed.

(** A server as the client meets it, if this is what it sends. *)
Definition peer_of (log : list (bool * bytes)) : Peer :=
  mkPeer (Ok ()) (incoming (channel false log) None) false
    (λ _ _, Ok (incoming (channel true log) None)) (λ _, None) (λ _, None).
(** A client as the server meets it, if this is what it sends, in any pieces. *)
Definition client_of (plain tls : list bytes) (clock : nat → Z) : Socket :=
  mkSocket (mkStream plain false) (Some (mkStream tls false)) clock (λ _, true) (λ _ s, s).
Definition pieces (bs : bytes) (chunks : list bytes) : Prop := Forall (λ c, c ≠ []) chunks ∧ concat chunks = bs.

Definition quit_line : bytes := cmd_line (lit "QUIT").
Lemma ehlo_writes_bytes helo m : concat (ehlo_writes (relay_script helo m)) = cmd_line (lit "EHLO " ++ helo).
Proof. unfold ehlo_writes, line_writes. cbn [concat]. by rewrite app_nil_r. Qed.
Lemma mail_writes_bytes helo m : concat (mail_writes (relay_script helo m)) = concat (mail_lines m) ++ quit_line.
Proof.
  assert (∀ cmds, concat (cmds ≫= line_writes) = concat (cmd_line <$> cmds)) as Hc.
  { induction cmds as [|c cmds IH]; [done|]. rewrite bind_cons, concat_app, IH. unfold line_writes. cbn [concat].
    by rewrite app_nil_r. }
  unfold mail_writes, relay_script. cbn [commands tl data]. rewrite concat_app, Hc. cbn [concat app].
  unfold mail_lines, quit_line. cbn [tail app]. rewrite fmap_cons, fmap_app. change (lit "QUIT" ++ CRLF) with (cmd_line (lit "QUIT")).
  cbn [concat app].
  rewrite !concat_app. unfold dot_stuff. rewrite split_on_crlf_ref.
  assert (∀ xs : list bytes, (xs ≫= λ x, stuff_line x ++ CRLF) = concat ((λ x, stuff_line x ++ CRLF) <$> xs)) as ->.
  { induction xs as [|x xs IH]; [done|]. rewrite bind_cons, fmap_cons. cbn [concat]. by rewrite IH. }
  cbn [fmap list_fmap concat]. rewrite concat_app. cbn [concat]. rewrite !app_nil_r, <-!app_assoc. done.
Qed.

Section both.
Context (evaluate_spf : IpAddr → str → str → SpfResult) (verify_dkim : bytes → list DkimOutcome).
Context (lookup_txt : str → option (list str)) (psl_domain : str → option str) (ip : IpAddr).
#[local] Notation step := (inbound_step evaluate_spf verify_dkim lookup_txt psl_domain ip).
#[local] Notation deliver := (inbound_deliver evaluate_spf verify_dkim lookup_txt psl_domain ip).
Context (s : Server) (helo : str) (m : Message) (Hm : deliverable s helo m).

Definition bye : bytes := reply_wire (mkReply 221 (lit "Bye")).
Definition ehlo_line : bytes := cmd_line (lit "EHLO " ++ helo).

Lemma wire_lines_length ls : Forall wire_line ls → (length ls ≤ length (concat ls))%nat.
Proof.
  induction 1 as [|l ls [(a & -> & _) _] _ IH]; [done|]. cbn [length concat]. rewrite !length_app. simpl. lia.
Qed.
Lemma converse_wire sk n s0 c ls ws s' c' : converse step sk n s0 c ls ws s' c' → Forall wire_line ls.
Proof. induction 1; by constructor. Qed.

Lemma channel_run sk fuel n b chunks tls log :
  (∀ n s, so_others sk n s = s) → (∀ n, so_writes sk n = true) →
  pieces (ehlo_line ++ concat (mail_lines m) ++ quit_line) chunks → (length (concat chunks) < fuel)%nat →
  ∃ t s' final, deliver t s b helo (msg_envelope m) (collected s m) = Some (s', final) ∧
    serve_loop step smtp_too_long fuel n sk (mkStream chunks false) tls s (mkConn b SmtpSession_new None) log =
    Some (mkServed s' (log ++ on_channel b (ehlo_reply s b helo :: mail_replies m final ++ [bye])) Closed).
Proof.
  intros Hq Hw [Hne Hc] Hfuel. destruct Hm as [(Ht & Hh & Hs) _ _ _ _ _ _ _].
  pose proof (converse_ehlo evaluate_spf verify_dkim lookup_txt psl_domain ip sk s b n helo Ht Hh Hs) as He.
  destruct (converse_mail evaluate_spf verify_dkim lookup_txt psl_domain ip sk s b (1 + n) helo m Hm) as (t & s' & final & Hd & Hcv).
  pose proof (converse_app _ _ _ _ _ _ _ _ _ _ _ _ _ He Hcv) as Hall. exists t, s', final. split; [done|].
  assert (sendable (lit "QUIT")) as Hquit by (apply sendable_check; by vm_compute).
  pose proof (wire_lines_length _ (converse_wire _ _ _ _ _ _ _ _ Hall)) as Hlen.
  set (ls := [cmd_line (lit "EHLO " ++ helo)] ++ mail_lines m) in *.
  assert (concat chunks = concat ls ++ quit_line) as Hc'.
  { rewrite Hc. unfold ls, ehlo_line. cbn [concat app]. by rewrite <-app_assoc. }
  assert (∃ f, fuel = length ls + Datatypes.S f)%nat as [f ->].
  { rewrite Hc', length_app in Hfuel. exists (fuel - length ls - 1)%nat. lia. }
  destruct (serve_converse _ smtp_too_long sk Hq Hw _ _ _ _ _ _ _ Hall (Datatypes.S f) chunks tls log quit_line Hne Hc')
    as (r1 & Hr1 & Hcr & ->). cbn [c_tls].
  destruct (serve_line step smtp_too_long sk Hq Hw f (length ls + n) r1 tls s' (mkConn b (greeted helo) None)
    (log ++ on_channel b ([ehlo_reply s b helo] ++ mail_replies m final)) quit_line []) as (r2 & p & _ & _ & _ & ->);
    [by apply cmd_line_wire|done|by rewrite app_nil_r|].
  unfold quit_line. rewrite step_command by done. unfold inbound_command. rewrite parse_crlf.
  change (SmtpCommand_parse (lit "QUIT")) with (Ok (E := MailError) Quit). unfold inbound_other. cbn [c_session].
  change (smtp_handle (greeted helo) Quit) with (set_phase Smtp.Closed (greeted helo), mkReply 221 (lit "Bye")).
  rewrite bool_decide_true by done. cbn [st_next st_server st_wire c_tls]. rewrite <-app_assoc. do 2 f_equal.
  change (ehlo_reply s b helo :: mail_replies m final ++ [bye]) with (([ehlo_reply s b helo] ++ mail_replies m final) ++ [bye]).
  by rewrite (on_channel_app _ _ [bye]).
Qed.

(** ** Reading the replies *)

Context (debug_str : str → str).
#[local] Notation read w := (read_reply_loop debug_str [] (split_inclusive_lf w) None).

Definition capabilities (b : bool) : list str :=
  (lit "Hello " ++ helo) :: (if srv_tls s && negb b then [lit "STARTTLS"] else []).

Lemma helo_text : Forall (λ c, is_char c = true) (lit "Hello " ++ helo) ∧ one_line (lit "Hello " ++ helo).
Proof.
  destruct Hm as [(_ & _ & Hc & Ho & _) _ _ _ _ _ _ _]. apply Forall_app in Hc as [_ Hc]. apply one_line_app in Ho as [_ Ho].
  split; [apply Forall_app; split; [literal|done]|apply one_line_app; split; [literal|done]].
Qed.

Lemma read_ehlo b rest : read (ehlo_reply s b helo ++ rest) = (Ok (250, capabilities b), split_inclusive_lf rest).
Proof.
  destruct helo_text as [Hc Ho]. unfold ehlo_reply, capabilities. destruct (srv_tls s && negb b).
  - unfold wire. change (lit "250-") with (lit "250" ++ [45]). rewrite <-!app_assoc.
    rewrite (app_assoc (lit "Hello ")), (app_assoc _ CRLF), (app_assoc [45]), (app_assoc (lit "250")), utf8_encode_app, <-app_assoc.
    rewrite (read_reply_line debug_str [] (lit "250") 45 (lit "Hello " ++ helo) _ 250) by (auto || literal). cbn [Z.eqb Pos.eqb].
    change (utf8_encode (lit "250 STARTTLS" ++ CRLF)) with (utf8_encode (lit "250" ++ [SP] ++ lit "STARTTLS" ++ CRLF)).
    by rewrite (read_reply_line debug_str _ (lit "250") SP (lit "STARTTLS") rest 250) by (auto || literal).
  - unfold reply_wire, to_wire. cbn [code text]. change (show 250) with (lit "250").
    by rewrite (read_reply_line debug_str [] (lit "250") SP (lit "Hello " ++ helo) rest 250) by (auto || literal).
Qed.

Lemma read_greeting rest : read (smtp_greeting ++ rest) = (Ok (220, [lit "Snail ESMTP ready"]), split_inclusive_lf rest).
Proof.
  change smtp_greeting with (utf8_encode (lit "220" ++ [SP] ++ lit "Snail ESMTP ready" ++ CRLF)).
  by rewrite (read_reply_line debug_str [] (lit "220") SP (lit "Snail ESMTP ready") rest 220) by (auto || literal).
Qed.

Lemma capabilities_starttls b : advertises_starttls (capabilities b) = srv_tls s && negb b.
Proof.
  unfold advertises_starttls, capabilities. cbn [existsb].
  assert (∃ ws, split_whitespace (lit "Hello " ++ helo) = lit "Hello" :: ws) as [ws ->].
  { unfold split_whitespace. change (lit "Hello ") with (lit "Hello" ++ [SP]). rewrite <-app_assoc. cbn [app].
    rewrite split_on_app by done. change (split_on is_whitespace (lit "Hello")) with [lit "Hello"]. cbn [app].
    rewrite filter_cons, decide_True by done. by eexists. }
  change (eq_ignore_case (lit "Hello") (lit "STARTTLS")) with false. by destruct (srv_tls s && negb b).
Qed.

(** The final reply, as the client reads it: what it means at the receiver. *)
Definition custody (tls : bool) (s' : Server) (report : RelayReport) : Prop :=
  match report with
  | RelayDelivered => taken evaluate_spf verify_dkim lookup_txt psl_domain ip s s' tls helo m
  | RelayFailed _ => srv_store s' = srv_store s
  | RelayDeferred _ _ => False
  end.

Lemma read_final b s' final rest :
  verdict evaluate_spf verify_dkim lookup_txt psl_domain ip s s' b helo m final →
  ∃ code text ls, read (final ++ rest) = (Ok (code, text), ls) ∧ custody b s' (report_of code text).
Proof.
  intros [[-> Hst]|[Hst (c & t & -> & Hc & Ht)]].
  - exists 250, [lit "OK message accepted"], (split_inclusive_lf rest). split; [|exact Hst].
    change accepted with (utf8_encode (lit "250" ++ [SP] ++ lit "OK message accepted" ++ CRLF)).
    by rewrite (read_reply_line debug_str [] (lit "250") SP (lit "OK message accepted") rest 250) by (auto || literal).
  - exists c, [lit t], (split_inclusive_lf rest). rewrite !andb_true_iff in Ht. destruct Ht as [[Ht Hcr] Hlf].
    unfold contains_char in *. bsimp. split; [|destruct Hc as [->| ->]; exact Hst].
    unfold wire. rewrite <-!app_assoc.
    rewrite (read_reply_line debug_str [] (show c) SP (lit t) rest c); [done|..|by apply Forall_check|done];
      destruct Hc as [->| ->]; try (by vm_compute); try (apply Forall_check; by vm_compute); by left.
Qed.

Lemma incoming_read w : in_lines (incoming w None) = split_inclusive_lf w ∧ in_end (incoming w None) = None.
Proof. done. Qed.

Lemma accepts_greeting cs rest i :
  accepts debug_str cs (incoming rest None) i →
  accepts debug_str (ok_range 200 400 :: cs) (incoming (smtp_greeting ++ rest) None) i.
Proof. intros. eapply accepts_cons; [apply read_greeting|done|done]. Qed.
Lemma accepts_ehlo b cs rest i :
  accepts debug_str cs (incoming rest None) i →
  accepts debug_str (ok_range 200 300 :: cs) (incoming (ehlo_reply s b helo ++ rest) None) i.
Proof. intros. eapply accepts_cons; [apply read_ehlo|done|done]. Qed.

Lemma upgrades_peer policy log rest :
  channel false log = smtp_greeting ++ ehlo_reply s false helo ++ rest →
  upgrades debug_str (peer_of log) policy = srv_tls s && bool_decide (is_Some (policy_config policy)).
Proof.
  intros Hl. unfold upgrades, capabilities_of. cbn [peer_of peer_plain]. rewrite Hl. cbn [incoming in_lines in_end].
  rewrite read_greeting, read_ehlo, capabilities_starttls. rewrite andb_true_r.
  by destruct (policy_config policy), (srv_tls s).
Qed.

Context (addr server_name : str) (policy : TlsPolicy) (plain tls : list bytes) (clock : nat → Z).
Context (Hmand : is_mandatory policy = true → srv_tls s = true).
#[local] Notation up := (srv_tls s && bool_decide (is_Some (policy_config policy))).
#[local] Notation script := (relay_script helo m).
#[local] Notation inbound := (serve_inbound evaluate_spf verify_dkim lookup_txt psl_domain ip).
Definition agreement : Prop :=
  ∃ s' log report,
    inbound (client_of plain tls clock) s = Some (mkServed s' log Closed) ∧
    relay_to debug_str (peer_of log) addr server_name helo m policy = (Ok report, transcript up script) ∧
    custody up s' report.

Lemma channel_clear : channel false (transcript false script) = ehlo_line ++ concat (mail_lines m) ++ quit_line.
Proof.
  unfold transcript. by rewrite channel_app, !channel_same, ehlo_writes_bytes, mail_writes_bytes.
Qed.

Lemma agreement_clear : up = false → pieces (channel false (transcript false script)) plain → agreement.
Proof.
  intros Hup Hp. rewrite channel_clear in Hp.
  destruct (channel_run (client_of plain tls clock) (serve_fuel (client_of plain tls clock)) 1 false plain
    (Some (mkStream tls false)) [(false, smtp_greeting)]) as (t & s' & final & Hd & Hrun); try done.
  { unfold serve_fuel, stream_size. cbn. lia. }
  set (log := _ ++ _) in Hrun. exists s', log.
  assert (channel false log = smtp_greeting ++ ehlo_reply s false helo ++ concat (mail_replies m final) ++ bye) as Hlog.
  { unfold log. rewrite channel_app, channel_same. cbn [concat]. rewrite concat_app. cbn [concat]. by rewrite app_nil_r. }
  pose proof (deliver_verdict _ _ _ _ _ _ _ _ _ _ _ _ ltac:(eapply Forall_impl; [apply Hm|]; naive_solver) Hd) as Hv.
  destruct (read_final _ s' final bye Hv) as (c & txt & ls & Hr & Hcust). exists (report_of c txt). rewrite Hup.
  split_and!; [done| |done].
  destruct (dialog_reports_plain debug_str (peer_of log) ltac:(done) ltac:(done) server_name script policy
    (incoming (concat (mail_replies m final) ++ bye) None) (incoming (final ++ bye) None) c txt ls) as (l & E & Hl).
  - cbn [peer_of peer_plain]. rewrite Hlog. apply accepts_greeting, accepts_ehlo. constructor.
  - apply accepts_mail.
  - exact Hr.
  - by rewrite (upgrades_peer policy log _ Hlog).
  - destruct (is_mandatory policy) eqn:Em; [|done]. rewrite (Hmand eq_refl) in Hup.
    by destruct policy.
  - unfold relay_to. cbn [peer_of peer_connect]. fold (peer_of log). by rewrite E, Hl.
Qed.

Definition starttls_line : bytes := cmd_line (lit "STARTTLS").
Definition ready : bytes := wire (lit "220 Ready to start TLS").

Lemma channel_upgrade :
  channel false (transcript true script) = ehlo_line ++ starttls_line ∧
  channel true (transcript true script) = ehlo_line ++ concat (mail_lines m) ++ quit_line.
Proof.
  unfold transcript. rewrite !channel_app, !channel_same, !channel_other, !concat_app by done.
  rewrite ehlo_writes_bytes, mail_writes_bytes. done.
Qed.

Lemma starttls_run sk fuel chunks log :
  (∀ n s, so_others sk n s = s) → (∀ n, so_writes sk n = true) → srv_tls s = true →
  pieces (ehlo_line ++ starttls_line) chunks →
  serve_loop step smtp_too_long (2 + fuel) 1 sk (mkStream chunks false) (Some (mkStream tls false)) s
    (mkConn false SmtpSession_new None) log =
  serve_loop step smtp_too_long fuel 3 sk (mkStream tls false) None s (mkConn true SmtpSession_new None)
    (log ++ on_channel false [ehlo_reply s false helo; ready]).
Proof.
  intros Hq Hw Ht [Hne Hc]. destruct Hm as [(Htr & Hh & Hs) _ _ _ _ _ _ _].
  pose proof (converse_ehlo evaluate_spf verify_dkim lookup_txt psl_domain ip sk s false 1 helo Htr Hh Hs) as He.
  destruct (serve_converse _ smtp_too_long sk Hq Hw _ _ _ _ _ _ _ He (1 + fuel) chunks (Some (mkStream tls false)) log starttls_line Hne)
    as (r1 & Hr1 & Hcr & E); [cbn [concat]; by rewrite app_nil_r|].
  cbn [length Nat.add] in E. cbn [Nat.add]. rewrite E. cbn [c_tls].
  destruct (serve_line step smtp_too_long sk Hq Hw fuel 2 r1 (Some (mkStream tls false)) s (mkConn false (greeted helo) None)
    (log ++ on_channel false [ehlo_reply s false helo]) starttls_line []) as (r2 & p & _ & _ & Hp & ->);
    [apply cmd_line_wire, sendable_check; by vm_compute|done|by rewrite app_nil_r|].
  rewrite (Hp eq_refl). unfold starttls_line. rewrite step_command by (apply sendable_check; by vm_compute).
  unfold inbound_command. rewrite parse_crlf. change (SmtpCommand_parse (lit "STARTTLS")) with (Ok (E := MailError) StartTls).
  cbn [c_tls c_session]. rewrite Ht. cbn [andb negb].
  change (smtp_handle (greeted helo) StartTls) with (greeted helo, mkReply 220 (lit "Ready to start TLS")).
  cbn [code Z.eqb Pos.eqb negb st_next st_conn st_server st_wire c_tls c_collecting andb]. by rewrite <-app_assoc.
Qed.

Lemma agreement_tls :
  up = true → pieces (channel false (transcript true script)) plain → pieces (channel true (transcript true script)) tls → agreement.
Proof.
  intros Hup Hp Ht. destruct channel_upgrade as [Hcf Hct]. rewrite Hcf in Hp. rewrite Hct in Ht. pose proof Hup as Hup'.
  apply andb_true_iff in Hup' as [Htls (config & Hpc)%bool_decide_eq_true]. set (sk := client_of plain tls clock).
  assert (∃ f, serve_fuel sk = 2 + f ∧ length (concat tls) < f)%nat as (f & Hf & Hlt).
  { exists (serve_fuel sk - 2)%nat. unfold serve_fuel, stream_size. cbn. destruct Hp as [_ ->]. unfold ehlo_line, starttls_line, cmd_line.
    rewrite !length_app. cbn. lia. }
  pose proof (starttls_run sk f plain [(false, smtp_greeting)] ltac:(done) ltac:(done) Htls Hp) as Hrun1.
  destruct (channel_run sk f 3 true tls None ([(false, smtp_greeting)] ++ on_channel false [ehlo_reply s false helo; ready]))
    as (t & s' & final & Hd & Hrun); try done.
  rewrite <-Hrun1, <-Hf in Hrun. set (log := _ ++ on_channel true _) in Hrun. exists s', log.
  assert (channel false log = smtp_greeting ++ ehlo_reply s false helo ++ ready) as Hlog.
  { unfold log. rewrite !channel_app, channel_same, channel_other by done. cbn [concat]. by rewrite !app_nil_r. }
  assert (channel true log = ehlo_reply s true helo ++ concat (mail_replies m final) ++ bye) as Hlogt.
  { unfold log. rewrite !channel_app, channel_same, channel_other by done. cbn [concat]. rewrite concat_app. cbn [concat]. by rewrite app_nil_r. }
  pose proof (deliver_verdict _ _ _ _ _ _ _ _ _ _ _ _ ltac:(eapply Forall_impl; [apply Hm|]; naive_solver) Hd) as Hv.
  destruct (read_final _ s' final bye Hv) as (c & txt & ls & Hr & Hcust). exists (report_of c txt). rewrite Hup.
  split_and!; [done| |done].
  destruct (dialog_reports_tls debug_str (peer_of log) ltac:(done) ltac:(done) server_name script policy config
    (incoming [] None) (incoming (channel true log) None) (incoming (final ++ bye) None) c txt ls) as (l & E & Hl); try done.
  - cbn [peer_of peer_plain]. rewrite Hlog. apply accepts_greeting, accepts_ehlo. rewrite <-(app_nil_r ready).
    apply (accepts_line debug_str _ [] (lit "220") (lit "Ready to start TLS") _ 220); [literal..|]. constructor.
  - by rewrite (upgrades_peer policy log _ Hlog).
  - rewrite Hlogt. apply accepts_ehlo, accepts_mail.
  - unfold relay_to. cbn [peer_of peer_connect]. fold (peer_of log). by rewrite E, Hl.
Qed.

Lemma custody_core :
  pieces (channel false (transcript up script)) plain → pieces (channel true (transcript up script)) tls → agreement.
Proof. destruct up eqn:E; [by apply agreement_tls|]. intros Hp _. by apply agreement_clear. Qed.

(** C4: sender and receiver agree.  One server's relay client talks to another's inbound
    listener, in clear or upgraded to TLS as the client's policy and the server's offer
    decide; the bytes each reads are the bytes the other writes, cut into reads in any
    way.  For a message the receiver can take, both ends finish: the client has written
    its whole transcript, the listener has closed, and the client's report is what
    happened at the receiver.  A report of delivery means that the receiver read the
    message as sent and, unless its spam filter rejects that very message, put one copy for
    each recipient into the recipient's mailbox, after what was there: the bytes sent,
    below exactly the trace block of its checks; if the filter rejects it no mailbox
    changed.  A report of failure means that nothing was stored, and a deferral, after
    which the message would be sent again, does not occur. *)
Theorem relay_custody :
  pieces (channel false (transcript up script)) plain → pieces (channel true (transcript up script)) tls → agreement.
Proof. apply custody_core. Qed.
End both.

(** Mail from one server to another that offers STARTTLS. *)
Definition mx_server : Server :=
  mkServer MemoryMailStore_new {[lit "local.org"]} true (lit "mx.local.org") None ThrottleConfig_default ∅ 1000 false false false ∅ None.
Definition letter : Message :=
  mkMessage (mkEnvelope (Some (mkMailbox (lit "a") (lit "a.org"))) [mkMailbox (lit "u") (lit "local.org")])
    [(lit "Subject", lit "hi")] (lit "body") (lit "Subject: hi" ++ CRLF ++ CRLF).
Definition opportunistic : TlsPolicy := TlsOpportunistic OpportunisticClient.
Definition letter_wire (tls : bool) : list bytes := [channel tls (transcript true (relay_script (lit "mx.a.org") letter))].

Lemma letter_deliverable : deliverable mx_server (lit "mx.a.org") letter.
Proof.
  split.
  - split_and!; [apply trimmedb_true; by vm_compute|done|apply sendable_check; by vm_compute].
  - split; [|apply sendable_check; by vm_compute]. intros f [= <-]. apply relayable_check. by vm_compute.
  - apply Forall_cons. split; [|done]. split; [by vm_compute|].
    split; [apply relayable_check; by vm_compute|apply sendable_check; by vm_compute].
  - done.
  - by vm_compute.
  - done.
  - repeat (apply Forall_cons; split; [split; [apply (bool_decide_eq_false (LF ∈ _)); by vm_compute|by vm_compute]|]). done.
  - by vm_compute.
Qed.

Lemma relay_custody_witness :
  agreement no_spf no_dkim demo_txt demo_psl (V4 1) mx_server (lit "mx.a.org") letter (λ x, x) (lit "192.0.2.1:25") (lit "mx.local.org")
    opportunistic (letter_wire false) (letter_wire true) (λ n, secs (1700000000 + Z.of_nat n)).
Proof.
  apply (relay_custody no_spf no_dkim demo_txt demo_psl (V4 1) mx_server (lit "mx.a.org") letter letter_deliverable).
  - done.
  - split; [by apply Forall_singleton|]. apply app_nil_r.
  - split; [by apply Forall_singleton|]. apply app_nil_r.
Defined.

(** ** Acknowledged and dropped *)

Definition spam_lines : list bytes :=
  line_of <$> [lit "EHLO x"; lit "MAIL FROM:<a@b.org>"; lit "RCPT TO:<u@local.org>"; lit "DATA"; lit "Subject: you have won";
               []; lit "free money"; lit "."; lit "QUIT"].
(** The replies end with the acceptance and the goodbye, and the store is as it was. *)
Theorem spam_acknowledged_dropped :
  ∃ v, serve_inbound no_spf no_dkim demo_txt demo_psl (V4 1) (quiet_socket (mkStream spam_lines false)) demo_server = Some v ∧
    (∃ before, channel false (sv_log v) = before ++ accepted ++ bye) ∧ srv_store (sv_server v) = srv_store demo_server.
Proof.
  exists (default (mkServed demo_server [] IoFailed)
    (serve_inbound no_spf no_dkim demo_txt demo_psl (V4 1) (quiet_socket (mkStream spam_lines false)) demo_server)).
  split; [by vm_compute|]. split; [|by vm_compute].
  match goal with |- ∃ _, ?l = _ ++ ?r => exists (take (length l - length r) l) end. by vm_compute.
Qed.

(** A submitted message for other domains only, on a server without a relay: accepted,
    and nothing is stored or queued. *)
Theorem remote_acknowledged_dropped (now : Z) (s : Server) (tls : bool) (helo : str) (env : Envelope) (c : InboundCollector)
    (s' : Server) (reply : bytes) :
  srv_relay s = None → Forall (λ r, server_is_local s r = false) (env_recipients env) →
  submission_deliver now s tls helo env c = Some (s', reply) →
  srv_relay s' = None ∧ ∀ mb, mem_list (srv_store s') mb = mem_list (srv_store s) mb.
Proof.
  intros Hr Hrem. unfold submission_deliver. destruct (into_message c env) as [m|] eqn:Em; [|by intros [= <- _]].
  apply Message_parse_inv in Em as (Henv & _). destruct (_ <=? _); [by intros [= <- _]|].
  destruct (received_header _ _ _ _) as [line|]; cbn [mbind option_bind]; [|done]. intros [= <- _].
  set (m' := prepend_header line m). split.
  - unfold server_accept_inbound. rewrite Hr. destruct (accept_inbound _ _ _ m') as [st r]. done.
  - intros mb. destruct (decide (mem_list (srv_store (server_accept_inbound now s m' Permitted).1) mb = mem_list (srv_store s) mb)) as [|Hne];
      [done|]. apply server_accept_mailboxes in Hne as (r & Hin & _ & Hl). unfold m' in Hin. cbn [prepend_header msg_envelope] in Hin.
    rewrite Henv in Hin. rewrite Forall_forall in Hrem. by rewrite (Hrem r Hin) in Hl.
Qed.
