(* ===== verification/Compose.v ===== *)
(** * Components composed

    The listener of Serve.v takes the sender checks as parameters and the worker of
    Worker.v takes the relay client as one; here they are given the translated
    components: SPF, DKIM and DMARC over one resolver for the inbound listener, and the
    outbound client for the worker.  The theorems are those of the composition: what an
    enforcing server knows of mail it accepts, and what becomes of a queued message. *)
From S2P Require Import Prelude RustStr Net Message Smtp Transport Store Auth Submission Throttle Received Dmarc Dns Spf Dkim Tls MtaSts Spool Server Serve Worker Outbound.

(** ** Inbound authentication over one resolver *)

(** A message that a full reject policy lets through has an aligned pass. *)
Lemma evaluate_dmarc_pass psl txt nanos from0 spf spf_domain dkim record at_org :
  let f := trim_dots (trim from0) in
  let org := organizational_domain psl f in
  f ≠ [] → find_policy txt f org = Some (record, at_org) → applicable_policy record at_org f org = PolReject →
  100 ≤ dm_pct record → dr_disposition (evaluate_dmarc txt psl nanos from0 spf spf_domain dkim) ≠ DispReject →
  (spf = SpfPass ∧ aligned psl spf_domain f (dm_aspf record) = true) ∨
  ∃ d, d ∈ dkim ∧ aligned psl d f (dm_adkim record) = true.
Proof.
  intros f org Hf Hp Ha Hpct. unfold evaluate_dmarc. fold f. fold org. rewrite bool_decide_false, Hp by done. cbn.
  destruct (bool_decide (spf = SpfPass) && aligned psl spf_domain f (dm_aspf record)) eqn:Es.
  { apply andb_true_iff in Es as [->%bool_decide_eq_true ?]. intros _. by left. }
  destruct (existsb _ dkim) eqn:Ed.
  { apply existsb_exists in Ed as (d & Hd%list_elem_of_In & ?). intros _. right. by exists d. }
  cbn. rewrite Ha. unfold apply_pct. apply Z.leb_le in Hpct. by rewrite Hpct.
Qed.

Section inbound_auth.
Context {RsaPublicKey EdKey : Type}.
Context (base64_decode : bytes → option bytes) (sha256 : bytes → bytes)
  (from_public_key_der from_pkcs1_der : bytes → option RsaPublicKey)
  (rsa_verify : RsaPublicKey → bytes → bytes → bool)
  (ed_key_from_bytes : bytes → option EdKey) (ed_verify_strict : EdKey → bytes → bytes → bool).
Context (resolver : DnsResolver) (psl_domain : str → option str) (ip : IpAddr).

Definition resolver_txt (name : str) : option (list str) := ok (dns_txt resolver name).
#[local] Notation verify_at := (dkim_verify base64_decode sha256 from_public_key_der from_pkcs1_der rsa_verify ed_key_from_bytes ed_verify_strict resolver).
#[local] Notation passes_at := (passes base64_decode sha256 from_public_key_der from_pkcs1_der rsa_verify ed_key_from_bytes ed_verify_strict resolver).

(** The end of the data on a server whose checks all use this resolver. *)
Definition live_deliver (now : Z) : Server → bool → str → Envelope → InboundCollector → option (Server * bytes) :=
  inbound_deliver (spf_evaluate resolver) (verify_at now) resolver_txt psl_domain ip now.

Definition accepted_reply : bytes := wire (lit "250 OK message accepted").

(** The sending host is authorised by the SPF policy of a domain aligned with [from]. *)
Definition spf_authorised (helo mail_from from : str) (mode : AlignmentMode) : Prop :=
  let '(local, domain) := spf_identity helo mail_from in
  host_ref resolver ip local domain helo domain SpfPass ∧
  aligned psl_domain (match rsplit_once AT mail_from with Some (_, d) => d | None => helo end) from mode = true.
(** The message carries a signature of a domain aligned with [from]. *)
Definition dkim_authorised (now : Z) (raw : bytes) (from : str) (mode : AlignmentMode) : Prop :=
  let '(headers, body) := split_message raw in
  ∃ idx field sig, parse_fields headers !! idx = Some field ∧ DkimSignature_parse base64_decode (hf_value field) = Ok sig ∧
    passes_at now (parse_fields headers) idx field sig body ∧ aligned psl_domain (sg_domain sig) from mode = true.

Lemma spf_evaluate_pass helo mail_from :
  spf_evaluate resolver ip helo mail_from = SpfPass →
  let '(local, domain) := spf_identity helo mail_from in host_ref resolver ip local domain helo domain SpfPass.
Proof.
  unfold spf_evaluate. pose proof (spf_run_spec resolver ip helo mail_from) as H.
  destruct (spf_identity helo mail_from) as [local domain]. destruct H as (st & r & -> & _ & H). simpl. intros ->.
  by destruct H as [[_ [=]]|[[_ H]|[_ [=]]]].
Qed.

Lemma not_accepted {X} (s s' : X) (t : str) :
  (wire t =s? accepted_reply) = false → Some (s, wire t) = Some (s', accepted_reply) → False.
Proof. intros Hne [= _ E]. by rewrite E, str_eqb_refl in Hne. Qed.

(** The replies of a delivery: the message was stored, or the reply says why not. *)
Lemma live_deliver_accepted now s tls helo env c s' m :
  into_message c env = Ok m → live_deliver now s tls helo env c = Some (s', accepted_reply) →
  srv_resolver s = true →
  let mail_from := mail_from_of env in
  let spf := Some (spf_evaluate resolver ip helo mail_from) in
  ¬ (spf = Some SpfFail ∧ srv_spf_enforce s = true) ∧
  (srv_dmarc_enforce s = true →
   dr_disposition <$> ar_dmarc (check_auth (verify_at now) resolver_txt psl_domain now s helo mail_from spf m) ≠ Some DispReject).
Proof.
  intros Hm. unfold live_deliver, inbound_deliver. rewrite Hm. intros Hd Hres. rewrite Hres in Hd.
  destruct (MAX_RECEIVED_HOPS <=? received_header_count m); [apply not_accepted in Hd; [done|by vm_compute]|]. destruct (bool_decide _ && _) eqn:Espf; [apply not_accepted in Hd; [done|by vm_compute]|].
  set (r := check_auth _ _ _ _ _ _ _ _ _) in *. destruct (fold_report_frame ip s r) as (_ & _ & _ & _ & Hen).
  rewrite Hen in Hd. destruct (srv_dmarc_enforce s && _) eqn:Ed; [apply not_accepted in Hd; [done|by vm_compute]|]. split.
  - intros [H1 H2]. rewrite H2, andb_true_r, bool_decide_eq_false in Espf. done.
  - intros H1. rewrite H1 in Ed. by apply bool_decide_eq_false in Ed.
Qed.

(** C6: an enforcing server accepts no forged sender.  If a server that enforces DMARC
    accepts a message whose From: domain publishes a reject policy for all its mail, then
    either the SPF policy published by a domain aligned with it authorises the connecting
    host, by the reference reading of that policy, or the message bears a signature that
    the DNS key of a domain aligned with it verifies, over the bytes received. *)
Theorem inbound_no_spoofing (now : Z) (s s' : Server) (tls : bool) (helo : str) (env : Envelope) (c : InboundCollector)
    (m : Message) (record : DmarcRecord) (at_org : bool) :
  srv_resolver s = true → srv_dmarc_enforce s = true → into_message c env = Ok m →
  let from := trim_dots (trim (default [] (Headers_get (msg_headers m) (lit "From") ≫= from_header_domain))) in
  let org := organizational_domain psl_domain from in
  from ≠ [] → find_policy resolver_txt from org = Some (record, at_org) →
  applicable_policy record at_org from org = PolReject → 100 ≤ dm_pct record →
  live_deliver now s tls helo env c = Some (s', accepted_reply) →
  spf_authorised helo (mail_from_of env) from (dm_aspf record) ∨
  dkim_authorised now (Message_to_bytes m) from (dm_adkim record).
Proof.
  intros Hres Henf Hm from org Hne Hpol Happ Hpct Hd.
  destruct (live_deliver_accepted now s tls helo env c s' m Hm Hd Hres) as [_ H]. specialize (H Henf).
  unfold check_auth in H. rewrite Hres in H. set (from0 := default [] _) in *. cbn [ar_dmarc andb] in H.
  rewrite bool_decide_false in H by (intros E; unfold from in Hne; by rewrite E in Hne). cbn [negb option_map default] in H.
  set (spf := spf_evaluate resolver ip helo (mail_from_of env)) in *.
  set (spf_domain := match rsplit_once AT (mail_from_of env) with Some (_, d) => d | None => helo end) in *.
  set (dkim := dk_domain <$> filter _ _) in *.
  destruct (evaluate_dmarc_pass psl_domain resolver_txt (subsec_nanos now) from0 spf spf_domain dkim record at_org)
    as [[Hs Ha]|(d & Hd' & Ha)]; [done|done|done|done|by intros E; apply H; apply (f_equal Some)| |].
  - left. unfold spf_authorised. pose proof (spf_evaluate_pass helo (mail_from_of env) Hs) as Hp.
    destruct (spf_identity helo (mail_from_of env)). by split.
  - right. unfold dkim in Hd'. apply list_elem_of_fmap in Hd' as (o & -> & [Hpass Ho]%list_elem_of_filter).
    pose proof (dkim_pass_core _ _ _ _ _ _ _ resolver now (Message_to_bytes m) o Ho Hpass) as Hc. unfold dkim_authorised.
    destruct (split_message (Message_to_bytes m)) as [headers body].
    destruct Hc as (idx & field & sig & Hf & _ & Hp & Hdom & _ & Hps). exists idx, field, sig. rewrite Hdom. by split_and!.
Qed.

(** C22: SPF is enforced as published.  When the reference reading of the sender's policy
    is a fail, an enforcing server refuses the message at the end of the data with its
    state unchanged; the one exception is a policy beyond the lookup limits of the
    evaluator, which counts as a permanent error and not as a fail. *)
Theorem inbound_spf_enforced (now : Z) (s : Server) (tls : bool) (helo : str) (env : Envelope) (c : InboundCollector) :
  srv_resolver s = true → srv_spf_enforce s = true →
  let '(local, domain) := spf_identity helo (mail_from_of env) in
  domain ≠ [] → host_ref resolver ip local domain helo domain SpfFail →
  (∃ st, spf_run resolver ip helo (mail_from_of env) = Some (st, SpfPermError) ∧
     (MAX_LOOKUPS < ev_lookups st ∨ MAX_VOID < ev_void st)) ∨
  (∃ why, live_deliver now s tls helo env c = Some (s, wire why) ∧ wire why ≠ accepted_reply).
Proof.
  intros Hres Henf. pose proof (spf_run_spec resolver ip helo (mail_from_of env)) as H.
  destruct (spf_identity helo (mail_from_of env)) as [local domain]. intros Hne Href.
  destruct H as (st & r & Hrun & _ & [[-> _]|[[_ Hr]|[Ho ->]]]); [done| |].
  - right. assert (r = SpfFail) as -> by (by eapply (proj1 (spf_ref_det _ _ _ _ _))).
    assert (spf_evaluate resolver ip helo (mail_from_of env) = SpfFail) as Hev by (unfold spf_evaluate; by rewrite Hrun).
    unfold live_deliver, inbound_deliver. destruct (into_message c env) as [m|].
    2: { exists (lit "554 message parse error"). split; [done|]. apply str_eqb_neq. by vm_compute. }
    destruct (MAX_RECEIVED_HOPS <=? received_header_count m).
    { exists (lit "554 too many Received headers; possible mail loop"). split; [done|]. apply str_eqb_neq. by vm_compute. }
    rewrite Hres, Hev, Henf, bool_decide_true by done. exists (lit "550 5.7.23 SPF validation failed").
    split; [done|]. apply str_eqb_neq. by vm_compute.
  - left. exists st. split; [done|]. unfold ev_over in Ho. lia.
Qed.
End inbound_auth.

(** ** A policy and two senders *)

Definition guard_txt (name : str) : result NetworkError (list str) :=
  if name =s? lit "example.com" then Ok [lit "v=spf1 ip4:192.0.2.1 -all"]
  else if name =s? lit "_dmarc.example.com" then Ok [lit "v=DMARC1; p=reject"] else Ok [].
Definition guard_resolver : DnsResolver := plain_resolver (λ _, Ok []) (λ _, Ok []) guard_txt (λ _, Ok []).
Definition guard_server : Server :=
  mkServer MemoryMailStore_new {[lit "local.org"]} false (lit "mx.local.org") None ThrottleConfig_default ∅ 1000 true true true ∅ None.
Definition guard_envelope : Envelope :=
  mkEnvelope (Some (mkMailbox (lit "a") (lit "example.com"))) [mkMailbox (lit "u") (lit "local.org")].
Definition guard_collected : InboundCollector :=
  mkCollector (lit "From: A <a@example.com>" ++ CRLF ++ CRLF ++ lit "hi" ++ CRLF) true true 1000 false.
Definition guard_deliver (ip : Z) : option (Server * bytes) :=
  live_deliver (λ _, None) (λ b, b) (λ _, None) (λ _, None) (λ (_ : unit) _ _, false) (λ _, None) (λ (_ : unit) _ _, false)
    guard_resolver (λ _, Some (lit "example.com")) (V4 ip) (secs 1700000000) guard_server false (lit "mail.example.com")
    guard_envelope guard_collected.
Definition guard_message : Message :=
  match into_message guard_collected guard_envelope with Ok m => m | Err _ => mkMessage guard_envelope [] [] [] end.
Definition guard_record : DmarcRecord :=
  default (mkDmarc PolNone None Relaxed Relaxed 0 None)
    (fst <$> find_policy (resolver_txt guard_resolver) (lit "example.com") (lit "example.com")).

Lemma inbound_no_spoofing_witness :
  ∃ s', guard_deliver 3221225985 = Some (s', accepted_reply) ∧
  (spf_authorised guard_resolver (λ _, Some (lit "example.com")) (V4 3221225985) (lit "mail.example.com") (lit "a@example.com")
     (lit "example.com") Relaxed ∨
   dkim_authorised (λ _, None) (λ b, b) (λ _, None) (λ _, None) (λ (_ : unit) _ _, false) (λ _, None) (λ (_ : unit) _ _, false)
     guard_resolver (λ _, Some (lit "example.com")) (secs 1700000000) (Message_to_bytes guard_message) (lit "example.com") Relaxed).
Proof.
  exists (default guard_server (fst <$> guard_deliver 3221225985)). split; [by vm_compute|].
  apply (inbound_no_spoofing (λ _, None) (λ b, b) (λ _, None) (λ _, None) (λ (_ : unit) _ _, false) (λ _, None) (λ (_ : unit) _ _, false)
    guard_resolver (λ _, Some (lit "example.com")) (V4 3221225985) (secs 1700000000) guard_server
    (default guard_server (fst <$> guard_deliver 3221225985)) false (lit "mail.example.com") guard_envelope guard_collected guard_message
    guard_record false); by vm_compute.
Defined.

Lemma inbound_spf_enforced_witness :
  ∃ why, guard_deliver 1 = Some (guard_server, wire why) ∧ wire why ≠ accepted_reply.
Proof.
  destruct (inbound_spf_enforced (λ _, None) (λ b, b) (λ _, None) (λ _, None) (λ (_ : unit) _ _, false) (λ _, None) (λ (_ : unit) _ _, false)
    guard_resolver (λ _, Some (lit "example.com")) (V4 1) (secs 1700000000) guard_server false (lit "mail.example.com") guard_envelope
    guard_collected) as [(st & Hr & _)|H]; [done|done|done| | |exact H].
  - eapply host_run; [by vm_compute|]. eapply run_next.
    { assert (MechOutcome_from (cidr4 3221225985 32 1) = NoMatch) as <- by by vm_compute.
      apply (mech_ip4 guard_resolver (V4 1)). }
    apply (run_match _ _ _ _ _ QFail MechAll). constructor.
  - exfalso. by vm_compute in Hr.
Defined.

(** ** The worker with the relay client *)

Section worker_client.
Context (debug_str : str → str) (resolver : DnsResolver) (net : nat → str → Peer) (versions : result str ()).
Context (helo : str) (port : Z) (tls : option ClientConfig) (mta_sts : option MtaStsResolver) (dane : bool).

(** The client as [relay_due] calls it. *)
Definition worker_relay (m : Message) : RelayReport := (relay debug_str resolver net versions helo port m tls mta_sts dane).2.
Definition worker_tried (m : Message) : list RelayAttempt := (relay debug_str resolver net versions helo port m tls mta_sts dane).1.2.

(** A server has taken the message: it was sent the whole script and answered every step
    as it must, the end of the data included. *)
Definition taken_by (m : Message) (a : RelayAttempt) (n : nat) : Prop :=
  let peer := net n (at_addr a) in
  at_log a = transcript (upgrades debug_str peer (at_policy a)) (relay_script helo m) ∧
  answered debug_str peer (at_policy a) (at_exchange a) (relay_script helo m).

Lemma worker_relay_delivered m :
  worker_relay m = RelayDelivered → ∃ a n, a ∈ worker_tried m ∧ taken_by m a n.
Proof.
  unfold worker_relay, worker_tried. pose proof (relay_delivers_core debug_str resolver net versions helo port m tls mta_sts dane) as H.
  destruct (relay _ _ _ _ _ _ _ _ _ _) as [[sts tried] report]. cbn [fst snd]. intros ->.
  destruct H as [H _]. destruct (H eq_refl) as (pre & a & n & -> & _ & _ & Hl & Ha).
  exists a, n. split; [set_solver|by split].
Qed.

(** C5: no queued message is lost.  One attempt of the worker on a queued message, with
    the relay client and whatever the DNS, the network and the peers do, ends with the
    message in one of three places: with a server that was sent all of it and answered
    every step as it must, still in the queue with the message untouched and its next
    attempt scheduled, or in [bounced/] with its control file.  It leaves this server's
    disk only in the first case. *)
Theorem queued_never_lost (now : Z) (s : Server) (sp : OutboundSpool) (e : SpoolEntry) (m : Message) (text : str) (fe fc : File) :
  srv_relay s = Some sp → in_main (se_id e) fe fc (sp_fs sp) →
  fs_read_to_string (ctrl_path (se_id e)) (sp_fs sp) = Ok text → parse_ctrl (se_id e) text = Ok e →
  load_message (se_id e) (sp_fs sp) = Ok m → ctrl_safe_env (entry_envelope e) →
  se_created_at e ≤ SYSTIME_MAX → se_created_at e = secs (to_secs (se_created_at e)) →
  0 ≤ now → now + secs 3600 ≤ SYSTIME_MAX → (∀ seq, se_id e ≠ new_id now seq) →
  ∃ s' sp', relay_entry worker_relay now s e = Some s' ∧ srv_relay s' = Some sp' ∧
    ((∃ a n, a ∈ worker_tried m ∧ taken_by m a n) ∨
     (sp_fs sp' !! eml_path (se_id e) = Some fe ∧ ∃ text' e', fs_read_to_string (ctrl_path (se_id e)) (sp_fs sp') = Ok text' ∧
        parse_ctrl (se_id e) text' = Ok e' ∧ se_attempts e' = add_u32 (se_attempts e) 1 ∧
        se_sender e' = se_sender e ∧ se_recipients e' = se_recipients e) ∨
     in_bounced (se_id e) fe fc (sp_fs sp')).
Proof.
  intros Hs Hmain Hread Hparse Hload Hsafe Hcr Hcr2 H0 Hnow Hid.
  destruct (relay_entry_core worker_relay now s sp e m text fe fc) as (s' & sp' & Hr & Hs' & H); [done..|].
  exists s', sp'. split_and!; [done..|]. unfold attempt_result in H.
  destruct (worker_relay m) as [|code txt|reason] eqn:Er.
  - left. by apply worker_relay_delivered.
  - right. destruct (decide _); [left|right; apply H].
    destruct H as (_ & He & t & Ht & Hp). split; [done|]. by eexists t, _.
  - right. right. apply H.
Qed.
End worker_client.

(** Nobody answers. *)
Definition dead_peer : Peer :=
  mkPeer (Err (lit "connection refused")) (mkIncoming [] None) false (λ _ _, Ok (mkIncoming [] None)) (λ _, None) (λ _, None).
Lemma queued_never_lost_witness :
  let s := set_relay demo_server (Some (mkSpool spool_one 1)) in
  let e := new_entry spool_id spool_env spool_now in
  let r := worker_relay (λ x, x) guard_resolver (λ _ _, dead_peer) (Ok ()) (lit "mx") 25 None None false in
  ∃ s' sp', relay_entry r later s e = Some s' ∧ srv_relay s' = Some sp' ∧
    ((∃ a n, a ∈ worker_tried (λ x, x) guard_resolver (λ _ _, dead_peer) (Ok ()) (lit "mx") 25 None None false spool_msg ∧
        taken_by (λ x, x) (λ _ _, dead_peer) (lit "mx") spool_msg a n) ∨
     (sp_fs sp' !! eml_path spool_id = Some spool_fe ∧ ∃ text' e', fs_read_to_string (ctrl_path spool_id) (sp_fs sp') = Ok text' ∧
        parse_ctrl spool_id text' = Ok e' ∧ se_attempts e' = add_u32 0 1 ∧ se_sender e' = se_sender e ∧ se_recipients e' = se_recipients e) ∨
     in_bounced spool_id spool_fe spool_fc (sp_fs sp')).
Proof.
  intros s e r. apply (queued_never_lost (λ x, x) guard_resolver (λ _ _, dead_peer) (Ok ()) (lit "mx") 25 None None false later s
    (mkSpool spool_one 1) e spool_msg (render_ctrl spool_env 0 spool_now spool_now) spool_fe spool_fc).
  1: done. 1: split; by vm_compute. 3: by vm_compute. 3: apply spool_env_safe. 7: apply spool_id_old. all: by vm_compute.
Defined.
