(* ===== verification/Pipeline.v ===== *)
(** * From a submission to a mailbox elsewhere

    The whole way of a message through two servers, composed from the translated parts:
    an authenticated submission is stamped and queued on the spool (Serve.v, Server.v,
    Spool.v), the worker gives the entry to the relay client (Worker.v, Outbound.v), and
    the client talks to the inbound listener of the server its resolver points to
    (Listen.v, EndToEnd.v).  The theorems say where the message is at the end. *)
From S2P Require Import Prelude RustStr Net Message MailText Smtp Transport Store Auth Submission Throttle Greylist Received Dmarc Dns Tls MtaSts Spool Server Serve Access Listen Worker Outbound EndToEnd Compose.

(** ** The relay client's first attempt *)

(** What the resolver says of a domain: the first exchange to try, and its first address. *)
Definition first_exchange (resolver : DnsResolver) (domain exchange : str) (ip : IpAddr) : Prop :=
  ∃ mx more ips, exchanges_for resolver None domain = Ok (mx :: more) ∧ mx_is_null mx = false ∧
    mx_exchange mx = exchange ∧ resolve_exchange resolver exchange = Ok (ip :: ips).

Definition final_report (r : RelayReport) : Prop := match r with RelayDeferred _ _ => False | _ => True end.

(** An attempt that settles the matter is the only one. *)
Lemma relay_first debug_str resolver net versions helo port m tls exchange ip first rest report log :
  env_recipients (msg_envelope m) = first :: rest → first_exchange resolver (domain first) exchange ip →
  relay_to debug_str (net 0%nat (socket_addr_to_string ip port)) (socket_addr_to_string ip port) exchange helo m
    (from_option TlsOpportunistic TlsNone tls) = (Ok report, log) → final_report report →
  worker_relay debug_str resolver net versions helo port tls None false m = report.
Proof.
  intros Hr (mx & more & ips & He & Hn & <- & Ha) Hto Hf. unfold worker_relay, relay. rewrite Hr. cbn [default is_Some].
  rewrite bool_decide_eq_false_2 by (by intros []). rewrite He. cbn [forallb]. rewrite Hn. cbn [andb fmap option_fmap option_map].
  cbn [try_exchanges]. rewrite Hn. unfold posture, exchange_tls_policy. rewrite Ha. cbn [try_addresses length]. rewrite Hto.
  destruct report as [|code text|reason]; [done|by destruct Hf|done].
Qed.

(** ** From the queue to the mailbox *)

Section transfer.
(** The receiving server and the checks of its listener. *)
Context (evaluate_spf : IpAddr → str → str → SpfResult) (verify_dkim : bytes → list DkimOutcome).
Context (lookup_txt : str → option (list str)) (psl_domain : str → option str) (ip : IpAddr).
(** The sending server's relay context. *)
Context (debug_str : str → str) (resolver : DnsResolver) (versions : result str ()) (helo : str) (port : Z) (tls : option ClientConfig).
#[local] Notation inbound := (serve_inbound evaluate_spf verify_dkim lookup_txt psl_domain ip).
#[local] Notation policy := (from_option TlsOpportunistic TlsNone tls).
#[local] Notation up r := (srv_tls r && bool_decide (is_Some (policy_config policy))).

(** The message changes hands whole or not at all: the receiver [r] has become [r'], and
    the sender's queue [sp'], after an attempt on entry [id] with files [fe] and [fc]. *)
Definition transferred (r r' : Server) (m : Message) (id : str) (fe fc : File) (sp' : OutboundSpool) : Prop :=
  (taken evaluate_spf verify_dkim lookup_txt psl_domain ip r r' (up r) helo m ∧ sp_fs sp' !! eml_path id = None ∧ sp_fs sp' !! ctrl_path id = None) ∨
  (srv_store r' = srv_store r ∧ in_bounced id fe fc (sp_fs sp')).

Lemma transfer_core (now : Z) (s : Server) (sp : OutboundSpool) (e : SpoolEntry) (m : Message) (text : str) (fe fc : File)
    (r : Server) (exchange : str) (dest : IpAddr) (first : Mailbox) (rest : list Mailbox) (plain enc : list bytes) (clock : nat → Z) :
  srv_relay s = Some sp → in_main (se_id e) fe fc (sp_fs sp) →
  fs_read_to_string (ctrl_path (se_id e)) (sp_fs sp) = Ok text → parse_ctrl (se_id e) text = Ok e →
  load_message (se_id e) (sp_fs sp) = Ok m → ctrl_safe_env (entry_envelope e) →
  se_created_at e ≤ SYSTIME_MAX → se_created_at e = secs (to_secs (se_created_at e)) →
  0 ≤ now → now + secs 3600 ≤ SYSTIME_MAX → (∀ seq, se_id e ≠ new_id now seq) →
  env_recipients (msg_envelope m) = first :: rest → first_exchange resolver (domain first) exchange dest →
  deliverable r helo m →
  pieces (channel false (transcript (up r) (relay_script helo m))) plain →
  pieces (channel true (transcript (up r) (relay_script helo m))) enc →
  ∃ r' log, inbound (client_of plain enc clock) r = Some (mkServed r' log Closed) ∧
    ∀ net, net 0%nat (socket_addr_to_string dest port) = peer_of log →
    ∃ s' sp', relay_entry (worker_relay debug_str resolver net versions helo port tls None false) now s e = Some s' ∧
      srv_relay s' = Some sp' ∧ transferred r r' m (se_id e) fe fc sp'.
Proof.
  intros Hs Hmain Hread Hparse Hload Hsafe Hcr Hcr2 H0 Hnow Hid Hr Hex Hdel Hplain Henc.
  destruct (custody_core evaluate_spf verify_dkim lookup_txt psl_domain ip r helo m Hdel debug_str (socket_addr_to_string dest port) exchange policy plain enc clock)
    as (r' & log & report & Hin & Hto & Hc); [by destruct tls|done|done|].
  exists r', log. split; [done|]. intros net Hnet.
  destruct (relay_entry_core (worker_relay debug_str resolver net versions helo port tls None false) now s sp e m text fe fc)
    as (s' & sp' & Hre & Hs' & H); [done..|]. exists s', sp'. split_and!; [done..|].
  assert (worker_relay debug_str resolver net versions helo port tls None false m = report) as Hrep.
  { eapply relay_first; [done|done|by rewrite Hnet|]. by destruct report. }
  rewrite Hrep in H. unfold attempt_result in H. destruct report as [|code txt|reason]; [|done|].
  - left. split; [exact Hc|]. by destruct H as (? & ? & _).
  - right. split; [exact Hc|]. apply H.
Qed.
End transfer.

(** Mail for one other domain is one entry of the queue. *)
Lemma server_accept_one now s sp m d rs :
  srv_relay s = Some sp → by_domain (filter (λ r, is_local (srv_domains s) r = false) (env_recipients (msg_envelope m))) = [(d, rs)] →
  srv_relay (server_accept_inbound now s m Permitted).1 = Some (enqueue now (with_recipients m rs) sp).2.
Proof.
  intros Hs Hg. unfold server_accept_inbound. rewrite Hs, bool_decide_eq_true_2 by done.
  assert (in_relay (accept_inbound (srv_domains s) (srv_store s) SpamFilter_new m).2 =
    filter (λ r, is_local (srv_domains s) r = false) (env_recipients (msg_envelope m))) as Hr.
  { unfold accept_inbound. case_bool_decide; [done|]. by destruct (mda_deliver _ _ _). }
  destruct (accept_inbound _ _ _ m) as [st res]. cbn [snd] in Hr. unfold enqueue_relay. rewrite Hr.
  case_bool_decide as Hn; [by rewrite Hn in Hg|]. cbn [set_relay fst srv_relay]. by rewrite Hg.
Qed.

(** ** Into the queue *)

(** The stamped line is a header field. *)
Lemma received_header_field helo host proto at_ line :
  Received.one_line proto → received_header helo host proto at_ = Some line → header_line line.
Proof.
  unfold received_header. intros Hp. destruct (rfc5322_date at_) as [date|] eqn:Ed; cbn [mbind option_bind]; [|done]. intros [= <-].
  apply rfc5322_date_one_line in Ed.
  assert (Received.one_line (lit " from " ++ sanitize helo ++ lit " by " ++ sanitize host ++ lit " with " ++ proto ++ lit "; " ++ date)) as Ho by one_line.
  unfold received_line. change (lit "Received: from " ++ ?x) with (lit "Received" ++ COLON :: lit " from " ++ x).
  exact (header_line_named (lit "Received") _ ltac:(by vm_compute) Ho).
Qed.

Lemma Message_parse_any_envelope env env' raw m :
  Message_parse env raw = Ok m → Message_parse env' raw = Ok (mkMessage env' (msg_headers m) (msg_body m) (msg_raw_head m)).
Proof.
  unfold Message_parse. destruct (split_header_body raw) as [hb n]. destruct (parse_headers _); [|done]. by intros [= <-].
Qed.

(** The message on the wire is its envelope and its bytes. *)
Definition same_wire (m m' : Message) : Prop := msg_envelope m' = msg_envelope m ∧ Message_to_bytes m' = Message_to_bytes m.
Lemma same_wire_script helo m m' : same_wire m m' → relay_script helo m' = relay_script helo m.
Proof. intros [He Hb]. unfold relay_script. by rewrite He, Hb. Qed.
Lemma same_wire_deliverable r helo m m' : same_wire m m' → deliverable r helo m → deliverable r helo m'.
Proof. intros [He Hb] []. split; unfold mail_cmd in *; by rewrite ?He, ?Hb. Qed.
Lemma same_wire_taken spf dkim txt psl ip r r' tls helo m m' :
  same_wire m m' → taken spf dkim txt psl ip r r' tls helo m' → taken spf dkim txt psl ip r r' tls helo m.
Proof. intros [He Hb]. unfold taken. by rewrite He, Hb. Qed.

(** A stamped message queued for one domain's recipients: its files, its entry, and what
    the worker will load. *)
Lemma enqueue_stamped now sp line env raw m rs :
  0 ≤ now ≤ SYSTIME_MAX → header_line line → Message_parse env raw = Ok m → starts_with_eol raw = false →
  let queued := with_recipients (prepend_header line m) rs in
  let id := new_id now (sp_counter sp) in
  ctrl_safe_env (msg_envelope queued) →
  ∃ loaded text fe fc, same_wire queued loaded ∧
    let sp' := (enqueue now queued sp).2 in
    in_main id fe fc (sp_fs sp') ∧ fs_read_to_string (ctrl_path id) (sp_fs sp') = Ok text ∧
    parse_ctrl id text = Ok (new_entry id (msg_envelope queued) now) ∧ load_message id (sp_fs sp') = Ok loaded ∧
    f_data fe = line ++ CRLF ++ raw.
Proof.
  intros Hnow (Hcr & Hlf & _ & n & v & Hfield) Hparse Heol queued id Hsafe.
  assert (Message_to_bytes queued = line ++ CRLF ++ raw) as Hbytes.
  { unfold queued, with_recipients, Message_to_bytes, prepend_header. cbn [msg_raw_head msg_body].
    apply Message_parse_inv in Hparse as (_ & Hh & Hb & _). by rewrite Hh, Hb, <-!app_assoc, take_drop. }
  pose proof (Message_parse_any_envelope _ (msg_envelope queued) _ _ Hparse) as Hp0.
  destruct (prepend_header_reparse _ _ _ _ _ _ Hp0 Heol Hlf Hfield) as [Hb0 Hload]. rewrite Hb0 in Hload.
  set (loaded := mkMessage _ _ _ _) in Hload.
  pose proof (Message_parse_inv _ _ _ Hload) as (Henv & Hh & Hb & _).
  assert (Message_to_bytes loaded = line ++ CRLF ++ raw) as Hbl by (unfold Message_to_bytes; by rewrite Hh, Hb, take_drop).
  unfold enqueue, enqueue_ops. rewrite exec_two_writes. cbn [snd sp_fs].
  assert (∀ t, committed_fs now id (Message_to_bytes queued) t (sp_fs sp) = committed_fs now id (Message_to_bytes loaded) t (sp_fs sp)) as Hsame
    by (intros t; by rewrite Hbytes, Hbl).
  destruct (committed_lookup now id (Message_to_bytes queued) (utf8_encode (render_ctrl (msg_envelope queued) 0 now now)) (sp_fs sp)) as (He & Hct & _).
  destruct (enqueued_ctrl (msg_envelope queued) loaded id now (sp_fs sp) Henv Hsafe ltac:(lia)) as [Hread Hpc].
  unfold enqueued_fs in Hread. rewrite Henv in Hread.
  eexists loaded, _, _, _. split; [split; [done|by rewrite Hbytes]|]. cbn zeta. split_and!; [exact (conj He Hct)| |exact Hpc| |exact Hbytes].
  - rewrite Hsame. exact Hread.
  - rewrite Hsame. pose proof (enqueued_load (msg_envelope queued) loaded id now (sp_fs sp) Henv Hsafe ltac:(lia) _ Hload) as Hl.
    unfold enqueued_fs in Hl. by rewrite Henv in Hl.
Qed.

Lemma new_entry_clock now : 0 ≤ now ≤ SYSTIME_MAX → secs (to_secs now) ≤ now ∧ secs (to_secs now) = secs (to_secs (secs (to_secs now))).
Proof.
  assert (∀ x, 0 ≤ x → to_secs x = x `div` NANOS) as Hs.
  { intros x Hx. unfold to_secs, duration_since. destruct (Z.leb_spec 0 x); [|lia]. simpl. by rewrite Z.sub_0_r. }
  intros Hnow. pose proof (Z.mul_div_le now NANOS ltac:(done)). assert (0 ≤ now `div` NANOS) by (apply Z.div_pos; [lia|done]).
  rewrite Hs by lia. unfold secs. split; [lia|]. rewrite Hs by (unfold NANOS in *; lia). by rewrite Z.div_mul.
Qed.

Section submission.
Context (evaluate_spf : IpAddr → str → str → SpfResult) (verify_dkim : bytes → list DkimOutcome).
Context (lookup_txt : str → option (list str)) (psl_domain : str → option str) (ip : IpAddr).
Context (debug_str : str → str) (resolver : DnsResolver) (versions : result str ()) (helo : str) (port : Z) (tls : option ClientConfig).
#[local] Notation inbound := (serve_inbound evaluate_spf verify_dkim lookup_txt psl_domain ip).
#[local] Notation policy := (from_option TlsOpportunistic TlsNone tls).
#[local] Notation up r := (srv_tls r && bool_decide (is_Some (policy_config policy))).

(** C3: mail submitted here arrives there, or comes back.  A message an authenticated
    submission hands to a relaying server for recipients of one other domain is answered
    250 and is due in the queue; when the worker tries it, and the domain's first
    exchange and address are those of a server that can take it, then after the
    conversation either that server has read the submitted bytes under this one's Received
    line and, unless its spam filter rejects that very message, put one copy for each
    recipient into the recipient's mailbox, those bytes below exactly its own trace block,
    and the queue has let it go, or that server has stored nothing and the message is
    kept in [bounced/]. *)
Theorem submission_reaches_mailbox (now t : Z) (s r : Server) (sp : OutboundSpool) (conn_tls : bool) (client d : str) (env : Envelope)
    (c : InboundCollector) (m : Message) (line : bytes) (first : Mailbox) (rest : list Mailbox) (exchange : str) (dest : IpAddr)
    (plain enc : list bytes) (clock : nat → Z) :
  srv_relay s = Some sp → spool_fresh now sp → 0 ≤ sp_counter sp → sp_counter sp + 1 ≤ U64_MAX →
  0 ≤ now → now ≤ t → t + secs 3600 ≤ SYSTIME_MAX → (∀ seq, new_id now (sp_counter sp) ≠ new_id t seq) →
  into_message c env = Ok m → starts_with_eol (ic_body c) = false → received_header_count m < MAX_RECEIVED_HOPS →
  received_header client (srv_helo s) (if conn_tls then lit "ESMTPSA" else lit "ESMTPA") now = Some line →
  by_domain (filter (λ r, is_local (srv_domains s) r = false) (env_recipients env)) = [(d, first :: rest)] →
  let queued := with_recipients (prepend_header line m) (first :: rest) in
  ctrl_safe_env (msg_envelope queued) → deliverable r helo queued → first_exchange resolver (domain first) exchange dest →
  pieces (channel false (transcript (up r) (relay_script helo queued))) plain →
  pieces (channel true (transcript (up r) (relay_script helo queued))) enc →
  let e := new_entry (new_id now (sp_counter sp)) (msg_envelope queued) now in
  ∃ s1 sp1 r' log fe fc,
    submission_deliver now s conn_tls client env c = Some (s1, accepted_reply) ∧ srv_relay s1 = Some sp1 ∧
    due t (sp_fs sp1) e ∧ f_data fe = line ++ CRLF ++ ic_body c ∧
    inbound (client_of plain enc clock) r = Some (mkServed r' log Closed) ∧
    ∀ net, net 0%nat (socket_addr_to_string dest port) = peer_of log →
    ∃ s2 sp2, relay_entry (worker_relay debug_str resolver net versions helo port tls None false) t s1 e = Some s2 ∧
      srv_relay s2 = Some sp2 ∧
      transferred evaluate_spf verify_dkim lookup_txt psl_domain ip helo tls r r' queued (se_id e) fe fc sp2.
Proof.
  intros Hs Hf Hc0 Hc1 Hnow Ht Htmax Hid Hm Heol Hhops Hline Hgroup queued Hsafe Hdel Hex Hplain Henc e.
  assert (0 ≤ now ≤ SYSTIME_MAX) as Hn by (unfold secs, NANOS in *; lia).
  assert (header_line line) as Hhl by (eapply received_header_field; [|exact Hline]; destruct conn_tls; one_line_lit).
  pose proof (Message_parse_inv _ _ _ Hm) as (Hme & _).
  destruct (enqueue_stamped now sp line env (ic_body c) m (first :: rest) Hn Hhl Hm Heol Hsafe)
    as (loaded & text & fe & fc & Hwire & Hmain & Hread & Hparse & Hload & Hfe).
  fold queued in Hwire, Hmain, Hread, Hparse, Hload. set (sp1 := (enqueue now queued sp).2) in *.
  pose proof (enqueue_group_step now (prepend_header line m) d (first :: rest) sp Hc0 Hc1 ltac:(lia) Hf Hsafe) as (_ & _ & Hdue).
  change (enqueue_group now (prepend_header line m) sp (d, first :: rest)) with sp1 in Hdue.
  destruct (new_entry_clock now Hn) as [Hclk Hclk'].
  assert (∃ s1, submission_deliver now s conn_tls client env c = Some (s1, accepted_reply) ∧ srv_relay s1 = Some sp1) as (s1 & Hsub & Hs1).
  { unfold submission_deliver. rewrite Hm, (proj2 (Z.leb_gt _ _) Hhops), Hline. cbn [mbind option_bind]. eexists. split; [done|].
    apply server_accept_one with (d := d); [done|]. cbn [prepend_header msg_envelope]. by rewrite Hme. }
  destruct (transfer_core evaluate_spf verify_dkim lookup_txt psl_domain ip debug_str resolver versions helo port tls t s1 sp1 e loaded
    text fe fc r exchange dest first rest plain enc clock) as (r' & log & Hin & Hnet).
  all: try done.
  - cbn [e new_entry se_created_at]. lia.
  - lia.
  - by rewrite (proj1 Hwire).
  - by eapply same_wire_deliverable.
  - by rewrite (same_wire_script _ _ _ Hwire).
  - by rewrite (same_wire_script _ _ _ Hwire).
  - exists s1, sp1, r', log, fe, fc. split_and!; [done..| |done|done|].
    + apply Hdue. right. split; [done|lia].
    + intros net Hn0. destruct (Hnet net Hn0) as (s2 & sp2 & Hre & Hs2 & Htr). exists s2, sp2. split_and!; [done..|].
      destruct Htr as [[Hcopy Hgone]|Hback]; [left; split; [by eapply same_wire_taken|done]|by right].
Qed.
End submission.

(** ** A message from a.org to local.org *)

Definition home_server : Server :=
  mkServer MemoryMailStore_new {[lit "a.org"]} true (lit "mx.a.org") (Some (mkSpool ∅ 0)) ThrottleConfig_default ∅ 1000 false false false ∅ None.
Definition home_envelope : Envelope :=
  mkEnvelope (Some (mkMailbox (lit "a") (lit "a.org"))) [mkMailbox (lit "u") (lit "local.org")].
Definition home_collected : InboundCollector :=
  mkCollector (lit "Subject: hi" ++ CRLF ++ CRLF ++ lit "body" ++ CRLF) true true 1000 false.
Definition home_message : Message :=
  mkMessage home_envelope [(lit "Subject", lit "hi")] (lit "body" ++ CRLF) (lit "Subject: hi" ++ CRLF ++ CRLF).
Definition home_line : bytes := default [] (received_header (lit "laptop") (lit "mx.a.org") (lit "ESMTPSA") spool_now).
#[local] Notation home_queued := (with_recipients (prepend_header home_line home_message) [mkMailbox (lit "u") (lit "local.org")]).
Definition home_resolver : DnsResolver :=
  plain_resolver (λ _, Ok [mkMx 10 (lit "mx.local.org")]) (λ _, Ok [V4 1]) (λ _, Ok []) (λ _, Ok []).
Definition home_wire (b : bool) : list bytes := [channel b (transcript true (relay_script (lit "mx.a.org") home_queued))].

Lemma home_deliverable : deliverable mx_server (lit "mx.a.org") home_queued.
Proof.
  split.
  - split_and!; [apply trimmedb_true; by vm_compute|done|apply sendable_check; by vm_compute].
  - split; [|apply sendable_check; by vm_compute]. intros f [= <-]. apply relayable_check. by vm_compute.
  - apply Forall_cons. split; [|done]. split; [by vm_compute|].
    split; [apply relayable_check; by vm_compute|apply sendable_check; by vm_compute].
  - done.
  - by vm_compute.
  - done.
  - assert (forallb (λ x, negb (contains_char LF x) && (len x + 3 <=? MAX_LINE_LENGTH)) (crlf_split (Message_to_bytes home_queued)) = true) as H by by vm_compute.
    apply Forall_forall. intros x Hx%list_elem_of_In. apply (proj1 (forallb_forall _ _) H) in Hx. clear H.
    apply andb_true_iff in Hx as [Hx Hl%Z.leb_le]. unfold contains_char in Hx. apply negb_true_iff, bool_decide_eq_false in Hx. by split.
  - by vm_compute.
Qed.

Lemma home_safe : ctrl_safe_env (msg_envelope home_queued).
Proof.
  split_and!; [done| |by apply ctrl_safeb_true; vm_compute].
  repeat constructor; by apply ctrl_safeb_true; vm_compute.
Qed.

Lemma home_pieces b : pieces (channel b (transcript true (relay_script (lit "mx.a.org") home_queued))) (home_wire b).
Proof.
  split; [|apply app_nil_r]. apply Forall_singleton. destruct b; apply (bool_decide_eq_false (channel _ _ = [])); by vm_compute.
Qed.

Lemma submission_reaches_mailbox_witness :
  ∃ s1 r' log, submission_deliver spool_now home_server true (lit "laptop") home_envelope home_collected = Some (s1, accepted_reply) ∧
    serve_inbound no_spf no_dkim demo_txt demo_psl (V4 1) (client_of (home_wire false) (home_wire true) (λ n, secs (1700000000 + Z.of_nat n)))
      mx_server = Some (mkServed r' log Closed).
Proof.
  destruct (submission_reaches_mailbox no_spf no_dkim demo_txt demo_psl (V4 1) (λ x, x) home_resolver (Ok ()) (lit "mx.a.org") 25
    (Some OpportunisticClient) spool_now later home_server mx_server (mkSpool ∅ 0) true (lit "laptop") (lit "local.org") home_envelope
    home_collected home_message home_line (mkMailbox (lit "u") (lit "local.org")) [] (lit "mx.local.org") (V4 1)
    (home_wire false) (home_wire true) (λ n, secs (1700000000 + Z.of_nat n)))
    as (s1 & sp1 & r' & log & fe & fc & H1 & _ & _ & _ & H2 & _).
  1: done. 1: (intros seq _; split; apply lookup_empty). 1-5: by vm_compute. 1: apply spool_id_old. 1-5: by vm_compute.
  - exact home_safe.
  - exact home_deliverable.
  - eexists (mkMx 10 (lit "mx.local.org")), [], []. split_and!; by vm_compute.
  - change (srv_tls mx_server && _) with true. exact (home_pieces false).
  - change (srv_tls mx_server && _) with true. exact (home_pieces true).
  - exists s1, r', log. exact (conj H1 H2).
Defined.
