(* ===== verification/Client.v ===== *)
(** * The client bindings

    crates/client/bind.rs: the functions a JavaScript client calls to parse addresses and
    messages, to compose a message and to build the SMTP script that submits it.  Errors
    are strings, as the binding throws them. *)
From S2P Require Import Prelude RustStr Message MailText Smtp Transport Serve.

(** [char::is_control]: the category Cc. *)
Definition is_control (c : char) : bool := (0 <=? c) && (c <=? 31) || (127 <=? c) && (c <=? 159).

(** ** Wrappers *)

Record EmailAddress := mkEmail { ea_local : str; ea_domain : str }.
Definition EmailAddress_parse (addr : str) : result str EmailAddress :=
  mailbox ← map_err MailError_to_string (Mailbox_parse addr); Ok (mkEmail (local mailbox) (domain mailbox)).
Definition ea_address (e : EmailAddress) : str := ea_local e ++ [AT] ++ ea_domain e.

Definition no_envelope : Envelope := mkEnvelope None [].
Definition ParsedMessage_parse (raw : bytes) : result str Message :=
  map_err MailError_to_string (Message_parse no_envelope raw).

(** ** Guards *)

Definition forbid_control (field value : str) : result str () :=
  if existsb is_control value then Err (field ++ lit " must not contain control characters") else Ok ().
Definition parse_address (field addr : str) : result str Mailbox :=
  _ ← forbid_control field addr; map_err MailError_to_string (Mailbox_parse addr).
(** [collect] into a [Result]: the first error. *)
Fixpoint collect_addresses (addrs : list str) : result str (list Mailbox) :=
  match addrs with
  | [] => Ok []
  | addr :: addrs => m ← parse_address (lit "recipient") addr; ms ← collect_addresses addrs; Ok (m :: ms)
  end.
Definition parse_recipients (addrs : list str) : result str (list Mailbox) :=
  if bool_decide (addrs = []) then Err (lit "at least one recipient is required") else collect_addresses addrs.

(** The loop of [normalise_crlf], on the bytes from index [i]. *)
Fixpoint normalise_loop (l : bytes) : bytes :=
  match l with
  | [] => []
  | b :: t =>
      if b =? CR then CRLF ++ match t with
                              | b' :: t' => if b' =? LF then normalise_loop t' else normalise_loop t
                              | [] => normalise_loop t
                              end
      else if b =? LF then CRLF ++ normalise_loop t
      else b :: normalise_loop t
  end.
(** [None]: the [expect] on the UTF-8 validity of the result fails. *)
Definition normalise_crlf (text : str) : option str := from_utf8 (normalise_loop (utf8_encode text)).

(** ** Composing and submitting *)

Inductive Thrown A := Returned (r : result str A) | Panicked_.
Arguments Returned {A}.
Arguments Panicked_ {A}.

Definition compose_raw (sender : Mailbox) (recipients : list Mailbox) (subject body : str) : str :=
  lit "From: " ++ Mailbox_to_string sender ++ CRLF ++ lit "To: " ++ join (lit ", ") (Mailbox_to_string <$> recipients) ++ CRLF ++
  lit "Subject: " ++ subject ++ CRLF ++ CRLF ++ body.
Definition compose_message (from : str) (to : list str) (subject body : str) : Thrown bytes :=
  match forbid_control (lit "subject") subject, parse_address (lit "from") from, parse_recipients to with
  | Err e, _, _ | Ok _, Err e, _ | Ok _, Ok _, Err e => Returned (Err e)
  | Ok _, Ok sender, Ok recipients =>
      match normalise_crlf body with
      | None => Panicked_
      | Some body =>
          Returned (m ← map_err MailError_to_string
                          (Message_parse (mkEnvelope (Some sender) recipients) (utf8_encode (compose_raw sender recipients subject body)));
                    Ok (Message_to_bytes m))
      end
  end.

Definition build_smtp_script (helo sender : str) (recipients : list str) (raw_message : bytes) : result str RelayScript :=
  _ ← forbid_control (lit "helo") helo;
  sender ← parse_address (lit "sender") sender;
  recipients ← parse_recipients recipients;
  message ← map_err MailError_to_string (Message_parse (mkEnvelope (Some sender) recipients) raw_message);
  Ok (relay_script helo message).

(** ** The command line

    crates/client/src/main.rs: a message from the standard input, its fields on the standard
    output.  The input has been read; the two outputs take what is written to them. *)
Record Exit := mkExit { ex_stdout : str; ex_stderr : str; ex_code : Z }.
Definition client_main (stdin : bytes) : Exit :=
  match ParsedMessage_parse stdin with
  | Ok message =>
      mkExit (lit "subject:    " ++ default (lit "(none)") (subject message) ++ [LF] ++
              lit "message-id: " ++ default (lit "(none)") (message_id message) ++ [LF] ++
              lit "bytes:      " ++ show (len (Message_to_bytes message)) ++ [LF]) [] 0
  | Err err => mkExit [] (lit "parse error: " ++ err ++ [LF]) 1
  end.

(** * Line ends *)

Definition plain_char (c : Z) : Prop := c ≠ CR ∧ c ≠ LF.

(** Cases of the loop: a line end of one of the three kinds, or another character. *)
Lemma normalise_loop_ind (P : list Z → list Z → Prop) :
  P [] [] →
  (∀ t, P t (normalise_loop t) → P (CR :: LF :: t) (CRLF ++ normalise_loop t)) →
  (∀ t, head t ≠ Some LF → P t (normalise_loop t) → P (CR :: t) (CRLF ++ normalise_loop t)) →
  (∀ t, P t (normalise_loop t) → P (LF :: t) (CRLF ++ normalise_loop t)) →
  (∀ c t, plain_char c → P t (normalise_loop t) → P (c :: t) (c :: normalise_loop t)) →
  ∀ l, P l (normalise_loop l).
Proof.
  intros H0 Hcrlf Hcr Hlf Hc. assert (∀ n l, (length l ≤ n)%nat → P l (normalise_loop l)) as H; [|intros l; by apply (H (length l))].
  induction n as [|n IH]; intros [|c t] Hn; try done; simpl in Hn; [lia|]. cbn [normalise_loop].
  destruct (Z.eqb_spec c CR) as [->|Hcr']; [|destruct (Z.eqb_spec c LF) as [->|Hlf']].
  - destruct t as [|c' t]; [apply Hcr; [done|by apply IH; simpl; lia]|].
    destruct (Z.eqb_spec c' LF) as [->|Hne].
    + apply Hcrlf, IH. simpl in Hn. lia.
    + apply Hcr; [by intros [= ->]|]. apply IH. simpl in *. lia.
  - apply Hlf, IH. lia.
  - apply Hc; [done|]. apply IH. lia.
Qed.

Lemma normalise_plain bs t : Forall plain_char bs → normalise_loop (bs ++ t) = bs ++ normalise_loop t.
Proof.
  induction 1 as [|c bs [Hcr Hlf] _ IH]; [done|]. cbn [app normalise_loop].
  by rewrite (proj2 (Z.eqb_neq c CR)), (proj2 (Z.eqb_neq c LF)), IH by done.
Qed.
Lemma normalise_crlf_app t : normalise_loop (CRLF ++ t) = CRLF ++ normalise_loop t.
Proof. done. Qed.
Lemma normalise_cr t : head t ≠ Some LF → normalise_loop (CR :: t) = CRLF ++ normalise_loop t.
Proof. intros Ht. cbn [normalise_loop Z.eqb Pos.eqb]. destruct t as [|c t]; [done|]. destruct (Z.eqb_spec c LF) as [->|]; done. Qed.

Lemma utf8_char_plain c : plain_char c → Forall plain_char (utf8_char c).
Proof.
  intros Hc. destruct (Z.lt_ge_cases c 128) as [Hlt|Hge].
  - unfold utf8_char. rewrite (proj2 (Z.ltb_lt c 128)) by done. by constructor.
  - eapply Forall_impl; [by apply utf8_char_big|]. unfold plain_char, CR, LF. simpl. lia.
Qed.
Lemma utf8_head_lf t : head t ≠ Some LF → head (utf8_encode t) ≠ Some LF.
Proof.
  destruct t as [|c t]; [done|]. intros Hc. change (utf8_encode (c :: t)) with (utf8_char c ++ utf8_encode t).
  destruct (Z.lt_ge_cases c 128) as [Hlt|Hge].
  - unfold utf8_char. rewrite (proj2 (Z.ltb_lt c 128)) by done. done.
  - pose proof (utf8_char_big c Hge) as HF. intros E. destruct (utf8_char c) as [|b bs] eqn:Eb.
    + exfalso. revert Eb. unfold utf8_char. by repeat case_code.
    + apply Forall_cons in HF as [Hb _]. simpl in E. unfold LF in E. injection E as ->. lia.
Qed.

(** The bytes are rewritten as the characters would be. *)
Lemma normalise_encode s : normalise_loop (utf8_encode s) = utf8_encode (normalise_loop s).
Proof.
  apply (normalise_loop_ind (λ s out, normalise_loop (utf8_encode s) = utf8_encode out)); clear s.
  - done.
  - intros t IH. change (utf8_encode (CR :: LF :: t)) with (CRLF ++ utf8_encode t).
    by rewrite normalise_crlf_app, IH, utf8_encode_app.
  - intros t Ht IH. change (utf8_encode (CR :: t)) with (CR :: utf8_encode t).
    by rewrite normalise_cr, IH, utf8_encode_app by by apply utf8_head_lf.
  - intros t IH. change (utf8_encode (LF :: t)) with (LF :: utf8_encode t). cbn [normalise_loop Z.eqb Pos.eqb].
    by rewrite IH, utf8_encode_app.
  - intros c t Hc IH. change (utf8_encode (c :: t)) with (utf8_char c ++ utf8_encode t).
    by rewrite normalise_plain, IH by by apply utf8_char_plain.
Qed.

(** Text whose only line ends are CRLF. *)
Definition crlf_text (s : list Z) : Prop := Forall (λ seg, CR ∉ seg ∧ LF ∉ seg) (crlf_split s).

Lemma crlf_text_nil : crlf_text [].
Proof. constructor; [set_solver|constructor]. Qed.
Lemma crlf_text_crlf s : crlf_text s → crlf_text (CRLF ++ s).
Proof. intros H. constructor; [set_solver|exact H]. Qed.
Lemma crlf_split_plain c s : plain_char c → crlf_split (c :: s) = push_head c (crlf_split s).
Proof.
  intros [Hc _]. destruct s as [|y s]; [done|]. rewrite crlf_split_cons2. by rewrite (proj2 (Z.eqb_neq c CR)).
Qed.
Lemma crlf_text_plain c s : plain_char c → crlf_text s → crlf_text (c :: s).
Proof.
  unfold crlf_text. intros Hc H. rewrite crlf_split_plain by done. destruct Hc as [Hcr Hlf].
  destruct (crlf_split s) as [|h r]; [repeat constructor; set_solver|].
  apply Forall_cons in H as [Hh Hr]. constructor; [set_solver|done].
Qed.

Lemma normalise_text s : crlf_text (normalise_loop s).
Proof.
  apply (normalise_loop_ind (λ _ out, crlf_text out)); eauto using crlf_text_nil, crlf_text_crlf, crlf_text_plain.
Qed.
Lemma normalise_idem s : normalise_loop (normalise_loop s) = normalise_loop s.
Proof.
  apply (normalise_loop_ind (λ _ out, normalise_loop out = out)); clear s; [done|..].
  1-3: intros; rewrite normalise_crlf_app; by f_equal.
  intros c t Hc IH. change (normalise_loop ([c] ++ normalise_loop t) = [c] ++ normalise_loop t). by rewrite normalise_plain, IH by by constructor.
Qed.
#[local] Instance plain_char_dec c : Decision (plain_char c).
Proof. unfold plain_char. apply _. Defined.
Lemma normalise_keeps s : filter plain_char (normalise_loop s) = filter plain_char s.
Proof.
  assert (filter plain_char CRLF = []) as Hnl by done.
  apply (normalise_loop_ind (λ s out, filter plain_char out = filter plain_char s)); clear s; [done|..].
  - intros t IH. by rewrite filter_app, Hnl, IH.
  - intros t _ IH. by rewrite filter_app, Hnl, IH.
  - intros t IH. by rewrite filter_app, Hnl, IH.
  - intros c t Hc IH. by rewrite !filter_cons, !decide_True, IH by done.
Qed.

Lemma normalise_chars s : Forall (λ c, is_char c = true) s → Forall (λ c, is_char c = true) (normalise_loop s).
Proof.
  intros HF. apply Forall_forall. intros c Hc. destruct (decide (plain_char c)) as [Hp|Hp].
  - assert (c ∈ filter plain_char (normalise_loop s)) as Hin by (by apply list_elem_of_filter).
    rewrite normalise_keeps in Hin. apply list_elem_of_filter in Hin as [_ Hin]. rewrite Forall_forall in HF. by apply HF.
  - unfold plain_char in Hp. destruct (decide (c = CR)) as [->|]; [done|]. destruct (decide (c = LF)) as [->|]; [done|tauto].
Qed.

Lemma normalise_core (text : str) :
  Forall (λ c, is_char c = true) text →
  normalise_crlf text = Some (normalise_loop text) ∧ crlf_text (normalise_loop text) ∧
  filter plain_char (normalise_loop text) = filter plain_char text ∧ normalise_crlf (normalise_loop text) = Some (normalise_loop text).
Proof.
  intros HF. unfold normalise_crlf. rewrite !normalise_encode, normalise_idem, from_utf8_encode by by apply normalise_chars.
  split_and!; [done|apply normalise_text|apply normalise_keeps|done].
Qed.

(** Line-end normalisation: for every text it returns (the check of its own output
    never fails), all line ends of the result are CRLF, nothing but line ends has
    changed, and normalising again changes nothing. *)
Theorem normalise_crlf_spec (text : str) :
  Forall (λ c, is_char c = true) text →
  ∃ out, normalise_crlf text = Some out ∧ crlf_text out ∧ filter plain_char out = filter plain_char text ∧
    normalise_crlf out = Some out.
Proof. intros HF. exists (normalise_loop text). by apply normalise_core. Qed.

Lemma normalise_crlf_spec_witness :
  ∃ out, normalise_crlf (lit "a" ++ [LF; CR; 8364; CR; LF]) = Some out ∧ crlf_text out ∧
    filter plain_char out = filter plain_char (lit "a" ++ [LF; CR; 8364; CR; LF]) ∧ normalise_crlf out = Some out.
Proof. apply (normalise_crlf_spec (lit "a" ++ [LF; CR; 8364; CR; LF])). by repeat constructor. Defined.

(** * Injection *)

Lemma no_control_one_line s : existsb is_control s = false → one_line_text s.
Proof.
  intros H. rewrite <-not_true_iff_false, existsb_exists in H.
  split; intros Hin%list_elem_of_In; apply H; eexists; (split; [exact Hin|done]).
Qed.

Lemma forbid_control_Ok field s : forbid_control field s = Ok () → one_line_text s.
Proof. unfold forbid_control. destruct (existsb is_control s) eqn:Ec; [done|]. intros _. by apply no_control_one_line. Qed.

Lemma elem_of_trim c s : c ∈ trim s → c ∈ s.
Proof.
  assert (∀ P (l : str), c ∈ drop_while P l → c ∈ l) as Hd.
  { intros P. induction l as [|x l IH]; simpl; [done|]. destruct (P x); [set_solver|done]. }
  unfold trim, trim_end, trim_start, drop_while_end. rewrite elem_of_reverse. intros H%Hd. rewrite elem_of_reverse in H. by apply Hd in H.
Qed.

Lemma Mailbox_parse_chars addr m c : Mailbox_parse addr = Ok m → c ∈ Mailbox_to_string m → c ∈ addr.
Proof.
  intros Hp Hc. assert (c ∈ trim addr) as Ht; [|by apply elem_of_trim].
  unfold Mailbox_parse in Hp. destruct (strip_prefix [AT] (trim addr)) as [route|] eqn:Er; cbn [mbind result_bind ok_or] in Hp.
  - apply strip_prefix_Some in Er. destruct (split_once COLON route) as [[hops a]|] eqn:Ec; [|done]. simpl in Hp.
    apply split_once_Some in Ec as [-> _]. apply split_addr_spec_Ok in Hp as (-> & _). rewrite Er. set_solver.
  - by apply split_addr_spec_Ok in Hp as (-> & _).
Qed.

Lemma parse_address_Ok field addr m :
  parse_address field addr = Ok m → Mailbox_parse addr = Ok m ∧ one_line_text (Mailbox_to_string m).
Proof.
  unfold parse_address, forbid_control. destruct (existsb is_control addr) eqn:Ec; [done|].
  cbn [mbind result_bind]. destruct (Mailbox_parse addr) as [m'|] eqn:Em; [|done]. intros [= ->]. split; [done|].
  apply no_control_one_line in Ec as [H1 H2]. split; intros H; [apply H1|apply H2]; by eapply Mailbox_parse_chars.
Qed.
Lemma collect_addresses_Ok addrs : ∀ ms,
  collect_addresses addrs = Ok ms → Forall2 (λ a m, Mailbox_parse a = Ok m) addrs ms ∧ Forall (λ m, one_line_text (Mailbox_to_string m)) ms.
Proof.
  induction addrs as [|a addrs IH]; intros ms; [intros [= <-]; by split|]. cbn [collect_addresses mbind result_bind].
  destruct (parse_address (lit "recipient") a) as [m|] eqn:Ea; [|done]. apply parse_address_Ok in Ea as [? ?].
  destruct (collect_addresses addrs) as [ms'|]; [|done]. intros [= <-]. destruct (IH ms' eq_refl). split; by constructor.
Qed.
Lemma parse_recipients_Ok addrs ms :
  parse_recipients addrs = Ok ms →
  ms ≠ [] ∧ Forall2 (λ a m, Mailbox_parse a = Ok m) addrs ms ∧ Forall (λ m, one_line_text (Mailbox_to_string m)) ms.
Proof.
  unfold parse_recipients. case_bool_decide as Hne; [done|]. intros [H1 H2]%collect_addresses_Ok. split_and!; [|done..].
  intros ->. by inversion H1.
Qed.

Lemma join_one_line ss : Forall one_line_text ss → one_line_text (join (lit ", ") ss).
Proof.
  induction 1 as [|x ss Hx HF IH]; [split; set_solver|]. destruct ss as [|y ss]; [done|].
  change (join (lit ", ") (x :: y :: ss)) with (x ++ lit ", " ++ join (lit ", ") (y :: ss)). text_line.
Qed.

Definition compose_headers (sender : Mailbox) (recipients : list Mailbox) (subject : str) : list str :=
  [lit "From: " ++ Mailbox_to_string sender; lit "To: " ++ join (lit ", ") (Mailbox_to_string <$> recipients); lit "Subject: " ++ subject].

Lemma compose_raw_lines sender recipients subject body :
  utf8_encode (compose_raw sender recipients subject body) =
  ((utf8_encode <$> compose_headers sender recipients subject) ≫= λ l, l ++ CRLF) ++ CRLF ++ utf8_encode body.
Proof.
  unfold compose_raw, compose_headers. cbn [fmap list_fmap mbind list_bind]. rewrite !utf8_encode_app, <-!app_assoc. done.
Qed.

Lemma compose_headers_ok sender recipients subject :
  one_line_text (Mailbox_to_string sender) → Forall (λ m, one_line_text (Mailbox_to_string m)) recipients → one_line_text subject →
  Forall header_line (utf8_encode <$> compose_headers sender recipients subject).
Proof.
  intros Hs Hr Hsub. assert (one_line_text (join (lit ", ") (Mailbox_to_string <$> recipients))) as Hj.
  { apply join_one_line. by apply Forall_fmap. }
  unfold compose_headers. cbn [fmap list_fmap]. repeat (apply Forall_cons; split); [..|done].
  - apply (header_line_named (lit "From") (lit " " ++ Mailbox_to_string sender)); [by vm_compute|text_line].
  - apply (header_line_named (lit "To") (lit " " ++ join (lit ", ") (Mailbox_to_string <$> recipients))); [by vm_compute|text_line].
  - apply (header_line_named (lit "Subject") (lit " " ++ subject)); [by vm_compute|text_line].
Qed.

(** The fields of the three lines. *)
Lemma compose_fields sender recipients subject fs :
  Forall (λ c, is_char c = true) (Mailbox_to_string sender ++ join (lit ", ") (Mailbox_to_string <$> recipients) ++ subject) →
  fields_of (utf8_encode <$> compose_headers sender recipients subject) fs →
  (λ f, (trim f.1, trim f.2)) <$> fs =
  [(lit "From", trim (Mailbox_to_string sender)); (lit "To", trim (join (lit ", ") (Mailbox_to_string <$> recipients)));
   (lit "Subject", trim subject)].
Proof.
  intros [Hs [Hr Hsub]%Forall_app]%Forall_app HF. unfold compose_headers in HF. cbn [fmap list_fmap] in HF.
  assert (∀ (name : string) v f, Forall (λ c, is_char c = true) v →
    forallb is_char (lit name) && negb (contains_char COLON (lit name)) && trimmedb (lit name) = true →
    field_line (from_utf8_lossy (utf8_encode ((lit name ++ lit ": ") ++ v))) f.1 f.2 →
    (trim f.1, trim f.2) = (lit name, trim v)) as Hf.
  { intros name v [n v'] Hv Hn [Hsp _]. cbn [fst snd] in *. rewrite !andb_true_iff in Hn. destruct Hn as [[Hc Hcol] Ht].
    unfold contains_char in Hcol. bsimp. rewrite trimmedb_true in *. rewrite from_utf8_lossy_encode in Hsp.
    2: { rewrite !Forall_app. split_and!; [|by repeat constructor|done]. apply Forall_forall. intros c Hin%list_elem_of_In.
         by apply (proj1 (forallb_forall _ _) Hc). }
    rewrite <-app_assoc in Hsp. change (lit ": " ++ v) with (COLON :: SP :: v) in Hsp. rewrite split_once_app in Hsp by done.
    simplify_eq. rewrite trim_id by done. f_equal. }
  apply Forall2_cons_inv_l in HF as (f1 & fs1 & H1 & HF & ->). apply Forall2_cons_inv_l in HF as (f2 & fs2 & H2 & HF & ->).
  apply Forall2_cons_inv_l in HF as (f3 & fs3 & H3 & HF & ->). apply Forall2_nil_inv_l in HF as ->. cbn [fmap list_fmap].
  rewrite (Hf "From" (Mailbox_to_string sender) f1), (Hf "To" (join (lit ", ") (Mailbox_to_string <$> recipients)) f2),
    (Hf "Subject" subject f3); done.
Qed.

Definition valid_texts (from : str) (to : list str) (subject body : str) : Prop :=
  Forall (λ s, Forall (λ c, is_char c = true) s) (from :: subject :: body :: to).

Lemma join_chars ss : Forall (λ s, Forall (λ c, is_char c = true) s) ss → Forall (λ c, is_char c = true) (join (lit ", ") ss).
Proof.
  induction 1 as [|x ss Hx HF IH]; [constructor|]. destruct ss as [|y ss]; [done|].
  change (join (lit ", ") (x :: y :: ss)) with (x ++ lit ", " ++ join (lit ", ") (y :: ss)).
  rewrite !Forall_app. split_and!; [done|by repeat constructor|done].
Qed.
Lemma Mailbox_chars addr m : Forall (λ c, is_char c = true) addr → Mailbox_parse addr = Ok m → Forall (λ c, is_char c = true) (Mailbox_to_string m).
Proof.
  rewrite !Forall_forall. intros H Hp c Hc. apply H. by eapply Mailbox_parse_chars.
Qed.

(** What composing returns, with the bytes it is made of. *)
Lemma compose_core (from : str) (to : list str) (subject body : str) :
  valid_texts from to subject body →
  (∃ why, compose_message from to subject body = Returned (Err why)) ∨
  ∃ m sender recipients,
    compose_message from to subject body = Returned (Ok (Message_to_bytes m)) ∧ Mailbox_parse from = Ok sender ∧
    Forall2 (λ a r, Mailbox_parse a = Ok r) to recipients ∧ recipients ≠ [] ∧
    Message_to_bytes m = ((utf8_encode <$> compose_headers sender recipients subject) ≫= λ l, l ++ CRLF) ++ CRLF ++ utf8_encode (normalise_loop body) ∧
    Forall header_line (utf8_encode <$> compose_headers sender recipients subject) ∧
    Message_parse (mkEnvelope (Some sender) recipients) (Message_to_bytes m) = Ok m ∧
    msg_headers m = [(lit "From", trim (Mailbox_to_string sender)); (lit "To", trim (join (lit ", ") (Mailbox_to_string <$> recipients)));
                     (lit "Subject", trim subject)] ∧
    msg_body m = utf8_encode (normalise_loop body) ∧ crlf_text (normalise_loop body).
Proof.
  unfold valid_texts. intros [Hf [Hs [Hb Ht]%Forall_cons]%Forall_cons]%Forall_cons. unfold compose_message.
  destruct (forbid_control (lit "subject") subject) as [[]|e] eqn:Ec; [|left; by eexists]. apply forbid_control_Ok in Ec.
  destruct (parse_address (lit "from") from) as [sender|e] eqn:Ef; [|left; by eexists]. apply parse_address_Ok in Ef as [Hp Ho].
  destruct (parse_recipients to) as [rs|e] eqn:Er; [|left; by eexists]. apply parse_recipients_Ok in Er as (Hne & Hrs & Hro).
  destruct (normalise_core body Hb) as (-> & Hcrlf & _). right. rewrite compose_raw_lines.
  destruct (Message_parse_lines (mkEnvelope (Some sender) rs) (utf8_encode <$> compose_headers sender rs subject)
    (utf8_encode (normalise_loop body))) as (m & fs & Hm & _ & Hbody & Hhead & Hfs & Hh); [by apply compose_headers_ok|done|].
  rewrite Hm. cbn [map_err mbind result_bind]. exists m, sender, rs. split; [done|].
  assert (Message_to_bytes m = ((utf8_encode <$> compose_headers sender rs subject) ≫= λ l, l ++ CRLF) ++ CRLF ++ utf8_encode (normalise_loop body)) as Hbytes.
  { unfold Message_to_bytes. by rewrite Hhead, Hbody, <-app_assoc. }
  rewrite Hbytes. split_and!; [done..|by apply compose_headers_ok|done| |done|done]. rewrite Hh. apply compose_fields; [|done].
  rewrite !Forall_app. split_and!; [exact (Mailbox_chars _ _ Hf Hp)| |done]. apply join_chars, Forall_fmap, Forall_forall. intros r Hr.
  apply list_elem_of_lookup in Hr as [i Hi]. destruct (Forall2_lookup_r _ _ _ _ _ Hrs Hi) as (a & Ha & Hpa).
  eapply Mailbox_chars; [|exact Hpa]. rewrite Forall_forall in Ht. apply Ht. by eapply list_elem_of_lookup_2.
Qed.

(** C34: a composed message says what the caller said and nothing else: whatever the
    addresses, the subject and the body contain, composing never panics, and if it
    returns a message then that message has exactly the three fields From, To and
    Subject, holding the parsed sender, the parsed recipients in order and the subject,
    and its body is the given one with CRLF line ends.  No argument can add a field, a
    recipient or a second body. *)
Theorem compose_no_injection (from : str) (to : list str) (subject body : str) :
  valid_texts from to subject body →
  (∃ why, compose_message from to subject body = Returned (Err why)) ∨
  ∃ raw m sender recipients,
    compose_message from to subject body = Returned (Ok raw) ∧ Mailbox_parse from = Ok sender ∧
    Forall2 (λ a r, Mailbox_parse a = Ok r) to recipients ∧ recipients ≠ [] ∧
    Message_parse (mkEnvelope (Some sender) recipients) raw = Ok m ∧ Message_to_bytes m = raw ∧
    msg_headers m = [(lit "From", trim (Mailbox_to_string sender)); (lit "To", trim (join (lit ", ") (Mailbox_to_string <$> recipients)));
                     (lit "Subject", trim subject)] ∧
    msg_body m = utf8_encode (normalise_loop body) ∧ crlf_text (normalise_loop body).
Proof.
  intros [H|(m & sender & rs & Hc & Hf & Ht & Hne & _ & _ & Hp & Hh & Hb & Ht')]%compose_core; [by left|].
  right. by exists (Message_to_bytes m), m, sender, rs.
Qed.

Lemma compose_no_injection_witness :
  ∃ raw, compose_message (lit "a@b.org") [lit "c@d.org"] (lit "hi") (lit "x" ++ [LF] ++ lit "Bcc: e@f.org") = Returned (Ok raw) ∧
  ∃ m, msg_headers m = [(lit "From", lit "a@b.org"); (lit "To", lit "c@d.org"); (lit "Subject", lit "hi")] ∧ Message_to_bytes m = raw.
Proof.
  destruct (compose_no_injection (lit "a@b.org") [lit "c@d.org"] (lit "hi") (lit "x" ++ [LF] ++ lit "Bcc: e@f.org"))
    as [[why H]|(raw & m & sender & rs & H & Hs & Hr & _ & _ & Hb & Hh & _)].
  - repeat (apply Forall_cons; split; [repeat (apply Forall_cons; split; [done|]); by apply Forall_nil|]). by apply Forall_nil.
  - exfalso. by vm_compute in H.
  - exists raw. split; [done|]. exists m. split; [|done]. rewrite Hh.
    assert (Ok (E:=MailError) sender = Ok (mkMailbox (lit "a") (lit "b.org"))) as [= ->] by (rewrite <-Hs; by vm_compute).
    apply Forall2_cons_inv_l in Hr as (r & rs' & Hr & Hn & ->). apply Forall2_nil_inv_l in Hn as ->.
    assert (Ok (E:=MailError) r = Ok (mkMailbox (lit "c") (lit "d.org"))) as [= ->] by (rewrite <-Hr; by vm_compute). by vm_compute.
Defined.

(** Each line of a script is one line, whatever message goes with it. *)
Lemma relay_script_lines helo m :
  one_line_text helo → (∀ s, env_sender (msg_envelope m) = Some s → one_line_text (Mailbox_to_string s)) →
  Forall (λ r, one_line_text (Mailbox_to_string r)) (env_recipients (msg_envelope m)) →
  Forall one_line_text (commands (relay_script helo m)).
Proof.
  intros Hh Hs Hr. unfold relay_script. cbn [commands]. rewrite !Forall_app, Forall_fmap. split_and!.
  - assert (one_line_text (from_option Mailbox_to_string [] (env_sender (msg_envelope m)))).
    { destruct (env_sender (msg_envelope m)) as [s|]; [by apply Hs|]. by apply one_line_check. }
    apply Forall_cons. split; [text_line|]. apply Forall_cons. split; [text_line|constructor].
  - eapply Forall_impl; [exact Hr|]. intros r Hr'. cbn beta. text_line.
  - constructor; [text_line|constructor].
Qed.

Lemma script_core (helo sender : str) (recipients : list str) (raw : bytes) (script : RelayScript) :
  build_smtp_script helo sender recipients raw = Ok script →
  Forall one_line_text (commands script) ∧
  ∃ from rcpts, Mailbox_parse sender = Ok from ∧ Forall2 (λ a r, Mailbox_parse a = Ok r) recipients rcpts ∧
    commands script = [lit "EHLO " ++ helo; lit "MAIL FROM:<" ++ Mailbox_to_string from ++ lit ">"] ++
      ((λ r, lit "RCPT TO:<" ++ Mailbox_to_string r ++ lit ">") <$> rcpts) ++ [lit "DATA"] ∧
    data script = dot_stuff raw.
Proof.
  unfold build_smtp_script, map_err. destruct (forbid_control (lit "helo") helo) as [[]|] eqn:Eh; [|done]. apply forbid_control_Ok in Eh.
  destruct (parse_address (lit "sender") sender) as [from|] eqn:Es; [|done]. apply parse_address_Ok in Es as [Hs Ho].
  destruct (parse_recipients recipients) as [rcpts|] eqn:Er; [|done]. apply parse_recipients_Ok in Er as (_ & Hr & Hro).
  cbn [mbind result_bind]. destruct (Message_parse (mkEnvelope (Some from) rcpts) raw) as [m|] eqn:Em; [|done]. intros [= <-].
  apply Message_parse_inv in Em as (He & Hh & Hb & _). split.
  - apply relay_script_lines; rewrite ?He; [done| |done]. by intros s [= <-].
  - exists from, rcpts. unfold relay_script. rewrite He. split_and!; [done..|]. cbn [data].
    unfold Message_to_bytes. by rewrite Hh, Hb, take_drop.
Qed.

(** No argument of a submission can smuggle a command into the script: a script
    that is built has EHLO, MAIL FROM, one RCPT TO for each recipient asked for, in
    order, and DATA, none of these lines holds a CR or an LF, and the payload is the
    given message, dot-stuffed. *)
Theorem script_no_injection (helo sender : str) (recipients : list str) (raw : bytes) (script : RelayScript) :
  build_smtp_script helo sender recipients raw = Ok script →
  Forall one_line_text (commands script) ∧
  ∃ from rcpts, Mailbox_parse sender = Ok from ∧ Forall2 (λ a r, Mailbox_parse a = Ok r) recipients rcpts ∧
    commands script = [lit "EHLO " ++ helo; lit "MAIL FROM:<" ++ Mailbox_to_string from ++ lit ">"] ++
      ((λ r, lit "RCPT TO:<" ++ Mailbox_to_string r ++ lit ">") <$> rcpts) ++ [lit "DATA"] ∧
    data script = dot_stuff raw.
Proof. apply script_core. Qed.

Lemma script_no_injection_witness :
  ∃ script, build_smtp_script (lit "c.org") (lit "a@b.org") [lit "c@d.org"] (lit "Subject: hi" ++ CRLF ++ CRLF ++ lit ".") = Ok script ∧
    Forall one_line_text (commands script) ∧ length (commands script) = 4%nat.
Proof.
  eexists. split; [by vm_compute|]. split; [|by vm_compute].
  apply (script_no_injection (lit "c.org") (lit "a@b.org") [lit "c@d.org"] (lit "Subject: hi" ++ CRLF ++ CRLF ++ lit ".")). by vm_compute.
Defined.

Lemma fields_of_inj ls fs fs' : fields_of ls fs → fields_of ls fs' → fs = fs'.
Proof.
  intros H. revert fs'. induction H as [|l [n v] ls fs [Hs _] _ IH]; intros fs' H'; inversion H' as [|? [n' v'] ? ? [Hs' _] H'']; subst; [done|].
  cbn [fst snd] in *. rewrite Hs in Hs'. injection Hs' as <- <-. f_equal. by apply IH.
Qed.

(** Header lines followed by CRLF text are CRLF text. *)
Lemma crlf_text_lines ls t : Forall header_line ls → crlf_text t → crlf_text ((ls ≫= λ l, l ++ CRLF) ++ t).
Proof.
  induction 1 as [|l ls (Hc & Hl & _) _ IH]; intros Ht; [done|]. rewrite bind_cons, <-!app_assoc.
  specialize (IH Ht). apply crlf_text_crlf in IH. revert IH. generalize (CRLF ++ (ls ≫= λ l0, l0 ++ CRLF) ++ t). intros r Hr.
  induction l as [|c l IHl]; [done|]. simpl. apply crlf_text_plain; [split; set_solver|]. apply IHl; set_solver.
Qed.

(** C35: the client and the server agree on a message: one composed by the client, sent
    as the payload of a script the client builds, and read line by line by the
    server's collector arrives complete, as one message, followed by one CRLF, and is
    read there with exactly the three fields From, To and Subject, which hold the sender,
    the recipients in order and the subject the caller gave, and with the caller's body. *)
Theorem client_server_roundtrip (from : str) (to : list str) (subject body helo sender : str) (rcpts : list str)
    (raw : bytes) (script : RelayScript) (max : Z) :
  valid_texts from to subject body → compose_message from to subject body = Returned (Ok raw) →
  build_smtp_script helo sender rcpts raw = Ok script → len raw + 2 ≤ max →
  collect (with_max_size max) (split_inclusive_lf (data script)) = (mkCollector (raw ++ CRLF) true true max false, Some []) ∧
  ∃ author recipients, Mailbox_parse from = Ok author ∧ Forall2 (λ a r, Mailbox_parse a = Ok r) to recipients ∧
    ∀ env, ∃ m, Message_parse env (raw ++ CRLF) = Ok m ∧
      msg_headers m = [(lit "From", trim (Mailbox_to_string author)); (lit "To", trim (join (lit ", ") (Mailbox_to_string <$> recipients)));
                       (lit "Subject", trim subject)] ∧
      msg_body m = utf8_encode (normalise_loop body) ++ CRLF.
Proof.
  intros Hv Hraw Hs Hmax. destruct (compose_core _ _ _ _ Hv) as [[why H]|(m & s & rs & Hc & Hfrom & Hto & _ & Hb & Hl & Hp & Hh & Hbody & Ht)]; [congruence|].
  rewrite Hc in Hraw. injection Hraw as <-. split.
  - apply script_core in Hs as (_ & ? & ? & _ & _ & _ & ->). apply dot_stuff_collect_core; [|done].
    eapply (Forall_impl (λ seg, CR ∉ seg ∧ LF ∉ seg)); [|by intros ? []]. fold (crlf_text (Message_to_bytes m)). rewrite Hb.
    apply crlf_text_lines; [done|]. apply crlf_text_crlf. rewrite <-normalise_encode. apply normalise_text.
  - exists s, rs. split; [done|]. split; [done|]. intros env. rewrite Hb, <-!app_assoc.
    destruct (Message_parse_lines (mkEnvelope (Some s) rs) _ (utf8_encode (normalise_loop body)) Hl) as (m1 & fs & Hm1 & _ & _ & _ & Hfs & Hh1); [done|].
    destruct (Message_parse_lines env _ (utf8_encode (normalise_loop body) ++ CRLF) Hl) as (m2 & fs2 & Hm2 & _ & Hb2 & _ & Hfs2 & Hh2); [done|].
    rewrite Hb in Hp. rewrite Hp in Hm1. injection Hm1 as <-.
    assert (fs2 = fs) as -> by (by eapply fields_of_inj). exists m2. by rewrite Hh2, <-Hh1, Hh, Hb2.
Qed.

Lemma client_server_roundtrip_witness :
  let body := lit "." ++ [LF] ++ lit "x" in
  ∃ raw script, compose_message (lit "a@b.org") [lit "c@d.org"] (lit "hi") body = Returned (Ok raw) ∧
    build_smtp_script (lit "c.org") (lit "a@b.org") [lit "c@d.org"] raw = Ok script ∧
    collect (with_max_size 100) (split_inclusive_lf (data script)) = (mkCollector (raw ++ CRLF) true true 100 false, Some []).
Proof.
  intros body. eexists _, _. split; [by vm_compute|]. split; [by vm_compute|].
  apply (client_server_roundtrip (lit "a@b.org") [lit "c@d.org"] (lit "hi") body (lit "c.org") (lit "a@b.org") [lit "c@d.org"]).
  - repeat (apply Forall_cons; split; [repeat (apply Forall_cons; split; [done|]); by apply Forall_nil|]). by apply Forall_nil.
  - by vm_compute.
  - by vm_compute.
  - by vm_compute.
Defined.

(** ** The command line *)

(** The command tells good input from bad by its exit status and its streams, and the
    number it prints for a message is the number of bytes it was given. *)
Theorem client_main_reports (stdin : bytes) :
  match Message_parse no_envelope stdin with
  | Ok m => ex_code (client_main stdin) = 0 ∧ ex_stderr (client_main stdin) = [] ∧
            ∃ head, ex_stdout (client_main stdin) = head ++ lit "bytes:      " ++ show (len stdin) ++ [LF]
  | Err e => ex_code (client_main stdin) = 1 ∧ ex_stdout (client_main stdin) = [] ∧
             ex_stderr (client_main stdin) = lit "parse error: " ++ MailError_to_string e ++ [LF]
  end.
Proof.
  unfold client_main, ParsedMessage_parse. destruct (Message_parse no_envelope stdin) as [m|e] eqn:E; cbn [map_err]; [|done].
  split_and!; [done..|]. cbn [ex_stdout]. destruct (Message_bytes_roundtrip _ _ _ E) as [-> _].
  generalize (lit "subject:    ") (lit "message-id: ") (lit "bytes:      ") (show (len stdin))
    (default (lit "(none)") (subject m)) (default (lit "(none)") (message_id m)).
  intros a b c n d1 d2. exists (a ++ d1 ++ [LF] ++ b ++ d2 ++ [LF]). by rewrite <-!app_assoc.
Qed.
