(* ===== verification/Telemetry.v ===== *)
(** * Telemetry

    services/telemetry: the exporter setting, the configuration, the once-only
    initialisation of the process's subscriber, the event counter, the [selftest]
    command, and the two other programs that initialise it.  OpenTelemetry and tracing are third-party code: whether a filter directive
    parses and which events it lets through, and whether an OTLP exporter can be built,
    are parameters; the global subscriber is a flag of the process. *)
From S2P Require Import Prelude RustStr Net Startup.

(** ** Configuration (data/mod.rs) *)

Inductive ExporterKind := Stdout | Otlp (endpoint : str).
#[export] Instance ExporterKind_eq_dec : EqDecision ExporterKind.
Proof. solve_decision. Defined.

Definition ExporterKind_parse (raw : str) : option ExporterKind :=
  let raw := trim raw in
  if eq_ignore_case raw (lit "stdout") then Some Stdout else
  match strip_prefix (lit "otlp:") raw with
  | Some endpoint => if bool_decide (endpoint = []) then None else Some (Otlp endpoint)
  | None => None
  end.

Record TelemetryConfig := mkTelemetry {
  tc_service_name : str; tc_log_filter : str; tc_exporter : ExporterKind; tc_flush_timeout : Z }.
Definition TelemetryConfig_stdout (service_name : str) : TelemetryConfig :=
  mkTelemetry service_name (lit "info") Stdout (secs 5).

(** ** The event counter (listeners/mod.rs)

    [fetch_add] on an [AtomicU64]; the clones of a counter share it. *)
Definition EventCounter : Type := Z.
Definition EventCounter_new : EventCounter := 0.
Definition on_event (c : EventCounter) : EventCounter := add_u64 c 1.
Definition count (c : EventCounter) : Z := c.

(** ** Initialisation (lib/mod.rs, otel/mod.rs, exporters/mod.rs) *)

Inductive TelemetryError := FilterError (directive : str) | ExporterError (reason : str) | AlreadyInitialised.
#[export] Instance TelemetryError_eq_dec : EqDecision TelemetryError.
Proof. solve_decision. Defined.

Definition TelemetryError_to_string (e : TelemetryError) : str :=
  match e with
  | FilterError directive => lit "invalid log filter `" ++ directive ++ lit "`"
  | ExporterError reason => lit "exporter error: " ++ reason
  | AlreadyInitialised => lit "telemetry already initialised"
  end.

Inductive Level := Warn | Info.

Section telemetry.
(** [EnvFilter::try_new], what a parsed filter lets through, and the OTLP exporter. *)
Context (filter_parses : str → bool) (enabled : str → Level → bool) (build_otlp : str → result str ()).

Definition build_filter (config : TelemetryConfig) : result TelemetryError str :=
  if filter_parses (tc_log_filter config) then Ok (tc_log_filter config) else Err (FilterError (tc_log_filter config)).
Definition otlp (endpoint : str) : result TelemetryError () := map_err ExporterError (build_otlp endpoint).
(** The provider: the exporter spans go to, tagged with the service name. *)
Definition build_provider (config : TelemetryConfig) : result TelemetryError (ExporterKind * str) :=
  match tc_exporter config with
  | Stdout => Ok (Stdout, tc_service_name config)
  | Otlp endpoint => _ ← otlp endpoint; Ok (Otlp endpoint, tc_service_name config)
  end.

(** The process's subscriber, once set: its filter and its counter. *)
Record Subscriber := mkSubscriber { sb_filter : str; sb_provider : ExporterKind * str; sb_events : EventCounter }.

(** [init]: the subscriber can be installed once; the guard is the right to read it. *)
Definition init (config : TelemetryConfig) (global : option Subscriber) : option Subscriber * result TelemetryError () :=
  match build_filter config with
  | Err e => (global, Err e)
  | Ok filter =>
      match build_provider config with
      | Err e => (global, Err e)
      | Ok provider =>
          match global with
          | Some _ => (global, Err AlreadyInitialised)
          | None => (Some (mkSubscriber filter provider EventCounter_new), Ok ())
          end
      end
  end.

(** [info!] and [warn!]: an event reaches the counter if the filter lets it through.  Only
    the program's own events are counted here, not those of third-party code. *)
Definition emit (global : option Subscriber) (l : Level) : option Subscriber :=
  (λ sb, if enabled (sb_filter sb) l then mkSubscriber (sb_filter sb) (sb_provider sb) (on_event (sb_events sb)) else sb) <$> global.

(** ** The command (main.rs) *)

Inductive CommandError := UnknownCommand (c : str) | InitFailed (e : TelemetryError) | NoEvents.

(** The events observed, and the exporter, that the command prints. *)
Definition selftest (global : option Subscriber) : option Subscriber * result CommandError (Z * ExporterKind) :=
  let config := TelemetryConfig_stdout (lit "snail-telemetry-selftest") in
  match init config global with
  | (global, Err e) => (global, Err (InitFailed e))
  | (global, Ok _) =>
      let global := foldl emit global [Info; Warn; Info] in
      let observed := default 0 (count ∘ sb_events <$> global) in
      (global, if observed =? 0 then Err NoEvents else Ok (observed, tc_exporter config))
  end.

Definition telemetry_main (args : list str) (global : option Subscriber)
    : option Subscriber * result CommandError (Z * ExporterKind) :=
  let mode := default (lit "selftest") (args !! 1%nat) in
  if mode =s? lit "selftest" then selftest global else (global, Err (UnknownCommand mode)).

(** ** Who initialises it *)

(** [main] of services/snail_server, whose [?] makes a refused initialisation fatal;
    [rest] is what follows it, [Startup.main]. *)
Definition server_main {X} (rest : result AnyError X) (global : option Subscriber) : option Subscriber * result AnyError X :=
  match init (TelemetryConfig_stdout (lit "snail-server")) global with
  | (global, Err e) => (global, Err (AnyMsg (TelemetryError_to_string e)))
  | (global, Ok _) => (global, rest)
  end.

(** The binary of crates/mail: the configuration is read before telemetry starts. *)
Definition mail_main (get : str → option str) (global : option Subscriber) : option Subscriber * result AnyError Config :=
  match Config_from_source get with
  | Err e => (global, Err (AnyUtil e))
  | Ok app_config =>
      match init (TelemetryConfig_stdout (lit "snail-mail")) global with
      | (global, Err e) => (global, Err (AnyMsg (TelemetryError_to_string e)))
      | (global, Ok _) => (emit global Info, Ok app_config)
      end
  end.

(** * Theorems *)

(** Initialisation happens at most once, and a refused one leaves the process as it was: of
    any sequence of calls the first whose filter and exporter are good succeeds, every
    call after it fails, with [AlreadyInitialised] if it was good itself, and the
    subscriber in force is the first one's. *)
Theorem init_once (config : TelemetryConfig) (global : option Subscriber) :
  let good := filter_parses (tc_log_filter config) = true ∧
              (∀ endpoint, tc_exporter config = Otlp endpoint → build_otlp endpoint = Ok tt) in
  let '(global', r) := init config global in
  (r = Ok tt ↔ global = None ∧ good) ∧
  (r = Ok tt → ∃ sb, global' = Some sb ∧ sb_filter sb = tc_log_filter config ∧ count (sb_events sb) = 0) ∧
  (r ≠ Ok tt → global' = global) ∧
  (r = Err AlreadyInitialised ↔ is_Some global ∧ good).
Proof.
  unfold init, build_filter. destruct (filter_parses (tc_log_filter config)) eqn:Ef.
  2: { split_and!; try done; split; naive_solver. }
  unfold build_provider, otlp. destruct (tc_exporter config) as [|endpoint] eqn:Ex.
  - destruct global as [sb|]; (split_and!; [split|..]); try naive_solver.
  - destruct (build_otlp endpoint) as [[]|reason] eqn:Eb; cbn [map_err mbind result_bind].
    + destruct global as [sb|]; (split_and!; [split|..]); try naive_solver.
    + (split_and!; [split|..|split]); try naive_solver.
      all: intros [_ [_ Hb]]; specialize (Hb endpoint eq_refl); congruence.
Qed.

(** The self-test reports on the pipeline truthfully: in a process where nothing was
    initialised and the default filter parses, it succeeds exactly if some of its events
    come through, with their number, and prints the exporter of its configuration. *)
Theorem selftest_observes :
  filter_parses (lit "info") = true →
  (selftest None).2 =
    let n := (if enabled (lit "info") Info then 2 else 0) + (if enabled (lit "info") Warn then 1 else 0) in
    if n =? 0 then Err NoEvents else Ok (n, Stdout).
Proof.
  unfold selftest, init, build_filter, emit, TelemetryConfig_stdout. generalize (lit "info") (lit "snail-telemetry-selftest").
  intros f name Hf. simpl. rewrite Hf. simpl. by destruct (enabled f Info) eqn:Ei, (enabled f Warn) eqn:Ew; simpl; rewrite ?Ei, ?Ew; simpl; rewrite ?Ei, ?Ew.
Qed.

(** In a fresh process telemetry stops neither program: the server goes on to the rest of
    [main], and the other binary ends as its configuration does. *)
Theorem mains_start {X} (rest : result AnyError X) (get : str → option str) :
  filter_parses (lit "info") = true →
  (server_main rest None).2 = rest ∧ (mail_main get None).2 = map_err AnyUtil (Config_from_source get).
Proof.
  unfold server_main, mail_main, init, build_filter, TelemetryConfig_stdout.
  generalize (lit "info") (lit "snail-server") (lit "snail-mail"). intros f n1 n2 Hf. simpl. rewrite Hf. simpl.
  split; [done|]. by destruct (Config_from_source get).
Qed.
End telemetry.

(** ** The exporter setting *)

(** [SNAIL_TELEMETRY_EXPORTER] is read as documented and nothing else is accepted: up to
    white space around it, the setting selects an endpoint exactly if it is [otlp:]
    followed by that endpoint, not empty; and stdout exactly if it is that word, in any
    case. *)
Theorem ExporterKind_parse_spec (raw endpoint : str) :
  (ExporterKind_parse raw = Some (Otlp endpoint) ↔ trim raw = lit "otlp:" ++ endpoint ∧ endpoint ≠ []) ∧
  (ExporterKind_parse raw = Some Stdout ↔ eq_ignore_case (trim raw) (lit "stdout") = true).
Proof.
  unfold ExporterKind_parse. destruct (eq_ignore_case (trim raw) (lit "stdout")) eqn:Es.
  - split; [|done]. split; [done|]. intros [E _]. exfalso. rewrite E in Es. apply str_eqb_eq in Es.
    unfold lowercase in Es. rewrite fmap_app in Es. apply (f_equal head) in Es. by vm_compute in Es.
  - destruct (strip_prefix (lit "otlp:") (trim raw)) as [e|] eqn:Ep.
    + apply strip_prefix_Some in Ep. case_bool_decide as He; (split; [|done]).
      * split; [done|]. intros [E Hne]. rewrite Ep in E. apply app_inv_head in E. congruence.
      * split; [intros [= <-]; by split|]. intros [E _]. rewrite Ep in E. apply app_inv_head in E. congruence.
    + split; [|done]. split; [done|]. intros [E _]. by eapply strip_prefix_None in Ep.
Qed.

Example exporter_1 : ExporterKind_parse (lit " otlp:http://localhost:4317") = Some (Otlp (lit "http://localhost:4317")).
Proof. by vm_compute. Qed.
Example exporter_2 : ExporterKind_parse (lit "otlp:") = None ∧ ExporterKind_parse (lit "kafka") = None.
Proof. by vm_compute. Qed.
