(* ===== verification/Process.v ===== *)
(** * The running process

    [run] of services/snail_server/src/serve.rs, with the tasks it spawns: the four accept
    loops and the connections they serve, the relay worker (worker.rs,
    [spawn_relay_worker]) and the report worker (dmarc_report.rs, [spawn_report_worker]),
    all over one shared [Server], until Ctrl-C and the orderly stop that follows it.

    A transition is what one task does between two awaits: an accept loop takes a permit
    or a connection, a connection handles one line, the worker scans the queue, loads
    one entry, or acts on what the relay client answered.  An [Event] names the task and
    carries everything that comes from outside: the bytes, the clock, the answers of the
    DNS and of the peers.  So an execution is a list of events, and the relay attempt,
    which awaits the network, is open to everything the other tasks do meanwhile. *)
From S2P Require Import Prelude RustStr Net Message Smtp Transport Store Auth Submission Pop Imap.
From S2P Require Import Throttle Greylist Received Dmarc DmarcReport AuditTrail Firewall Spool Server Serve Access Worker.

(** ** The tasks *)

Inductive Listener := OnSubmission | OnPop3 | OnImap | OnInbound.
#[export] Instance Listener_eq_dec : EqDecision Listener.
Proof. solve_decision. Defined.

(** A connection task, by the listener that spawned it. *)
Inductive Live :=
  | LiveSubmission (c : Conn MsaSession)
  | LivePop3 (c : Conn Pop3Session)
  | LiveImap (c : Conn ImapSession)
  | LiveInbound (c : Conn SmtpSession).
Definition listener (l : Live) : Listener :=
  match l with
  | LiveSubmission _ => OnSubmission | LivePop3 _ => OnPop3 | LiveImap _ => OnImap | LiveInbound _ => OnInbound
  end.

(** The relay worker: asleep until the next tick, between two entries of a pass, waiting
    for the relay client's answer on one, or ended (told to stop, or by a panic). *)
Inductive RelayWorker :=
  | Asleep
  | Passing (due : list SpoolEntry)
  | Relaying (entry : SpoolEntry) (message : Message) (due : list SpoolEntry)
  | Ended.
Inductive MainTask := Serving | Stopping | Returned.
#[export] Instance MainTask_eq_dec : EqDecision MainTask.
Proof. solve_decision. Defined.

Section process.
Context {A : Type} `{SessionAuth A} (auth : A) (base64_decode : str → result str bytes).
Context (psl_domain : str → option str) (gzip base64_encode : bytes → bytes).
Context (read_dir : FS → Dir → list str).
Context {L : Type} (check_key : L → IpAddr → Z → L * bool) (retain_recent : L → Z → L).

(** [pr_reports] says whether the report worker is running; the workers have been told to
    stop when the main task is [Stopping]. *)
Record Process := mkProcess {
  pr_server : Server;
  pr_firewall : Firewall (L:=L);
  pr_loops : Listener → AcceptLoop;
  pr_conns : gmap nat (IpAddr * Live);
  pr_worker : option RelayWorker;
  pr_reports : bool;
  pr_main : MainTask }.

Definition limit (l : ConcurrencyLimits) (k : Listener) : Z :=
  match k with
  | OnSubmission => lim_submission l | OnPop3 => lim_pop3 l | OnImap => lim_imap l | OnInbound => lim_inbound l
  end.

(** [run], up to Ctrl-C, once the listeners are bound. *)
Definition run_start (server : Server) (firewall : Firewall) (limits : ConcurrencyLimits) : Process :=
  mkProcess server firewall (λ k, AcceptLoop_new (limit limits k)) ∅
    (match srv_relay server with Some _ => Some Asleep | None => None end)
    (match srv_relay server with Some _ => true | None => false end) Serving.

(** What the sender checks of one message find out. *)
Record Checks := mkChecks {
  ck_spf : IpAddr → str → str → SpfResult; ck_dkim : bytes → list DkimOutcome; ck_txt : str → option (list str) }.

Inductive Event :=
  | EvAcquire (k : Listener)
  | EvAcceptFailed (k : Listener)
  | EvAccept (k : Listener) (conn : nat) (peer : IpAddr) (now : Z)
  | EvLine (conn : nat) (now : Z) (checks : Checks) (pipelined handshake written : bool) (line : bytes)
  | EvHangUp (conn : nat)
  | EvTick (now : Z)
  | EvNext (now : Z)
  | EvAnswer (report : RelayReport) (now : Z)
  | EvReports (now : Z)
  | EvCtrlC
  | EvWorkerStops
  | EvReportsStop
  | EvReturn.

Definition set_worker (p : Process) (s : Server) (w : RelayWorker) : Process :=
  mkProcess s (pr_firewall p) (pr_loops p) (pr_conns p) (Some w) (pr_reports p) (pr_main p).
Definition set_main (p : Process) (w : option RelayWorker) (reports : bool) (m : MainTask) : Process :=
  mkProcess (pr_server p) (pr_firewall p) (pr_loops p) (pr_conns p) w reports m.
Definition set_loop (p : Process) (k : Listener) (l : AcceptLoop) : Process :=
  mkProcess (pr_server p) (pr_firewall p) (λ k', if decide (k' = k) then l else pr_loops p k') (pr_conns p)
    (pr_worker p) (pr_reports p) (pr_main p).
Definition set_conns (p : Process) (s : Server) (cs : gmap nat (IpAddr * Live)) : Process :=
  mkProcess s (pr_firewall p) (pr_loops p) cs (pr_worker p) (pr_reports p) (pr_main p).

(** ** Accepting *)

(** [acquire_owned]. *)
Definition loop_acquire (l : AcceptLoop) : option AcceptLoop :=
  if negb (al_holding l) && (0 <? al_permits l) then Some (mkAccept (al_permits l - 1) true (al_serving l)) else None.
(** A failed [accept]: the permit is dropped and the loop goes on. *)
Definition loop_failed (l : AcceptLoop) : option AcceptLoop :=
  if al_holding l then Some (mkAccept (al_permits l + 1) false (al_serving l)) else None.
Definition loop_spawn (l : AcceptLoop) : option AcceptLoop :=
  if al_holding l then Some (mkAccept (al_permits l) false (al_serving l + 1)) else None.
(** The connection task ends and its permit is released. *)
Definition loop_finish (l : AcceptLoop) : AcceptLoop :=
  mkAccept (al_permits l + 1) (al_holding l) (al_serving l - 1).

(** The handler's state before it reads, with the greeting sent; on the public port the
    firewall is asked first, and a refused peer gets no more than a line.  The handler
    starts in a task of its own; its steps up to the first read are taken here together
    with the [accept] that spawned it. *)
Definition open_conn (k : Listener) (p : Process) (peer : IpAddr) (now : Z) : Firewall * option Live :=
  match k with
  | OnSubmission => (pr_firewall p, Some (LiveSubmission (mkConn false MsaSession_new None)))
  | OnPop3 => (pr_firewall p, Some (LivePop3 (pop_start (pr_server p))))
  | OnImap => (pr_firewall p, Some (LiveImap (imap_start (pr_server p))))
  | OnInbound =>
      let '(f, r) := inbound_gate check_key retain_recent (pr_firewall p) peer now in
      (f, match r with inl c => Some (LiveInbound c) | inr _ => None end)
  end.

Definition accept (p : Process) (k : Listener) (conn : nat) (peer : IpAddr) (now : Z) : option Process :=
  l ← loop_spawn (pr_loops p k);
  match pr_conns p !! conn with
  | Some _ => None
  | None =>
      let '(f, live) := open_conn k p peer now in
      let p := mkProcess (pr_server p) f (pr_loops p) (pr_conns p) (pr_worker p) (pr_reports p) (pr_main p) in
      match live with
      | Some c => Some (set_conns (set_loop p k l) (pr_server p) (<[conn := (peer, c)]> (pr_conns p)))
      | None => Some (set_loop p k (loop_finish l))
      end
  end.

(** A connection task is over: its permit goes back to its loop. *)
Definition close_conn (p : Process) (conn : nat) (c : Live) : Process :=
  let k := listener c in
  set_loop (set_conns p (pr_server p) (delete conn (pr_conns p))) k (loop_finish (pr_loops p k)).

(** ** Serving *)

(** One line on one connection: the server after it, the connection, how it goes on. *)
Definition live_step (s : Server) (ip : IpAddr) (c : Live) (now : Z) (ck : Checks) (pipelined handshake : bool)
    (line : bytes) : Server * Live * Next :=
  match c with
  | LiveSubmission c =>
      let st := submission_step base64_decode auth ip now s c pipelined line in
      (st_server st, LiveSubmission (st_conn st), st_next st)
  | LivePop3 c =>
      let st := pop_step auth ip now s c pipelined handshake line in
      (st_server st, LivePop3 (st_conn st), st_next st)
  | LiveImap c =>
      let st := imap_step auth ip now s c pipelined handshake line in
      (st_server st, LiveImap (st_conn st), st_next st)
  | LiveInbound c =>
      let st := inbound_step (ck_spf ck) (ck_dkim ck) (ck_txt ck) psl_domain ip now s c pipelined line in
      (st_server st, LiveInbound (st_conn st), st_next st)
  end.

Definition serve_line (p : Process) (conn : nat) (now : Z) (ck : Checks) (pipelined handshake written : bool)
    (line : bytes) : option Process :=
  '(ip, c) ← pr_conns p !! conn;
  if MAX_LINE_LENGTH <? len line then None else
  let '(s, c', next) := live_step (pr_server p) ip c now ck pipelined handshake line in
  let p := set_conns p s (<[conn := (ip, c')]> (pr_conns p)) in
  Some (if bool_decide (next = Continue) && written then p else close_conn p conn c').

(** ** The relay worker *)

(** The sleep is over: scan the queue. *)
Definition worker_tick (now : Z) (s : Server) : RelayWorker :=
  match srv_relay s with
  | None => Asleep
  | Some sp =>
      match due_now read_dir now (sp_fs sp) with
      | Err Panicked => Ended
      | Err _ => Asleep
      | Ok due => Passing due
      end
  end.

(** The next entry of the pass is loaded and handed to the relay client, or quarantined;
    after the last, old bounced mail is reaped and the worker sleeps. *)
Definition worker_next (now : Z) (s : Server) (due : list SpoolEntry) : Server * RelayWorker :=
  match srv_relay s with
  | None => (s, Asleep)
  | Some sp =>
      match due with
      | [] => (set_relay s (Some (mkSpool (reap_bounced read_dir BOUNCE_RETENTION now (sp_fs sp)).1 (sp_counter sp))), Asleep)
      | entry :: due =>
          match load_message (se_id entry) (sp_fs sp) with
          | Err Panicked => (s, Ended)
          | Err _ => (with_spool s (bounce now (se_id entry)), Passing due)
          | Ok message => (s, Relaying entry message due)
          end
      end
  end.

(** The worker is back at its [select!]: a notification that is waiting is taken at once,
    since the timer has only just been set. *)
Definition back_to_sleep (main : MainTask) (w : RelayWorker) : RelayWorker :=
  match main, w with Stopping, Asleep => Ended | _, _ => w end.

(** The relay client has answered. *)
Definition worker_answer (report : RelayReport) (now : Z) (s : Server) (entry : SpoolEntry) (message : Message)
    (due : list SpoolEntry) : Server * RelayWorker :=
  match relay_outcome (λ _, report) now s entry message with
  | Some s => (s, Passing due)
  | None => (s, Ended)
  end.

(** ** The process *)

Definition worker_over (w : option RelayWorker) : bool :=
  match w with None | Some Ended => true | _ => false end.

(** [None]: the event cannot happen in this state.  [EvCtrlC] is the signal together with
    the abort of the accept loops, which [run] awaits, and the notification of the workers
    that follows.  They hear it only at their [select!], beside the timer: one that waits
    there may still find the timer elapsed at the same moment and run once more, one that
    comes back to it stops. *)
Definition process_step (ev : Event) (p : Process) : option Process :=
  let accepting := bool_decide (pr_main p = Serving) in
  if bool_decide (pr_main p = Returned) then None else
  match ev with
  | EvAcquire k => if accepting then set_loop p k <$> loop_acquire (pr_loops p k) else None
  | EvAcceptFailed k => if accepting then set_loop p k <$> loop_failed (pr_loops p k) else None
  | EvAccept k conn peer now => if accepting then accept p k conn peer now else None
  | EvLine conn now ck pipelined handshake written line => serve_line p conn now ck pipelined handshake written line
  | EvHangUp conn => '(_, c) ← pr_conns p !! conn; Some (close_conn p conn c)
  | EvTick now =>
      match pr_worker p with
      | Some Asleep => Some (set_worker p (pr_server p) (back_to_sleep (pr_main p) (worker_tick now (pr_server p))))
      | _ => None
      end
  | EvNext now =>
      match pr_worker p with
      | Some (Passing due) => let '(s, w) := worker_next now (pr_server p) due in Some (set_worker p s (back_to_sleep (pr_main p) w))
      | _ => None
      end
  | EvAnswer report now =>
      match pr_worker p with
      | Some (Relaying entry message due) =>
          let '(s, w) := worker_answer report now (pr_server p) entry message due in Some (set_worker p s w)
      | _ => None
      end
  | EvReports now =>
      if pr_reports p
      then Some (mkProcess (flush_reports gzip base64_encode now (pr_server p)) (pr_firewall p) (pr_loops p) (pr_conns p)
                   (pr_worker p) accepting (pr_main p))
      else None
  | EvCtrlC => if accepting then Some (set_main p (pr_worker p) (pr_reports p) Stopping) else None
  | EvWorkerStops =>
      match pr_main p, pr_worker p with
      | Stopping, Some Asleep => Some (set_main p (Some Ended) (pr_reports p) Stopping)
      | _, _ => None
      end
  | EvReportsStop =>
      match pr_main p, pr_reports p with
      | Stopping, true => Some (set_main p (pr_worker p) false Stopping)
      | _, _ => None
      end
  | EvReturn =>
      if bool_decide (pr_main p = Stopping) && worker_over (pr_worker p) && negb (pr_reports p)
      then Some (set_main p (pr_worker p) false Returned) else None
  end.

Fixpoint process_run (evs : list Event) (p : Process) : option Process :=
  match evs with
  | [] => Some p
  | ev :: evs => p ← process_step ev p; process_run evs p
  end.
End process.

(** * Runs *)

(** Split a transition into its cases. *)
Ltac step_inv Hs :=
  unfold process_step, accept, serve_line, loop_acquire, loop_failed, loop_spawn, set_worker,
    mbind, option_bind, fmap, option_fmap, option_map in Hs;
  case_bool_decide; [done|]; repeat (case_match; try done); simplify_eq/=.

Section runs.
Context {A : Type} `{SessionAuth A} (auth : A) (base64_decode : str → result str bytes).
Context (psl_domain : str → option str) (gzip base64_encode : bytes → bytes).
Context (read_dir : FS → Dir → list str).
Context {L : Type} (check_key : L → IpAddr → Z → L * bool) (retain_recent : L → Z → L).
#[local] Notation step := (process_step auth base64_decode psl_domain gzip base64_encode read_dir check_key retain_recent).
#[local] Notation run := (process_run auth base64_decode psl_domain gzip base64_encode read_dir check_key retain_recent).

Lemma process_run_app evs evs' p : run (evs ++ evs') p = run evs p ≫= run evs'.
Proof.
  revert p. induction evs as [|ev evs IH]; intros p; [done|]. cbn [process_run app].
  destruct (step ev p); cbn [mbind option_bind]; [apply IH|done].
Qed.

(** What every step preserves, every run preserves. *)
Lemma process_run_ind (P : Process (L:=L) → Prop) evs p p' :
  (∀ ev q q', P q → step ev q = Some q' → P q') → P p → run evs p = Some p' → P p'.
Proof.
  intros Hstep. revert p. induction evs as [|ev evs IH]; intros p HP; cbn [process_run]; [by intros [= <-]|].
  destruct (step ev p) as [q|] eqn:E; cbn [mbind option_bind]; [|done]. by eapply IH, Hstep.
Qed.

(** ** The budgets *)

Definition serving (k : Listener) (cs : gmap nat (IpAddr * Live)) : nat :=
  size (filter (λ ic : nat * (IpAddr * Live), listener ic.2.2 = k) cs).

Lemma serving_insert k cs i ip c :
  cs !! i = None → serving k (<[i:=(ip, c)]> cs) = (serving k cs + if decide (listener c = k) then 1 else 0)%nat.
Proof.
  intros Hi. unfold serving. destruct (decide (listener c = k)).
  - rewrite map_filter_insert_True by done. rewrite map_size_insert_None; [lia|]. apply map_lookup_filter_None. by left.
  - rewrite map_filter_insert_False by done. rewrite delete_id by done. lia.
Qed.
Lemma serving_delete k cs i ip c :
  cs !! i = Some (ip, c) → serving k cs = (serving k (delete i cs) + if decide (listener c = k) then 1 else 0)%nat.
Proof. intros Hi. rewrite <-(serving_insert k (delete i cs) i ip c) by apply lookup_delete_eq. by rewrite insert_delete_id. Qed.
Lemma serving_update k cs i ip ip' c c' :
  cs !! i = Some (ip, c) → listener c' = listener c → serving k (<[i:=(ip', c')]> cs) = serving k cs.
Proof.
  intros Hi Hc. rewrite (serving_delete k _ i ip' c') by apply lookup_insert_eq. rewrite delete_insert_eq.
  rewrite (serving_delete k cs i ip c Hi). by rewrite Hc.
Qed.

Lemma live_step_listener s ip c now ck pipelined handshake line :
  listener (live_step auth base64_decode psl_domain s ip c now ck pipelined handshake line).1.2 = listener c.
Proof. by destruct c. Qed.

(** The loops' books agree with the connections: permits left, the one held and the
    connections served make up the limit. *)
Definition loops_ok (limits : ConcurrencyLimits) (p : Process (L:=L)) : Prop :=
  ∀ k, let l := pr_loops p k in
    al_permits l + Z.b2z (al_holding l) + al_serving l = limit limits k ∧ 0 ≤ al_permits l ∧
    al_serving l = Z.of_nat (serving k (pr_conns p)).

Lemma close_conn_ok limits p i ip c :
  loops_ok limits p → pr_conns p !! i = Some (ip, c) → loops_ok limits (close_conn p i c).
Proof.
  intros Hok Hi k. destruct (Hok k) as (H1 & H2 & H3). pose proof (serving_delete k _ _ _ _ Hi) as Hd.
  unfold close_conn, set_loop, set_conns; simpl. destruct (decide (k = listener c)) as [->|Hne].
  - rewrite decide_True in Hd by done. simpl. split_and!; lia.
  - rewrite decide_False in Hd by done. split_and!; lia.
Qed.

Lemma accept_ok limits p k conn peer now p' :
  loops_ok limits p → accept check_key retain_recent p k conn peer now = Some p' → loops_ok limits p'.
Proof.
  intros Hok. unfold accept, loop_spawn. destruct (al_holding (pr_loops p k)) eqn:Eh; cbn [mbind option_bind]; [|done].
  destruct (pr_conns p !! conn) eqn:Ec; [done|]. destruct (open_conn _ _ k p peer now) as [f [c|]] eqn:Eo.
  - assert (listener c = k) as Hk.
    { revert Eo. unfold open_conn. destruct k; try (by intros [= <- <-]).
      destruct (inbound_gate _ _ _ _ _) as [f' [c'|w]]; [by intros [= <- <-]|done]. }
    intros [= <-] k'. destruct (Hok k') as (H1 & H2 & H3). simpl.
    rewrite (serving_insert k' _ _ _ _ Ec). destruct (decide (k' = k)) as [->|Hne].
    + rewrite decide_True by done. rewrite Eh in *. simpl in *. split_and!; lia.
    + rewrite decide_False by congruence. split_and!; lia.
  - intros [= <-] k'. destruct (Hok k') as (H1 & H2 & H3). simpl. destruct (decide (k' = k)) as [->|Hne]; [|done].
    rewrite Eh in *. simpl in *. split_and!; lia.
Qed.

Lemma serve_line_ok limits p i now ck pi ha wr line p' :
  loops_ok limits p → serve_line auth base64_decode psl_domain p i now ck pi ha wr line = Some p' → loops_ok limits p'.
Proof.
  intros Hok. unfold serve_line. destruct (pr_conns p !! i) as [[ip c]|] eqn:Ec; cbn [mbind option_bind]; [|done].
  destruct (_ <? _); [done|]. pose proof (live_step_listener (pr_server p) ip c now ck pi ha line) as Hl.
  destruct (live_step _ _ _ _ _ _ _ _ _ _ _) as [[s c'] next]. cbn [fst snd] in Hl.
  assert (loops_ok limits (set_conns p s (<[i:=(ip, c')]> (pr_conns p)))) as Hset.
  { intros k. destruct (Hok k) as (H1 & H2 & H3). simpl. rewrite (serving_update k _ _ ip ip c c' Ec Hl). by split_and!. }
  intros [= <-]. destruct (bool_decide _ && _); [done|]. eapply close_conn_ok; [done|]. apply lookup_insert_eq.
Qed.

Lemma step_loops_ok limits ev p p' : loops_ok limits p → step ev p = Some p' → loops_ok limits p'.
Proof.
  intros Hok. unfold process_step. case_bool_decide as Hret; [done|].
  assert (∀ k l, (al_permits l + Z.b2z (al_holding l) = al_permits (pr_loops p k) + Z.b2z (al_holding (pr_loops p k)) ∧
    0 ≤ al_permits l ∧ al_serving l = al_serving (pr_loops p k)) → loops_ok limits (set_loop p k l)) as Hset.
  { intros k l Hl k'. destruct (Hok k') as (H1 & H2 & H3). simpl. destruct (decide (k' = k)) as [->|]; [|done]. split_and!; lia. }
  destruct ev; try case_bool_decide; try done.
  - unfold loop_acquire. destruct (al_holding (pr_loops p k)) eqn:Eh; simpl; [done|].
    destruct (Z.ltb_spec 0 (al_permits (pr_loops p k))); simpl; [|done]. intros [= <-]. apply Hset. rewrite Eh. simpl. lia.
  - unfold loop_failed. destruct (al_holding (pr_loops p k)) eqn:Eh; simpl; [|done].
    intros [= <-]. apply Hset. rewrite Eh. destruct (Hok k) as (_ & ? & _). simpl. lia.
  - by apply accept_ok.
  - by apply serve_line_ok.
  - destruct (pr_conns p !! conn) as [[ip c]|] eqn:Ec; cbn [mbind option_bind]; [|done]. intros [= <-]. by eapply close_conn_ok.
  - destruct (pr_worker p) as [[]|]; try done. by intros [= <-].
  - destruct (pr_worker p) as [[]|]; try done. destruct (worker_next _ _ _ _). by intros [= <-].
  - destruct (pr_worker p) as [[]|]; try done. destruct (worker_answer _ _ _ _ _ _). by intros [= <-].
  - destruct (pr_reports p); [|done]. by intros [= <-].
  - destruct (pr_reports p); [|done]. by intros [= <-].
  - by intros [= <-].
  - destruct (pr_main p), (pr_worker p) as [[]|]; try done. by intros [= <-].
  - destruct (pr_main p), (pr_reports p); try done. by intros [= <-].
  - simpl. destruct (worker_over _ && _); [|done]. by intros [= <-].
Qed.

(** C9: the process never serves more connections than configured.  In every state it can
    reach, each listener has at most its limit of connections open, whatever arrives, fails
    or ends on the others; and no permit is ever lost: those left, the one in hand and the
    connections being served always add up to the limit. *)
Theorem process_connections_bounded (server : Server) (fw : Firewall (L:=L)) (limits : ConcurrencyLimits)
    (evs : list Event) (p : Process) (k : Listener) :
  (∀ k, 0 ≤ limit limits k) → run evs (run_start server fw limits) = Some p →
  Z.of_nat (serving k (pr_conns p)) ≤ limit limits k ∧
  al_permits (pr_loops p k) + Z.b2z (al_holding (pr_loops p k)) + Z.of_nat (serving k (pr_conns p)) = limit limits k ∧
  0 ≤ al_permits (pr_loops p k).
Proof.
  intros Hl Hrun. assert (loops_ok limits p) as Hok.
  { eapply process_run_ind; [intros; by eapply step_loops_ok| |exact Hrun]. intros k'. specialize (Hl k'). simpl. split_and!; [lia|done|done]. }
  destruct (Hok k) as (H1 & H2 & H3). destruct (al_holding (pr_loops p k)); simpl in *; split_and!; lia.
Qed.

(** ** Stopping *)

(** The most steps the worker can still take before it ends, if its timer stays quiet. *)
Definition rank (w : option RelayWorker) : nat :=
  match w with
  | None | Some Ended => 0
  | Some Asleep => 1
  | Some (Passing due) => 1 + 2 * length due
  | Some (Relaying _ _ due) => 2 + 2 * length due
  end.
(** ... and the most the process itself can: the worker, the report worker, the return. *)
Definition left_to_do (p : Process (L:=L)) : nat :=
  rank (pr_worker p) + (if pr_reports p then 1 else 0) + match pr_main p with Returned => 0 | _ => 1 end.
(** The steps of the process itself, as against those of its clients. *)
Definition own (ev : Event) : bool :=
  match ev with
  | EvTick _ | EvNext _ | EvAnswer _ _ | EvReports _ | EvWorkerStops | EvReportsStop | EvReturn => true
  | _ => false
  end.
Definition is_tick (ev : Event) : bool := match ev with EvTick _ => true | _ => false end.
Definition accepting_event (ev : Event) : bool :=
  match ev with EvAcquire _ | EvAcceptFailed _ | EvAccept _ _ _ _ => true | _ => false end.
Definition own_steps (evs : list Event) : nat := length (filter (λ ev, own ev = true) evs).

Lemma own_steps_cons ev evs : own_steps (ev :: evs) = ((if own ev then 1 else 0) + own_steps evs)%nat.
Proof. unfold own_steps. rewrite filter_cons. by destruct (own ev); case_decide. Qed.
Lemma own_steps_app evs evs' : own_steps (evs ++ evs') = (own_steps evs + own_steps evs')%nat.
Proof. unfold own_steps. by rewrite filter_app, length_app. Qed.

Lemma worker_next_rank now s due :
  (rank (Some (back_to_sleep Stopping (worker_next read_dir now s due).2)) < rank (Some (Passing due)))%nat.
Proof.
  unfold worker_next. destruct (srv_relay s); [|simpl; lia]. destruct due as [|e due]; [simpl; lia|].
  destruct (load_message _ _) as [m|[]]; simpl; lia.
Qed.
Lemma worker_answer_rank r now s e m due :
  (rank (Some (worker_answer r now s e m due).2) < rank (Some (Relaying e m due)))%nat.
Proof. unfold worker_answer. destruct (relay_outcome _ _ _ _ _); simpl; lia. Qed.

(** While stopping, a step of the process takes from what is left to do, and no other step
    adds to it; only the race of the timer escapes. *)
Lemma stopping_step ev p p' :
  step ev p = Some p' → pr_main p = Stopping → is_tick ev = false →
  (left_to_do p' + (if own ev then 1 else 0) ≤ left_to_do p)%nat ∧ accepting_event ev = false ∧
  pr_main p' = match ev with EvReturn => Returned | _ => Stopping end ∧
  (own ev = false → pr_worker p' = pr_worker p).
Proof.
  intros Hs Hm Hne. destruct p as [sv fw lp cs w rep mn]. simpl in Hm. subst mn.
  unfold process_step in Hs. rewrite bool_decide_false in Hs by done. cbn [pr_main pr_worker pr_server pr_reports pr_conns] in Hs.
  destruct ev; try discriminate Hne; cbn in Hs |- *; try discriminate Hs.
  - unfold serve_line in Hs. simpl in Hs. destruct (cs !! conn) as [[ip c]|]; simpl in Hs; [|done].
    destruct (_ <? _); [done|]. destruct (live_step _ _ _ _ _ _ _ _ _ _) as [[s' c'] nx].
    destruct (bool_decide _ && written); simplify_eq; unfold left_to_do; simpl; split_and!; done || lia.
  - simpl in Hs. destruct (cs !! conn) as [[ip c]|]; simpl in Hs; simplify_eq. unfold left_to_do. simpl. split_and!; done || lia.
  - destruct w as [[|due|e m due|]|]; try done. pose proof (worker_next_rank now sv due) as Hlt.
    destruct (worker_next read_dir now sv due) as [s' w']. simplify_eq. unfold left_to_do. simpl in Hlt |- *. split_and!; done || lia.
  - destruct w as [[|due|e m due|]|]; try done. pose proof (worker_answer_rank report now sv e m due) as Hlt.
    destruct (worker_answer report now sv e m due) as [s' w']. simplify_eq. unfold left_to_do. simpl in Hlt |- *. split_and!; done || lia.
  - destruct rep; simplify_eq. unfold left_to_do. simpl. split_and!; done || lia.
  - destruct w as [[]|]; simplify_eq. unfold left_to_do. simpl. split_and!; done || lia.
  - destruct rep; simplify_eq. unfold left_to_do. simpl. split_and!; done || lia.
  - rewrite bool_decide_true in Hs by done. destruct (worker_over w), rep; cbn in Hs; simplify_eq. unfold left_to_do. simpl. split_and!; done || lia.
Qed.

Lemma step_inv_returned ev p p' :
  step ev p = Some p' → pr_main p' = Returned →
  ev = EvReturn ∧ worker_over (pr_worker p') = true ∧ pr_reports p' = false.
Proof. intros Hs Hm. destruct ev; step_inv Hs; try done. bsimp. by split_and!. Qed.

Lemma returned_stuck evs p p' : pr_main p = Returned → run evs p = Some p' → evs = [] ∧ p' = p.
Proof.
  intros Hm. destruct evs as [|ev evs]; cbn [process_run]; [by intros [= <-]|].
  unfold process_step. by rewrite bool_decide_true.
Qed.

(** Only its answer ends a relay attempt. *)
Lemma relaying_kept ev p p' e m due :
  step ev p = Some p' → pr_worker p = Some (Relaying e m due) →
  pr_worker p' = Some (Relaying e m due) ∨ ∃ r now, ev = EvAnswer r now.
Proof. intros Hs Hw. destruct ev; [left..|by right; eauto|left|left|left|left|left]; step_inv Hs; congruence. Qed.

Lemma attempt_answered evs : ∀ p p' e m due,
  run evs p = Some p' → pr_worker p = Some (Relaying e m due) → pr_main p' = Returned →
  pr_main p ≠ Returned →
  ∃ evs1 r now evs2 q, evs = evs1 ++ EvAnswer r now :: evs2 ∧ run evs1 p = Some q ∧ pr_worker q = Some (Relaying e m due).
Proof.
  induction evs as [|ev evs IH]; intros p p' e m due; cbn [process_run]; [by intros [= <-]|].
  destruct (step ev p) as [q|] eqn:Es; cbn [mbind option_bind]; [|done]. intros Hr Hw Hm Hne.
  destruct (relaying_kept ev p q e m due Es Hw) as [Hw'|(r & now & ->)].
  - destruct (decide (pr_main q = Returned)) as [Hq|Hq].
    { destruct (step_inv_returned ev p q Es Hq) as (_ & Hov & _). by rewrite Hw' in Hov. }
    destruct (IH q p' e m due Hr Hw' Hm Hq) as (evs1 & r & now & evs2 & q' & -> & Hq' & Hwq).
    exists (ev :: evs1), r, now, evs2, q'. split_and!; [done| |done]. cbn [process_run]. by rewrite Es.
  - by exists [], r, now, evs, p.
Qed.

Lemma stopping_tick now p p' :
  step (EvTick now) p = Some p' → pr_main p = Stopping →
  pr_worker p = Some Asleep ∧ p' = set_worker p (pr_server p) (back_to_sleep Stopping (worker_tick read_dir now (pr_server p))).
Proof.
  unfold process_step. intros Hs Hm. rewrite bool_decide_false in Hs by congruence.
  destruct (pr_worker p) as [[]|]; simplify_eq. by rewrite Hm.
Qed.
(** A worker that has left its [select!] does not come back to it. *)
Lemma stopping_awake ev p p' :
  step ev p = Some p' → pr_main p = Stopping → pr_worker p ≠ Some Asleep → pr_worker p' ≠ Some Asleep.
Proof.
  intros Hs Hm Hw. destruct (is_tick ev) eqn:Et.
  { destruct ev; try discriminate Et. by destruct (stopping_tick now p p' Hs Hm) as [? _]. }
  destruct (own ev) eqn:Eo.
  2: { by destruct (stopping_step ev p p' Hs Hm Et) as (_ & _ & _ & ->). }
  destruct p as [sv fw lp cs w rep mn]. simpl in Hm, Hw. subst mn. unfold process_step in Hs.
  rewrite bool_decide_false in Hs by done. cbn [pr_main pr_worker pr_server pr_reports] in Hs.
  destruct ev; try discriminate Et; try discriminate Eo; cbn in Hs.
  - destruct w as [[|due|e m due|]|]; try done. destruct (worker_next read_dir now sv due) as [s' [|?|? ? ?|]]; by simplify_eq.
  - destruct w as [[|due|e m due|]|]; try done. destruct (worker_answer report now sv e m due) as [s' w'] eqn:Ea.
    simplify_eq. simpl. unfold worker_answer in Ea. destruct (relay_outcome _ _ _ _ _); by simplify_eq.
  - by destruct rep; simplify_eq.
  - by destruct w as [[]|]; simplify_eq.
  - by destruct rep; simplify_eq.
  - rewrite bool_decide_true in Hs by done. by destruct (worker_over w), rep; cbn in Hs; simplify_eq.
Qed.

Lemma stopping_run evs : ∀ p p',
  run evs p = Some p' → pr_main p = Stopping → Forall (λ ev, is_tick ev = false) evs →
  (own_steps evs + left_to_do p' ≤ left_to_do p)%nat ∧ Forall (λ ev, accepting_event ev = false) evs ∧ pr_main p' ≠ Serving ∧
  (pr_worker p ≠ Some Asleep → pr_worker p' ≠ Some Asleep).
Proof.
  induction evs as [|ev evs IH]; intros p p'; cbn [process_run].
  { intros [= <-] Hm _. split_and!; [unfold own_steps; simpl; lia|done|congruence|done]. }
  destruct (step ev p) as [q|] eqn:Es; cbn [mbind option_bind]; [|done]. intros Hr Hm [Ht Hts]%Forall_cons.
  destruct (stopping_step ev p q Es Hm Ht) as (Hl & Ha & Hmq & _). rewrite own_steps_cons. destruct (decide (pr_main q = Returned)) as [Hq|Hq].
  - destruct (returned_stuck evs q p' Hq Hr) as [-> ->].
    split_and!; [unfold own_steps; simpl in *; lia|by repeat constructor|congruence|].
    intros Hw. exact (stopping_awake _ _ _ Es Hm Hw).
  - assert (pr_main q = Stopping) as Hst by (destruct ev; done).
    destruct (IH q p' Hr Hst Hts) as (H1 & H2 & H3 & H4). split_and!; [lia|by constructor|done|].
    intros Hw. exact (H4 (stopping_awake _ _ _ Es Hm Hw)).
Qed.

Lemma first_tick evs :
  Forall (λ ev, is_tick ev = false) evs ∨
  ∃ evs1 now evs2, evs = evs1 ++ EvTick now :: evs2 ∧ Forall (λ ev, is_tick ev = false) evs1.
Proof.
  induction evs as [|ev evs IH]; [by left|]. destruct (is_tick ev) eqn:Et.
  - right. destruct ev; try discriminate Et. exists [], now, evs. by split.
  - destruct IH as [?|(evs1 & now & evs2 & -> & ?)]; [left; by constructor|right]. exists (ev :: evs1), now, evs2.
    split; [done|by constructor].
Qed.

Lemma awake_no_tick evs : ∀ p p',
  run evs p = Some p' → pr_main p ≠ Serving → pr_worker p ≠ Some Asleep → Forall (λ ev, is_tick ev = false) evs.
Proof.
  induction evs as [|ev evs IH]; intros p p'; cbn [process_run]; [done|].
  destruct (step ev p) as [q|] eqn:Es; cbn [mbind option_bind]; [|done]. intros Hr Hm Hw.
  assert (pr_main p = Stopping) as Hst.
  { destruct (pr_main p) eqn:E; [done..|]. unfold process_step in Es. by rewrite bool_decide_true in Es. }
  assert (is_tick ev = false) as Ht.
  { destruct (is_tick ev) eqn:Et; [|done]. destruct ev; try discriminate Et. by destruct (stopping_tick now p q Es Hst). }
  constructor; [done|]. eapply IH; [exact Hr| |exact (stopping_awake _ _ _ Es Hst Hw)].
  destruct (stopping_step ev p q Es Hst Ht) as (_ & _ & -> & _). by destruct ev.
Qed.

(** Until it has returned, a process that is stopping has a step of its own to take,
    whatever the relay client answers. *)
Lemma stopping_progress (report : RelayReport) (now : Z) p :
  pr_main p = Stopping →
  ∃ ev p', step ev p = Some p' ∧ ev ∈ [EvNext now; EvAnswer report now; EvWorkerStops; EvReportsStop; EvReturn].
Proof.
  intros Hm. unfold process_step. rewrite bool_decide_false by congruence.
  destruct (pr_worker p) as [[|due|e m due|]|] eqn:Ew.
  1: exists EvWorkerStops.
  2: exists (EvNext now). 3: exists (EvAnswer report now). 4,5: destruct (pr_reports p) eqn:Er; [exists EvReportsStop|exists EvReturn].
  all: rewrite ?Hm, ?Ew, ?Er; try destruct (worker_next _ _ _ _); try destruct (worker_answer _ _ _ _ _ _); simpl;
    rewrite ?bool_decide_true by done; eexists; (split; [done|set_solver]).
Qed.

(** C10: Ctrl-C stops the process, in every execution, and never in the middle of a relay
    attempt.  Once stopping it accepts nothing; the steps it takes itself (the workers' and
    the return) are at most [left_to_do], two for each entry the worker has in hand and at
    most four more, except that a worker found asleep may wake once more if its timer
    elapses at that very moment, and then does no more than that one pass; until it has
    returned it always has a step to take, whatever the relay client answers; and it
    returns only after a relay attempt under way has been answered and acted on. *)
Theorem process_stops (evs : list Event) (p p' : Process (L:=L)) :
  pr_main p = Stopping → run evs p = Some p' →
  (own_steps evs ≤ left_to_do p ∨
   ∃ evs1 now evs2 q, evs = evs1 ++ EvTick now :: evs2 ∧ run evs1 p = Some q ∧ pr_worker q = Some Asleep ∧
     (own_steps evs ≤ rank (Some (worker_tick read_dir now (pr_server q))) + 3)%nat)%nat ∧
  Forall (λ ev, accepting_event ev = false) evs ∧
  (pr_main p' = Returned ∨
   ∀ report now, ∃ ev q, step ev p' = Some q ∧ ev ∈ [EvNext now; EvAnswer report now; EvWorkerStops; EvReportsStop; EvReturn]) ∧
  (∀ e m due, pr_main p' = Returned → pr_worker p = Some (Relaying e m due) →
     ∃ evs1 r now evs2 q, evs = evs1 ++ EvAnswer r now :: evs2 ∧ run evs1 p = Some q ∧ pr_worker q = Some (Relaying e m due)).
Proof.
  intros Hm Hr.
  assert ((own_steps evs ≤ left_to_do p ∨
   ∃ evs1 now evs2 q, evs = evs1 ++ EvTick now :: evs2 ∧ run evs1 p = Some q ∧ pr_worker q = Some Asleep ∧
     (own_steps evs ≤ rank (Some (worker_tick read_dir now (pr_server q))) + 3)%nat)%nat ∧
    Forall (λ ev, accepting_event ev = false) evs ∧ pr_main p' ≠ Serving) as (H1 & H2 & H3).
  { destruct (first_tick evs) as [Ht|(evs1 & now & evs2 & -> & Ht)].
    { destruct (stopping_run evs p p' Hr Hm Ht) as (? & ? & ? & _). split_and!; [left; lia|done..]. }
    rewrite process_run_app in Hr. destruct (run evs1 p) as [q|] eqn:E1; cbn [mbind option_bind] in Hr; [|done].
    cbn [process_run] in Hr. destruct (step (EvTick now) q) as [q'|] eqn:E2; cbn [mbind option_bind] in Hr; [|done].
    destruct (stopping_run evs1 p q E1 Hm Ht) as (Hl1 & Ha1 & Hq & _).
    assert (pr_main q = Stopping) as Hmq.
    { destruct (pr_main q) eqn:E; [done..|]. unfold process_step in E2. by rewrite bool_decide_true in E2. }
    destruct (stopping_tick now q q' E2 Hmq) as [Hwq ->].
    assert (Forall (λ ev, is_tick ev = false) evs2) as Ht2.
    { eapply awake_no_tick; [exact Hr|simpl; congruence|]. simpl. destruct (worker_tick _ _ _); done. }
    destruct (stopping_run evs2 _ p' Hr Hmq Ht2) as (Hl2 & Ha2 & Hp' & _).
    split_and!; [right|apply Forall_app; by repeat constructor|done].
    exists evs1, now, evs2, q. split_and!; [done..|]. rewrite own_steps_app, own_steps_cons. cbn [own].
    assert (left_to_do q = 1 + (if pr_reports q then 1 else 0) + 1)%nat as Hlq by (unfold left_to_do; by rewrite Hwq, Hmq).
    assert (left_to_do p ≤ 3)%nat as Hlp.
    { assert (pr_worker p = Some Asleep) as Ew.
      { destruct (stopping_run evs1 p q E1 Hm Ht) as (_ & _ & _ & Haw).
        destruct (pr_worker p) as [[]|]; [done|exfalso; by apply Haw..]. }
      unfold left_to_do. rewrite Ew, Hm. destruct (pr_reports p); simpl; lia. }
    assert (left_to_do (set_worker q (pr_server q) (back_to_sleep Stopping (worker_tick read_dir now (pr_server q)))) =
      rank (Some (back_to_sleep Stopping (worker_tick read_dir now (pr_server q)))) + (if pr_reports q then 1 else 0) + 1)%nat
      as Hlt by (unfold left_to_do; simpl; by rewrite Hmq).
    assert (rank (Some (back_to_sleep Stopping (worker_tick read_dir now (pr_server q)))) ≤
            rank (Some (worker_tick read_dir now (pr_server q))))%nat by (destruct (worker_tick _ _ _); simpl; lia).
    lia. }
  split_and!; [done..| |].
  - destruct (pr_main p') eqn:E; [done| |by left]. right. intros report now. destruct (stopping_progress report now p' E) as (ev & q & ? & ?); eauto.
  - intros e m due Hret Hw. eapply attempt_answered; [done..|congruence].
Qed.

(** ** The worker alone *)

Lemma server_accept_relay now s m a :
  is_Some (srv_relay s) → is_Some (srv_relay (server_accept_inbound now s m a).1).
Proof.
  intros [sp Hs]. unfold server_accept_inbound. rewrite Hs. destruct (accept_inbound _ _ _ m) as [st r].
  destruct a; simpl; [case_bool_decide|]; simpl; rewrite ?Hs; eauto.
Qed.
Lemma with_spool_relay s f : is_Some (srv_relay s) → is_Some (srv_relay (with_spool s f)).
Proof. intros [sp Hs]. unfold with_spool. rewrite Hs. eauto. Qed.
#[local] Hint Resolve server_accept_relay with_spool_relay : core.

Lemma bounce_and_notify_relay now s e m reason s' :
  bounce_and_notify now s e m reason = Some s' → is_Some (srv_relay s) → is_Some (srv_relay s').
Proof.
  unfold bounce_and_notify. intros Hb Hs. destruct (se_sender e) as [sender|]; cbn [mbind option_bind] in Hb.
  - destruct (build_failure_dsn _ _ _ _ _ _); cbn [mbind option_bind] in Hb; simplify_eq. auto.
  - simplify_eq. auto.
Qed.
Lemma relay_outcome_relay relay now s e m s' :
  relay_outcome relay now s e m = Some s' → is_Some (srv_relay s) → is_Some (srv_relay s').
Proof.
  unfold relay_outcome. intros Ho Hs. destruct (relay m); simplify_eq; eauto using bounce_and_notify_relay.
  destruct (_ <=? _); [by eapply bounce_and_notify_relay|].
  destruct (checked_add _ _); cbn [mbind option_bind] in Ho; simplify_eq. auto.
Qed.

Lemma set_worker_twice p s s' w w' : set_worker (set_worker (L:=L) p s w) s' w' = set_worker p s' w'.
Proof. done. Qed.

Lemma entries_alone (relay : Message → RelayReport) now due : ∀ p s',
  pr_main p = Serving → is_Some (srv_relay (pr_server p)) → pr_worker p = Some (Passing due) →
  relay_entries relay now (pr_server p) due = Some s' →
  ∃ evs, run evs p = Some (set_worker p s' (Passing [])) ∧ is_Some (srv_relay s') ∧
    Forall (λ ev, ev = EvNext now ∨ ∃ m, ev = EvAnswer (relay m) now) evs.
Proof.
  induction due as [|e due IH]; intros p s' Hm [sp Hs] Hw Hr; cbn [relay_entries] in Hr.
  { simplify_eq. exists []. split; [|by split]. cbn [process_run]. destruct p; simpl in *; subst. done. }
  destruct (relay_entry relay now (pr_server p) e) as [s1|] eqn:Ee; cbn [mbind option_bind] in Hr; [|done].
  assert (∃ evs, run evs p = Some (set_worker p s1 (Passing due)) ∧ is_Some (srv_relay s1) ∧
    Forall (λ ev, ev = EvNext now ∨ ∃ m, ev = EvAnswer (relay m) now) evs) as (evs1 & H1 & Hs1 & Ha1).
  { unfold relay_entry in Ee. rewrite Hs in Ee. destruct (load_message (se_id e) (sp_fs sp)) as [m|er] eqn:El.
    - exists [EvNext now; EvAnswer (relay m) now]. split_and!; [|by eapply relay_outcome_relay|by apply Forall_cons; split; [left|apply Forall_singleton; right; exists m]].
      cbn [process_run]. unfold process_step. rewrite Hm, Hw, bool_decide_false by done. unfold worker_next. rewrite Hs, El.
      cbn [mbind option_bind pr_worker pr_main set_worker pr_server back_to_sleep]. rewrite Hm, bool_decide_false by done. cbn [mbind option_bind pr_worker pr_main set_worker pr_server]. unfold worker_answer.
      assert (relay_outcome (λ _, relay m) now (pr_server p) e m = Some s1) as -> by exact Ee. done.
    - exists [EvNext now]. cbn [process_run]. unfold process_step. rewrite Hm, Hw, bool_decide_false by done.
      unfold worker_next. rewrite Hs, El. destruct er; simplify_eq; (split_and!; [done|eauto|by apply Forall_singleton; left]). }
  destruct (IH (set_worker p s1 (Passing due)) s') as (evs2 & H2 & Hs2 & Ha2); [done..|].
  exists (evs1 ++ evs2). rewrite process_run_app, H1. split_and!; [done..|by apply Forall_app].
Qed.

(** A pass of the worker that nothing interrupts is [relay_due].  If no other task runs
    in between, the tick, the loads and the answers, with the client answering as [relay]
    does, take the server exactly where the one call of [relay_due] in Worker takes it. *)
Theorem worker_pass_atomic (relay : Message → RelayReport) (now : Z) (p : Process (L:=L)) (s' : Server) :
  pr_main p = Serving → pr_worker p = Some Asleep → relay_due relay read_dir now (pr_server p) = Some s' →
  ∃ evs, run (EvTick now :: evs) p = Some (set_worker p s' Asleep) ∧
    Forall (λ ev, ev = EvNext now ∨ ∃ m, ev = EvAnswer (relay m) now) evs.
Proof.
  intros Hm Hw. unfold relay_due. cbn [process_run]. unfold process_step at 1. rewrite Hm, Hw, bool_decide_false by done.
  unfold worker_tick. cbn [mbind option_bind].
  destruct (srv_relay (pr_server p)) as [sp|] eqn:Hs; [|by intros [= <-]; exists []].
  destruct (due_now read_dir now (sp_fs sp)) as [due|[]]; try done; [|by intros [= <-]; exists []..].
  destruct (relay_entries _ _ _ _) as [s1|] eqn:Er; cbn [mbind option_bind]; [|done]. intros [= <-].
  destruct (entries_alone relay now due (set_worker p (pr_server p) (Passing due)) s1) as (evs & Hr & [sp1 Hs1] & Ha);
    [done|by eexists|done..|].
  change (back_to_sleep Serving (Passing due)) with (Passing due).
  exists (evs ++ [EvNext now]). rewrite process_run_app, Hr. split; [|apply Forall_app; split; [done|by apply Forall_singleton; left]].
  cbn [mbind option_bind process_run]. unfold process_step. simpl. rewrite Hm, bool_decide_false by done. unfold worker_next.
  by rewrite Hs1.
Qed.
End runs.

(** ** A run *)

(** A limiter that admits everybody; nobody connects in this run. *)
Definition open_firewall : Firewall (L:=unit) := fw_build (mkFwConfig [] [] 8 8 8) tt.
Definition spool_process : Process (L:=unit) :=
  run_start (set_relay demo_server (Some (mkSpool spool_one 1))) open_firewall ConcurrencyLimits_default.
(** An attempt that is put off, while a connection comes and goes, and then Ctrl-C. *)
Definition spool_events : list Event :=
  [EvTick later; EvAcquire OnInbound; EvNext later; EvAccept OnInbound 7 (V4 1) later;
   EvAnswer (RelayDeferred 451 (lit "busy")) later; EvHangUp 7; EvNext later; EvCtrlC; EvWorkerStops].
#[local] Notation spool_run evs :=
  (process_run msa_demo_auth msa_demo_b64 demo_psl id id list_dir (λ l _ _, (l, true)) (λ l _, l) evs spool_process).

Lemma process_connections_bounded_witness :
  ∃ p, spool_run spool_events = Some p ∧ Z.of_nat (serving OnInbound (pr_conns p)) ≤ 512 ∧
    al_permits (pr_loops p OnInbound) + Z.b2z (al_holding (pr_loops p OnInbound)) + Z.of_nat (serving OnInbound (pr_conns p)) = 512 ∧
    0 ≤ al_permits (pr_loops p OnInbound).
Proof.
  assert (bool_decide (is_Some (spool_run spool_events)) = true) as [p E]%bool_decide_eq_true by (vm_compute; reflexivity).
  exists p. split; [exact E|].
  refine (process_connections_bounded msa_demo_auth msa_demo_b64 demo_psl id id list_dir (λ l _ _, (l, true)) (λ l _, l)
            (set_relay demo_server (Some (mkSpool spool_one 1))) open_firewall ConcurrencyLimits_default spool_events p OnInbound _ E).
  by intros [].
Defined.

(** Ctrl-C while the relay client is at work, and what follows. *)
Definition stopping_events : list Event := [EvTick later; EvNext later; EvCtrlC].
Definition stopped_events : list Event :=
  [EvAnswer (RelayDeferred 451 (lit "busy")) later; EvNext later; EvReportsStop; EvReturn].
Lemma process_stops_witness :
  ∃ p p', spool_run stopping_events = Some p ∧
    process_run msa_demo_auth msa_demo_b64 demo_psl id id list_dir (λ l _ _, (l, true)) (λ l _, l) stopped_events p = Some p' ∧
    pr_main p' = Returned ∧ Forall (λ ev, accepting_event ev = false) stopped_events.
Proof.
  assert (match spool_run stopping_events with
          | Some p => bool_decide (pr_main p = Stopping) && match process_run msa_demo_auth msa_demo_b64 demo_psl id id list_dir
              (λ l _ _, (l, true)) (λ l _, l) stopped_events p with
            | Some p' => bool_decide (pr_main p' = Returned) | None => false end
          | None => false end = true) as Hc by (vm_compute; reflexivity).
  destruct (spool_run stopping_events) as [p|] eqn:E; [|discriminate Hc].
  apply andb_true_iff in Hc as [Hm%bool_decide_eq_true Hc].
  destruct (process_run _ _ _ _ _ _ _ _ stopped_events p) as [p'|] eqn:E'; [|discriminate Hc].
  apply bool_decide_eq_true in Hc. exists p, p'. split; [reflexivity|]. split; [exact E'|]. split; [exact Hc|].
  refine (proj1 (proj2 (process_stops msa_demo_auth msa_demo_b64 demo_psl id id list_dir (λ l _ _, (l, true)) (λ l _, l)
    stopped_events p p' Hm E'))).
Defined.

Lemma worker_pass_atomic_witness :
  ∃ s', relay_due busy list_dir later (pr_server spool_process) = Some s' ∧
  ∃ evs, spool_run (EvTick later :: evs) = Some (set_worker spool_process s' Asleep) ∧
    Forall (λ ev, ev = EvNext later ∨ ∃ m, ev = EvAnswer (busy m) later) evs.
Proof.
  assert (bool_decide (is_Some (relay_due busy list_dir later (pr_server spool_process))) = true) as [s' E]%bool_decide_eq_true
    by (vm_compute; reflexivity).
  exists s'. split; [exact E|].
  refine (worker_pass_atomic msa_demo_auth msa_demo_b64 demo_psl id id list_dir (λ l _ _, (l, true)) (λ l _, l) busy later
            spool_process s' _ _ E); reflexivity.
Defined.
