(* ===== verification/Queue.v ===== *)
(** * What the queue's operations leave alone

    Frame properties of services/snail_server/src/spool.rs: which paths each operation
    touches, so that what happens to one entry is independent of the operations on the
    others.  [Authority] and [Custody] use them for the running process. *)
From S2P Require Import Prelude RustStr Net Message Transport Store Spool Server Worker.
#[local] Hint Resolve EML_dot CTRL_dot BOUNCING_dot TMP_dot : snail.

(** The paths a call changes, and those it can create. *)
Definition touched (op : FsOp) : list Path :=
  match op with
  | FsWrite p _ | RemoveIfExists p => [p]
  | FsRename p q | RenameIfExists p q => [p; q]
  end.
Definition written (op : FsOp) : list Path :=
  match op with FsWrite p _ => [p] | FsRename _ q | RenameIfExists _ q => [q] | RemoveIfExists _ => [] end.

Lemma fs_rename_other p q r fs fs' : fs_rename p q fs = Ok fs' → r ≠ p → r ≠ q → fs' !! r = fs !! r.
Proof.
  unfold fs_rename. destruct (fs !! p); [|done]. intros [= <-] ? ?. by rewrite lookup_insert_ne, lookup_delete_ne.
Qed.
Lemma fs_rename_absent p q r fs fs' : fs_rename p q fs = Ok fs' → r ≠ q → fs !! r = None → fs' !! r = None.
Proof.
  unfold fs_rename. destruct (fs !! p); [|done]. intros [= <-] ? Hr. rewrite lookup_insert_ne by done.
  apply lookup_delete_None. by right.
Qed.
Lemma rename_if_exists_cases p q fs fs' : rename_if_exists p q fs = Ok fs' → fs_rename p q fs = Ok fs' ∨ fs' = fs.
Proof. unfold rename_if_exists. destruct (fs_rename p q fs) as [fs1|[]]; intros [= <-]; auto. Qed.

Lemma exec_op_untouched t op fs fs' r : exec_op t op fs = Ok fs' → r ∉ touched op → fs' !! r = fs !! r.
Proof.
  intros Hop Hr. destruct op; simpl in *.
  - simplify_eq. rewrite lookup_insert_ne; [done|set_solver].
  - eapply fs_rename_other; [done|set_solver..].
  - apply rename_if_exists_cases in Hop as [Hop| ->]; [|done]. eapply fs_rename_other; [done|set_solver..].
  - rewrite remove_if_exists_delete in Hop. simplify_eq. rewrite lookup_delete_ne; [done|set_solver].
Qed.
Lemma exec_op_absent t op fs fs' r : exec_op t op fs = Ok fs' → r ∉ written op → fs !! r = None → fs' !! r = None.
Proof.
  intros Hop Hr Hn. destruct op; simpl in *.
  - simplify_eq. rewrite lookup_insert_ne; [done|set_solver].
  - eapply fs_rename_absent; [done|set_solver|done].
  - apply rename_if_exists_cases in Hop as [Hop| ->]; [|done]. eapply fs_rename_absent; [done|set_solver|done].
  - rewrite remove_if_exists_delete in Hop. simplify_eq. apply lookup_delete_None. by right.
Qed.

Lemma exec_untouched t ops fs r : Forall (λ op, r ∉ touched op) ops → (exec t ops fs).2 !! r = fs !! r.
Proof.
  revert fs. induction ops as [|op ops IH]; intros fs Hr; [done|]. apply Forall_cons in Hr as [Hr Hrs]. simpl.
  destruct (exec_op t op fs) as [fs1|] eqn:E; [|done]. rewrite IH by done. by eapply exec_op_untouched.
Qed.
Lemma exec_absent t ops fs r : Forall (λ op, r ∉ written op) ops → fs !! r = None → (exec t ops fs).2 !! r = None.
Proof.
  revert fs. induction ops as [|op ops IH]; intros fs Hr Hn; [done|]. apply Forall_cons in Hr as [Hr Hrs]. simpl.
  destruct (exec_op t op fs) as [fs1|] eqn:E; [|done]. apply IH; [done|]. by eapply exec_op_absent.
Qed.

(** A path is none of a short list of others. *)
Ltac not_path := unfold touched, written; rewrite ?not_elem_of_cons; split_and?; first [by apply not_elem_of_nil | path_ne].

(** The five paths of an entry against the calls of an operation on another. *)
Ltac other_paths :=
  let r := fresh in let Hr := fresh in intros r Hr;
  repeat (apply elem_of_cons in Hr as [->|Hr]); [..|by apply not_elem_of_nil in Hr]; repeat constructor; not_path.

(** The operations on one entry leave the paths of the others alone. *)
Section other.
Context (id id' : str) (Hid : id' ≠ id).

Lemma same_paths_exec t ops fs :
  (∀ r, r ∈ [bouncing_marker id; eml_path id; ctrl_path id; bounced_eml id; bounced_ctrl id] → Forall (λ op, r ∉ touched op) ops) →
  same_paths id fs (exec t ops fs).2.
Proof. intros Hr. split; [split_and!|split]; apply exec_untouched, Hr; set_solver. Qed.

Lemma bounce_other t fs : same_paths id fs (bounce t id' fs).2.
Proof. apply same_paths_exec. other_paths. Qed.
Lemma spool_remove_other t fs : same_paths id fs (spool_remove t id' fs).2.
Proof. apply same_paths_exec. other_paths. Qed.
Lemma defer_other t n next fs : same_paths id fs (defer t id' n next fs).2.
Proof.
  unfold defer, defer_ops. destruct (fs_read_to_string _ _) as [text|]; [|apply same_paths_refl]. cbn [mbind result_bind].
  destruct (parse_ctrl id' text) as [e|]; [|apply same_paths_refl]. cbn [mbind result_bind].
  apply same_paths_exec. other_paths.
Qed.
End other.

(** No operation on queued entries makes a control file that was not there. *)
Section absent.
Context (id id' : str).
#[local] Notation absent fs := (fs !! ctrl_path id = None).

Lemma bounce_absent t fs : absent fs → absent (bounce t id' fs).2.
Proof. apply exec_absent. repeat constructor; not_path. Qed.
Lemma spool_remove_absent t fs : absent fs → absent (spool_remove t id' fs).2.
Proof. apply exec_absent. repeat constructor; not_path. Qed.
Lemma defer_absent t n next fs : absent fs → absent (defer t id' n next fs).2.
Proof.
  intros Ha. destruct (decide (id = id')) as [<-|Hid].
  - unfold defer, defer_ops, fs_read_to_string, fs_read. by rewrite Ha.
  - destruct (defer_other id id' (not_eq_sym Hid) t n next fs) as ((_ & _ & E) & _). by rewrite E.
Qed.
End absent.

(** Reaping removes nothing from the queue, and from [bounced/] only what is old. *)
Lemma reap_main read_dir retention now fs name : (reap_bounced read_dir retention now fs).1 !! (Main, name) = fs !! (Main, name).
Proof. unfold reap_bounced. rewrite reap_names_lookup. destruct (fs !! _); [|done]. by rewrite bool_decide_false by naive_solver. Qed.
Lemma reap_old read_dir retention now fs q f :
  fs !! q = Some f → (reap_bounced read_dir retention now fs).1 !! q = Some f ∨ aged_out retention now f = true.
Proof.
  intros Hq. unfold reap_bounced. rewrite reap_names_lookup, Hq.
  destruct (aged_out retention now f); [by right|left]. by rewrite andb_false_r.
Qed.

(** ** Queueing *)

(** The files of the queue; none without a relay. *)
Definition queue_fs (s : Server) : FS := match srv_relay s with Some sp => sp_fs sp | None => ∅ end.

(** The clock reads another time than when [id] was given out. *)
Definition id_old (id : str) (now : Z) : Prop := ∀ seq, id ≠ new_id now seq.

Lemma enqueue_group_paths id now src spool g :
  id_old id now → same_paths id (sp_fs spool) (sp_fs (enqueue_group now src spool g)).
Proof.
  intros Hid. unfold enqueue_group, enqueue, enqueue_ops. rewrite exec_two_writes. cbn [snd sp_fs].
  split; [apply same_entry_other, Hid|]. unfold committed_fs. split; by fs_simpl.
Qed.
Lemma enqueue_relay_paths id now spool src rs :
  id_old id now → same_paths id (sp_fs spool) (sp_fs (enqueue_relay now spool src rs)).
Proof.
  intros Hid. unfold enqueue_relay. generalize (by_domain rs) as gs. intros gs. revert spool.
  induction gs as [|g gs IH]; intros spool; simpl; [apply same_paths_refl|].
  eapply same_paths_trans; [by apply enqueue_group_paths|apply IH].
Qed.
Lemma accept_paths id now s m a : id_old id now → same_paths id (queue_fs s) (queue_fs (server_accept_inbound now s m a).1).
Proof.
  intros Hid. unfold server_accept_inbound, queue_fs. destruct (accept_inbound _ _ _ m) as [st r].
  destruct a, (srv_relay s) as [sp|] eqn:Hs; simpl; rewrite ?Hs; try apply same_paths_refl.
  case_bool_decide; simpl; rewrite ?Hs; [apply same_paths_refl|by apply enqueue_relay_paths].
Qed.
Lemma with_spool_fs s f : is_Some (srv_relay s) → queue_fs (with_spool s f) = (f (queue_fs s)).2.
Proof. intros [sp Hs]. unfold with_spool, queue_fs. by rewrite Hs. Qed.
Lemma with_spool_none s f : srv_relay s = None → with_spool s f = s.
Proof. unfold with_spool. by intros ->. Qed.
