(* ===== verification/Authority.v ===== *)
(** * Who may put mail where

    The guarantees of the four connection handlers, the relay worker and the report
    worker, put together for the whole running process of Process.v: what each transition
    may do to the mailboxes and to the relay queue, in every state an execution reaches. *)
From S2P Require Import Prelude RustStr Net Message Smtp Transport Store Auth Submission Pop Imap.
From S2P Require Import Throttle Greylist Received Dmarc DmarcReport AuditTrail Firewall Listen Spool Server Serve Access Worker Queue Process.

(** What no task changes: the domains served, and whether TLS is on. *)
Definition same_config (s s' : Server) : Prop := srv_domains s' = srv_domains s ∧ srv_tls s' = srv_tls s.
#[export] Instance same_config_preorder : PreOrder same_config.
Proof. split; [done|]. intros s1 s2 s3 [? ?] [? ?]. split; congruence. Qed.

Lemma same_config_local s s' r : same_config s s' → server_is_local s' r = server_is_local s r.
Proof. intros [Hd _]. unfold server_is_local. by rewrite Hd. Qed.

Lemma accept_config now s m a : same_config s (server_accept_inbound now s m a).1.
Proof. destruct (server_accept_frame now s m a) as (? & ? & _). by split. Qed.
Lemma spool_config s f : same_config s (with_spool s f).
Proof. unfold with_spool. by destruct (srv_relay s). Qed.

(** ** Mail put somewhere *)

#[local] Notation boxes s := (mem_list (srv_store s)).

(** Every mailbox keeps its mail, in order, and what it gains at the end are copies of
    messages of [P], in the mailbox of a recipient of theirs that is hosted here. *)
Definition posts (P : Message → Prop) (s s' : Server) : Prop := ∀ mb, ∃ new,
  boxes s' mb = boxes s mb ++ new ∧
  ∀ sm, sm ∈ new → ∃ m r, P m ∧ r ∈ env_recipients (msg_envelope m) ∧ mb = Mailbox_to_string r ∧ server_is_local s r = true ∧
    Message_to_bytes (sm_message sm) = Message_to_bytes m.

(** The entry [id] of the spool is a message of [P], for some of its recipients that are not
    hosted here, not yet tried, from its sender and with its bytes. *)
Definition queued_for (P : Message → Prop) (s : Server) (fs : FS) (id : str) : Prop :=
  ∃ m rs now, P m ∧ rs ≠ [] ∧ (∀ r, r ∈ rs → r ∈ env_recipients (msg_envelope m) ∧ server_is_local s r = false) ∧
    f_data <$> fs !! ctrl_path id = Some (utf8_encode (render_ctrl (queued_envelope m rs) 0 now now)) ∧
    f_data <$> fs !! eml_path id = Some (Message_to_bytes m).
Definition same_files (id : str) (fs fs' : FS) : Prop :=
  fs' !! ctrl_path id = fs !! ctrl_path id ∧ fs' !! eml_path id = fs !! eml_path id.
(** Every entry is left as it was, or is such an entry, or is gone. *)
Definition queues (P : Message → Prop) (s : Server) (fs fs' : FS) : Prop := ∀ id,
  same_files id fs fs' ∨ queued_for P s fs' id ∨ fs' !! ctrl_path id = None.

Lemma posts_same P s s' : srv_store s' = srv_store s → posts P s s'.
Proof. intros E mb. exists []. rewrite E, app_nil_r. split; [done|]. intros sm Hsm. by apply not_elem_of_nil in Hsm. Qed.
Lemma posts_trans P s1 s2 s3 : same_config s1 s2 → posts P s1 s2 → posts P s2 s3 → posts P s1 s3.
Proof.
  intros Hc H1 H2 mb. destruct (H1 mb) as (new & E1 & Hn1), (H2 mb) as (new' & E2 & Hn2).
  exists (new ++ new'). rewrite E2, E1, app_assoc. split; [done|]. intros sm [Hsm|Hsm]%elem_of_app; [by apply Hn1|].
  destruct (Hn2 sm Hsm) as (m & r & ? & ? & ? & Hl & ?). exists m, r. by rewrite (same_config_local _ _ _ Hc) in Hl.
Qed.
Lemma posts_weaken (P Q : Message → Prop) s s' : (∀ m, P m → Q m) → posts P s s' → posts Q s s'.
Proof.
  intros Hpq Hp mb. destruct (Hp mb) as (new & E & Hn). exists new. split; [done|]. intros sm Hsm.
  destruct (Hn sm Hsm) as (m & r & Hm & Hr). exists m, r. split; [by apply Hpq|done].
Qed.
Lemma queues_refl P s fs : queues P s fs fs.
Proof. intros id. by left. Qed.
Lemma queues_trans P s fs1 fs2 fs3 : queues P s fs1 fs2 → queues P s fs2 fs3 → queues P s fs1 fs3.
Proof.
  intros H1 H2 id. destruct (H2 id) as [[E3 E3']|[?|?]]; [|by right; left|by right; right].
  destruct (H1 id) as [[E2 E2']|[(m & rs & now & Hm & Hne & Hrs & Hc & He)|Hn]].
  - left. split; congruence.
  - right; left. exists m, rs, now. by rewrite E3, E3'.
  - right; right. congruence.
Qed.
Lemma queues_config P s s1 fs fs' : same_config s s1 → queues P s1 fs fs' → queues P s fs fs'.
Proof.
  intros Hc Hq id. destruct (Hq id) as [?|[(m & rs & now & Hm & Hne & Hrs & He)|?]]; [by left| |by right; right].
  right; left. exists m, rs, now. split_and!; [done..| |apply He|apply He]. intros r Hr. by rewrite <-(same_config_local _ _ _ Hc); auto.
Qed.
Lemma queues_weaken (P Q : Message → Prop) s fs fs' : (∀ m, P m → Q m) → queues P s fs fs' → queues Q s fs fs'.
Proof.
  intros Hpq Hq id. destruct (Hq id) as [?|[(m & rs & now & Hm & He)|?]]; [by left| |by right; right].
  right; left. exists m, rs, now. split; [by apply Hpq|done].
Qed.

Lemma is_local_spec s r : server_is_local s r = true ↔ lowercase (domain r) ∈ srv_domains s.
Proof. unfold server_is_local, is_local, route. case_bool_decide; naive_solver. Qed.

(** Accepting a message delivers it, and nothing else, to its hosted recipients. *)
Lemma accept_posts now s m a : posts (.= m) s (server_accept_inbound now s m a).1.
Proof.
  intros mb. destruct (server_accept_local now s m a) as [-> _].
  pose proof (accept_inbound_spec_core (srv_domains s) (srv_store s) SpamFilter_new m) as H. cbv zeta in H.
  destruct (accept_inbound _ _ _ m) as [st' r]. destruct H as (_ & _ & Hbytes & _ & Happ). destruct (Happ mb) as (new & Hl & Hn).
  exists new. split; [exact Hl|]. intros sm Hsm. exists m.
  assert (sm_message sm ∈ sm_message <$> new) as Hin by (apply list_elem_of_fmap; by eexists). rewrite Hn in Hin.
  apply elem_of_replicate in Hin as [Heq Hk]. rewrite Heq.
  assert (copies (filter (λ r, lowercase (domain r) ∈ srv_domains s) (env_recipients (msg_envelope m))) mb ≠ 0%nat) as Hc by (by destruct (scan _ _)).
  unfold copies in Hc. destruct (filter (λ r, Mailbox_to_string r = mb) _) as [|x l] eqn:El; [done|].
  assert (x ∈ x :: l) as Hx by left. rewrite <-El in Hx. apply list_elem_of_filter in Hx as [<- [Hloc Hx]%list_elem_of_filter].
  exists x. split_and!; [done|done|done|by apply is_local_spec|done].
Qed.

Lemma enqueue_groups_queue now s m gs : (∀ g, g ∈ gs → g.2 ≠ [] ∧ ∀ r, r ∈ g.2 → r ∈ env_recipients (msg_envelope m) ∧ server_is_local s r = false) →
  ∀ sp, queues (.= m) s (sp_fs sp) (sp_fs (foldl (enqueue_group now m) sp gs)).
Proof.
  induction gs as [|[d rs] gs IH]; intros Hgs sp; [apply queues_refl|]. cbn [foldl].
  eapply queues_trans; [|apply IH; intros g Hg; apply Hgs; by right]. destruct (Hgs (d, rs)) as [Hne Hrs]; [left|].
  unfold enqueue_group, enqueue, enqueue_ops. rewrite exec_two_writes. cbn [snd sp_fs].
  set (id := new_id now (sp_counter sp)). intros id'. destruct (decide (id' = id)) as [->|Hid].
  - right; left. exists m, rs, now. destruct (committed_lookup now id (Message_to_bytes (with_recipients m rs))
      (utf8_encode (render_ctrl (msg_envelope (with_recipients m rs)) 0 now now)) (sp_fs sp)) as (He & Hc & _).
    by rewrite He, Hc.
  - left. destruct (same_entry_other now id id' (Message_to_bytes (with_recipients m rs))
      (utf8_encode (render_ctrl (msg_envelope (with_recipients m rs)) 0 now now)) (sp_fs sp) Hid) as (_ & He & Hc).
    by split.
Qed.
(** Accepting a message queues it, and nothing else, for its other recipients, if it is
    permitted to relay. *)
Lemma accept_queues now s m a :
  queues (.= m) s (queue_fs s) (queue_fs (server_accept_inbound now s m a).1).
Proof.
  unfold server_accept_inbound.
  pose proof (accept_inbound_spec_core (srv_domains s) (srv_store s) SpamFilter_new m) as H. cbv zeta in H.
  destruct (accept_inbound _ _ _ m) as [st' r]. destruct H as (Hr & _).
  destruct (bool_decide (a = Permitted)); [|apply queues_refl].
  destruct (srv_relay s) as [sp|] eqn:Es; [|apply queues_refl]. case_bool_decide; [apply queues_refl|].
  unfold queue_fs. rewrite Es. cbn. apply enqueue_groups_queue. intros [d rs] Hg. apply by_domain_core in Hg as [Hne ->].
  split; [done|]. cbn [snd]. intros x Hx. apply list_elem_of_filter in Hx as [_ Hx]. rewrite Hr in Hx.
  apply list_elem_of_filter in Hx as [Hn Hx]. split; [done|]. apply not_true_iff_false. by rewrite is_local_spec.
Qed.


#[local] Hint Resolve EML_dot CTRL_dot BOUNCING_dot TMP_dot : snail.
(** A bounce moves the files of its own entry away, and touches no other. *)
Lemma bounce_queues P s now id fs : queues P s fs (bounce now id fs).2.
Proof.
  intros id'. unfold bounce, bounce_ops. cbn [exec exec_op]. set (fs0 := <[bouncing_marker id := _]> fs).
  destruct (decide (id' = id)) as [->|Hne].
  - right; right.
    destruct (rename_if_exists_lookup (eml_path id) (bounced_eml id) fs0) as (fs1 & H1 & _); [path_ne|].
    destruct (rename_if_exists_lookup (ctrl_path id) (bounced_ctrl id) fs1) as (fs2 & H2 & Hn & _); [path_ne|].
    unfold relocate_to_bounced. cbn [app exec exec_op]. rewrite H1, H2, remove_if_exists_delete. cbn [snd].
    by rewrite lookup_delete_ne by path_ne.
  - left. destruct (finish_other now id' id fs0) as [(fs' & He & (_ & Heml & Hctrl) & _) _]; [congruence|].
    unfold finish_ops in He. rewrite He. cbn [snd]. unfold fs0 in *. split; [rewrite Hctrl|rewrite Heml]; by fs_simpl.
Qed.

Section transitions.
Context {A : Type} `{SessionAuth A} (auth : A) (base64_decode : str → result str bytes).
Context (psl_domain : str → option str) (gzip base64_encode : bytes → bytes).
Context (read_dir : FS → Dir → list str).
Context {L : Type} (check_key : L → IpAddr → Z → L * bool) (retain_recent : L → Z → L).
#[local] Notation step := (process_step auth base64_decode psl_domain gzip base64_encode read_dir check_key retain_recent).
#[local] Notation run := (process_run auth base64_decode psl_domain gzip base64_encode read_dir check_key retain_recent).
#[local] Notation line_step := (live_step auth base64_decode psl_domain).
#[local] Notation flush := (flush_reports gzip base64_encode).

(** ** What each task does to the shared state *)

(** The server after a transition, by the event. *)
Inductive server_change (p : Process (L:=L)) : Event → Server → Prop :=
  | changed_not ev : server_change p ev (pr_server p)
  | changed_line i ip c now ck pipelined handshake written line :
      pr_conns p !! i = Some (ip, c) →
      server_change p (EvLine i now ck pipelined handshake written line)
        (line_step (pr_server p) ip c now ck pipelined handshake line).1.1
  | changed_next now due :
      pr_worker p = Some (Passing due) → server_change p (EvNext now) (worker_next read_dir now (pr_server p) due).1
  | changed_answer r now e m due :
      pr_worker p = Some (Relaying e m due) →
      server_change p (EvAnswer r now) (worker_answer r now (pr_server p) e m due).1
  | changed_reports now : server_change p (EvReports now) (flush now (pr_server p)).

Lemma step_server ev p p' : step ev p = Some p' → server_change p ev (pr_server p').
Proof.
  intros Hs. destruct ev; try (step_inv Hs; constructor).
  - unfold process_step, serve_line in Hs. case_bool_decide; [done|].
    destruct (pr_conns p !! conn) as [[ip c]|] eqn:Ec; cbn [mbind option_bind] in Hs; [|done]. destruct (_ <? _); [done|].
    pose proof (changed_line p conn ip c now checks pipelined handshake written line Ec) as Hc.
    destruct (line_step _ _ _ _ _ _ _ _) as [[s c'] next]. simplify_eq. by case_match.
  - unfold process_step in Hs. case_bool_decide; [done|]. destruct (pr_worker p) as [[]|] eqn:Ew; try done.
    pose proof (changed_next p now due Ew) as Hc. destruct (worker_next _ _ _ _). by simplify_eq.
  - unfold process_step in Hs. case_bool_decide; [done|]. destruct (pr_worker p) as [[]|] eqn:Ew; try done.
    pose proof (changed_answer p report now entry message due Ew) as Hc. destruct (worker_answer _ _ _ _ _ _). by simplify_eq.
Qed.

(** The connections after a transition: those there before, some of them a line further,
    and new ones as their handler starts. *)
Lemma step_conns ev p p' i ip c' :
  step ev p = Some p' → pr_conns p' !! i = Some (ip, c') →
  pr_conns p !! i = Some (ip, c') ∨
  (∃ now ck pipelined handshake written line c, ev = EvLine i now ck pipelined handshake written line ∧
     pr_conns p !! i = Some (ip, c) ∧
     line_step (pr_server p) ip c now ck pipelined handshake line = (pr_server p', c', Continue)) ∨
  pr_server p' = pr_server p ∧
  (c' = LiveSubmission (mkConn false MsaSession_new None) ∨ c' = LivePop3 (pop_start (pr_server p)) ∨
   c' = LiveImap (imap_start (pr_server p)) ∨ c' = LiveInbound (mkConn false SmtpSession_new None)).
Proof.
  intros Hs Hi. destruct ev; try (left; step_inv Hs; congruence).
  - destruct (decide (conn = i)) as [<-|Hne].
    + right; right. revert Hs. unfold process_step. case_bool_decide; [done|]. case_bool_decide; [|done].
      unfold accept. destruct (loop_spawn _); cbn [mbind option_bind]; [|done]. destruct (pr_conns p !! conn) eqn:Ec; [done|].
      destruct (open_conn _ _ k p peer now) as [f [c|]] eqn:Eo; intros [= <-]; simpl in *; [|congruence].
      rewrite lookup_insert_eq in Hi. simplify_eq. split; [done|]. revert Eo. unfold open_conn, inbound_gate.
      destruct k; [intros [= <- <-]; auto..|]. destruct (fw_check _ _ _ _ _) as [f' []]; [intros [= <- <-]; auto|done].
    + left. revert Hs. unfold process_step. case_bool_decide; [done|]. case_bool_decide; [|done].
      unfold accept. destruct (loop_spawn _); cbn [mbind option_bind]; [|done]. destruct (pr_conns p !! conn) eqn:Ec; [done|].
      destruct (open_conn _ _ k p peer now) as [f [c|]] eqn:Eo; intros [= <-]; simpl in *; [|done].
      by rewrite lookup_insert_ne in Hi.
  - revert Hs. unfold process_step, serve_line. case_bool_decide; [done|].
    destruct (pr_conns p !! conn) as [[ip0 c]|] eqn:Ec; cbn [mbind option_bind]; [|done]. destruct (_ <? _); [done|].
    destruct (line_step _ _ _ _ _ _ _ _) as [[s c1] next] eqn:El. intros [= <-].
    destruct (decide (conn = i)) as [->|Hne].
    + destruct (bool_decide (next = Continue) && written) eqn:E; simpl in Hi.
      * rewrite lookup_insert_eq in Hi. simplify_eq. bsimp. subst. right; left. by repeat eexists.
      * by rewrite lookup_delete_eq in Hi.
    + left. destruct (_ && _); simpl in Hi; [by rewrite lookup_insert_ne in Hi|].
      by rewrite lookup_delete_ne, lookup_insert_ne in Hi.
  - left. revert Hs. unfold process_step. case_bool_decide; [done|].
    destruct (pr_conns p !! conn) as [[ip0 c]|] eqn:Ec; cbn [mbind option_bind]; [|done]. intros [= <-]. simpl in Hi.
    by apply lookup_delete_Some in Hi as [_ Hi].
Qed.

(** ** Configuration *)

Lemma submission_config ip now s c pi line : same_config s (st_server (submission_step base64_decode auth ip now s c pi line)).
Proof.
  assert (∀ cmd, st_server (submission_other s c cmd) = s) as Ho.
  { intros cmd. unfold submission_other. by destruct (msa_handle _ _). }
  unfold submission_step. destruct (c_collecting c) as [col|].
  - destruct (push_line col line) as [col' fin]. destruct (ic_size_exceeded col'); [done|]. destruct fin; [|done].
    destruct (msa_take (c_session c)) as [msa [env|]]; [|done].
    destruct (submission_deliver _ _ _ _ _ _) as [[s' r]|] eqn:Ed; [|done]. revert Ed. unfold submission_deliver.
    destruct (into_message col' env); [|by intros [= <- <-]]. destruct (_ <=? _); [by intros [= <- <-]|].
    destruct (received_header _ _ _ _); simpl; [|done]. intros [= <- <-]. apply accept_config.
  - unfold submission_command. destruct (strip_prefix_ci _ _); [|unfold submission_auth, record_auth; by repeat case_match|done].
    destruct (SmtpCommand_parse _) as [[]|]; try (by rewrite Ho); try done; destruct (msa_handle _ _); by repeat case_match.
Qed.
Lemma pop_config ip now s c pi ha line : same_config s (st_server (pop_step auth ip now s c pi ha line)).
Proof. unfold pop_step, pop_run, count_attempt. repeat (case_match; simplify_eq/=); done. Qed.
Lemma imap_config ip now s c pi ha line : same_config s (st_server (imap_step auth ip now s c pi ha line)).
Proof. unfold imap_step, imap_run, count_attempt. repeat (case_match; simplify_eq/=); done. Qed.

Lemma next_config now s due : same_config s (worker_next read_dir now s due).1.
Proof. unfold worker_next. repeat case_match; simpl; done || apply spool_config. Qed.

Lemma bounce_and_notify_config now s e m reason s' : bounce_and_notify now s e m reason = Some s' → same_config s s'.
Proof.
  unfold bounce_and_notify. intros Hb. destruct (se_sender e) as [sender|]; cbn [mbind option_bind] in Hb.
  - destruct (build_failure_dsn _ _ _ _ _ _); cbn [mbind option_bind] in Hb; simplify_eq.
    etrans; [apply accept_config|apply spool_config].
  - simplify_eq. apply spool_config.
Qed.
Lemma answer_config r now s e m due : same_config s (worker_answer r now s e m due).1.
Proof.
  unfold worker_answer, relay_outcome. destruct r as [|code text|reason]; simpl.
  - apply spool_config.
  - destruct (_ <=? _).
    + destruct (bounce_and_notify _ _ _ _ _) eqn:E; [by eapply bounce_and_notify_config|done].
    + destruct (checked_add _ _); simpl; [apply spool_config|done].
  - destruct (bounce_and_notify _ _ _ _ _) eqn:E; [by eapply bounce_and_notify_config|done].
Qed.

Lemma flush_all_config now b e rs : ∀ s, same_config s (foldl (flush_one gzip base64_encode now b e) s rs).
Proof.
  induction rs as [|r rs IH]; intros s; [done|]. cbn [foldl]. etrans; [|apply IH].
  unfold flush_one. destruct (build_report _ _ _ _ _ _ _); [apply accept_config|done].
Qed.
Lemma flush_config now s : same_config s (flush now s).
Proof.
  unfold flush_reports. destruct (aggregator_drain _) as [reports agg]. case_bool_decide; [done|].
  etrans; [|apply flush_all_config]. done.
Qed.

(** ** Connections *)

(** A connection is in a state its own handler can have brought it to. *)
Definition live_ok (s : Server) (ip : IpAddr) (c : Live) : Prop :=
  match c with
  | LiveSubmission c => submission_reach base64_decode auth ip s c
  | LivePop3 c => ∃ h, pop_conn_reach auth ip h s c
  | LiveImap c => ∃ h, imap_conn_reach auth ip h s c
  | LiveInbound c => hosted s (recipients (c_session c))
  end.

Lemma live_ok_config s s' ip c : same_config s s' → live_ok s ip c → live_ok s' ip c.
Proof.
  intros [Hd Ht]. destruct c; simpl.
  - intros. by eapply submission_others.
  - intros [h Hr]. exists h. by eapply pop_conn_others.
  - intros [h Hr]. exists h. by eapply imap_conn_others.
  - by apply hosted_domains.
Qed.

Lemma line_config s ip c now ck pi ha line : live_ok s ip c → same_config s (line_step s ip c now ck pi ha line).1.1.
Proof.
  destruct c as [c|c|c|c]; simpl; intros Hok.
  - apply submission_config.
  - apply pop_config.
  - apply imap_config.
  - destruct (inbound_step_ok (ck_spf ck) (ck_dkim ck) (ck_txt ck) psl_domain ip now s c pi line Hok) as (Hd & _).
    split; [done|]. apply inbound_step_tls.
Qed.

Lemma line_ok s ip c now ck pi ha line s' c' :
  live_ok s ip c → line_step s ip c now ck pi ha line = (s', c', Continue) → live_ok s' ip c'.
Proof.
  intros Hok. destruct c as [c|c|c|c]; simpl in *; intros [= <- <- Hn]; simpl.
  - by apply submission_line.
  - destruct Hok as [h Hr]. eexists. by apply (pop_conn_line auth ip now pi ha line h).
  - destruct Hok as [h Hr]. eexists. by apply (imap_conn_line auth ip now pi ha line h).
  - destruct (inbound_step_ok (ck_spf ck) (ck_dkim ck) (ck_txt ck) psl_domain ip now s c pi line Hok) as (Hd & _ & _ & Hh).
    by eapply hosted_domains.
Qed.

Definition conns_ok (p : Process (L:=L)) : Prop := ∀ i ip c, pr_conns p !! i = Some (ip, c) → live_ok (pr_server p) ip c.

Lemma change_config p ev s' : conns_ok p → server_change p ev s' → same_config (pr_server p) s'.
Proof.
  intros Hok [|i ip c now ck pi ha wr line Hi|now due Hw|r now e m due Hw|now].
  - done.
  - apply line_config. by eapply Hok.
  - apply next_config.
  - apply answer_config.
  - apply flush_config.
Qed.

Lemma step_conns_ok ev p p' : conns_ok p → step ev p = Some p' → conns_ok p'.
Proof.
  intros Hok Hs i ip c' Hi. pose proof (change_config p ev _ Hok (step_server ev p p' Hs)) as Hcfg.
  destruct (step_conns ev p p' i ip c' Hs Hi) as [Hi'|[(now & ck & pi & ha & wr & line & c & -> & Hc & Hl)|[E Hnew]]].
  - eapply live_ok_config; [done|]. by eapply Hok.
  - eapply line_ok; [|done]. by eapply Hok.
  - rewrite E. destruct Hnew as [->|[->|[->| ->]]]; simpl; try eexists; constructor.
Qed.

(** In every execution the domains and TLS stay as configured, and every connection is in
    a state of its own protocol. *)
Lemma run_ok server fw limits evs p :
  run evs (run_start server fw limits) = Some p → same_config server (pr_server p) ∧ conns_ok p.
Proof.
  apply (process_run_ind auth base64_decode psl_domain gzip base64_encode read_dir check_key retain_recent
           (λ p, same_config server (pr_server p) ∧ conns_ok p)).
  - intros ev q q' [Hc Hok] Hs. split; [|by eapply step_conns_ok]. etrans; [exact Hc|].
    eapply change_config; [done|by eapply step_server].
  - split; [done|]. intros i ip c Hi. simpl in Hi. by rewrite lookup_empty in Hi.
Qed.

(** ** Causes *)

(** The event is the line that ends the data of a message on a connection to the public port;
    [m] is that message, for the recipients named on the connection, with the trace fields
    added. *)
Definition received (p : Process (L:=L)) (ev : Event) (m : Message) : Prop :=
  ∃ i now ck pipelined handshake written line ip c col col' m0 proto r,
    let env := mkEnvelope (sender (c_session c)) (recipients (c_session c)) in
    ev = EvLine i now ck pipelined handshake written line ∧ pr_conns p !! i = Some (ip, LiveInbound c) ∧
    c_collecting c = Some col ∧ push_line col line = (col', true) ∧ into_message col' env = Ok m0 ∧
    stamp_inbound ip now (fold_report ip (pr_server p) r) (default (lit "unknown") (helo (c_session c))) proto (mail_from_of env) r m0 = Some m.
(** The same on a submission connection, whose sender is the address of a user whose password
    was accepted on it, over TLS if the server has TLS. *)
Definition submitted (p : Process (L:=L)) (ev : Event) (m : Message) : Prop :=
  ∃ i now ck pipelined handshake written line ip c col col' m0 trace sd u pw,
    ev = EvLine i now ck pipelined handshake written line ∧ pr_conns p !! i = Some (ip, LiveSubmission c) ∧
    c_collecting c = Some col ∧ push_line col line = (col', true) ∧
    sender (msa_smtp (c_session c)) = Some sd ∧ lowercase (Mailbox_to_string sd) = lowercase u ∧
    auth_check auth u pw = true ∧ (srv_tls (pr_server p) = true → c_tls c = true) ∧
    into_message col' (mkEnvelope (Some sd) (recipients (msa_smtp (c_session c)))) = Ok m0 ∧ m = prepend_header trace m0.
(** The relay client gives up on an entry that has a sender, and [m] is the notice to it. *)
Definition bounced (p : Process (L:=L)) (ev : Event) (m : Message) : Prop :=
  ∃ r now e om due sd reason, ev = EvAnswer r now ∧ r ≠ RelayDelivered ∧ pr_worker p = Some (Relaying e om due) ∧
    se_sender e = Some sd ∧ msg_envelope m = mkEnvelope None [sd] ∧
    build_failure_dsn (srv_helo (pr_server p)) sd (se_recipients e) reason (raw_headers om) now = Some m.
(** [m] is a DMARC report that is due, to the address its domain publishes. *)
Definition reported (p : Process (L:=L)) (ev : Event) (m : Message) : Prop :=
  ∃ now rep rua from begin_ end_ id, ev = EvReports now ∧ rep ∈ (aggregator_drain (srv_aggregator (pr_server p))).1 ∧
    parse_rua (pr_rua rep) = Some rua ∧ msg_envelope m = mkEnvelope (Some from) [rua] ∧
    build_report gzip base64_encode (srv_helo (pr_server p)) rep begin_ end_ id = Some m.
(** The QUIT of a POP3 user, whose password was accepted, removing the messages marked. *)
Definition emptying (p : Process (L:=L)) (ev : Event) (mb : str) (s' : Server) : Prop :=
  ∃ i now ck pipelined handshake written line ip c pw, ev = EvLine i now ck pipelined handshake written line ∧
    PopCommand_parse (from_utf8_lossy line) = Ok PQuit ∧
    pr_conns p !! i = Some (ip, LivePop3 c) ∧ ps_mailbox (c_session c) = Some mb ∧ auth_check auth mb pw = true ∧
    (srv_tls (pr_server p) = true → c_tls c = true) ∧
    boxes s' mb = filter (λ m, sm_id m ∉ ps_deleted (c_session c)) (boxes (pr_server p) mb).

(** A line of the public port leaves the store as it is, or accepts a message for delivery. *)
Lemma inbound_step_cases ck ip now s c pi line :
  let s' := st_server (inbound_step (ck_spf ck) (ck_dkim ck) (ck_txt ck) psl_domain ip now s c pi line) in
  srv_store s' = srv_store s ∨
  ∃ col col' m0 m tls r, let env := mkEnvelope (sender (c_session c)) (recipients (c_session c)) in
    c_collecting c = Some col ∧ push_line col line = (col', true) ∧ into_message col' env = Ok m0 ∧
    stamp_inbound ip now (fold_report ip s r) (default (lit "unknown") (helo (c_session c))) tls (mail_from_of env) r m0 = Some m ∧
    s' = (server_accept_inbound now (fold_report ip s r) m Forbidden).1.
Proof.
  assert (∀ s' cmd, st_server (inbound_other s' c cmd) = s') as Ho.
  { intros s' cmd. unfold inbound_other. by destruct (smtp_handle _ _). }
  unfold inbound_step. destruct (c_collecting c) as [col|].
  - destruct (push_line col line) as [col' fin] eqn:Epush. destruct (ic_size_exceeded col'); [by left|]. destruct fin; [|by left].
    unfold take_envelope. case_bool_decide; [by left|]. unfold inbound_deliver.
    destruct (into_message col' _) as [m0|] eqn:Em; [|by left]. destruct (_ <=? _); [by left|].
    destruct (bool_decide _ && _); [by left|]. set (r := check_auth _ _ _ _ _ _ _ _ _).
    destruct (fold_report_frame ip s r) as (_ & _ & Hs & _).
    destruct (_ && _); [by left|]. destruct (stamp_inbound _ _ _ _ _ _ _ _) as [m|] eqn:Est; [|by left].
    right. by eexists col, col', m0, m, _, r.
  - left. unfold inbound_command. destruct (SmtpCommand_parse _) as [cmd|]; [|done].
    destruct cmd as [| | |x| | | | |]; try (by rewrite Ho); try (destruct (smtp_handle _ _); by repeat case_match).
    destruct (negb _); [done|]. destruct (greylisted_frame ip now s (c_session c) x) as (_ & _ & Hs).
    destruct (greylisted _ _ _ _ _) as [s' []]; [done|by rewrite Ho].
Qed.
Lemma submission_step_cases ip now s c pi line :
  let s' := st_server (submission_step base64_decode auth ip now s c pi line) in
  (srv_store s' = srv_store s ∧ srv_relay s' = srv_relay s) ∨
  ∃ col col' m0 trace env, c_collecting c = Some col ∧ push_line col line = (col', true) ∧ (msa_take (c_session c)).2 = Some env ∧
    into_message col' (mkEnvelope (sender (msa_smtp (c_session c))) (recipients (msa_smtp (c_session c)))) = Ok m0 ∧
    s' = (server_accept_inbound now s (prepend_header trace m0) Permitted).1.
Proof.
  unfold submission_step. destruct (c_collecting c) as [col|].
  - destruct (push_line col line) as [col' fin] eqn:Epush. destruct (ic_size_exceeded col'); [by left|]. destruct fin; [|by left].
    unfold msa_take, take_envelope. case_bool_decide; [by left|]. cbn [snd]. unfold submission_deliver.
    destruct (into_message col' _) as [m0|] eqn:Em; [|by left]. destruct (_ <=? _); [by left|].
    destruct (received_header _ _ _ _) as [trace|]; [|by left]. right. by eexists col, col', m0, trace, _.
  - left. unfold submission_command.
    destruct (strip_prefix_ci _ _); [|unfold submission_auth, record_auth; by repeat case_match|done].
    destruct (SmtpCommand_parse _) as [[]|]; try done; unfold submission_other; destruct (msa_handle _ _); by repeat case_match.
Qed.

Lemma with_spool_store s f : srv_store (with_spool s f) = srv_store s.
Proof. unfold with_spool. by destruct (srv_relay s). Qed.

(** Giving up on an entry: the notice to its sender, if it has one, and the bounce. *)
Lemma bounce_and_notify_posts P now s e om reason s' :
  (∀ sd m, se_sender e = Some sd → msg_envelope m = mkEnvelope None [sd] →
     build_failure_dsn (srv_helo s) sd (se_recipients e) reason (raw_headers om) now = Some m → P m) →
  bounce_and_notify now s e om reason = Some s' →
  posts P s s' ∧ queues P s (queue_fs s) (queue_fs s').
Proof.
  intros HP. unfold bounce_and_notify.
  assert (∀ s1, queues P s (queue_fs s1) (queue_fs (with_spool s1 (bounce now (se_id e))))) as Hb.
  { intros s1. unfold queue_fs, with_spool. destruct (srv_relay s1) eqn:E; [apply bounce_queues|rewrite E; apply queues_refl]. }
  destruct (se_sender e) as [sd|] eqn:Es; cbn [mbind option_bind].
  - destruct (build_failure_dsn _ _ _ _ _ _) as [m|] eqn:Em; cbn [mbind option_bind]; [|done]. intros [= <-].
    assert (msg_envelope m = mkEnvelope None [sd]) as Henv.
    { revert Em. unfold build_failure_dsn. destruct (rfc5322_date now); cbn [mbind option_bind]; [|done].
      destruct (Message_parse _ _) as [m1|] eqn:E1; [intros [= <-]; by apply Message_parse_inv in E1 as (? & _)|].
      destruct (Message_parse _ dsn_fallback) as [m2|] eqn:E2; [|done]. intros [= <-]. by apply Message_parse_inv in E2 as (? & _). }
    assert (∀ m', m' = m → P m') as Hm by (intros m' ->; by eapply HP). split.
    + eapply posts_trans; [apply accept_config|eapply posts_weaken; [exact Hm|apply accept_posts]|]. apply posts_same, with_spool_store.
    + eapply queues_trans; [eapply queues_weaken; [exact Hm|apply accept_queues]|apply Hb].
  - intros [= <-]. split; [apply posts_same, with_spool_store|apply Hb].
Qed.

Definition gave_up (now : Z) (s : Server) (e : SpoolEntry) (om m : Message) : Prop :=
  ∃ sd reason, se_sender e = Some sd ∧ msg_envelope m = mkEnvelope None [sd] ∧
    build_failure_dsn (srv_helo s) sd (se_recipients e) reason (raw_headers om) now = Some m.
Lemma answer_posts r now s e om due :
  let s' := (worker_answer r now s e om due).1 in
  (srv_store s' = srv_store s ∧ ∀ id, queue_fs s !! ctrl_path id = None → queue_fs s' !! ctrl_path id = None) ∨
  r ≠ RelayDelivered ∧ posts (gave_up now s e om) s s' ∧ queues (gave_up now s e om) s (queue_fs s) (queue_fs s').
Proof.
  assert (∀ reason s', bounce_and_notify now s e om reason = Some s' →
    posts (gave_up now s e om) s s' ∧ queues (gave_up now s e om) s (queue_fs s) (queue_fs s')) as Hb.
  { intros reason s'. apply bounce_and_notify_posts. intros sd m Hs He Hm. by exists sd, reason. }
  assert (∀ f, (∀ id fs, fs !! ctrl_path id = None → (f fs).2 !! ctrl_path id = None) →
    srv_store (with_spool s f) = srv_store s ∧ ∀ id, queue_fs s !! ctrl_path id = None → queue_fs (with_spool s f) !! ctrl_path id = None) as Hq.
  { intros f Hf. split; [apply with_spool_store|]. intros id. unfold queue_fs, with_spool. destruct (srv_relay s) as [sp|] eqn:E; [apply Hf|by rewrite E]. }
  unfold worker_answer, relay_outcome. destruct r as [|code text|reason]; simpl.
  - left. apply Hq. intros. by apply spool_remove_absent.
  - destruct (_ <=? _).
    + destruct (bounce_and_notify _ _ _ _ _) eqn:E; [right; split; [done|by eapply Hb]|by left].
    + destruct (checked_add _ _); simpl; [|by left]. left. apply Hq. intros. by apply defer_absent.
  - destruct (bounce_and_notify _ _ _ _ _) eqn:E; [right; split; [done|by eapply Hb]|by left].
Qed.

(** Sending the reports. *)
Definition due_report (s : Server) (reports : list PendingReport) (b e : Z) (m : Message) : Prop :=
  ∃ rep rua from id, rep ∈ reports ∧ parse_rua (pr_rua rep) = Some rua ∧ msg_envelope m = mkEnvelope (Some from) [rua] ∧
    build_report gzip base64_encode (srv_helo s) rep b e id = Some m.
Lemma build_report_envelope host rep b e id m :
  build_report gzip base64_encode host rep b e id = Some m →
  ∃ rua from, parse_rua (pr_rua rep) = Some rua ∧ msg_envelope m = mkEnvelope (Some from) [rua].
Proof.
  unfold build_report. destruct (parse_rua (pr_rua rep)) as [rua|]; cbn [mbind option_bind]; [|done].
  destruct (Mailbox_parse _) as [from|]; cbn [ok mbind option_bind]; [|done].
  destruct (Message_parse _ _) as [m'|] eqn:E; [|done]. intros [= <-]. apply Message_parse_inv in E as (He & _). by exists rua, from.
Qed.
Lemma accept_helo now s m a : srv_helo (server_accept_inbound now s m a).1 = srv_helo s.
Proof.
  unfold server_accept_inbound. destruct (accept_inbound _ _ _ m) as [st r].
  destruct a; simpl; [destruct (srv_relay s); simpl|]; repeat case_bool_decide; done.
Qed.
Lemma flush_all_posts now b e s0 all : ∀ rs s, srv_helo s = srv_helo s0 → (∀ r, r ∈ rs → r ∈ all) →
  let s' := foldl (flush_one gzip base64_encode now b e) s rs in
  posts (due_report s0 all b e) s s' ∧ queues (due_report s0 all b e) s (queue_fs s) (queue_fs s').
Proof.
  induction rs as [|r rs IH]; intros s Hh Hin; cbv zeta; cbn [foldl]; [split; [by apply posts_same|apply queues_refl]|].
  unfold flush_one at 2 4. destruct (build_report _ _ _ _ _ _ _) as [m|] eqn:Em; [|apply IH; [done|intros x Hx; apply Hin; by right]].
  assert (∀ m', m' = m → due_report s0 all b e m') as Hm.
  { intros m' ->. destruct (build_report_envelope _ _ _ _ _ _ Em) as (rua & from & Hr & He). rewrite Hh in Em.
    eexists r, rua, from, _. split_and!; [apply Hin; by left|done|done|exact Em]. }
  destruct (IH (server_accept_inbound now s m Permitted).1) as [Hp Hq]; [by rewrite accept_helo|intros x Hx; apply Hin; by right|]. split.
  - eapply posts_trans; [apply accept_config|eapply posts_weaken; [exact Hm|apply accept_posts]|exact Hp].
  - eapply queues_trans; [eapply queues_weaken; [exact Hm|apply accept_queues]|]. eapply queues_config; [apply accept_config|exact Hq].
Qed.
Lemma flush_posts now s :
  let rs := (aggregator_drain (srv_aggregator s)).1 in
  let P m := ∃ b e, due_report s rs b e m in
  posts P s (flush now s) ∧ queues P s (queue_fs s) (queue_fs (flush now s)).
Proof.
  unfold flush_reports. destruct (aggregator_drain (srv_aggregator s)) as [rs agg]. cbn [fst]. cbv zeta.
  case_bool_decide; [split; [by apply posts_same|apply queues_refl]|].
  set (e := unix_now now). set (b := Z.max 0 _).
  destruct (flush_all_posts now b e s rs rs (set_aggregator s agg)) as [Hp Hq]; [done|done|]. split.
  - eapply posts_weaken; [|exact Hp]. eauto.
  - eapply queues_weaken; [|exact Hq]. eauto.
Qed.

(** ** Transitions *)

Definition entering (p : Process (L:=L)) (ev : Event) (m : Message) : Prop := submitted p ev m ∨ bounced p ev m ∨ reported p ev m.

Lemma next_quiet now s due :
  srv_store (worker_next read_dir now s due).1 = srv_store s ∧
  ∀ id, queue_fs s !! ctrl_path id = None → queue_fs (worker_next read_dir now s due).1 !! ctrl_path id = None.
Proof.
  unfold worker_next. destruct (srv_relay s) as [sp|] eqn:Hs; [|done]. destruct due as [|e due].
  - split; [done|]. unfold queue_fs. rewrite Hs. intros id Ha. simpl. unfold ctrl_path. by rewrite reap_main.
  - assert (srv_store (with_spool s (bounce now (se_id e))) = srv_store s ∧
      ∀ id, queue_fs s !! ctrl_path id = None → queue_fs (with_spool s (bounce now (se_id e))) !! ctrl_path id = None) as Hq.
    { split; [apply with_spool_store|]. intros id. unfold queue_fs, with_spool. rewrite Hs. apply bounce_absent. }
    by destruct (load_message _ _) as [m|[]].
Qed.

(** The message a submission connection accepts has an authentic sender. *)
Lemma submission_change p i ip c now ck pi ha wr line :
  pr_conns p !! i = Some (ip, LiveSubmission c) → live_ok (pr_server p) ip (LiveSubmission c) →
  let s' := st_server (submission_step base64_decode auth ip now (pr_server p) c pi line) in
  let P := submitted p (EvLine i now ck pi ha wr line) in
  posts P (pr_server p) s' ∧ queues P (pr_server p) (queue_fs (pr_server p)) (queue_fs s').
Proof.
  intros Hi Hl. destruct (submission_step_cases ip now (pr_server p) c pi line) as [[Es Er]|(col & col' & m0 & trace & env & Hc & Hp & Hen & Hm0 & E)].
  { cbv zeta. split; [by apply posts_same|]. unfold queue_fs. rewrite Er. apply queues_refl. }
  cbv zeta. rewrite E.
  destruct (submission_envelope_authentic base64_decode auth ip (pr_server p) c env Hl Hen) as (sd & u & pw & Hsd & Hu & Ha & Ht).
  rewrite Hsd in Hm0.
  assert (∀ m', m' = prepend_header trace m0 → submitted p (EvLine i now ck pi ha wr line) m') as Hm.
  { intros m' ->. by exists i, now, ck, pi, ha, wr, line, ip, c, col, col', m0, trace, sd, u, pw. }
  split; [eapply posts_weaken; [exact Hm|apply accept_posts]|eapply queues_weaken; [exact Hm|apply accept_queues]].
Qed.

Lemma inbound_change p i ip c now ck pi ha wr line :
  pr_conns p !! i = Some (ip, LiveInbound c) →
  posts (received p (EvLine i now ck pi ha wr line)) (pr_server p)
    (st_server (inbound_step (ck_spf ck) (ck_dkim ck) (ck_txt ck) psl_domain ip now (pr_server p) c pi line)).
Proof.
  intros Hi. destruct (inbound_step_cases ck ip now (pr_server p) c pi line) as [Es|(col & col' & m0 & m & tls & r & Hc & Hp & Hm0 & Hm & E)].
  { by apply posts_same. }
  rewrite E. destruct (fold_report_frame ip (pr_server p) r) as (Hd & _ & Hs & _).
  intros mb. destruct (accept_posts now (fold_report ip (pr_server p) r) m Forbidden mb) as (new & Hnew & Hin).
  exists new. rewrite Hnew, Hs. split; [done|]. intros sm Hsm. destruct (Hin sm Hsm) as (? & x & -> & Hx & -> & Hl & Hb).
  exists m, x. unfold server_is_local in *. rewrite Hd in Hl. split_and!; [|done..].
  by exists i, now, ck, pi, ha, wr, line, ip, c, col, col', m0, tls, r.
Qed.

Lemma quiet_queues s s' id : srv_relay s' = srv_relay s → queue_fs s !! ctrl_path id = None → is_Some (queue_fs s' !! ctrl_path id) → False.
Proof. unfold queue_fs. intros ->. intros ->. by intros [? ?]. Qed.
Lemma queues_new P s fs fs' id :
  queues P s fs fs' → fs !! ctrl_path id = None → is_Some (fs' !! ctrl_path id) → queued_for P s fs' id.
Proof.
  intros Hq Ha [f Hf]. destruct (Hq id) as [[E _]|[?|E]]; [rewrite E in Hf|done|rewrite E in Hf]; congruence.
Qed.
Lemma queued_for_weaken (P Q : Message → Prop) s s' fs id :
  same_config s s' → (∀ m, P m → Q m) → queued_for P s' fs id → queued_for Q s fs id.
Proof.
  intros Hc Hpq (m & rs & now & Hm & Hne & Hrs & He). exists m, rs, now. split_and!; [by apply Hpq|done| |apply He..].
  intros r Hr. by rewrite <-(same_config_local _ _ _ Hc); auto.
Qed.

Lemma answer_reasons p r now e om due :
  pr_worker p = Some (Relaying e om due) → r ≠ RelayDelivered →
  ∀ m, gave_up now (pr_server p) e om m → bounced p (EvAnswer r now) m.
Proof. intros Hw Hr m (sd & reason & Hs & He & Hm). by exists r, now, e, om, due, sd, reason. Qed.
Lemma flush_reasons p now m :
  (∃ b e, due_report (pr_server p) (aggregator_drain (srv_aggregator (pr_server p))).1 b e m) → reported p (EvReports now) m.
Proof. intros (b & e & rep & rua & from & id & ? & ? & ? & ?). by exists now, rep, rua, from, b, e, id. Qed.

(** A new entry of the queue is a message that entered with authority. *)
Lemma change_queue p ev s' id :
  conns_ok p → server_change p ev s' →
  queue_fs (pr_server p) !! ctrl_path id = None → is_Some (queue_fs s' !! ctrl_path id) →
  queued_for (entering p ev) (pr_server p) (queue_fs s') id.
Proof.
  intros Hok [ev'|i ip c now ck pi ha wr line Hi|now due Hw|r now e m due Hw|now] Ha Hn.
  - destruct Hn as [? ?]. congruence.
  - pose proof (Hok _ _ _ Hi) as Hl. destruct c as [c|c|c|c]; cbn [live_step fst] in Hn |- *.
    + destruct (submission_change p i ip c now ck pi ha wr line Hi Hl) as [_ Hq].
      eapply queued_for_weaken; [done| |by eapply queues_new]. by left.
    + exfalso. destruct (pop_step_cases auth ip now (pr_server p) c pi ha line) as (_ & E & _). by eapply quiet_queues.
    + exfalso. destruct (imap_step_cases auth ip now (pr_server p) c pi ha line) as (_ & E & _). by eapply quiet_queues.
    + exfalso. destruct (inbound_step_ok (ck_spf ck) (ck_dkim ck) (ck_txt ck) psl_domain ip now (pr_server p) c pi line Hl) as (_ & E & _).
      by eapply quiet_queues.
  - destruct Hn as [? Hn]. by rewrite (proj2 (next_quiet _ _ _)) in Hn.
  - destruct (answer_posts r now (pr_server p) e m due) as [[_ Hq]|(Hr & _ & Hq)].
    { destruct Hn as [? Hn]. by rewrite Hq in Hn. }
    eapply queued_for_weaken; [done| |by eapply queues_new]. intros m' Hm'. right; left. by eapply answer_reasons.
  - destruct (flush_posts now (pr_server p)) as [_ Hq].
    eapply queued_for_weaken; [done| |by eapply queues_new]. intros m' Hm'. right; right. by apply flush_reasons.
Qed.

(** A mailbox gains mail that was received or entered with authority, or its user empties it. *)
Definition arriving (p : Process (L:=L)) (ev : Event) (m : Message) : Prop := received p ev m ∨ entering p ev m.
Lemma change_boxes p ev s' :
  conns_ok p → server_change p ev s' →
  posts (arriving p ev) (pr_server p) s' ∨ ∀ mb, boxes s' mb = boxes (pr_server p) mb ∨ emptying p ev mb s'.
Proof.
  intros Hok [ev'|i ip c now ck pi ha wr line Hi|now due Hw|r now e m due Hw|now].
  - left. by apply posts_same.
  - pose proof (Hok _ _ _ Hi) as Hl. destruct c as [c|c|c|c]; cbn [live_step fst].
    + left. eapply posts_weaken; [|apply (submission_change p i ip c now ck pi ha wr line Hi Hl)]. intros m Hm. by right; left.
    + right. intros mb. destruct (decide (boxes (st_server (pop_step auth ip now (pr_server p) c pi ha line)) mb = boxes (pr_server p) mb)) as [E|Hne];
        [by left|right].
      destruct Hl as [h Hl].
      destruct (pop_line_safe auth ip h (pr_server p) c now pi ha line Hl) as (_ & Hq & _).
      destruct (Hq mb Hne) as (Hquit & Hm & Ht & (s1 & _ & _ & _ & pw & _ & _ & _ & _ & Hpw) & Hf).
      by exists i, now, ck, pi, ha, wr, line, ip, c, pw.
    + left. apply posts_same. by destruct (imap_step_cases auth ip now (pr_server p) c pi ha line) as (_ & _ & E & _).
    + left. eapply posts_weaken; [|by apply inbound_change]. by left.
  - left. apply posts_same, next_quiet.
  - left. destruct (answer_posts r now (pr_server p) e m due) as [[E _]|(Hr & Hp & _)]; [by apply posts_same|].
    eapply posts_weaken; [|exact Hp]. intros m' Hm'. right; right; left. by eapply answer_reasons.
  - left. eapply posts_weaken; [|apply flush_posts]. intros m' Hm'. right; right; right. by apply flush_reasons.
Qed.

(** C1: nobody puts mail anywhere without the authority to.  In every state the running
    process can reach, whatever clients, peers and resolvers did and however the tasks
    interleave: a transition that changes a mailbox either keeps everything in it, in order,
    and adds at the end copies, byte for byte, of a message for a recipient whose address the
    mailbox is and whose domain is hosted here, or is the QUIT of that mailbox's own user,
    logged in, removing the messages marked; and an entry that appears in the relay queue is,
    byte for byte, a message for some of its recipients that are not hosted here, from its
    own sender.  The message is the one a line of this connection completes, on the public
    port (delivery only) or on a submission connection whose sender is the address of a user
    logged in on it; or the notice to the sender of a message the relay client gives up on;
    or a DMARC report to the address its domain publishes. *)
Theorem process_authority (server : Server) (fw : Firewall (L:=L)) (limits : ConcurrencyLimits) (evs : list Event)
    (ev : Event) (p p' : Process (L:=L)) :
  run evs (run_start server fw limits) = Some p → step ev p = Some p' →
  (∀ mb, emptying p ev mb (pr_server p') ∨ ∃ new, boxes (pr_server p') mb = boxes (pr_server p) mb ++ new ∧
     ∀ sm, sm ∈ new → ∃ m r, (received p ev m ∨ submitted p ev m ∨ bounced p ev m ∨ reported p ev m) ∧
       r ∈ env_recipients (msg_envelope m) ∧ mb = Mailbox_to_string r ∧ server_is_local server r = true ∧
       Message_to_bytes (sm_message sm) = Message_to_bytes m) ∧
  (∀ id, queue_fs (pr_server p) !! ctrl_path id = None → is_Some (queue_fs (pr_server p') !! ctrl_path id) →
     ∃ m rs now, (submitted p ev m ∨ bounced p ev m ∨ reported p ev m) ∧ rs ≠ [] ∧
       (∀ r, r ∈ rs → r ∈ env_recipients (msg_envelope m) ∧ server_is_local server r = false) ∧
       f_data <$> queue_fs (pr_server p') !! ctrl_path id = Some (utf8_encode (render_ctrl (queued_envelope m rs) 0 now now)) ∧
       f_data <$> queue_fs (pr_server p') !! eml_path id = Some (Message_to_bytes m)).
Proof.
  intros Hrun Hs. apply step_server in Hs. destruct (run_ok _ _ _ _ _ Hrun) as [Hcfg Hok]. split.
  - intros mb. destruct (change_boxes p ev _ Hok Hs) as [Hp|He].
    + right. destruct (Hp mb) as (new & E & Hn). exists new. split; [done|]. intros sm Hsm.
      destruct (Hn sm Hsm) as (m & r & Hm & Hr & Hmb & Hl & Hb). exists m, r. by rewrite (same_config_local _ _ r Hcfg) in Hl.
    + destruct (He mb) as [E|?]; [right|by left]. exists []. rewrite app_nil_r. split; [done|].
      intros sm Hsm. by apply not_elem_of_nil in Hsm.
  - intros id Ha Hn. by eapply queued_for_weaken; [exact Hcfg| |by apply change_queue].
Qed.
End transitions.

(** ** A run *)

(** A message for a hosted mailbox arrives on the public port. *)
Definition demo_event (line : bytes) : Event :=
  EvLine 7 0 (mkChecks no_spf no_dkim demo_txt) false true true line.
Definition inbound_events : list Event :=
  EvAcquire OnInbound :: EvAccept OnInbound 7 (V4 1) 0 :: (demo_event <$> demo_lines).
#[local] Notation spool_run evs :=
  (process_run msa_demo_auth msa_demo_b64 demo_psl id id list_dir (λ l _ _, (l, true)) (λ l _, l) evs spool_process).
#[local] Notation spool_step := (process_step msa_demo_auth msa_demo_b64 demo_psl id id list_dir (λ l _ _, (l, true)) (λ l _, l)).

Lemma process_authority_witness :
  ∃ p p', spool_run inbound_events = Some p ∧ spool_step (demo_event (line_of (lit "."))) p = Some p' ∧
  ∃ sm m, sm ∈ mem_list (srv_store (pr_server p')) (lit "u@local.org") ∧
    received p (demo_event (line_of (lit "."))) m ∧ Message_to_bytes (sm_message sm) = Message_to_bytes m.
Proof.
  assert (match spool_run inbound_events with
          | Some p => match spool_step (demo_event (line_of (lit "."))) p with
                      | Some p' => match pr_conns p !! 7%nat with Some (_, LiveInbound _) => true | _ => false end &&
                                   (length (mem_list (srv_store (pr_server p)) (lit "u@local.org")) =? 0)%nat &&
                                   (length (mem_list (srv_store (pr_server p')) (lit "u@local.org")) =? 1)%nat
                      | None => false end
          | None => false end = true) as Hc by (vm_compute; reflexivity).
  destruct (spool_run inbound_events) as [p|] eqn:E; [|discriminate Hc].
  destruct (spool_step (demo_event (line_of (lit "."))) p) as [p'|] eqn:E'; [|discriminate Hc].
  apply andb_true_iff in Hc as [[Hc7 H0]%andb_true_iff H1]. apply Nat.eqb_eq in H0, H1.
  exists p, p'. split; [reflexivity|]. split; [exact E'|].
  destruct (process_authority msa_demo_auth msa_demo_b64 demo_psl id id list_dir (λ l _ _, (l, true)) (λ l _, l)
              (pr_server spool_process) open_firewall ConcurrencyLimits_default inbound_events
              (demo_event (line_of (lit "."))) p p' E E') as [Hm _].
  destruct (Hm (lit "u@local.org")) as [He|(new & Enew & Hnew)].
  - exfalso. destruct He as (i & now & ck & pi & ha & wr & line & ip & c & pw & Hev & Hq & _).
    injection Hev as _ _ _ _ _ _ <-. vm_compute in Hq. discriminate Hq.
  - destruct (mem_list (srv_store (pr_server p)) (lit "u@local.org")) as [|x l]; [|discriminate H0]. cbn [app] in Enew.
    rewrite Enew in H1 |- *. destruct new as [|sm new]; [discriminate H1|].
    destruct (Hnew sm) as (m & r & [Hrec|[Hsub|[Hb|Hr]]] & _ & _ & _ & Hbytes); [left|..].
    + exists sm, m. split; [left|]. exact (conj Hrec Hbytes).
    + exfalso. destruct Hsub as (i & now & ck & pi & ha & wr & line & ip & c & ? & ? & ? & ? & ? & ? & ? & Hev & Hconn & _).
      injection Hev as <- _ _ _ _ _ _. rewrite Hconn in Hc7. discriminate Hc7.
    + exfalso. destruct Hb as (? & ? & ? & ? & ? & ? & ? & Hev & _). discriminate Hev.
    + exfalso. destruct Hr as (? & ? & ? & ? & ? & ? & ? & Hev & _). discriminate Hev.
Defined.
