(* ===== verification/Custody.v ===== *)
(** * Custody of a queued message

    What becomes of one message of the relay queue in the running process of Process.v:
    the worker's attempts on it, each of which waits for the network while connections,
    reports and other entries go on changing the queue, bounces, and the reaping of
    [bounced/]. *)
From S2P Require Import Prelude RustStr Net Message Smtp Transport Store Auth Submission Pop Imap.
From S2P Require Import Throttle Greylist Received Dmarc DmarcReport AuditTrail Firewall Listen Spool Server Serve Access Worker Queue Process Authority.
#[local] Hint Resolve EML_dot CTRL_dot BOUNCING_dot TMP_dot : snail.

(** ** Times in control records *)

Lemma to_secs_secs n : 0 ≤ n → to_secs (secs n) = n.
Proof.
  intros Hn. unfold to_secs, duration_since, secs. rewrite (proj2 (Z.leb_le 0 (n * NANOS))) by (unfold NANOS; lia). simpl.
  rewrite Z.sub_0_r. by apply Z.div_mul.
Qed.

(** A time that was read from a control record is a whole second in range. *)
Definition whole_second (t : Z) : Prop := t ≤ SYSTIME_MAX ∧ t = secs (to_secs t).
Lemma parse_time_whole v t : parse_time v = Ok t → whole_second t.
Proof.
  unfold parse_time. destruct (parse_uint U64_MAX v) as [n|] eqn:En; cbn [ok_or mbind result_bind]; [|done].
  apply parse_uint_range in En as [Hn _]. unfold from_secs.
  destruct (checked_add 0 (secs n)) as [u|] eqn:E; cbn [ok_or]; [|done]. intros [= <-].
  apply checked_add_Some in E as [-> Hle]. split; [done|]. by rewrite Z.add_0_l, to_secs_secs.
Qed.
Lemma parse_ctrl_line_created a l a' :
  from_option whole_second True (ca_created a) → parse_ctrl_line a l = Ok a' → from_option whole_second True (ca_created a').
Proof.
  unfold parse_ctrl_line. destruct a as [created next attempts sender rcpts], (default _ _) as [key val]. cbn [ca_created].
  intros Ha. repeat (case_match; try done).
  all: try (destruct (parse_time val) as [t|] eqn:Et); try (destruct (parse_mailbox val)); try (destruct (ok_or _ _));
    cbn [mbind result_bind]; intros [= <-]; try done; simpl; by eapply parse_time_whole.
Qed.
Lemma parse_ctrl_created id text e : parse_ctrl id text = Ok e → whole_second (se_created_at e).
Proof.
  unfold parse_ctrl. assert (∀ ls a a', from_option whole_second True (ca_created a) → parse_ctrl_lines a ls = Ok a' →
    from_option whole_second True (ca_created a')) as Hls.
  { induction ls as [|l ls IH]; simpl; intros a a' Ha; [by intros [= <-]|].
    destruct (parse_ctrl_line a l) as [a1|] eqn:E; cbn [mbind result_bind]; [|done]. by eapply IH, parse_ctrl_line_created. }
  destruct (parse_ctrl_lines acc_empty (lines text)) as [a|] eqn:E; cbn [mbind result_bind]; [|done].
  apply Hls in E; [|done]. case_bool_decide; [done|]. destruct (ca_attempts a), (ca_next a); try done.
  cbn [ok_or mbind result_bind]. destruct (ca_created a); [|done]. by intros [= <-].
Qed.

(** ** The places of a message *)

Section entry.
Context (id : str) (env : Envelope) (fe : File).

(** In the queue, with the bytes and for the recipients it was queued with. *)
Definition in_queue (fs : FS) : Prop :=
  fs !! eml_path id = Some fe ∧
  ∃ text e, fs_read_to_string (ctrl_path id) fs = Ok text ∧ parse_ctrl id text = Ok e ∧ entry_envelope e = env.
Definition set_aside (fs : FS) : Prop := fs !! eml_path id = None ∧ fs !! bounced_eml id = Some fe.
Definition kept (fs : FS) : Prop := in_queue fs ∨ set_aside fs.

Lemma in_queue_same fs fs' : same_paths id fs fs' → in_queue fs → in_queue fs'.
Proof. intros ((_ & He & Hc) & _). unfold in_queue, fs_read_to_string, fs_read. by rewrite He, Hc. Qed.
Lemma set_aside_same fs fs' : same_paths id fs fs' → set_aside fs → set_aside fs'.
Proof. intros ((_ & He & _) & Hb & _). unfold set_aside. by rewrite He, Hb. Qed.
Lemma kept_same fs fs' : same_paths id fs fs' → kept fs → kept fs'.
Proof. intros Hs [H|H]; [left; by eapply in_queue_same|right; by eapply set_aside_same]. Qed.

Lemma bounce_sets_aside t fs : kept fs → set_aside (bounce t id fs).2.
Proof.
  intros [(He & text & e & Hr & _)|[He Hb]].
  - unfold fs_read_to_string, fs_read in Hr. destruct (fs !! ctrl_path id) as [fc|] eqn:Hc; [|done].
    destruct (bounce_completes t id fe fc fs) as (fs' & -> & _ & H1 & _ & H2 & _); [by split|]. by split.
  - unfold bounce, bounce_ops, relocate_to_bounced. cbn [app exec exec_op].
    set (fs0 := <[bouncing_marker id:=_]> fs).
    assert (rename_if_exists (eml_path id) (bounced_eml id) fs0 = Ok fs0) as ->.
    { unfold rename_if_exists, fs_rename, fs0. by rewrite lookup_insert_ne, He by path_ne. }
    destruct (rename_if_exists_lookup (ctrl_path id) (bounced_ctrl id) fs0) as (fs1 & -> & _ & _ & Ho); [path_ne|].
    rewrite remove_if_exists_delete. unfold set_aside. cbn [snd].
    rewrite !lookup_delete_ne, !Ho by path_ne. unfold fs0. rewrite !lookup_insert_ne by path_ne. done.
Qed.

Lemma defer_keeps t n next fs :
  ctrl_safe_env env → 0 ≤ n ≤ U32_MAX → next ≤ SYSTIME_MAX → in_queue fs → in_queue (defer t id n next fs).2.
Proof.
  intros Hsafe Hn Hx (He & text & e & Hr & Hp & Henv). destruct (parse_ctrl_created _ _ _ Hp) as [Hc1 Hc2].
  destruct (defer_spec_core t id n next fs text e) as (fs' & text' & ops & _ & -> & Hr' & Hp' & He' & _);
    [done|done|by rewrite Henv|done..|].
  cbn [snd]. split; [by rewrite He'|]. eexists text', _. split_and!; [done..|]. by rewrite <-Henv.
Qed.

(** Reaping takes it only from [bounced/], and only when its file is old. *)
Lemma reap_keeps read_dir retention now fs :
  kept fs → kept (reap_bounced read_dir retention now fs).1 ∨ aged_out retention now fe = true.
Proof.
  intros [H|[He Hb]].
  - left; left. revert H. unfold in_queue, fs_read_to_string, fs_read, eml_path, ctrl_path. by rewrite !reap_main.
  - destruct (reap_old read_dir retention now fs _ _ Hb) as [Hb'|]; [left; right|by right]. split; [|done].
    unfold eml_path in *. by rewrite reap_main.
Qed.

(** What the worker loads for the entry is the message as it was queued. *)
Lemma load_kept fs m : kept fs → load_message id fs = Ok m → in_queue fs ∧ Message_parse env (f_data fe) = Ok m.
Proof.
  unfold load_message, fs_read. intros [Hq|[He _]]; [|by rewrite He].
  pose proof Hq as (He & text & e & Hr & Hp & Henv). rewrite He, Hr. cbn [fmap option_fmap option_map ok_or mbind result_bind].
  rewrite Hp. cbn [mbind result_bind]. rewrite Henv. destruct (Message_parse env (f_data fe)); [|done].
  by intros [= <-].
Qed.
End entry.

Section custody.
Context {A : Type} `{SessionAuth A} (auth : A) (base64_decode : str → result str bytes).
Context (psl_domain : str → option str) (gzip base64_encode : bytes → bytes).
Context (read_dir : FS → Dir → list str).
Context {L : Type} (check_key : L → IpAddr → Z → L * bool) (retain_recent : L → Z → L).
#[local] Notation step := (process_step auth base64_decode psl_domain gzip base64_encode read_dir check_key retain_recent).
#[local] Notation run := (process_run auth base64_decode psl_domain gzip base64_encode read_dir check_key retain_recent).
#[local] Notation line_step := (live_step auth base64_decode psl_domain).
#[local] Notation flush := (flush_reports gzip base64_encode).
#[local] Notation conns_ok := (conns_ok auth base64_decode).

Context (id : str) (env : Envelope) (fe : File).
#[local] Notation kept s := (kept id env fe (queue_fs s)).
#[local] Notation in_queue s := (in_queue id env fe (queue_fs s)).

(** The clock an event reads. *)
Definition clock (ev : Event) : option Z :=
  match ev with
  | EvAccept _ _ _ now | EvLine _ now _ _ _ _ _ | EvTick now | EvNext now | EvAnswer _ now | EvReports now => Some now
  | _ => None
  end.
Definition later (ev : Event) : Prop := ∀ now, clock ev = Some now → id_old id now.

(** ** The other tasks leave the entry alone *)

Lemma submission_paths ip now s c pi line :
  id_old id now → same_paths id (queue_fs s) (queue_fs (st_server (submission_step base64_decode auth ip now s c pi line))).
Proof.
  intros Hid. assert (∀ s' : Server, srv_relay s' = srv_relay s → same_paths id (queue_fs s) (queue_fs s')) as Heq.
  { intros s' E. unfold queue_fs. rewrite E. apply same_paths_refl. }
  unfold submission_step. destruct (c_collecting c) as [col|].
  - destruct (push_line col line) as [col' fin]. destruct (ic_size_exceeded col'); [by apply Heq|]. destruct fin; [|by apply Heq].
    destruct (msa_take (c_session c)) as [msa [mail|]]; [|by apply Heq].
    destruct (submission_deliver _ _ _ _ _ _) as [[s' r]|] eqn:Ed; [|by apply Heq]. revert Ed. unfold submission_deliver.
    destruct (into_message col' mail); [|intros [= <- <-]; by apply Heq]. destruct (_ <=? _); [intros [= <- <-]; by apply Heq|].
    destruct (received_header _ _ _ _); simpl; [|done]. intros [= <- <-]. by apply accept_paths.
  - apply Heq. unfold submission_command.
    destruct (strip_prefix_ci _ _); [|unfold submission_auth, record_auth; by repeat case_match|done].
    destruct (SmtpCommand_parse _) as [[]|]; try done; unfold submission_other; destruct (msa_handle _ _); by repeat case_match.
Qed.

Lemma line_paths s ip c now ck pi ha line :
  live_ok auth base64_decode s ip c → id_old id now →
  same_paths id (queue_fs s) (queue_fs (line_step s ip c now ck pi ha line).1.1).
Proof.
  intros Hok Hid. assert (∀ s' : Server, srv_relay s' = srv_relay s → same_paths id (queue_fs s) (queue_fs s')) as Heq.
  { intros s' E. unfold queue_fs. rewrite E. apply same_paths_refl. }
  destruct c as [c|c|c|c]; cbn [live_step fst].
  - by apply submission_paths.
  - apply Heq, pop_step_cases.
  - apply Heq, imap_step_cases.
  - apply Heq. by apply inbound_step_ok.
Qed.

Lemma flush_all_paths now b e rs : ∀ s,
  id_old id now → same_paths id (queue_fs s) (queue_fs (foldl (flush_one gzip base64_encode now b e) s rs)).
Proof.
  induction rs as [|r rs IH]; intros s Hid; [apply same_paths_refl|]. cbn [foldl].
  eapply same_paths_trans; [|by apply IH]. unfold flush_one.
  destruct (build_report _ _ _ _ _ _ _); [by apply accept_paths|apply same_paths_refl].
Qed.
Lemma flush_paths now s : id_old id now → same_paths id (queue_fs s) (queue_fs (flush now s)).
Proof.
  intros Hid. unfold flush_reports. destruct (aggregator_drain _) as [reports agg]. case_bool_decide; [apply same_paths_refl|].
  by apply (flush_all_paths now _ _ _ (set_aggregator s agg)).
Qed.

(** ** The worker *)

Lemma kept_relay s : kept s → is_Some (srv_relay s).
Proof. unfold queue_fs. destruct (srv_relay s); [by eexists|]. by intros [[E _]|[_ E]]; rewrite lookup_empty in E. Qed.

(** A failed entry is bounced: ours is set aside, another does not disturb ours. *)
Lemma bounce_and_notify_kept now s e m reason s' :
  id_old id now → kept s → bounce_and_notify now s e m reason = Some s' → kept s'.
Proof.
  intros Hid Hk. unfold bounce_and_notify.
  assert (∀ s1, is_Some (srv_relay s1) → same_paths id (queue_fs s) (queue_fs s1) →
    Some (with_spool s1 (bounce now (se_id e))) = Some s' → kept s') as Hb.
  { intros s1 Hs1 Hsp [= <-]. rewrite with_spool_fs by done. pose proof (kept_same id env fe _ _ Hsp Hk) as Hk1.
    destruct (decide (se_id e = id)) as [->|Hne]; [right; by eapply bounce_sets_aside|].
    eapply kept_same; [by apply bounce_other|done]. }
  destruct (se_sender e) as [sender|]; cbn [mbind option_bind].
  - destruct (build_failure_dsn _ _ _ _ _ _); cbn [mbind option_bind]; [|done].
    apply Hb; [by apply server_accept_relay, kept_relay|by apply accept_paths].
  - apply Hb; [by apply kept_relay|apply same_paths_refl].
Qed.

Lemma answer_kept r now s e m due :
  ctrl_safe_env env → id_old id now → kept s → (se_id e = id → in_queue s) →
  (se_id e = id ∧ r = RelayDelivered) ∨ kept (worker_answer r now s e m due).1.
Proof.
  intros Hsafe Hid Hk Hq. pose proof (kept_relay s Hk) as Hs. unfold worker_answer, relay_outcome.
  destruct r as [|code text|reason]; simpl.
  - destruct (decide (se_id e = id)) as [E|Hne]; [by left|right]. rewrite with_spool_fs by done.
    eapply kept_same; [|exact Hk]. by apply spool_remove_other.
  - right. set (n := add_u32 (se_attempts e) 1). destruct (_ <=? _).
    + destruct (bounce_and_notify _ _ _ _ _) eqn:E; [by eapply bounce_and_notify_kept|done].
    + destruct (checked_add now (backoff n)) as [next|] eqn:En; simpl; [|done]. rewrite with_spool_fs by done.
      destruct (decide (se_id e = id)) as [E|Hne].
      * left. rewrite E. apply defer_keeps; [done| | |by apply Hq].
        -- unfold n, add_u32, U32_MAX. pose proof (Z.mod_pos_bound (se_attempts e + 1) (2 ^ 32)). lia.
        -- apply checked_add_Some in En. lia.
      * eapply kept_same; [|exact Hk]. by apply defer_other.
  - right. destruct (bounce_and_notify _ _ _ _ _) eqn:E; [by eapply bounce_and_notify_kept|done].
Qed.

(** While the client is at work on the entry it is in the queue, and the message in the
    client's hands is the one that was queued. *)
Definition attempting (s : Server) (w : option RelayWorker) : Prop :=
  ∀ e m due, w = Some (Relaying e m due) → se_id e = id → in_queue s ∧ Message_parse env (f_data fe) = Ok m.
Definition in_custody (p : Process (L:=L)) : Prop := kept (pr_server p) ∧ attempting (pr_server p) (pr_worker p).

Lemma next_kept now s due :
  kept s →
  (kept (worker_next read_dir now s due).1 ∧ attempting (worker_next read_dir now s due).1 (Some (worker_next read_dir now s due).2)) ∨
  aged_out BOUNCE_RETENTION now fe = true.
Proof.
  intros Hk. destruct (kept_relay s Hk) as [sp Hs]. unfold worker_next. rewrite Hs. destruct due as [|e due].
  - destruct (reap_keeps id env fe read_dir BOUNCE_RETENTION now _ Hk) as [Hk'|]; [left|by right].
    split; [|done]. unfold queue_fs in *. rewrite Hs in Hk'. done.
  - left. assert (queue_fs s = sp_fs sp) as Hfs by (unfold queue_fs; by rewrite Hs).
    destruct (load_message (se_id e) (sp_fs sp)) as [m|er] eqn:El.
    + split; [done|]. intros e' m' due' [= <- <- <-] E. rewrite E, <-Hfs in El. by apply load_kept.
    + assert (kept (with_spool s (bounce now (se_id e)))) as Hb.
      { rewrite with_spool_fs by by eexists. destruct (decide (se_id e = id)) as [->|Hne].
        - right. by eapply bounce_sets_aside.
        - eapply kept_same; [by apply bounce_other|done]. }
      by destruct er.
Qed.

(** Every event but the worker's own leaves the worker where it is. *)
Lemma step_worker ev p p' :
  step ev p = Some p' →
  match ev with EvTick _ | EvNext _ | EvAnswer _ _ | EvWorkerStops => True | _ => pr_worker p' = pr_worker p end.
Proof. intros Hs. destruct ev; try done; by step_inv Hs. Qed.

Lemma back_to_sleep_attempting s m w : attempting s (Some w) → attempting s (Some (back_to_sleep m w)).
Proof. by destruct m, w. Qed.

(** One transition keeps the message in custody, unless it ends it. *)
Definition handed_over (ev : Event) (p : Process (L:=L)) : Prop :=
  ∃ now e m due, ev = EvAnswer RelayDelivered now ∧ pr_worker p = Some (Relaying e m due) ∧ se_id e = id ∧
    Message_parse env (f_data fe) = Ok m.
Definition reaped (ev : Event) : Prop := ∃ now, ev = EvNext now ∧ aged_out BOUNCE_RETENTION now fe = true.

Lemma step_custody ev p p' :
  ctrl_safe_env env → conns_ok p → later ev → in_custody p → step ev p = Some p' →
  in_custody p' ∨ handed_over ev p ∨ reaped ev.
Proof.
  intros Hsafe Hok Hlater [Hk Hatt] Hs.
  assert (pr_worker p' = pr_worker p → same_paths id (queue_fs (pr_server p)) (queue_fs (pr_server p')) → in_custody p') as Hquiet.
  { intros Ew Hsp. split; [by eapply kept_same|]. intros e m due Hw E. rewrite Ew in Hw.
    destruct (Hatt e m due Hw E) as [Hq Hm]. split; [by eapply in_queue_same|done]. }
  pose proof (step_worker ev p p' Hs) as Hw. pose proof (step_server _ _ _ _ _ _ _ _ ev p p' Hs) as Hch.
  destruct ev; try (left; apply Hquiet; [exact Hw|inversion Hch; subst; apply same_paths_refl]).
  - left. apply Hquiet; [exact Hw|]. inversion Hch as [? E|i ip c ? ? ? ? ? ? Hi E1 E|?|?|?]; subst; [apply same_paths_refl|].
    apply line_paths; [by eapply Hok|by apply Hlater].
  - left. split; [inversion Hch; subst; exact Hk|]. step_inv Hs. apply back_to_sleep_attempting. unfold worker_tick. repeat case_match; done.
  - unfold process_step in Hs. case_bool_decide; [done|]. destruct (pr_worker p) as [[|due|e0 m0 due0|]|] eqn:Ew; try done.
    destruct (next_kept now (pr_server p) due Hk) as [[Hk' Ha]|Hold]; [left|right; right; by exists now].
    destruct (worker_next _ _ _ _) as [s w]. simplify_eq. split; [done|by apply back_to_sleep_attempting].
  - unfold process_step in Hs. case_bool_decide; [done|]. destruct (pr_worker p) as [[|due|e0 m0 due0|]|] eqn:Ew; try done.
    destruct (answer_kept report now (pr_server p) e0 m0 due0 Hsafe) as [[E ->]|Hk'];
      [by apply Hlater|done|by intros E; eapply Hatt| |left].
    + right; left. exists now, e0, m0, due0. split_and!; [done..|]. by eapply Hatt.
    + split; [|intros e m due]; revert Hs; unfold worker_answer in *; destruct (relay_outcome _ _ _ _ _); intros [= <-]; done.
  - left. apply Hquiet; [exact Hw|]. inversion Hch as [? E|? ? ? ? ? ? ? ? ? ? E|?|?|? E]; subst; [apply same_paths_refl|].
    apply flush_paths. by apply Hlater.
  - left. split; [inversion Hch; subst; exact Hk|]. by step_inv Hs.
Qed.

Lemma run_custody evs : ∀ p p',
  ctrl_safe_env env → conns_ok p → Forall later evs → in_custody p → run evs p = Some p' →
  kept (pr_server p') ∨
  ∃ evs1 ev evs2 q, evs = evs1 ++ ev :: evs2 ∧ run evs1 p = Some q ∧ (handed_over ev q ∨ reaped ev).
Proof.
  induction evs as [|ev evs IH]; intros p p' Hsafe Hok Hl Hc; cbn [process_run]; [intros [= <-]; left; apply Hc|].
  apply Forall_cons in Hl as [Hev Hl]. destruct (step ev p) as [q|] eqn:Es; cbn [mbind option_bind]; [|done]. intros Hr.
  destruct (step_custody ev p q Hsafe Hok Hev Hc Es) as [Hq|Hend].
  - destruct (IH q p' Hsafe) as [Hk|(evs1 & ev' & evs2 & q' & -> & Hq' & Hend)];
      [by eapply step_conns_ok|done|done|done|by left|right].
    exists (ev :: evs1), ev', evs2, q'. split_and!; [done| |done]. cbn [process_run]. by rewrite Es.
  - right. exists [], ev, evs, p. by split_and!.
Qed.

(** C2: a queued message is never lost, whatever else the process is doing.  From any state
    of an execution in which the message is in the queue and not in the relay client's
    hands, however the worker's attempts on it interleave with connections, reports, the
    other entries and Ctrl-C, and even if the worker panics: it stays in the queue with its
    bytes, its sender and its recipients, or in [bounced/] with its bytes, until the relay
    client reports it delivered, having been given exactly the message that was queued, or
    until the reaper finds its file older than the retention time.  The clock must have
    moved since its identifier was given out. *)
Theorem process_custody (server : Server) (fw : Firewall (L:=L)) (limits : ConcurrencyLimits) (evs0 evs : list Event)
    (p p' : Process (L:=L)) :
  run evs0 (run_start server fw limits) = Some p → run evs p = Some p' →
  ctrl_safe_env env → in_queue (pr_server p) →
  (∀ e m due, pr_worker p = Some (Relaying e m due) → se_id e ≠ id) → Forall later evs →
  kept (pr_server p') ∨
  ∃ evs1 ev evs2 q, evs = evs1 ++ ev :: evs2 ∧ run evs1 p = Some q ∧ (handed_over ev q ∨ reaped ev).
Proof.
  intros H0 Hrun Hsafe Hq Hw Hl. eapply run_custody; [done| |exact Hl| |exact Hrun].
  - by eapply run_ok.
  - split; [by left|]. intros e m due E Eid. by destruct (Hw e m due E).
Qed.
End custody.

(** ** Reaping counts from the time of queueing *)

(** A bounced message keeps the modification time of its queue file, so [bounced/] holds it
    for what is left of the retention time since it was queued: one that was queued that
    long ago, before the server was stopped and started again, is deleted by the very pass
    that bounces it. *)
Theorem bounced_reaped_at_once (read_dir : FS → Dir → list str) (now : Z) (id : str) (fe fc : File) (fs : FS) :
  (∀ fs name, name ∈ read_dir fs Bounced ↔ is_Some (fs !! (Bounced, name))) →
  in_main id fe fc fs → aged_out BOUNCE_RETENTION now fe = true →
  let fs' := (bounce now id fs).2 in
  fs' !! bounced_eml id = Some fe ∧ (reap_bounced read_dir BOUNCE_RETENTION now fs').1 !! bounced_eml id = None.
Proof.
  intros Hrd Hin Hold fs'. destruct (bounce_completes now id fe fc fs Hin) as (fs1 & Hb & _ & _ & _ & He & _).
  assert (fs' = fs1) as -> by (unfold fs'; by rewrite Hb). split; [done|].
  unfold reap_bounced. rewrite reap_names_lookup, He, Hold. rewrite bool_decide_true; [done|]. split; [done|]. apply Hrd. by eexists.
Qed.

(** ** A run *)

#[local] Notation spool_run evs :=
  (process_run msa_demo_auth msa_demo_b64 demo_psl id id list_dir (λ l _ _, (l, true)) (λ l _, l) evs spool_process).

Lemma process_custody_witness :
  ∃ p', spool_run spool_events = Some p' ∧
  (kept spool_id spool_env spool_fe (queue_fs (pr_server p')) ∨
   ∃ evs1 ev evs2 q, spool_events = evs1 ++ ev :: evs2 ∧ spool_run evs1 = Some q ∧
     (handed_over spool_id spool_env spool_fe ev q ∨ reaped spool_fe ev)).
Proof.
  assert (bool_decide (is_Some (spool_run spool_events)) = true) as [p' E]%bool_decide_eq_true by (vm_compute; reflexivity).
  assert (in_queue spool_id spool_env spool_fe (queue_fs (pr_server spool_process))) as Hq.
  { split; [by vm_compute|]. exists (render_ctrl spool_env 0 spool_now spool_now), (new_entry spool_id spool_env spool_now).
    split_and!; by vm_compute. }
  assert (Forall (later spool_id) spool_events) as Hl.
  { unfold spool_events. repeat (apply Forall_cons; split; [intros now; cbn [clock]; intros En;
      first [discriminate En|injection En as <-; exact spool_id_old]|]). constructor. }
  exists p'. split; [exact E|].
  refine (process_custody msa_demo_auth msa_demo_b64 demo_psl id id list_dir (λ l _ _, (l, true)) (λ l _, l)
           spool_id spool_env spool_fe (set_relay demo_server (Some (mkSpool spool_one 1))) open_firewall
           ConcurrencyLimits_default [] spool_events spool_process p' _ E spool_env_safe Hq _ Hl).
  - reflexivity.
  - intros e m due Hw. discriminate Hw.
Defined.
