(* ===== verification/Faults.v ===== *)
(** * The spool when the disk fails

    services/snail_server/src/spool.rs, server.rs and worker.rs when a system call of the
    spool returns an I/O error (a full or failing disk): the call stops the operation it is
    part of, through its [?], and the code that called the operation goes on.  The other
    files run the spool without such faults; here every operation that changes it takes
    one.  The callers only look at whether an operation succeeded: [enqueue_relay] logs a
    failure, and the worker drops the results of [remove], [defer] and [bounce]. *)
From S2P Require Import Prelude RustStr Net Message Transport Store Submission Received Spool Server Serve Worker Queue.
#[local] Hint Resolve EML_dot CTRL_dot BOUNCING_dot TMP_dot : snail.

(** ** Faults *)

(** Which call of an operation fails, if one does, and the bytes a failing write has stored:
    [None] if it failed before it created the file. *)
Notation Fault := (option (nat * option nat)) (only parsing).

(** The calls of an operation, up to the first that fails; whether all succeeded. *)
Fixpoint exec_io (fault : Fault) (t : Z) (ops : list FsOp) (fs : FS) : bool * FS :=
  match ops with
  | [] => (true, fs)
  | op :: ops =>
      match fault with
      | Some (O, wrote) =>
          (false, match op, wrote with FsWrite p b, Some k => <[p := mkFile (take k b) t]> fs | _, _ => fs end)
      | Some (S n, wrote) => match exec_op t op fs with Ok fs' => exec_io (Some (n, wrote)) t ops fs' | Err _ => (false, fs) end
      | None => match exec_op t op fs with Ok fs' => exec_io None t ops fs' | Err _ => (false, fs) end
      end
  end.

(** ** Operations of the spool *)

Definition enqueue_io (fault : Fault) (now : Z) (m : Message) (sp : OutboundSpool) : bool * OutboundSpool :=
  let '(ok, fs) := exec_io fault now (enqueue_ops (new_id now (sp_counter sp)) now m) (sp_fs sp) in
  (ok, mkSpool fs (add_u64 (sp_counter sp) 1)).
Definition defer_io (fault : Fault) (t : Z) (id : str) (attempts next : Z) (fs : FS) : FS :=
  match defer_ops id attempts next fs with Ok ops => (exec_io fault t ops fs).2 | Err _ => fs end.
Definition remove_io (fault : Fault) (t : Z) (id : str) (fs : FS) : FS := (exec_io fault t (spool_remove_ops id) fs).2.
Definition bounce_io (fault : Fault) (t : Z) (id : str) (fs : FS) : FS := (exec_io fault t (bounce_ops id) fs).2.

(** ** Their callers *)

(** [faults i] is the fault of the [i]-th destination domain; a failure is logged. *)
Definition enqueue_relay_io (faults : nat → Fault) (now : Z) (sp : OutboundSpool) (source : Message) (rs : list Mailbox)
    : OutboundSpool :=
  foldl (λ sp '(i, g), (enqueue_io (faults i) now (with_recipients source g.2) sp).2) sp (imap pair (by_domain rs)).
Definition accept_inbound_io (faults : nat → Fault) (now : Z) (s : Server) (m : Message) (a : RelayAuthorization)
    : Server * InboundResult :=
  let '(st, r) := accept_inbound (srv_domains s) (srv_store s) SpamFilter_new m in
  let s := set_store s st in
  match srv_relay s with
  | Some sp =>
      if bool_decide (a = Permitted) && negb (bool_decide (in_relay r = []))
      then (set_relay s (Some (enqueue_relay_io faults now sp m (in_relay r))), r) else (s, r)
  | None => (s, r)
  end.
Definition submission_deliver_io (faults : nat → Fault) (now : Z) (s : Server) (tls : bool) (helo : str) (env : Envelope)
    (c : InboundCollector) : option (Server * bytes) :=
  let proto := if tls then lit "ESMTPSA" else lit "ESMTPA" in
  match into_message c env with
  | Err _ => Some (s, wire (lit "554 message parse error"))
  | Ok m =>
      if MAX_RECEIVED_HOPS <=? received_header_count m then
        Some (s, wire (lit "554 too many Received headers; possible mail loop"))
      else
        line ← received_header helo (srv_helo s) proto now;
        Some ((accept_inbound_io faults now s (prepend_header line m) Permitted).1, wire (lit "250 OK message accepted"))
  end.

Definition on_spool (s : Server) (f : FS → FS) : Server :=
  match srv_relay s with
  | Some sp => set_relay s (Some (mkSpool (f (sp_fs sp)) (sp_counter sp)))
  | None => s
  end.
(** [fault] is that of the entry's own operation, [faults] those of queueing the notice. *)
Definition bounce_and_notify_io (faults : nat → Fault) (fault : Fault) (now : Z) (s : Server) (e : SpoolEntry)
    (original : Message) (reason : str) : option Server :=
  s ← match se_sender e with
      | Some sender =>
          dsn ← build_failure_dsn (srv_helo s) sender (se_recipients e) reason (raw_headers original) now;
          Some (accept_inbound_io faults now s dsn Permitted).1
      | None => Some s
      end;
  Some (on_spool s (bounce_io fault now (se_id e))).
Definition relay_outcome_io (faults : nat → Fault) (fault : Fault) (report : RelayReport) (now : Z) (s : Server)
    (e : SpoolEntry) (m : Message) : option Server :=
  match report with
  | RelayDelivered => Some (on_spool s (remove_io fault now (se_id e)))
  | RelayDeferred code text =>
      let attempts := add_u32 (se_attempts e) 1 in
      if MAX_ATTEMPTS <=? attempts then
        bounce_and_notify_io faults fault now s e m
          (lit "retry limit reached after " ++ show attempts ++ lit " attempts: " ++ show code ++ lit " " ++ text)
      else
        next ← checked_add now (backoff attempts);
        Some (on_spool s (defer_io fault now (se_id e) attempts next))
  | RelayFailed reason => bounce_and_notify_io faults fault now s e m reason
  end.

(** ** Faults and crashes *)

(** A fault leaves a state a crash could have left, so that what the spool's crash theorems
    say of [crash] holds of faults; without one the operation runs as elsewhere. *)
Lemma exec_io_crash t ops : ∀ fault fs, crash t ops fs (exec_io fault t ops fs).2.
Proof.
  induction ops as [|op ops IH]; intros fault fs; [constructor|]. cbn [exec_io].
  assert (∀ fault', crash t (op :: ops) fs (match exec_op t op fs with Ok fs' => exec_io fault' t ops fs' | Err _ => (false, fs) end).2) as Hs.
  { intros fault'. destruct (exec_op t op fs) eqn:E; [by eapply crash_later|constructor]. }
  destruct fault as [[[|n] wrote]|]; [|apply Hs..]. cbn [snd].
  destruct op, wrote; try constructor. apply prefix_take.
Qed.
Lemma exec_io_none t ops : ∀ fs, (exec_io None t ops fs).2 = (exec t ops fs).2.
Proof. induction ops as [|op ops IH]; intros fs; [done|]. cbn [exec_io exec]. by destruct (exec_op t op fs). Qed.
Lemma exec_io_untouched t ops r : Forall (λ op, r ∉ touched op) ops → ∀ fault fs, (exec_io fault t ops fs).2 !! r = fs !! r.
Proof.
  induction 1 as [|op ops Hr _ IH]; intros fault fs; [done|]. cbn [exec_io].
  assert (∀ fault', (match exec_op t op fs with Ok fs' => exec_io fault' t ops fs' | Err _ => (false, fs) end).2 !! r = fs !! r) as Hs.
  { intros fault'. destruct (exec_op t op fs) as [fs'|] eqn:E; [|done]. rewrite IH. by eapply exec_op_untouched. }
  destruct fault as [[[|n] wrote]|]; [|apply Hs..]. cbn [snd].
  destruct op, wrote; try done. rewrite lookup_insert_ne; [done|]. intros <-. apply Hr. left.
Qed.

(** ** Accepting mail *)

Lemma enqueue_io_calls fault now m sp :
  let id := new_id now (sp_counter sp) in
  let '(ok, sp') := enqueue_io fault now m sp in
  sp_counter sp' = add_u64 (sp_counter sp) 1 ∧
  if ok then sp' = (enqueue now m sp).2
  else ∀ q, q ≠ tmp_path (eml_path id) → q ≠ tmp_path (ctrl_path id) → q ≠ eml_path id → sp_fs sp' !! q = sp_fs sp !! q.
Proof.
  cbv zeta. unfold enqueue_io, enqueue. set (id := new_id now (sp_counter sp)).
  destruct (exec_io _ _ _ _) as [ok fs'] eqn:E. split; [done|]. revert E.
  unfold enqueue_ops, write_atomic. cbn [app].
  destruct fault as [[[|[|[|[|n]]]] wrote]|]; cbn [exec_io exec exec_op]; unfold fs_rename; fs_simpl; cbn [exec_io exec exec_op];
    intros [= <- <-]; cbn [sp_fs]; [..|done|done].
  all: try destruct wrote; intros q H1 H2 H3; repeat first [rewrite lookup_insert_ne by done|rewrite lookup_delete_ne by done]; done.
Qed.

(** Queueing under faults is all or nothing: when [enqueue] reports success the entry is
    there as without faults, and when it reports a failure nothing is due that was not
    before. *)
Theorem enqueue_io_atomic (fault : Fault) (now : Z) (m : Message) (sp : OutboundSpool) :
  sp_fs sp !! ctrl_path (new_id now (sp_counter sp)) = None →
  let '(ok, sp') := enqueue_io fault now m sp in
  if ok then sp' = (enqueue now m sp).2 else ∀ t e, due t (sp_fs sp') e ↔ due t (sp_fs sp) e.
Proof.
  intros Hfresh. pose proof (enqueue_io_calls fault now m sp) as H. cbv zeta in H.
  destruct (enqueue_io fault now m sp) as [[] sp']; [apply H|]. destruct H as [_ Hsame]. intros t e.
  destruct (decide (se_id e = new_id now (sp_counter sp))) as [Heq|Hne].
  - split; intros Hd%due_needs_ctrl; rewrite Heq in Hd.
    + rewrite Hsame, Hfresh in Hd by path_ne. by apply is_Some_None in Hd.
    + rewrite Hfresh in Hd. by apply is_Some_None in Hd.
  - apply due_same. split_and!; apply Hsame; path_ne.
Qed.

Lemma accept_inbound_io_local faults now s m a :
  srv_store (accept_inbound_io faults now s m a).1 = srv_store (server_accept_inbound now s m a).1 ∧
  (accept_inbound_io faults now s m a).2 = (server_accept_inbound now s m a).2.
Proof.
  destruct (server_accept_local now s m a) as [-> ->]. unfold accept_inbound_io. destruct (accept_inbound _ _ _ m) as [st r].
  cbn. destruct (srv_relay s); [|done]. by destruct (_ && _).
Qed.

(** The client is not told: whatever fails on the disk, a submission gets the answer, and
    its local recipients the mail, it would have got. *)
Theorem faults_unseen (faults : nat → Fault) (now : Z) (s : Server) (tls : bool) (helo : str) (env : Envelope) (c : InboundCollector) :
  match submission_deliver_io faults now s tls helo env c, submission_deliver now s tls helo env c with
  | Some (s1, r1), Some (s2, r2) => r1 = r2 ∧ srv_store s1 = srv_store s2
  | None, None => True
  | _, _ => False
  end.
Proof.
  unfold submission_deliver_io, submission_deliver. destruct (into_message c env) as [m|]; [|done].
  destruct (_ <=? _); [done|]. destruct (received_header _ _ _ _); [|done]. cbn. split; [done|]. apply accept_inbound_io_local.
Qed.

(** So on a full disk mail is acknowledged and lost: one recipient, not hosted here, is
    answered 250 and nothing is due afterwards, at any time. *)
Definition full_disk (_ : nat) : Fault := Some (0%nat, None).
Example acknowledged_lost :
  match submission_deliver_io full_disk spool_now demo_server true (lit "c.org")
          (mkEnvelope (Some (mkMailbox (lit "u") (lit "local.org"))) [mkMailbox (lit "a") (lit "x.org")])
          (mkCollector spool_raw true true 1000 false) with
  | Some (s, reply) => reply = wire (lit "250 OK message accepted") ∧ queue_fs s = ∅ ∧ srv_store s = srv_store demo_server
  | None => False
  end.
Proof. by vm_compute. Qed.

(** ** The worker *)

Lemma enqueue_relay_io_paths id faults now src rs : id_old id now → ∀ sp, same_paths id (sp_fs sp) (sp_fs (enqueue_relay_io faults now sp src rs)).
Proof.
  intros Hid. unfold enqueue_relay_io. generalize (imap pair (by_domain rs)) as gs.
  induction gs as [|[i g] gs IH]; intros sp; [apply same_paths_refl|]. cbn [foldl]. eapply same_paths_trans; [|apply IH].
  unfold enqueue_io. destruct (exec_io _ _ _ _) as [ok fs'] eqn:E. cbn [snd sp_fs]. specialize (Hid (sp_counter sp)).
  assert (fs' = (exec_io (faults i) now (enqueue_ops (new_id now (sp_counter sp)) now (with_recipients src g.2)) (sp_fs sp)).2) as -> by by rewrite E.
  assert (∀ r, r ∈ [bouncing_marker id; eml_path id; ctrl_path id; bounced_eml id; bounced_ctrl id] →
    Forall (λ op, r ∉ touched op) (enqueue_ops (new_id now (sp_counter sp)) now (with_recipients src g.2))) as Hr by other_paths.
  split; [split_and!|split]; apply exec_io_untouched, Hr; clear; set_solver.
Qed.
Lemma accept_inbound_io_paths id faults now s m a :
  id_old id now → same_paths id (queue_fs s) (queue_fs (accept_inbound_io faults now s m a).1).
Proof.
  intros Hid. unfold accept_inbound_io, queue_fs. destruct (accept_inbound _ _ _ m) as [st r]. cbn.
  destruct (srv_relay s) as [sp|] eqn:Es; cbn; rewrite ?Es; [|apply same_paths_refl].
  destruct (_ && _); cbn; rewrite ?Es; [by apply enqueue_relay_io_paths|apply same_paths_refl].
Qed.

(** Where an entry can be found after an attempt that did not deliver it: both files in the
    queue, the control file as it was or rescheduled; being set aside; or set aside. *)
Definition found (id : str) (fe fc fc' : File) (fs : FS) : Prop :=
  in_main id fe fc fs ∨ in_main id fe fc' fs ∨ moving id fe fc fs ∨ in_bounced id fe fc fs.

Lemma bounce_io_found fault t id fe fc fc' fs : in_main id fe fc fs → found id fe fc fc' (bounce_io fault t id fs).
Proof.
  intros Hm. pose proof (exec_io_crash t (bounce_ops id) fault fs) as Hc. apply (bounce_crash_entry _ _ _ _ _ _ Hm) in Hc.
  unfold found. destruct Hc as [[? _]|[?|?]]; auto.
Qed.

(** No disk failure loses queued mail: whatever the relay client answers, other than that
    the message is delivered, and whichever calls fail, of the entry's own operation and of
    the notice to its sender, the message file is still there, byte for byte: queued with
    its control file as it was, or rewritten with the attempt counted, or set aside in
    [bounced/], or marked for the recovery at the next start to finish. *)
Theorem worker_faults_keep (faults : nat → Fault) (fault : Fault) (report : RelayReport) (now : Z) (s s' : Server)
    (e : SpoolEntry) (m : Message) (text : str) (fe fc : File) :
  let id := se_id e in
  report ≠ RelayDelivered → id_old id now → is_Some (srv_relay s) → in_main id fe fc (queue_fs s) →
  from_utf8 (f_data fc) = Some text → parse_ctrl id text = Ok e →
  relay_outcome_io faults fault report now s e m = Some s' →
  ∃ next, found id fe fc (mkFile (utf8_encode (render_ctrl (entry_envelope e) (add_u32 (se_attempts e) 1) next (se_created_at e))) now) (queue_fs s').
Proof.
  intros id Hr Hid Hrel Hmain Htext He.
  assert (∀ s1 f, is_Some (srv_relay s1) → queue_fs (on_spool s1 f) = f (queue_fs s1)) as Hon.
  { intros s1 f [sp Hsp]. unfold on_spool, queue_fs. by rewrite Hsp. }
  assert (∀ reason, bounce_and_notify_io faults fault now s e m reason = Some s' → ∀ fc', found id fe fc fc' (queue_fs s')) as Hb.
  { intros reason Hb fc'. unfold bounce_and_notify_io in Hb. destruct (se_sender e) as [sd|]; cbn [mbind option_bind] in Hb.
    - destruct (build_failure_dsn _ _ _ _ _ _) as [dsn|]; cbn [mbind option_bind] in Hb; [|done]. injection Hb as <-.
      rewrite Hon; [apply bounce_io_found; by eapply in_main_same, Hmain; apply accept_inbound_io_paths|].
      unfold accept_inbound_io. destruct (accept_inbound _ _ _ dsn). cbn. destruct Hrel as [sp Hsp]. rewrite Hsp.
      destruct (_ && _); cbn; rewrite ?Hsp; by eexists.
    - injection Hb as <-. rewrite Hon by done. by apply bounce_io_found. }
  unfold relay_outcome_io. destruct report as [|code txt|reason]; [done| |intros H; by exists 0; eapply Hb].
  destruct (_ <=? _); [intros H; by exists 0; eapply Hb|].
  destruct (checked_add now _) as [next|]; cbn [mbind option_bind]; [|done]. intros [= <-]. exists next. rewrite Hon by done.
  destruct Hmain as [Heml Hctrl]. unfold defer_io, defer_ops, fs_read_to_string, fs_read. unfold id in *. rewrite Hctrl.
  cbn [fmap option_fmap option_map ok_or mbind result_bind]. rewrite Htext. cbn [ok_or mbind result_bind]. rewrite He. cbn [mbind result_bind].
  match goal with |- context [exec_io _ _ (write_atomic _ ?b) _] => pose proof (exec_io_crash now (write_atomic (ctrl_path (se_id e)) b) fault (queue_fs s)) as Hc end.
  apply write_atomic_crash in Hc as [Hq| ->].
  - left. split; rewrite Hq by path_ne; done.
  - right; left. split; [|by fs_simpl]. by fs_simpl.
Qed.

(** A failed attempt on a full disk: the entry stays queued as it was. *)
Lemma worker_faults_keep_witness :
  let s := set_relay demo_server (Some (mkSpool spool_one 1)) in
  let e := new_entry spool_id spool_env spool_now in
  ∃ s' next fe fc, relay_outcome_io full_disk (Some (0%nat, None)) (RelayDeferred 421 (lit "busy")) later s e spool_msg = Some s' ∧
    found spool_id fe fc (mkFile (utf8_encode (render_ctrl (entry_envelope e) 1 next (se_created_at e))) later) (queue_fs s').
Proof.
  intros s e.
  assert (∃ fe fc, in_main spool_id fe fc spool_one ∧ ∃ text, from_utf8 (f_data fc) = Some text ∧ parse_ctrl spool_id text = Ok e) as (fe & fc & Hm & text & Ht & He).
  { exists spool_fe, spool_fc. split; [split; vm_compute; reflexivity|].
    exists (render_ctrl spool_env 0 spool_now spool_now). split; vm_compute; reflexivity. }
  assert (bool_decide (is_Some (relay_outcome_io full_disk (Some (0%nat, None)) (RelayDeferred 421 (lit "busy")) later s e spool_msg)) = true)
    as [s' E]%bool_decide_eq_true by (vm_compute; reflexivity).
  destruct (worker_faults_keep full_disk (Some (0%nat, None)) (RelayDeferred 421 (lit "busy")) later s s' e spool_msg text fe fc)
    as [next Hf]; [discriminate| |by eexists|exact Hm|exact Ht|exact He|exact E|].
  - exact spool_id_old.
  - exists s', next, fe, fc. exact (conj E Hf).
Defined.
